(* ===== verification/_CoqProject ===== *)
-Q . S2P
Prelude.v
Ints.v
U256.v
Types.v
OrdMap.v
Clob.v
ClobWf.v
ClobOps.v
ClobProps.v
Occupancy.v
Book.v
BookWf.v
BookOps.v
BookSpec.v
BookRefine.v
BookProps.v
Risk.v
RiskProps.v
Averages.v
BackstopMaker.v
Backstop.v
Fees.v
MarketData.v
I256.v
Positions.v
PositionProps.v
PositionLocks.v
Liquidation.v
LiquidationProps.v
Text.v
Sealed.v
Wire.v
Matcher.v
MatcherBook.v
MatcherProps.v
MatcherTrace.v
Field.v
Circuits.v
CircuitProps.v
ProofProps.v
Prover.v
MarginCircuit.v
Persistence.v
Service.v
ServiceProps.v
LiquidateProps.v
Config.v
ConfigProps.v
MarketMaker.v
MakerVenue.v
MarketMakerProps.v
Attestation.v
Secrets.v
SecretsProps.v
Envelope.v
EnvelopeProps.v
Keeper.v
KeeperProps.v
F64.v
Funding.v
FundingProps.v
Pusher.v
PusherProps.v
LocalDev.v
LocalDevProps.v
Clients.v
ClientsProps.v
Settle.v
SettleProps.v
Display.v
Tasks.v
TasksProps.v
Interleave.v
InterleaveProps.v
SystemProps.v
StateTypes.v
Progress.v
