(* ===== verification/Prelude.v ===== *)
(** * Cerdic: verification of the clearing kernel

    Cerdic clears leveraged trading on one collateral pool.  Its Rust workspace (under [crates/])
    is one enclave binary, [cerdic-tee-matcher], and the libraries it is built on.  A trader sends
    the enclave a signed, encrypted order; the enclave checks its nonce and its margin, matches it
    against a private in-memory book, lets a backstop maker serve what the book left, folds every
    fill onto the sealed position of each side, and hands the result to on-chain settlement and to
    a zero-knowledge prover.  Background tasks refresh prices and open interest, flush realized
    results, save the state to disk and restore it at boot.  At boot the enclave recovers its secrets
    from a key service and lets clients check an attestation of its public key.  Other programs are its
    clients, a market maker, a liquidation keeper, an order client and a load client; a price keeper
    pushes prices to the chain, and a driver starts and stops all of this for local development.
    This library translates these programs into Rocq, operation by operation, and proves what makes
    them correct.

    ** How the parts interact

<<
      envelope --> Envelope (decrypt, recover the signer) --> Wire (what was signed)
                           |
      AppState  ------> Matcher.post_order --> Liquidation.check_deposited_collateral (the gate)
        ^  ^               |                       (Risk: isolated margin;  Positions: caches)
        |  |               +--> Book.submit --> Occupancy        (the private book)
        |  |               +--> Backstop.try_fill, rescue        (liquidity of last resort)
        |  |               +--> MarketData.record, Fees          (tape and fee volume)
        |  |               +--> Positions.apply_fill per side    (accounting)
        |  |               +--> Circuits, Prover (proof of fills) (zk-circuits, proof.rs)
        |  |               +--> Settle (calls, broadcast);  Display (updates to subscribers)
        |  |            Interleave: the same handlers, and Tasks, cut at their locks, many at once
        |  +-- Service: oracle poll, open-interest scan, P&L flush, liquidate, attest, queries
        |      Funding: Hermes prices (F64), native funding index
        +----- Persistence: open, load, save, boot;  Config: the environment at startup;
               Secrets: the keys at startup;  Attestation: the token of the public key
      clients: MarketMaker (through MakerVenue, or from its environment on through Clients and
               Envelope), the order and load clients (Clients), Keeper;  Pusher: prices to the chain
      LocalDev: starts the chain, the enclave (Config) and the clients, and stops them
>>

    The public order book of [crates/clob] ([Clob]) and the portfolio margin and reference maker of
    [crates/risk] ([Risk], [BackstopMaker]) are libraries with their own contracts.
    The market-making client ([MarketMaker]) is a program of its own that trades through the
    signed endpoints.

    ** Files and the code they model

    - [Prelude]: outcomes ([exec]: a value or a panic; [result]: Rust's [Result]), their monads and
      sequencing, lists, tactics and hints.  [Ints]: Rust's primitive integers with their wrap-around.
    - [U256], [I256], [Field], [OrdMap]: interfaces.  [U256] and [I256] are type classes of
      operations with laws, because [primitive_types] and [alloy] are third-party; [Field] is the
      prime field and bit decomposition of arkworks; [OrdMap] is [BTreeMap].  The classes come with
      an instance, which the witnesses use.
    - [Types]: [common/src/types.rs].
    - [Clob], [ClobWf], [ClobOps], [ClobProps]: [clob/src/lib.rs], the public book: the state is
      [OrderBook], one definition per method.
    - [Occupancy]; [Book], [BookWf], [BookOps], [BookSpec], [BookRefine], [BookProps]:
      [cerdic-tee-matcher/src/book.rs], the private book: the pointer-level operations, the
      invariant that relates them to priority-ordered lists, the specification on those lists and
      the refinement.
    - [Risk], [RiskProps]: [risk/src/lib.rs].  [Averages], [BackstopMaker]:
      [risk/src/backstop_maker.rs].  [Backstop]: [backstop.rs].  [Fees]: [fees.rs] and
      [market_hours.rs].  [MarketData]: [market_data.rs].
    - [Positions], [PositionProps]: the folding of fills in [api.rs] (margin, realized results,
      caches, queues).  [PositionLocks]: the mutex of each position, with folds, liquidations and
      evictions as concurrent workers.  [Liquidation], [LiquidationProps]: the collateral gate, the margin of a
      loaded portfolio, the sizing of a liquidation and its grouping into calls.  [Sealed]:
      [sealed.rs], the bytes behind the symbolic sealed positions of the rest.
    - [Text]: Rust's strings: UTF-8, trimming, splitting, the printing and parsing of integers.
      [F64]: [f64] as the Standard Library's specification of binary64.
    - [Wire]: the signed payloads and match identifiers of [api.rs].  [Matcher], [MatcherBook],
      [MatcherProps], [MatcherTrace]: [AppState] and its signed endpoints, and runs of them.
      [Display]: the stream of book updates and the seeded history.  [Tasks], [TasksProps]: the
      background tasks and unsigned endpoints as steps between locks.  [Interleave],
      [InterleaveProps]: the handlers likewise, alone and interleaved with each other and with the
      tasks.  [SystemProps]: what the saved state and the open-interest index are in the presence of
      everything else.  [StateTypes]: the integers of the whole state keep their types, and what can
      still abort a handler.  [Progress]: runs without end, in which requests are answered and tasks end.
    - [Envelope], [EnvelopeProps]: [decrypt.rs], [keystore.rs] and the endpoints from an envelope on.
      [Secrets], [SecretsProps]: [kms.rs].  [Attestation]: [attestation.rs] and the endpoints that
      serve it.
    - [Circuits], [CircuitProps], [MarginCircuit], [ProofProps]: [zk-circuits] and the batching of
      [proof.rs].  [Prover]: the rest of [proof.rs], keys and proofs, over Groth16 as an interface.
    - [Persistence]: [persistence.rs] and its use at boot.  [Service], [ServiceProps],
      [LiquidateProps]: the background tasks and unsigned queries of [api.rs], [settle.rs] and
      [main.rs].  [Settle], [SettleProps]: the calls of [settle.rs], its reads, and its broadcasts
      against the nonces of the signing account.  [Funding], [FundingProps]: [oracle.rs], the live
      prices and the funding accrual of [api.rs].  [Config], [ConfigProps]: the configuration read by
      [main.rs].
    - [MarketMaker], [MakerVenue], [MarketMakerProps]: [bin/market_maker.rs], the [Exchange] class it
      sends requests through, and the enclave of [Matcher] as its instance.  [Keeper],
      [KeeperProps]: [bin/keeper_liquidator.rs], with the chain and the enclave as interfaces.
      [Pusher], [PusherProps]: [bin/keeper_price_pusher.rs].
    - [Clients], [ClientsProps]: the maker's configuration, floating-point terms, startup and
      envelopes; [bin/demo_client.rs] and [bin/stress_client.rs].  [LocalDev], [LocalDevProps]:
      [bin/local_dev.rs], as a computation over an outside that answers every effect.

    ** What the theorems show

    - The private book.  Any reachable book satisfies its representation invariant, every call on
      it returns, and it returns and becomes exactly what the list-level specification computes
      ([BookProps.submit_refines_spec]); from that, price-time priority, conservation, all-or-nothing
      fill-or-kill, post-only that never takes, no self-trade, exact cancel.
    - The public book.  Matching equals a declarative price-time allocation, on what the makers give
      and on what is left of them; conservation; the
      invariant of reachable books; exact cancel and modify; exactly when it panics.
    - Risk.  Closed forms of the isolated requirement and of the four portfolio terms, with their
      error and abort conditions; for portfolios within plain bounds on positions and parameters
      nothing wraps, and an example outside them does; withdraw safety is exactly a comparison.
    - Accounting.  A fill's effect on a position on every branch of the fold, and a conservation
      law for any sequence of fills.
    - Request handlers.  What an order does from its nonce check to its last position write;
      accepted nonces of a signer strictly increase along any run, so nothing is replayed; who may
      cancel; which payloads can share a signature; and from the wire on, that a sealed request
      reaches its handler and that only a request its signer signed changes anything.
    - Concurrency.  In any interleaving of handlers and tasks no nonce of a signer is used twice; the
      books stay reachable and nothing that holds the lock of the nonces, books, tapes or backstops
      aborts there, the broadcast of a changed book included; every integer of the state stays in its
      type, and a handler aborts only next to the end of a 256-bit amount or in reply to an offer of
      size zero; what keeps getting its turn is answered, or ends; a snapshot is the state at one moment and refuses what was spent by
      then, and the open-interest index is what the chain showed up to some block.
      A handler or task that runs alone computes its sequential definition (the lemmas
      [InterleaveProps.handler_alone], [TasksProps.tasks_alone]).  [InterleaveProps.rescue_race] is an interleaving in which the rescue cancels another
      trader's order.
    - Locks of positions.  A fold finds what it read, or nothing, when it writes, so no fold is lost
      to another; folds and liquidations never deadlock.  Two concrete runs show an eviction undone by
      a fold under way, and a closed position read back from the chain.
    - Broadcasts.  The lock keeps the nonces of concurrent transactions apart, unless an answer is
      lost.
    - Liquidation.  The gate admits exactly sufficient margin; how much of a portfolio is closed;
      the public check and the handler agree; what stays in the cache when a call fails.
    - Durability and background tasks.  A save followed by a boot restores the saved state, a
      failed save changes nothing, the open-interest index is exactly what the chain has shown, a
      flush reports exactly what the folds realized, and no task ever corrupts a book.
    - Secrets and attestation.  Secrets that were stored are recovered at every later boot; which
      failures give fresh ones.  The chunked decoder is exact on every input, and panics on exactly
      two chunk sizes.
    - Prices and funding.  Which price each market gets; the rate never leaves its bounds, whatever
      the samples; what a gap between two polls is charged.
    - Circuits.  The match circuit is satisfied exactly by legitimate matches with correct
      commitments; every book fill of an order is provable, and its proof verifies; what the margin
      circuit constrains.
    - The seeded history ends at the price it was asked for, at the present.
    - The keeper.  Its index ends up with every portfolio the chain has shown, however its polls
      fail in between.
    - The market maker.  Its quotes straddle the mid; its live orders are always among the ids it
      tracks, whatever the other traders and the network do; what its inventory estimate counts.  From its
      environment on and over encrypted envelopes it is the same process.
    - The price keeper.  Each tick submits exactly the update the feed signed, paid as quoted, or nothing.
    - The local driver.  What a completed start leaves is what the enclave's, the keeper's and the
      loops' own parsers read back as the nine markets with their contracts, feeds and aggregators,
      each from the line of the deployment output that names it, and signed for by keys the chain
      printed; stopping kills each process it started, once, and then sends its seven patterns.

    A lemma named [.._witness] applies the theorem of that name at a concrete input.

    ** Bounds, fuel and termination

    Every loop of the private book runs on fuel taken from the state (the number of arena slots or
    of ladder levels, plus one); [BookRefine] proves it enough, so the refinement theorem states
    that the call returns.  Matching in [Clob] recurses on the levels and queues themselves.
    The walk of [Display] has fuel for one print a minute back to the epoch, the attempts of [Funding]
    are the three the code makes, and the chunked decoder of [Attestation] recurses on the length of
    what is left.  [Panic] is a value, never an excuse: theorems say when it is reached and the service-level
    invariant says it is not reached by a request.  Primitive [+], [-] and [*] wrap, as in the
    release build the Dockerfile makes; where a theorem bounds an operand it is to show that the
    wrapped result is the exact one, and the theorems say what happens outside when it matters.

    ** Assumptions

    Allocation succeeds.  In [Matcher] and [Service] a handler or a task is one step; [Interleave]
    and [Tasks] take them apart at their locks: the reads of the gate and of a portfolio are one step
    per position, each with its own answers of the chain, and a fold is one step, which
    [PositionLocks] takes apart; the broadcast of a changed book is four, one for each of its locks.
    The funding accrual keeps maps of its own, so what a handler reads of
    it is arbitrary.  Clock, readings and payloads are of their machine types.  Outside [Sealed] the
    sealing of positions is symbolic (what was sealed under a key opens to the same value); the box,
    the signatures, base64 and JSON of [Envelope] and [Secrets] and Groth16 of [Prover] are classes with
    the laws their libraries document; hashes ([keccak256], SHA-256) are parameters.  [redb] commits a
    transaction wholly or not at all and [serde_json] decodes what it encoded.  In [Settle] the node
    keeps a transaction it holds until it is mined.  In [LocalDev] the deployment scripts log an
    address last on the lines it reads.  Environment values are ASCII.

    ** Not modelled, and why

    - [f64::powi] and [f64::ln] have no specified precision, and [rand] draws what it likes: they are
      parameters of [Funding], [Pusher], [Clients] and [LocalDev].
    - Cryptography itself: AES-GCM, the box and signatures, Groth16.
    - The network: HTTP clients and sockets, the ABI and the RPC client of alloy, the timers of
      [main.rs] and its shutdown signal.  What they answer is an argument or an interface.
    - [logging.rs], the lines every program prints, and [proof_bench.rs], which times the prover.
    - Other languages (the Solidity contracts, the front ends, the simulations) and the prototypes
      under [tiny/], which the workspace of [crates/] replaced.
    - The tests, benches and examples of the workspace.

    ** Plan

    Every component of the workspace with behaviour of its own is modelled.  What could follow is the
    funding accrual as steps of [Interleave], the contracts' side of a settlement, and a check of the
    constraint systems below the equations [Circuits] states. *)
From stdpp Require Export base numbers gmap list strings fin_maps sorting.

(** ** Outcomes of Rust code *)

(** The outcome of a Rust computation that may abort: [Ret a] when it returns [a], [Panic] when an
    [expect], an out-of-range index, a division by zero or a 256-bit overflow aborts it. *)
Inductive exec (A : Type) : Type :=
| Ret (a : A)
| Panic.
Arguments Ret {A} a.
Arguments Panic {A}.

(** Rust's [Result<A, E>]. *)
Inductive result (A E : Type) : Type :=
| Ok (a : A)
| Err (e : E).
Arguments Ok {A E} a.
Arguments Err {A E} e.

#[export] Instance exec_ret : MRet exec := @Ret.
#[export] Instance exec_bind : MBind exec := λ A B f m,
  match m with Ret a => f a | Panic => Panic end.
#[export] Instance exec_fmap : FMap exec := λ A B f m,
  match m with Ret a => Ret (f a) | Panic => Panic end.

(** Sequencing of computations that may both panic and return an [Err] (Rust's [?]). *)
Definition try_bind {A B E} (m : exec (result A E)) (k : A → exec (result B E)) :
    exec (result B E) :=
  match m with
  | Ret (Ok a) => k a
  | Ret (Err e) => Ret (Err e)
  | Panic => Panic
  end.

(** [Option::ok_or] and [Option::expect]. *)
Definition ok_or {A E} (o : option A) (e : E) : result A E :=
  match o with Some a => Ok a | None => Err e end.
Definition expect {A} (o : option A) : exec A :=
  match o with Some a => Ret a | None => Panic end.

(** Vector indexing: [v[i]] and [v[i] = x] abort out of range. *)
Definition vec_get {A} (l : list A) (i : nat) : exec A := expect (l !! i).
Definition vec_set {A} (l : list A) (i : nat) (x : A) : exec (list A) :=
  if decide (i < length l) then Ret (<[i:=x]> l) else Panic.
#[global] Arguments Nat.div : simpl never.
#[global] Arguments Nat.modulo : simpl never.
#[global] Arguments vec_get : simpl never.
#[global] Arguments vec_set : simpl never.

Definition is_err {A E} (r : result A E) : bool :=
  match r with Ok _ => false | Err _ => true end.
Definition is_panic {A} (m : exec A) : bool :=
  match m with Ret _ => false | Panic => true end.

Declare Scope rust_scope.
Delimit Scope rust_scope with rust.
Notation "x ←? m ; k" := (try_bind m (λ x, k))
  (at level 20, m at level 100, k at level 200, only parsing) : rust_scope.
Notation "' x ←? m ; k" := (try_bind m (λ x, k))
  (at level 20, x pattern, m at level 100, k at level 200, only parsing) : rust_scope.
Open Scope rust_scope.

(** A left fold whose step may panic or fail: a [for] loop with [?] in its body. *)
Fixpoint try_fold {A B E} (f : B → A → exec (result B E)) (acc : B) (l : list A) :
    exec (result B E) :=
  match l with
  | [] => Ret (Ok acc)
  | x :: l' => try_bind (f acc x) (λ acc', try_fold f acc' l')
  end.

(** Sum of a list of integers. *)
Definition sumZ (l : list Z) : Z := foldr Z.add 0%Z l.

(** The ids (or any other projection) of a list carry no duplicates. *)
Definition NoDup_by {A B} (f : A → B) (l : list A) : Prop := NoDup (f <$> l).

(** ** Inversion and evaluation lemmas *)

Create HintDb cerdic.
Create Rewrite HintDb cerdic.

Ltac solve_outcome :=
  split; intros; simplify_eq/=;
  repeat match goal with
  | H : _ ∨ _ |- _ => destruct H
  | H : ∃ _, _ |- _ => destruct H
  | H : _ ∧ _ |- _ => destruct H
  end; simplify_eq/=; try contradiction; eauto.

Section exec_lemmas.
Context {A B E : Type}.

Lemma bind_Ret (m : exec A) (f : A → exec B) b :
  m ≫= f = Ret b ↔ ∃ a, m = Ret a ∧ f a = Ret b.
Proof. destruct m; solve_outcome. Qed.

Lemma bind_Panic (m : exec A) (f : A → exec B) :
  m ≫= f = Panic ↔ m = Panic ∨ ∃ a, m = Ret a ∧ f a = Panic.
Proof. destruct m; solve_outcome. Qed.

Lemma try_bind_Ok (m : exec (result A E)) (k : A → exec (result B E)) b :
  try_bind m k = Ret (Ok b) ↔ ∃ a, m = Ret (Ok a) ∧ k a = Ret (Ok b).
Proof. destruct m as [[]|]; solve_outcome. Qed.

Lemma try_bind_Err (m : exec (result A E)) (k : A → exec (result B E)) e :
  try_bind m k = Ret (Err e) ↔
    m = Ret (Err e) ∨ ∃ a, m = Ret (Ok a) ∧ k a = Ret (Err e).
Proof. destruct m as [[]|]; solve_outcome. Qed.

Lemma try_bind_Panic (m : exec (result A E)) (k : A → exec (result B E)) :
  try_bind m k = Panic ↔ m = Panic ∨ ∃ a, m = Ret (Ok a) ∧ k a = Panic.
Proof. destruct m as [[]|]; solve_outcome. Qed.
End exec_lemmas.

Lemma vec_get_Ret {A} (l : list A) i x : l !! i = Some x → vec_get l i = Ret x.
Proof. unfold vec_get. by intros ->. Qed.

Lemma vec_set_Ret {A} (l : list A) i x : i < length l → vec_set l i x = Ret (<[i:=x]> l).
Proof. unfold vec_set. intros. by rewrite decide_True. Qed.

Lemma vec_set_Ret' {A} (l : list A) i x y : l !! i = Some y → vec_set l i x = Ret (<[i:=x]> l).
Proof. intros ?%lookup_lt_Some. by apply vec_set_Ret. Qed.

Lemma ret_bind {A B} (a : A) (f : A → exec B) : Ret a ≫= f = f a.
Proof. done. Qed.

Lemma bind_bind {A B C} (m : exec A) (f : A → exec B) (g : B → exec C) :
  m ≫= (λ a, f a ≫= g) = (m ≫= f) ≫= g.
Proof. by destruct m. Qed.

Lemma bind_bind3 {A B C D} (m : exec A) (f : A → exec B) (g : B → exec C) (k : C → exec D) :
  m ≫= (λ a, f a ≫= (λ b, g b ≫= k)) = (m ≫= (λ a, f a ≫= g)) ≫= k.
Proof. destruct m as [a|]; [|done]. simpl. by destruct (f a). Qed.

(** [run E] executes the computation at the head of the goal with the equation [E]. *)
Ltac run E := rewrite E; cbv beta iota delta [mbind exec_bind].

(** [inv_exec] opens every bind that is known to have returned. *)
Ltac inv_exec :=
  repeat match goal with
  | H : mbind _ _ = Ret _ |- _ => apply bind_Ret in H; destruct H as (? & ? & ?)
  | H : try_bind _ _ = Ret (Ok _) |- _ => apply try_bind_Ok in H; destruct H as (? & ? & ?)
  | H : Ret _ = Ret _ |- _ => injection H as H
  | H : Panic = Ret _ |- _ => discriminate H
  | H : Ret _ = Panic |- _ => discriminate H
  | H : expect ?o = Ret _ |- _ => destruct o eqn:?; [simpl in H|discriminate H]
  end; simplify_eq/=.

(** Case analysis on every match of the goal, keeping the equation. *)
Ltac split_matches :=
  repeat (case_match; simplify_eq/=).

(** ** Generic list lemmas *)

Section list_lemmas.
Context {A : Type}.
Implicit Types l : list A.

Lemma sumZ_cons (x : Z) (l : list Z) : sumZ (x :: l) = (x + sumZ l)%Z.
Proof. done. Qed.

Lemma sumZ_app (l1 l2 : list Z) : sumZ (l1 ++ l2) = (sumZ l1 + sumZ l2)%Z.
Proof. unfold sumZ. induction l1; simpl; lia. Qed.

Lemma sumZ_nonneg (l : list Z) : Forall (λ x, 0 ≤ x)%Z l → (0 ≤ sumZ l)%Z.
Proof. unfold sumZ. induction 1; simpl; lia. Qed.

Lemma sumZ_perm (l1 l2 : list Z) : l1 ≡ₚ l2 → sumZ l1 = sumZ l2.
Proof. unfold sumZ. induction 1; simpl; lia. Qed.

Lemma list_find_split (P : A → Prop) `{∀ x, Decision (P x)} l i x :
  list_find P l = Some (i, x) →
  ∃ l1 l2, l = l1 ++ x :: l2 ∧ i = length l1 ∧ P x ∧ Forall (λ y, ¬ P y) l1.
Proof.
  intros (Hi & HP & Hmin)%list_find_Some.
  exists (take i l), (drop (S i) l). split_and!.
  - by rewrite take_drop_middle.
  - rewrite length_take. apply lookup_lt_Some in Hi. lia.
  - done.
  - apply Forall_lookup. intros j y (Hj & Hlt)%lookup_take_Some. by eapply Hmin.
Qed.

Lemma filter_all (P : A → Prop) `{∀ x, Decision (P x)} l :
  Forall P l → filter P l = l.
Proof. induction 1; [done|]. rewrite filter_cons_True by done. by f_equal. Qed.

Lemma filter_none (P : A → Prop) `{∀ x, Decision (P x)} l :
  Forall (λ x, ¬ P x) l → filter P l = [].
Proof. induction 1; [done|]. by rewrite filter_cons_False. Qed.

Lemma filter_ext_in (P Q : A → Prop) `{∀ x, Decision (P x), ∀ x, Decision (Q x)} l :
  (∀ x, x ∈ l → P x ↔ Q x) → filter P l = filter Q l.
Proof.
  induction l as [|x l IH]; intros HPQ; [done|].
  rewrite !filter_cons, IH by (intros; apply HPQ; by right).
  pose proof (HPQ x ltac:(by left)). repeat case_decide; naive_solver.
Qed.

Lemma Forall_filter (P Q : A → Prop) `{∀ x, Decision (Q x)} l :
  Forall P l → Forall P (filter Q l).
Proof. rewrite !Forall_forall. intros HP x [_ Hx]%list_elem_of_filter. by apply HP. Qed.
End list_lemmas.

#[export] Hint Resolve sumZ_nonneg : cerdic.
