(* ===== verification/Ints.v ===== *)
(** * Machine integers

    Rust's fixed-width integers as [Z], with the wrap-around of the deployed build written out:
    [infra/docker] builds the binaries with [cargo build --release], whose profile
    ([crates/Cargo.toml]) leaves overflow checks off, so [+], [-] and [*] on a primitive integer
    wrap modulo its width.  The same expressions panic in a debug build; the range lemmas below
    say when neither happens. *)
From S2P Require Import Prelude.
Open Scope Z_scope.

(** ** Wrapping and ranges *)

Definition wrapu (w x : Z) : Z := x mod 2 ^ w.
Definition wraps (w x : Z) : Z := (x + 2 ^ (w - 1)) mod 2 ^ w - 2 ^ (w - 1).
Definition in_u (w x : Z) : Prop := 0 ≤ x < 2 ^ w.
Definition in_s (w x : Z) : Prop := - 2 ^ (w - 1) ≤ x < 2 ^ (w - 1).

#[export] Instance in_u_dec w x : Decision (in_u w x).
Proof. unfold in_u. apply _. Defined.
#[export] Instance in_s_dec w x : Decision (in_s w x).
Proof. unfold in_s. apply _. Defined.

Definition u64_max : Z := 2 ^ 64 - 1.
Definition u128_max : Z := 2 ^ 128 - 1.
Definition i128_max : Z := 2 ^ 127 - 1.
Definition i128_min : Z := - 2 ^ 127.
Definition i64_max : Z := 2 ^ 63 - 1.
Definition i64_min : Z := - 2 ^ 63.

(** ** Operators of the release build *)

Definition u64_add (a b : Z) : Z := wrapu 64 (a + b).
Definition u64_sub (a b : Z) : Z := wrapu 64 (a - b).
Definition u64_mul (a b : Z) : Z := wrapu 64 (a * b).
Definition u128_add (a b : Z) : Z := wrapu 128 (a + b).
Definition u128_mul (a b : Z) : Z := wrapu 128 (a * b).
Definition i128_add (a b : Z) : Z := wraps 128 (a + b).
Definition i128_sub (a b : Z) : Z := wraps 128 (a - b).
Definition i128_mul (a b : Z) : Z := wraps 128 (a * b).
Definition i128_neg (a : Z) : Z := wraps 128 (- a).

(** Casts ([as]). *)
Definition as_u32 (x : Z) : Z := wrapu 32 x.
Definition as_u64 (x : Z) : Z := wrapu 64 x.
Definition as_u128 (x : Z) : Z := wrapu 128 x.
Definition as_i64 (x : Z) : Z := wraps 64 x.
Definition as_i128 (x : Z) : Z := wraps 128 x.

(** [try_from] and the [checked_] and [saturating_] methods. *)
Definition try_u (w x : Z) : option Z := if decide (in_u w x) then Some x else None.
Definition try_s (w x : Z) : option Z := if decide (in_s w x) then Some x else None.
Definition sat_u (w x : Z) : Z := Z.max 0 (Z.min x (2 ^ w - 1)).
Definition sat_s (w x : Z) : Z := Z.max (- 2 ^ (w - 1)) (Z.min x (2 ^ (w - 1) - 1)).

(** Bit operations on [u64]: [!x], [x << n] for [n < 64], and the two bit scans. *)
Definition u64_not (x : Z) : Z := Z.lxor u64_max x.
Definition u64_shl (x : Z) (n : nat) : Z := wrapu 64 (Z.shiftl x (Z.of_nat n)).
Definition u64_shr (x : Z) (n : nat) : Z := Z.shiftr x (Z.of_nat n).

Definition testbit (x : Z) (n : nat) : bool := Z.testbit x (Z.of_nat n).

(** [trailing_zeros] and [leading_zeros]: the number of zero bits below the lowest, above the
    highest, set bit; 64 when there is none. *)
Definition trailing_zeros (x : Z) : nat :=
  default 64%nat (fst <$> list_find (λ i, testbit x i = true) (seq 0 64)).
Definition leading_zeros (x : Z) : nat :=
  default 64%nat (fst <$> list_find (λ i, testbit x (63 - i) = true) (seq 0 64)).

(** [u64::div_ceil], [abs_diff], [signum]. *)
Definition div_ceil (a b : Z) : Z := (a + b - 1) / b.
Definition abs_diff (a b : Z) : Z := Z.abs (a - b).

(** ** Range lemmas *)

Lemma wrapu_small w x : in_u w x → wrapu w x = x.
Proof. unfold in_u, wrapu. intros. by apply Z.mod_small. Qed.

Lemma wrapu_range w x : 0 ≤ w → in_u w (wrapu w x).
Proof. unfold in_u, wrapu. intros. apply Z.mod_pos_bound. by apply Z.pow_pos_nonneg. Qed.

Lemma pow2_pred_double w : 0 < w → 2 ^ w = 2 * 2 ^ (w - 1).
Proof. intros. rewrite <- Z.pow_succ_r by lia. f_equal. lia. Qed.

Lemma wraps_small w x : 0 < w → in_s w x → wraps w x = x.
Proof.
  unfold in_s, wraps. intros Hw Hx. rewrite Z.mod_small; [lia|].
  rewrite (pow2_pred_double w) by lia. lia.
Qed.

Lemma wraps_range w x : 0 < w → in_s w (wraps w x).
Proof.
  unfold in_s, wraps. intros Hw.
  pose proof (Z.mod_pos_bound (x + 2 ^ (w - 1)) (2 ^ w) ltac:(by apply Z.pow_pos_nonneg; lia)).
  rewrite (pow2_pred_double w) in * by lia. lia.
Qed.

Lemma try_u_Some w x y : try_u w x = Some y ↔ in_u w x ∧ y = x.
Proof. unfold try_u. case_decide; solve_outcome. Qed.
Lemma try_s_Some w x y : try_s w x = Some y ↔ in_s w x ∧ y = x.
Proof. unfold try_s. case_decide; solve_outcome. Qed.
Lemma try_u_in w x : in_u w x → try_u w x = Some x.
Proof. intros. by apply try_u_Some. Qed.
Lemma try_s_in w x : in_s w x → try_s w x = Some x.
Proof. intros. by apply try_s_Some. Qed.
Lemma try_u_None w x : try_u w x = None ↔ ¬ in_u w x.
Proof. unfold try_u. case_decide; solve_outcome. Qed.
Lemma try_s_None w x : try_s w x = None ↔ ¬ in_s w x.
Proof. unfold try_s. case_decide; solve_outcome. Qed.

Lemma wrapu_add_l w a b : 0 ≤ w → wrapu w (wrapu w a + b) = wrapu w (a + b).
Proof. intros. unfold wrapu. apply Zplus_mod_idemp_l. Qed.
Lemma wrapu_add_r w a b : 0 ≤ w → wrapu w (a + wrapu w b) = wrapu w (a + b).
Proof. intros. unfold wrapu. apply Zplus_mod_idemp_r. Qed.
Lemma wrapu_sub_l w a b : 0 ≤ w → wrapu w (wrapu w a - b) = wrapu w (a - b).
Proof. intros. unfold wrapu. apply Zminus_mod_idemp_l. Qed.

Lemma div_nonneg a b : 0 ≤ a → 0 < b → 0 ≤ a / b.
Proof. intros. by apply Z.div_pos. Qed.

Lemma div_le_self a b : 0 ≤ a → 0 < b → a / b ≤ a.
Proof. intros. apply Z.div_le_upper_bound; nia. Qed.

Lemma div_ceil_spec a b : 0 ≤ a → 0 < b →
  b * (div_ceil a b) - b < a ≤ b * (div_ceil a b).
Proof.
  unfold div_ceil. intros.
  pose proof (Z.div_mod (a + b - 1) b ltac:(lia)).
  pose proof (Z.mod_pos_bound (a + b - 1) b ltac:(lia)). lia.
Qed.

(** ** Bits of a [u64] *)

Lemma testbit_shl_ones n i : testbit (u64_shl u64_max n) i = bool_decide (n ≤ i < 64)%nat.
Proof.
  unfold testbit, u64_shl, wrapu, u64_max. apply eq_bool_prop_intro.
  rewrite bool_decide_spec, Is_true_true.
  destruct (decide (i < 64)%nat) as [Hi|Hi]; cycle 1.
  { rewrite Z.mod_pow2_bits_high by lia. split; [done|lia]. }
  rewrite Z.mod_pow2_bits_low by lia.
  change (2 ^ 64 - 1) with (Z.pred (2 ^ 64)). rewrite <- Z.ones_equiv.
  destruct (decide (n ≤ i)%nat).
  - rewrite Z.shiftl_spec_high, Z.ones_spec_low by lia. split; [lia|done].
  - rewrite Z.shiftl_spec_low by lia. split; [done|lia].
Qed.

Lemma testbit_shr_ones n i : testbit (u64_shr u64_max n) i = bool_decide (i + n < 64)%nat.
Proof.
  unfold testbit, u64_shr, u64_max. rewrite Z.shiftr_spec by lia.
  change (2 ^ 64 - 1) with (Z.pred (2 ^ 64)). rewrite <- Z.ones_equiv.
  case_bool_decide; [rewrite Z.ones_spec_low by lia|rewrite Z.ones_spec_high by lia]; done.
Qed.

Lemma testbit_land a b i : testbit (Z.land a b) i = testbit a i && testbit b i.
Proof. apply Z.land_spec. Qed.
Lemma testbit_lor a b i : testbit (Z.lor a b) i = testbit a i || testbit b i.
Proof. apply Z.lor_spec. Qed.

Lemma testbit_bit n i : testbit (Z.shiftl 1 (Z.of_nat n)) i = bool_decide (i = n).
Proof.
  unfold testbit. rewrite Z.shiftl_1_l, Z.pow2_bits_eqb by lia.
  apply eq_bool_prop_intro. rewrite bool_decide_spec, Is_true_true, Z.eqb_eq. lia.
Qed.

Lemma testbit_not x i : (i < 64)%nat → testbit (u64_not x) i = negb (testbit x i).
Proof.
  intros. unfold testbit, u64_not, u64_max. rewrite Z.lxor_spec.
  change (2 ^ 64 - 1) with (Z.pred (2 ^ 64)). rewrite <- Z.ones_equiv, Z.ones_spec_low by lia.
  by destruct (Z.testbit x _).
Qed.

Lemma testbit_high x i : in_u 64 x → (64 ≤ i)%nat → testbit x i = false.
Proof.
  intros [H0 Hx] Hi. unfold testbit. destruct (decide (x = 0)) as [->|]; [apply Z.testbit_0_l|].
  apply Z.bits_above_log2; [done|]. apply Z.log2_lt_pow2; [lia|].
  eapply Z.lt_le_trans; [exact Hx|]. apply Z.pow_le_mono_r; lia.
Qed.

(** A [u64] is determined by its 64 bits. *)
Lemma u64_bits_zero x : in_u 64 x → (∀ i, (i < 64)%nat → testbit x i = false) → x = 0.
Proof.
  intros Hx Hb. apply Z.bits_inj'. intros n Hn. rewrite Z.testbit_0_l.
  replace n with (Z.of_nat (Z.to_nat n)) by lia.
  destruct (decide (Z.to_nat n < 64)%nat); [by apply Hb|by apply testbit_high; [|lia]].
Qed.

Lemma in_u64_bits x : 0 ≤ x → (∀ i, (64 ≤ i)%nat → testbit x i = false) → in_u 64 x.
Proof.
  intros H0 Hb. split; [done|]. destruct (decide (x < 2 ^ 64)); [done|]. exfalso.
  assert (Hl : 64 ≤ Z.log2 x) by (apply Z.log2_le_pow2; lia).
  specialize (Hb (Z.to_nat (Z.log2 x)) ltac:(lia)). unfold testbit in Hb.
  rewrite Z2Nat.id in Hb by lia. by rewrite Z.bit_log2 in Hb by lia.
Qed.

Lemma u64_nonzero_bit x : in_u 64 x → x ≠ 0 ↔ ∃ i, (i < 64)%nat ∧ testbit x i = true.
Proof.
  intros Hx. split.
  - intros Hne. destruct (decide (Exists (λ i, testbit x i = true) (seq 0 64))) as [He|Hn].
    + apply Exists_exists in He as (i & Hi%elem_of_seq & ?). exists i. split; [lia|done].
    + destruct Hne. apply u64_bits_zero; [done|]. intros i Hi.
      apply not_true_iff_false. intros Ht. apply Hn, Exists_exists. exists i.
      rewrite elem_of_seq. split; [lia|done].
  - intros (i & _ & Hi) ->. unfold testbit in Hi. by rewrite Z.testbit_0_l in Hi.
Qed.

Lemma trailing_zeros_spec x :
  in_u 64 x → x ≠ 0 →
  (trailing_zeros x < 64)%nat ∧ testbit x (trailing_zeros x) = true ∧
  ∀ i, (i < trailing_zeros x)%nat → testbit x i = false.
Proof.
  intros Hx (i & Hi & Hb)%u64_nonzero_bit; [|done]. unfold trailing_zeros.
  destruct (list_find _ (seq 0 64)) as [[k y]|] eqn:Hf.
  - apply list_find_Some in Hf as (Hk & Hy & Hmin). apply lookup_seq in Hk as [-> ?]. simpl.
    split_and!; [lia|done|]. intros j Hj. apply not_true_iff_false.
    apply (Hmin j j); [|done]. apply lookup_seq. lia.
  - apply list_find_None in Hf. rewrite Forall_forall in Hf.
    destruct (Hf i); [apply elem_of_seq; lia|done].
Qed.

Lemma leading_zeros_spec x :
  in_u 64 x → x ≠ 0 →
  (leading_zeros x < 64)%nat ∧ testbit x (63 - leading_zeros x) = true ∧
  ∀ i, (63 - leading_zeros x < i)%nat → testbit x i = false.
Proof.
  intros Hx (i & Hi & Hb)%u64_nonzero_bit; [|done]. unfold leading_zeros.
  destruct (list_find _ (seq 0 64)) as [[k y]|] eqn:Hf.
  - apply list_find_Some in Hf as (Hk & Hy & Hmin). apply lookup_seq in Hk as [-> ?]. simpl.
    split_and!; [lia|done|]. intros j Hj.
    destruct (decide (64 ≤ j)%nat); [by apply testbit_high|]. apply not_true_iff_false.
    replace j with (63 - (63 - j))%nat by lia.
    apply (Hmin (63 - j)%nat (63 - j)%nat); [|lia]. apply lookup_seq. lia.
  - apply list_find_None in Hf. rewrite Forall_forall in Hf.
    destruct (Hf (63 - i)%nat); [apply elem_of_seq; lia|].
    by replace (63 - (63 - i))%nat with i by lia.
Qed.

(** [int_range] discharges goals [in_u _ _] and [in_s _ _] with literal widths. *)
Ltac int_range := unfold in_u, in_s in *; lia.

#[export] Hint Rewrite wrapu_add_l wrapu_add_r wrapu_sub_l using lia : cerdic.
#[export] Hint Resolve wrapu_range wraps_range : cerdic.
