(* ===== verification/U256.v ===== *)
(** * 256-bit unsigned arithmetic as an interface

    [primitive_types::U256] is a third-party type: the model takes its operators as a parameter.
    Its documented behaviour, which the laws state, is that [+], [*] and [/] return the exact
    result when it fits 256 bits and panic otherwise (division panics on a zero divisor). *)
From S2P Require Import Prelude Ints.
Open Scope Z_scope.

Class U256 := {
  u256_add : Z → Z → exec Z;
  u256_mul : Z → Z → exec Z;
  u256_div : Z → Z → exec Z;
}.

Class U256Laws (U : U256) : Prop := {
  u256_add_spec : ∀ a b, in_u 256 a → in_u 256 b →
    u256_add a b = if decide (in_u 256 (a + b)) then Ret (a + b) else Panic;
  u256_mul_spec : ∀ a b, in_u 256 a → in_u 256 b →
    u256_mul a b = if decide (in_u 256 (a * b)) then Ret (a * b) else Panic;
  u256_div_spec : ∀ a b, in_u 256 a → in_u 256 b →
    u256_div a b = if decide (b = 0) then Panic else Ret (a / b);
}.

(** An instance, for the witnesses. *)
Definition checked_u256 : U256 := {|
  u256_add := λ a b, expect (try_u 256 (a + b));
  u256_mul := λ a b, expect (try_u 256 (a * b));
  u256_div := λ a b, if decide (b = 0) then Panic else Ret (a / b);
|}.

(** [a * b / c]. *)
Definition mul_div `{U256} (a b c : Z) : exec Z := p ← u256_mul a b; u256_div p c.

#[export] Instance checked_u256_laws : U256Laws checked_u256.
Proof.
  split; intros a b Ha Hb; simpl; [unfold try_u; by case_decide|unfold try_u; by case_decide|done].
Qed.

Section laws.
Context `{!U256Laws U}.

Lemma u256_add_Ret a b : 0 ≤ a → 0 ≤ b → a + b < 2 ^ 256 → u256_add a b = Ret (a + b).
Proof. intros. rewrite u256_add_spec by (unfold in_u; lia). by rewrite decide_True by (unfold in_u; lia). Qed.

Lemma u256_mul_Ret a b : 0 ≤ a < 2 ^ 256 → 0 ≤ b < 2 ^ 256 → a * b < 2 ^ 256 → u256_mul a b = Ret (a * b).
Proof. intros. rewrite u256_mul_spec by done. rewrite decide_True; [done|]. unfold in_u. nia. Qed.

Lemma u256_div_Ret a b : 0 ≤ a < 2 ^ 256 → 0 < b < 2 ^ 256 → u256_div a b = Ret (a / b).
Proof. intros. rewrite u256_div_spec by (unfold in_u; lia). by rewrite decide_False by lia. Qed.

Lemma mul_div_Ret a b c :
  0 ≤ a < 2 ^ 256 → 0 ≤ b < 2 ^ 256 → a * b < 2 ^ 256 → 0 < c < 2 ^ 256 →
  mul_div a b c = Ret (a * b / c).
Proof.
  intros. unfold mul_div. rewrite u256_mul_Ret by done. rewrite ret_bind.
  apply u256_div_Ret; [nia|done].
Qed.

(** Two 128-bit factors never overflow. *)
Lemma mul_div_u128 a b c :
  in_u 128 a → in_u 128 b → 0 < c < 2 ^ 256 → mul_div a b c = Ret (a * b / c).
Proof.
  unfold in_u. intros. apply mul_div_Ret; [lia|lia| |done].
  change (2 ^ 256) with (2 ^ 128 * 2 ^ 128). apply Z.mul_lt_mono_nonneg; lia.
Qed.
End laws.
