(* ===== verification/Types.v ===== *)
(** * Shared types ([crates/common/src/types.rs])

    The cross-crate vocabulary: market ids, position sides with their sign multiplier, collateral
    tiers with their on-chain discriminants, and the per-market position record. *)
From S2P Require Import Prelude Ints.

(** [MarketId] and [Address] are plain strings on this surface. *)
Abbreviation MarketId := string (only parsing).

(** [common::types::MarketPosition]. *)
Record MarketPosition := {
  mp_market_id : MarketId;
  mp_size : Z;
  mp_entry_price : Z;
  mp_margin : Z;
  mp_leverage : Z;
}.

(** [common::types::CollateralTier], [#[repr(u8)]] with explicit discriminants. *)
Inductive CollateralTier := Tier1 | Tier2 | Tier3 | Tier4.

Definition tier_discriminant (t : CollateralTier) : Z :=
  match t with Tier1 => 1 | Tier2 => 2 | Tier3 => 3 | Tier4 => 4 end.

Definition is_riskier_than (self other : CollateralTier) : bool :=
  bool_decide (tier_discriminant other < tier_discriminant self)%Z.

Definition tier_fmt (t : CollateralTier) : string :=
  match t with
  | Tier1 => "Tier1" | Tier2 => "Tier2" | Tier3 => "Tier3" | Tier4 => "Tier4"
  end.

(** [common::types::Side]. *)
Inductive Side := Long | Short.

Definition sign_multiplier (s : Side) : Z :=
  match s with Long => 1 | Short => -1 end.

Definition side_fmt (s : Side) : string :=
  match s with Long => "Long" | Short => "Short" end.

#[export] Instance CollateralTier_eq_dec : EqDecision CollateralTier.
Proof. solve_decision. Defined.
#[export] Instance Side_eq_dec : EqDecision Side.
Proof. solve_decision. Defined.

(** The side a taker of side [s] trades against. *)
Definition other_side (s : Side) : Side := match s with Long => Short | Short => Long end.

(** ** Lemmas *)

Lemma is_riskier_than_strict t1 t2 t3 :
  is_riskier_than t1 t1 = false ∧
  (is_riskier_than t1 t2 = true → is_riskier_than t2 t3 = true → is_riskier_than t1 t3 = true) ∧
  (t1 = t2 ∨ is_riskier_than t1 t2 = true ∨ is_riskier_than t2 t1 = true).
Proof. destruct t1, t2, t3; vm_compute; intuition congruence. Qed.

Lemma other_side_involutive s : other_side (other_side s) = s.
Proof. by destruct s. Qed.

Lemma sign_multiplier_pm s : sign_multiplier s = 1%Z ∨ sign_multiplier s = (-1)%Z.
Proof. destruct s; auto. Qed.
