(* ===== verification/OrdMap.v ===== *)
(** * Ordered maps

    [std::collections::BTreeMap] as the matching engine uses it: a finite map whose entries are
    visited in key order.  A map is the list of its entries in iteration order; the order is a
    parameter, because the book keys its bids by [std::cmp::Reverse]. *)
From S2P Require Import Prelude.

(** ** The order interface *)

(** A strict total order given by a boolean test. *)
Class StrictTotal {K : Type} (lt : K → K → bool) : Prop := {
  lt_irrefl : ∀ k, lt k k = false;
  lt_trans : ∀ k1 k2 k3, lt k1 k2 = true → lt k2 k3 = true → lt k1 k3 = true;
  lt_total : ∀ k1 k2, lt k1 k2 = false → lt k2 k1 = false → k1 = k2;
}.

(** ** Operations *)

Section ops.
Context {K V : Type} `{EqDecision K} (lt : K → K → bool).

(** [BTreeMap::get]. *)
Fixpoint om_get (m : list (K * V)) (k : K) : option V :=
  match m with
  | [] => None
  | (k', v) :: m' => if decide (k = k') then Some v else om_get m' k
  end.

(** [BTreeMap::insert], and the write through [get_mut] or [entry]. *)
Fixpoint om_insert (m : list (K * V)) (k : K) (v : V) : list (K * V) :=
  match m with
  | [] => [(k, v)]
  | (k', v') :: m' =>
      if decide (k = k') then (k, v) :: m'
      else if lt k k' then (k, v) :: (k', v') :: m'
      else (k', v') :: om_insert m' k v
  end.

(** [BTreeMap::remove]. *)
Fixpoint om_remove (m : list (K * V)) (k : K) : list (K * V) :=
  match m with
  | [] => []
  | (k', v') :: m' => if decide (k = k') then m' else (k', v') :: om_remove m' k
  end.

(** [keys().next()]. *)
Definition om_first (m : list (K * V)) : option K := fst <$> head m.

(** The entries are in strictly increasing key order. *)
Definition om_sorted (m : list (K * V)) : Prop :=
  StronglySorted (λ e1 e2, lt e1.1 e2.1 = true) m.
End ops.

(** ** Laws *)

Section laws.
Context {K V : Type} `{EqDecision K} (lt : K → K → bool) `{!StrictTotal lt}.
Implicit Types m : list (K * V).

Lemma om_sorted_cons e m :
  om_sorted lt (e :: m) ↔ om_sorted lt m ∧ Forall (λ e', lt e.1 e'.1 = true) m.
Proof.
  split; [intros [??]%StronglySorted_inv; done|].
  intros [??]. by constructor.
Qed.

Lemma om_get_elem m k v : om_sorted lt m → (k, v) ∈ m ↔ om_get m k = Some v.
Proof.
  induction m as [|[k' v'] m IH]; intros Hs; simpl.
  { split; [by intros ?%elem_of_nil|done]. }
  apply om_sorted_cons in Hs as [Hs Hlt]. rewrite elem_of_cons, IH by done.
  case_decide as Hk; [subst k'|naive_solver].
  split; [|naive_solver]. intros [?|Hin]; [naive_solver|].
  apply IH in Hin; [|done]. rewrite Forall_forall in Hlt.
  specialize (Hlt _ Hin). simpl in Hlt. by rewrite lt_irrefl in Hlt.
Qed.

Lemma om_get_None_lt m k : Forall (λ e, lt k e.1 = true) m → om_get m k = None.
Proof.
  induction 1 as [|[k' v'] m Hlt _ IH]; simpl; [done|].
  case_decide; [subst|done]. simpl in Hlt. by rewrite lt_irrefl in Hlt.
Qed.

Lemma om_insert_Forall (P : K * V → Prop) m k v :
  P (k, v) → Forall P m → Forall P (om_insert lt m k v).
Proof.
  intros HP. induction 1 as [|[k' v'] m ? ? IH]; simpl; [by constructor|].
  repeat case_decide || case_match; repeat constructor; done.
Qed.

Lemma om_insert_sorted m k v : om_sorted lt m → om_sorted lt (om_insert lt m k v).
Proof.
  induction m as [|[k' v'] m IH]; intros Hs; simpl.
  { repeat constructor. }
  apply om_sorted_cons in Hs as [Hs Hlt]. case_decide as Hk.
  { subst. by apply om_sorted_cons. }
  destruct (lt k k') eqn:Hkk'.
  - rewrite !om_sorted_cons. split_and!; try done. constructor; [done|].
    eapply Forall_impl; [done|]. simpl. intros e. by apply lt_trans.
  - apply om_sorted_cons. split; [by apply IH|]. apply om_insert_Forall; [|done].
    simpl. destruct (lt k' k) eqn:?; [done|]. by destruct Hk, (lt_total k k').
Qed.

Lemma om_remove_Forall (P : K * V → Prop) m k : Forall P m → Forall P (om_remove m k).
Proof.
  induction 1 as [|[k' v'] m ? ? IH]; simpl; [done|].
  case_decide; [done|]. by constructor.
Qed.

Lemma om_remove_sorted m k : om_sorted lt m → om_sorted lt (om_remove m k).
Proof.
  induction m as [|[k' v'] m IH]; intros Hs; simpl; [done|].
  apply om_sorted_cons in Hs as [Hs Hlt]. case_decide; [done|].
  apply om_sorted_cons. split; [by apply IH|by apply om_remove_Forall].
Qed.

Lemma om_get_insert m k v k' :
  om_sorted lt m →
  om_get (om_insert lt m k v) k' = if decide (k' = k) then Some v else om_get m k'.
Proof.
  induction m as [|[k0 v0] m IH]; intros Hs; simpl; [done|].
  apply om_sorted_cons in Hs as [Hs Hlt].
  destruct (decide (k = k0)) as [<-|Hk]; simpl; [by repeat case_decide|].
  destruct (lt k k0) eqn:?; simpl; [done|].
  rewrite IH by done. repeat case_decide; congruence.
Qed.

Lemma om_get_remove m k k' :
  om_sorted lt m → om_get (om_remove m k) k' = if decide (k' = k) then None else om_get m k'.
Proof.
  induction m as [|[k0 v0] m IH]; intros Hs; simpl; [by case_decide|].
  apply om_sorted_cons in Hs as [Hs Hlt].
  destruct (decide (k = k0)) as [<-|Hk]; simpl.
  - case_decide; [subst|done]. by apply om_get_None_lt.
  - rewrite IH by done. repeat case_decide; congruence.
Qed.

(** A present key splits the map at its entry; reads and writes there are local. *)
Lemma om_get_split m k v :
  om_sorted lt m → om_get m k = Some v →
  ∃ m1 m2, m = m1 ++ (k, v) :: m2 ∧ om_remove m k = m1 ++ m2 ∧
    ∀ v', om_insert lt m k v' = m1 ++ (k, v') :: m2.
Proof.
  induction m as [|[k0 v0] m IH]; intros Hs Hg; simpl in *; [done|].
  apply om_sorted_cons in Hs as [Hs Hlt]. case_decide as Hk.
  { simplify_eq. by exists [], m. }
  destruct (IH Hs Hg) as (m1 & m2 & -> & Hr & Hi).
  exists ((k0, v0) :: m1), m2. split_and!; [done|by rewrite Hr|].
  intros v'. rewrite Hi. destruct (lt k k0) eqn:Hkk0; [|done].
  rewrite Forall_forall in Hlt.
  specialize (Hlt (k, v) ltac:(set_solver)). simpl in Hlt.
  pose proof (lt_trans _ _ _ Hkk0 Hlt) as Hirr. by rewrite lt_irrefl in Hirr.
Qed.

(** An absent key is inserted between the smaller and the larger entries. *)
Lemma om_insert_split m k v :
  om_sorted lt m → om_get m k = None →
  ∃ m1 m2, m = m1 ++ m2 ∧ om_insert lt m k v = m1 ++ (k, v) :: m2 ∧
    Forall (λ e, lt e.1 k = true) m1 ∧ Forall (λ e, lt k e.1 = true) m2.
Proof.
  induction m as [|[k0 v0] m IH]; intros Hs Hg; simpl in *.
  { exists [], []. by repeat constructor. }
  apply om_sorted_cons in Hs as [Hs Hlt]. case_decide as Hk; [done|].
  destruct (lt k k0) eqn:Hkk0.
  - exists [], ((k0, v0) :: m). split_and!; try done. constructor; [done|].
    eapply Forall_impl; [done|]. simpl. intros e. by apply lt_trans.
  - destruct (IH Hs Hg) as (m1 & m2 & -> & Hi & ? & ?).
    exists ((k0, v0) :: m1), m2. split_and!; [done|by rewrite Hi| |done].
    constructor; [|done]. simpl. destruct (lt k0 k) eqn:?; [done|].
    by destruct Hk, (lt_total k k0).
Qed.

(** In a sorted map an entry's key determines its position. *)
Lemma om_split_unique m1 m2 m1' m2' k v v' :
  om_sorted lt (m1 ++ (k, v) :: m2) → m1 ++ (k, v) :: m2 = m1' ++ (k, v') :: m2' →
  m1 = m1' ∧ v = v' ∧ m2 = m2'.
Proof.
  revert m1'. induction m1 as [|[k0 v0] m1 IH]; intros [|[k1 v1] m1'] Hs Heq; simpl in *.
  - injection Heq as -> ->. done.
  - injection Heq as <- <- ->.
    apply om_sorted_cons in Hs as [_ Hlt]. rewrite Forall_forall in Hlt.
    specialize (Hlt (k, v') ltac:(set_solver)). simpl in Hlt. by rewrite lt_irrefl in Hlt.
  - injection Heq as -> -> Heq.
    apply om_sorted_cons in Hs as [_ Hlt]. rewrite Forall_forall in Hlt.
    specialize (Hlt (k, v) ltac:(set_solver)). simpl in Hlt. by rewrite lt_irrefl in Hlt.
  - injection Heq as -> -> Heq. apply om_sorted_cons in Hs as [Hs _].
    destruct (IH m1' Hs Heq) as (-> & -> & ->). done.
Qed.

Lemma om_get_app_r m1 m2 k :
  om_get m1 k = None → om_get (m1 ++ m2) k = om_get m2 k.
Proof. induction m1 as [|[k' v'] m1 IH]; simpl; [done|]. case_decide; naive_solver. Qed.
End laws.
