(* ===== verification/Clob.v ===== *)
(** * The public order book: data and operations ([crates/clob/src/lib.rs])

    One [OrderBook] per market: asks keyed ascending by price, bids keyed descending (through
    [Reverse]), each level a FIFO queue of orders, and an index from live order ids to their side
    and price.  Definitions only; the invariant is in [ClobWf], the matching theorems are in
    [ClobProps]. *)
From S2P Require Import Prelude Ints Types OrdMap.
Open Scope Z_scope.

(** ** Data *)

(** [OrderId] is a [u64], [Price] a [U256] that the book only compares and tests for zero. *)
Abbreviation OrderId := Z (only parsing).
Abbreviation Price := Z (only parsing).

Record Order := {
  o_id : OrderId;
  o_side : Side;
  o_price : Price;
  o_size : Z;
  o_expiry_block : Z;
  o_signature : list Z;
}.

Record MatchedTrade := {
  long_order_id : OrderId;
  short_order_id : OrderId;
  t_price : Price;
  t_size : Z;
  t_premium : Z;
}.

Record MatchResult := {
  trade : MatchedTrade;
  maker_order_id : OrderId;
  maker_remaining : Z;
  taker_remaining : Z;
}.

Inductive ClobError :=
| OrderNotFound (id : OrderId)
| ZeroSize
| ZeroPrice
| SideSizeSignMismatch (id : OrderId) (side : Side) (size : Z).

Record BookLocation := { loc_side : Side; loc_price : Price }.

(** A price level's [VecDeque<Order>], front first. *)
Abbreviation Level := (list Order) (only parsing).

Record OrderBook := {
  asks : list (Price * Level);
  bids : list (Price * Level);
  index : gmap OrderId BookLocation;
}.

#[export] Instance Order_eq_dec : EqDecision Order.
Proof. solve_decision. Defined.
#[export] Instance ClobError_eq_dec : EqDecision ClobError.
Proof. solve_decision. Defined.
#[export] Instance BookLocation_eq_dec : EqDecision BookLocation.
Proof. solve_decision. Defined.

(** The key order of each side's map: [BTreeMap<Price, _>] ascends, [BTreeMap<Reverse<Price>, _>]
    descends. *)
Definition before (s : Side) (p q : Price) : bool :=
  match s with Short => p <? q | Long => q <? p end.

Definition side_levels (b : OrderBook) (s : Side) : list (Price * Level) :=
  match s with Long => bids b | Short => asks b end.

Definition set_levels (b : OrderBook) (s : Side) (m : list (Price * Level)) : OrderBook :=
  match s with
  | Long => {| asks := asks b; bids := m; index := index b |}
  | Short => {| asks := m; bids := bids b; index := index b |}
  end.

Definition set_index (b : OrderBook) (i : gmap OrderId BookLocation) : OrderBook :=
  {| asks := asks b; bids := bids b; index := i |}.

(** ** [impl Order] *)

Definition quantity (o : Order) : Z := Z.abs (o_size o).

Definition side_agrees_with_size (s : Side) (size : Z) : bool :=
  bool_decide (size ≠ 0) && bool_decide (Z.sgn size = sign_multiplier s).

Definition validate (o : Order) : result unit ClobError :=
  if decide (o_size o = 0) then Err ZeroSize
  else if decide (o_price o = 0) then Err ZeroPrice
  else if side_agrees_with_size (o_side o) (o_size o) then Ok tt
  else Err (SideSizeSignMismatch (o_id o) (o_side o) (o_size o)).

Definition with_size (o : Order) (size : Z) : Order :=
  {| o_id := o_id o; o_side := o_side o; o_price := o_price o; o_size := size;
     o_expiry_block := o_expiry_block o; o_signature := o_signature o |}.

Definition with_price (o : Order) (price : Price) : Order :=
  {| o_id := o_id o; o_side := o_side o; o_price := price; o_size := o_size o;
     o_expiry_block := o_expiry_block o; o_signature := o_signature o |}.

(** [set_quantity] panics when the magnitude does not fit an [i128]. *)
Definition set_quantity (o : Order) (q : Z) : exec Order :=
  magnitude ← expect (try_s 128 q);
  Ret (with_size o (i128_mul magnitude (sign_multiplier (o_side o)))).

(** ** Queries *)

Definition new : OrderBook := {| asks := []; bids := []; index := ∅ |}.

Definition len (b : OrderBook) : nat := size (index b).
Definition is_empty (b : OrderBook) : bool := bool_decide (len b = 0%nat).
Definition best_bid (b : OrderBook) : option Price := om_first (bids b).
Definition best_ask (b : OrderBook) : option Price := om_first (asks b).
Definition contains (b : OrderBook) (id : OrderId) : bool := bool_decide (is_Some (index b !! id)).

Definition find_in_level (level : Level) (id : OrderId) : option (nat * Order) :=
  list_find (λ o, o_id o = id) level.

Definition order (b : OrderBook) (id : OrderId) : option Order :=
  match index b !! id with
  | None => None
  | Some location =>
      match om_get (side_levels b (loc_side location)) (loc_price location) with
      | None => None
      | Some level => snd <$> find_in_level level id
      end
  end.

Definition order_ids_at (b : OrderBook) (s : Side) (p : Price) : list OrderId :=
  match om_get (side_levels b s) p with
  | Some queue => o_id <$> queue
  | None => []
  end.

(** ** Matching *)

(** The inner [while] loop of [match_against_asks] and [match_against_bids]: fills the level's
    front orders.  A maker left with quantity has taken all that remained, so the loop's guard
    ends it there. *)
Fixpoint fill_level (mk_trade : OrderId → Price → Z → MatchedTrade) (level_price : Price)
    (level : Level) (remaining : Z) (idx : gmap OrderId BookLocation) :
    exec (Level * (Z * gmap OrderId BookLocation * list MatchResult)) :=
  if decide (0 < remaining) then
    match level with
    | [] => Ret ([], (remaining, idx, []))
    | maker :: rest =>
        let fill := Z.min (quantity maker) remaining in
        let m_remaining := quantity maker - fill in
        let remaining' := remaining - fill in
        let r := {| trade := mk_trade (o_id maker) level_price (as_i128 fill);
                    maker_order_id := o_id maker;
                    maker_remaining := as_i128 m_remaining;
                    taker_remaining := as_i128 remaining' |} in
        if decide (m_remaining = 0) then
          '(level', (rem, idx', rs)) ←
            fill_level mk_trade level_price rest remaining' (delete (o_id maker) idx);
          Ret (level', (rem, idx', r :: rs))
        else
          maker' ← set_quantity maker m_remaining;
          Ret (maker' :: rest, (remaining', idx, [r]))
    end
  else Ret (level, (remaining, idx, [])).

(** The outer [while] loop: best level first, an emptied level is removed, a level left non-empty
    has exhausted the taker. *)
Fixpoint sweep (crosses : Price → bool) (mk_trade : OrderId → Price → Z → MatchedTrade)
    (levels : list (Price * Level)) (remaining : Z) (idx : gmap OrderId BookLocation) :
    exec (list (Price * Level) * (Z * gmap OrderId BookLocation * list MatchResult)) :=
  if decide (0 < remaining) then
    match levels with
    | [] => Ret ([], (remaining, idx, []))
    | (level_price, level) :: rest =>
        if crosses level_price then
          '(level', (rem, idx', rs)) ← fill_level mk_trade level_price level remaining idx;
          match level' with
          | [] =>
              '(rest', (rem2, idx2, rs2)) ← sweep crosses mk_trade rest rem idx';
              Ret (rest', (rem2, idx2, rs ++ rs2))
          | _ => Ret ((level_price, level') :: rest, (rem, idx', rs))
          end
        else Ret (levels, (remaining, idx, []))
    end
  else Ret (levels, (remaining, idx, [])).

Definition asks_trade (taker_id maker_id : OrderId) (p : Price) (fill : Z) : MatchedTrade :=
  {| long_order_id := taker_id; short_order_id := maker_id; t_price := p; t_size := fill;
     t_premium := 0 |}.

Definition bids_trade (taker_id maker_id : OrderId) (p : Price) (fill : Z) : MatchedTrade :=
  {| long_order_id := maker_id; short_order_id := taker_id; t_price := p; t_size := fill;
     t_premium := 0 |}.

Definition match_against_asks (b : OrderBook) (taker_id : OrderId) (limit : Price) (remaining : Z) :
    exec (OrderBook * Z * list MatchResult) :=
  '(levels, (rem, idx, rs)) ←
    sweep (λ level_price, level_price <=? limit) (asks_trade taker_id) (asks b) remaining (index b);
  Ret (set_index (set_levels b Short levels) idx, rem, rs).

Definition match_against_bids (b : OrderBook) (taker_id : OrderId) (limit : Price) (remaining : Z) :
    exec (OrderBook * Z * list MatchResult) :=
  '(levels, (rem, idx, rs)) ←
    sweep (λ level_price, limit <=? level_price) (bids_trade taker_id) (bids b) remaining (index b);
  Ret (set_index (set_levels b Long levels) idx, rem, rs).

(** [entry(price).or_default().push_back(order)]. *)
Definition push_level (s : Side) (m : list (Price * Level)) (p : Price) (o : Order) :
    list (Price * Level) :=
  om_insert (before s) m p (default [] (om_get m p) ++ [o]).

Definition insert_resting (b : OrderBook) (o : Order) (remaining : Z) : exec OrderBook :=
  o' ← set_quantity o remaining;
  let location := {| loc_side := o_side o'; loc_price := o_price o' |} in
  let b' := set_levels b (o_side o') (push_level (o_side o') (side_levels b (o_side o'))
                                        (o_price o') o') in
  Ret (set_index b' (<[o_id o' := location]> (index b'))).

Definition process_order (b : OrderBook) (o : Order) : exec (list MatchResult * OrderBook) :=
  if is_err (validate o) || contains b (o_id o) then Ret ([], b)
  else
    '(b1, remaining, results) ←
      match o_side o with
      | Long => match_against_asks b (o_id o) (o_price o) (quantity o)
      | Short => match_against_bids b (o_id o) (o_price o) (quantity o)
      end;
    if decide (0 < remaining) then
      b2 ← insert_resting b1 o remaining;
      Ret (results, b2)
    else Ret (results, b1).

(** ** Cancel, modify, recycle *)

(** [remove_from_level]: [None] when the level or the order is missing; does not touch the
    index. *)
Definition remove_from_level (b : OrderBook) (location : BookLocation) (id : OrderId) :
    option (Order * OrderBook) :=
  let s := loc_side location in
  let m := side_levels b s in
  match om_get m (loc_price location) with
  | None => None
  | Some level =>
      match find_in_level level id with
      | None => None
      | Some (position, removed) =>
          let level' := delete position level in
          let m' := match level' with
                    | [] => om_remove m (loc_price location)
                    | _ => om_insert (before s) m (loc_price location) level'
                    end in
          Some (removed, set_levels b s m')
      end
  end.

Definition cancel_order (b : OrderBook) (id : OrderId) : exec (result Order ClobError * OrderBook) :=
  match index b !! id with
  | None => Ret (Err (OrderNotFound id), b)
  | Some location =>
      '(o, b') ← expect (remove_from_level (set_index b (delete id (index b))) location id);
      Ret (Ok o, b')
  end.

Definition modify_order (b : OrderBook) (id : OrderId) (new_price : Price) (new_size : Z) :
    exec (result unit ClobError * OrderBook) :=
  if decide (new_size = 0) then Ret (Err ZeroSize, b)
  else if decide (new_price = 0) then Ret (Err ZeroPrice, b)
  else
    match index b !! id with
    | None => Ret (Err (OrderNotFound id), b)
    | Some location =>
        let s := loc_side location in
        if negb (side_agrees_with_size s new_size) then
          Ret (Err (SideSizeSignMismatch id s new_size), b)
        else if decide (loc_price location = new_price) then
          level ← expect (om_get (side_levels b s) (loc_price location));
          '(position, o) ← expect (find_in_level level id);
          Ret (Ok tt, set_levels b s (om_insert (before s) (side_levels b s) (loc_price location)
                                        (<[position := with_size o new_size]> level)))
        else
          '(o, b1) ← expect (remove_from_level b location id);
          let o' := with_size (with_price o new_price) new_size in
          let b2 := set_levels b1 s (push_level s (side_levels b1 s) new_price o') in
          Ret (Ok tt, set_index b2 (<[id := {| loc_side := s; loc_price := new_price |}]>
                                      (index b2)))
    end.

(** The orders of one side's map, in iteration order. *)
Definition level_orders (m : list (Price * Level)) : list Order := m ≫= snd.

Definition expired_in (current_block : Z) (m : list (Price * Level)) : list OrderId :=
  o_id <$> filter (λ o, o_expiry_block o ≤ current_block) (level_orders m).

(** [for &order_id in &expired { let _ = self.cancel_order(order_id); }]. *)
Fixpoint cancel_all (b : OrderBook) (ids : list OrderId) : exec OrderBook :=
  match ids with
  | [] => Ret b
  | id :: ids' => '(_, b') ← cancel_order b id; cancel_all b' ids'
  end.

Definition cleanup_expired (b : OrderBook) (current_block : Z) : exec (list OrderId * OrderBook) :=
  let expired := expired_in current_block (asks b) ++ expired_in current_block (bids b) in
  b' ← cancel_all b expired;
  Ret (expired, b').
