(* ===== verification/ClobWf.v ===== *)
(** * The public order book: the invariant and the flat view

    A book is well formed when each side's levels are non-empty and in strict price order, every
    resting order sits on the level of its own side and price and passes [validate], live ids are
    unique, and the index is exactly the map from the live orders to their locations.  Every
    operation is described through the flat view of a side: its resting orders in priority
    order (price first, arrival second). *)
From S2P Require Import Prelude Ints Types OrdMap Clob.
Open Scope Z_scope.

(** ** Definitions *)

Definition live_side (b : OrderBook) (s : Side) : list Order := level_orders (side_levels b s).
Definition live (b : OrderBook) : list Order := live_side b Short ++ live_side b Long.

Definition location_of (o : Order) : BookLocation :=
  {| loc_side := o_side o; loc_price := o_price o |}.

(** The index a list of live orders determines. *)
Definition index_of (l : list Order) : gmap OrderId BookLocation :=
  list_to_map ((λ o, (o_id o, location_of o)) <$> l).

Definition order_ok (s : Side) (p : Price) (o : Order) : Prop :=
  o_side o = s ∧ o_price o = p ∧ validate o = Ok tt ∧ in_s 128 (o_size o).

Definition level_ok (s : Side) (e : Price * Level) : Prop :=
  e.2 ≠ [] ∧ Forall (order_ok s e.1) e.2.

Definition levels_ok (s : Side) (m : list (Price * Level)) : Prop :=
  om_sorted (before s) m ∧ Forall (level_ok s) m.

Record wf (b : OrderBook) : Prop := {
  wf_levels : ∀ s, levels_ok s (side_levels b s);
  wf_nodup : NoDup (o_id <$> live b);
  wf_index : index b = index_of (live b);
}.

(** The book's transitions: any operation, on arguments of their machine types.  An order that
    rests must have a magnitude of the [i128] surface (see [insert_resting]). *)
Inductive step : OrderBook → OrderBook → Prop :=
| step_process b o rs b' :
    in_s 128 (o_size o) → process_order b o = Ret (rs, b') → step b b'
| step_cancel b id r b' : cancel_order b id = Ret (r, b') → step b b'
| step_modify b id p sz r b' :
    in_s 128 sz → modify_order b id p sz = Ret (r, b') → step b b'
| step_cleanup b blk ids b' : cleanup_expired b blk = Ret (ids, b') → step b b'.

Definition reachable (b : OrderBook) : Prop := rtc step new b.

(** The reference sweep of a flat list of makers: fills and the makers left. *)
Fixpoint priority_fill (crosses : Price → bool) (makers : list Order) (qty : Z) :
    list (Order * Z) * list Order :=
  match makers with
  | [] => ([], [])
  | m :: ms =>
      if decide (0 < qty) then
        if crosses (o_price m) then
          let f := Z.min (quantity m) qty in
          let '(fs, rest) := priority_fill crosses ms (qty - f) in
          ((m, f) :: fs,
           if decide (quantity m - f = 0) then rest
           else with_size m ((quantity m - f) * sign_multiplier (o_side m)) :: rest)
        else ([], makers)
      else ([], makers)
  end.

Definition filled (fs : list (Order * Z)) : Z := sumZ (snd <$> fs).

(** The match results a list of fills produces for a taker with [qty] left. *)
Fixpoint results_of (mk_trade : OrderId → Price → Z → MatchedTrade) (fs : list (Order * Z))
    (qty : Z) : list MatchResult :=
  match fs with
  | [] => []
  | (m, f) :: fs' =>
      {| trade := mk_trade (o_id m) (o_price m) (as_i128 f);
         maker_order_id := o_id m;
         maker_remaining := as_i128 (quantity m - f);
         taker_remaining := as_i128 (qty - f) |} :: results_of mk_trade fs' (qty - f)
  end.

(** The index after the fully filled makers left it. *)
Fixpoint index_after (fs : list (Order * Z)) (idx : gmap OrderId BookLocation) :
    gmap OrderId BookLocation :=
  match fs with
  | [] => idx
  | (m, f) :: fs' =>
      index_after fs' (if decide (quantity m - f = 0) then delete (o_id m) idx else idx)
  end.

(** Where a pushed order lands in the flat view. *)
Definition pushed (s : Side) (p : Price) (o : Order) (l l' : list Order) : Prop :=
  ∃ l1 l2, l = l1 ++ l2 ∧ l' = l1 ++ o :: l2 ∧
    Forall (λ o', before s p (o_price o') = false) l1 ∧
    Forall (λ o', before s p (o_price o') = true) l2.

#[global] Arguments level_orders : simpl never.

(** ** The price orders *)

#[export] Instance before_total s : StrictTotal (before s).
Proof.
  split; destruct s; unfold before; intros *;
    rewrite ?Z.ltb_lt, ?Z.ltb_ge, ?Z.ltb_irrefl; lia.
Qed.

(** ** Orders *)

Lemma side_agrees_spec s sz :
  side_agrees_with_size s sz = true ↔ 0 < sz * sign_multiplier s.
Proof.
  unfold side_agrees_with_size. rewrite andb_True_iff || rewrite andb_true_iff.
  rewrite !bool_decide_eq_true.
  destruct s; simpl; split; intros; destruct sz; simpl in *; lia.
Qed.

Lemma validate_Ok o :
  validate o = Ok tt ↔ o_price o ≠ 0 ∧ 0 < o_size o * sign_multiplier (o_side o).
Proof.
  unfold validate. rewrite <- side_agrees_spec.
  split.
  - repeat case_decide; repeat case_match; naive_solver.
  - intros [Hp Ha]. assert (o_size o ≠ 0).
    { apply side_agrees_spec in Ha. lia. }
    by rewrite !decide_False, Ha by done.
Qed.

Lemma order_ok_quantity s p o : order_ok s p o → 0 < quantity o ≤ 2 ^ 127.
Proof.
  intros (_ & _ & [_ Hv]%validate_Ok & Hr). unfold quantity. unfold in_s in Hr.
  destruct (sign_multiplier_pm (o_side o)) as [E|E]; rewrite E in Hv; lia.
Qed.

Lemma order_ok_size o s p :
  order_ok s p o → o_size o = quantity o * sign_multiplier (o_side o).
Proof.
  intros (_ & _ & [_ Hv]%validate_Ok & _). unfold quantity.
  destruct (sign_multiplier_pm (o_side o)) as [E|E]; rewrite E in *; lia.
Qed.

Lemma order_ok_with_size s p o sz :
  order_ok s p o → 0 < sz * sign_multiplier s → in_s 128 sz → order_ok s p (with_size o sz).
Proof.
  intros (Hs & Hp & [Hpr _]%validate_Ok & _) Hsz Hr.
  unfold order_ok. rewrite validate_Ok. simpl. by rewrite Hs.
Qed.

Lemma set_quantity_Ret o q :
  0 ≤ q < 2 ^ 127 → set_quantity o q = Ret (with_size o (q * sign_multiplier (o_side o))).
Proof.
  intros Hq. unfold set_quantity. rewrite try_s_in by int_range. simpl.
  unfold i128_mul. rewrite wraps_small; [done|lia|].
  destruct (sign_multiplier_pm (o_side o)) as [-> | ->]; int_range.
Qed.

Lemma set_quantity_Panic o q : 2 ^ 127 ≤ q → set_quantity o q = Panic.
Proof.
  intros Hq. unfold set_quantity.
  replace (try_s 128 q) with (@None Z); [done|].
  symmetry. apply try_s_None. int_range.
Qed.

(** ** The index *)

Lemma index_of_perm l l' :
  NoDup (o_id <$> l) → l ≡ₚ l' → index_of l = index_of l'.
Proof.
  intros Hnd Hp. unfold index_of. apply list_to_map_proper.
  - by rewrite <- list_fmap_compose.
  - by rewrite Hp.
Qed.

Lemma index_of_lookup l id loc :
  NoDup (o_id <$> l) →
  index_of l !! id = Some loc ↔ ∃ o, o ∈ l ∧ o_id o = id ∧ location_of o = loc.
Proof.
  intros Hnd. unfold index_of. rewrite <- (elem_of_list_to_map (M:=gmap OrderId)).
  - rewrite list_elem_of_fmap. naive_solver.
  - by rewrite <- list_fmap_compose.
Qed.

Lemma index_of_lookup_None l id :
  index_of l !! id = None ↔ id ∉ o_id <$> l.
Proof.
  unfold index_of. rewrite <- (not_elem_of_list_to_map (M:=gmap OrderId)). by rewrite <- list_fmap_compose.
Qed.

Lemma index_of_delete o l :
  NoDup (o_id <$> o :: l) → delete (o_id o) (index_of (o :: l)) = index_of l.
Proof.
  intros [Hni _]%NoDup_cons. unfold index_of. simpl. rewrite delete_insert_id; [done|].
  by apply index_of_lookup_None.
Qed.

Lemma index_of_ext l l' :
  Forall2 (λ o o', o_id o = o_id o' ∧ location_of o = location_of o') l l' →
  index_of l = index_of l'.
Proof.
  unfold index_of. induction 1 as [|o o' l l' [E1 E2] _ IH]; [done|].
  rewrite !fmap_cons, !list_to_map_cons. simpl. by rewrite E1, E2, IH.
Qed.

Lemma index_of_replace l1 o o' l2 :
  o_id o = o_id o' → location_of o = location_of o' →
  index_of (l1 ++ o :: l2) = index_of (l1 ++ o' :: l2).
Proof.
  intros. apply index_of_ext, Forall2_app; [|constructor; [done|]];
    apply Forall_Forall2_diag, Forall_true; done.
Qed.

(** ** The flat view of a side *)

Lemma level_orders_app m1 m2 : level_orders (m1 ++ m2) = level_orders m1 ++ level_orders m2.
Proof. apply bind_app. Qed.

Lemma level_orders_cons p q m : level_orders ((p, q) :: m) = q ++ level_orders m.
Proof. done. Qed.

Lemma live_set_levels b s m :
  live_side (set_levels b s m) s = level_orders m ∧
  live_side (set_levels b s m) (other_side s) = live_side b (other_side s) ∧
  index (set_levels b s m) = index b.
Proof. by destruct s. Qed.

Lemma live_set_index b s i : live_side (set_index b i) s = live_side b s.
Proof. by destruct s. Qed.

Lemma side_levels_set_index b s i : side_levels (set_index b i) s = side_levels b s.
Proof. by destruct s. Qed.

Lemma side_levels_set b s m s' :
  side_levels (set_levels b s m) s' = if decide (s = s') then m else side_levels b s'.
Proof. by destruct s, s'. Qed.

Lemma live_perm b s : live b ≡ₚ live_side b s ++ live_side b (other_side s).
Proof. unfold live. destruct s; simpl; [apply Permutation_app_comm|done]. Qed.

Lemma levels_ok_app s m1 m2 :
  levels_ok s (m1 ++ m2) ↔ levels_ok s m1 ∧ levels_ok s m2 ∧
    ∀ e1 e2, e1 ∈ m1 → e2 ∈ m2 → before s e1.1 e2.1 = true.
Proof.
  unfold levels_ok, om_sorted. rewrite Forall_app, StronglySorted_app. naive_solver.
Qed.

Lemma levels_ok_order s m o :
  levels_ok s m → o ∈ level_orders m → order_ok s (o_price o) o.
Proof.
  intros [_ Hf] ([p q] & Ho & He)%list_elem_of_bind.
  rewrite Forall_forall in Hf. destruct (Hf _ He) as [_ Hf'].
  rewrite Forall_forall in Hf'. specialize (Hf' _ Ho). simpl in Hf'.
  destruct Hf' as (? & ? & ?). by subst.
Qed.

Lemma levels_ok_nil s : levels_ok s [].
Proof. split; [apply SSorted_nil|constructor]. Qed.

Lemma levels_ok_one s p q : q ≠ [] → Forall (order_ok s p) q → levels_ok s [(p, q)].
Proof. intros. split; [by repeat constructor|]. by repeat constructor. Qed.

(** Writing a level back, emptied or not, keeps the side well formed. *)
Lemma levels_ok_replace s m1 p q q' m2 :
  levels_ok s (m1 ++ (p, q) :: m2) → Forall (order_ok s p) q' →
  levels_ok s (m1 ++ match q' with [] => [] | _ => [(p, q')] end ++ m2).
Proof.
  rewrite !levels_ok_app. intros (H1 & [Hs2 Hf2] & H12) Hq'.
  apply om_sorted_cons in Hs2 as [Hs2 Hlt]. rewrite Forall_forall in Hlt.
  apply Forall_cons in Hf2 as [_ Hf2].
  split_and!; [done| |by split| |].
  - destruct q' as [|o q']; [apply levels_ok_nil|by apply levels_ok_one].
  - intros e1 e2. destruct q' as [|o q']; [by intros ?%elem_of_nil|].
    intros ->%list_elem_of_singleton. apply Hlt.
  - intros e1 e2 He1. rewrite elem_of_app. intros [He2|He2].
    + destruct q' as [|o q']; [by apply elem_of_nil in He2|].
      apply list_elem_of_singleton in He2 as ->. apply (H12 e1 (p, q)); set_solver.
    + apply H12; set_solver.
Qed.

(** A live order's level, and what removing it from that level leaves. *)
Lemma live_order_split s m o :
  levels_ok s m → NoDup (o_id <$> level_orders m) → o ∈ level_orders m →
  ∃ m1 q1 q2 m2, m = m1 ++ (o_price o, q1 ++ o :: q2) :: m2 ∧
    om_get m (o_price o) = Some (q1 ++ o :: q2) ∧
    find_in_level (q1 ++ o :: q2) (o_id o) = Some (length q1, o).
Proof.
  intros Hok Hnd Ho. pose proof Hok as [Hs Hf].
  pose proof Ho as ([p q] & Hoq & He)%list_elem_of_bind. simpl in Hoq.
  assert (p = o_price o) as ->.
  { rewrite Forall_forall in Hf. destruct (Hf _ He) as [_ Hq].
    rewrite Forall_forall in Hq. by destruct (Hq _ Hoq) as (_ & ? & _). }
  apply (om_get_elem (before s)) in He as Hg; [|done].
  destruct (om_get_split (before s) _ _ _ Hs Hg) as (m1 & m2 & -> & _).
  apply list_elem_of_split in Hoq as (q1 & q2 & ->).
  exists m1, q1, q2, m2. split_and!; [done|done|].
  rewrite level_orders_app, level_orders_cons, <- app_assoc, !fmap_app, fmap_cons in Hnd.
  apply NoDup_app in Hnd as (_ & _ & Hnd). apply NoDup_app in Hnd as (Hnd1 & Hni & _).
  unfold find_in_level. apply list_find_Some. split_and!.
  - by rewrite lookup_app_r, Nat.sub_diag.
  - done.
  - intros j y Hj Hlt Hid. rewrite lookup_app_l in Hj by done.
    apply list_elem_of_lookup_2 in Hj. apply (Hni (o_id o)); [|by left].
    rewrite <- Hid. by apply list_elem_of_fmap_2.
Qed.

Lemma remove_from_level_spec b o :
  let s := o_side o in
  levels_ok s (side_levels b s) → NoDup (o_id <$> live_side b s) → o ∈ live_side b s →
  ∃ m' l1 l2,
    remove_from_level b (location_of o) (o_id o) = Some (o, set_levels b s m') ∧
    levels_ok s m' ∧ live_side b s = l1 ++ o :: l2 ∧ level_orders m' = l1 ++ l2.
Proof.
  intros s Hok Hnd Ho.
  destruct (live_order_split s _ o Hok Hnd Ho) as (m1 & q1 & q2 & m2 & Hm & Hg & Hfind).
  unfold live_side, remove_from_level. simpl. fold s. rewrite Hg, Hfind.
  cbv beta iota zeta. rewrite delete_middle, Hm. rewrite Hm in Hg, Hok.
  destruct (om_get_split (before s) _ _ _ (proj1 Hok) Hg) as (m1' & m2' & Heq & Hr & Hi).
  assert (m1 = m1' ∧ m2 = m2') as [<- <-].
  { apply (om_split_unique (before s)) in Heq; [naive_solver|apply Hok]. }
  eexists _, (level_orders m1 ++ q1), (q2 ++ level_orders m2). split_and!; [done| | |].
  - rewrite Hr, Hi.
    apply (levels_ok_replace s m1 (o_price o) _ (q1 ++ q2) m2) in Hok.
    + by destruct (q1 ++ q2).
    + apply levels_ok_app in Hok as (_ & [_ Hf2] & _).
      apply Forall_cons in Hf2 as [[_ Hq] _]. simpl in Hq.
      rewrite Forall_app, Forall_cons in Hq. apply Forall_app. naive_solver.
  - rewrite level_orders_app, level_orders_cons. by rewrite <- !app_assoc.
  - rewrite Hr, Hi. destruct (q1 ++ q2) as [|o' q'] eqn:E.
    + apply app_eq_nil in E as [-> ->]. rewrite level_orders_app. by rewrite app_nil_r.
    + rewrite level_orders_app, level_orders_cons, <- E. by rewrite <- !app_assoc.
Qed.

(** A property of the level prices is a property of the orders' prices. *)
Lemma level_prices s m m' (P : Price → Prop) :
  levels_ok s m → (∀ e, e ∈ m' → e ∈ m ∧ P e.1) →
  Forall (λ o, P (o_price o)) (level_orders m').
Proof.
  intros [_ Hf] HP. apply Forall_forall. intros o (e & Ho & He)%list_elem_of_bind.
  destruct (HP e He) as [Hem HPe]. rewrite Forall_forall in Hf.
  destruct (Hf _ Hem) as [_ Hq]. rewrite Forall_forall in Hq.
  by destruct (Hq _ Ho) as (_ & -> & _).
Qed.

Lemma before_false s p q : before s p q = true → before s q p = false.
Proof.
  intros H. apply not_true_iff_false. intros H'.
  pose proof (lt_trans _ _ _ H H') as Hirr. by rewrite lt_irrefl in Hirr.
Qed.

Lemma push_present s m1 p q m2 o :
  levels_ok s (m1 ++ (p, q) :: m2) → order_ok s p o →
  levels_ok s (m1 ++ (p, q ++ [o]) :: m2) ∧
  pushed s p o (level_orders (m1 ++ (p, q) :: m2)) (level_orders (m1 ++ (p, q ++ [o]) :: m2)).
Proof.
  intros Hok Ho. pose proof Hok as (_ & [Hs2 Hf2] & H12)%levels_ok_app.
  apply om_sorted_cons in Hs2 as [_ Hlt]. rewrite Forall_forall in Hlt.
  apply Forall_cons in Hf2 as [[_ Hq] _]. split.
  { apply (levels_ok_replace s m1 p q (q ++ [o]) m2) in Hok; [by destruct q|].
    by apply Forall_app, conj, Forall_singleton. }
  exists (level_orders (m1 ++ [(p, q)])), (level_orders m2). split_and!.
  - by rewrite <- level_orders_app, <- app_assoc.
  - rewrite !level_orders_app, !level_orders_cons. simpl. by rewrite app_nil_r, <- !app_assoc.
  - apply (level_prices s _ _ (λ p', before s p p' = false) Hok). intros e He.
    apply elem_of_app in He as [He| ->%list_elem_of_singleton].
    + split; [set_solver|]. apply before_false, (H12 e (p, q)); set_solver.
    + split; [set_solver|apply lt_irrefl].
  - apply (level_prices s _ _ (λ p', before s p p' = true) Hok). intros e He.
    split; [set_solver|by apply (Hlt e)].
Qed.

Lemma push_absent s m1 p m2 o :
  levels_ok s (m1 ++ m2) → order_ok s p o →
  Forall (λ e, before s e.1 p = true) m1 → Forall (λ e, before s p e.1 = true) m2 →
  levels_ok s (m1 ++ (p, [o]) :: m2) ∧
  pushed s p o (level_orders (m1 ++ m2)) (level_orders (m1 ++ (p, [o]) :: m2)).
Proof.
  intros Hok Ho Hlt1 Hlt2. pose proof Hok as (H1 & H2 & H12)%levels_ok_app.
  rewrite Forall_forall in Hlt1. split.
  { apply levels_ok_app. split_and!; [done| |].
    - destruct H2 as [Hs2 Hf2]. split; [by apply om_sorted_cons|].
      constructor; [|done]. split; [done|by constructor].
    - intros e1 e2 He1. rewrite elem_of_cons. intros [-> |He2]; [by apply Hlt1|by apply H12]. }
  exists (level_orders m1), (level_orders m2). split_and!.
  - by rewrite level_orders_app.
  - by rewrite level_orders_app.
  - apply (level_prices s _ _ (λ p', before s p p' = false) Hok). intros e He.
    split; [set_solver|by apply before_false, Hlt1].
  - apply (level_prices s _ _ (λ p', before s p p' = true) Hok). intros e He.
    rewrite Forall_forall in Hlt2. split; [set_solver|by apply Hlt2].
Qed.

(** A pushed order joins the side behind every order whose price is not worse. *)
Lemma push_level_spec s m p o :
  levels_ok s m → order_ok s p o →
  levels_ok s (push_level s m p o) ∧ pushed s p o (level_orders m) (level_orders (push_level s m p o)).
Proof.
  intros Hok Ho. unfold push_level. destruct (om_get m p) as [q|] eqn:Hg; simpl.
  - destruct (om_get_split (before s) _ _ _ (proj1 Hok) Hg) as (m1 & m2 & -> & _ & ->).
    by apply push_present.
  - destruct (om_insert_split (before s) m p [o] (proj1 Hok) Hg) as (m1 & m2 & -> & -> & ? & ?).
    by apply push_absent.
Qed.

(** ** The sweep refines the flat reference *)

Lemma filled_cons m f fs : filled ((m, f) :: fs) = f + filled fs.
Proof. done. Qed.

Lemma filled_app fs1 fs2 : filled (fs1 ++ fs2) = filled fs1 + filled fs2.
Proof. unfold filled. by rewrite fmap_app, sumZ_app. Qed.

Lemma results_of_app mk fs1 fs2 q :
  results_of mk (fs1 ++ fs2) q = results_of mk fs1 q ++ results_of mk fs2 (q - filled fs1).
Proof.
  revert q. induction fs1 as [|[m f] fs1 IH]; intros q; simpl.
  - by rewrite Z.sub_0_r.
  - rewrite IH, filled_cons. do 3 f_equal. lia.
Qed.

Lemma index_after_app fs1 fs2 idx :
  index_after (fs1 ++ fs2) idx = index_after fs2 (index_after fs1 idx).
Proof. revert idx. induction fs1 as [|[m f] fs1 IH]; intros idx; simpl; [done|]. apply IH. Qed.

Lemma priority_fill_exhausted crosses l q : q ≤ 0 → priority_fill crosses l q = ([], l).
Proof. intros. destruct l; simpl; [done|]. by rewrite decide_False by lia. Qed.

(** A maker left with quantity exhausted the taker. *)
Lemma partial_exhausts m q : quantity m - Z.min (quantity m) q ≠ 0 → q - Z.min (quantity m) q = 0.
Proof. lia. Qed.

Lemma priority_fill_app crosses l1 l2 q :
  priority_fill crosses (l1 ++ l2) q =
    let '(fs1, r1) := priority_fill crosses l1 q in
    match r1 with
    | [] => let '(fs2, r2) := priority_fill crosses l2 (q - filled fs1) in (fs1 ++ fs2, r2)
    | _ => (fs1, r1 ++ l2)
    end.
Proof.
  revert q. induction l1 as [|m l1 IH]; intros q; simpl.
  { rewrite Z.sub_0_r. by destruct (priority_fill crosses l2 q). }
  case_decide; [|done]. destruct (crosses (o_price m)); [|done].
  destruct (decide (quantity m - Z.min (quantity m) q = 0)) as [E|E].
  - rewrite IH. destruct (priority_fill crosses l1 (q - _)) as [fs1 [|o r1]]; [|done].
    rewrite filled_cons, Z.sub_add_distr. by destruct (priority_fill crosses l2 _).
  - rewrite !priority_fill_exhausted by (rewrite partial_exhausts; done). done.
Qed.

(** What a fill of the reference sweep satisfies. *)
Lemma priority_fill_props crosses l q fs rest :
  Forall (λ m, 0 < quantity m) l → 0 ≤ q → priority_fill crosses l q = (fs, rest) →
  0 ≤ filled fs ≤ q ∧
  Forall (λ mf, mf.1 ∈ l ∧ crosses (o_price mf.1) = true ∧ 0 < mf.2 ≤ quantity mf.1 ∧ mf.2 ≤ q) fs.
Proof.
  intros Hq. revert q fs rest. induction Hq as [|m l Hm _ IH]; intros q fs rest Hq0 Hpf; simpl in Hpf.
  { simplify_eq. by split. }
  case_decide; [|by simplify_eq; split].
  destruct (crosses (o_price m)) eqn:?; [|by simplify_eq; split].
  destruct (priority_fill crosses l (q - _)) as [fs' rest'] eqn:E. simplify_eq.
  apply IH in E as [Hf Hall]; [|lia]. rewrite filled_cons. split; [lia|].
  constructor; simpl; [split_and!; [by left|done|lia..]|].
  eapply Forall_impl; [done|]. intros [m' f'] (? & ? & ? & ?); simpl in *.
  split_and!; [by right|done|lia..].
Qed.

Lemma partial_order_ok s p m q :
  order_ok s p m → 0 < q → quantity m - Z.min (quantity m) q ≠ 0 →
  order_ok s p (with_size m ((quantity m - Z.min (quantity m) q) * sign_multiplier (o_side m))).
Proof.
  intros Ho Hq Hne. pose proof (order_ok_quantity _ _ _ Ho) as Hr.
  apply order_ok_with_size; [done| |].
  - destruct Ho as (-> & _). destruct (sign_multiplier_pm s) as [-> | ->]; lia.
  - unfold in_s. destruct (sign_multiplier_pm (o_side m)) as [-> | ->]; lia.
Qed.

Lemma priority_fill_ok crosses s p l q fs rest :
  Forall (order_ok s p) l → priority_fill crosses l q = (fs, rest) → Forall (order_ok s p) rest.
Proof.
  intros Hok. revert q fs rest. induction Hok as [|m l Hm Hl IH]; intros q fs rest Hpf; simpl in Hpf.
  { by simplify_eq. }
  case_decide; [|by simplify_eq; constructor].
  destruct (crosses (o_price m)); [|by simplify_eq; constructor].
  destruct (priority_fill crosses l (q - _)) as [fs' rest'] eqn:E. simplify_eq.
  case_decide; [by eapply IH|]. constructor; [by apply partial_order_ok|by eapply IH].
Qed.

Lemma fill_level_spec mk s p level crosses q idx :
  Forall (order_ok s p) level → crosses p = true →
  fill_level mk p level q idx =
    let '(fs, rest) := priority_fill crosses level q in
    Ret (rest, (q - filled fs, index_after fs idx, results_of mk fs q)).
Proof.
  intros Hok Hc. revert q idx. induction Hok as [|m level Hm Hlevel IH]; intros q idx; simpl.
  { rewrite Z.sub_0_r. by case_decide. }
  case_decide; [|by rewrite Z.sub_0_r].
  assert (o_price m = p) as -> by apply Hm. rewrite Hc.
  pose proof (order_ok_quantity _ _ _ Hm) as Hq.
  destruct (decide (quantity m - Z.min (quantity m) q = 0)) as [E|E].
  - rewrite IH. destruct (priority_fill crosses level (q - _)) as [fs rest]. simpl.
    rewrite filled_cons, Z.sub_add_distr, decide_True by done.
    assert (o_price m = p) as -> by apply Hm. done.
  - rewrite set_quantity_Ret by lia. simpl.
    rewrite priority_fill_exhausted by (rewrite partial_exhausts; done). simpl.
    rewrite decide_False by done. assert (o_price m = p) as -> by apply Hm.
    by rewrite filled_cons, Z.add_0_r.
Qed.

Lemma sweep_spec crosses mk s m q idx :
  levels_ok s m →
  ∃ m', levels_ok s m' ∧
    let '(fs, rest) := priority_fill crosses (level_orders m) q in
    level_orders m' = rest ∧
    sweep crosses mk m q idx = Ret (m', (q - filled fs, index_after fs idx, results_of mk fs q)).
Proof.
  revert q idx. induction m as [|[p level] m IH]; intros q idx Hok; simpl.
  { exists []. split; [done|]. cbn. rewrite Z.sub_0_r. split; [done|by case_decide]. }
  pose proof Hok as [[Hs _]%om_sorted_cons [[Hne Hlv] Hf]%Forall_cons]. simpl in Hne, Hlv.
  rewrite level_orders_cons.
  destruct (decide (0 < q)) as [Hq|Hq]; cycle 1.
  { exists ((p, level) :: m). rewrite priority_fill_exhausted by lia. by rewrite Z.sub_0_r. }
  destruct (crosses p) eqn:Hc; cycle 1.
  { exists ((p, level) :: m). destruct level as [|o level]; [done|]. simpl.
    rewrite decide_True by done. apply Forall_cons in Hlv as [(_ & -> & _) _].
    by rewrite Hc, Z.sub_0_r. }
  rewrite priority_fill_app, (fill_level_spec _ s _ _ crosses) by done.
  destruct (priority_fill crosses level q) as [fs1 r1] eqn:E. simpl.
  destruct r1 as [|o r1].
  - destruct (IH (q - filled fs1) (index_after fs1 idx)) as (m' & Hm' & Hspec); [done|].
    exists m'. split; [done|].
    destruct (priority_fill crosses (level_orders m) (q - filled fs1)) as [fs2 r2].
    destruct Hspec as [-> ->]. split; [done|]. simpl.
    rewrite filled_app, index_after_app, results_of_app. do 4 f_equal. lia.
  - exists ((p, o :: r1) :: m). split_and!; [|done|done].
    apply (levels_ok_replace s [] p level (o :: r1) m); [done|].
    by eapply priority_fill_ok.
Qed.
