(* ===== verification/ClobOps.v ===== *)
(** * The public order book: what each operation does to a well-formed book

    Each operation of [Clob] is described on the flat view and shown to keep the invariant [wf]:
    matching ([process_order_spec]), cancellation, in-place and moving modification, and expiry
    recycling. *)
From S2P Require Import Prelude Ints Types OrdMap Clob ClobWf.
Open Scope Z_scope.

(** ** Definitions *)

(** Whether a resting price satisfies the limit of a taker of side [t]. *)
Definition crosses_limit (t : Side) (limit p : Price) : bool :=
  match t with Long => p <=? limit | Short => limit <=? p end.

(** The settlement payload of one fill of a taker of side [t]. *)
Definition trade_for (t : Side) (taker_id : OrderId) : OrderId → Price → Z → MatchedTrade :=
  match t with Long => asks_trade taker_id | Short => bids_trade taker_id end.

(** The error [modify_order] reports, if any. *)
Definition modify_error (b : OrderBook) (id : OrderId) (p : Price) (sz : Z) : option ClobError :=
  if decide (sz = 0) then Some ZeroSize
  else if decide (p = 0) then Some ZeroPrice
  else match index b !! id with
       | None => Some (OrderNotFound id)
       | Some loc => if side_agrees_with_size (loc_side loc) sz then None
                     else Some (SideSizeSignMismatch id (loc_side loc) sz)
       end.

(** ** Building well-formedness *)

Lemma wf_intro b s :
  levels_ok s (side_levels b s) → levels_ok (other_side s) (side_levels b (other_side s)) →
  NoDup (o_id <$> live_side b s ++ live_side b (other_side s)) →
  index b = index_of (live_side b s ++ live_side b (other_side s)) → wf b.
Proof.
  intros H1 H2 Hnd Hi. split.
  - intros s'. by destruct s, s'.
  - by rewrite (live_perm b s).
  - rewrite Hi. apply index_of_perm; [done|]. by rewrite <- live_perm.
Qed.

Lemma wf_side b s :
  wf b →
  levels_ok s (side_levels b s) ∧
  NoDup (o_id <$> live_side b s ++ live_side b (other_side s)) ∧
  index b = index_of (live_side b s ++ live_side b (other_side s)).
Proof.
  intros [Hl Hnd Hi]. split_and!; [done|by rewrite <- (live_perm b s)|].
  rewrite Hi. by apply index_of_perm, live_perm.
Qed.

Lemma wf_new : wf new.
Proof.
  split; [|constructor|done].
  intros []; apply levels_ok_nil.
Qed.

Lemma wf_side_order b s o : wf b → o ∈ live_side b s → order_ok s (o_price o) o.
Proof. intros Hwf. apply levels_ok_order, Hwf. Qed.

Lemma wf_index_lookup b id loc :
  wf b → index b !! id = Some loc ↔ ∃ o, o ∈ live b ∧ o_id o = id ∧ location_of o = loc.
Proof. intros [_ Hnd Hi]. rewrite Hi. by apply index_of_lookup. Qed.

Lemma wf_index_None b id : wf b → index b !! id = None ↔ id ∉ o_id <$> live b.
Proof. intros [_ Hnd Hi]. rewrite Hi. apply index_of_lookup_None. Qed.

Lemma elem_of_live b o : wf b → o ∈ live b ↔ o ∈ live_side b (o_side o).
Proof.
  intros Hwf. unfold live. rewrite elem_of_app. split.
  - intros [Ho|Ho]; pose proof (wf_side_order _ _ _ Hwf Ho) as (-> & _); done.
  - destruct (o_side o); auto.
Qed.

(** ** Matching *)

Lemma priority_fill_index crosses l l2 q fs rest :
  NoDup (o_id <$> l ++ l2) → priority_fill crosses l q = (fs, rest) →
  NoDup (o_id <$> rest ++ l2) ∧ (∀ id, id ∈ o_id <$> rest → id ∈ o_id <$> l) ∧
  index_after fs (index_of (l ++ l2)) = index_of (rest ++ l2).
Proof.
  revert q fs rest. induction l as [|m l IH]; intros q fs rest Hnd Hpf; simpl in Hpf.
  { by simplify_eq. }
  case_decide; [|by simplify_eq].
  destruct (crosses (o_price m)); [|by simplify_eq].
  destruct (priority_fill crosses l (q - _)) as [fs' rest'] eqn:E. simplify_eq.
  pose proof Hnd as [Hni Hnd']%NoDup_cons. simpl index_after.
  destruct (decide (quantity m - Z.min (quantity m) q = 0)) as [Hz|Hz].
  - simpl app. rewrite index_of_delete by done.
    destruct (IH _ _ _ Hnd' E) as (? & Hin & ?). split_and!; [done| |done].
    intros id ?. rewrite fmap_cons. right. by apply Hin.
  - rewrite priority_fill_exhausted in E by (rewrite partial_exhausts; done). simplify_eq/=.
    split_and!; [done|done|]. apply index_of_ext. constructor; [done|].
    apply Forall2_same_length_lookup_2; [done|]. intros; simplify_eq; done.
Qed.

Lemma match_against_spec b t limit taker_id q :
  wf b → 0 ≤ q →
  ∃ b', let '(fs, rest) := priority_fill (crosses_limit t limit) (live_side b (other_side t)) q in
    match t with
    | Long => match_against_asks b taker_id limit q
    | Short => match_against_bids b taker_id limit q
    end = Ret (b', q - filled fs, results_of (trade_for t taker_id) fs q) ∧
    wf b' ∧ live_side b' (other_side t) = rest ∧ live_side b' t = live_side b t ∧
    side_levels b' t = side_levels b t ∧
    (∀ id, id ∈ o_id <$> live_side b' (other_side t) → id ∈ o_id <$> live_side b (other_side t)).
Proof.
  intros Hwf Hq. pose proof (wf_side b (other_side t) Hwf) as (Hok & Hnd & Hi).
  pose proof (wf_levels b Hwf t) as Hokt. rewrite other_side_involutive in *.
  destruct (sweep_spec (crosses_limit t limit) (trade_for t taker_id) _ _ q (index b) Hok)
    as (m' & Hm' & Hspec).
  change (level_orders (side_levels b (other_side t))) with (live_side b (other_side t)) in Hspec.
  destruct (priority_fill _ _ q) as [fs rest] eqn:E. destruct Hspec as [Hrest Hsweep].
  destruct (priority_fill_index _ _ _ _ _ _ Hnd E) as (Hnd' & Hin & Hidx).
  exists (set_index (set_levels b (other_side t) m') (index_after fs (index b))).
  subst rest. rewrite <- Hi in Hidx. split; [|split].
  - unfold crosses_limit in Hsweep.
    destruct t; unfold match_against_asks, match_against_bids; simpl in *; by rewrite Hsweep.
  - rewrite Hidx. apply (wf_intro _ (other_side t)); rewrite ?other_side_involutive;
      destruct t; simpl in *; done.
  - destruct t; done.
Qed.

(** Pushing a fresh order and registering it. *)
Lemma push_wf b s p o :
  wf b → order_ok s p o → o_id o ∉ o_id <$> live b →
  let b' := set_levels b s (push_level s (side_levels b s) p o) in
  let b'' := set_index b' (<[o_id o := {| loc_side := s; loc_price := p |}]> (index b)) in
  wf b'' ∧ pushed s p o (live_side b s) (live_side b'' s) ∧
  live_side b'' (other_side s) = live_side b (other_side s).
Proof.
  intros Hwf Ho Hfresh b' b''. destruct (wf_side b s Hwf) as (Hok & Hnd & Hi).
  destruct (push_level_spec s _ _ _ Hok Ho) as (Hok' & Hpush).
  assert (Hls : live_side b'' s = level_orders (push_level s (side_levels b s) p o) ∧
                live_side b'' (other_side s) = live_side b (other_side s)) by by destruct s.
  destruct Hls as [Hs1 Hs2]. rewrite Hs1, Hs2. split_and!; [|done|done].
  assert (Hperm : level_orders (push_level s (side_levels b s) p o) ++ live_side b (other_side s)
                  ≡ₚ o :: live_side b s ++ live_side b (other_side s)).
  { destruct Hpush as (l1 & l2 & Hl & -> & _).
    change (live_side b s) with (level_orders (side_levels b s)). rewrite Hl. solve_Permutation. }
  assert (Hnd' : NoDup (o_id <$> o :: live_side b s ++ live_side b (other_side s))).
  { rewrite fmap_cons. apply NoDup_cons. split; [|done]. by rewrite <- (live_perm b s). }
  apply (wf_intro _ s).
  - by destruct s.
  - pose proof (wf_levels b Hwf (other_side s)). by destruct s.
  - by rewrite Hs1, Hs2, Hperm.
  - rewrite Hs1, Hs2. symmetry in Hperm. rewrite <- (index_of_perm _ _ Hnd' Hperm).
    destruct Ho as (<- & <- & _). simpl. by rewrite Hi.
Qed.

Lemma insert_resting_spec b o rem :
  wf b → validate o = Ok tt → o_id o ∉ o_id <$> live b → 0 < rem < 2 ^ 127 →
  let s := o_side o in
  let o' := with_size o (rem * sign_multiplier s) in
  ∃ b', insert_resting b o rem = Ret b' ∧ wf b' ∧
    pushed s (o_price o) o' (live_side b s) (live_side b' s) ∧
    live_side b' (other_side s) = live_side b (other_side s).
Proof.
  intros Hwf Hv Hfresh Hrem s o'. unfold insert_resting. rewrite set_quantity_Ret by lia.
  eexists. split; [done|]. fold s o'.
  assert (Ho' : order_ok s (o_price o) o').
  { split_and!; [done|done| |].
    - apply validate_Ok in Hv as [? _]. apply validate_Ok. split; [done|]. simpl. fold s.
      destruct (sign_multiplier_pm s) as [-> | ->]; lia.
    - simpl. destruct (sign_multiplier_pm s) as [-> | ->]; int_range. }
  destruct (push_wf b s _ o' Hwf Ho' Hfresh) as (? & ? & ?).
  destruct (live_set_levels b s (push_level s (side_levels b s) (o_price o) o')) as (_ & _ & Hi).
  change (o_side o') with s. change (o_price o') with (o_price o). change (o_id o') with (o_id o).
  by rewrite Hi.
Qed.

Lemma contains_false b id : wf b → contains b id = false → id ∉ o_id <$> live b.
Proof.
  intros Hwf Hc. apply (wf_index_None b); [done|]. apply eq_None_not_Some.
  unfold contains in Hc. by apply bool_decide_eq_false in Hc.
Qed.

Lemma live_quantities b s : wf b → Forall (λ m, 0 < quantity m) (live_side b s).
Proof.
  intros Hwf. apply Forall_forall. intros m Hm.
  pose proof (order_ok_quantity _ _ _ (wf_side_order _ _ _ Hwf Hm)). lia.
Qed.

Lemma process_order_spec b o :
  wf b → validate o = Ok tt → contains b (o_id o) = false →
  let t := o_side o in
  let '(fs, rest) :=
    priority_fill (crosses_limit t (o_price o)) (live_side b (other_side t)) (quantity o) in
  let rem := quantity o - filled fs in
  if decide (rem < 2 ^ 127) then
    ∃ b', process_order b o = Ret (results_of (trade_for t (o_id o)) fs (quantity o), b') ∧
      wf b' ∧ live_side b' (other_side t) = rest ∧
      if decide (0 < rem) then
        pushed t (o_price o) (with_size o (rem * sign_multiplier t)) (live_side b t) (live_side b' t)
      else live_side b' t = live_side b t
  else process_order b o = Panic.
Proof.
  intros Hwf Hv Hc t. unfold process_order. rewrite Hv, Hc. simpl. fold t.
  destruct (match_against_spec b t (o_price o) (o_id o) (quantity o) Hwf) as (b1 & Hspec).
  { unfold quantity. lia. }
  destruct (priority_fill _ _ _) as [fs rest] eqn:E.
  destruct Hspec as (-> & Hwf1 & Hrest & Hlive & Hlv & Hids). simpl.
  assert (Hrem : 0 ≤ filled fs ≤ quantity o).
  { refine (proj1 (priority_fill_props _ _ _ _ _ _ _ E)); [by apply live_quantities|].
    unfold quantity; lia. }
  destruct (decide (0 < quantity o - filled fs)) as [Hpos|Hpos]; cycle 1.
  { rewrite decide_True by lia. by exists b1. }
  case_decide as Hlt; cycle 1.
  { unfold insert_resting. by rewrite set_quantity_Panic by lia. }
  destruct (insert_resting_spec b1 o (quantity o - filled fs)) as (b2 & -> & Hwf2 & Hp & Ho);
    [done..| |lia|].
  - intros Hin. apply (contains_false b _ Hwf Hc). revert Hin.
    rewrite (live_perm b t), (live_perm b1 t), !fmap_app, !elem_of_app, Hlive.
    intros [Hin|Hin]; [by left|right; by apply Hids].
  - exists b2. fold t in Hp, Ho. rewrite Hlive in Hp. by rewrite Ho, Hrest.
Qed.

(** ** Cancellation *)

Lemma remove_from_level_set_index b i loc id :
  remove_from_level (set_index b i) loc id =
    (λ '(o, b'), (o, set_index b' i)) <$> remove_from_level b loc id.
Proof.
  unfold remove_from_level. rewrite side_levels_set_index.
  destruct (om_get _ _); [|done]. destruct (find_in_level _ _) as [[??]|]; [|done].
  simpl. by destruct (loc_side loc).
Qed.

(** Taking a live order off its level, and its id out of the index. *)
Lemma remove_wf b o :
  wf b → o ∈ live b →
  let s := o_side o in
  ∃ b1 l1 l2, remove_from_level b (location_of o) (o_id o) = Some (o, b1) ∧
    index b1 = index b ∧ wf (set_index b1 (delete (o_id o) (index b))) ∧
    live_side b s = l1 ++ o :: l2 ∧ live_side b1 s = l1 ++ l2 ∧
    live_side b1 (other_side s) = live_side b (other_side s).
Proof.
  intros Hwf Ho s. destruct (wf_side b s Hwf) as (Hok & Hnd & Hi).
  apply elem_of_live in Ho; [|done]. pose proof Hnd as Hnd0.
  rewrite fmap_app in Hnd0. apply NoDup_app in Hnd0 as (Hnd1 & _).
  destruct (remove_from_level_spec b o Hok Hnd1 Ho) as (m' & l1 & l2 & Hr & Hok' & Hl & Hm').
  fold s in Hr, Hl, Hok'.
  destruct (live_set_levels b s m') as (Hls & Hlo & Hix). rewrite Hm' in Hls.
  exists (set_levels b s m'), l1, l2. split_and!; try done.
  rewrite Hl in Hi, Hnd.
  assert (Hperm : (l1 ++ o :: l2) ++ live_side b (other_side s)
                  ≡ₚ o :: (l1 ++ l2) ++ live_side b (other_side s)) by solve_Permutation.
  assert (Hnd2 := Hnd). rewrite Hperm, fmap_cons in Hnd2. apply NoDup_cons in Hnd2 as [Hni Hnd2].
  pose proof (wf_levels b Hwf (other_side s)). clearbody s. apply (wf_intro _ s).
  - by destruct s.
  - by destruct s.
  - by rewrite !live_set_index, Hls, Hlo.
  - rewrite !live_set_index, Hls, Hlo. simpl. rewrite Hi, (index_of_perm _ _ Hnd Hperm).
    apply index_of_delete. rewrite fmap_cons. by constructor.
Qed.

Lemma filter_id_split o l1 l2 :
  NoDup (o_id <$> l1 ++ o :: l2) →
  filter (λ o', o_id o' ≠ o_id o) (l1 ++ o :: l2) = l1 ++ l2.
Proof.
  rewrite fmap_app, fmap_cons. intros (_ & Hni & [Hn2 _]%NoDup_cons)%NoDup_app.
  rewrite filter_app, filter_cons_False by naive_solver.
  f_equal; apply filter_all, Forall_forall; intros o' Ho' Heq.
  - apply (Hni (o_id o)); [|by left]. rewrite <- Heq. by apply list_elem_of_fmap_2.
  - apply Hn2. rewrite <- Heq. by apply list_elem_of_fmap_2.
Qed.

Lemma filter_id_fresh id (l : list Order) :
  id ∉ o_id <$> l → filter (λ o', o_id o' ≠ id) l = l.
Proof.
  intros Hni. apply filter_all, Forall_forall. intros o' Ho' <-.
  by apply Hni, list_elem_of_fmap_2.
Qed.

(** Cancelling a live id returns its order and removes exactly that order; any other id is
    reported and leaves the book unchanged. *)
Lemma cancel_order_live b o :
  wf b → o ∈ live b →
  ∃ b', cancel_order b (o_id o) = Ret (Ok o, b') ∧ wf b' ∧
    ∀ s, live_side b' s = filter (λ o', o_id o' ≠ o_id o) (live_side b s).
Proof.
  intros Hwf Ho. destruct (remove_wf b o Hwf Ho) as (b1 & l1 & l2 & Hr & Hix & Hwf1 & Hl & Hl1 & Hlo).
  destruct (wf_side b (o_side o) Hwf) as (_ & Hnd & _). rewrite Hl in Hnd.
  exists (set_index b1 (delete (o_id o) (index b))). split_and!; [|done|].
  - unfold cancel_order.
    assert (index b !! o_id o = Some (location_of o)) as ->.
    { apply (wf_index_lookup b); [done|]. by exists o. }
    by rewrite remove_from_level_set_index, Hr.
  - intros s. rewrite live_set_index. destruct (decide (s = o_side o)) as [->|Hs].
    + rewrite Hl, Hl1, filter_id_split; [done|].
      rewrite fmap_app in Hnd. by apply NoDup_app in Hnd as (? & _).
    + assert (s = other_side (o_side o)) as -> by (destruct s, (o_side o); done).
      rewrite Hlo, filter_id_fresh; [done|]. intros Hin.
      rewrite fmap_app in Hnd. apply NoDup_app in Hnd as (_ & Hni & _).
      apply (Hni (o_id o)); [|done]. rewrite fmap_app, fmap_cons. set_solver.
Qed.

Lemma cancel_order_absent b id :
  wf b → id ∉ o_id <$> live b → cancel_order b id = Ret (Err (OrderNotFound id), b).
Proof.
  intros Hwf Hni. unfold cancel_order. by rewrite (proj2 (wf_index_None b id Hwf) Hni).
Qed.

Lemma cancel_order_total b id :
  wf b →
  ∃ r b', cancel_order b id = Ret (r, b') ∧ wf b' ∧
    ∀ s, live_side b' s = filter (λ o', o_id o' ≠ id) (live_side b s).
Proof.
  intros Hwf. destruct (decide (id ∈ o_id <$> live b)) as [Hin|Hni].
  - apply list_elem_of_fmap in Hin as (o & -> & Ho).
    destruct (cancel_order_live b o Hwf Ho) as (b' & ? & ? & ?). by eexists _, _.
  - eexists _, _. split; [by apply cancel_order_absent|]. split; [done|].
    intros s. rewrite filter_id_fresh; [done|].
    rewrite (live_perm b s), fmap_app in Hni. set_solver.
Qed.

(** ** Modification *)

Lemma index_lookup_live b o : wf b → o ∈ live b → index b !! o_id o = Some (location_of o).
Proof. intros Hwf Ho. apply (wf_index_lookup b); [done|]. by exists o. Qed.

Lemma live_order_ok b o : wf b → o ∈ live b → order_ok (o_side o) (o_price o) o.
Proof. intros Hwf Ho. apply elem_of_live in Ho; [|done]. by eapply wf_side_order. Qed.

(** Overwriting a resting order by one with its id and location. *)
Lemma replace_wf b o o' :
  wf b → o ∈ live b → order_ok (o_side o) (o_price o) o' → o_id o' = o_id o →
  let s := o_side o in
  ∃ q1 q2 l1 l2, om_get (side_levels b s) (o_price o) = Some (q1 ++ o :: q2) ∧
    find_in_level (q1 ++ o :: q2) (o_id o) = Some (length q1, o) ∧
    live_side b s = l1 ++ o :: l2 ∧
    let b' := set_levels b s (om_insert (before s) (side_levels b s) (o_price o)
                                (q1 ++ o' :: q2)) in
    wf b' ∧ live_side b' s = l1 ++ o' :: l2 ∧
    live_side b' (other_side s) = live_side b (other_side s).
Proof.
  intros Hwf Ho Ho' Hid s. fold s in Ho'. destruct (wf_side b s Hwf) as (Hok & Hnd & Hi).
  pose proof (wf_levels b Hwf (other_side s)) as Hoko.
  apply elem_of_live in Ho as Hos; [|done]. pose proof Hnd as Hnd0.
  rewrite fmap_app in Hnd0. apply NoDup_app in Hnd0 as (Hnd1 & _).
  destruct (live_order_split s _ o Hok Hnd1 Hos) as (m1 & q1 & q2 & m2 & Hm & Hg & Hf).
  pose proof Hok as Hok0. rewrite Hm in Hok. pose proof Hg as Hg'. rewrite Hm in Hg'.
  destruct (om_get_split (before s) _ _ _ (proj1 Hok) Hg') as (m1' & m2' & Heq & _ & Hins).
  apply (om_split_unique (before s)) in Heq as (<- & _ & <-); [|apply Hok].
  assert (Hlive : live_side b s = (level_orders m1 ++ q1) ++ o :: (q2 ++ level_orders m2)).
  { unfold live_side. rewrite Hm, level_orders_app, level_orders_cons. by rewrite <- !app_assoc. }
  exists q1, q2, (level_orders m1 ++ q1), (q2 ++ level_orders m2).
  rewrite Hm, Hins, <- Hm. cbv zeta. set (m' := m1 ++ _).
  assert (Hm' : level_orders m' = (level_orders m1 ++ q1) ++ o' :: (q2 ++ level_orders m2)).
  { unfold m'. rewrite level_orders_app, level_orders_cons. by rewrite <- !app_assoc. }
  destruct (live_set_levels b s m') as (Hls & Hlo & Hix').
  assert (Hoo : location_of o = location_of o').
  { destruct Ho' as (E1 & E2 & _). unfold location_of. by rewrite E1, E2. }
  rewrite Hls, Hlo. split_and!; [done..|apply (wf_intro _ s)|done|done].
  - rewrite side_levels_set, decide_True by done.
    apply (levels_ok_replace s m1 _ _ (q1 ++ o' :: q2) m2) in Hok as Hok'.
    + unfold m'. by destruct q1.
    + apply levels_ok_app in Hok as (_ & [_ [[_ Hq] _]%Forall_cons] & _). simpl in Hq.
      apply Forall_app in Hq as [? [? ?]%Forall_cons]. apply Forall_app. split; [done|by constructor].
  - rewrite side_levels_set, decide_False; [done|]. by destruct s.
  - rewrite Hls, Hlo, Hm'. rewrite Hlive in Hnd.
    rewrite !fmap_app, !fmap_cons in *. by rewrite Hid.
  - rewrite Hls, Hlo, Hix', Hi, Hm', Hlive, <- !app_assoc, !(app_assoc _ q1).
    by apply index_of_replace.
Qed.

(** Same price: the order keeps its place in the queue. *)
Lemma modify_in_place b o sz :
  wf b → o ∈ live b → in_s 128 sz → 0 < sz * sign_multiplier (o_side o) →
  let s := o_side o in
  ∃ b' l1 l2, modify_order b (o_id o) (o_price o) sz = Ret (Ok tt, b') ∧ wf b' ∧
    live_side b s = l1 ++ o :: l2 ∧ live_side b' s = l1 ++ with_size o sz :: l2 ∧
    live_side b' (other_side s) = live_side b (other_side s).
Proof.
  intros Hwf Ho Hsz Hpos s. pose proof (live_order_ok _ _ Hwf Ho) as Hook.
  destruct (replace_wf b o (with_size o sz) Hwf Ho) as (q1 & q2 & l1 & l2 & Hg & Hf & Hl & Hrest);
    [by apply order_ok_with_size|done|].
  eexists _, l1, l2. destruct Hrest as (? & ? & ?). split_and!; [|done..].
  unfold modify_order. apply side_agrees_spec in Hpos as Hag.
  rewrite decide_False by (intros ->; lia).
  rewrite decide_False by (by apply validate_Ok, Hook).
  rewrite (index_lookup_live _ _ Hwf Ho). simpl. rewrite Hag. simpl.
  rewrite decide_True, Hg by done. simpl. rewrite Hf. simpl.
  by rewrite insert_app_r_alt, Nat.sub_diag by lia.
Qed.

(** New price: the order leaves its queue and joins the new level's tail. *)
Lemma modify_move b o p sz :
  wf b → o ∈ live b → in_s 128 sz → 0 < sz * sign_multiplier (o_side o) →
  p ≠ 0 → o_price o ≠ p →
  let s := o_side o in
  ∃ b' l1 l2, modify_order b (o_id o) p sz = Ret (Ok tt, b') ∧ wf b' ∧
    live_side b s = l1 ++ o :: l2 ∧
    pushed s p (with_size (with_price o p) sz) (l1 ++ l2) (live_side b' s) ∧
    live_side b' (other_side s) = live_side b (other_side s).
Proof.
  intros Hwf Ho Hsz Hpos Hp Hne s. pose proof (live_order_ok _ _ Hwf Ho) as Hook.
  destruct (remove_wf b o Hwf Ho) as (b1 & l1 & l2 & Hr & Hix & Hwf1 & Hl & Hl1 & Hlo).
  fold s in Hl, Hl1, Hlo. set (o' := with_size (with_price o p) sz).
  assert (Hook' : order_ok s p o').
  { split_and!; [done|done| |done]. by apply validate_Ok. }
  assert (Hfresh : o_id o' ∉ o_id <$> live (set_index b1 (delete (o_id o) (index b)))).
  { destruct Hwf1 as [_ _ Hi1]. apply index_of_lookup_None. rewrite <- Hi1. simpl.
    apply lookup_delete_eq. }
  destruct (push_wf _ s p o' Hwf1 Hook' Hfresh) as (Hwf2 & Hpush & Hlo2).
  rewrite !live_set_index in Hpush, Hlo2. rewrite Hl1 in Hpush. rewrite Hlo in Hlo2.
  eexists _, l1, l2. split_and!; [|exact Hwf2|done|by rewrite live_set_index|by rewrite live_set_index].
  unfold modify_order. apply side_agrees_spec in Hpos as Hag.
  rewrite !decide_False by (done || intros ->; lia).
  rewrite (index_lookup_live _ _ Hwf Ho). change (loc_side (location_of o)) with s.
  fold s in Hag. rewrite Hag. simpl negb. cbv iota.
  rewrite decide_False by done. rewrite Hr. simpl. fold o'. do 2 f_equal.
  destruct s; simpl; by rewrite Hix, insert_delete_eq.
Qed.


Lemma modify_order_error b id p sz e :
  modify_error b id p sz = Some e → modify_order b id p sz = Ret (Err e, b).
Proof.
  unfold modify_error, modify_order. repeat case_decide; try naive_solver.
  destruct (index b !! id) as [loc|]; [|naive_solver].
  destruct (side_agrees_with_size _ _); [done|]. simpl. naive_solver.
Qed.

(** Without an error the id names a live order and the arguments suit its side. *)
Lemma modify_error_None b id p sz :
  wf b → modify_error b id p sz = None →
  ∃ o, o ∈ live b ∧ o_id o = id ∧ p ≠ 0 ∧ 0 < sz * sign_multiplier (o_side o).
Proof.
  intros Hwf. unfold modify_error. repeat case_decide; [done..|].
  destruct (index b !! id) as [loc|] eqn:Hix; [|done].
  apply (wf_index_lookup b) in Hix as (o & Ho & <- & <-); [|done]. simpl.
  destruct (side_agrees_with_size _ _) eqn:Hag; [|done]. intros _.
  exists o. by rewrite <- side_agrees_spec.
Qed.

Lemma modify_order_total b id p sz :
  wf b → in_s 128 sz → ∃ r b', modify_order b id p sz = Ret (r, b') ∧ wf b'.
Proof.
  intros Hwf Hsz. destruct (modify_error b id p sz) as [e|] eqn:He.
  { eexists _, _. by split; [apply modify_order_error|]. }
  apply modify_error_None in He as (o & Ho & <- & Hp & Hpos); [|done].
  destruct (decide (o_price o = p)) as [<-|Hne].
  - destruct (modify_in_place b o sz) as (b' & ? & ? & ? & ? & _); eauto.
  - destruct (modify_move b o p sz) as (b' & ? & ? & ? & ? & _); eauto.
Qed.

(** ** Expiry recycling *)

Lemma cancel_all_spec b ids :
  wf b →
  ∃ b', cancel_all b ids = Ret b' ∧ wf b' ∧
    ∀ s, live_side b' s = filter (λ o, o_id o ∉ ids) (live_side b s).
Proof.
  revert b. induction ids as [|id ids IH]; intros b Hwf; simpl.
  { exists b. split_and!; [done..|]. intros s. symmetry. apply filter_all, Forall_true.
    intros o. apply not_elem_of_nil. }
  destruct (cancel_order_total b id Hwf) as (r & b1 & -> & Hwf1 & Hl1). simpl.
  destruct (IH b1 Hwf1) as (b' & -> & Hwf' & Hl'). exists b'. split_and!; [done..|].
  intros s. rewrite Hl', Hl1, list_filter_filter. apply filter_ext_in.
  intros o _. rewrite not_elem_of_cons. naive_solver.
Qed.

Lemma filter_not_expired b blk s :
  wf b →
  filter (λ o, o_id o ∉ o_id <$> filter (λ o, o_expiry_block o ≤ blk) (live b)) (live_side b s) =
  filter (λ o, blk < o_expiry_block o) (live_side b s).
Proof.
  intros Hwf. apply filter_ext_in. intros o Ho.
  assert (Hol : o ∈ live b) by (rewrite (live_perm b s); apply elem_of_app; by left).
  rewrite list_elem_of_fmap. split.
  - intros Hn. destruct (decide (blk < o_expiry_block o)); [done|]. destruct Hn.
    exists o. split; [done|]. apply list_elem_of_filter. split; [lia|done].
  - intros Hlt (o' & Hid & [He Ho']%list_elem_of_filter).
    assert (o = o') as <-; [|lia].
    apply list_elem_of_lookup in Hol as [i Hi], Ho' as [j Hj].
    assert (i = j) as <-; [|naive_solver].
    apply (NoDup_lookup _ i j (o_id o) (wf_nodup b Hwf)); rewrite list_lookup_fmap.
    + by rewrite Hi. + by rewrite Hj, Hid.
Qed.

Lemma expired_live b blk :
  expired_in blk (asks b) ++ expired_in blk (bids b) =
    o_id <$> filter (λ o, o_expiry_block o ≤ blk) (live b).
Proof. unfold expired_in, live, live_side. by rewrite filter_app, fmap_app. Qed.

Lemma cleanup_expired_spec b blk :
  wf b →
  ∃ b', cleanup_expired b blk =
          Ret (o_id <$> filter (λ o, o_expiry_block o ≤ blk) (live b), b') ∧ wf b' ∧
    ∀ s, live_side b' s = filter (λ o, blk < o_expiry_block o) (live_side b s).
Proof.
  intros Hwf. unfold cleanup_expired. rewrite expired_live.
  destruct (cancel_all_spec b (o_id <$> filter (λ o, o_expiry_block o ≤ blk) (live b)) Hwf)
    as (b' & -> & Hwf' & Hl). exists b'. split_and!; [done..|].
  intros s. by rewrite Hl, filter_not_expired.
Qed.

(** ** Every operation keeps the invariant *)

Lemma process_order_wf b o rs b' : wf b → process_order b o = Ret (rs, b') → wf b'.
Proof.
  intros Hwf Hp. destruct (validate o) as [[]|e] eqn:Hv; cycle 1.
  { unfold process_order in Hp. rewrite Hv in Hp. simpl in Hp. by inv_exec. }
  destruct (contains b (o_id o)) eqn:Hc.
  { unfold process_order in Hp. rewrite Hv, Hc in Hp. simpl in Hp. by inv_exec. }
  pose proof (process_order_spec b o Hwf Hv Hc) as Hspec. cbv zeta in Hspec.
  destruct (priority_fill _ _ _) as [fs rest]. case_decide; [|congruence].
  destruct Hspec as (b1 & Heq & Hwf1 & _). congruence.
Qed.

Lemma step_wf b b' : step b b' → wf b → wf b'.
Proof.
  intros Hstep Hwf. destruct Hstep as [b o rs b' _ H|b id r b' H|b id p sz r b' Hsz H|b blk ids b' H].
  - by eapply process_order_wf.
  - destruct (cancel_order_total b id Hwf) as (? & ? & ? & ? & _). congruence.
  - destruct (modify_order_total b id p sz Hwf Hsz) as (? & ? & ? & ?). congruence.
  - destruct (cleanup_expired_spec b blk Hwf) as (? & ? & ? & _). congruence.
Qed.

Lemma reachable_wf b : reachable b → wf b.
Proof.
  unfold reachable. intros Hr. pose proof wf_new as Hwf. revert Hwf.
  induction Hr; eauto using step_wf.
Qed.
