(* ===== verification/ClobProps.v ===== *)
(** * The public order book: its correctness theorems

    Price-time priority against a declarative allocation, conservation of quantity, bounded
    slippage, the exact panic condition, the invariant of every reachable book, and the
    behaviour of cancellation, modification and expiry recycling. *)
From S2P Require Import Prelude Ints Types OrdMap Clob ClobWf ClobOps.
Open Scope Z_scope.

(** ** Definitions *)

(** The declarative allocation: maker [i] receives what is left of [qty] after every maker with
    priority over it, at most its own quantity and never less than nothing. *)
Definition allocation (makers : list Order) (qty : Z) : list (Order * Z) :=
  imap (λ i m, (m, Z.max 0 (Z.min (quantity m)
                              (qty - sumZ (quantity <$> take i makers))))) makers.

Definition fills_of (makers : list Order) (qty : Z) : list (Order * Z) :=
  filter (λ mf, 0 < mf.2) (allocation makers qty).

(** The makers a taker may trade with, best first. *)
Definition crossing (b : OrderBook) (t : Side) (limit : Price) : list Order :=
  filter (λ m, crosses_limit t limit (o_price m) = true) (live_side b (other_side t)).

Definition total_quantity (b : OrderBook) : Z := sumZ (quantity <$> live b).

(** Priority within a side: a later order never has a better price than an earlier one. *)
Definition price_sorted (s : Side) (l : list Order) : Prop :=
  StronglySorted (λ o1 o2, before s (o_price o2) (o_price o1) = false) l.

(** No resting bid reaches a resting ask. *)
Definition uncrossed (b : OrderBook) : Prop :=
  ∀ bid ask, bid ∈ live_side b Long → ask ∈ live_side b Short → o_price bid < o_price ask.

Definition best (b : OrderBook) (s : Side) : option Price :=
  match s with Long => best_bid b | Short => best_ask b end.

(** A two-level book and a taker that sweeps through both levels. *)
Definition mk_order (id : OrderId) (s : Side) (p : Price) (q : Z) (exp : Z) : Order :=
  {| o_id := id; o_side := s; o_price := p; o_size := q * sign_multiplier s;
     o_expiry_block := exp; o_signature := [] |}.

Definition demo_maker_1 : Order := mk_order 1 Short 100 5 10.
Definition demo_maker_2 : Order := mk_order 2 Short 101 7 20.
Definition demo_taker : Order := mk_order 3 Long 101 8 30.

Definition run_orders (os : list Order) : exec OrderBook :=
  foldl (λ m o, b ← m; '(_, b') ← process_order b o; Ret b') (Ret new) os.

Definition demo_book : OrderBook :=
  match run_orders [demo_maker_1; demo_maker_2] with Ret b => b | Panic => new end.

(** ** The sides are in priority order *)

Lemma price_sorted_app s l1 l2 :
  price_sorted s l1 → price_sorted s l2 →
  (∀ o1 o2, o1 ∈ l1 → o2 ∈ l2 → before s (o_price o2) (o_price o1) = false) →
  price_sorted s (l1 ++ l2).
Proof. intros. by apply StronglySorted_app. Qed.

Lemma level_price_sorted s p q : Forall (order_ok s p) q → price_sorted s q.
Proof.
  unfold price_sorted. induction 1 as [|o q Ho Hq IH]; constructor; [done|].
  eapply Forall_impl; [exact Hq|]. intros o' (_ & -> & _).
  destruct Ho as (_ & -> & _). apply lt_irrefl.
Qed.

Lemma levels_price_sorted s m : levels_ok s m → price_sorted s (level_orders m).
Proof.
  induction m as [|[p q] m IH]; intros Hok; [constructor|].
  rewrite level_orders_cons.
  pose proof Hok as [[Hs Hlt]%om_sorted_cons [[_ Hq] Hf]%Forall_cons]. simpl in Hq, Hlt.
  apply price_sorted_app; [by eapply level_price_sorted|by apply IH|].
  intros o1 o2 Ho1 Ho2.
  assert (Forall (λ o, before s p (o_price o) = true) (level_orders m)) as Hlt'.
  { apply (level_prices s m m (λ p', before s p p' = true)); [by split|].
    intros e He. rewrite Forall_forall in Hlt. split; [done|by apply Hlt]. }
  rewrite Forall_forall in Hlt', Hq. destruct (Hq _ Ho1) as (_ & -> & _).
  by apply before_false, Hlt'.
Qed.

(** ** The sweep is the declarative allocation *)

Lemma allocation_cons m ms qty :
  allocation (m :: ms) qty =
    (m, Z.max 0 (Z.min (quantity m) qty)) :: allocation ms (qty - quantity m).
Proof.
  unfold allocation. rewrite imap_cons. simpl. rewrite Z.sub_0_r. f_equal.
  apply imap_ext. intros i m' _. unfold compose. rewrite firstn_cons, fmap_cons. simpl sumZ. do 3 f_equal. lia.
Qed.

Lemma fills_of_exhausted makers qty :
  Forall (λ m, 0 < quantity m) makers → qty ≤ 0 → fills_of makers qty = [].
Proof.
  intros Hq. revert qty. induction Hq as [|m ms Hm _ IH]; intros qty Hle; [done|].
  unfold fills_of in *. rewrite allocation_cons, filter_cons_False by (simpl; lia).
  apply IH. lia.
Qed.

Lemma fills_of_first m ms qty :
  0 < quantity m → 0 < qty → 0 < filled (fills_of (m :: ms) qty).
Proof.
  intros Hm Hq. unfold fills_of. rewrite allocation_cons, filter_cons_True by (simpl; lia).
  rewrite filled_cons.
  enough (0 ≤ filled (filter (λ mf, 0 < mf.2) (allocation ms (qty - quantity m)))) by lia.
  apply sumZ_nonneg, Forall_fmap, Forall_forall.
  intros mf [??]%list_elem_of_filter. simpl. lia.
Qed.

Lemma crosses_limit_mono t limit p q :
  before (other_side t) q p = false → crosses_limit t limit q = true →
  crosses_limit t limit p = true.
Proof. destruct t; simpl; rewrite Z.ltb_ge, !Z.leb_le; lia. Qed.

Lemma priority_fill_allocation t limit l qty :
  Forall (λ m, 0 < quantity m) l → price_sorted (other_side t) l → 0 ≤ qty →
  (priority_fill (crosses_limit t limit) l qty).1 =
    fills_of (filter (λ m, crosses_limit t limit (o_price m) = true) l) qty.
Proof.
  intros Hq. revert qty. induction Hq as [|m l Hm Hl IH]; intros qty Hs Hqty; [done|].
  apply StronglySorted_inv in Hs as [Hs Hlt]. simpl.
  case_decide; cycle 1.
  { rewrite fills_of_exhausted; [done| |lia]. apply Forall_filter. by constructor. }
  destruct (crosses_limit t limit (o_price m)) eqn:Hc.
  - rewrite filter_cons_True by done. unfold fills_of. rewrite allocation_cons.
    rewrite filter_cons_True by (simpl; lia).
    destruct (priority_fill _ l _) as [fs rest] eqn:E. simpl.
    rewrite Z.max_r by lia. f_equal.
    change fs with ((fs, rest).1). rewrite <- E.
    destruct (decide (quantity m ≤ qty)).
    + rewrite Z.min_l by lia. apply IH; [done|lia].
    + rewrite Z.min_r, priority_fill_exhausted by lia. symmetry.
      apply fills_of_exhausted; [by apply Forall_filter|lia].
  - rewrite filter_cons_False by congruence. rewrite filter_none; [done|].
    eapply Forall_impl; [exact Hlt|]. simpl. intros o Ho Hc'.
    rewrite (crosses_limit_mono t limit _ _ Ho Hc') in Hc. done.
Qed.

Lemma quantity_with_size o x s : 0 ≤ x → quantity (with_size o (x * sign_multiplier s)) = x.
Proof. unfold quantity. simpl. destruct (sign_multiplier_pm s) as [-> | ->]; lia. Qed.

(** The quantity the swept side keeps. *)
Lemma priority_fill_conserves crosses s l qty fs rest :
  Forall (λ m, order_ok s (o_price m) m) l → priority_fill crosses l qty = (fs, rest) →
  sumZ (quantity <$> rest) + filled fs = sumZ (quantity <$> l).
Proof.
  revert qty fs rest. induction l as [|m l IH]; intros qty fs rest Hok Hpf; simpl in Hpf.
  { by simplify_eq. }
  apply Forall_cons in Hok as [Hm Hok].
  case_decide; [|by simplify_eq; simpl; rewrite Z.add_0_r].
  destruct (crosses (o_price m)); [|by simplify_eq; simpl; rewrite Z.add_0_r].
  destruct (priority_fill crosses l (qty - _)) as [fs' rest'] eqn:E. simplify_eq.
  apply IH in E; [|done]. rewrite filled_cons, !fmap_cons. simpl.
  pose proof (order_ok_quantity _ _ _ Hm).
  case_decide; [lia|]. rewrite fmap_cons. simpl. rewrite quantity_with_size; lia.
Qed.

Lemma side_orders_ok b s : wf b → Forall (λ m, order_ok s (o_price m) m) (live_side b s).
Proof. intros Hwf. apply Forall_forall. intros m. by apply wf_side_order. Qed.

Lemma side_price_sorted b s : wf b → price_sorted s (live_side b s).
Proof. intros [Hl _ _]. apply levels_price_sorted, Hl. Qed.

Lemma total_quantity_sides b t :
  total_quantity b = sumZ (quantity <$> live_side b t) + sumZ (quantity <$> live_side b (other_side t)).
Proof.
  unfold total_quantity. rewrite (sumZ_perm _ (quantity <$> live_side b t ++ live_side b (other_side t))).
  - by rewrite fmap_app, sumZ_app.
  - by rewrite (live_perm b t).
Qed.

Lemma pushed_perm s p o l l' : pushed s p o l l' → l' ≡ₚ o :: l.
Proof. intros (l1 & l2 & -> & -> & _). symmetry. apply Permutation_middle. Qed.

(** The sweep of a well-formed book, in terms of the allocation. *)
Lemma sweep_allocation b t limit qty fs rest :
  wf b → 0 ≤ qty →
  priority_fill (crosses_limit t limit) (live_side b (other_side t)) qty = (fs, rest) →
  fs = fills_of (crossing b t limit) qty ∧ 0 ≤ filled fs ≤ qty ∧
  sumZ (quantity <$> rest) + filled fs = sumZ (quantity <$> live_side b (other_side t)).
Proof.
  intros Hwf Hq Hpf. split_and!.
  - unfold crossing. rewrite <- priority_fill_allocation; [by rewrite Hpf| |by apply side_price_sorted|done].
    by apply live_quantities.
  - by eapply priority_fill_props; [apply live_quantities| |exact Hpf].
  - by eapply priority_fill_props; [apply live_quantities| |exact Hpf].
  - by eapply priority_fill_conserves; [apply side_orders_ok|].
Qed.

(** What a maker has left after the fills: its own size, the rest of it, or nothing. *)
Definition taken (fs : list (Order * Z)) (m : Order) : Z := sumZ (snd <$> filter (λ mf, o_id mf.1 = o_id m) fs).
Definition left_of (fs : list (Order * Z)) (m : Order) : list Order :=
  if decide (taken fs m = 0) then [m]
  else if decide (taken fs m = quantity m) then []
  else [with_size m ((quantity m - taken fs m) * sign_multiplier (o_side m))].

Lemma taken_cons m f fs m' :
  taken ((m, f) :: fs) m' = (if decide (o_id m = o_id m') then f else 0) + taken fs m'.
Proof. unfold taken. rewrite filter_cons. cbn. by case_decide. Qed.

Lemma taken_fresh fs m : o_id m ∉ (λ mf : Order * Z, o_id mf.1) <$> fs → taken fs m = 0.
Proof.
  induction fs as [|[m' f] fs IH]; [done|]. rewrite fmap_cons, elem_of_cons, taken_cons. cbn.
  intros Hn. rewrite decide_False by naive_solver. rewrite IH by naive_solver. done.
Qed.

Lemma left_of_none l : l ≫= left_of [] = l.
Proof. induction l as [|m l IH]; [done|]. cbn in *. by rewrite IH. Qed.

(** The walk of the opposite side leaves of each maker what the fills did not take. *)
Lemma priority_fill_left crosses l q fs rest :
  Forall (λ m, 0 < quantity m) l → NoDup (o_id <$> l) → priority_fill crosses l q = (fs, rest) →
  rest = l ≫= left_of fs.
Proof.
  intros Hq. revert q fs rest. induction Hq as [|m l Hm Hl IH]; intros q fs rest Hnd Hpf; simpl in Hpf.
  { by simplify_eq. }
  rewrite fmap_cons in Hnd. apply NoDup_cons in Hnd as [Hni Hnd].
  case_decide; [|simplify_eq; by rewrite left_of_none].
  destruct (crosses (o_price m)); [|simplify_eq; by rewrite left_of_none].
  destruct (priority_fill crosses l (q - _)) as [fs' rest'] eqn:E. simplify_eq.
  assert (Hids : o_id m ∉ (λ mf : Order * Z, o_id mf.1) <$> fs').
  { intros (mf & Hid & Hmf)%list_elem_of_fmap. apply Hni. rewrite Hid.
    apply priority_fill_props in E as [_ Hall]; [|done|lia]. rewrite Forall_forall in Hall.
    apply list_elem_of_fmap_2. by apply Hall. }
  assert (Hothers : l ≫= left_of ((m, Z.min (quantity m) q) :: fs') = l ≫= left_of fs').
  { clear - Hni. induction l as [|m' l IH]; [done|]. rewrite fmap_cons, elem_of_cons in Hni.
    rewrite !bind_cons. f_equal; [|apply IH; naive_solver].
    unfold left_of. rewrite taken_cons, (decide_False (P := o_id m = _)) by naive_solver. done. }
  rewrite (IH _ _ _ Hnd E), bind_cons, Hothers.
  set (x := left_of fs'). unfold left_of. rewrite taken_cons, (decide_True (P := o_id m = _)), (taken_fresh _ _ Hids), Z.add_0_r by done.
  rewrite (decide_False (P := Z.min _ _ = 0)) by lia. repeat case_decide; try lia; done.
Qed.

Lemma live_side_ids b s : wf b → NoDup (o_id <$> live_side b s).
Proof. intros Hwf. destruct (wf_side b s Hwf) as (_ & Hnd & _). rewrite fmap_app in Hnd. by apply NoDup_app in Hnd as [? _]. Qed.

(** Fills never truncate: one of the two orders is a long, whose magnitude is below [2^127]. *)
Lemma long_quantity o s p : order_ok s p o → s = Long → quantity o < 2 ^ 127.
Proof.
  intros (Hs & _ & [_ Hv]%validate_Ok & Hr) ->. rewrite Hs in Hv. simpl in Hv.
  unfold quantity. unfold in_s in Hr. lia.
Qed.

Lemma taker_ok o : validate o = Ok tt → in_s 128 (o_size o) → order_ok (o_side o) (o_price o) o.
Proof. by intros. Qed.

Lemma as_i128_small x : 0 ≤ x < 2 ^ 127 → as_i128 x = x.
Proof. intros. apply wraps_small; [lia|int_range]. Qed.

(** Every fill of a reachable book's sweep. *)
Lemma fills_of_spec b t limit qty :
  wf b → 0 ≤ qty →
  Forall (λ mf, mf.1 ∈ live_side b (other_side t) ∧ crosses_limit t limit (o_price mf.1) = true ∧
                0 < mf.2 ≤ quantity mf.1 ∧ mf.2 ≤ qty) (fills_of (crossing b t limit) qty).
Proof.
  intros Hwf Hq. destruct (priority_fill (crosses_limit t limit) (live_side b (other_side t)) qty)
    as [fs rest] eqn:E.
  pose proof (sweep_allocation _ _ _ _ _ _ Hwf Hq E) as (<- & _ & _).
  by eapply priority_fill_props; [apply live_quantities| |exact E].
Qed.

Lemma fill_no_truncation b o m f :
  wf b → validate o = Ok tt → in_s 128 (o_size o) →
  m ∈ live_side b (other_side (o_side o)) → 0 < f ≤ quantity m → f ≤ quantity o → f < 2 ^ 127.
Proof.
  intros Hwf Hv Hr Hm Hf Hfo. pose proof (taker_ok o Hv Hr) as Hok.
  pose proof (wf_side_order _ _ _ Hwf Hm) as Hmk.
  destruct (o_side o) eqn:Hs; simpl in Hmk.
  - pose proof (long_quantity _ _ _ Hok eq_refl). lia.
  - pose proof (long_quantity _ _ _ Hmk eq_refl). lia.
Qed.

(** What the results report of each fill. *)
Lemma results_of_spec mk fs qty :
  Forall (λ r, ∃ m f q', (m, f) ∈ fs ∧ trade r = mk (o_id m) (o_price m) (as_i128 f) ∧
                 maker_order_id r = o_id m ∧ maker_remaining r = as_i128 (quantity m - f) ∧
                 taker_remaining r = as_i128 q') (results_of mk fs qty).
Proof.
  revert qty. induction fs as [|[m f] fs IH]; intros qty; [constructor|]. simpl.
  constructor.
  - exists m, f, (qty - f). by split; [left|].
  - eapply Forall_impl; [apply IH|]. intros r (m' & f' & q' & ? & ?).
    exists m', f', q'. by split; [right|].
Qed.

Lemma results_sizes t id fs qty :
  Forall (λ mf, 0 ≤ mf.2 < 2 ^ 127) fs →
  sumZ ((λ r, t_size (trade r)) <$> results_of (trade_for t id) fs qty) = filled fs.
Proof.
  intros Hf. revert qty. induction Hf as [|[m f] fs Hmf _ IH]; intros qty; [done|].
  rewrite filled_cons. simpl. rewrite IH. f_equal.
  destruct t; simpl; by apply as_i128_small.
Qed.

(** A taker with quantity left has exhausted every maker it crosses. *)
Lemma priority_fill_uncrossed t limit l qty fs rest :
  Forall (λ m, 0 < quantity m) l → price_sorted (other_side t) l →
  priority_fill (crosses_limit t limit) l qty = (fs, rest) →
  (∀ p, p ∈ o_price <$> rest → p ∈ o_price <$> l) ∧
  (0 < qty - filled fs → Forall (λ m, crosses_limit t limit (o_price m) = false) rest).
Proof.
  intros Hq. revert qty fs rest. induction Hq as [|m l Hm Hl IH]; intros qty fs rest Hs Hpf; simpl in Hpf.
  { by simplify_eq. }
  apply StronglySorted_inv in Hs as [Hs Hlt].
  case_decide; [|simplify_eq; split; [done|cbn; lia]].
  destruct (crosses_limit t limit (o_price m)) eqn:Hc.
  - destruct (priority_fill _ l (qty - _)) as [fs' rest'] eqn:E. simplify_eq.
    assert (0 ≤ filled fs') by (eapply priority_fill_props; [exact Hl| |exact E]; lia).
    apply IH in E as [Hp Hr]; [|done]. rewrite filled_cons. split.
    + intros p. case_decide; [by right; apply Hp|].
      rewrite !fmap_cons, !elem_of_cons. simpl. intros [?|?]; [by left|right; by apply Hp].
    + intros Hpos. case_decide as Hz; [apply Hr; lia|lia].
  - simplify_eq. split; [done|]. intros _. constructor; [done|].
    eapply Forall_impl; [exact Hlt|]. simpl. intros o Ho. apply not_true_iff_false. intros Hc'.
    by rewrite (crosses_limit_mono t limit _ _ Ho Hc') in Hc.
Qed.

Lemma clob_demo_reachable : reachable demo_book.
Proof.
  eapply rtc_l.
  { eapply (step_process new demo_maker_1); [by vm_compute|vm_compute; reflexivity]. }
  eapply rtc_l; [|apply rtc_refl].
  eapply (step_process _ demo_maker_2); [by vm_compute|vm_compute; reflexivity].
Qed.

(** No bid reaches an ask. *)
Lemma uncrossed_sides b t :
  uncrossed b ↔ ∀ o m, o ∈ live_side b t → m ∈ live_side b (other_side t) →
                  crosses_limit t (o_price o) (o_price m) = false.
Proof.
  unfold uncrossed, crosses_limit. destruct t; simpl; setoid_rewrite Z.leb_gt; naive_solver lia.
Qed.

(** ** Queries *)

Lemma order_live b id o : wf b → order b id = Some o ↔ o ∈ live b ∧ o_id o = id.
Proof.
  intros Hwf. unfold order. split.
  - destruct (index b !! id) as [loc|] eqn:Hix; [|done].
    apply (wf_index_lookup b) in Hix as (o' & Ho' & <- & <-); [|done].
    destruct (wf_side b (o_side o') Hwf) as (Hok & Hnd & _).
    rewrite fmap_app in Hnd. apply NoDup_app in Hnd as (Hnd & _).
    apply elem_of_live in Ho' as Hs; [|done].
    destruct (live_order_split _ _ o' Hok Hnd Hs) as (? & ? & ? & ? & _ & Hg & Hf).
    simpl. rewrite Hg, Hf. simpl. intros [= <-]. done.
  - intros [Ho <-]. rewrite (index_lookup_live _ _ Hwf Ho).
    destruct (wf_side b (o_side o) Hwf) as (Hok & Hnd & _).
    rewrite fmap_app in Hnd. apply NoDup_app in Hnd as (Hnd & _).
    apply elem_of_live in Ho as Hs; [|done].
    destruct (live_order_split _ _ o Hok Hnd Hs) as (? & ? & ? & ? & _ & Hg & Hf).
    simpl. by rewrite Hg, Hf.
Qed.

Lemma len_live b : wf b → len b = length (live b).
Proof.
  intros [_ Hnd Hix]. unfold len. rewrite Hix. clear Hix.
  induction (live b) as [|o l IH]; [done|].
  apply NoDup_cons in Hnd as [Hni Hnd]. apply index_of_lookup_None in Hni.
  specialize (IH Hnd). unfold index_of in *. rewrite fmap_cons. simpl.
  by rewrite map_size_insert_None, IH.
Qed.

Lemma best_head b s : wf b → best b s = o_price <$> head (live_side b s).
Proof.
  intros [Hl _ _]. specialize (Hl s). unfold live_side, level_orders.
  assert (best b s = om_first (side_levels b s)) as -> by by destruct s.
  destruct (side_levels b s) as [|[p q] m]; [done|].
  destruct Hl as [_ [[Hne Hq] _]%Forall_cons]. simpl in *.
  destruct q as [|o q]; [done|]. apply Forall_cons in Hq as [(_ & <- & _) _]. done.
Qed.

Lemma best_is_best b s p m :
  wf b → best b s = Some p → m ∈ live_side b s → before s (o_price m) p = false.
Proof.
  intros Hwf Hb Hm. rewrite best_head in Hb by done.
  pose proof (side_price_sorted b s Hwf) as Hs.
  destruct (live_side b s) as [|o l]; [done|]. simpl in Hb. simplify_eq.
  apply StronglySorted_inv in Hs as [_ Hlt]. rewrite Forall_forall in Hlt.
  apply elem_of_cons in Hm as [-> |Hm]; [apply lt_irrefl|by apply Hlt].
Qed.

(** ** Properties *)

(** C3: Price-time priority.  On every reachable book, an accepted order trades with exactly the
    makers that satisfy its limit, in the book's priority order, each receiving what is left of
    the order's quantity after the makers with priority over it (at most its own quantity), at the
    maker's price.  What is left of the order rests behind every order at its price or better.  The
    opposite side keeps every order in its place: a maker that did not trade unchanged, one that
    traded in part with the rest of its size, and only those filled in full are gone.  The one
    exception is an order of which 2^127 is left, which only a short of size [i128::MIN] that meets no
    maker has: it aborts. *)
Theorem process_order_price_time b o :
  reachable b → validate o = Ok tt → contains b (o_id o) = false →
  let t := o_side o in
  let fs := fills_of (crossing b t (o_price o)) (quantity o) in
  let rem := quantity o - filled fs in
  if decide (rem < 2 ^ 127) then
    ∃ b', process_order b o = Ret (results_of (trade_for t (o_id o)) fs (quantity o), b') ∧
      live_side b' (other_side t) = live_side b (other_side t) ≫= left_of fs ∧
      if decide (0 < rem) then
        pushed t (o_price o) (with_size o (rem * sign_multiplier t)) (live_side b t) (live_side b' t)
      else live_side b' t = live_side b t
  else process_order b o = Panic.
Proof.
  intros Hwf%reachable_wf Hv Hc t fs rem.
  pose proof (process_order_spec b o Hwf Hv Hc) as Hspec. cbv zeta in Hspec. fold t in Hspec.
  destruct (priority_fill _ _ _) as [fs' rest] eqn:E.
  pose proof (priority_fill_left _ _ _ _ _ (live_quantities b (other_side t) Hwf) (live_side_ids b (other_side t) Hwf) E) as Hleft.
  apply sweep_allocation in E as (Hfs & _ & _); [|done|unfold quantity; lia].
  fold fs in Hfs. subst fs'. fold rem in Hspec. case_decide; [|done].
  destruct Hspec as (b' & ? & _ & Hrest & ?). exists b'. by rewrite Hrest.
Qed.

Lemma process_order_price_time_witness :
  snd <$> fills_of (crossing demo_book Long 101) 8 = [5; 3] ∧
  ∃ b', process_order demo_book demo_taker =
          Ret (results_of (trade_for Long 3)
                 (fills_of (crossing demo_book Long 101) 8) 8, b') ∧
    (λ m, (o_id m, o_size m)) <$> live_side b' Short = [(2, -4)] ∧
    live_side b' Long = live_side demo_book Long.
Proof.
  split; [vm_compute; reflexivity|].
  pose proof (process_order_price_time demo_book demo_taker clob_demo_reachable eq_refl eq_refl) as H.
  cbv zeta in H. rewrite decide_True in H by by vm_compute. destruct H as (b' & Hp & Hm & Hl).
  exists b'. split; [exact Hp|]. change (other_side (o_side demo_taker)) with Short in Hm.
  split; [rewrite Hm; by vm_compute|].
  rewrite decide_False in Hl by by vm_compute. exact Hl.
Defined.

(** Conservation.  An accepted order on a reachable book moves quantity only by trading: what
    the book holds afterwards, plus both legs of every reported trade, is what it held before plus
    the order's quantity. *)
Theorem process_order_conserves b o rs b' :
  reachable b → in_s 128 (o_size o) → validate o = Ok tt → contains b (o_id o) = false →
  process_order b o = Ret (rs, b') →
  total_quantity b' + 2 * sumZ ((λ r, t_size (trade r)) <$> rs) = total_quantity b + quantity o.
Proof.
  intros Hwf%reachable_wf Hr Hv Hc Hp.
  pose proof (process_order_spec b o Hwf Hv Hc) as Hspec. cbv zeta in Hspec.
  set (t := o_side o) in *.
  destruct (priority_fill _ _ _) as [fs rest] eqn:E.
  apply sweep_allocation in E as (Hfs & Hle & Hcons); [|done|unfold quantity; lia].
  case_decide; [|congruence]. destruct Hspec as (b1 & Hp' & Hwf1 & Hrest & Hlive).
  rewrite Hp in Hp'. injection Hp' as -> <-. subst fs.
  rewrite results_sizes; cycle 1.
  { eapply Forall_impl; [apply fills_of_spec; [done|unfold quantity; lia]|].
    intros [m f] (Hm & _ & Hf & Hfo). simpl in *. split; [lia|]. by eapply (fill_no_truncation b o m). }
  rewrite (total_quantity_sides b' t), (total_quantity_sides b t), <- Hcons, Hrest.
  case_decide.
  - apply pushed_perm in Hlive. rewrite (sumZ_perm _ (quantity <$> _ :: _)) by (by rewrite Hlive).
    rewrite fmap_cons. simpl sumZ. rewrite quantity_with_size by lia. lia.
  - rewrite Hlive. lia.
Qed.

Lemma process_order_conserves_witness :
  ∃ rs b', process_order demo_book demo_taker = Ret (rs, b') ∧
    total_quantity b' + 2 * sumZ ((λ r, t_size (trade r)) <$> rs) = 12 + 8.
Proof.
  eexists _, _. split; [vm_compute; reflexivity|].
  apply (process_order_conserves demo_book demo_taker _ _ clob_demo_reachable);
    [by vm_compute|vm_compute; reflexivity..].
Defined.

(** Bounded slippage and exact reports.  Every trade an order produces is with a maker resting on
    the opposite side, at the maker's own price, which satisfies the order's limit; the reported
    fill is positive, at most both quantities, and it and the maker's remainder are reported
    without truncation in the settlement's 128-bit fields. *)
Theorem process_order_bounded b o rs b' :
  reachable b → in_s 128 (o_size o) → validate o = Ok tt → contains b (o_id o) = false →
  process_order b o = Ret (rs, b') →
  Forall (λ r, ∃ m f, m ∈ live_side b (other_side (o_side o)) ∧
    trade r = trade_for (o_side o) (o_id o) (o_id m) (o_price m) f ∧
    crosses_limit (o_side o) (o_price o) (o_price m) = true ∧
    0 < f ≤ quantity m ∧ f ≤ quantity o ∧
    maker_order_id r = o_id m ∧ maker_remaining r = quantity m - f) rs.
Proof.
  intros Hwf%reachable_wf Hr Hv Hc Hp.
  pose proof (process_order_spec b o Hwf Hv Hc) as Hspec. cbv zeta in Hspec.
  destruct (priority_fill _ _ _) as [fs rest] eqn:E.
  apply sweep_allocation in E as (Hfs & Hle & _); [|done|unfold quantity; lia].
  case_decide; [|congruence]. destruct Hspec as (b1 & Hp' & _).
  rewrite Hp in Hp'. injection Hp' as -> <-. subst fs.
  eapply Forall_impl; [apply results_of_spec|].
  intros r (m & f & q' & Hin & Htr & Hid & Hmr & _).
  pose proof (fills_of_spec b (o_side o) (o_price o) (quantity o) Hwf ltac:(unfold quantity; lia)) as Hall.
  rewrite Forall_forall in Hall. destruct (Hall _ Hin) as (Hm & Hcr & Hf & Hfo). simpl in *.
  pose proof (fill_no_truncation b o m f Hwf Hv Hr Hm Hf Hfo).
  pose proof (order_ok_quantity _ _ _ (wf_side_order _ _ _ Hwf Hm)).
  rewrite (as_i128_small f) in Htr by lia. rewrite as_i128_small in Hmr by lia.
  by exists m, f.
Qed.

Lemma process_order_bounded_witness :
  ∃ rs b', process_order demo_book demo_taker = Ret (rs, b') ∧
    Forall (λ r, ∃ m f, m ∈ live_side demo_book Short ∧
      trade r = trade_for Long 3 (o_id m) (o_price m) f ∧
      crosses_limit Long 101 (o_price m) = true ∧ 0 < f ≤ quantity m ∧ f ≤ 8 ∧
      maker_order_id r = o_id m ∧ maker_remaining r = quantity m - f) rs.
Proof.
  eexists _, _. split; [vm_compute; reflexivity|].
  eapply (process_order_bounded demo_book demo_taker _ _ clob_demo_reachable);
    [by vm_compute|vm_compute; reflexivity..].
Defined.

(** The exact abort condition.  On a reachable book [process_order] aborts on exactly one kind of
    order: a fresh, otherwise valid short of size [i128::MIN] that no resting bid crosses, whose
    magnitude does not fit the settlement's signed field when it comes to rest. *)
Theorem process_order_panics_iff b o :
  reachable b → in_s 128 (o_size o) →
  process_order b o = Panic ↔
    o_side o = Short ∧ o_size o = i128_min ∧ o_price o ≠ 0 ∧ contains b (o_id o) = false ∧
    crossing b Short (o_price o) = [].
Proof.
  intros Hwf%reachable_wf Hr.
  destruct (validate o) as [[]|e] eqn:Hv; cycle 1.
  { unfold process_order. rewrite Hv. simpl. split; [done|]. intros (Hs & Hm & Hp & _).
    assert (validate o = Ok tt) by (apply validate_Ok; rewrite Hs, Hm; done). congruence. }
  destruct (contains b (o_id o)) eqn:Hc.
  { unfold process_order. rewrite Hv, Hc. simpl. naive_solver. }
  pose proof (process_order_spec b o Hwf Hv Hc) as Hspec. cbv zeta in Hspec.
  destruct (priority_fill _ _ _) as [fs rest] eqn:E.
  apply sweep_allocation in E as (-> & Hle & _); [|done|unfold quantity; lia].
  apply validate_Ok in Hv as [Hp Hpos].
  set (mk := crossing b (o_side o) (o_price o)) in *.
  assert (Hmk : Forall (λ m, 0 < quantity m) mk) by by apply Forall_filter, live_quantities.
  case_decide as Hlt; [destruct Hspec as (b' & -> & _)|rewrite Hspec]; split.
  - done.
  - intros (Hs & Hm & _ & _ & Hnil). subst mk. rewrite Hs, Hnil in Hlt.
    unfold quantity in Hlt. rewrite Hm in Hlt. by vm_compute in Hlt.
  - intros _. unfold in_s, quantity in *.
    assert (Hmin : o_size o = - 2 ^ 127) by lia. rewrite Hmin in *.
    assert (Hs : o_side o = Short) by (destruct (o_side o); [simpl in Hpos; lia|done]).
    split_and!; try done. subst mk. rewrite Hs in *.
    destruct (crossing b Short (o_price o)) as [|m ms] eqn:Ec; [done|]. exfalso.
    apply Forall_cons in Hmk as [Hm0 _].
    pose proof (fills_of_first m ms (Z.abs (- 2 ^ 127)) Hm0 ltac:(lia)). lia.
  - done.
Qed.

Lemma process_order_panics_iff_witness :
  process_order new (with_size (mk_order 1 Short 100 5 10) i128_min) = Panic.
Proof.
  apply (process_order_panics_iff new (with_size (mk_order 1 Short 100 5 10) i128_min));
    [apply rtc_refl|by vm_compute|by vm_compute].
Defined.

(** C31: The book invariant.  Every book reached from the empty one by any sequence of operations has
    strictly price-ordered, non-empty levels, valid orders on the level of their own side and
    price, unique ids, and an index that is exactly the map of its live orders. *)
Theorem reachable_invariant b : reachable b → wf b.
Proof. apply reachable_wf. Qed.

Lemma reachable_invariant_witness : live demo_book = [demo_maker_1; demo_maker_2] ∧ wf demo_book.
Proof. split; [vm_compute; reflexivity|]. apply (reachable_invariant demo_book clob_demo_reachable). Defined.

(** Queries.  On a reachable book, [order], [contains] and [len] answer exactly from the resting
    orders, and [best_bid] and [best_ask] are the price of the first resting order of their side,
    which no order of that side beats. *)
Theorem queries_correct b id o s :
  reachable b →
  (order b id = Some o ↔ o ∈ live b ∧ o_id o = id) ∧
  (contains b id = true ↔ id ∈ o_id <$> live b) ∧
  len b = length (live b) ∧
  best b s = o_price <$> head (live_side b s) ∧
  ∀ p m, best b s = Some p → m ∈ live_side b s → before s (o_price m) p = false.
Proof.
  intros Hwf%reachable_wf. split_and!.
  - by apply order_live.
  - unfold contains. rewrite bool_decide_eq_true, <- not_eq_None_Some, (wf_index_None b) by done.
    destruct (decide (id ∈ o_id <$> live b)); naive_solver.
  - by apply len_live.
  - by apply best_head.
  - intros p m. by apply best_is_best.
Qed.

Lemma queries_correct_witness :
  order demo_book 2 = Some demo_maker_2 ∧
  (order demo_book 2 = Some demo_maker_2 ↔ demo_maker_2 ∈ live demo_book ∧ o_id demo_maker_2 = 2).
Proof.
  split; [vm_compute; reflexivity|].
  apply (queries_correct demo_book 2 demo_maker_2 Short clob_demo_reachable).
Defined.

(** No crossed book from matching.  Matching an order never leaves a resting bid at or above a
    resting ask when there was none before. *)
Theorem process_order_uncrossed b o rs b' :
  reachable b → uncrossed b → process_order b o = Ret (rs, b') → uncrossed b'.
Proof.
  intros Hwf%reachable_wf Hun Hp.
  destruct (validate o) as [[]|e] eqn:Hv; cycle 1.
  { unfold process_order in Hp. rewrite Hv in Hp. simpl in Hp. by inv_exec. }
  destruct (contains b (o_id o)) eqn:Hc.
  { unfold process_order in Hp. rewrite Hv, Hc in Hp. simpl in Hp. by inv_exec. }
  pose proof (process_order_spec b o Hwf Hv Hc) as Hspec. cbv zeta in Hspec.
  set (t := o_side o) in *.
  destruct (priority_fill _ _ _) as [fs rest] eqn:E.
  apply priority_fill_uncrossed in E as [Hpr Hcr];
    [|by apply live_quantities|by apply side_price_sorted].
  case_decide; [|congruence]. destruct Hspec as (b1 & Hp' & _ & Hrest & Hlive).
  rewrite Hp in Hp'. injection Hp' as _ <-.
  rewrite (uncrossed_sides b t) in Hun. apply (uncrossed_sides b' t).
  assert (Hold : ∀ x m, x ∈ live_side b t → m ∈ rest →
            crosses_limit t (o_price x) (o_price m) = false).
  { intros x m Hx Hm. apply (list_elem_of_fmap_2 o_price), Hpr, list_elem_of_fmap in Hm.
    destruct Hm as (m' & -> & Hm'). by apply Hun. }
  rewrite Hrest. intros x m Hx Hm. case_decide as Hpos.
  - apply pushed_perm in Hlive. rewrite Hlive in Hx. apply elem_of_cons in Hx as [-> |Hx].
    + simpl. specialize (Hcr Hpos). rewrite Forall_forall in Hcr. by apply Hcr.
    + by apply Hold.
  - rewrite Hlive in Hx. by apply Hold.
Qed.

Lemma process_order_uncrossed_witness :
  ∃ rs b', process_order demo_book (mk_order 3 Long 100 9 30) = Ret (rs, b') ∧
    length (live b') = 2%nat ∧ uncrossed b'.
Proof.
  eexists _, _. split; [vm_compute; reflexivity|]. split; [vm_compute; reflexivity|].
  eapply (process_order_uncrossed demo_book (mk_order 3 Long 100 9 30) _ _ clob_demo_reachable);
    [|vm_compute; reflexivity].
  intros bid ask Hb _. by apply elem_of_nil in Hb.
Defined.

(** Cancellation.  On a reachable book cancelling a live id returns its order and removes that
    order and nothing else; cancelling any other id reports [OrderNotFound] and changes nothing.
    It never aborts. *)
Theorem cancel_order_correct b id :
  reachable b →
  match order b id with
  | Some o => ∃ b', cancel_order b id = Ret (Ok o, b') ∧
                ∀ s, live_side b' s = filter (λ o', o_id o' ≠ id) (live_side b s)
  | None => cancel_order b id = Ret (Err (OrderNotFound id), b)
  end.
Proof.
  intros Hwf%reachable_wf. destruct (order b id) as [o|] eqn:Ho.
  - apply order_live in Ho as [Ho <-]; [|done].
    destruct (cancel_order_live b o Hwf Ho) as (b' & ? & _ & ?). by exists b'.
  - apply cancel_order_absent; [done|]. intros (o & -> & Hin)%list_elem_of_fmap.
    rewrite (proj2 (order_live b (o_id o) o Hwf)) in Ho; done.
Qed.

Lemma cancel_order_correct_witness :
  order demo_book 1 = Some demo_maker_1 ∧
  ∃ b', cancel_order demo_book 1 = Ret (Ok demo_maker_1, b') ∧
    ∀ s, live_side b' s = filter (λ o', o_id o' ≠ 1) (live_side demo_book s).
Proof.
  split; [vm_compute; reflexivity|].
  exact (cancel_order_correct demo_book 1 clob_demo_reachable).
Defined.

(** Modification.  On a reachable book a request with a zero size or price, an unknown id or a
    size whose sign contradicts the resting side reports that error (in that order) and changes
    nothing; otherwise it succeeds, and the order keeps its place in the queue when its price is
    unchanged, and moves behind every order at the new price or better when it is not. *)
Theorem modify_order_correct b id p sz :
  reachable b → in_s 128 sz →
  match modify_error b id p sz with
  | Some e => modify_order b id p sz = Ret (Err e, b)
  | None =>
      ∃ o b' l1 l2, order b id = Some o ∧ modify_order b id p sz = Ret (Ok tt, b') ∧
        live_side b (o_side o) = l1 ++ o :: l2 ∧
        live_side b' (other_side (o_side o)) = live_side b (other_side (o_side o)) ∧
        if decide (o_price o = p) then live_side b' (o_side o) = l1 ++ with_size o sz :: l2
        else pushed (o_side o) p (with_size (with_price o p) sz) (l1 ++ l2) (live_side b' (o_side o))
  end.
Proof.
  intros Hwf%reachable_wf Hsz. destruct (modify_error b id p sz) as [e|] eqn:He.
  { by apply modify_order_error. }
  apply modify_error_None in He as (o & Ho & <- & Hp & Hpos); [|done].
  exists o. destruct (decide (o_price o = p)) as [<-|Hne].
  - destruct (modify_in_place b o sz) as (b' & l1 & l2 & ? & _ & ? & ? & ?); [done..|].
    exists b', l1, l2. by rewrite order_live.
  - destruct (modify_move b o p sz) as (b' & l1 & l2 & ? & _ & ? & ? & ?); [done..|].
    exists b', l1, l2. by rewrite order_live.
Qed.

Lemma modify_order_correct_witness :
  modify_error demo_book 1 100 (-4) = None ∧
  match modify_error demo_book 1 100 (-4) with
  | Some e => modify_order demo_book 1 100 (-4) = Ret (Err e, demo_book)
  | None =>
      ∃ o b' l1 l2, order demo_book 1 = Some o ∧ modify_order demo_book 1 100 (-4) = Ret (Ok tt, b') ∧
        live_side demo_book (o_side o) = l1 ++ o :: l2 ∧
        live_side b' (other_side (o_side o)) = live_side demo_book (other_side (o_side o)) ∧
        if decide (o_price o = 100) then live_side b' (o_side o) = l1 ++ with_size o (-4) :: l2
        else pushed (o_side o) 100 (with_size (with_price o 100) (-4)) (l1 ++ l2)
               (live_side b' (o_side o))
  end.
Proof.
  split; [vm_compute; reflexivity|].
  apply (modify_order_correct demo_book 1 100 (-4) clob_demo_reachable). by vm_compute.
Defined.

(** Recycling.  On a reachable book [cleanup_expired] returns the ids of exactly the orders whose
    expiry block has been reached, asks before bids, each side in priority order, and leaves
    exactly the other orders, in their order; a second call at the same block finds nothing. *)
Theorem cleanup_expired_correct b blk :
  reachable b →
  ∃ b', cleanup_expired b blk =
          Ret (o_id <$> filter (λ o, o_expiry_block o ≤ blk) (live_side b Short ++ live_side b Long), b') ∧
    (∀ s, live_side b' s = filter (λ o, blk < o_expiry_block o) (live_side b s)) ∧
    cleanup_expired b' blk = Ret ([], b').
Proof.
  intros Hwf%reachable_wf. destruct (cleanup_expired_spec b blk Hwf) as (b' & Hc & Hwf' & Hl).
  exists b'. split_and!; [done..|]. unfold cleanup_expired. rewrite expired_live.
  unfold live. rewrite !Hl, filter_none; [done|].
  apply Forall_app; split; apply Forall_forall; intros o [??]%list_elem_of_filter; lia.
Qed.

Lemma cleanup_expired_correct_witness :
  o_id <$> filter (λ o, o_expiry_block o ≤ 10) (live_side demo_book Short ++ live_side demo_book Long) = [1] ∧
  ∃ b', cleanup_expired demo_book 10 =
          Ret (o_id <$> filter (λ o, o_expiry_block o ≤ 10)
                 (live_side demo_book Short ++ live_side demo_book Long), b') ∧
    (∀ s, live_side b' s = filter (λ o, 10 < o_expiry_block o) (live_side demo_book s)) ∧
    cleanup_expired b' 10 = Ret ([], b').
Proof.
  split; [vm_compute; reflexivity|].
  exact (cleanup_expired_correct demo_book 10 clob_demo_reachable).
Defined.

(** A price change is not matched against the opposite side: it can leave a crossed book. *)
Lemma modify_order_can_cross :
  ∃ b0 b1, run_orders [mk_order 1 Short 100 5 10; mk_order 2 Long 90 5 10] = Ret b0 ∧
    modify_order b0 2 110 5 = Ret (Ok tt, b1) ∧
    best_bid b1 = Some 110 ∧ best_ask b1 = Some 100.
Proof. eexists _, _. split_and!; vm_compute; reflexivity. Qed.
