(* ===== verification/Occupancy.v ===== *)
(** * The occupancy bitmap ([book.rs], [struct Occupancy])

    A two-tier bitmap over a ladder's levels: [words] has one bit per level, [summary] one bit per
    word, set when the word is non-zero.  [next_set_from] and [prev_set_from] jump to the nearest
    occupied level with word-level bit scans; the theorems say they return the least set bit at or
    above, and the greatest at or below, their argument. *)
From S2P Require Import Prelude Ints.
Open Scope nat_scope.

(** ** Operations *)

Record Occupancy := { words : list Z; summary : list Z }.

Definition occ_default : Occupancy := {| words := []; summary := [] |}.

(** [usize::div_ceil(64)]. *)
Definition div_ceil_64 (n : nat) : nat := (n + 63) / 64.

Definition ensure_len (o : Occupancy) (level_count : nat) : Occupancy :=
  let word_count := div_ceil_64 level_count in
  if decide (length (words o) < word_count) then
    {| words := resize word_count 0%Z (words o);
       summary := resize (div_ceil_64 word_count) 0%Z (summary o) |}
  else o.

Definition set (o : Occupancy) (idx : nat) : exec Occupancy :=
  let o := ensure_len o (idx + 1) in
  let word := idx / 64 in
  w ← vec_get (words o) word;
  words' ← vec_set (words o) word (Z.lor w (Z.shiftl 1 (Z.of_nat (idx mod 64))));
  v ← vec_get (summary o) (word / 64);
  summary' ← vec_set (summary o) (word / 64) (Z.lor v (Z.shiftl 1 (Z.of_nat (word mod 64))));
  Ret {| words := words'; summary := summary' |}.

Definition clear (o : Occupancy) (idx : nat) : exec Occupancy :=
  let word := idx / 64 in
  if decide (length (words o) ≤ word) then Ret o
  else
    w ← vec_get (words o) word;
    let w' := Z.land w (u64_not (Z.shiftl 1 (Z.of_nat (idx mod 64)))) in
    words' ← vec_set (words o) word w';
    if decide (w' = 0%Z) then
      v ← vec_get (summary o) (word / 64);
      summary' ← vec_set (summary o) (word / 64)
                   (Z.land v (u64_not (Z.shiftl 1 (Z.of_nat (word mod 64)))));
      Ret {| words := words'; summary := summary' |}
    else Ret {| words := words'; summary := summary o |}.

Definition is_set (o : Occupancy) (idx : nat) : bool :=
  match words o !! (idx / 64) with
  | Some w => bool_decide (Z.land w (Z.shiftl 1 (Z.of_nat (idx mod 64))) ≠ 0%Z)
  | None => false
  end.

(** [for i in 0..self.words.len() * 64 { if self.is_set(i) { shifted.set(i + shift) } }]. *)
Fixpoint shift_bits (o : Occupancy) (shift : nat) (ixs : list nat) (shifted : Occupancy) :
    exec Occupancy :=
  match ixs with
  | [] => Ret shifted
  | i :: ixs' =>
      shifted' ← (if is_set o i then set shifted (i + shift) else Ret shifted);
      shift_bits o shift ixs' shifted'
  end.

Definition shift_up (o : Occupancy) (shift new_level_count : nat) : exec Occupancy :=
  shift_bits o shift (seq 0 (length (words o) * 64)) (ensure_len occ_default new_level_count).

(** The [while sw < self.summary.len()] loop of [next_set_from]. *)
Fixpoint scan_up (fuel : nat) (o : Occupancy) (sw mask_from_bit : nat) : exec (option nat) :=
  match summary o !! sw with
  | None => Ret None
  | Some v =>
      let effective := if decide (64 ≤ mask_from_bit) then 0%Z
                       else Z.land v (u64_shl u64_max mask_from_bit) in
      if decide (effective ≠ 0%Z) then
        let word := sw * 64 + trailing_zeros effective in
        if decide (length (words o) ≤ word) then Ret None
        else
          w ← vec_get (words o) word;
          Ret (Some (word * 64 + trailing_zeros w))
      else
        match fuel with
        | O => Panic
        | S fuel' => scan_up fuel' o (S sw) 0
        end
  end.

Definition next_set_from (o : Occupancy) (idx : nat) : exec (option nat) :=
  let start_word := idx / 64 in
  match words o !! start_word with
  | None => Ret None
  | Some w =>
      let masked := Z.land w (u64_shl u64_max (idx mod 64)) in
      if decide (masked ≠ 0%Z) then Ret (Some (start_word * 64 + trailing_zeros masked))
      else scan_up (length (summary o)) o (start_word / 64) (start_word mod 64 + 1)
  end.

(** The [loop] of [prev_set_from]: [summary_word] decreases. *)
Fixpoint scan_down (fuel : nat) (o : Occupancy) (sw : nat) : exec (option nat) :=
  let summary_bit := sw mod 64 in
  let summary_word := sw / 64 in
  v ← vec_get (summary o) summary_word;
  let effective := Z.land v (u64_shr u64_max (63 - summary_bit)) in
  if decide (effective ≠ 0%Z) then
    let word := summary_word * 64 + (63 - leading_zeros effective) in
    w ← vec_get (words o) word;
    Ret (Some (word * 64 + (63 - leading_zeros w)))
  else if decide (summary_word = 0) then Ret None
  else
    match fuel with
    | O => Panic
    | S fuel' => scan_down fuel' o (summary_word * 64 - 1)
    end.

(** The body of [prev_set_from] for an index whose word exists. *)
Definition prev_set_within (o : Occupancy) (idx : nat) : exec (option nat) :=
  let start_word := idx / 64 in
  let bit := idx mod 64 in
  w ← vec_get (words o) start_word;
  let masked := Z.land w (u64_shr u64_max (63 - bit)) in
  if decide (masked ≠ 0%Z) then Ret (Some (start_word * 64 + (63 - leading_zeros masked)))
  else if decide (start_word = 0) then Ret None
  else scan_down (length (summary o)) o (start_word - 1).

Definition prev_set_from (o : Occupancy) (idx : nat) : exec (option nat) :=
  if decide (words o = []) then Ret None
  else if decide (length (words o) ≤ idx / 64) then
    prev_set_within o (length (words o) * 64 - 1)
  else prev_set_within o idx.

(** ** The set of occupied levels and the invariant *)

(** Bit [i] of the first tier. *)
Definition bit (o : Occupancy) (i : nat) : bool :=
  match words o !! (i / 64) with Some w => testbit w (i mod 64) | None => false end.

Record occ_ok (o : Occupancy) : Prop := {
  occ_len : length (summary o) = div_ceil_64 (length (words o));
  occ_words : ∀ i w, words o !! i = Some w → in_u 64 w;
  occ_summary : ∀ j v, summary o !! j = Some v → in_u 64 v ∧
    ∀ k, k < 64 → testbit v k = true ↔ ∃ w, words o !! (j * 64 + k) = Some w ∧ w ≠ 0%Z;
}.

(** [Some j] is the least set bit at or above [i]; [None] says there is none. *)
Definition next_spec (o : Occupancy) (i : nat) (r : option nat) : Prop :=
  match r with
  | Some j => i ≤ j ∧ bit o j = true ∧ ∀ k, i ≤ k < j → bit o k = false
  | None => ∀ k, i ≤ k → bit o k = false
  end.

Definition prev_spec (o : Occupancy) (i : nat) (r : option nat) : Prop :=
  match r with
  | Some j => j ≤ i ∧ bit o j = true ∧ ∀ k, j < k ≤ i → bit o k = false
  | None => ∀ k, k ≤ i → bit o k = false
  end.

(** The part of a summary word at or above bit [mask]. *)
Definition masked_summary (v : Z) (mask : nat) : Z :=
  if decide (64 ≤ mask) then 0%Z else Z.land v (u64_shl u64_max mask).

(** ** Index arithmetic *)

Lemma div64_split i : i = i / 64 * 64 + i mod 64 ∧ i mod 64 < 64.
Proof. pose proof (Nat.div_mod_eq i 64). pose proof (Nat.mod_upper_bound i 64). lia. Qed.

Lemma div64_unique q r : r < 64 → (q * 64 + r) / 64 = q ∧ (q * 64 + r) mod 64 = r.
Proof.
  intros. rewrite Nat.add_comm, Nat.div_add, Nat.Div0.mod_add by lia.
  rewrite Nat.div_small, Nat.mod_small by lia. lia.
Qed.

Lemma div_ceil_64_lt n k : k < n ↔ k / 64 < div_ceil_64 n ∧ k < n.
Proof.
  split; [|lia]. intros. split; [|done]. unfold div_ceil_64.
  pose proof (Nat.div_mod_eq k 64). pose proof (Nat.mod_upper_bound k 64).
  pose proof (Nat.div_mod_eq (n + 63) 64). pose proof (Nat.mod_upper_bound (n + 63) 64). lia.
Qed.

Lemma div_ceil_64_le n m : n ≤ m → div_ceil_64 n ≤ div_ceil_64 m.
Proof. intros. unfold div_ceil_64. apply Nat.Div0.div_le_mono. lia. Qed.

Lemma div_ceil_64_gt n : n / 64 < div_ceil_64 (n + 1).
Proof. apply (div_ceil_64_lt (n + 1)). lia. Qed.

Lemma bit_split o q r :
  r < 64 → bit o (q * 64 + r) = match words o !! q with Some w => testbit w r | None => false end.
Proof. intros. unfold bit. by destruct (div64_unique q r) as [-> ->]. Qed.

(** ** Growing, setting and clearing *)

Lemma resize_lookup n (l : list Z) i :
  length l ≤ n → resize n 0%Z l !! i =
    if decide (i < length l) then l !! i else if decide (i < n) then Some 0%Z else None.
Proof.
  intros Hn. rewrite resize_ge by done. case_decide; [by rewrite lookup_app_l|].
  rewrite lookup_app_r by lia. case_decide.
  - apply lookup_replicate. lia.
  - apply lookup_replicate_None. lia.
Qed.

Lemma ensure_len_spec o n :
  occ_ok o → occ_ok (ensure_len o n) ∧ (∀ i, bit (ensure_len o n) i = bit o i) ∧
  div_ceil_64 n ≤ length (words (ensure_len o n)) ∧ length (words o) ≤ length (words (ensure_len o n)).
Proof.
  intros [Hlen Hw Hs]. unfold ensure_len. case_decide as Hn; [|split_and!; try done; lia].
  assert (Hwl : ∀ i w, words o !! i = Some w ↔ resize (div_ceil_64 n) 0%Z (words o) !! i = Some w ∧
                          i < length (words o)).
  { intros i w. rewrite resize_lookup by lia. case_decide; [naive_solver|].
    split; [intros ?%lookup_lt_Some; lia|naive_solver lia]. }
  pose proof (div_ceil_64_le (length (words o)) (div_ceil_64 n) ltac:(lia)) as Hle.
  split_and!; [split|..]; simpl; rewrite ?length_resize; [done|..|lia|lia].
  - intros i w. rewrite resize_lookup by lia. repeat case_decide; [by apply Hw| |done].
    intros [= <-]. int_range.
  - intros j v. rewrite resize_lookup by lia. repeat case_decide; [|intros [= <-]|done].
    + intros [Hv Hb]%Hs. split; [done|]. intros k Hk. rewrite Hb by done.
      split; intros (w & Hwk & Hne); exists w; (split; [|done]); [by apply Hwl|].
      rewrite resize_lookup in Hwk by lia.
      case_decide; [done|]. case_decide; [by simplify_eq|done].
    + split; [int_range|]. intros k Hk. split; [unfold testbit; by rewrite Z.testbit_0_l|].
      intros (w & Hwk & Hne). rewrite resize_lookup in Hwk by lia.
      case_decide; [|case_decide; [by simplify_eq|done]]. exfalso.
      pose proof (proj1 (div_ceil_64_lt (length (words o)) (j * 64 + k)) ltac:(done)) as [Hj _].
      destruct (div64_unique j k Hk) as [E _]. lia.
  - intros i. unfold bit. simpl. rewrite resize_lookup by lia.
    case_decide as Hi; [done|]. rewrite (lookup_ge_None_2 (words o)) by lia.
    case_decide; [|done]. unfold testbit. apply Z.testbit_0_l.
Qed.

(** The word that holds bit [i] and the summary word that covers it. *)
Lemma summary_word_lt o i :
  occ_ok o → i / 64 < length (words o) → i / 64 / 64 < length (summary o).
Proof. intros [Hlen _ _] Hi. rewrite Hlen. by apply (div_ceil_64_lt (length (words o))). Qed.

Lemma lor_bit_ne0 w r : in_u 64 w → r < 64 → Z.lor w (Z.shiftl 1 (Z.of_nat r)) ≠ 0%Z ∧
  in_u 64 (Z.lor w (Z.shiftl 1 (Z.of_nat r))).
Proof.
  intros Hw Hr. assert (Hin : in_u 64 (Z.lor w (Z.shiftl 1 (Z.of_nat r)))).
  { apply in_u64_bits.
    - apply Z.lor_nonneg. split; [apply Hw|]. apply Z.shiftl_nonneg. lia.
    - intros k Hk. rewrite testbit_lor, testbit_bit, testbit_high, bool_decide_eq_false_2; [done|lia|done|lia]. }
  split; [|done]. apply u64_nonzero_bit; [done|]. exists r. split; [done|].
  rewrite testbit_lor, testbit_bit, bool_decide_eq_true_2 by done. apply orb_true_r.
Qed.

Lemma set_spec o i :
  occ_ok o →
  ∃ o', set o i = Ret o' ∧ occ_ok o' ∧ (∀ j, bit o' j = bool_decide (j = i) || bit o j) ∧
    length (words o) ≤ length (words o').
Proof.
  intros Hok. destruct (ensure_len_spec o (i + 1) Hok) as (Hok1 & Hbit & Hlen & Hle).
  unfold set. set (o1 := ensure_len o (i + 1)) in *. clearbody o1.
  pose proof (div_ceil_64_gt i). destruct (div64_split i) as [_ Hr].
  assert (Hiw : i / 64 < length (words o1)) by lia.
  destruct (lookup_lt_is_Some_2 _ _ Hiw) as [w Hw].
  destruct (lookup_lt_is_Some_2 _ _ (summary_word_lt _ _ Hok1 Hiw)) as [v Hv].
  run (vec_get_Ret _ _ _ Hw). run (vec_set_Ret' _ _ (Z.lor w (Z.shiftl 1 (Z.of_nat (i mod 64)))) _ Hw).
  run (vec_get_Ret _ _ _ Hv).
  run (vec_set_Ret' _ _ (Z.lor v (Z.shiftl 1 (Z.of_nat (i / 64 mod 64)))) _ Hv).
  pose proof (occ_words _ Hok1 _ _ Hw) as Hwr.
  destruct (lor_bit_ne0 w (i mod 64) Hwr Hr) as [Hne Hr'].
  eexists. split; [done|]. split_and!; [split|..]; simpl; rewrite ?length_insert; [apply Hok1|..|lia].
  - intros k w' [(<- & <- & _)|[_ ?]]%list_lookup_insert_Some; [done|by eapply occ_words].
  - destruct (occ_summary _ Hok1 _ _ Hv) as [Hvr Hvb].
    destruct (div64_split (i / 64)) as [Hsplit Hsr].
    destruct (lor_bit_ne0 v (i / 64 mod 64) Hvr Hsr) as [_ Hvr'].
    intros j v' [(<- & <- & _)|[Hj Hv']]%list_lookup_insert_Some.
    + split; [done|]. intros k Hk. rewrite testbit_lor, testbit_bit.
      destruct (decide (k = i / 64 mod 64)) as [->|Hk'].
      * rewrite <- Hsplit, bool_decide_eq_true_2, orb_true_r by done.
        split; [|done]. intros _. eexists. by rewrite list_lookup_insert_eq.
      * rewrite bool_decide_eq_false_2, orb_false_r, Hvb by done.
        by rewrite list_lookup_insert_ne by lia.
    + destruct (occ_summary _ Hok1 _ _ Hv') as [? Hb]. split; [done|]. intros k Hk.
      rewrite Hb by done. rewrite list_lookup_insert_ne; [done|]. intros Heq. apply Hj.
      rewrite Heq. by destruct (div64_unique j k Hk) as [-> _].
  - intros j. rewrite <- (Hbit j). unfold bit. simpl.
    destruct (decide (j / 64 = i / 64)) as [E|E].
    + rewrite E, list_lookup_insert_eq, Hw, testbit_lor, testbit_bit by done.
      rewrite orb_comm. f_equal. apply bool_decide_ext.
      destruct (div64_split j), (div64_split i). split; [lia|by intros ->].
    + rewrite list_lookup_insert_ne by done.
      rewrite bool_decide_eq_false_2; [done|]. by intros ->.
Qed.

Lemma clear_bit_range w r : in_u 64 w → in_u 64 (Z.land w (u64_not (Z.shiftl 1 (Z.of_nat r)))).
Proof.
  intros Hw. apply in_u64_bits.
  - apply Z.land_nonneg. left. apply Hw.
  - intros k Hk. by rewrite testbit_land, testbit_high.
Qed.

Lemma testbit_clear w r k :
  k < 64 → testbit (Z.land w (u64_not (Z.shiftl 1 (Z.of_nat r)))) k =
    negb (bool_decide (k = r)) && testbit w k.
Proof. intros. by rewrite testbit_land, testbit_not, testbit_bit, andb_comm. Qed.

(** The summary after word [q] became zero, or stayed non-zero. *)
Lemma clear_summary o q w' (s' : list Z) :
  occ_ok o → q < length (words o) → in_u 64 w' →
  (if decide (w' = 0%Z) then
     ∃ v, summary o !! (q / 64) = Some v ∧
       s' = <[q / 64 := Z.land v (u64_not (Z.shiftl 1 (Z.of_nat (q mod 64))))]> (summary o)
   else s' = summary o ∧ ∃ w, words o !! q = Some w ∧ w ≠ 0%Z) →
  occ_ok {| words := <[q := w']> (words o); summary := s' |}.
Proof.
  intros [Hlen Hws Hs] Hq Hw' Hcase. split; simpl; rewrite ?length_insert.
  - rewrite <- Hlen. case_decide; destruct Hcase as [? Hcase]; [|by subst].
    destruct Hcase as [_ ->]. by rewrite length_insert.
  - intros k w1 [(<- & <- & _)|[_ ?]]%list_lookup_insert_Some; [done|by eapply Hws].
  - intros j v' Hv'. destruct (div64_split q) as [Hsplit Hr]. case_decide as Hz.
    + destruct Hcase as (v & Hv & ->). destruct (Hs _ _ Hv) as [Hvr Hvb].
      apply list_lookup_insert_Some in Hv' as [(<- & <- & _)|[Hj Hv']].
      * split; [by apply clear_bit_range|]. intros k Hk. rewrite testbit_clear by done.
        destruct (decide (k = q mod 64)) as [->|Hk'].
        -- rewrite <- Hsplit, list_lookup_insert_eq, bool_decide_eq_true_2 by done. naive_solver.
        -- rewrite bool_decide_eq_false_2, list_lookup_insert_ne by lia. by apply Hvb.
      * destruct (Hs _ _ Hv') as [? Hb]. split; [done|]. intros k Hk.
        rewrite list_lookup_insert_ne; [by apply Hb|]. intros Heq. apply Hj. rewrite Heq.
        by destruct (div64_unique j k Hk) as [-> _].
    + destruct Hcase as [-> (w & Hw & Hne)]. destruct (Hs _ _ Hv') as [? Hb]. split; [done|].
      intros k Hk. rewrite Hb by done. destruct (decide (j * 64 + k = q)) as [->|Hne'].
      * rewrite list_lookup_insert_eq by done. naive_solver.
      * by rewrite list_lookup_insert_ne.
Qed.

Lemma clear_spec o i :
  occ_ok o →
  ∃ o', clear o i = Ret o' ∧ occ_ok o' ∧ (∀ j, bit o' j = negb (bool_decide (j = i)) && bit o j) ∧
    length (words o') = length (words o).
Proof.
  intros Hok. unfold clear. case_decide as Hi.
  { exists o. split_and!; [done|done| |done]. intros j. case_bool_decide as Hj; [|done]. subst j. simpl.
    unfold bit. by rewrite lookup_ge_None_2. }
  assert (Hiw : i / 64 < length (words o)) by lia.
  destruct (lookup_lt_is_Some_2 _ _ Hiw) as [w Hw].
  destruct (lookup_lt_is_Some_2 _ _ (summary_word_lt _ _ Hok Hiw)) as [v Hv].
  pose proof (occ_words _ Hok _ _ Hw) as Hwr.
  run (vec_get_Ret _ _ _ Hw).
  set (w' := Z.land w (u64_not (Z.shiftl 1 (Z.of_nat (i mod 64))))).
  pose proof (clear_bit_range w (i mod 64) Hwr) as Hwr'. fold w' in Hwr'.
  run (vec_set_Ret' _ _ w' _ Hw).
  assert (Hbits : ∀ s' j, bit {| words := <[i / 64 := w']> (words o); summary := s' |} j =
                    negb (bool_decide (j = i)) && bit o j).
  { intros s' j. unfold bit. simpl. destruct (div64_split i), (div64_split j).
    destruct (decide (j / 64 = i / 64)) as [E|E].
    - rewrite E, list_lookup_insert_eq, Hw by done. unfold w'. rewrite testbit_clear by done.
      do 2 f_equal. apply bool_decide_ext. split; [lia|by intros ->].
    - rewrite list_lookup_insert_ne by done. rewrite bool_decide_eq_false_2; [done|by intros ->]. }
  case_decide as Hz.
  - run (vec_get_Ret _ _ _ Hv).
    run (vec_set_Ret' _ _ (Z.land v (u64_not (Z.shiftl 1 (Z.of_nat (i / 64 mod 64))))) _ Hv).
    eexists. split; [done|]. split_and!; [|apply Hbits|by simpl; rewrite length_insert].
    apply clear_summary; [done..|]. rewrite decide_True by done. by exists v.
  - eexists. split; [done|]. split_and!; [|apply Hbits|by simpl; rewrite length_insert].
    apply clear_summary; [done..|]. rewrite decide_False by done. split; [done|].
    exists w. split; [done|]. intros ->. apply Hz. unfold w'. apply Z.land_0_l.
Qed.

Lemma is_set_bit o i : occ_ok o → is_set o i = bit o i.
Proof.
  intros Hok. unfold is_set, bit. destruct (words o !! (i / 64)) as [w|] eqn:Hw; [|done].
  pose proof (occ_words _ Hok _ _ Hw) as Hwr. destruct (div64_split i) as [_ Hr].
  assert (Hin : in_u 64 (Z.land w (Z.shiftl 1 (Z.of_nat (i mod 64))))).
  { apply in_u64_bits; [apply Z.land_nonneg; left; apply Hwr|].
    intros k Hk. by rewrite testbit_land, testbit_high. }
  apply eq_bool_prop_intro. rewrite bool_decide_spec, Is_true_true, u64_nonzero_bit by done. split.
  - intros (k & _ & Hk). rewrite testbit_land, testbit_bit in Hk.
    apply andb_true_iff in Hk as [Hk ->%bool_decide_eq_true]. done.
  - intros Hb. exists (i mod 64). split; [done|].
    by rewrite testbit_land, testbit_bit, Hb, bool_decide_eq_true_2.
Qed.

Lemma shift_bits_spec o shift ixs s :
  occ_ok o → occ_ok s →
  ∃ o', shift_bits o shift ixs s = Ret o' ∧ occ_ok o' ∧
    ∀ j, bit o' j = bit s j || existsb (λ i, bool_decide (j = i + shift) && bit o i) ixs.
Proof.
  intros Hok. revert s. induction ixs as [|i ixs IH]; intros s Hs; simpl.
  { exists s. split_and!; [done..|]. intros j. by rewrite orb_false_r. }
  rewrite is_set_bit by done. destruct (bit o i) eqn:Hb.
  - destruct (set_spec s (i + shift) Hs) as (s1 & Heq & Hs1 & Hb1 & _). run Heq.
    destruct (IH s1 Hs1) as (o' & ? & ? & Hbit). exists o'. split_and!; [done..|].
    intros j. rewrite Hbit, Hb1, andb_true_r. by destruct (bit s j), (bool_decide _).
  - rewrite ret_bind. destruct (IH s Hs) as (o' & ? & ? & Hbit). exists o'. split_and!; [done..|].
    intros j. by rewrite Hbit, andb_false_r.
Qed.

Lemma occ_default_ok : occ_ok occ_default.
Proof. split; simpl; [done|by intros ???|by intros ???]. Qed.

Lemma bit_lt_words o i : bit o i = true → i < length (words o) * 64.
Proof.
  unfold bit. destruct (words o !! (i / 64)) as [w|] eqn:Hw; [|done].
  apply lookup_lt_Some in Hw. destruct (div64_split i). lia.
Qed.

Lemma shift_up_spec o shift n :
  occ_ok o →
  ∃ o', shift_up o shift n = Ret o' ∧ occ_ok o' ∧
    ∀ j, bit o' j = bool_decide (shift ≤ j) && bit o (j - shift).
Proof.
  intros Hok. unfold shift_up.
  destruct (ensure_len_spec occ_default n occ_default_ok) as (Hs & Hbs & _).
  destruct (shift_bits_spec o shift (seq 0 (length (words o) * 64)) _ Hok Hs) as (o' & ? & ? & Hb).
  exists o'. split_and!; [done..|]. intros j. rewrite Hb, Hbs.
  assert (bit occ_default j = false) as -> by done. rewrite orb_false_l.
  apply eq_bool_prop_intro. rewrite !Is_true_true, andb_true_iff, bool_decide_eq_true.
  rewrite existsb_exists. split.
  - intros (i & _ & [->%bool_decide_eq_true Hi]%andb_true_iff).
    rewrite Nat.add_sub. split; [lia|done].
  - intros [Hle Hi]. exists (j - shift). split.
    + apply list_elem_of_In, elem_of_seq. apply bit_lt_words in Hi. lia.
    + rewrite Hi, bool_decide_eq_true_2 by lia. done.
Qed.

(** ** The scans *)

(** A bit below [64 * q] has its word below [q]. *)
Lemma bit_word o i : bit o i = true → ∃ w, words o !! (i / 64) = Some w ∧ w ≠ 0%Z.
Proof.
  unfold bit. destruct (words o !! (i / 64)) as [w|] eqn:Hw; [|done]. intros Hb. exists w.
  split; [done|]. intros ->. unfold testbit in Hb. by rewrite Z.testbit_0_l in Hb.
Qed.

(** Bit [k] of summary word [j] is set exactly when some bit of word [j * 64 + k] is. *)
Lemma summary_bit o j v k :
  occ_ok o → summary o !! j = Some v → k < 64 → testbit v k = false →
  ∀ i, i / 64 = j * 64 + k → bit o i = false.
Proof.
  intros Hok Hv Hk Hb i Hi. apply not_true_iff_false. intros (w & Hw & Hne)%bit_word.
  rewrite Hi in Hw. assert (testbit v k = true); [|congruence].
  apply (occ_summary _ Hok _ _ Hv); [done|]. by exists w.
Qed.

Lemma land_ne0_bits w m : in_u 64 w → in_u 64 (Z.land w m) ∧
  (Z.land w m = 0%Z → ∀ k, k < 64 → testbit m k = true → testbit w k = false).
Proof.
  intros Hw. split.
  - apply in_u64_bits; [apply Z.land_nonneg; left; apply Hw|].
    intros k Hk. by rewrite testbit_land, testbit_high.
  - intros Hz k Hk Hm. apply not_true_iff_false. intros Hb.
    assert (testbit (Z.land w m) k = true) by (by rewrite testbit_land, Hb, Hm).
    rewrite Hz in *. unfold testbit in *. by rewrite Z.testbit_0_l in *.
Qed.

Lemma low_bit_of w m :
  in_u 64 w → Z.land w m ≠ 0%Z →
  let t := trailing_zeros (Z.land w m) in
  t < 64 ∧ testbit w t = true ∧ testbit m t = true ∧
  ∀ k, k < t → testbit m k = true → testbit w k = false.
Proof.
  intros Hw Hne t. destruct (land_ne0_bits w m Hw) as [Hin _].
  destruct (trailing_zeros_spec _ Hin Hne) as (Ht & Hb & Hmin). fold t in Ht, Hb, Hmin.
  rewrite testbit_land in Hb. apply andb_true_iff in Hb as [Hb1 Hb2]. split_and!; [done..|].
  intros k Hk Hm. specialize (Hmin k Hk). rewrite testbit_land, Hm in Hmin.
  by rewrite andb_true_r in Hmin.
Qed.

Lemma high_bit_of w m :
  in_u 64 w → Z.land w m ≠ 0%Z →
  let t := 63 - leading_zeros (Z.land w m) in
  t < 64 ∧ testbit w t = true ∧ testbit m t = true ∧
  ∀ k, t < k → testbit m k = true → testbit w k = false.
Proof.
  intros Hw Hne t. destruct (land_ne0_bits w m Hw) as [Hin _].
  destruct (leading_zeros_spec _ Hin Hne) as (Ht & Hb & Hmin). fold t in Hb, Hmin.
  rewrite testbit_land in Hb. apply andb_true_iff in Hb as [Hb1 Hb2]. split_and!; [lia|done..|].
  intros k Hk Hm. specialize (Hmin k Hk). rewrite testbit_land, Hm in Hmin.
  by rewrite andb_true_r in Hmin.
Qed.

(** The lowest and highest set bits of a non-zero word. *)
Lemma word_scan o q w :
  occ_ok o → words o !! q = Some w → w ≠ 0%Z →
  (bit o (q * 64 + trailing_zeros w) = true ∧
   ∀ i, q * 64 ≤ i < q * 64 + trailing_zeros w → bit o i = false) ∧
  (bit o (q * 64 + (63 - leading_zeros w)) = true ∧
   ∀ i, q * 64 + (63 - leading_zeros w) < i < (q + 1) * 64 → bit o i = false).
Proof.
  intros Hok Hw Hne. pose proof (occ_words _ Hok _ _ Hw) as Hwr.
  destruct (trailing_zeros_spec _ Hwr Hne) as (Ht & Hb & Hmin).
  destruct (leading_zeros_spec _ Hwr Hne) as (Hl & Hb' & Hmax).
  split; (split; [rewrite bit_split by lia; by rewrite Hw|]); intros i Hi.
  - replace i with (q * 64 + (i - q * 64)) by lia. rewrite bit_split, Hw by lia. apply Hmin. lia.
  - replace i with (q * 64 + (i - q * 64)) by lia. rewrite bit_split, Hw by lia. apply Hmax. lia.
Qed.

Lemma occ_beyond o i : length (words o) ≤ i / 64 → bit o i = false.
Proof. intros. unfold bit. by rewrite lookup_ge_None_2. Qed.

Lemma scan_end o sw mask :
  occ_ok o → length (summary o) ≤ sw → next_spec o ((sw * 64 + mask) * 64) None.
Proof.
  intros Hok Hsw i Hi. apply occ_beyond. rewrite (occ_len _ Hok) in Hsw. unfold div_ceil_64 in Hsw.
  pose proof (div64_split (length (words o) + 63)). pose proof (div64_split i). lia.
Qed.

Lemma scan_gap o sw mask v :
  occ_ok o → summary o !! sw = Some v → masked_summary v mask = 0%Z →
  ∀ k, (sw * 64 + mask) * 64 ≤ k → k < (sw + 1) * 64 * 64 → bit o k = false.
Proof.
  intros Hok Hv Hz k Hk1 Hk2. destruct (occ_summary _ Hok _ _ Hv) as [Hvr _].
  destruct (div64_split k) as [Hks Hkr].
  apply (summary_bit o sw v (k / 64 - sw * 64) Hok Hv); [lia| |lia].
  unfold masked_summary in Hz. case_decide; [lia|].
  apply (proj2 (land_ne0_bits v (u64_shl u64_max mask) Hvr) Hz); [lia|].
  rewrite testbit_shl_ones. apply bool_decide_eq_true. lia.
Qed.

Lemma scan_hit o sw mask v :
  occ_ok o → summary o !! sw = Some v → masked_summary v mask ≠ 0%Z →
  let word := sw * 64 + trailing_zeros (masked_summary v mask) in
  ∃ w, words o !! word = Some w ∧
    next_spec o ((sw * 64 + mask) * 64) (Some (word * 64 + trailing_zeros w)).
Proof.
  intros Hok Hv Hne word. destruct (occ_summary _ Hok _ _ Hv) as [Hvr Hvb].
  unfold masked_summary in *. case_decide as Hm; [done|].
  destruct (low_bit_of v (u64_shl u64_max mask) Hvr Hne) as (Ht & Hb & Hmt & Hmin).
  set (t := trailing_zeros (Z.land v (u64_shl u64_max mask))) in *. clearbody t.
  rewrite testbit_shl_ones in Hmt. apply bool_decide_eq_true in Hmt.
  apply Hvb in Hb as (w & Hw & Hwne); [|done]. exists w. split; [done|].
  destruct (word_scan o _ _ Hok Hw Hwne) as [[Hb1 Hlow] _]. split_and!; [lia|done|].
  intros k Hk. destruct (decide (k < word * 64)); [|apply Hlow; lia].
  destruct (div64_split k) as [Hks Hkr].
  apply (summary_bit o sw v (k / 64 - sw * 64) Hok Hv); [lia| |lia].
  apply Hmin; [lia|]. rewrite testbit_shl_ones. apply bool_decide_eq_true. lia.
Qed.

(** Moving the start of the search over a gap. *)
Lemma next_spec_gap o i i' r :
  i ≤ i' → (∀ k, i ≤ k → k < i' → bit o k = false) → next_spec o i' r → next_spec o i r.
Proof.
  intros Hle Hgap. destruct r as [j|]; simpl.
  - intros (Hj & Hb & Hlow). split_and!; [lia|done|]. intros k Hk.
    destruct (decide (k < i')); [apply Hgap; lia|apply Hlow; lia].
  - intros Hnone k Hk. destruct (decide (k < i')); [by apply Hgap|apply Hnone; lia].
Qed.

(** From word [sw * 64 + mask] on. *)
Lemma scan_up_spec fuel o sw mask :
  occ_ok o → mask ≤ 64 → length (summary o) ≤ sw + fuel →
  ∃ r, scan_up fuel o sw mask = Ret r ∧ next_spec o ((sw * 64 + mask) * 64) r.
Proof.
  intros Hok. revert sw mask. induction fuel as [|fuel IH]; intros sw mask Hmask Hfuel.
  { simpl. rewrite lookup_ge_None_2 by lia. exists None. split; [done|]. apply scan_end; [done|lia]. }
  simpl. destruct (summary o !! sw) as [v|] eqn:Hv; cycle 1.
  { exists None. split; [done|]. apply scan_end; [done|by apply lookup_ge_None]. }
  fold (masked_summary v mask). destruct (decide (masked_summary v mask ≠ 0%Z)) as [Hne|Hz].
  - destruct (scan_hit o sw mask v Hok Hv Hne) as (w & Hw & Hspec).
    pose proof (lookup_lt_Some _ _ _ Hw). rewrite decide_False by lia.
    run (vec_get_Ret _ _ _ Hw). by eexists.
  - apply dec_stable in Hz. destruct (IH (S sw) 0 ltac:(lia) ltac:(lia)) as (r & -> & Hspec).
    exists r. split; [done|]. eapply next_spec_gap; [|apply (scan_gap o sw mask v Hok Hv Hz)|].
    + lia.
    + by replace ((sw + 1) * 64 * 64) with ((S sw * 64 + 0) * 64) by lia.
Qed.

Theorem next_set_from_spec o i :
  occ_ok o → ∃ r, next_set_from o i = Ret r ∧ next_spec o i r.
Proof.
  intros Hok. unfold next_set_from. destruct (div64_split i) as [Hsplit Hr].
  destruct (words o !! (i / 64)) as [w|] eqn:Hw; cycle 1.
  { exists None. split; [done|]. intros k Hk. apply occ_beyond.
    apply lookup_ge_None in Hw. pose proof (Nat.Div0.div_le_mono i k 64 Hk). lia. }
  pose proof (occ_words _ Hok _ _ Hw) as Hwr.
  destruct (decide (_ ≠ 0%Z)) as [Hne|Hz].
  - destruct (low_bit_of w _ Hwr Hne) as (Ht & Hb & Hm & Hmin).
    set (t := trailing_zeros _) in *. clearbody t.
    rewrite testbit_shl_ones in Hm. apply bool_decide_eq_true in Hm.
    eexists. split; [done|]. split_and!; [lia|rewrite bit_split by done; by rewrite Hw|].
    intros k Hk. replace k with (i / 64 * 64 + (k - i / 64 * 64)) by lia.
    rewrite bit_split, Hw by lia. apply Hmin; [lia|].
    rewrite testbit_shl_ones. apply bool_decide_eq_true. lia.
  - apply dec_stable in Hz. destruct (div64_split (i / 64)) as [Hs2 Hr2].
    destruct (scan_up_spec (length (summary o)) o (i / 64 / 64) (i / 64 mod 64 + 1) Hok) as (r & -> & Hspec);
      [lia..|].
    exists r. split; [done|]. revert Hspec. apply next_spec_gap; [lia|].
    intros k Hk1 Hk2. replace k with (i / 64 * 64 + (k - i / 64 * 64)) by lia.
    rewrite bit_split, Hw by lia.
    apply (proj2 (land_ne0_bits w _ Hwr) Hz); [lia|].
    rewrite testbit_shl_ones. apply bool_decide_eq_true. lia.
Qed.

(** ** Downwards *)

Lemma prev_spec_gap o i i' r :
  i' ≤ i → (∀ k, i' < k → k ≤ i → bit o k = false) → prev_spec o i' r → prev_spec o i r.
Proof.
  intros Hle Hgap. destruct r as [j|]; simpl.
  - intros (Hj & Hb & Hlow). split_and!; [lia|done|]. intros k Hk.
    destruct (decide (k ≤ i')); [apply Hlow; lia|apply Hgap; lia].
  - intros Hnone k Hk. destruct (decide (k ≤ i')); [by apply Hnone|apply Hgap; lia].
Qed.

Lemma scan_down_gap o sw v :
  occ_ok o → summary o !! (sw / 64) = Some v →
  Z.land v (u64_shr u64_max (63 - sw mod 64)) = 0%Z →
  ∀ k, sw / 64 * 64 * 64 ≤ k → k < (sw + 1) * 64 → bit o k = false.
Proof.
  intros Hok Hv Hz k Hk1 Hk2. destruct (occ_summary _ Hok _ _ Hv) as [Hvr _].
  destruct (div64_split k) as [Hks Hkr]. destruct (div64_split sw) as [Hss Hsr].
  apply (summary_bit o (sw / 64) v (k / 64 - sw / 64 * 64) Hok Hv); [lia| |lia].
  apply (proj2 (land_ne0_bits v _ Hvr) Hz); [lia|].
  rewrite testbit_shr_ones. apply bool_decide_eq_true. lia.
Qed.

Lemma scan_down_hit o sw v :
  occ_ok o → summary o !! (sw / 64) = Some v →
  let eff := Z.land v (u64_shr u64_max (63 - sw mod 64)) in
  eff ≠ 0%Z →
  let word := sw / 64 * 64 + (63 - leading_zeros eff) in
  ∃ w, words o !! word = Some w ∧
    prev_spec o ((sw + 1) * 64 - 1) (Some (word * 64 + (63 - leading_zeros w))).
Proof.
  intros Hok Hv eff Hne word. destruct (occ_summary _ Hok _ _ Hv) as [Hvr Hvb].
  destruct (high_bit_of v _ Hvr Hne) as (Ht & Hb & Hmt & Hmax). fold eff in Ht, Hb, Hmt, Hmax.
  set (t := 63 - leading_zeros eff) in *. clearbody t eff.
  destruct (div64_split sw) as [Hss Hsr].
  rewrite testbit_shr_ones in Hmt. apply bool_decide_eq_true in Hmt.
  apply Hvb in Hb as (w & Hw & Hwne); [|done]. exists w. split; [done|].
  destruct (word_scan o _ _ Hok Hw Hwne) as [_ [Hb1 Hhigh]].
  pose proof (leading_zeros_spec w (occ_words _ Hok _ _ Hw) Hwne) as (Hl & _).
  split_and!; [lia|done|].
  intros k Hk. destruct (decide (k < (word + 1) * 64)); [apply Hhigh; lia|].
  destruct (div64_split k) as [Hks Hkr].
  apply (summary_bit o (sw / 64) v (k / 64 - sw / 64 * 64) Hok Hv); [lia| |lia].
  apply Hmax; [lia|]. rewrite testbit_shr_ones. apply bool_decide_eq_true. lia.
Qed.

Lemma scan_down_spec fuel o sw :
  occ_ok o → sw < length (words o) → sw / 64 ≤ fuel →
  ∃ r, scan_down fuel o sw = Ret r ∧ prev_spec o ((sw + 1) * 64 - 1) r.
Proof.
  intros Hok. revert sw. induction fuel as [|fuel IH]; intros sw Hsw Hfuel; simpl.
  all: assert (Hs : sw / 64 < length (summary o))
    by (rewrite (occ_len _ Hok); by apply (div_ceil_64_lt (length (words o)))).
  all: destruct (lookup_lt_is_Some_2 _ _ Hs) as [v Hv]; run (vec_get_Ret _ _ _ Hv).
  all: destruct (decide (_ ≠ 0%Z)) as [Hne|Hz];
    [destruct (scan_down_hit o sw v Hok Hv Hne) as (w & Hw & Hspec);
     run (vec_get_Ret _ _ _ Hw); by eexists|apply dec_stable in Hz].
  all: pose proof (scan_down_gap o sw v Hok Hv Hz) as Hgap.
  all: case_decide as H0; [exists None; split; [done|]; intros k Hk; apply Hgap; lia|].
  { lia. }
  destruct (div64_split sw) as [Hss Hsr].
  assert (E : (sw / 64 * 64 - 1) / 64 = sw / 64 - 1).
  { replace (sw / 64 * 64 - 1) with ((sw / 64 - 1) * 64 + 63) by lia. apply div64_unique. lia. }
  destruct (IH (sw / 64 * 64 - 1)) as (r & -> & Hspec); [lia..|].
  exists r. split; [done|]. revert Hspec. apply prev_spec_gap; [lia|].
  intros k Hk1 Hk2. apply Hgap; lia.
Qed.

Lemma prev_set_within_spec o i :
  occ_ok o → i / 64 < length (words o) →
  ∃ r, prev_set_within o i = Ret r ∧ prev_spec o i r.
Proof.
  intros Hok Hi. unfold prev_set_within. destruct (div64_split i) as [Hsplit Hr].
  destruct (lookup_lt_is_Some_2 _ _ Hi) as [w Hw]. run (vec_get_Ret _ _ _ Hw).
  pose proof (occ_words _ Hok _ _ Hw) as Hwr.
  destruct (decide (_ ≠ 0%Z)) as [Hne|Hz].
  - destruct (high_bit_of w _ Hwr Hne) as (Ht & Hb & Hm & Hmax).
    set (t := 63 - leading_zeros _) in *. clearbody t.
    rewrite testbit_shr_ones in Hm. apply bool_decide_eq_true in Hm.
    eexists. split; [done|]. split_and!; [lia|rewrite bit_split by done; by rewrite Hw|].
    intros k Hk. replace k with (i / 64 * 64 + (k - i / 64 * 64)) by lia.
    rewrite bit_split, Hw by lia. apply Hmax; [lia|].
    rewrite testbit_shr_ones. apply bool_decide_eq_true. lia.
  - apply dec_stable in Hz.
    assert (Hgap : ∀ k, i / 64 * 64 ≤ k → k ≤ i → bit o k = false).
    { intros k Hk1 Hk2. replace k with (i / 64 * 64 + (k - i / 64 * 64)) by lia.
      rewrite bit_split, Hw by lia. apply (proj2 (land_ne0_bits w _ Hwr) Hz); [lia|].
      rewrite testbit_shr_ones. apply bool_decide_eq_true. lia. }
    case_decide as H0; [exists None; split; [done|]; intros k Hk; apply Hgap; lia|].
    destruct (scan_down_spec (length (summary o)) o (i / 64 - 1) Hok) as (r & -> & Hspec); [lia| |].
    { rewrite (occ_len _ Hok). pose proof (div_ceil_64_lt (length (words o)) (i / 64 - 1)). lia. }
    exists r. split; [done|]. revert Hspec. apply prev_spec_gap; [lia|].
    intros k Hk1 Hk2. apply Hgap; lia.
Qed.

Theorem prev_set_from_spec o i :
  occ_ok o → ∃ r, prev_set_from o i = Ret r ∧ prev_spec o i r.
Proof.
  intros Hok. unfold prev_set_from. case_decide as Hnil.
  { exists None. split; [done|]. intros k _. unfold bit. by rewrite Hnil. }
  assert (length (words o) ≠ 0) by (by destruct (words o)).
  case_decide as Hi; [|apply prev_set_within_spec; [done|lia]].
  assert (E : (length (words o) * 64 - 1) / 64 = length (words o) - 1).
  { replace (length (words o) * 64 - 1) with ((length (words o) - 1) * 64 + 63) by lia.
    apply div64_unique. lia. }
  destruct (prev_set_within_spec o (length (words o) * 64 - 1) Hok) as (r & -> & Hspec); [lia|].
  exists r. split; [done|]. destruct (div64_split i). revert Hspec. apply prev_spec_gap; [lia|].
  intros k Hk1 Hk2. apply occ_beyond. destruct (div64_split k). lia.
Qed.
