(* ===== verification/Book.v ===== *)
(** * The matcher's order book: data and operations ([cerdic-tee-matcher/src/book.rs])

    Price levels in a dense tick-indexed array per side ([Ladder]), each level an intrusive
    doubly-linked FIFO over a slab arena of order nodes, a free stack of slots, cached best ticks,
    and the occupancy bitmap of [Occupancy].  Every operation is written as the code performs it,
    pointer by pointer; an index out of range, a dead arena slot or a failed [expect] is [Panic].
    The theorems are in [BookWf], [BookOps] and [BookProps]. *)
From S2P Require Import Prelude Ints Types Occupancy.
Open Scope Z_scope.

(** ** Data *)

(** [OrderId] is a [u32] arena slot; [Tick], [Qty], [OwnerId] and [Timestamp] are [u64]. *)
Abbreviation OrderId := Z (only parsing).
Abbreviation Tick := Z (only parsing).
Abbreviation Qty := Z (only parsing).
Abbreviation OwnerId := Z (only parsing).
Abbreviation Timestamp := Z (only parsing).

Definition NIL : Z := 2 ^ 32 - 1.

Definition opposite_side (s : Side) : Side :=
  match s with Long => Short | Short => Long end.

Inductive TimeInForce :=
| GoodTilCancel
| GoodTilTime (t : Timestamp)
| ImmediateOrCancel
| FillOrKill.

Record NewOrder := {
  no_side : Side;
  no_tick : Tick;
  no_qty : Qty;
  no_owner : OwnerId;
  no_tif : TimeInForce;
  post_only : bool;
}.

Record OrderNode := {
  n_tick : Tick;
  n_qty : Qty;
  n_side : Side;
  n_owner : OwnerId;
  n_expiry : option Timestamp;
  n_prev : Z;
  n_next : Z;
}.

Record Level := { head : Z; tail : Z; lv_qty : Qty }.

Definition EMPTY : Level := {| head := NIL; tail := NIL; lv_qty := 0 |}.
Definition level_is_empty (l : Level) : bool := bool_decide (head l = NIL).

Record Ladder := { base_tick : Tick; levels : list Level; occupancy : Occupancy }.

Record PriceLevel := { pl_tick : Tick; pl_qty : Qty; cumulative : Qty }.

Record Fill := {
  maker_id : OrderId;
  maker_owner : OwnerId;
  f_tick : Tick;
  f_qty : Qty;
  maker_filled : bool;
  maker_size_before : Qty;
  taker_size_before : Qty;
}.

Record SubmitResult := {
  fills : list Fill;
  resting_id : option OrderId;
  resting_qty : Qty;
  expired : list OrderId;
  self_trade_cancelled : list OrderId;
  post_only_rejected : bool;
  fill_or_kill_failed : bool;
}.

(** [free] is the [Vec<u32>] used as a stack, its top first. *)
Record OrderBook := {
  bids : Ladder;
  asks : Ladder;
  arena : list (option OrderNode);
  free : list Z;
  best_bid : option Tick;
  best_ask : option Tick;
}.

Record BookSnapshot := {
  snap_best_bid : option Tick;
  snap_best_ask : option Tick;
  snap_bids : list PriceLevel;
  snap_asks : list PriceLevel;
}.

#[export] Instance TimeInForce_eq_dec : EqDecision TimeInForce.
Proof. solve_decision. Defined.
#[export] Instance Fill_eq_dec : EqDecision Fill.
Proof. solve_decision. Defined.

(** ** [impl Ladder] *)

Definition ladder_new : Ladder := {| base_tick := 0; levels := []; occupancy := occ_default |}.

(** The count [idx + 1] passed to [resize] wraps at [usize]'s width. *)
Definition ensure (l : Ladder) (tick : Tick) : exec (Ladder * nat) :=
  if decide (levels l = []) then
    Ret ({| base_tick := tick; levels := [EMPTY]; occupancy := ensure_len (occupancy l) 1 |}, 0%nat)
  else if decide (tick < base_tick l) then
    let shift := Z.to_nat (base_tick l - tick) in
    let grown := replicate shift EMPTY ++ levels l in
    occ ← shift_up (occupancy l) shift (length grown);
    Ret ({| base_tick := tick; levels := grown; occupancy := occ |}, 0%nat)
  else
    let idx := Z.to_nat (tick - base_tick l) in
    if decide (length (levels l) ≤ idx)%nat then
      let count := Z.to_nat (u64_add (Z.of_nat idx) 1) in
      Ret ({| base_tick := base_tick l; levels := resize count EMPTY (levels l);
              occupancy := ensure_len (occupancy l) count |}, idx)
    else Ret (l, idx).

Definition mark_occupied (l : Ladder) (idx : nat) : exec Ladder :=
  occ ← set (occupancy l) idx;
  Ret {| base_tick := base_tick l; levels := levels l; occupancy := occ |}.

Definition mark_empty (l : Ladder) (idx : nat) : exec Ladder :=
  occ ← clear (occupancy l) idx;
  Ret {| base_tick := base_tick l; levels := levels l; occupancy := occ |}.

Definition next_worse_level (l : Ladder) (s : Side) (from_idx : nat) : exec (option nat) :=
  match s with
  | Long => match from_idx with O => Ret None | S i => prev_set_from (occupancy l) i end
  | Short => next_set_from (occupancy l) (from_idx + 1)
  end.

Definition index_of (l : Ladder) (tick : Tick) : option nat :=
  if decide (levels l = [] ∨ tick < base_tick l) then None
  else
    let idx := Z.to_nat (tick - base_tick l) in
    if decide (idx < length (levels l))%nat then Some idx else None.

Definition level (l : Ladder) (idx : nat) : exec Level := vec_get (levels l) idx.

Definition tick_at (l : Ladder) (idx : nat) : Tick := u64_add (base_tick l) (Z.of_nat idx).

(** ** Field access by side *)

Definition ladder (b : OrderBook) (s : Side) : Ladder :=
  match s with Long => bids b | Short => asks b end.

Definition best (b : OrderBook) (s : Side) : option Tick :=
  match s with Long => best_bid b | Short => best_ask b end.

Definition set_ladder (b : OrderBook) (s : Side) (l : Ladder) : OrderBook :=
  match s with
  | Long => {| bids := l; asks := asks b; arena := arena b; free := free b;
               best_bid := best_bid b; best_ask := best_ask b |}
  | Short => {| bids := bids b; asks := l; arena := arena b; free := free b;
                best_bid := best_bid b; best_ask := best_ask b |}
  end.

Definition set_best (b : OrderBook) (s : Side) (t : option Tick) : OrderBook :=
  match s with
  | Long => {| bids := bids b; asks := asks b; arena := arena b; free := free b;
               best_bid := t; best_ask := best_ask b |}
  | Short => {| bids := bids b; asks := asks b; arena := arena b; free := free b;
                best_bid := best_bid b; best_ask := t |}
  end.

Definition set_arena (b : OrderBook) (a : list (option OrderNode)) (f : list Z) : OrderBook :=
  {| bids := bids b; asks := asks b; arena := a; free := f;
     best_bid := best_bid b; best_ask := best_ask b |}.

(** A write through [level_mut]. *)
Definition upd_level (b : OrderBook) (s : Side) (idx : nat) (f : Level → Level) : exec OrderBook :=
  let l := ladder b s in
  lv ← vec_get (levels l) idx;
  Ret (set_ladder b s {| base_tick := base_tick l; levels := <[idx := f lv]> (levels l);
                         occupancy := occupancy l |}).

Definition set_head (x : Z) (l : Level) : Level :=
  {| head := x; tail := tail l; lv_qty := lv_qty l |}.
Definition set_tail (x : Z) (l : Level) : Level :=
  {| head := head l; tail := x; lv_qty := lv_qty l |}.
Definition add_qty (q : Qty) (l : Level) : Level :=
  {| head := head l; tail := tail l; lv_qty := u64_add (lv_qty l) q |}.
Definition sub_qty (q : Qty) (l : Level) : Level :=
  {| head := head l; tail := tail l; lv_qty := u64_sub (lv_qty l) q |}.

Definition set_prev (x : Z) (n : OrderNode) : OrderNode :=
  {| n_tick := n_tick n; n_qty := n_qty n; n_side := n_side n; n_owner := n_owner n;
     n_expiry := n_expiry n; n_prev := x; n_next := n_next n |}.
Definition set_next (x : Z) (n : OrderNode) : OrderNode :=
  {| n_tick := n_tick n; n_qty := n_qty n; n_side := n_side n; n_owner := n_owner n;
     n_expiry := n_expiry n; n_prev := n_prev n; n_next := x |}.
Definition sub_node_qty (q : Qty) (n : OrderNode) : OrderNode :=
  {| n_tick := n_tick n; n_qty := u64_sub (n_qty n) q; n_side := n_side n; n_owner := n_owner n;
     n_expiry := n_expiry n; n_prev := n_prev n; n_next := n_next n |}.

(** ** The arena *)

Definition new : OrderBook :=
  {| bids := ladder_new; asks := ladder_new; arena := []; free := [];
     best_bid := None; best_ask := None |}.

Definition alloc (b : OrderBook) (node : OrderNode) : exec (OrderBook * Z) :=
  match free b with
  | idx :: free' =>
      a ← vec_set (arena b) (Z.to_nat idx) (Some node);
      Ret (set_arena b a free', idx)
  | [] => Ret (set_arena b (arena b ++ [Some node]) [],
               as_u32 (Z.of_nat (length (arena b ++ [Some node])) - 1))
  end.

Definition slot (b : OrderBook) (idx : Z) : exec OrderNode :=
  o ← vec_get (arena b) (Z.to_nat idx); expect o.

(** A write through [slot_mut]. *)
Definition upd_slot (b : OrderBook) (idx : Z) (f : OrderNode → OrderNode) : exec OrderBook :=
  n ← slot b idx;
  a ← vec_set (arena b) (Z.to_nat idx) (Some (f n));
  Ret (set_arena b a (free b)).

Definition take_slot (b : OrderBook) (idx : Z) : exec (OrderBook * OrderNode) :=
  n ← slot b idx;
  a ← vec_set (arena b) (Z.to_nat idx) None;
  Ret (set_arena b a (free b), n).

(** ** Resting and removing orders *)

Definition raise_best (b : OrderBook) (s : Side) (tick : Tick) : OrderBook :=
  let raises := match s, best b s with
                | _, None => true
                | Long, Some x => bool_decide (x < tick)
                | Short, Some x => bool_decide (tick < x)
                end in
  if raises then set_best b s (Some tick) else b.

Definition push_back (b : OrderBook) (s : Side) (tick : Tick) (idx : Z) : exec OrderBook :=
  '(l, level_idx) ← ensure (ladder b s) tick;
  let b := set_ladder b s l in
  lv ← level l level_idx;
  b ← (if decide (tail lv = NIL) then
         b ← upd_level b s level_idx (λ v, set_tail idx (set_head idx v));
         l ← mark_occupied (ladder b s) level_idx;
         Ret (set_ladder b s l)
       else
         b ← upd_slot b (tail lv) (set_next idx);
         b ← upd_slot b idx (set_prev (tail lv));
         upd_level b s level_idx (set_tail idx));
  n ← slot b idx;
  b ← upd_level b s level_idx (add_qty (n_qty n));
  Ret (raise_best b s tick).

Definition advance_best_from (b : OrderBook) (s : Side) (emptied_tick : Tick) : exec OrderBook :=
  let l := ladder b s in
  match index_of l emptied_tick with
  | None => Ret b
  | Some start =>
      next ← next_worse_level l s start;
      Ret (set_best b s (tick_at l <$> next))
  end.

Definition unlink (b : OrderBook) (idx : Z) : exec (OrderBook * OrderNode) :=
  '(b, node) ← take_slot b idx;
  let b := set_arena b (arena b) (idx :: free b) in
  let s := n_side node in
  match index_of (ladder b s) (n_tick node) with
  | None => Ret (b, node)
  | Some level_idx =>
      b ← (if decide (n_prev node ≠ NIL) then upd_slot b (n_prev node) (set_next (n_next node))
           else upd_level b s level_idx (set_head (n_next node)));
      b ← (if decide (n_next node ≠ NIL) then upd_slot b (n_next node) (set_prev (n_prev node))
           else upd_level b s level_idx (set_tail (n_prev node)));
      b ← upd_level b s level_idx (sub_qty (n_qty node));
      lv ← level (ladder b s) level_idx;
      if level_is_empty lv then
        l ← mark_empty (ladder b s) level_idx;
        Ret (set_ladder b s l, node)
      else Ret (b, node)
  end.

Definition is_expired (now : Timestamp) (expiry : option Timestamp) : bool :=
  match expiry with Some e => bool_decide (e ≤ now) | None => false end.

(** The tail of the loops that drop the head of the best level. *)
Definition advance_if_empty (b : OrderBook) (s : Side) (level_tick : Tick) (level_idx : nat) :
    exec OrderBook :=
  lv ← level (ladder b s) level_idx;
  if level_is_empty lv then advance_best_from b s level_tick else Ret b.

(** The [loop] of [prune_expired_head]: every iteration but the last frees a slot, so the arena's
    length bounds them. *)
Fixpoint prune_loop (fuel : nat) (b : OrderBook) (s : Side) (now : Timestamp)
    (expired_out : list OrderId) : exec (OrderBook * list OrderId) :=
  match fuel with
  | O => Panic
  | S fuel' =>
      match best b s with
      | None => Ret (b, expired_out)
      | Some level_tick =>
          level_idx ← expect (index_of (ladder b s) level_tick);
          lv ← level (ladder b s) level_idx;
          n ← slot b (head lv);
          if is_expired now (n_expiry n) then
            '(b, _) ← unlink b (head lv);
            b ← advance_if_empty b s level_tick level_idx;
            prune_loop fuel' b s now (expired_out ++ [head lv])
          else Ret (b, expired_out)
      end
  end.

Definition prune_expired_head (b : OrderBook) (s : Side) (now : Timestamp)
    (expired_out : list OrderId) : exec (OrderBook * list OrderId) :=
  prune_loop (S (length (arena b))) b s now expired_out.

Definition owner_of (b : OrderBook) (id : OrderId) : option OwnerId :=
  match arena b !! Z.to_nat id with
  | Some (Some node) => Some (n_owner node)
  | _ => None
  end.

Definition cancel (b : OrderBook) (id : OrderId) : exec (option (Tick * Qty) * OrderBook) :=
  match arena b !! Z.to_nat id with
  | None | Some None => Ret (None, b)
  | Some (Some _) =>
      n ← slot b id;
      let s := n_side n in
      let tick := n_tick n in
      '(b, node) ← unlink b id;
      now_empty ← match index_of (ladder b s) tick with
                  | Some i => lv ← level (ladder b s) i; Ret (level_is_empty lv)
                  | None => Ret true
                  end;
      let was_best := bool_decide (best b s = Some tick) in
      b ← (if now_empty && was_best then advance_best_from b s tick else Ret b);
      Ret (Some (tick, n_qty node), b)
  end.

(** ** Matching *)

Definition crosses (s : Side) (tick level_tick : Tick) : bool :=
  match s with
  | Long => bool_decide (level_tick ≤ tick)
  | Short => bool_decide (tick ≤ level_tick)
  end.

(** The inner walk of [available_to_match]: [inl] is the early [return total]. *)
Fixpoint available_level (fuel : nat) (b : OrderBook) (owner : OwnerId) (now : Timestamp)
    (needed : Qty) (cur : Z) (total : Qty) : exec (Qty + Qty) :=
  match fuel with
  | O => Panic
  | S fuel' =>
      if decide (cur = NIL) then Ret (inr total)
      else
        n ← slot b cur;
        if negb (is_expired now (n_expiry n)) && bool_decide (n_owner n ≠ owner) then
          let total' := sat_u 64 (total + n_qty n) in
          if decide (needed ≤ total') then Ret (inl total')
          else available_level fuel' b owner now needed (n_next n) total'
        else available_level fuel' b owner now needed (n_next n) total
  end.

Fixpoint available_loop (fuel : nat) (b : OrderBook) (s : Side) (tick : Tick) (needed : Qty)
    (owner : OwnerId) (now : Timestamp) (level_tick : option Tick) (total : Qty) : exec Qty :=
  match fuel with
  | O => Panic
  | S fuel' =>
      match level_tick with
      | None => Ret total
      | Some lt =>
          if crosses s tick lt then
            let l := ladder b (opposite_side s) in
            match index_of l lt with
            | None => Ret total
            | Some level_idx =>
                lv ← level l level_idx;
                r ← available_level (S (length (arena b))) b owner now needed (head lv) total;
                match r with
                | inl total' => Ret total'
                | inr total' =>
                    next ← next_worse_level l (opposite_side s) level_idx;
                    available_loop fuel' b s tick needed owner now (tick_at l <$> next) total'
                end
            end
          else Ret total
      end
  end.

Definition available_to_match (b : OrderBook) (s : Side) (tick : Tick) (needed : Qty)
    (owner : OwnerId) (now : Timestamp) : exec Qty :=
  let opposite := opposite_side s in
  available_loop (S (length (levels (ladder b opposite)))) b s tick needed owner now
    (best b opposite) 0.

(** What the matching loop of [submit] accumulates in its [SubmitResult]. *)
Record MatchAcc := {
  acc_fills : list Fill;
  acc_expired : list OrderId;
  acc_self : list OrderId;
}.

Definition push_fill (f : Fill) (a : MatchAcc) : MatchAcc :=
  {| acc_fills := acc_fills a ++ [f]; acc_expired := acc_expired a; acc_self := acc_self a |}.
Definition push_expired (x : OrderId) (a : MatchAcc) : MatchAcc :=
  {| acc_fills := acc_fills a; acc_expired := acc_expired a ++ [x]; acc_self := acc_self a |}.
Definition push_self (x : OrderId) (a : MatchAcc) : MatchAcc :=
  {| acc_fills := acc_fills a; acc_expired := acc_expired a; acc_self := acc_self a ++ [x] |}.

(** The [while qty > 0] loop of [submit]. *)
Fixpoint match_loop (fuel : nat) (b : OrderBook) (s : Side) (tick : Tick) (owner : OwnerId)
    (now : Timestamp) (qty : Qty) (acc : MatchAcc) : exec (OrderBook * Qty * MatchAcc) :=
  match fuel with
  | O => Panic
  | S fuel' =>
      let opposite := opposite_side s in
      if decide (0 < qty) then
        match best b opposite with
        | None => Ret (b, qty, acc)
        | Some level_tick =>
            if crosses s tick level_tick then
              level_idx ← expect (index_of (ladder b opposite) level_tick);
              lv ← level (ladder b opposite) level_idx;
              let hd := head lv in
              head_node ← slot b hd;
              let is_exp := is_expired now (n_expiry head_node) in
              if is_exp || bool_decide (n_owner head_node = owner) then
                '(b, _) ← unlink b hd;
                let acc := if is_exp then push_expired hd acc else push_self hd acc in
                b ← advance_if_empty b opposite level_tick level_idx;
                match_loop fuel' b s tick owner now qty acc
              else
                let maker_qty := n_qty head_node in
                let traded := Z.min qty maker_qty in
                let filled := bool_decide (traded = maker_qty) in
                b ← (if filled then '(b, _) ← unlink b hd; Ret b
                     else
                       b ← upd_slot b hd (sub_node_qty traded);
                       upd_level b opposite level_idx (sub_qty traded));
                let f := {| maker_id := hd; maker_owner := n_owner head_node; f_tick := level_tick;
                            f_qty := traded; maker_filled := filled;
                            maker_size_before := maker_qty; taker_size_before := qty |} in
                b ← advance_if_empty b opposite level_tick level_idx;
                match_loop fuel' b s tick owner now (qty - traded) (push_fill f acc)
            else Ret (b, qty, acc)
        end
      else Ret (b, qty, acc)
  end.

Definition rests (tif : TimeInForce) : bool :=
  match tif with ImmediateOrCancel | FillOrKill => false | _ => true end.

Definition expiry_of (tif : TimeInForce) : option Timestamp :=
  match tif with GoodTilTime t => Some t | _ => None end.

Definition mk_result (acc : MatchAcc) (id : option OrderId) (qty : Qty) (rejected killed : bool) :
    SubmitResult :=
  {| fills := acc_fills acc; resting_id := id; resting_qty := qty; expired := acc_expired acc;
     self_trade_cancelled := acc_self acc; post_only_rejected := rejected;
     fill_or_kill_failed := killed |}.

Definition would_cross (b : OrderBook) (opposite : Side) (tick : Tick) : bool :=
  match opposite with
  | Long => match best_bid b with Some bid => bool_decide (tick ≤ bid) | None => false end
  | Short => match best_ask b with Some ask => bool_decide (ask ≤ tick) | None => false end
  end.

(** [submit] after its two guards: the matching loop, then the remainder comes to rest. *)
Definition match_and_rest (b : OrderBook) (o : NewOrder) (now : Timestamp)
    (expired0 : list OrderId) : exec (SubmitResult * OrderBook) :=
  let s := no_side o in
  '(b, qty, acc) ←
    match_loop (S (S (length (arena b)))) b s (no_tick o) (no_owner o) now (no_qty o)
      {| acc_fills := []; acc_expired := expired0; acc_self := [] |};
  if bool_decide (0 < qty) && rests (no_tif o) then
    '(b, idx) ← alloc b {| n_tick := no_tick o; n_qty := qty; n_side := s; n_owner := no_owner o;
                           n_expiry := expiry_of (no_tif o); n_prev := NIL; n_next := NIL |};
    b ← push_back b s (no_tick o) idx;
    Ret (mk_result acc (Some idx) qty false false, b)
  else Ret (mk_result acc None 0 false false, b).

Definition submit (b : OrderBook) (o : NewOrder) (now : Timestamp) :
    exec (SubmitResult * OrderBook) :=
  let s := no_side o in
  let opposite := opposite_side s in
  '(b, expired0) ← (if post_only o then prune_expired_head b opposite now [] else Ret (b, []));
  let acc0 := {| acc_fills := []; acc_expired := expired0; acc_self := [] |} in
  if post_only o && would_cross b opposite (no_tick o) then
    Ret (mk_result acc0 None 0 true false, b)
  else
    killed ← (if decide (no_tif o = FillOrKill) then
                available ← available_to_match b s (no_tick o) (no_qty o) (no_owner o) now;
                Ret (bool_decide (available < no_qty o))
              else Ret false);
    if (killed : bool) then Ret (mk_result acc0 None 0 false true, b)
    else match_and_rest b o now expired0.

(** ** Depth *)

Definition depth_at (b : OrderBook) (s : Side) (tick : Tick) : exec Qty :=
  match index_of (ladder b s) tick with
  | Some i => lv ← level (ladder b s) i; Ret (lv_qty lv)
  | None => Ret 0
  end.

(** The [while out.len() < max_levels] loop: each iteration pushes one level. *)
Fixpoint depth_loop (room : nat) (l : Ladder) (s : Side) (cursor : option Tick) (cum : Qty) :
    exec (list PriceLevel) :=
  match room with
  | O => Ret []
  | S room' =>
      match cursor with
      | None => Ret []
      | Some tick =>
          match index_of l tick with
          | None => Ret []
          | Some idx =>
              lv ← level l idx;
              let cum' := u64_add cum (lv_qty lv) in
              next ← next_worse_level l s idx;
              out ← depth_loop room' l s (tick_at l <$> next) cum';
              Ret ({| pl_tick := tick; pl_qty := lv_qty lv; cumulative := cum' |} :: out)
          end
      end
  end.

Definition depth (b : OrderBook) (s : Side) (max_levels : nat) : exec (list PriceLevel) :=
  depth_loop max_levels (ladder b s) s (best b s) 0.

Definition snapshot (b : OrderBook) (max_levels : nat) : exec BookSnapshot :=
  bids ← depth b Long max_levels;
  asks ← depth b Short max_levels;
  Ret {| snap_best_bid := best_bid b; snap_best_ask := best_ask b; snap_bids := bids;
         snap_asks := asks |}.

(** ** Traces *)

(** The calls a venue makes on a book; an order's tick leaves room for the ladder's length. *)
Inductive step : OrderBook → OrderBook → Prop :=
| step_submit b o now r b' :
    0 ≤ no_tick o < u64_max → 0 ≤ no_qty o ≤ u64_max → (Z.of_nat (length (arena b)) < NIL) →
    submit b o now = Ret (r, b') → step b b'
| step_cancel b id r b' : 0 ≤ id → cancel b id = Ret (r, b') → step b b'.

Definition reachable (b : OrderBook) : Prop := rtc step new b.
