(* ===== verification/BookWf.v ===== *)
(** * The matcher's order book: representation invariant and flat view

    A book state represents, for each side, an array of FIFO queues ([shape]): the levels' heads,
    tails and aggregate sizes are functions of the queues, the arena holds each queue as a
    doubly-linked segment ([dseg]), the bitmap marks the non-empty queues, the free stack holds the
    dead slots, and the cached best tick is that of the first entry of the side's priority-ordered
    list ([flat]).  The flat view is what the operations are specified on. *)
From S2P Require Import Prelude Ints Types Occupancy Book.
Open Scope Z_scope.

(** ** Definitions *)

Record Resting := { r_qty : Qty; r_owner : OwnerId; r_expiry : option Timestamp }.

(** A level's orders, front first, and an order with its tick. *)
Abbreviation Queue := (list (Z * Resting)) (only parsing).
Abbreviation Entry := (Z * (Z * Resting))%type (only parsing).

Definition mk_node (s : Side) (t : Tick) (d : Resting) (p n : Z) : OrderNode :=
  {| n_tick := t; n_qty := r_qty d; n_side := s; n_owner := r_owner d; n_expiry := r_expiry d;
     n_prev := p; n_next := n |}.

Definition hdid (n : Z) (q : Queue) : Z := match q with [] => n | (x, _) :: _ => x end.

Fixpoint lastid (p : Z) (q : Queue) : Z :=
  match q with [] => p | (x, _) :: q' => lastid x q' end.

(** The arena holds [q] as a doubly-linked segment between [p] and [n]. *)
Fixpoint dseg (a : list (option OrderNode)) (s : Side) (t : Tick) (p : Z) (q : Queue) (n : Z) : Prop :=
  match q with
  | [] => True
  | (x, d) :: q' =>
      0 ≤ x ∧ a !! Z.to_nat x = Some (Some (mk_node s t d p (hdid n q'))) ∧ dseg a s t x q' n
  end.

Definition level_of (q : Queue) : Level :=
  {| head := hdid NIL q; tail := lastid NIL q;
     lv_qty := wrapu 64 (sumZ ((λ e, r_qty e.2) <$> q)) |}.

Definition nonempty (o : option Queue) : bool :=
  match o with Some (_ :: _) => true | _ => false end.

Record shape := { sh_base : Side → Z; sh_qs : Side → list Queue }.

Definition upd_side {A} (f : Side → A) (s : Side) (v : A) : Side → A :=
  λ s', if decide (s' = s) then v else f s'.

Definition set_qs (A : shape) (s : Side) (base : Z) (qs : list Queue) : shape :=
  {| sh_base := upd_side (sh_base A) s base; sh_qs := upd_side (sh_qs A) s qs |}.

Definition set_q (A : shape) (s : Side) (i : nat) (q : Queue) : shape :=
  set_qs A s (sh_base A s) (<[i := q]> (sh_qs A s)).

Record ladder_rep (l : Ladder) (base : Z) (qs : list Queue) : Prop := {
  lr_base : qs ≠ [] → base_tick l = base;
  lr_levels : levels l = level_of <$> qs;
  lr_occ : occ_ok (occupancy l);
  lr_bits : ∀ i, bit (occupancy l) i = nonempty (qs !! i);
}.

Definition queue_ok (q : Queue) : Prop :=
  NoDup q.*1 ∧ Forall (λ e, 0 < r_qty e.2 ≤ u64_max) q.

(** The representation, except for the cached best ticks; [pend] is a slot that has been allocated
    and not linked yet. *)
Record core (b : OrderBook) (A : shape) (pend : option nat) : Prop := {
  ic_lad : ∀ s, ladder_rep (ladder b s) (sh_base A s) (sh_qs A s);
  ic_seg : ∀ s i q, sh_qs A s !! i = Some q →
    dseg (arena b) s (sh_base A s + Z.of_nat i) NIL q NIL ∧ queue_ok q;
  ic_live : ∀ x nd, arena b !! x = Some (Some nd) →
    pend = Some x ∨ ∃ i q d, sh_qs A (n_side nd) !! i = Some q ∧ (Z.of_nat x, d) ∈ q;
  ic_pend : ∀ x s i q, pend = Some x → sh_qs A s !! i = Some q → Z.of_nat x ∉ q.*1;
  ic_free : NoDup (free b) ∧ ∀ x, x ∈ free b ↔ 0 ≤ x ∧ arena b !! Z.to_nat x = Some None;
  ic_range : ∀ s, 0 ≤ sh_base A s ∧ sh_base A s + Z.of_nat (length (sh_qs A s)) ≤ u64_max;
  ic_arena : Z.of_nat (length (arena b)) ≤ NIL;
}.

Definition tag (t : Tick) (q : Queue) : list Entry := pair t <$> q.

Definition tagged (A : shape) (s : Side) : list (list Entry) :=
  imap (λ i q, tag (sh_base A s + Z.of_nat i) q) (sh_qs A s).

(** The resting orders of a side, best price first, arrival order within a price. *)
Definition flat (A : shape) (s : Side) : list Entry :=
  match s with
  | Short => mjoin (tagged A Short)
  | Long => mjoin (reverse (tagged A Long))
  end.

(** Tick [p] is strictly better than [q] on side [s]. *)
Definition better (s : Side) (p q : Tick) : Prop :=
  match s with Short => p < q | Long => q < p end.

#[export] Instance better_dec s p q : Decision (better s p q).
Proof. destruct s; simpl; apply _. Defined.

Definition first_tick (l : list Entry) : option Tick := fst <$> hd_error l.

Record inv (b : OrderBook) (A : shape) : Prop := {
  inv_core : core b A None;
  inv_best : ∀ s, best b s = first_tick (flat A s);
}.

(** The book represents the flat sides [F]. *)
Definition represents (b : OrderBook) (F : Side → list Entry) : Prop :=
  ∃ A, inv b A ∧ ∀ s, flat A s = F s.

(** ** Sides *)

Lemma upd_side_eq {A} (f : Side → A) s v : upd_side f s v s = v.
Proof. unfold upd_side. by rewrite decide_True. Qed.
Lemma upd_side_ne {A} (f : Side → A) s v s' : s' ≠ s → upd_side f s v s' = f s'.
Proof. unfold upd_side. intros. by rewrite decide_False. Qed.

Lemma opposite_ne s : opposite_side s ≠ s.
Proof. by destruct s. Qed.
Lemma opposite_opposite s : opposite_side (opposite_side s) = s.
Proof. by destruct s. Qed.
Lemma side_cases s s' : s' = s ∨ s' = opposite_side s.
Proof. destruct s, s'; auto. Qed.

Lemma ladder_set_ladder b s l s' :
  ladder (set_ladder b s l) s' = if decide (s' = s) then l else ladder b s'.
Proof. by destruct s, s'. Qed.
Lemma best_set_best b s t s' : best (set_best b s t) s' = if decide (s' = s) then t else best b s'.
Proof. by destruct s, s'. Qed.
Lemma ladder_set_best b s t s' : ladder (set_best b s t) s' = ladder b s'.
Proof. by destruct s, s'. Qed.
Lemma best_set_ladder b s l s' : best (set_ladder b s l) s' = best b s'.
Proof. by destruct s, s'. Qed.
Lemma arena_set_ladder b s l : arena (set_ladder b s l) = arena b ∧ free (set_ladder b s l) = free b.
Proof. by destruct s. Qed.
Lemma arena_set_best b s t : arena (set_best b s t) = arena b ∧ free (set_best b s t) = free b.
Proof. by destruct s. Qed.

(** [core] does not read the cached best ticks. *)
Lemma core_set_best b A pend s t : core b A pend → core (set_best b s t) A pend.
Proof.
  intros []. destruct (arena_set_best b s t) as [Ea Ef].
  split; rewrite ?Ea, ?Ef; try done. intros s'. by rewrite ladder_set_best.
Qed.

(** ** Doubly-linked segments *)

Section segments.
Context (s : Side) (t : Tick).
Implicit Types (a : list (option OrderNode)) (q : Queue).

Lemma dseg_app a p q1 q2 n :
  dseg a s t p (q1 ++ q2) n ↔ dseg a s t p q1 (hdid n q2) ∧ dseg a s t (lastid p q1) q2 n.
Proof.
  revert p. induction q1 as [|[x d] q1 IH]; intros p; simpl; [naive_solver|].
  rewrite IH. assert (hdid n (q1 ++ q2) = hdid (hdid n q2) q1) as -> by by destruct q1 as [|[]].
  naive_solver.
Qed.

Lemma lastid_app p q1 q2 : lastid p (q1 ++ q2) = lastid (lastid p q1) q2.
Proof. revert p. induction q1 as [|[x d] q1 IH]; intros p; simpl; [done|]. apply IH. Qed.

Lemma dseg_frame a a' p q n :
  (∀ x, x ∈ q.*1 → a' !! Z.to_nat x = a !! Z.to_nat x) → dseg a s t p q n → dseg a' s t p q n.
Proof.
  revert p. induction q as [|[x d] q IH]; intros p Hfr; simpl; [done|].
  intros (? & Hx & Hq). split_and!; [done| |].
  - rewrite Hfr; [done|]. by left.
  - apply IH; [|done]. intros y Hy. apply Hfr. by right.
Qed.

Lemma dseg_elem a p q n x d :
  dseg a s t p q n → (x, d) ∈ q →
  0 ≤ x ∧ ∃ p' n', a !! Z.to_nat x = Some (Some (mk_node s t d p' n')).
Proof.
  revert p. induction q as [|[y e] q IH]; intros p Hq Hin; [by apply elem_of_nil in Hin|].
  destruct Hq as (? & Hy & Hq). apply elem_of_cons in Hin as [[= -> ->]|Hin]; [eauto|by eapply IH].
Qed.

(** Redirecting the last node's [next], and the first node's [prev]. *)
Lemma dseg_set_next a p q y d n n' :
  NoDup (q ++ [(y, d)]).*1 → dseg a s t p (q ++ [(y, d)]) n →
  ∃ nd, a !! Z.to_nat y = Some (Some nd) ∧ n_next nd = n ∧
    dseg (<[Z.to_nat y := Some (set_next n' nd)]> a) s t p (q ++ [(y, d)]) n'.
Proof.
  intros Hnd [Hq (Hy0 & Hy & _)]%dseg_app. eexists. split; [done|]. split; [done|].
  apply dseg_app. rewrite fmap_app in Hnd. apply NoDup_app in Hnd as (_ & Hni & _).
  split; [|split_and!; [done| |done]].
  - eapply dseg_frame; [|exact Hq]. intros x Hx. rewrite list_lookup_insert_ne; [done|].
    intros E. apply list_elem_of_fmap in Hx as ([x' dx] & -> & Hx). simpl in *.
    destruct (dseg_elem _ _ _ _ _ _ Hq Hx) as [? _]. assert (x' = y) as -> by lia.
    apply (Hni y); [by apply (list_elem_of_fmap_2 fst _ (y, dx))|by left].
  - rewrite list_lookup_insert_eq; [done|]. by eapply lookup_lt_Some.
Qed.

Lemma dseg_set_prev a p p' q z d n :
  NoDup ((z, d) :: q).*1 → dseg a s t p ((z, d) :: q) n →
  ∃ nd, a !! Z.to_nat z = Some (Some nd) ∧ n_prev nd = p ∧
    dseg (<[Z.to_nat z := Some (set_prev p' nd)]> a) s t p' ((z, d) :: q) n.
Proof.
  intros [Hni _]%NoDup_cons (Hz0 & Hz & Hq). eexists. split; [done|]. split; [done|].
  split_and!; [done| |].
  - rewrite list_lookup_insert_eq; [done|]. by eapply lookup_lt_Some.
  - eapply dseg_frame; [|exact Hq]. intros x Hx. rewrite list_lookup_insert_ne; [done|].
    intros E. apply Hni. apply list_elem_of_fmap in Hx as ([x' dx] & -> & Hx). simpl in *.
    destruct (dseg_elem _ _ _ _ _ _ Hq Hx) as [? _].
    assert (z = x') as -> by lia. by apply (list_elem_of_fmap_2 fst _ (x', dx)).
Qed.
End segments.

(** ** The flat view *)

Lemma better_trans s p q r : better s p q → better s q r → better s p r.
Proof. destruct s; simpl; lia. Qed.
Lemma better_irrefl s p : ¬ better s p p.
Proof. destruct s; simpl; lia. Qed.
Lemma better_total s p q : p = q ∨ better s p q ∨ better s q p.
Proof. destruct s; simpl; lia. Qed.

Lemma tag_app t q1 q2 : tag t (q1 ++ q2) = tag t q1 ++ tag t q2.
Proof. apply fmap_app. Qed.

Lemma tagged_lookup A s i :
  tagged A s !! i = (tag (sh_base A s + Z.of_nat i)) <$> sh_qs A s !! i.
Proof. unfold tagged. by rewrite list_lookup_imap. Qed.

Lemma elem_of_flat A s e :
  e ∈ flat A s ↔ ∃ i q, sh_qs A s !! i = Some q ∧ e.1 = sh_base A s + Z.of_nat i ∧ e.2 ∈ q.
Proof.
  assert (e ∈ flat A s ↔ ∃ l, l ∈ tagged A s ∧ e ∈ l) as ->.
  { destruct s; simpl; rewrite list_elem_of_join; [setoid_rewrite elem_of_reverse|]; naive_solver. }
  setoid_rewrite list_elem_of_lookup at 1. setoid_rewrite tagged_lookup. split.
  - intros (l & [i Hi] & He). apply fmap_Some in Hi as (q & Hq & ->).
    apply list_elem_of_fmap in He as (xd & -> & Hxd). by exists i, q.
  - intros (i & q & Hq & He1 & He2). exists (tag (sh_base A s + Z.of_nat i) q). split.
    + exists i. by rewrite Hq.
    + apply list_elem_of_fmap. exists e.2. rewrite <- He1. by destruct e.
Qed.

(** Splitting the flat view at level [i]: what comes before is strictly better, what comes after
    strictly worse, and neither depends on the level's queue. *)
Lemma flat_split A s i q :
  sh_qs A s !! i = Some q →
  let t := sh_base A s + Z.of_nat i in
  ∃ f1 f2, flat A s = f1 ++ tag t q ++ f2 ∧
    (∀ q', flat (set_q A s i q') s = f1 ++ tag t q' ++ f2) ∧
    Forall (λ e, better s e.1 t) f1 ∧ Forall (λ e, better s t e.1) f2.
Proof.
  intros Hq t. pose proof (lookup_lt_Some _ _ _ Hq) as Hlt.
  assert (Ht : ∀ q', tagged (set_q A s i q') s =
                take i (tagged A s) ++ tag t q' :: drop (S i) (tagged A s)).
  { intros q'. assert (tagged (set_q A s i q') s = <[i := tag t q']> (tagged A s)) as ->.
    { unfold tagged, set_q, set_qs. simpl. rewrite !upd_side_eq.
      apply list_eq. intros j. rewrite list_lookup_imap.
      destruct (decide (j = i)) as [->|Hj].
      - rewrite !list_lookup_insert_eq; [done|by rewrite length_imap|done].
      - rewrite !list_lookup_insert_ne by done. by rewrite list_lookup_imap. }
    rewrite insert_take_drop; [done|]. unfold tagged. by rewrite length_imap. }
  assert (Ht0 : tagged A s = take i (tagged A s) ++ tag t q :: drop (S i) (tagged A s)).
  { symmetry. apply take_drop_middle. by rewrite tagged_lookup, Hq. }
  assert (Hlow : ∀ l e, l ∈ take i (tagged A s) → e ∈ l → e.1 < t).
  { intros l e [j Hj]%list_elem_of_lookup He.
    apply lookup_take_Some in Hj as [Hj ?]. rewrite tagged_lookup in Hj.
    apply fmap_Some in Hj as (q0 & _ & ->). apply list_elem_of_fmap in He as (? & -> & _).
    simpl. unfold t. lia. }
  assert (Hhigh : ∀ l e, l ∈ drop (S i) (tagged A s) → e ∈ l → t < e.1).
  { intros l e [j Hj]%list_elem_of_lookup He. rewrite lookup_drop, tagged_lookup in Hj.
    apply fmap_Some in Hj as (q0 & _ & ->). apply list_elem_of_fmap in He as (? & -> & _).
    simpl. unfold t. lia. }
  destruct s; simpl flat.
  - exists (mjoin (reverse (drop (S i) (tagged A Long)))), (mjoin (reverse (take i (tagged A Long)))).
    split_and!.
    + rewrite Ht0 at 1. rewrite reverse_app, reverse_cons, !join_app. simpl.
      by rewrite app_nil_r, <- app_assoc.
    + intros q'. rewrite Ht, reverse_app, reverse_cons, !join_app. simpl.
      by rewrite app_nil_r, <- app_assoc.
    + apply Forall_forall. intros e (l & ? & Hl)%list_elem_of_join. rewrite elem_of_reverse in Hl. by apply (Hhigh l e).
    + apply Forall_forall. intros e (l & ? & Hl)%list_elem_of_join. rewrite elem_of_reverse in Hl. by apply (Hlow l e).
  - exists (mjoin (take i (tagged A Short))), (mjoin (drop (S i) (tagged A Short))).
    split_and!.
    + rewrite Ht0 at 1. by rewrite join_app.
    + intros q'. by rewrite Ht, join_app.
    + apply Forall_forall. intros e (l & ? & ?)%list_elem_of_join. by apply (Hlow l e).
    + apply Forall_forall. intros e (l & ? & ?)%list_elem_of_join. by apply (Hhigh l e).
Qed.

Lemma flat_set_q_other A s i q s' : s' ≠ s → flat (set_q A s i q) s' = flat A s'.
Proof.
  intros Hs. unfold flat, tagged. unfold set_q, set_qs.
  destruct s'; simpl; by rewrite !upd_side_ne.
Qed.

(** The head of the flat view is the front of the best non-empty level. *)
Lemma flat_head A s t x d rest :
  flat A s = (t, (x, d)) :: rest →
  ∃ i q f2, sh_qs A s !! i = Some ((x, d) :: q) ∧ t = sh_base A s + Z.of_nat i ∧
    rest = tag t q ++ f2 ∧ Forall (λ e, better s t e.1) f2 ∧
    ∀ q', flat (set_q A s i q') s = tag t q' ++ f2.
Proof.
  intros Hf. assert (Hin : (t, (x, d)) ∈ flat A s) by (rewrite Hf; by left).
  apply elem_of_flat in Hin as (i & q & Hq & Ht & Hxd). simpl in Ht, Hxd.
  destruct (flat_split A s i q Hq) as (f1 & f2 & Hfl & Hset & Hf1 & Hf2). rewrite <- Ht in *.
  destruct f1 as [|e f1]; cycle 1.
  { rewrite Hf in Hfl. injection Hfl as <- _. apply Forall_cons in Hf1 as [Hb _].
    by apply better_irrefl in Hb. }
  destruct q as [|[x' d'] q]; [by apply elem_of_nil in Hxd|].
  rewrite Hf in Hfl. injection Hfl as <- <- ->.
  exists i, q, f2. done.
Qed.

(** Later entries never have a better tick. *)
Lemma flat_sorted A s i j e e' :
  flat A s !! i = Some e → flat A s !! j = Some e' → (i < j)%nat → ¬ better s e'.1 e.1.
Proof.
  intros Hi Hj Hlt Hb.
  assert (He : e ∈ flat A s) by by eapply list_elem_of_lookup_2.
  apply elem_of_flat in He as (k & q & Hq & Ht & _).
  destruct (flat_split A s k q Hq) as (f1 & f2 & Hf & _ & Hf1 & Hf2). rewrite <- Ht in *.
  rewrite Hf in Hi, Hj. rewrite Forall_forall in Hf1, Hf2.
  assert (Hj' : (j < length f1)%nat).
  { destruct (decide (j < length f1)%nat) as [|Hge]; [done|]. exfalso.
    rewrite lookup_app_r in Hj by lia. apply list_elem_of_lookup_2, elem_of_app in Hj as [Hj|Hj].
    - apply list_elem_of_fmap in Hj as (? & -> & _). by apply better_irrefl in Hb.
    - specialize (Hf2 _ Hj). apply (better_irrefl s e.1). by eapply better_trans. }
  rewrite lookup_app_l in Hi by lia. apply list_elem_of_lookup_2 in Hi.
  specialize (Hf1 _ Hi). by apply better_irrefl in Hf1.
Qed.

Lemma flat_sorted_app A s f1 e f2 e' :
  flat A s = f1 ++ e :: f2 → e' ∈ f2 → ¬ better s e'.1 e.1.
Proof.
  intros Hf [k Hk]%list_elem_of_lookup. apply (flat_sorted A s (length f1) (length f1 + S k)).
  - by rewrite Hf, lookup_app_r, Nat.sub_diag.
  - rewrite Hf, lookup_app_r by lia. by replace (length f1 + S k - length f1)%nat with (S k) by lia.
  - lia.
Qed.

Lemma elem_of_tag t q e : e ∈ tag t q ↔ e.1 = t ∧ e.2 ∈ q.
Proof.
  unfold tag. rewrite list_elem_of_fmap. split.
  - by intros (? & -> & ?).
  - intros [<- ?]. exists e.2. by destruct e.
Qed.

Lemma nonempty_true o : nonempty o = true ↔ ∃ e q, o = Some (e :: q).
Proof. destruct o as [[|e q]|]; simpl; naive_solver. Qed.
