(* ===== verification/BookOps.v ===== *)
(** * The matcher's order book: what the pointer operations do

    [unlink], the linking half of [push_back] and the partial fill of a maker each replace one
    queue of the represented shape ([core_set_q]); [ensure] extends the shape without changing the
    flat view; [advance_best_from] restores the cached best tick. *)
From S2P Require Import Prelude Ints Types Occupancy Book BookWf.
Open Scope Z_scope.

(** ** Definitions *)

(** A book with one ladder, the arena and the free stack replaced. *)
Definition mkb (b : OrderBook) (s : Side) (a : list (option OrderNode)) (fr : list Z) (l : Ladder) :
    OrderBook := set_ladder (set_arena b a fr) s l.

Definition put (l : Ladder) (i : nat) (lv : Level) : Ladder :=
  {| base_tick := base_tick l; levels := <[i := lv]> (levels l); occupancy := occupancy l |}.

(** The arena after rewriting links of the nodes of [q]. *)
Definition link_step (a a' : list (option OrderNode)) (q : list (Z * Resting)) : Prop :=
  length a' = length a ∧
  (∀ y, Z.of_nat y ∉ q.*1 → a' !! y = a !! y) ∧
  (∀ y, a' !! y = Some None ↔ a !! y = Some None).

(** The half of [push_back] that runs after [ensure]. *)
Definition link (b : OrderBook) (s : Side) (i : nat) (x : Z) : exec OrderBook :=
  lv ← level (ladder b s) i;
  b ← (if decide (tail lv = NIL) then
         b ← upd_level b s i (λ v, set_tail x (set_head x v));
         l ← mark_occupied (ladder b s) i;
         Ret (set_ladder b s l)
       else
         b ← upd_slot b (tail lv) (set_next x);
         b ← upd_slot b x (set_prev (tail lv));
         upd_level b s i (set_tail x));
  n ← slot b x;
  upd_level b s i (add_qty (n_qty n)).

(** ** Reading a represented ladder *)

Lemma index_of_rep l base qs i :
  ladder_rep l base qs → (i < length qs)%nat → index_of l (base + Z.of_nat i) = Some i.
Proof.
  intros [Hb Hl _ _] Hi. assert (qs ≠ []) as Hne by (intros ->; simpl in Hi; lia).
  unfold index_of. rewrite (Hb Hne), decide_False.
  - replace (Z.to_nat (base + Z.of_nat i - base)) with i by lia.
    rewrite decide_True; [done|]. by rewrite Hl, length_fmap.
  - rewrite Hl. intros [?%fmap_nil_inv|?]; [done|lia].
Qed.

Lemma level_rep l base qs i q :
  ladder_rep l base qs → qs !! i = Some q → level l i = Ret (level_of q).
Proof. intros [_ Hl _ _] Hq. apply vec_get_Ret. by rewrite Hl, list_lookup_fmap, Hq. Qed.

Lemma tick_at_rep l base qs i :
  ladder_rep l base qs → (i < length qs)%nat → 0 ≤ base → base + Z.of_nat (length qs) ≤ u64_max →
  tick_at l i = base + Z.of_nat i.
Proof.
  intros [Hb _ _ _] Hi H0 Hmax. assert (qs ≠ []) as Hne by (intros ->; simpl in Hi; lia).
  unfold tick_at, u64_add. rewrite (Hb Hne). apply wrapu_small. unfold in_u, u64_max in *. lia.
Qed.

Section reading.
Context (b : OrderBook) (A : shape) (pend : option nat) (Hc : core b A pend).

Lemma queue_elem s i q x d :
  sh_qs A s !! i = Some q → (x, d) ∈ q →
  0 ≤ x < NIL ∧ ∃ p n, arena b !! Z.to_nat x = Some (Some (mk_node s (sh_base A s + Z.of_nat i) d p n)).
Proof.
  intros Hq Hin. destruct (ic_seg _ _ _ Hc _ _ _ Hq) as [Hseg _].
  destruct (dseg_elem _ _ _ _ _ _ _ _ Hseg Hin) as (H0 & p & n & Ha).
  pose proof (ic_arena _ _ _ Hc). pose proof (lookup_lt_Some _ _ _ Ha). split; [lia|by exists p, n].
Qed.

Lemma queue_id s i q x :
  sh_qs A s !! i = Some q → x ∈ q.*1 → 0 ≤ x < NIL ∧ ∃ d, (x, d) ∈ q.
Proof.
  intros Hq ([y d] & -> & Hin)%list_elem_of_fmap. simpl. split; [by eapply queue_elem|by exists d].
Qed.

(** An id sits in one queue only. *)
Lemma queue_disjoint s i q s' j q' x :
  sh_qs A s !! i = Some q → sh_qs A s' !! j = Some q' → x ∈ q.*1 → x ∈ q'.*1 → s = s' ∧ i = j.
Proof.
  intros Hq Hq' Hx Hx'.
  destruct (queue_id _ _ _ _ Hq Hx) as (_ & d & Hin).
  destruct (queue_id _ _ _ _ Hq' Hx') as (_ & d' & Hin').
  destruct (queue_elem _ _ _ _ _ Hq Hin) as (_ & p & n & Ha).
  destruct (queue_elem _ _ _ _ _ Hq' Hin') as (_ & p' & n' & Ha').
  rewrite Ha in Ha'. injection Ha' as Ht _ -> _ _. split; [done|]. lia.
Qed.

Lemma hdid_NIL s i q : sh_qs A s !! i = Some q → hdid NIL q = NIL ↔ q = [].
Proof.
  intros Hq. destruct q as [|[x d] q]; [done|]. simpl. split; [|done]. intros ->.
  destruct (queue_elem _ _ _ _ _ Hq ltac:(by left)) as [? _]. lia.
Qed.

Lemma level_empty s i q : sh_qs A s !! i = Some q → level_is_empty (level_of q) = bool_decide (q = []).
Proof. intros Hq. unfold level_is_empty. apply bool_decide_ext. by eapply hdid_NIL. Qed.
End reading.

(** ** Replacing one queue *)

Lemma set_q_lookup A s i q' s' j :
  sh_qs (set_q A s i q') s' !! j =
    if decide (s' = s ∧ j = i ∧ (i < length (sh_qs A s))%nat) then Some q' else sh_qs A s' !! j.
Proof.
  unfold set_q, set_qs. simpl. destruct (decide (s' = s)) as [->|Hs].
  - rewrite upd_side_eq. destruct (decide (j = i)) as [->|Hj].
    + destruct (decide (i < length (sh_qs A s))%nat).
      * rewrite list_lookup_insert_eq, decide_True by done. done.
      * rewrite decide_False by naive_solver. by rewrite list_insert_ge by lia.
    + rewrite list_lookup_insert_ne by done. rewrite decide_False; [done|naive_solver].
  - rewrite upd_side_ne by done. rewrite decide_False; [done|naive_solver].
Qed.

Lemma set_q_base A s i q' s' : sh_base (set_q A s i q') s' = sh_base A s'.
Proof.
  unfold set_q, set_qs. simpl. destruct (decide (s' = s)) as [->|]; [apply upd_side_eq|by apply upd_side_ne].
Qed.

Lemma set_q_length A s i q' s' : length (sh_qs (set_q A s i q') s') = length (sh_qs A s').
Proof.
  unfold set_q, set_qs. simpl. destruct (decide (s' = s)) as [->|].
  - by rewrite upd_side_eq, length_insert.
  - by rewrite upd_side_ne.
Qed.

Lemma core_set_q b A pend s i q q' a' free' l' :
  core b A pend → sh_qs A s !! i = Some q →
  ladder_rep l' (sh_base A s) (<[i := q']> (sh_qs A s)) →
  dseg a' s (sh_base A s + Z.of_nat i) NIL q' NIL → queue_ok q' →
  Z.of_nat (length a') ≤ NIL →
  (∀ y, Z.of_nat y ∉ q.*1 → pend ≠ Some y → a' !! y = arena b !! y) →
  (∀ y nd, a' !! y = Some (Some nd) →
     (n_side nd = s ∧ ∃ d, (Z.of_nat y, d) ∈ q') ∨ (Z.of_nat y ∉ q.*1 ∧ pend ≠ Some y)) →
  (NoDup free' ∧ ∀ x, x ∈ free' ↔ 0 ≤ x ∧ a' !! Z.to_nat x = Some None) →
  core (set_ladder (set_arena b a' free') s l') (set_q A s i q') None.
Proof.
  intros Hc Hq Hl Hseg Hqok Hlen Hfr Hlive Hfree. pose proof (lookup_lt_Some _ _ _ Hq) as Hi.
  destruct (arena_set_ladder (set_arena b a' free') s l') as [Ea Ef]. simpl in Ea, Ef.
  split; rewrite ?Ea, ?Ef; try done.
  - intros s'. rewrite ladder_set_ladder, set_q_base. destruct (decide (s' = s)) as [->|Hs].
    + unfold set_q, set_qs. simpl. by rewrite upd_side_eq.
    + unfold set_q, set_qs. simpl. rewrite upd_side_ne by done.
      replace (ladder (set_arena b a' free') s') with (ladder b s') by (by destruct s'). apply Hc.
  - intros s' j q0 Hq0. rewrite set_q_lookup in Hq0. rewrite set_q_base.
    case_decide as Hd; [destruct Hd as (-> & -> & _); by simplify_eq|].
    destruct (ic_seg _ _ _ Hc _ _ _ Hq0) as [Hseg0 Hok0]. split; [|done].
    eapply dseg_frame; [|exact Hseg0]. intros x Hx.
    destruct (queue_id _ _ _ Hc _ _ _ _ Hq0 Hx) as ((H0 & _) & _).
    apply Hfr; rewrite ?Z2Nat.id by lia.
    + intros Hx'. destruct (queue_disjoint _ _ _ Hc _ _ _ _ _ _ _ Hq0 Hq Hx Hx'). naive_solver.
    + intros Hp. apply (ic_pend _ _ _ Hc _ _ _ _ Hp Hq0). by rewrite Z2Nat.id by lia.
  - intros x nd Hx. right. destruct (Hlive _ _ Hx) as [(<- & d & Hin)|[Hni Hp]].
    + exists i, q', d. split; [|done]. rewrite set_q_lookup. by rewrite decide_True.
    + rewrite Hfr in Hx by done. destruct (ic_live _ _ _ Hc _ _ Hx) as [?|(j & q0 & d & Hq0 & Hin)]; [done|].
      exists j, q0, d. split; [|done]. rewrite set_q_lookup, decide_False; [done|].
      intros (Hs & -> & _). rewrite Hs, Hq in Hq0. simplify_eq. apply Hni.
      by apply (list_elem_of_fmap_2 fst _ (Z.of_nat x, d)).
  - intros s'. rewrite set_q_base, set_q_length. apply Hc.
Qed.

(** The ladder after level [i] has been rewritten for its new queue. *)
Lemma ladder_rep_same l base qs i q q' :
  ladder_rep l base qs → qs !! i = Some q → nonempty (Some q') = nonempty (Some q) →
  ladder_rep {| base_tick := base_tick l; levels := <[i := level_of q']> (levels l);
                occupancy := occupancy l |} base (<[i := q']> qs).
Proof.
  intros [Hb Hl Ho Hbits] Hq Hne. split; simpl; [|by rewrite Hl, list_fmap_insert|done|].
  - intros _. apply Hb. by intros ->.
  - intros j. rewrite Hbits. destruct (decide (j = i)) as [->|].
    + rewrite list_lookup_insert_eq, Hq by (by eapply lookup_lt_Some). done.
    + by rewrite list_lookup_insert_ne.
Qed.

Lemma ladder_rep_occ l base qs i q q' occ :
  ladder_rep l base qs → qs !! i = Some q → occ_ok occ →
  (∀ j, bit occ j = if decide (j = i) then nonempty (Some q') else bit (occupancy l) j) →
  ladder_rep {| base_tick := base_tick l; levels := <[i := level_of q']> (levels l);
                occupancy := occ |} base (<[i := q']> qs).
Proof.
  intros [Hb Hl Ho Hbits] Hq Hocc Hbit. split; simpl; [|by rewrite Hl, list_fmap_insert|done|].
  - intros _. apply Hb. by intros ->.
  - intros j. rewrite Hbit, Hbits. case_decide as Hj; [subst j|].
    + by rewrite list_lookup_insert_eq by (by eapply lookup_lt_Some).
    + by rewrite list_lookup_insert_ne.
Qed.

(** ** Stepping through the pointer operations *)

Lemma mkb_fields b s a fr l :
  arena (mkb b s a fr l) = a ∧ free (mkb b s a fr l) = fr ∧ ladder (mkb b s a fr l) s = l.
Proof. by destruct s. Qed.

Lemma mkb_best b s a fr l s' : best (mkb b s a fr l) s' = best b s'.
Proof. by destruct s, s'. Qed.

Lemma mkb_self b s : b = mkb b s (arena b) (free b) (ladder b s).
Proof. by destruct b, s. Qed.

Lemma slot_Ret b x n : arena b !! Z.to_nat x = Some (Some n) → slot b x = Ret n.
Proof. intros Hx. unfold slot. by rewrite (vec_get_Ret _ _ _ Hx). Qed.

Lemma upd_slot_mkb b s a fr l x n f :
  a !! Z.to_nat x = Some (Some n) →
  upd_slot (mkb b s a fr l) x f = Ret (mkb b s (<[Z.to_nat x := Some (f n)]> a) fr l).
Proof.
  intros Hx. unfold upd_slot. destruct (mkb_fields b s a fr l) as (Ea & Ef & _).
  rewrite (slot_Ret _ _ n) by (by rewrite Ea). rewrite ret_bind, Ea, Ef.
  rewrite (vec_set_Ret' _ _ _ _ Hx). by destruct s.
Qed.

Lemma upd_level_mkb b s a fr l i lv f :
  levels l !! i = Some lv → upd_level (mkb b s a fr l) s i f = Ret (mkb b s a fr (put l i (f lv))).
Proof.
  intros Hi. unfold upd_level. destruct (mkb_fields b s a fr l) as (_ & _ & ->).
  rewrite (vec_get_Ret _ _ _ Hi), ret_bind. by destruct s.
Qed.

Lemma upd_slot_self b s x n f :
  arena b !! Z.to_nat x = Some (Some n) →
  upd_slot b x f = Ret (mkb b s (<[Z.to_nat x := Some (f n)]> (arena b)) (free b) (ladder b s)).
Proof. intros Hx. rewrite (mkb_self b s) at 1. by apply upd_slot_mkb. Qed.

Lemma upd_level_self b s i lv f :
  levels (ladder b s) !! i = Some lv →
  upd_level b s i f = Ret (mkb b s (arena b) (free b) (put (ladder b s) i (f lv))).
Proof. intros Hi. rewrite (mkb_self b s) at 1. by apply upd_level_mkb. Qed.

Lemma put_put l i lv lv' : put (put l i lv) i lv' = put l i lv'.
Proof. unfold put. simpl. by rewrite list_insert_insert_eq. Qed.

Lemma put_self l i lv : levels l !! i = Some lv → put l i lv = l.
Proof. intros Hi. unfold put. rewrite list_insert_id by done. by destruct l. Qed.

Lemma put_lookup l i lv : (i < length (levels l))%nat → levels (put l i lv) !! i = Some lv.
Proof. intros. by apply list_lookup_insert_eq. Qed.

Lemma link_step_refl a q : link_step a a q.
Proof. done. Qed.

(** Writing one live node of the queue. *)
Lemma link_step_insert a q y nd nd' :
  y ∈ q.*1 → 0 ≤ y → a !! Z.to_nat y = Some (Some nd) → link_step a (<[Z.to_nat y := Some nd']> a) q.
Proof.
  intros Hy H0 Ha. split_and!; [apply length_insert| |].
  - intros z Hz. rewrite list_lookup_insert_ne; [done|]. intros E. apply Hz.
    by replace (Z.of_nat z) with y by lia.
  - intros z. destruct (decide (z = Z.to_nat y)) as [->|]; [|by rewrite list_lookup_insert_ne].
    rewrite list_lookup_insert_eq by (by eapply lookup_lt_Some). rewrite Ha. naive_solver.
Qed.

(** [unlink], first link: the predecessor's [next], or the level's head. *)
Lemma unlink_prev b s t a fr l i lv q1 x n :
  levels l !! i = Some lv → NoDup q1.*1 → dseg a s t NIL q1 x → (∀ y, y ∈ q1.*1 → 0 ≤ y < NIL) →
  ∃ a', (if decide (lastid NIL q1 ≠ NIL) then upd_slot (mkb b s a fr l) (lastid NIL q1) (set_next n)
         else upd_level (mkb b s a fr l) s i (set_head n)) =
          Ret (mkb b s a' fr (put l i {| head := if decide (q1 = []) then n else head lv;
                                         tail := tail lv; lv_qty := lv_qty lv |})) ∧
    link_step a a' q1 ∧ dseg a' s t NIL q1 n.
Proof.
  intros Hi Hnd Hseg Hid. destruct (decide (q1 = [])) as [->|Hne].
  - rewrite decide_False by (intros H; by apply H). rewrite (upd_level_mkb _ _ _ _ _ _ _ _ Hi).
    exists a. split_and!; done.
  - destruct (exists_last Hne) as (q & [y d] & ->). rewrite lastid_app. simpl.
    assert (Hy : y ∈ (q ++ [(y, d)]).*1) by (rewrite fmap_app; apply elem_of_app; right; by left).
    pose proof (Hid _ Hy). rewrite decide_True by lia.
    destruct (dseg_set_next s t a NIL q y d x n Hnd Hseg) as (nd & Ha & _ & Hseg').
    rewrite (upd_slot_mkb _ _ _ _ _ _ _ _ Ha). eexists. split_and!; [|..|exact Hseg'].
    + do 2 f_equal. symmetry. apply put_self. rewrite Hi. by destruct lv.
    + eapply link_step_insert; [done|lia|done].
Qed.

(** Second link: the successor's [prev], or the level's tail. *)
Lemma unlink_next b s t a fr l i lv q2 p p0 :
  levels l !! i = Some lv → NoDup q2.*1 → dseg a s t p0 q2 NIL → (∀ y, y ∈ q2.*1 → 0 ≤ y < NIL) →
  ∃ a', (if decide (hdid NIL q2 ≠ NIL) then upd_slot (mkb b s a fr l) (hdid NIL q2) (set_prev p)
         else upd_level (mkb b s a fr l) s i (set_tail p)) =
          Ret (mkb b s a' fr (put l i {| head := head lv;
                                         tail := if decide (q2 = []) then p else tail lv;
                                         lv_qty := lv_qty lv |})) ∧
    link_step a a' q2 ∧ dseg a' s t p q2 NIL.
Proof.
  intros Hi Hnd Hseg Hid. destruct q2 as [|[z d] q2].
  - rewrite decide_False by (intros H; by apply H). rewrite (upd_level_mkb _ _ _ _ _ _ _ _ Hi).
    exists a. split_and!; done.
  - simpl hdid. pose proof (Hid z ltac:(by left)). rewrite decide_True by lia.
    destruct (dseg_set_prev s t a p0 p q2 z d NIL Hnd Hseg) as (nd & Ha & _ & Hseg').
    rewrite (upd_slot_mkb _ _ _ _ _ _ _ _ Ha). eexists. split_and!; [|..|exact Hseg'].
    + do 2 f_equal. symmetry. apply put_self. rewrite Hi. by destruct lv.
    + eapply link_step_insert; [by left|lia|done].
Qed.

Lemma take_slot_mkb b s x nd :
  arena b !! Z.to_nat x = Some (Some nd) →
  take_slot b x =
    Ret (mkb b s (<[Z.to_nat x := None]> (arena b)) (free b) (ladder b s), nd).
Proof.
  intros Hx. unfold take_slot. rewrite (slot_Ret _ _ _ Hx), ret_bind.
  rewrite (vec_set_Ret' _ _ _ _ Hx), ret_bind. by destruct b, s.
Qed.

(** The queue's aggregate after one order left it. *)
Lemma level_qty_remove q1 x d q2 :
  u64_sub (lv_qty (level_of (q1 ++ (x, d) :: q2))) (r_qty d) = lv_qty (level_of (q1 ++ q2)).
Proof.
  unfold u64_sub. simpl. rewrite wrapu_sub_l by lia. rewrite !fmap_app, fmap_cons, !sumZ_app.
  simpl. f_equal. lia.
Qed.

Lemma level_of_remove q1 x d q2 :
  sub_qty (r_qty d)
    {| head := if decide (q1 = []) then hdid NIL q2 else head (level_of (q1 ++ (x, d) :: q2));
       tail := if decide (q2 = []) then lastid NIL q1 else tail (level_of (q1 ++ (x, d) :: q2));
       lv_qty := lv_qty (level_of (q1 ++ (x, d) :: q2)) |} = level_of (q1 ++ q2).
Proof.
  unfold sub_qty. cbn [head tail lv_qty]. rewrite level_qty_remove. unfold level_of. f_equal.
  - case_decide as H1; [by subst|]. by destruct q1 as [|[]].
  - rewrite !lastid_app. simpl. case_decide as H2; [by subst|]. by destruct q2 as [|[]].
Qed.

(** The arena after a slot was freed and its neighbours relinked. *)
Lemma unlink_arena b A s i q1 x d q2 a' :
  core b A None → sh_qs A s !! i = Some (q1 ++ (x, d) :: q2) →
  link_step (<[Z.to_nat x := None]> (arena b)) a' (q1 ++ q2) →
  dseg a' s (sh_base A s + Z.of_nat i) NIL (q1 ++ q2) NIL →
  ∀ l', ladder_rep l' (sh_base A s) (<[i := q1 ++ q2]> (sh_qs A s)) →
  core (mkb b s a' (x :: free b) l') (set_q A s i (q1 ++ q2)) None ∧
  length a' = length (arena b).
Proof.
  intros Hc Hq (Hlen & Hfr & Hnone) Hseg l' Hl'. rewrite length_insert in Hlen.
  split; [|done].
  destruct (queue_elem _ _ _ Hc _ _ _ x d Hq ltac:(set_solver)) as [Hx (p & n & Ha)].
  pose proof (proj2 (ic_seg _ _ _ Hc _ _ _ Hq)) as [Hnd Hqs].
  rewrite fmap_app, fmap_cons in Hnd. pose proof (lookup_lt_Some _ _ _ Ha) as Hlt.
  assert (Hperm : q1.*1 ++ x :: q2.*1 ≡ₚ x :: (q1 ++ q2).*1) by (rewrite fmap_app; solve_Permutation).
  assert (Hmem : ∀ y, y ∈ (q1 ++ (x, d) :: q2).*1 ↔ y = x ∨ y ∈ (q1 ++ q2).*1).
  { intros y. rewrite fmap_app, fmap_cons. simpl. by rewrite Hperm, elem_of_cons. }
  rewrite Hperm in Hnd. apply NoDup_cons in Hnd as [Hni Hnd].
  eapply core_set_q; [done|done|done|done| |rewrite Hlen; apply Hc|..].
  - split; [done|]. rewrite Forall_app, Forall_cons in *. naive_solver.
  - intros y Hy _. rewrite Hmem in Hy. rewrite Hfr by naive_solver.
    rewrite list_lookup_insert_ne; [done|]. intros E. apply Hy. left. lia.
  - intros y nd Hy. destruct (decide (Z.of_nat y ∈ (q1 ++ q2).*1)) as [Hin|Hni'].
    + left. apply list_elem_of_fmap in Hin as ([y' dy] & Heq & Hin). simpl in Heq. subst y'.
      destruct (dseg_elem _ _ _ _ _ _ _ _ Hseg Hin) as (_ & p' & n' & Hy').
      rewrite Nat2Z.id in Hy'. split; [|by exists dy]. rewrite Hy in Hy'. by injection Hy' as ->.
    + right. split; [|done]. rewrite Hmem. intros [E|?]; [|done].
      assert (y = Z.to_nat x) as -> by lia. rewrite Hfr, list_lookup_insert_eq in Hy by (done || lia).
      done.
  - destruct (ic_free _ _ _ Hc) as [Hfnd Hfree]. split.
    + constructor; [|done]. rewrite Hfree. intros [_ E]. congruence.
    + intros y. rewrite elem_of_cons, Hnone, Hfree. destruct (decide (y = x)) as [->|Hyx].
      * rewrite list_lookup_insert_eq by done. split; [intros _; split; [lia|done]|by left].
      * split.
        -- intros [?|[? Hy]]; [done|]. split; [done|]. rewrite list_lookup_insert_ne; [done|lia].
        -- intros [? Hy]. right. rewrite list_lookup_insert_ne in Hy by lia. done.
Qed.

Lemma nonempty_remove (q1 q2 : list (Z * Resting)) x d :
  nonempty (Some (q1 ++ (x, d) :: q2)) = true.
Proof. by destruct q1. Qed.

(** The neighbours of a removed node, relinked one after the other. *)
Lemma unlink_links b A s i q1 x d q2 fr :
  core b A None → sh_qs A s !! i = Some (q1 ++ (x, d) :: q2) →
  let t := sh_base A s + Z.of_nat i in
  let p := lastid NIL q1 in let n := hdid NIL q2 in
  let b0 := mkb b s (<[Z.to_nat x := None]> (arena b)) fr (ladder b s) in
  ∃ a', (b' ← (if decide (p ≠ NIL) then upd_slot b0 p (set_next n)
               else upd_level b0 s i (set_head n));
         b' ← (if decide (n ≠ NIL) then upd_slot b' n (set_prev p)
               else upd_level b' s i (set_tail p));
         upd_level b' s i (sub_qty (r_qty d))) =
        Ret (mkb b s a' fr (put (ladder b s) i (level_of (q1 ++ q2)))) ∧
    link_step (<[Z.to_nat x := None]> (arena b)) a' (q1 ++ q2) ∧
    dseg a' s t NIL (q1 ++ q2) NIL.
Proof.
  intros Hc Hq t p n b0. pose proof (lookup_lt_Some _ _ _ Hq) as Hi.
  destruct (ic_seg _ _ _ Hc _ _ _ Hq) as [Hseg [Hnd _]]. fold t in Hseg.
  pose proof (ic_lad _ _ _ Hc s) as Hl.
  assert (Hlv : levels (ladder b s) !! i = Some (level_of (q1 ++ (x, d) :: q2))).
  { by rewrite (lr_levels _ _ _ Hl), list_lookup_fmap, Hq. }
  assert (Hids : ∀ y, y ∈ (q1 ++ (x, d) :: q2).*1 → 0 ≤ y < NIL).
  { intros y Hy. by destruct (queue_id _ _ _ Hc _ _ _ _ Hq Hy). }
  rewrite fmap_app, fmap_cons in Hnd, Hids.
  pose proof Hnd as (Hnd1 & Hni1 & [Hni2 Hnd2]%NoDup_cons)%NoDup_app. simpl in Hni1, Hni2.
  apply dseg_app in Hseg as [Hseg1 (Hx0 & Hx & Hseg2)].
  assert (Hfr0 : ∀ y, y ∈ q1.*1 ++ q2.*1 →
            <[Z.to_nat x := None]> (arena b) !! Z.to_nat y = arena b !! Z.to_nat y).
  { intros y Hy. rewrite list_lookup_insert_ne; [done|]. intros E.
    assert (0 ≤ y) by (apply Hids; set_solver). assert (x = y) as <- by lia.
    apply elem_of_app in Hy as [Hy|Hy]; [|done]. apply (Hni1 _ Hy). by left. }
  destruct (unlink_prev b s t (<[Z.to_nat x := None]> (arena b)) fr (ladder b s) i _ q1
              (hdid NIL ((x, d) :: q2)) n Hlv Hnd1) as (a1 & Hrun1 & (Hlen1 & Hfr1 & Hno1) & Hs1).
  { eapply dseg_frame; [|exact Hseg1]. intros y Hy. apply Hfr0. set_solver. }
  { intros y Hy. apply Hids. set_solver. }
  unfold b0, p. rewrite Hrun1, ret_bind.
  set (lv1 := {| head := _; tail := _; lv_qty := _ |}).
  assert (Hlv1 : levels (put (ladder b s) i lv1) !! i = Some lv1).
  { apply put_lookup. by rewrite (lr_levels _ _ _ Hl), length_fmap. }
  destruct (unlink_next b s t a1 fr (put (ladder b s) i lv1) i lv1 q2 (lastid NIL q1) x Hlv1 Hnd2)
    as (a2 & Hrun2 & (Hlen2 & Hfr2 & Hno2) & Hs2).
  { eapply dseg_frame; [|exact Hseg2]. intros y Hy. rewrite Hfr1.
    - apply Hfr0. set_solver.
    - rewrite Z2Nat.id by (apply Hids; set_solver). intros Hy1. apply (Hni1 _ Hy1). by right. }
  { intros y Hy. apply Hids. set_solver. }
  unfold n in *. rewrite Hrun2, ret_bind, put_put. erewrite upd_level_mkb; [|apply put_lookup].
  2: { by rewrite (lr_levels _ _ _ Hl), length_fmap. }
  rewrite put_put. unfold lv1. cbn [head tail lv_qty]. rewrite level_of_remove.
  exists a2. split; [done|]. split; [split_and!|].
  - by rewrite Hlen2, Hlen1.
  - intros y. rewrite fmap_app, not_elem_of_app. intros [??]. by rewrite Hfr2, Hfr1.
  - intros y. by rewrite Hno2, Hno1.
  - apply dseg_app. split; [|done]. eapply dseg_frame; [|exact Hs1]. intros y Hy. apply Hfr2.
    rewrite Z2Nat.id by (apply Hids; set_solver). intros Hy2. apply (Hni1 _ Hy). by right.
Qed.

(** Removing one order, wherever it sits in its queue. *)
Lemma unlink_spec b A s i q1 x d q2 :
  core b A None → sh_qs A s !! i = Some (q1 ++ (x, d) :: q2) →
  ∃ b' p n, unlink b x = Ret (b', mk_node s (sh_base A s + Z.of_nat i) d p n) ∧
    core b' (set_q A s i (q1 ++ q2)) None ∧ (∀ s', best b' s' = best b s') ∧
    length (arena b') = length (arena b).
Proof.
  intros Hc Hq. pose proof (lookup_lt_Some _ _ _ Hq) as Hi.
  destruct (ic_seg _ _ _ Hc _ _ _ Hq) as [Hseg _].
  apply dseg_app in Hseg as [_ (_ & Hx & _)].
  pose proof (ic_lad _ _ _ Hc s) as Hl.
  destruct (unlink_links b A s i q1 x d q2 (x :: free b) Hc Hq) as (a' & Hlinks & Hstep & Hseg').
  assert (Hfin : ∀ l', ladder_rep l' (sh_base A s) (<[i := q1 ++ q2]> (sh_qs A s)) →
    core (mkb b s a' (x :: free b) l') (set_q A s i (q1 ++ q2)) None ∧
    length a' = length (arena b)) by by eapply unlink_arena.
  unfold unlink. rewrite (take_slot_mkb _ s _ _ Hx), ret_bind. cbv beta iota zeta.
  cbn [mk_node n_side n_tick n_prev n_next n_qty].
  replace (set_arena (mkb b s _ _ _) _ _)
    with (mkb b s (<[Z.to_nat x := None]> (arena b)) (x :: free b) (ladder b s)) by by destruct s.
  destruct (mkb_fields b s (<[Z.to_nat x := None]> (arena b)) (x :: free b) (ladder b s))
    as (_ & _ & ->).
  rewrite (index_of_rep _ _ _ _ Hl Hi), bind_bind3, Hlinks, ret_bind.
  set (l1 := put _ _ _). destruct (mkb_fields b s a' (x :: free b) l1) as (_ & _ & ->).
  assert (Hlv : level l1 i = Ret (level_of (q1 ++ q2))).
  { apply vec_get_Ret, put_lookup. by rewrite (lr_levels _ _ _ Hl), length_fmap. }
  rewrite Hlv, ret_bind. unfold level_is_empty. case_bool_decide as He.
  - assert (q1 ++ q2 = []) as Hnil.
    { apply dseg_app in Hseg' as [_ _]. destruct (q1 ++ q2) as [|[y dy] q] eqn:E; [done|].
      simpl in He. exfalso. assert (y ∈ (q1 ++ (x, d) :: q2).*1) as Hy.
      { assert (y ∈ (q1 ++ q2).*1) by (rewrite E; by left).
        rewrite fmap_app in *. set_solver. }
      destruct (queue_id _ _ _ Hc _ _ _ _ Hq Hy). lia. }
    unfold mark_empty. destruct (clear_spec (occupancy l1) i (lr_occ _ _ _ Hl)) as (occ & -> & Hocc & Hbits & _).
    rewrite !ret_bind. destruct (Hfin {| base_tick := base_tick l1; levels := levels l1; occupancy := occ |})
      as [Hcore Hlen].
    { apply (ladder_rep_occ (ladder b s) _ _ i (q1 ++ (x, d) :: q2)); [done|done|done|]. 
      intros j. rewrite Hbits, Hnil. destruct (decide (j = i)).
      - by rewrite bool_decide_eq_true_2. - by rewrite bool_decide_eq_false_2. }
    eexists _, _, _. split; [done|]. split_and!.
    + by replace (set_ladder _ _ _) with (mkb b s a' (x :: free b)
        {| base_tick := base_tick l1; levels := levels l1; occupancy := occ |}) by by destruct s.
    + intros s'. by destruct s, s'.
    + by destruct s.
  - destruct (Hfin l1) as [Hcore Hlen].
    { apply (ladder_rep_same _ _ _ i (q1 ++ (x, d) :: q2)); [done|done|].
      rewrite nonempty_remove. by destruct (q1 ++ q2). }
    eexists _, _, _. split; [done|]. split_and!; [done|apply mkb_best|by destruct s].
Qed.

(** A partial fill of the order at the front of its level. *)
Lemma reduce_spec b A s i x d q tr :
  core b A None → sh_qs A s !! i = Some ((x, d) :: q) → 0 < tr < r_qty d →
  let d' := {| r_qty := r_qty d - tr; r_owner := r_owner d; r_expiry := r_expiry d |} in
  ∃ b', (b ← upd_slot b x (sub_node_qty tr); upd_level b s i (sub_qty tr)) = Ret b' ∧
    core b' (set_q A s i ((x, d') :: q)) None ∧ (∀ s', best b' s' = best b s') ∧
    length (arena b') = length (arena b).
Proof.
  intros Hc Hq Htr d'. pose proof (lookup_lt_Some _ _ _ Hq) as Hi.
  destruct (ic_seg _ _ _ Hc _ _ _ Hq) as [(Hx0 & Hx & Hseg) [Hnd Hqs]].
  pose proof (ic_lad _ _ _ Hc s) as Hl. apply Forall_cons in Hqs as [Hqd Hqs]. simpl in Hqd.
  assert (Hd' : sub_node_qty tr (mk_node s (sh_base A s + Z.of_nat i) d NIL (hdid NIL q)) =
                mk_node s (sh_base A s + Z.of_nat i) d' NIL (hdid NIL q)).
  { unfold sub_node_qty, mk_node. cbn. f_equal. apply wrapu_small. unfold in_u, u64_max in *. lia. }
  rewrite (upd_slot_self _ s _ _ _ Hx), ret_bind.
  erewrite upd_level_mkb; [|by rewrite (lr_levels _ _ _ Hl), list_lookup_fmap, Hq].
  assert (Hlv : sub_qty tr (level_of ((x, d) :: q)) = level_of ((x, d') :: q)).
  { unfold sub_qty, level_of. simpl. f_equal. unfold u64_sub. rewrite wrapu_sub_l by lia. f_equal.
    unfold d'. simpl. lia. }
  rewrite Hlv, Hd'. eexists. split; [done|].
  pose proof (lookup_lt_Some _ _ _ Hx) as Hlt.
  split; [|split; [apply mkb_best|by destruct s; simpl; rewrite length_insert]].
  eapply core_set_q; [done|done| | | |rewrite length_insert; apply Hc|..].
  - by eapply ladder_rep_same.
  - split_and!; [done|by rewrite list_lookup_insert_eq|].
    eapply dseg_frame; [|exact Hseg]. intros y Hy. rewrite list_lookup_insert_ne; [done|].
    apply NoDup_cons in Hnd as [Hni _]. intros E.
    destruct (queue_id _ _ _ Hc s i _ y Hq ltac:(by right)).
    assert (x = y) as <- by lia. done.
  - split; [done|]. constructor; [simpl in *; unfold u64_max in *; lia|done].
  - intros y Hy _. rewrite list_lookup_insert_ne; [done|]. intros E. apply Hy. simpl.
    replace (Z.of_nat y) with x by lia. by left.
  - intros y nd Hy. destruct (decide (Z.of_nat y ∈ ((x, d) :: q).*1)) as [Hin|]; [|by right].
    left. destruct (decide (y = Z.to_nat x)) as [->|Hyx].
    + rewrite list_lookup_insert_eq in Hy by done. injection Hy as <-. split; [done|].
      exists d'. rewrite Z2Nat.id by done. by left.
    + rewrite list_lookup_insert_ne in Hy by done.
      apply elem_of_cons in Hin as [Hin|Hin]; [simpl in Hin; lia|].
      destruct (queue_id _ _ _ Hc s i _ (Z.of_nat y) Hq ltac:(by right)) as (_ & dy & Hdy).
      destruct (queue_elem _ _ _ Hc _ _ _ _ _ Hq Hdy) as (_ & p & n & Hy').
      rewrite Nat2Z.id, Hy in Hy'. injection Hy' as ->. split; [done|].
      exists dy. apply elem_of_cons in Hdy as [[= ? ->]|]; [lia|by right].
  - destruct (ic_free _ _ _ Hc) as [Hfnd Hfree]. split; [done|]. intros y. rewrite Hfree.
    split; intros [? Hy]; (split; [done|]).
    + rewrite list_lookup_insert_ne; [done|]. intros E. rewrite <- E in Hy. congruence.
    + destruct (decide (Z.to_nat y = Z.to_nat x)) as [E|]; [|by rewrite list_lookup_insert_ne in Hy].
      rewrite E, list_lookup_insert_eq in Hy by done. done.
Qed.

(** ** The next worse level *)

Lemma next_worse_index b A pend s i :
  core b A pend → (i < length (sh_qs A s))%nat →
  ∃ r, next_worse_level (ladder b s) s i = Ret r ∧
    let t k := sh_base A s + Z.of_nat k in
    match r with
    | Some j => nonempty (sh_qs A s !! j) = true ∧ better s (t i) (t j) ∧
        ∀ k, nonempty (sh_qs A s !! k) = true → better s (t i) (t k) → ¬ better s (t k) (t j)
    | None => ∀ k, nonempty (sh_qs A s !! k) = true → ¬ better s (t i) (t k)
    end.
Proof.
  intros Hc Hi. pose proof (ic_lad _ _ _ Hc s) as [_ _ Hocc Hbits]. unfold next_worse_level.
  destruct s; [destruct i as [|i]|].
  - exists None. split; [done|]. intros k _. simpl. lia.
  - destruct (prev_set_from_spec (occupancy (ladder b Long)) i Hocc) as ([j|] & -> & Hspec);
      (eexists; split; [done|]); simpl in *.
    + destruct Hspec as (Hj & Hb & Hmax). rewrite <- Hbits. split_and!; [done|lia|].
      intros k Hk Hlt Hlt'. rewrite <- Hbits, Hmax in Hk; [done|lia].
    + intros k Hk Hlt. rewrite <- Hbits, Hspec in Hk; [done|lia].
  - destruct (next_set_from_spec (occupancy (ladder b Short)) (i + 1) Hocc) as ([j|] & -> & Hspec);
      (eexists; split; [done|]); simpl in *.
    + destruct Hspec as (Hj & Hb & Hmin). rewrite <- Hbits. split_and!; [done|lia|].
      intros k Hk Hlt Hlt'. rewrite <- Hbits, Hmin in Hk; [done|lia].
    + intros k Hk Hlt. rewrite <- Hbits, Hspec in Hk; [done|lia].
Qed.

(** In terms of the flat view: the first tick after the entries of level [i]. *)
Lemma next_worse_flat b A pend s i f1 f2 :
  core b A pend → (i < length (sh_qs A s))%nat → flat A s = f1 ++ f2 →
  Forall (λ e, ¬ better s (sh_base A s + Z.of_nat i) e.1) f1 →
  Forall (λ e, better s (sh_base A s + Z.of_nat i) e.1) f2 →
  ∃ r, next_worse_level (ladder b s) s i = Ret r ∧ tick_at (ladder b s) <$> r = first_tick f2.
Proof.
  intros Hc Hi Hf Hf1 Hf2. destruct (next_worse_index b A pend s i Hc Hi) as (r & Hr & Hspec).
  exists r. split; [done|]. rewrite Forall_forall in Hf1, Hf2.
  destruct (ic_range _ _ _ Hc s) as [H0 Hmax].
  assert (Hin : ∀ e, e ∈ flat A s → ∃ k, nonempty (sh_qs A s !! k) = true ∧
                  e.1 = sh_base A s + Z.of_nat k).
  { intros e (k & q & Hq & He & Hqe)%elem_of_flat. exists k. split; [|done]. rewrite Hq.
    apply nonempty_true. destruct q; [by apply elem_of_nil in Hqe|eauto]. }
  destruct r as [j|]; simpl in *.
  - destruct Hspec as (Hj & Hb & Hmin).
    apply nonempty_true in Hj as ([x d] & q & Hq). pose proof (lookup_lt_Some _ _ _ Hq) as Hjl.
    rewrite (tick_at_rep _ _ _ _ (ic_lad _ _ _ Hc s) Hjl H0 Hmax).
    set (ej := (sh_base A s + Z.of_nat j, (x, d)) : Z * (Z * Resting)).
    assert (Hej : ej ∈ flat A s).
    { apply elem_of_flat. exists j, ((x, d) :: q). split_and!; [done..|]. by left. }
    assert (Hej2 : ej ∈ f2).
    { rewrite Hf in Hej. apply elem_of_app in Hej as [He|]; [|done]. by destruct (Hf1 _ He). }
    destruct f2 as [|e f2]; [by apply elem_of_nil in Hej2|]. unfold first_tick. simpl. f_equal.
    apply elem_of_cons in Hej2 as [<-|Hej2]; [done|].
    destruct (Hin e) as (k & Hk & Hke); [rewrite Hf; set_solver|].
    pose proof (flat_sorted_app A s f1 e f2 ej Hf Hej2) as Hsort. simpl in Hsort.
    specialize (Hmin k Hk). rewrite <- Hke in Hmin. specialize (Hmin (Hf2 e ltac:(by left))).
    destruct (better_total s (sh_base A s + Z.of_nat j) e.1) as [?|[?|?]]; done.
  - destruct f2 as [|e f2]; [done|]. exfalso.
    destruct (Hin e) as (k & Hk & Hke); [rewrite Hf; set_solver|].
    apply (Hspec k Hk). rewrite <- Hke. apply Hf2. by left.
Qed.

Lemma advance_spec b A s i :
  core b A None → (i < length (sh_qs A s))%nat →
  Forall (λ e, better s (sh_base A s + Z.of_nat i) e.1) (flat A s) →
  ∃ b', advance_best_from b s (sh_base A s + Z.of_nat i) = Ret b' ∧ core b' A None ∧
    best b' s = first_tick (flat A s) ∧ (∀ s', s' ≠ s → best b' s' = best b s') ∧
    arena b' = arena b.
Proof.
  intros Hc Hi Hf. unfold advance_best_from.
  rewrite (index_of_rep _ _ _ _ (ic_lad _ _ _ Hc s) Hi).
  destruct (next_worse_flat b A None s i [] (flat A s) Hc Hi eq_refl (Forall_nil_2 _) Hf)
    as (r & -> & Hr). rewrite ret_bind, Hr. eexists. split; [done|]. split_and!.
  - by apply core_set_best.
  - by rewrite best_set_best, decide_True.
  - intros s' Hs'. by rewrite best_set_best, decide_False.
  - apply arena_set_best.
Qed.

(** ** Growing a ladder *)

Lemma nonempty_replicate_app n (qs : list (list (Z * Resting))) i :
  nonempty ((replicate n [] ++ qs) !! i) = bool_decide (n ≤ i)%nat && nonempty (qs !! (i - n)%nat).
Proof.
  case_bool_decide.
  - by rewrite lookup_app_r, length_replicate by (rewrite length_replicate; lia).
  - by rewrite lookup_app_l, lookup_replicate_2 by (rewrite ?length_replicate; lia).
Qed.

Lemma nonempty_app_replicate n (qs : list (list (Z * Resting))) i :
  nonempty ((qs ++ replicate n []) !! i) = nonempty (qs !! i).
Proof.
  destruct (decide (i < length qs)%nat); [by rewrite lookup_app_l|].
  rewrite lookup_app_r, (lookup_ge_None_2 qs) by lia.
  destruct (replicate n [] !! _) as [q|] eqn:E; [|done].
  by apply lookup_replicate in E as [-> _].
Qed.

(** Changing a side's array to one with the same orders at the same ticks. *)
Lemma core_regrow b A pend s l' base' qs' :
  core b A pend → ladder_rep l' base' qs' →
  0 ≤ base' → base' + Z.of_nat (length qs') ≤ u64_max →
  (∀ i q, qs' !! i = Some q → q ≠ [] →
     ∃ j, sh_qs A s !! j = Some q ∧ sh_base A s + Z.of_nat j = base' + Z.of_nat i) →
  (∀ j q, sh_qs A s !! j = Some q → q ≠ [] → ∃ i, qs' !! i = Some q) →
  core (set_ladder b s l') (set_qs A s base' qs') pend.
Proof.
  intros Hc Hl' H0 Hmax Hnew Hold. destruct (arena_set_ladder b s l') as [Ea Ef].
  assert (Hq' : ∀ s' i q, sh_qs (set_qs A s base' qs') s' !! i = Some q → q ≠ [] →
            ∃ j, sh_qs A s' !! j = Some q ∧
              sh_base A s' + Z.of_nat j = sh_base (set_qs A s base' qs') s' + Z.of_nat i).
  { intros s' i q. unfold set_qs. simpl. destruct (decide (s' = s)) as [->|Hs].
    - rewrite !upd_side_eq. apply Hnew.
    - rewrite !upd_side_ne by done. intros. by exists i. }
  split; rewrite ?Ea, ?Ef; try apply Hc.
  - intros s'. rewrite ladder_set_ladder. unfold set_qs. simpl.
    destruct (decide (s' = s)) as [->|Hs]; [by rewrite !upd_side_eq|].
    rewrite !upd_side_ne by done. apply Hc.
  - intros s' i q Hq. destruct q as [|e q]; [split; [done|split; constructor]|].
    destruct (Hq' _ _ _ Hq ltac:(done)) as (j & Hj & Ht). rewrite <- Ht. by apply Hc.
  - intros x nd Hx. destruct (ic_live _ _ _ Hc _ _ Hx) as [?|(j & q & d & Hq & Hin)]; [by left|].
    right. unfold set_qs. simpl. destruct (decide (n_side nd = s)) as [E|Hs].
    + rewrite E, upd_side_eq in *. assert (q ≠ []) as Hne by (intros ->; by apply elem_of_nil in Hin).
      destruct (Hold _ _ Hq Hne) as [i Hi]. by exists i, q, d.
    + rewrite upd_side_ne by done. by exists j, q, d.
  - intros x s' i q Hp Hq. destruct q as [|e q]; [apply not_elem_of_nil|].
    destruct (Hq' _ _ _ Hq ltac:(done)) as (j & Hj & _). by apply (ic_pend _ _ _ Hc _ _ _ _ Hp Hj).
  - intros s'. unfold set_qs. simpl. destruct (decide (s' = s)) as [->|Hs].
    + by rewrite !upd_side_eq.
    + rewrite !upd_side_ne by done. apply Hc.
Qed.

Lemma mjoin_all_nil {B} (l : list (list B)) : Forall (λ x, x = []) l → mjoin l = [].
Proof. induction 1 as [|x l -> _ IH]; [done|]. done. Qed.

Lemma tagged_empties (g : nat → Z) n :
  Forall (λ x : list (Z * (Z * Resting)), x = []) (imap (λ i q, tag (g i) q) (replicate n [])).
Proof.
  apply Forall_lookup. intros i x. rewrite list_lookup_imap. intros (q & Hq & ->)%fmap_Some.
  by apply lookup_replicate in Hq as [-> _].
Qed.

(** Empty levels below or above leave the flat view alone. *)
Lemma flat_grow A s n m base' :
  (sh_qs A s ≠ [] → base' + Z.of_nat n = sh_base A s) →
  ∀ s', flat (set_qs A s base' (replicate n [] ++ sh_qs A s ++ replicate m [])) s' = flat A s'.
Proof.
  intros Hb s'. destruct (decide (s' = s)) as [->|Hs]; cycle 1.
  { unfold flat, tagged, set_qs. destruct s'; simpl; by rewrite !upd_side_ne. }
  assert (Ht : ∃ e1 e2, tagged (set_qs A s base' (replicate n [] ++ sh_qs A s ++ replicate m [])) s =
                 e1 ++ tagged A s ++ e2 ∧ Forall (λ x, x = []) e1 ∧ Forall (λ x, x = []) e2).
  { unfold tagged at 1. unfold set_qs. simpl. rewrite !upd_side_eq, !imap_app.
    eexists _, _. split_and!; [|apply tagged_empties|].
    - f_equal. f_equal. unfold tagged. rewrite length_replicate. unfold compose.
      destruct (decide (sh_qs A s = [])) as [->|Hne]; [done|].
      apply imap_ext. intros i q _. f_equal. specialize (Hb Hne). lia.
    - apply (tagged_empties (λ i, base' + Z.of_nat (length (replicate n (@nil (Z * Resting))) +
                                   (length (sh_qs A s) + i)))). }
  destruct Ht as (e1 & e2 & Ht & H1 & H2).
  destruct s; simpl; rewrite Ht, ?reverse_app, !join_app.
  - rewrite (mjoin_all_nil (reverse e1)) by (by apply Forall_reverse).
    rewrite (mjoin_all_nil (reverse e2)) by (by apply Forall_reverse). by rewrite app_nil_r.
  - rewrite (mjoin_all_nil e1), (mjoin_all_nil e2) by done. by rewrite app_nil_r.
Qed.

Lemma grow_core b A pend s n m base' l' :
  core b A pend → (sh_qs A s ≠ [] → base' + Z.of_nat n = sh_base A s) →
  ladder_rep l' base' (replicate n [] ++ sh_qs A s ++ replicate m []) →
  0 ≤ base' → base' + Z.of_nat (n + length (sh_qs A s) + m) ≤ u64_max →
  core (set_ladder b s l')
    (set_qs A s base' (replicate n [] ++ sh_qs A s ++ replicate m [])) pend.
Proof.
  intros Hc Hb Hl' H0 Hmax. apply core_regrow; [done|done|done|..].
  - rewrite !length_app, !length_replicate. lia.
  - intros i q Hi Hne. apply lookup_app_Some in Hi as [[-> _]%lookup_replicate|[Hn Hi]]; [done|].
    rewrite length_replicate in Hn, Hi.
    apply lookup_app_Some in Hi as [Hi|[_ [-> _]%lookup_replicate]]; [|done].
    exists (i - n)%nat. split; [done|].
    assert (sh_qs A s ≠ []) as Hq by (intros E; by rewrite E in Hi). specialize (Hb Hq). lia.
  - intros j q Hj _. exists (n + j)%nat. rewrite lookup_app_r by (rewrite length_replicate; lia).
    rewrite length_replicate. replace (n + j - n)%nat with j by lia.
    apply lookup_app_l_Some. done.
Qed.

Lemma ensure_spec b A pend s t :
  core b A pend → 0 ≤ t < u64_max →
  ∃ l' i A', ensure (ladder b s) t = Ret (l', i) ∧ core (set_ladder b s l') A' pend ∧
    sh_base A' s + Z.of_nat i = t ∧ (i < length (sh_qs A' s))%nat ∧
    (∀ s', flat A' s' = flat A s').
Proof.
  intros Hc Ht. pose proof (ic_lad _ _ _ Hc s) as [Hb Hl Hocc Hbits].
  destruct (ic_range _ _ _ Hc s) as [H0 Hmax]. set (qs := sh_qs A s) in *.
  assert (Hnil : levels (ladder b s) = [] ↔ qs = []).
  { rewrite Hl. split; [by apply fmap_nil_inv|by intros ->]. }
  assert (Hgrow : ∀ n m base' l', (qs ≠ [] → base' + Z.of_nat n = sh_base A s) →
    ladder_rep l' base' (replicate n [] ++ qs ++ replicate m []) →
    0 ≤ base' → base' + Z.of_nat (n + length qs + m) ≤ u64_max →
    ∀ i, base' + Z.of_nat i = t → (i < n + length qs + m)%nat →
    ∃ A', core (set_ladder b s l') A' pend ∧ sh_base A' s + Z.of_nat i = t ∧
      (i < length (sh_qs A' s))%nat ∧ ∀ s', flat A' s' = flat A s').
  { intros n m base' l' Hb' Hl' Hr1 Hr2 i Hi Hilt.
    exists (set_qs A s base' (replicate n [] ++ qs ++ replicate m [])). split_and!.
    - by apply grow_core.
    - unfold set_qs. simpl. by rewrite upd_side_eq.
    - unfold set_qs. simpl. rewrite upd_side_eq, !length_app, !length_replicate. lia.
    - by apply flat_grow. }
  unfold ensure. case_decide as Hn; [|case_decide as Hlow; [|case_decide as Hlen]].
  - apply Hnil in Hn. destruct (ensure_len_spec _ 1 Hocc) as (Hocc' & Hbit' & _).
    destruct (Hgrow 0%nat 1%nat t {| base_tick := t; levels := [EMPTY];
      occupancy := ensure_len (occupancy (ladder b s)) 1 |}) with (i := 0%nat) as (A' & ?);
      [by rewrite Hn| |lia|rewrite Hn; cbn [length]; lia|lia|lia|by eauto 10].
    rewrite Hn. split; [done|done|done|]. intros i.
    etrans; [apply Hbit'|]. rewrite Hbits, Hn. by destruct i as [|[|i]].
  - assert (qs ≠ []) as Hne by (by rewrite <- Hnil). specialize (Hb Hne). rewrite Hb in *.
    set (n := Z.to_nat (sh_base A s - t)).
    destruct (shift_up_spec (occupancy (ladder b s)) n
                (length (replicate n EMPTY ++ levels (ladder b s))) Hocc) as (occ & -> & Hocc' & Hbit').
    rewrite ret_bind.
    destruct (Hgrow n 0%nat t {| base_tick := t; levels := replicate n EMPTY ++ levels (ladder b s);
      occupancy := occ |}) with (i := 0%nat) as (A' & ?);
      [intros _; lia| |lia|lia|lia|lia|by eauto 10].
    split; [done| |done|]; simpl.
    + by rewrite app_nil_r, fmap_app, fmap_replicate, Hl.
    + intros i. rewrite app_nil_r, nonempty_replicate_app, <- Hbits. by rewrite Hbit'.
  - assert (qs ≠ []) as Hne by (by rewrite <- Hnil). specialize (Hb Hne). rewrite Hb in *.
    rewrite Hl, length_fmap in Hlen. set (i := Z.to_nat (t - sh_base A s)) in *.
    assert (Hcount : Z.to_nat (u64_add (Z.of_nat i) 1) = (i + 1)%nat).
    { unfold u64_add. rewrite wrapu_small; [lia|]. unfold in_u, u64_max in *. lia. }
    rewrite Hcount. destruct (ensure_len_spec _ (i + 1) Hocc) as (Hocc' & Hbit' & _).
    eexists _, i. destruct (Hgrow 0%nat (i + 1 - length qs)%nat (sh_base A s)
      {| base_tick := sh_base A s; levels := resize (i + 1) EMPTY (levels (ladder b s));
         occupancy := ensure_len (occupancy (ladder b s)) (i + 1) |}) with (i := i) as (A' & ?);
      [intros _; lia| |lia|lia|lia|lia|by eauto 10].
    split; [done| |done|]; simpl.
    + rewrite Hl, resize_ge, length_fmap by (rewrite length_fmap; lia).
      by rewrite fmap_app, fmap_replicate.
    + intros k. rewrite nonempty_app_replicate, <- Hbits. by rewrite Hbit'.
  - assert (qs ≠ []) as Hne by (by rewrite <- Hnil). specialize (Hb Hne). rewrite Hb in *.
    rewrite Hl, length_fmap in Hlen.
    eexists _, _, A. split; [done|]. split_and!; [|lia|unfold qs in *; lia|done].
    by replace (set_ladder b s (ladder b s)) with b by (by destruct b, s).
Qed.

(** ** Allocating and linking a new order *)

Lemma alloc_spec b A nd :
  core b A None → Z.of_nat (length (arena b)) < NIL →
  ∃ b' x, alloc b nd = Ret (b', x) ∧ 0 ≤ x < NIL ∧
    arena b' !! Z.to_nat x = Some (Some nd) ∧ core b' A (Some (Z.to_nat x)) ∧
    (∀ s, best b' s = best b s) ∧ (∀ s, ladder b' s = ladder b s).
Proof.
  intros Hc Hroom. destruct (ic_free _ _ _ Hc) as [Hfnd Hfree].
  assert (Hgen : ∀ x a fr, 0 ≤ x < NIL → a !! Z.to_nat x = Some (Some nd) →
    (∀ y, y ≠ Z.to_nat x → a !! y = arena b !! y) → Z.of_nat (length a) ≤ NIL →
    (∀ z, arena b !! Z.to_nat x ≠ Some (Some z)) →
    (NoDup fr ∧ ∀ y, y ∈ fr ↔ 0 ≤ y ∧ a !! Z.to_nat y = Some None) →
    core (set_arena b a fr) A (Some (Z.to_nat x))).
  { intros x a fr Hx Hax Hoth Hlen Hdead Hfr.
    assert (Hni : ∀ s i q, sh_qs A s !! i = Some q → x ∉ q.*1).
    { intros s i q Hq Hin. destruct (queue_id _ _ _ Hc _ _ _ _ Hq Hin) as (_ & d & Hd).
      destruct (queue_elem _ _ _ Hc _ _ _ _ _ Hq Hd) as (_ & p & n & Ha). by eapply Hdead. }
    split; simpl; try done; [|..|apply Hc].
    - intros s. replace (ladder (set_arena b a fr) s) with (ladder b s) by (by destruct s). apply Hc.
    - intros s i q Hq. destruct (ic_seg _ _ _ Hc _ _ _ Hq) as [Hseg Hok]. split; [|done].
      eapply dseg_frame; [|exact Hseg]. intros y Hy. apply Hoth. intros E.
      destruct (queue_id _ _ _ Hc _ _ _ _ Hq Hy) as [? _].
      apply (Hni _ _ _ Hq). by replace x with y by lia.
    - intros y nd' Hy. destruct (decide (y = Z.to_nat x)) as [->|Hne]; [by left|]. right.
      rewrite Hoth in Hy by done. by destruct (ic_live _ _ _ Hc _ _ Hy).
    - intros y s i q [= <-] Hq. rewrite Z2Nat.id by lia. by eapply Hni. }
  unfold alloc. destruct (free b) as [|x fr] eqn:Hfb.
  - set (len := length (arena b)) in *.
    assert (Hid : as_u32 (Z.of_nat (length (arena b ++ [Some nd])) - 1) = Z.of_nat len).
    { rewrite length_app. simpl. unfold as_u32. rewrite wrapu_small; [unfold len; lia|].
      unfold NIL, len in *. int_range. }
    rewrite Hid. eexists _, _. split; [done|]. split; [lia|].
    assert (Hat : (arena b ++ [Some nd]) !! len = Some (Some nd)).
    { unfold len. by rewrite lookup_app_r, Nat.sub_diag by done. }
    rewrite Nat2Z.id. split_and!; [done| |by intros []|by intros []].
    pose proof (Hgen (Z.of_nat len) (arena b ++ [Some nd]) []) as Hcore. rewrite Nat2Z.id in Hcore.
    apply Hcore; [lia|done| |rewrite length_app; simpl; lia| |].
    + intros y Hy. destruct (decide (y < len)%nat); [by apply lookup_app_l|].
      rewrite !lookup_ge_None_2; [done|unfold len in *; lia|rewrite length_app; simpl; unfold len in *; lia].
    + intros z Hz. apply lookup_lt_Some in Hz. unfold len in Hz. lia.
    + split; [constructor|]. intros y. split; [intros H; by apply elem_of_nil in H|].
      intros [? Hy]. apply lookup_app_Some in Hy as [Hy|[Hy1 Hy2]].
      * by apply Hfree.
      * by apply list_lookup_singleton_Some in Hy2 as [_ ?].
  - destruct (proj1 (Hfree x) ltac:(by left)) as [Hx0 Hx].
    pose proof (lookup_lt_Some _ _ _ Hx) as Hlt. pose proof (ic_arena _ _ _ Hc).
    rewrite (vec_set_Ret' _ _ _ _ Hx), ret_bind. eexists _, _. split; [done|].
    split_and!; [lia|lia|by apply list_lookup_insert_eq| |by intros []|by intros []].
    apply NoDup_cons in Hfnd as [Hxni Hfnd].
    apply Hgen; [lia|by apply list_lookup_insert_eq| |by rewrite length_insert| |].
    + intros y Hy. by apply list_lookup_insert_ne.
    + intros z. congruence.
    + split; [done|]. intros y. specialize (Hfree y). rewrite elem_of_cons in Hfree.
      destruct (decide (y = x)) as [->|Hyx].
      * rewrite list_lookup_insert_eq by done. naive_solver.
      * split.
        -- intros Hy. destruct (proj1 Hfree (or_intror Hy)) as [? Hyn]. split; [done|].
           by rewrite list_lookup_insert_ne by lia.
        -- intros [? Hyn]. rewrite list_lookup_insert_ne in Hyn by lia. naive_solver.
Qed.

Lemma push_back_link b s t x :
  push_back b s t x =
    ('(l, i) ← ensure (ladder b s) t; b' ← link (set_ladder b s l) s i x; Ret (raise_best b' s t)).
Proof.
  unfold push_back, link. destruct (ensure (ladder b s) t) as [[l i]|]; [|done].
  cbv beta iota delta [mbind exec_bind].
  replace (ladder (set_ladder b s l) s) with l by (by destruct s).
  destruct (level l i) as [lv|]; [|done].
  by repeat case_match.
Qed.

Lemma level_of_push q x d :
  add_qty (r_qty d)
    {| head := if decide (q = []) then x else head (level_of q); tail := x;
       lv_qty := lv_qty (level_of q) |} = level_of (q ++ [(x, d)]).
Proof.
  unfold add_qty, level_of. cbn [head tail lv_qty]. f_equal.
  - case_decide as Hq; [by subst|]. by destruct q as [|[]].
  - by rewrite lastid_app.
  - unfold u64_add. rewrite wrapu_add_l, fmap_app, sumZ_app by lia. simpl. f_equal. lia.
Qed.

(** What linking the pending slot [x] behind queue [q] leaves in the arena. *)
Lemma link_core b A s i q x d a' l' :
  core b A (Some (Z.to_nat x)) → 0 ≤ x < NIL → sh_qs A s !! i = Some q →
  0 < r_qty d ≤ u64_max →
  link_step (arena b) a' ((x, d) :: q) →
  dseg a' s (sh_base A s + Z.of_nat i) NIL (q ++ [(x, d)]) NIL →
  ladder_rep l' (sh_base A s) (<[i := q ++ [(x, d)]]> (sh_qs A s)) →
  core (mkb b s a' (free b) l') (set_q A s i (q ++ [(x, d)])) None.
Proof.
  intros Hc Hx Hq Hd (Hlen & Hfr & Hnone) Hseg Hl'.
  destruct (ic_seg _ _ _ Hc _ _ _ Hq) as [_ [Hnd Hqs]].
  pose proof (ic_pend _ _ _ Hc _ _ _ _ eq_refl Hq) as Hni. rewrite Z2Nat.id in Hni by lia.
  eapply core_set_q; [done|done|done|done| |rewrite Hlen; apply Hc|..].
  - split.
    + rewrite fmap_app. apply NoDup_app. split_and!; [done| |by apply NoDup_singleton].
      intros y Hy Hy'. apply list_elem_of_singleton in Hy'. simpl in Hy'. by subst.
    + apply Forall_app. split; [done|]. by constructor.
  - intros y Hy Hp. apply Hfr. rewrite fmap_cons, not_elem_of_cons. split; [|done].
    simpl. intros E. apply Hp. f_equal. lia.
  - intros y nd Hy. destruct (decide (Z.of_nat y ∈ (q ++ [(x, d)]).*1)) as [Hin|Hnin].
    + left. apply list_elem_of_fmap in Hin as ([y' dy] & Heq & Hin). simpl in Heq. subst y'.
      destruct (dseg_elem _ _ _ _ _ _ _ _ Hseg Hin) as (_ & p & n & Hy').
      rewrite Nat2Z.id, Hy in Hy'. injection Hy' as ->. split; [done|by exists dy].
    + right. rewrite fmap_app, not_elem_of_app in Hnin. destruct Hnin as [? Hnx]. split; [done|].
      intros [= E]. apply Hnx. simpl. rewrite <- E, Z2Nat.id by lia. by left.
  - destruct (ic_free _ _ _ Hc) as [? Hfree]. split; [done|]. intros y. by rewrite Hfree, Hnone.
Qed.

Lemma link_spec_nil b A s i x d :
  let t := sh_base A s + Z.of_nat i in
  core b A (Some (Z.to_nat x)) → 0 ≤ x < NIL → sh_qs A s !! i = Some [] →
  0 < r_qty d ≤ u64_max → arena b !! Z.to_nat x = Some (Some (mk_node s t d NIL NIL)) →
  ∃ b', link b s i x = Ret b' ∧ core b' (set_q A s i ([] ++ [(x, d)])) None ∧
    (∀ s', best b' s' = best b s').
Proof.
  intros t Hc Hx Hq Hd Ha.
  pose proof (lookup_lt_Some _ _ _ Hq) as Hi.
  pose proof (ic_lad _ _ _ Hc s) as Hl.
  assert (Hlv : levels (ladder b s) !! i = Some (level_of [])).
  { by rewrite (lr_levels _ _ _ Hl), list_lookup_fmap, Hq. }
  unfold link. rewrite (level_rep _ _ _ _ _ Hl Hq), ret_bind.
  assert (Hlen : (i < length (levels (ladder b s)))%nat) by (by eapply lookup_lt_Some).
  rewrite decide_True by done.
  rewrite (upd_level_self _ _ _ _ _ Hlv), ret_bind.
  destruct (mkb_fields b s (arena b) (free b) (put (ladder b s) i (set_tail x (set_head x (level_of [])))))
    as (Ea & _ & ->).
  unfold mark_occupied. destruct (set_spec _ i (lr_occ _ _ _ Hl)) as (occ & Hset & Hocc & Hbits & _).
  cbn [occupancy put]. rewrite Hset, !ret_bind.
  set (l1 := {| base_tick := _; levels := _; occupancy := occ |}).
  replace (set_ladder (mkb _ _ _ _ _) s l1) with (mkb b s (arena b) (free b) l1) by by destruct s.
  rewrite (slot_Ret _ _ (mk_node s t d NIL NIL)) by (by destruct s). rewrite ret_bind.
  erewrite upd_level_mkb; [|by apply list_lookup_insert_eq].
  eexists. split; [done|]. split; [|apply mkb_best].
  eapply (link_core b A s i [] x d); [done|done|done|done|done|split_and!; [lia|done|done]|].
  pose proof (level_of_push [] x d) as Hpush. rewrite decide_True in Hpush by done.
  unfold put, l1. simpl levels. rewrite list_insert_insert_eq.
  change (add_qty _ (set_tail x (set_head x (level_of [])))) with
    (add_qty (r_qty d) {| head := x; tail := x; lv_qty := lv_qty (level_of []) |}).
  rewrite Hpush. apply (ladder_rep_occ (ladder b s) _ _ i [] ([] ++ [(x, d)])); [done|done|done|].
  intros j. rewrite Hbits.
  destruct (decide (j = i)); [by rewrite bool_decide_eq_true_2|by rewrite bool_decide_eq_false_2].
Qed.

Lemma link_spec_cons b A s i q x d :
  let t := sh_base A s + Z.of_nat i in
  q ≠ [] → core b A (Some (Z.to_nat x)) → 0 ≤ x < NIL → sh_qs A s !! i = Some q →
  0 < r_qty d ≤ u64_max → arena b !! Z.to_nat x = Some (Some (mk_node s t d NIL NIL)) →
  ∃ b', link b s i x = Ret b' ∧ core b' (set_q A s i (q ++ [(x, d)])) None ∧
    (∀ s', best b' s' = best b s').
Proof.
  intros t Hne Hc Hx Hq Hd Ha.
  pose proof (lookup_lt_Some _ _ _ Hq) as Hi.
  pose proof (ic_lad _ _ _ Hc s) as Hl.
  assert (Hlv : levels (ladder b s) !! i = Some (level_of q)).
  { by rewrite (lr_levels _ _ _ Hl), list_lookup_fmap, Hq. }
  unfold link. rewrite (level_rep _ _ _ _ _ Hl Hq), ret_bind.
  destruct (ic_seg _ _ _ Hc _ _ _ Hq) as [Hseg [Hnd _]]. fold t in Hseg.
  pose proof (ic_pend _ _ _ Hc _ _ _ _ eq_refl Hq) as Hni. rewrite Z2Nat.id in Hni by lia.
  pose proof (lookup_lt_Some _ _ _ Ha) as Hlt.
  assert (Hlen : (i < length (levels (ladder b s)))%nat) by (by eapply lookup_lt_Some).
  destruct (exists_last Hne) as (q0 & [y dy] & Hq0). assert (Hy : lastid NIL q = y).
  { by rewrite Hq0, lastid_app. }
  assert (Hyin : y ∈ q.*1) by (rewrite Hq0, fmap_app; apply elem_of_app; right; by left).
  destruct (queue_id _ _ _ Hc _ _ _ _ Hq Hyin) as [Hyr _].
  assert (Hxy : Z.to_nat x ≠ Z.to_nat y).
  { intros E. apply Hni. by replace x with y by lia. }
  cbn [tail level_of]. rewrite Hy, decide_False by lia.
  rewrite Hq0 in Hseg, Hnd. destruct (dseg_set_next s t _ NIL q0 y dy NIL x Hnd Hseg) as (nd & Hand & _ & Hs').
  rewrite (upd_slot_self _ s _ _ _ Hand), ret_bind.
  set (a1 := <[Z.to_nat y := _]> (arena b)) in *.
  assert (Ha1 : a1 !! Z.to_nat x = Some (Some (mk_node s t d NIL NIL))).
  { unfold a1. by rewrite list_lookup_insert_ne. }
  rewrite (upd_slot_mkb _ _ _ _ _ _ _ _ Ha1), ret_bind.
  rewrite (upd_level_mkb _ _ _ _ _ _ _ _ Hlv), ret_bind.
  set (a2 := <[Z.to_nat x := _]> a1).
  assert (Ha2 : a2 !! Z.to_nat x = Some (Some (mk_node s t d y NIL))).
  { unfold a2. apply list_lookup_insert_eq. by eapply lookup_lt_Some. }
  rewrite (slot_Ret _ _ _ (eq_trans (f_equal (λ a, a !! _) (proj1 (mkb_fields b s a2 (free b) _))) Ha2)).
  rewrite ret_bind. erewrite upd_level_mkb; [|by apply put_lookup]. rewrite put_put.
  eexists. split; [done|]. split; [|apply mkb_best].
  pose proof (level_of_push q x d) as Hpush. rewrite decide_False in Hpush by done.
  unfold set_tail. cbn [n_qty mk_node head lv_qty]. cbn [head lv_qty] in Hpush. rewrite Hpush.
  eapply (link_core b A s i q x d); [done|done|done|done| | |].
  + split_and!.
    * unfold a2, a1. by rewrite !length_insert.
    * intros z Hz. rewrite fmap_cons, not_elem_of_cons in Hz. simpl in Hz. unfold a2, a1.
      rewrite !list_lookup_insert_ne; [done|..]; intros E; [|destruct Hz; lia].
      destruct Hz as [_ Hz]. apply Hz. by replace (Z.of_nat z) with y by lia.
    * intros z. unfold a2, a1. destruct (decide (z = Z.to_nat x)) as [->|].
      { rewrite list_lookup_insert_eq, Ha by (rewrite length_insert; done). naive_solver. }
      rewrite list_lookup_insert_ne by done. destruct (decide (z = Z.to_nat y)) as [->|].
      { rewrite list_lookup_insert_eq, Hand by (by eapply lookup_lt_Some). naive_solver. }
      by rewrite list_lookup_insert_ne.
  + apply dseg_app. rewrite Hy. split; [|split_and!; [lia|done|done]].
    rewrite Hq0. eapply dseg_frame; [|exact Hs']. intros z Hz. rewrite <- Hq0 in Hz.
    destruct (queue_id _ _ _ Hc _ _ _ _ Hq Hz). unfold a2.
    rewrite list_lookup_insert_ne; [done|]. intros E. apply Hni. by replace x with z by lia.
  + eapply ladder_rep_same; [done|done|]. by destruct q.
Qed.

Lemma link_spec b A s i q x d :
  let t := sh_base A s + Z.of_nat i in
  core b A (Some (Z.to_nat x)) → 0 ≤ x < NIL → sh_qs A s !! i = Some q →
  0 < r_qty d ≤ u64_max → arena b !! Z.to_nat x = Some (Some (mk_node s t d NIL NIL)) →
  ∃ b', link b s i x = Ret b' ∧ core b' (set_q A s i (q ++ [(x, d)])) None ∧
    (∀ s', best b' s' = best b s').
Proof.
  intros t Hc Hx Hq Hd Ha. destruct (decide (q = [])) as [->|Hne].
  - by apply link_spec_nil.
  - by apply link_spec_cons.
Qed.
