(* ===== verification/BookSpec.v ===== *)
(** * The matcher's order book: abstract specification and refinement

    The specification works on one priority-ordered list of resting orders per side.  Each
    concrete operation of [Book], run on a book that represents those lists, returns without
    aborting and represents the lists the specification computes. *)
From S2P Require Import Prelude Ints Types Occupancy Book BookWf BookOps.
Open Scope Z_scope.

(** ** The specification *)

(** A new order queues behind every order of its side at its price or better. *)
Fixpoint insert_entry (s : Side) (e : Entry) (l : list Entry) : list Entry :=
  match l with
  | [] => [e]
  | x :: l' => if decide (better s e.1 x.1) then e :: x :: l' else x :: insert_entry s e l'
  end.

(** Matching against the opposite side, best order first: expired and self-owned orders are removed
    in passing, the others trade at their own tick. *)
Fixpoint spec_match (s : Side) (tick : Tick) (owner : OwnerId) (now : Timestamp) (l : list Entry)
    (qty : Qty) (acc : MatchAcc) : list Entry * Qty * MatchAcc :=
  match l with
  | [] => ([], qty, acc)
  | (t, (x, d)) :: l' =>
      if decide (0 < qty) then
        if crosses s tick t then
          if is_expired now (r_expiry d) then spec_match s tick owner now l' qty (push_expired x acc)
          else if decide (r_owner d = owner) then
            spec_match s tick owner now l' qty (push_self x acc)
          else
            let traded := Z.min qty (r_qty d) in
            let acc' := push_fill {| maker_id := x; maker_owner := r_owner d; f_tick := t;
                                     f_qty := traded; maker_filled := bool_decide (traded = r_qty d);
                                     maker_size_before := r_qty d; taker_size_before := qty |} acc in
            if decide (traded = r_qty d) then spec_match s tick owner now l' (qty - traded) acc'
            else ((t, (x, {| r_qty := r_qty d - traded; r_owner := r_owner d;
                             r_expiry := r_expiry d |})) :: l', qty - traded, acc')
        else (l, qty, acc)
      else (l, qty, acc)
  end.

(** Dropping the expired orders at the front. *)
Fixpoint spec_prune (now : Timestamp) (l : list Entry) (out : list OrderId) :
    list Entry * list OrderId :=
  match l with
  | (t, (x, d)) :: l' =>
      if is_expired now (r_expiry d) then spec_prune now l' (out ++ [x]) else (l, out)
  | [] => ([], out)
  end.

(** Whether a resting order can trade with a taker. *)
Definition eligible (owner : OwnerId) (now : Timestamp) (e : Entry) : Prop :=
  is_expired now (r_expiry e.2.2) = false ∧ r_owner e.2.2 ≠ owner.

#[export] Instance eligible_dec owner now e : Decision (eligible owner now e).
Proof. unfold eligible. apply _. Defined.

(** The quantity a taker could trade: the eligible orders its limit reaches. *)
Definition reachable_qty (s : Side) (tick : Tick) (owner : OwnerId) (now : Timestamp)
    (l : list Entry) : Z :=
  sumZ ((λ e, r_qty e.2.2) <$>
          filter (λ e, crosses s tick e.1 = true ∧ eligible owner now e) l).

Definition acc_empty (expired0 : list OrderId) : MatchAcc :=
  {| acc_fills := []; acc_expired := expired0; acc_self := [] |}.

(** [submit] on the two sides; [x] is the slot a remainder receives. *)
Definition spec_submit (same opp : list Entry) (o : NewOrder) (now : Timestamp) (x : OrderId) :
    SubmitResult * list Entry * list Entry :=
  let s := no_side o in
  let '(opp, expired0) := if post_only o then spec_prune now opp [] else (opp, []) in
  if post_only o && match opp with e :: _ => crosses s (no_tick o) e.1 | [] => false end then
    (mk_result (acc_empty expired0) None 0 true false, same, opp)
  else if bool_decide (no_tif o = FillOrKill) &&
          bool_decide (reachable_qty s (no_tick o) (no_owner o) now opp < no_qty o) then
    (mk_result (acc_empty expired0) None 0 false true, same, opp)
  else
    let '(opp', qty, acc) :=
      spec_match s (no_tick o) (no_owner o) now opp (no_qty o) (acc_empty expired0) in
    if bool_decide (0 < qty) && rests (no_tif o) then
      (mk_result acc (Some x) qty false false,
       insert_entry s (no_tick o, (x, {| r_qty := qty; r_owner := no_owner o;
                                         r_expiry := expiry_of (no_tif o) |})) same, opp')
    else (mk_result acc None 0 false false, same, opp').

(** The distinct ticks of a side, best first. *)
Fixpoint uniq (l : list Tick) : list Tick :=
  match l with
  | [] => []
  | t :: l' => match uniq l' with
               | t' :: r => if decide (t = t') then t' :: r else t :: t' :: r
               | [] => [t]
               end
  end.

(** The aggregate size resting at tick [t], on [u64]. *)
Definition level_qty (l : list Entry) (t : Tick) : Qty :=
  wrapu 64 (sumZ ((λ e, r_qty e.2.2) <$> filter (λ e, e.1 = t) l)).

Fixpoint spec_depth (ts : list Tick) (l : list Entry) (cum : Qty) : list PriceLevel :=
  match ts with
  | [] => []
  | t :: ts' =>
      let cum' := u64_add cum (level_qty l t) in
      {| pl_tick := t; pl_qty := level_qty l t; cumulative := cum' |} :: spec_depth ts' l cum'
  end.

Definition ids (l : list Entry) : list Z := (λ e, e.2.1) <$> l.

(** The orders of a level, following the [next] links from [cur]. *)
Fixpoint walk (fuel : nat) (a : list (option OrderNode)) (cur : Z) : list (Z * Resting) :=
  match fuel with
  | O => []
  | S fuel' =>
      if decide (cur = NIL) then []
      else match a !! Z.to_nat cur with
           | Some (Some nd) =>
               (cur, {| r_qty := n_qty nd; r_owner := n_owner nd; r_expiry := n_expiry nd |})
                 :: walk fuel' a (n_next nd)
           | _ => []
           end
  end.

(** The resting orders of a side, best price first, arrival order within a price. *)
Definition resting (b : OrderBook) (s : Side) : list Entry :=
  let l := ladder b s in
  let per_level := imap (λ i lv, tag (base_tick l + Z.of_nat i)
                                   (walk (S (length (arena b))) (arena b) (head lv))) (levels l) in
  mjoin (match s with Long => reverse per_level | Short => per_level end).

(** How many levels can still follow the one at tick [t]. *)
Definition levels_left (A : shape) (s : Side) (t : Tick) : Z :=
  match s with
  | Long => t - sh_base A s
  | Short => sh_base A s + Z.of_nat (length (sh_qs A s)) - 1 - t
  end.

(** The quantity level [t] offers a taker. *)
Definition eligible_sum (owner : OwnerId) (now : Timestamp) (q : list (Z * Resting)) (t : Tick) : Z :=
  sumZ ((λ e : Entry, r_qty e.2.2) <$> filter (eligible owner now) (tag t q)).

(** Enough has been found, or everything has been counted exactly. *)
Definition counted (needed total S : Z) (r : Qty + Qty) : Prop :=
  match r with inl v => needed ≤ v ∧ needed ≤ total + S | inr v => v = total + S end.

(** Every resting order has a quantity. *)
Definition positive (l : list Entry) : Prop := Forall (λ e, 0 < r_qty e.2.2 ≤ u64_max) l.

(** What a fill reports of the maker [l] held when matching started. *)
Definition fill_ok (s : Side) (tick : Tick) (owner : OwnerId) (now : Timestamp) (l : list Entry)
    (f : Fill) : Prop :=
  ∃ d, (f_tick f, (maker_id f, d)) ∈ l ∧ crosses s tick (f_tick f) = true ∧
    is_expired now (r_expiry d) = false ∧ r_owner d ≠ owner ∧ maker_owner f = r_owner d ∧
    maker_size_before f = r_qty d ∧ 0 < f_qty f ≤ r_qty d ∧ f_qty f ≤ taker_size_before f ∧
    maker_filled f = bool_decide (f_qty f = r_qty d).

(** ** Ids are unique *)

Lemma NoDup_mjoin {B} (ls : list (list B)) :
  (∀ i l, ls !! i = Some l → NoDup l) →
  (∀ i j l l' x, ls !! i = Some l → ls !! j = Some l' → x ∈ l → x ∈ l' → i = j) →
  NoDup (mjoin ls).
Proof.
  induction ls as [|l ls IH]; intros Hnd Hdis; [constructor|]. simpl. apply NoDup_app. split_and!.
  - by apply (Hnd 0%nat).
  - intros x Hx (l' & Hx' & [j Hj]%list_elem_of_lookup)%list_elem_of_join.
    specialize (Hdis 0%nat (S j) l l' x eq_refl Hj Hx Hx'). done.
  - apply IH; [intros i l'; apply (Hnd (S i))|].
    intros i j l1 l2 x H1 H2 Hx1 Hx2.
    specialize (Hdis (S i) (S j) l1 l2 x H1 H2 Hx1 Hx2). by injection Hdis.
Qed.

Lemma flat_ids A s : ids (flat A s) ≡ₚ mjoin ((λ q : list (Z * Resting), q.*1) <$> sh_qs A s).
Proof.
  assert (H : ids (mjoin (tagged A s)) = mjoin ((λ q : list (Z * Resting), q.*1) <$> sh_qs A s)).
  { unfold tagged. generalize (sh_base A s). generalize (sh_qs A s) as qs.
    assert (Hgen : ∀ qs (g : nat → Z), ids (mjoin (imap (λ i q, tag (g i) q) qs)) =
              mjoin ((λ q : list (Z * Resting), q.*1) <$> qs)).
    { induction qs as [|q qs IH]; intros g; [done|]. simpl. unfold ids in *. rewrite fmap_app.
      f_equal; [unfold tag; by rewrite <- list_fmap_compose|]. apply (IH (λ i, g (S i))). }
    intros qs base. apply (Hgen qs (λ i, base + Z.of_nat i)). }
  rewrite <- H. destruct s; simpl; [|done]. unfold ids. apply fmap_Permutation.
  generalize (tagged A Long) as l. intros l.
  induction l as [|x l IH]; [done|]. rewrite reverse_cons, join_app, IH. simpl.
  rewrite app_nil_r. apply Permutation_app_comm.
Qed.

Lemma flat_NoDup b A pend s : core b A pend → NoDup (ids (flat A s)).
Proof.
  intros Hc. rewrite flat_ids. apply NoDup_mjoin.
  - intros i l Hl. apply list_lookup_fmap_Some in Hl as (q & -> & Hq).
    apply (ic_seg _ _ _ Hc _ _ _ Hq).
  - intros i j l l' x Hl Hl' Hx Hx'.
    apply list_lookup_fmap_Some in Hl as (q & -> & Hq). apply list_lookup_fmap_Some in Hl' as (q' & -> & Hq').
    by destruct (queue_disjoint _ _ _ Hc _ _ _ _ _ _ _ Hq Hq' Hx Hx').
Qed.

Lemma flat_length b A pend s : core b A pend → (length (flat A s) ≤ length (arena b))%nat.
Proof.
  intros Hc. pose proof (flat_NoDup _ _ _ s Hc) as Hnd.
  assert (Hnd' : NoDup (Z.to_nat <$> ids (flat A s))).
  { apply NoDup_fmap_2_strong; [|done]. intros x y Hx Hy E.
    assert (∀ z, z ∈ ids (flat A s) → 0 ≤ z) as Hpos; [|apply Hpos in Hx, Hy; lia].
    intros z Hz. rewrite flat_ids in Hz. apply list_elem_of_join in Hz as (l & Hz & Hl).
    apply list_elem_of_fmap in Hl as (q & -> & [i Hq]%list_elem_of_lookup).
    destruct (queue_id _ _ _ Hc _ _ _ _ Hq Hz) as [[? _] _]. done. }
  replace (length (flat A s)) with (length (Z.to_nat <$> ids (flat A s)))
    by (unfold ids; by rewrite !length_fmap).
  pose proof (length_seq (length (arena b)) 0) as E. rewrite <- E.
  apply submseteq_length, NoDup_submseteq; [done|].
  intros n (x & -> & Hx)%list_elem_of_fmap. rewrite flat_ids in Hx.
  apply list_elem_of_join in Hx as (l & Hx & Hl).
  apply list_elem_of_fmap in Hl as (q & -> & [i Hq]%list_elem_of_lookup).
  destruct (queue_id _ _ _ Hc _ _ _ _ Hq Hx) as (_ & d & Hd).
  destruct (queue_elem _ _ _ Hc _ _ _ _ _ Hq Hd) as (_ & p & n & Ha).
  apply lookup_lt_Some in Ha. apply elem_of_seq. lia.
Qed.

(** ** What matching reports *)

Lemma flat_positive b A pend s : core b A pend → positive (flat A s).
Proof.
  intros Hc. apply Forall_forall. intros [t [x d]] (i & q & Hq & _ & Hin)%elem_of_flat.
  destruct (ic_seg _ _ _ Hc _ _ _ Hq) as [_ [_ Hall]].
  rewrite Forall_forall in Hall. apply (Hall _ Hin).
Qed.

Lemma fill_ok_cons s tick owner now e l f :
  fill_ok s tick owner now l f → fill_ok s tick owner now (e :: l) f.
Proof. intros (d & ? & ?). exists d. split; [by right|done]. Qed.

(** Matching only appends to the accumulator; the fills' sizes add up to the quantity taken. *)
Lemma spec_match_fills s tick owner now l qty acc l' qty' acc' :
  positive l → 0 ≤ qty → spec_match s tick owner now l qty acc = (l', qty', acc') →
  0 ≤ qty' ≤ qty ∧ positive l' ∧
  ∃ fs, acc_fills acc' = acc_fills acc ++ fs ∧ sumZ (f_qty <$> fs) = qty - qty' ∧
    Forall (fill_ok s tick owner now l) fs.
Proof.
  unfold positive at 1. intros Hpos. revert qty acc. induction Hpos as [|[t [x d]] l Hd Hl IH]; intros qty acc Hq Hm; simpl in Hm.
  { simplify_eq. split; [lia|]. split; [constructor|]. exists []. rewrite app_nil_r.
    split_and!; [done|simpl; lia|constructor]. }
  simpl in Hd. assert (Hstop : ((t, (x, d)) :: l, qty, acc) = (l', qty', acc') → 0 ≤ qty' ≤ qty ∧ positive l' ∧
    ∃ fs, acc_fills acc' = acc_fills acc ++ fs ∧ sumZ (f_qty <$> fs) = qty - qty' ∧
      Forall (fill_ok s tick owner now ((t, (x, d)) :: l)) fs).
  { intros [= <- <- <-]. split; [lia|]. split; [by constructor|]. exists []. rewrite app_nil_r.
    split_and!; [done|simpl; lia|constructor]. }
  assert (Hskip : ∀ acc0, acc_fills acc0 = acc_fills acc →
    spec_match s tick owner now l qty acc0 = (l', qty', acc') → 0 ≤ qty' ≤ qty ∧ positive l' ∧
    ∃ fs, acc_fills acc' = acc_fills acc ++ fs ∧ sumZ (f_qty <$> fs) = qty - qty' ∧
      Forall (fill_ok s tick owner now ((t, (x, d)) :: l)) fs).
  { intros acc0 E Hm0. destruct (IH qty acc0 Hq Hm0) as (? & ? & fs & Hfs & ? & Hall).
    split; [done|]. split; [done|]. exists fs. split_and!; [by rewrite Hfs, E|done|].
    eapply Forall_impl; [exact Hall|]. intros f. apply fill_ok_cons. }
  case_decide as Hqp; [|by apply Hstop]. destruct (crosses s tick t) eqn:Hcr; [|by apply Hstop].
  destruct (is_expired now (r_expiry d)) eqn:Hex; [by apply (Hskip (push_expired x acc))|].
  case_decide as Ho; [by apply (Hskip (push_self x acc))|].
  set (f := {| maker_id := x; maker_owner := _; f_tick := _; f_qty := _; maker_filled := _;
               maker_size_before := _; taker_size_before := _ |}) in *.
  assert (Hf : fill_ok s tick owner now ((t, (x, d)) :: l) f).
  { exists d. split; [by left|]. simpl. split_and!; try done; lia. }
  case_decide as Hfull.
  - apply IH in Hm as (Hr & Hl' & fs & Hfs & Hsum & Hall); [|lia]. split; [lia|]. split; [done|].
    exists (f :: fs). split_and!.
    + rewrite Hfs. simpl. by rewrite <- app_assoc.
    + rewrite fmap_cons. simpl. lia.
    + constructor; [done|]. eapply Forall_impl; [exact Hall|]. intros f'. apply fill_ok_cons.
  - simplify_eq. split; [lia|]. split; [constructor; [simpl; lia|done]|].
    exists [f]. split_and!; [done|simpl; lia|by repeat constructor].
Qed.
