(* ===== verification/BookRefine.v ===== *)
(** * The matcher's order book: the operations refine their specification

    Each loop of [Book] is simulated by its specification in [BookSpec], one resting order at a
    time; the fuel given to each loop is shown to be enough. *)
From S2P Require Import Prelude Ints Types Occupancy Book BookWf BookOps BookSpec.
Open Scope Z_scope.

(** ** The best order of a side *)

Section head.
Context (b : OrderBook) (A : shape) (Hinv : inv b A).

Lemma head_read s t x d rest :
  flat A s = (t, (x, d)) :: rest →
  ∃ i q f2 n, sh_qs A s !! i = Some ((x, d) :: q) ∧ t = sh_base A s + Z.of_nat i ∧
    best b s = Some t ∧ index_of (ladder b s) t = Some i ∧
    level (ladder b s) i = Ret (level_of ((x, d) :: q)) ∧
    slot b x = Ret (mk_node s t d NIL n) ∧
    rest = tag t q ++ f2 ∧ Forall (λ e, better s t e.1) f2 ∧
    (∀ q', flat (set_q A s i q') s = tag t q' ++ f2).
Proof.
  destruct Hinv as [Hc Hb]. intros Hf.
  destruct (flat_head A s t x d rest Hf) as (i & q & f2 & Hq & Ht & Hrest & Hf2 & Hset).
  pose proof (lookup_lt_Some _ _ _ Hq) as Hi. pose proof (ic_lad _ _ _ Hc s) as Hl.
  destruct (ic_seg _ _ _ Hc _ _ _ Hq) as [(_ & Hx & _) _].
  exists i, q, f2, (hdid NIL q). split_and!; try done.
  - rewrite Hb, Hf. done.
  - rewrite Ht. by apply (index_of_rep _ _ _ _ Hl).
  - by apply (level_rep _ _ _ _ _ Hl).
  - rewrite Ht. by apply slot_Ret.
Qed.
End head.

(** After the best level lost or reduced its first order, the cached best tick is restored. *)
Lemma advance_if_empty_spec b A s i q f2 :
  let t := sh_base A s + Z.of_nat i in
  core b A None → sh_qs A s !! i = Some q → flat A s = tag t q ++ f2 →
  Forall (λ e, better s t e.1) f2 → best b s = Some t →
  (∀ s', s' ≠ s → best b s' = first_tick (flat A s')) →
  ∃ b', advance_if_empty b s t i = Ret b' ∧ inv b' A ∧ arena b' = arena b.
Proof.
  intros t Hc Hq Hf Hf2 Hbest Hoth. pose proof (lookup_lt_Some _ _ _ Hq) as Hi.
  unfold advance_if_empty. rewrite (level_rep _ _ _ _ _ (ic_lad _ _ _ Hc s) Hq), ret_bind.
  rewrite (level_empty _ _ _ Hc _ _ _ Hq). case_bool_decide as He.
  - subst q. simpl in Hf.
    destruct (advance_spec b A s i Hc Hi) as (b' & Hadv & Hc' & Hb' & Ho' & Ha');
      [by rewrite Hf|]. fold t in Hadv. rewrite Hadv.
    exists b'. split_and!; [done| |done]. split; [done|]. intros s'.
    destruct (decide (s' = s)) as [->|Hs]; [done|]. by rewrite Ho', Hoth.
  - exists b. split_and!; [done| |done]. split; [done|]. intros s'.
    destruct (decide (s' = s)) as [->|Hs]; [|by apply Hoth].
    rewrite Hbest, Hf. by destruct q as [|[x d] q].
Qed.

(** Dropping the best order of a side. *)
Lemma head_drop b A s t x d rest i q f2 :
  inv b A → sh_qs A s !! i = Some ((x, d) :: q) → t = sh_base A s + Z.of_nat i →
  flat A s = (t, (x, d)) :: rest → rest = tag t q ++ f2 → Forall (λ e, better s t e.1) f2 →
  (∀ q', flat (set_q A s i q') s = tag t q' ++ f2) →
  ∃ b1 nd b2 A', unlink b x = Ret (b1, nd) ∧ advance_if_empty b1 s t i = Ret b2 ∧ inv b2 A' ∧
    flat A' s = rest ∧ (∀ s', s' ≠ s → flat A' s' = flat A s') ∧
    length (arena b2) = length (arena b).
Proof.
  intros [Hc Hb] Hq -> Hf Hrest Hf2 Hset. set (t := sh_base A s + Z.of_nat i) in *.
  destruct (unlink_spec b A s i [] x d q Hc Hq) as (b1 & p & n & Hun & Hc1 & Hb1 & Hlen).
  simpl app in Hc1. set (A1 := set_q A s i q) in *.
  assert (HA1 : sh_base A1 s = sh_base A s) by apply set_q_base.
  assert (Hoth : ∀ s', s' ≠ s → flat A1 s' = flat A s') by (intros; by apply flat_set_q_other).
  destruct (advance_if_empty_spec b1 A1 s i q f2) as (b2 & Hadv & Hinv & Ha).
  - done.
  - unfold A1. rewrite set_q_lookup, decide_True; [done|]. split_and!; [done|done|].
    by eapply lookup_lt_Some.
  - rewrite HA1. apply Hset.
  - by rewrite HA1.
  - rewrite HA1, Hb1, Hb, Hf. done.
  - intros s' Hs. by rewrite Hb1, Hb, Hoth.
  - rewrite HA1 in Hadv. fold t in Hadv. exists b1, (mk_node s t d p n), b2, A1.
    split_and!; [done|done|done| |done|by rewrite Ha]. rewrite Hrest. apply Hset.
Qed.

(** Reducing the best order of a side. *)
Lemma head_reduce b A s t x d rest i q f2 tr :
  inv b A → sh_qs A s !! i = Some ((x, d) :: q) → t = sh_base A s + Z.of_nat i →
  flat A s = (t, (x, d)) :: rest → rest = tag t q ++ f2 → Forall (λ e, better s t e.1) f2 →
  (∀ q', flat (set_q A s i q') s = tag t q' ++ f2) → 0 < tr < r_qty d →
  ∃ b1 b2 A', (b ← upd_slot b x (sub_node_qty tr); upd_level b s i (sub_qty tr)) = Ret b1 ∧
    advance_if_empty b1 s t i = Ret b2 ∧ inv b2 A' ∧
    flat A' s = (t, (x, {| r_qty := r_qty d - tr; r_owner := r_owner d;
                           r_expiry := r_expiry d |})) :: rest ∧
    (∀ s', s' ≠ s → flat A' s' = flat A s') ∧ length (arena b2) = length (arena b).
Proof.
  intros [Hc Hb] Hq -> Hf Hrest Hf2 Hset Htr. set (t := sh_base A s + Z.of_nat i) in *.
  destruct (reduce_spec b A s i x d q tr Hc Hq Htr) as (b1 & Hred & Hc1 & Hb1 & Hlen).
  set (d' := {| r_qty := r_qty d - tr; r_owner := _; r_expiry := _ |}) in *.
  set (A1 := set_q A s i ((x, d') :: q)) in *.
  assert (HA1 : sh_base A1 s = sh_base A s) by apply set_q_base.
  assert (Hoth : ∀ s', s' ≠ s → flat A1 s' = flat A s') by (intros; by apply flat_set_q_other).
  destruct (advance_if_empty_spec b1 A1 s i ((x, d') :: q) f2) as (b2 & Hadv & Hinv & Ha).
  - done.
  - unfold A1. rewrite set_q_lookup, decide_True; [done|]. split_and!; [done|done|].
    by eapply lookup_lt_Some.
  - rewrite HA1. apply Hset.
  - by rewrite HA1.
  - rewrite HA1, Hb1, Hb, Hf. done.
  - intros s' Hs. by rewrite Hb1, Hb, Hoth.
  - rewrite HA1 in Hadv. fold t in Hadv. exists b1, b2, A1.
    split_and!; [done|done|done| |done|by rewrite Ha]. rewrite Hrest. apply Hset.
Qed.

(** ** Lazy expiry *)

Lemma prune_loop_spec fuel b A s now out :
  inv b A → (length (flat A s) < fuel)%nat →
  ∃ b' A', prune_loop fuel b s now out = Ret (b', (spec_prune now (flat A s) out).2) ∧ inv b' A' ∧
    flat A' s = (spec_prune now (flat A s) out).1 ∧ (∀ s', s' ≠ s → flat A' s' = flat A s') ∧
    length (arena b') = length (arena b).
Proof.
  revert b A out. induction fuel as [|fuel IH]; intros b A out Hinv Hlen; [lia|]. simpl.
  destruct (flat A s) as [|[t [x d]] rest] eqn:Hf.
  { rewrite (inv_best _ _ Hinv), Hf. simpl. exists b, A. by rewrite Hf. }
  destruct (head_read b A Hinv s t x d rest Hf)
    as (i & q & f2 & n & Hq & Ht & Hbest & Hidx & Hlv & Hslot & Hrest & Hf2 & Hset).
  rewrite Hbest, Hidx. simpl expect. rewrite ret_bind, Hlv, ret_bind. cbn [head level_of hdid].
  rewrite Hslot, ret_bind. cbn [n_expiry mk_node]. simpl spec_prune.
  destruct (is_expired now (r_expiry d)); [|exists b, A; by rewrite Hf].
  destruct (head_drop b A s t x d rest i q f2 Hinv Hq Ht Hf Hrest Hf2 Hset)
    as (b1 & nd & b2 & A2 & -> & Hadv & Hinv2 & Hfl2 & Hoth2 & Hl2).
  rewrite ret_bind, Hadv, ret_bind.
  destruct (IH b2 A2 (out ++ [x]) Hinv2) as (b' & A' & Hrun & Hinv' & Hfl & Hoth & Hl).
  { rewrite Hfl2. simpl in Hlen. lia. }
  rewrite Hfl2 in *. exists b', A'. split_and!; [done..| |by rewrite Hl].
  intros s' Hs. by rewrite Hoth, Hoth2.
Qed.

(** ** Matching *)

Lemma flat_qty b A pend s t x d rest :
  core b A pend → flat A s = (t, (x, d)) :: rest → 0 < r_qty d ≤ u64_max.
Proof.
  intros Hc Hf. assert (Hin : (t, (x, d)) ∈ flat A s) by (rewrite Hf; by left).
  apply elem_of_flat in Hin as (i & q & Hq & _ & Hxd). simpl in Hxd.
  destruct (ic_seg _ _ _ Hc _ _ _ Hq) as [_ [_ Hall]]. rewrite Forall_forall in Hall.
  by apply (Hall (x, d)).
Qed.

Lemma match_loop_spec fuel b A s tick owner now qty acc :
  inv b A → (length (flat A (opposite_side s)) + 1 < fuel)%nat →
  let '(l', qty', acc') := spec_match s tick owner now (flat A (opposite_side s)) qty acc in
  ∃ b' A', match_loop fuel b s tick owner now qty acc = Ret (b', qty', acc') ∧ inv b' A' ∧
    flat A' (opposite_side s) = l' ∧ flat A' s = flat A s ∧ length (arena b') = length (arena b).
Proof.
  revert b A qty acc. induction fuel as [|fuel IH]; intros b A qty acc Hinv Hlen; [lia|].
  set (opp := opposite_side s) in *. simpl match_loop. fold opp.
  destruct (flat A opp) as [|[t [x d]] rest] eqn:Hf; simpl spec_match.
  { exists b, A. rewrite (inv_best _ _ Hinv), Hf. simpl. by case_decide. }
  destruct (decide (0 < qty)) as [Hpos|Hpos]; [|by exists b, A].
  destruct (head_read b A Hinv opp t x d rest Hf)
    as (i & q & f2 & n & Hq & Ht & Hbest & Hidx & Hlv & Hslot & Hrest & Hf2 & Hset).
  rewrite Hbest. destruct (crosses s tick t) eqn:Hcr; [|by exists b, A].
  rewrite Hidx. simpl expect. rewrite ret_bind, Hlv, ret_bind. cbn [head level_of hdid].
  rewrite Hslot, ret_bind. cbn [n_expiry n_owner n_qty mk_node].
  pose proof (flat_qty _ _ _ _ _ _ _ _ (inv_core _ _ Hinv) Hf) as Hqd.
  assert (Hsame : ∀ b' A', inv b' A' → flat A' opp = rest → (∀ s', s' ≠ opp → flat A' s' = flat A s') →
    length (arena b') = length (arena b) → ∀ qty acc,
    let '(l', qty', acc') := spec_match s tick owner now rest qty acc in
    ∃ b'' A'', match_loop fuel b' s tick owner now qty acc = Ret (b'', qty', acc') ∧ inv b'' A'' ∧
      flat A'' opp = l' ∧ flat A'' s = flat A s ∧ length (arena b'') = length (arena b)).
  { intros b' A' Hinv' Hfl' Hoth' Hlen' qty0 acc0. specialize (IH b' A' qty0 acc0 Hinv').
    fold opp in IH. rewrite Hfl' in IH. specialize (IH ltac:(simpl in Hlen; lia)).
    destruct (spec_match _ _ _ _ rest qty0 acc0) as [[l' qty'] acc'].
    destruct IH as (b'' & A'' & ? & ? & ? & Hs & ?). exists b'', A''. split_and!; [done..| |congruence].
    rewrite Hs. apply Hoth'. intros E. symmetry in E. by apply (opposite_ne s). }
  destruct (head_drop b A opp t x d rest i q f2 Hinv Hq Ht Hf Hrest Hf2 Hset)
    as (b1 & nd & b2 & A2 & Hun & Hadv & Hinv2 & Hfl2 & Hoth2 & Hl2).
  destruct (is_expired now (r_expiry d)).
  { simpl orb. cbv iota. rewrite Hun, ret_bind. cbv iota beta. rewrite Hadv, ret_bind.
    by apply (Hsame b2 A2). }
  destruct (decide (r_owner d = owner)) as [Ho|Ho].
  { rewrite bool_decide_eq_true_2 by done. simpl orb. cbv iota. rewrite Hun, ret_bind.
    cbv iota beta. rewrite Hadv, ret_bind. by apply (Hsame b2 A2). }
  rewrite (bool_decide_eq_false_2 (r_owner d = owner)) by done. simpl orb. cbv iota.
  destruct (decide (Z.min qty (r_qty d) = r_qty d)) as [Hfull|Hpart].
  - rewrite bool_decide_eq_true_2 by done. rewrite Hun. rewrite !ret_bind. cbv iota beta.
    rewrite Hadv, ret_bind. by apply (Hsame b2 A2).
  - rewrite bool_decide_eq_false_2 by done.
    destruct (head_reduce b A opp t x d rest i q f2 (Z.min qty (r_qty d)) Hinv Hq Ht Hf Hrest Hf2 Hset)
      as (b3 & b4 & A4 & Hred & Hadv4 & Hinv4 & Hfl4 & Hoth4 & Hl4); [lia|].
    rewrite Hred, ret_bind, Hadv4, ret_bind. exists b4, A4.
    assert (Hstop : ∀ acc, match_loop fuel b4 s tick owner now (qty - Z.min qty (r_qty d)) acc =
                             Ret (b4, qty - Z.min qty (r_qty d), acc)).
    { intros acc0. destruct fuel; [simpl in Hlen; lia|]. simpl. by rewrite decide_False by lia. }
    rewrite Hstop. split_and!; [done..| |done].
    apply Hoth4. intros E. symmetry in E. by apply (opposite_ne s).
Qed.

(** ** Walking a side level by level *)

Lemma prefix_unique {B} (P : B → Prop) `{∀ x, Decision (P x)} (l1 l2 l1' l2' : list B) :
  Forall P l1 → Forall (λ x, ¬ P x) l2 → Forall P l1' → Forall (λ x, ¬ P x) l2' →
  l1 ++ l2 = l1' ++ l2' → l1 = l1' ∧ l2 = l2'.
Proof.
  intros H1 H2 H1' H2' Heq. assert (l1 = l1') as <-.
  { apply (f_equal (filter P)) in Heq. rewrite !filter_app in Heq.
    by rewrite (filter_all P l1), (filter_all P l1'), (filter_none P l2), (filter_none P l2'),
      !app_nil_r in Heq. }
  split; [done|]. by apply app_inv_head in Heq.
Qed.

(** The level that holds entry [e], read off the flat view. *)
Lemma level_view b A pend s f1 e f2 :
  core b A pend → flat A s = f1 ++ e :: f2 → Forall (λ e', better s e'.1 e.1) f1 →
  ∃ i q f3 r, sh_qs A s !! i = Some q ∧ e.1 = sh_base A s + Z.of_nat i ∧ q ≠ [] ∧
    e :: f2 = tag e.1 q ++ f3 ∧ Forall (λ e', better s e.1 e'.1) f3 ∧
    index_of (ladder b s) e.1 = Some i ∧ level (ladder b s) i = Ret (level_of q) ∧
    next_worse_level (ladder b s) s i = Ret r ∧ tick_at (ladder b s) <$> r = first_tick f3.
Proof.
  intros Hc Hf Hf1. assert (Hin : e ∈ flat A s) by (rewrite Hf; set_solver).
  apply elem_of_flat in Hin as (i & q & Hq & He & Hqe).
  destruct (flat_split A s i q Hq) as (g1 & g3 & Hg & _ & Hg1 & Hg3). rewrite <- He in *.
  pose proof (lookup_lt_Some _ _ _ Hq) as Hi. pose proof (ic_lad _ _ _ Hc s) as Hl.
  destruct (prefix_unique (λ e', better s e'.1 e.1) f1 (e :: f2) g1 (tag e.1 q ++ g3)) as [<- E].
  - done.
  - constructor; [apply better_irrefl|]. apply Forall_forall. intros e' He'.
    by apply (flat_sorted_app A s f1 e f2).
  - done.
  - apply Forall_app. split.
    + apply Forall_forall. intros e' [-> _]%elem_of_tag. apply better_irrefl.
    + eapply Forall_impl; [exact Hg3|]. intros e' Hb Hb'. apply (better_irrefl s e.1).
      exact (better_trans _ _ _ _ Hb Hb').
  - by rewrite <- Hf.
  - destruct (next_worse_flat b A pend s i (f1 ++ tag e.1 q) g3 Hc Hi) as (r & Hr & Htr).
    + by rewrite <- app_assoc.
    + rewrite <- He. apply Forall_app. split.
      * eapply Forall_impl; [exact Hf1|]. intros e' Hb Hb'. apply (better_irrefl s e.1).
        exact (better_trans _ _ _ _ Hb' Hb).
      * apply Forall_forall. intros e' [-> _]%elem_of_tag. apply better_irrefl.
    + by rewrite <- He.
    + exists i, q, g3, r. split_and!; try done.
      * intros ->. by apply elem_of_nil in Hqe.
      * rewrite He. by apply (index_of_rep _ _ _ _ Hl).
      * by apply (level_rep _ _ _ _ _ Hl).
Qed.

(** ** What a fill-or-kill order could trade *)

Lemma eligible_sum_cons owner now x d q t :
  eligible_sum owner now ((x, d) :: q) t =
    (if decide (eligible owner now (t, (x, d))) then r_qty d else 0) + eligible_sum owner now q t.
Proof.
  unfold eligible_sum. change (tag t ((x, d) :: q)) with ((t, (x, d)) :: tag t q).
  rewrite filter_cons. by case_decide.
Qed.

Lemma eligible_sum_nonneg owner now q t :
  Forall (λ e : Z * Resting, 0 < r_qty e.2 ≤ u64_max) q → 0 ≤ eligible_sum owner now q t.
Proof.
  intros Hq. apply sumZ_nonneg, Forall_fmap, Forall_filter, Forall_fmap.
  eapply Forall_impl; [exact Hq|]. intros [x d]. simpl. lia.
Qed.

Lemma available_level_spec fuel b s t owner now needed p q total :
  dseg (arena b) s t p q NIL → Forall (λ e : Z * Resting, e.1 ≠ NIL) q →
  Forall (λ e : Z * Resting, 0 < r_qty e.2 ≤ u64_max) q → (length q < fuel)%nat →
  0 ≤ total → needed ≤ u64_max →
  ∃ r, available_level fuel b owner now needed (hdid NIL q) total = Ret r ∧
    counted needed total (eligible_sum owner now q t) r.
Proof.
  revert p q total. induction fuel as [|fuel IH]; intros p q total Hseg Hid Hqs Hlen H0 Hneed; [lia|].
  simpl. destruct q as [|[x d] q].
  { simpl hdid. rewrite decide_True by done. eexists. split; [done|]. simpl.
    unfold eligible_sum. simpl. lia. }
  destruct Hseg as (Hx0 & Hx & Hseg). apply Forall_cons in Hid as [Hxn Hid].
  pose proof Hqs as [Hd Hqs']%Forall_cons. simpl in Hxn, Hd, Hlen.
  simpl hdid. rewrite decide_False by done. rewrite (slot_Ret _ _ _ Hx), ret_bind.
  cbn [n_expiry n_owner n_qty n_next mk_node]. rewrite eligible_sum_cons.
  pose proof (eligible_sum_nonneg owner now q t Hqs') as Hpos.
  assert (Hel : negb (is_expired now (r_expiry d)) && bool_decide (r_owner d ≠ owner) =
                bool_decide (eligible owner now (t, (x, d)))).
  { unfold eligible. simpl. apply eq_bool_prop_intro.
    rewrite bool_decide_spec, Is_true_true, andb_true_iff, negb_true_iff, bool_decide_eq_true. done. }
  rewrite Hel. clear Hel. destruct (decide (eligible owner now (t, (x, d)))) as [He|He];
    [rewrite bool_decide_eq_true_2 by done|rewrite bool_decide_eq_false_2 by done].
  - unfold sat_u. cbv zeta iota.
    destruct (decide (needed ≤ Z.max 0 (Z.min (total + r_qty d) (2 ^ 64 - 1)))) as [Hen|Hen].
    + eexists. split; [done|]. simpl. unfold u64_max in *. lia.
    + destruct (IH x q (Z.max 0 (Z.min (total + r_qty d) (2 ^ 64 - 1)))) as (r & -> & Hr);
        [done|done|done|lia|lia|done|].
      exists r. split; [done|]. unfold counted in *. unfold u64_max in *. destruct r; lia.
  - destruct (IH x q total) as (r & -> & Hr); [done|done|done|lia|done|done|].
    exists r. split; [done|]. unfold counted in *. destruct r; lia.
Qed.

Lemma crosses_worse s tick t t' :
  crosses s tick t = false → ¬ better (opposite_side s) t' t → crosses s tick t' = false.
Proof. destruct s; simpl; rewrite !bool_decide_eq_false; lia. Qed.

Lemma reachable_qty_app s tick owner now l1 l2 :
  reachable_qty s tick owner now (l1 ++ l2) =
    reachable_qty s tick owner now l1 + reachable_qty s tick owner now l2.
Proof. unfold reachable_qty. by rewrite filter_app, fmap_app, sumZ_app. Qed.

Lemma reachable_qty_level s tick owner now t q :
  crosses s tick t = true →
  reachable_qty s tick owner now (tag t q) = eligible_sum owner now q t.
Proof.
  intros Hc. unfold reachable_qty, eligible_sum. do 2 f_equal.
  apply filter_ext_in. intros e [-> _]%elem_of_tag. rewrite Hc. naive_solver.
Qed.

Lemma reachable_qty_none s tick owner now l :
  Forall (λ e : Entry, crosses s tick e.1 = false) l → reachable_qty s tick owner now l = 0.
Proof.
  intros Hl. unfold reachable_qty. rewrite filter_none; [done|].
  eapply Forall_impl; [exact Hl|]. intros e He [Hc _]. congruence.
Qed.

Lemma levels_left_better A s t t' : better s t t' → levels_left A s t' < levels_left A s t.
Proof. destruct s; simpl; lia. Qed.

Lemma levels_left_range A s t i :
  t = sh_base A s + Z.of_nat i → (i < length (sh_qs A s))%nat →
  0 ≤ levels_left A s t < Z.of_nat (length (sh_qs A s)).
Proof. intros -> Hi. destruct s; simpl; lia. Qed.

Lemma available_loop_S fuel b s tick needed owner now level_tick total :
  available_loop (S fuel) b s tick needed owner now level_tick total =
    match level_tick with
    | None => Ret total
    | Some lt =>
        if crosses s tick lt then
          let l := ladder b (opposite_side s) in
          match index_of l lt with
          | None => Ret total
          | Some level_idx =>
              lv ← level l level_idx;
              r ← available_level (S (length (arena b))) b owner now needed (head lv) total;
              match r with
              | inl total' => Ret total'
              | inr total' =>
                  next ← next_worse_level l (opposite_side s) level_idx;
                  available_loop fuel b s tick needed owner now (tick_at l <$> next) total'
              end
          end
        else Ret total
    end.
Proof. done. Qed.

Lemma available_loop_spec fuel b A s tick needed owner now f1 f2 total :
  let opp := opposite_side s in
  inv b A → flat A opp = f1 ++ f2 →
  match f2 with
  | [] => (0 < fuel)%nat
  | e :: _ => Forall (λ e', better opp e'.1 e.1) f1 ∧ levels_left A opp e.1 < Z.of_nat fuel - 1
  end →
  0 ≤ total → needed ≤ u64_max →
  ∃ v, available_loop fuel b s tick needed owner now (first_tick f2) total = Ret v ∧
    (v < needed ↔ total + reachable_qty s tick owner now f2 < needed).
Proof.
  intros opp Hinv. revert f1 f2 total. induction fuel as [|fuel IH]; intros f1 f2 total Hf Hfuel H0 Hneed.
  { exfalso. destruct f2 as [|e f2]; [lia|]. destruct Hfuel as [Hf1 Hl].
    destruct (level_view _ _ _ _ _ _ _ (inv_core _ _ Hinv) Hf Hf1) as (i & q & _ & _ & Hq & He & _).
    pose proof (levels_left_range A opp e.1 i He (lookup_lt_Some _ _ _ Hq)). lia. }
  rewrite available_loop_S. fold opp. cbv zeta. destruct f2 as [|e f2].
  { exists total. split; [done|]. unfold reachable_qty. simpl. by rewrite Z.add_0_r. }
  destruct Hfuel as [Hf1 Hfuel]. change (first_tick (e :: f2)) with (Some e.1). cbv iota.
  destruct (level_view _ _ _ _ _ _ _ (inv_core _ _ Hinv) Hf Hf1)
    as (i & q & f3 & r & Hq & He & Hqne & Hef & Hf3 & Hidx & Hlv & Hnext & Htr).
  pose proof (lookup_lt_Some _ _ _ Hq) as Hi.
  destruct (crosses s tick e.1) eqn:Hcr; cycle 1.
  { exists total. split; [done|]. rewrite reachable_qty_none; [by rewrite Z.add_0_r|].
    constructor; [done|]. apply Forall_forall. intros e' He'.
    apply (crosses_worse s tick e.1); [done|]. by apply (flat_sorted_app A opp f1 e f2). }
  rewrite Hidx, Hlv, ret_bind. cbn [head level_of].
  destruct (ic_seg _ _ _ (inv_core _ _ Hinv) _ _ _ Hq) as [Hseg [Hnd Hqs]].
  destruct (available_level_spec (S (length (arena b))) b opp (sh_base A opp + Z.of_nat i) owner now
              needed NIL q total) as (rr & -> & Hcnt); [done| |done| |done|done|].
  { apply Forall_forall. intros [x d] Hx. simpl.
    destruct (queue_elem _ _ _ (inv_core _ _ Hinv) _ _ _ _ _ Hq Hx) as [? _]. lia. }
  { pose proof (flat_length _ _ _ opp (inv_core _ _ Hinv)) as Hlen.
    rewrite Hf, Hef, !length_app in Hlen. unfold tag in Hlen. rewrite length_fmap in Hlen. lia. }
  rewrite ret_bind. rewrite <- He in Hcnt.
  pose proof (reachable_qty_level s tick owner now e.1 q Hcr) as Hlvl.
  assert (Hpos3 : 0 ≤ reachable_qty s tick owner now f3).
  { apply sumZ_nonneg, Forall_fmap, Forall_filter, Forall_forall. intros e' He'. simpl.
    assert (He'in : e' ∈ flat A opp) by (rewrite Hf, Hef; set_solver).
    apply elem_of_flat in He'in as (j & q' & Hq' & _ & Hin).
    destruct (ic_seg _ _ _ (inv_core _ _ Hinv) _ _ _ Hq') as [_ [_ Hall]].
    rewrite Forall_forall in Hall. specialize (Hall _ Hin). lia. }
  rewrite Hef, reachable_qty_app, Hlvl. destruct rr as [v|v]; simpl in Hcnt.
  - exists v. split; [done|]. lia.
  - rewrite Hnext, ret_bind, Htr.
    pose proof (eligible_sum_nonneg owner now q e.1 Hqs).
    destruct (IH (f1 ++ tag e.1 q) f3 v) as (v' & Hv' & Hiff); [| |lia|done|].
    + by rewrite <- app_assoc, Hf, Hef.
    + pose proof (levels_left_range A opp e.1 i He Hi).
      destruct f3 as [|e3 f3]; [lia|]. apply Forall_cons in Hf3 as [Hb3 _]. split.
      * apply Forall_app. split.
        -- eapply Forall_impl; [exact Hf1|]. intros e' Hb. exact (better_trans _ _ _ _ Hb Hb3).
        -- apply Forall_forall. intros e' [-> _]%elem_of_tag. done.
      * pose proof (levels_left_better A opp _ _ Hb3). lia.
    + exists v'. split; [done|]. rewrite Hiff, Hcnt. lia.
Qed.

Lemma available_to_match_spec b A s tick needed owner now :
  inv b A → needed ≤ u64_max →
  ∃ v, available_to_match b s tick needed owner now = Ret v ∧
    (v < needed ↔ reachable_qty s tick owner now (flat A (opposite_side s)) < needed).
Proof.
  intros Hinv Hneed. unfold available_to_match. rewrite (inv_best _ _ Hinv).
  destruct (available_loop_spec (S (length (levels (ladder b (opposite_side s))))) b A s tick needed
              owner now [] (flat A (opposite_side s)) 0) as (v & -> & Hiff); [done|done| |lia|done|].
  - destruct (flat A (opposite_side s)) as [|e f] eqn:Hf; [lia|]. split; [constructor|].
    assert (Hin : e ∈ flat A (opposite_side s)) by (rewrite Hf; by left).
    apply elem_of_flat in Hin as (i & q & Hq & He & _).
    pose proof (levels_left_range A _ e.1 i He (lookup_lt_Some _ _ _ Hq)).
    rewrite (lr_levels _ _ _ (ic_lad _ _ _ (inv_core _ _ Hinv) _)), length_fmap. lia.
  - by exists v.
Qed.

(** ** Resting an order *)

Lemma insert_entry_app s e l1 l2 :
  Forall (λ x, ¬ better s e.1 x.1) l1 → Forall (λ x, better s e.1 x.1) l2 →
  insert_entry s e (l1 ++ l2) = l1 ++ e :: l2.
Proof.
  induction 1 as [|x l1 Hx _ IH]; intros Hl2; simpl.
  - destruct l2 as [|x l2]; [done|]. apply Forall_cons in Hl2 as [Hx _]. simpl.
    by rewrite decide_True.
  - rewrite decide_False by done. by rewrite IH.
Qed.

Lemma core_raise b A s t : core b A None → core (raise_best b s t) A None.
Proof. intros Hc. unfold raise_best. case_match; [by apply core_set_best|done]. Qed.

Lemma raise_best_val b s t :
  best (raise_best b s t) s =
    match best b s with
    | Some x => if decide (better s t x) then Some t else Some x
    | None => Some t
    end ∧
  ∀ s', s' ≠ s → best (raise_best b s t) s' = best b s'.
Proof.
  unfold raise_best. split.
  - destruct s, (best b _) as [x|] eqn:E; rewrite ?E; simpl;
      try (case_bool_decide; [rewrite decide_True by done|rewrite decide_False by done]); done.
  - intros s' Hs. case_match; [|done]. by rewrite best_set_best, decide_False.
Qed.

(** The cached best tick after an order at [t] joined its side. *)
Lemma raise_best_spec b s t (f1 f2 : list Entry) e q :
  best b s = first_tick (f1 ++ tag t q ++ f2) →
  Forall (λ e, better s e.1 t) f1 → Forall (λ e, better s t e.1) f2 →
  best (raise_best b s t) s = first_tick (f1 ++ tag t (q ++ [e]) ++ f2).
Proof.
  intros Hb H1 H2. rewrite (proj1 (raise_best_val b s t)), Hb.
  destruct f1 as [|e1 f1]; [destruct q as [|e' q]; [destruct f2 as [|e2 f2]|]|]; cbn.
  - done.
  - apply Forall_cons in H2 as [H2 _]. by rewrite decide_True.
  - rewrite decide_False; [done|]. apply better_irrefl.
  - apply Forall_cons in H1 as [H1 _]. rewrite decide_False; [done|]. intros Hb'.
    apply (better_irrefl s t). exact (better_trans _ _ _ _ Hb' H1).
Qed.

Lemma rest_spec b A s t d :
  inv b A → Z.of_nat (length (arena b)) < NIL → 0 ≤ t < u64_max → 0 < r_qty d ≤ u64_max →
  ∃ b1 x b2 A', alloc b (mk_node s t d NIL NIL) = Ret (b1, x) ∧ push_back b1 s t x = Ret b2 ∧
    inv b2 A' ∧ flat A' s = insert_entry s (t, (x, d)) (flat A s) ∧
    (∀ s', s' ≠ s → flat A' s' = flat A s').
Proof.
  intros [Hc Hb] Hroom Ht Hd.
  destruct (alloc_spec b A (mk_node s t d NIL NIL) Hc Hroom) as (b1 & x & Hal & Hx & Ha & Hc1 & Hb1 & _).
  destruct (ensure_spec b1 A _ s t Hc1 Ht) as (l & i & A1 & Hens & Hc2 & Hti & Hi & Hfl).
  destruct (lookup_lt_is_Some_2 _ _ Hi) as [q Hq].
  destruct (link_spec (set_ladder b1 s l) A1 s i q x d Hc2 Hx Hq Hd) as (b2 & Hlink & Hc3 & Hb3).
  { rewrite Hti. by rewrite (proj1 (arena_set_ladder b1 s l)). }
  destruct (flat_split A1 s i q Hq) as (f1 & f2 & Hf & Hset & Hf1 & Hf2). rewrite Hti in *.
  exists b1, x, (raise_best b2 s t), (set_q A1 s i (q ++ [(x, d)])). split_and!.
  - done.
  - by rewrite push_back_link, Hens, ret_bind, Hlink.
  - split; [by apply core_raise|]. intros s'. destruct (decide (s' = s)) as [->|Hs].
    + rewrite Hset. apply raise_best_spec; [|done|done].
      by rewrite Hb3, best_set_ladder, Hb1, Hb, <- Hfl, Hf.
    + rewrite (proj2 (raise_best_val b2 s t)) by done.
      by rewrite Hb3, best_set_ladder, Hb1, Hb, flat_set_q_other, Hfl.
  - rewrite Hset, <- Hfl, Hf, tag_app, <- app_assoc. simpl. rewrite !app_assoc. symmetry.
    apply insert_entry_app; [|done]. apply Forall_app. split.
    + eapply Forall_impl; [exact Hf1|]. intros e Hbe Hbt. apply (better_irrefl s t).
      exact (better_trans _ _ _ _ Hbt Hbe).
    + apply Forall_forall. intros e [-> _]%elem_of_tag. apply better_irrefl.
  - intros s' Hs. by rewrite flat_set_q_other, Hfl.
Qed.

(** ** Cancelling *)

Lemma flat_entry b A pend s x d t :
  core b A pend → (t, (x, d)) ∈ flat A s →
  ∃ i q1 q2 f1 f2, sh_qs A s !! i = Some (q1 ++ (x, d) :: q2) ∧ t = sh_base A s + Z.of_nat i ∧
    flat A s = f1 ++ tag t (q1 ++ (x, d) :: q2) ++ f2 ∧
    (∀ q', flat (set_q A s i q') s = f1 ++ tag t q' ++ f2) ∧
    Forall (λ e, better s e.1 t) f1 ∧ Forall (λ e, better s t e.1) f2.
Proof.
  intros Hc (i & q & Hq & Ht & Hin)%elem_of_flat. simpl in Ht, Hin.
  destruct (flat_split A s i q Hq) as (f1 & f2 & Hf & Hset & Hf1 & Hf2). rewrite <- Ht in *.
  apply list_elem_of_split in Hin as (q1 & q2 & ->). by exists i, q1, q2, f1, f2.
Qed.

(** Cancelling a live order removes it and nothing else. *)
Lemma cancel_live_spec b A s t x d :
  inv b A → (t, (x, d)) ∈ flat A s →
  ∃ b' A' g1 g2, cancel b x = Ret (Some (t, r_qty d), b') ∧ inv b' A' ∧
    flat A s = g1 ++ (t, (x, d)) :: g2 ∧ flat A' s = g1 ++ g2 ∧
    (∀ s', s' ≠ s → flat A' s' = flat A s') ∧ length (arena b') = length (arena b).
Proof.
  intros [Hc Hb] Hin.
  destruct (flat_entry b A None s x d t Hc Hin) as (i & q1 & q2 & f1 & f2 & Hq & Ht & Hf & Hset & Hf1 & Hf2).
  destruct (queue_elem _ _ _ Hc _ _ _ x d Hq ltac:(set_solver)) as [_ (p & n & Ha)].
  rewrite <- Ht in Ha. pose proof (lookup_lt_Some _ _ _ Hq) as Hi.
  destruct (unlink_spec b A s i q1 x d q2 Hc Hq) as (b1 & p' & n' & Hun & Hc1 & Hb1 & Hlen).
  set (A1 := set_q A s i (q1 ++ q2)) in *.
  assert (Hq1 : sh_qs A1 s !! i = Some (q1 ++ q2)).
  { unfold A1. by rewrite set_q_lookup, decide_True. }
  assert (HA1 : sh_base A1 s = sh_base A s) by apply set_q_base.
  assert (Hi1 : (i < length (sh_qs A1 s))%nat) by (unfold A1; by rewrite set_q_length).
  assert (Hoth : ∀ s', s' ≠ s → flat A1 s' = flat A s') by (intros; by apply flat_set_q_other).
  pose proof (index_of_rep _ _ _ _ (ic_lad _ _ _ Hc1 s) Hi1) as Hidx. rewrite HA1, <- Ht in Hidx.
  unfold cancel. rewrite Ha, (slot_Ret _ _ _ Ha), ret_bind. cbn [n_side n_tick mk_node].
  rewrite Hun, ret_bind. cbv beta iota zeta. rewrite Hidx.
  rewrite (level_rep _ _ _ _ _ (ic_lad _ _ _ Hc1 s) Hq1), !ret_bind.
  rewrite (level_empty _ _ _ Hc1 _ _ _ Hq1). cbn [n_qty mk_node].
  rewrite Hb1, Hb, Hf.
  assert (Hcut : ∀ b', inv b' A1 → arena b' = arena b1 →
    ∃ b'' A' g1 g2, Ret (Some (t, r_qty d), b') = Ret (Some (t, r_qty d), b'') ∧ inv b'' A' ∧
      f1 ++ tag t (q1 ++ (x, d) :: q2) ++ f2 = g1 ++ (t, (x, d)) :: g2 ∧ flat A' s = g1 ++ g2 ∧
      (∀ s', s' ≠ s → flat A' s' = flat A s') ∧ length (arena b'') = length (arena b)).
  { intros b' Hinv Harena. exists b', A1, (f1 ++ tag t q1), (tag t q2 ++ f2).
    split_and!; [done|done| | |done|by rewrite Harena].
    - by rewrite tag_app, <- !app_assoc.
    - unfold A1. by rewrite Hset, tag_app, <- !app_assoc. }
  destruct (decide (q1 ++ q2 = [] ∧ f1 = [])) as [[Hnil ->]|Hno].
  - rewrite Hnil. rewrite (bool_decide_eq_true_2 ([] = [])) by done.
    rewrite bool_decide_eq_true_2 by by destruct q1.
    simpl andb. cbv iota. rewrite Ht, <- HA1.
    destruct (advance_spec b1 A1 s i Hc1 Hi1) as (b2 & -> & Hc2 & Hb2 & Ho2 & Ha2).
    { rewrite HA1, <- Ht. unfold A1. by rewrite Hset, Hnil. }
    rewrite ret_bind, HA1, <- Ht. apply Hcut; [|done]. split; [done|]. intros s'.
    destruct (decide (s' = s)) as [->|Hs]; [done|]. by rewrite Ho2, Hb1, Hb, Hoth.
  - assert (Hfirst : first_tick (flat A1 s) = first_tick (flat A s)).
    { unfold A1. rewrite Hset, Hf. destruct f1 as [|e1 f1]; [|done].
      destruct q1 as [|e q1]; [|done]. destruct q2 as [|e q2]; [naive_solver|done]. }
    assert (Hcond : bool_decide (q1 ++ q2 = []) &&
              bool_decide (first_tick (f1 ++ tag t (q1 ++ (x, d) :: q2) ++ f2) = Some t) = false).
    { apply andb_false_iff. destruct (decide (q1 ++ q2 = [])) as [Hnil|]; [right|left].
      - apply bool_decide_eq_false. destruct f1 as [|e1 f1]; [naive_solver|].
        apply Forall_cons in Hf1 as [Hb1' _]. cbn. intros [= E]. rewrite E in Hb1'.
        by apply better_irrefl in Hb1'.
      - by apply bool_decide_eq_false. }
    rewrite Hcond, ret_bind. apply Hcut; [|done]. split; [done|]. intros s'.
    destruct (decide (s' = s)) as [->|Hs]; [by rewrite Hb1, Hb, Hfirst|by rewrite Hb1, Hb, Hoth].
Qed.

(** The live slots are the orders of the two sides. *)
Lemma live_flat b A x nd :
  core b A None → 0 ≤ x → arena b !! Z.to_nat x = Some (Some nd) →
  ∃ d p n, nd = mk_node (n_side nd) (n_tick nd) d p n ∧ (n_tick nd, (x, d)) ∈ flat A (n_side nd).
Proof.
  intros Hc Hx Ha. destruct (ic_live _ _ _ Hc _ _ Ha) as [?|(i & q & d & Hq & Hin)]; [done|].
  rewrite Z2Nat.id in Hin by done.
  destruct (queue_elem _ _ _ Hc _ _ _ _ _ Hq Hin) as [_ (p & n & Ha')].
  rewrite Ha in Ha'. injection Ha' as Hnd. exists d, p, n.
  assert (Ht : n_tick nd = sh_base A (n_side nd) + Z.of_nat i) by by rewrite Hnd at 1.
  split; [by rewrite Ht|]. apply elem_of_flat. by exists i, q.
Qed.

Lemma flat_live b A pend s t x d :
  core b A pend → (t, (x, d)) ∈ flat A s →
  0 ≤ x ∧ ∃ p n, arena b !! Z.to_nat x = Some (Some (mk_node s t d p n)).
Proof.
  intros Hc (i & q & Hq & Ht & Hin)%elem_of_flat. simpl in *. rewrite Ht.
  destruct (queue_elem _ _ _ Hc _ _ _ _ _ Hq Hin) as [[? _] ?]. done.
Qed.

Lemma cancel_dead b x :
  (∀ nd, arena b !! Z.to_nat x ≠ Some (Some nd)) → cancel b x = Ret (None, b).
Proof.
  intros Hd. unfold cancel. destruct (arena b !! Z.to_nat x) as [[nd|]|] eqn:E; [|done..].
  by destruct (Hd nd).
Qed.

(** ** Submitting *)

Lemma match_and_rest_spec b A o now expired0 :
  let s := no_side o in
  inv b A → Z.of_nat (length (arena b)) < NIL → 0 ≤ no_tick o < u64_max →
  0 ≤ no_qty o ≤ u64_max →
  ∃ r b' A' x, match_and_rest b o now expired0 = Ret (r, b') ∧ inv b' A' ∧
    (let '(opp', qty, acc) := spec_match s (no_tick o) (no_owner o) now (flat A (opposite_side s))
                                (no_qty o) (acc_empty expired0) in
     if bool_decide (0 < qty) && rests (no_tif o) then
       (mk_result acc (Some x) qty false false,
        insert_entry s (no_tick o, (x, {| r_qty := qty; r_owner := no_owner o;
                                          r_expiry := expiry_of (no_tif o) |})) (flat A s), opp')
     else (mk_result acc None 0 false false, flat A s, opp')) =
      (r, flat A' s, flat A' (opposite_side s)).
Proof.
  intros s Hinv Hroom Ht Hq. unfold match_and_rest. fold s. cbv zeta.
  pose proof (match_loop_spec (S (S (length (arena b)))) b A s (no_tick o) (no_owner o) now (no_qty o)
                (acc_empty expired0) Hinv) as Hm.
  pose proof (flat_length _ _ _ (opposite_side s) (inv_core _ _ Hinv)) as Hlen.
  specialize (Hm ltac:(lia)).
  pose proof (flat_positive _ _ _ (opposite_side s) (inv_core _ _ Hinv)) as Hpos.
  pose proof (spec_match_fills s (no_tick o) (no_owner o) now (flat A (opposite_side s)) (no_qty o)
                (acc_empty expired0)) as Hfills.
  change (acc_empty expired0) with {| acc_fills := []; acc_expired := expired0; acc_self := [] |} in *.
  destruct (spec_match _ _ _ _ _ _ _) as [[opp' qty] acc].
  specialize (Hfills _ _ _ Hpos ltac:(lia) eq_refl) as (Hqty & _).
  destruct Hm as (b1 & A1 & -> & Hinv1 & Hopp1 & Hs1 & Hl1). rewrite ret_bind. cbv beta iota.
  destruct (bool_decide (0 < qty) && rests (no_tif o)) eqn:Hrest; cycle 1.
  { eexists _, b1, A1, 0. split; [done|]. by rewrite Hs1, Hopp1. }
  apply andb_true_iff in Hrest as [Hqpos%bool_decide_eq_true _].
  set (d := {| r_qty := qty; r_owner := no_owner o; r_expiry := expiry_of (no_tif o) |}).
  destruct (rest_spec b1 A1 s (no_tick o) d) as (b2 & x & b3 & A3 & Hal & Hpush & Hinv3 & Hfs & Hfo);
    [done|by rewrite Hl1|done|simpl; lia|].
  change (mk_node s (no_tick o) d NIL NIL) with {| n_tick := no_tick o; n_qty := qty; n_side := s;
    n_owner := no_owner o; n_expiry := expiry_of (no_tif o); n_prev := NIL; n_next := NIL |} in Hal.
  rewrite Hal, ret_bind. cbv beta iota. rewrite Hpush, ret_bind.
  eexists _, b3, A3, x. split; [done|]. split; [done|].
  by rewrite Hfs, Hfo, Hs1, Hopp1 by apply opposite_ne.
Qed.

(** After pruning, the raw best tick decides whether a maker-only order would cross. *)
Lemma would_cross_spec b A s tick :
  inv b A →
  would_cross b (opposite_side s) tick =
    match flat A (opposite_side s) with e :: _ => crosses s tick e.1 | [] => false end.
Proof.
  intros [_ Hb]. specialize (Hb (opposite_side s)). unfold would_cross.
  destruct s; cbn [opposite_side best] in *; rewrite Hb.
  - by destruct (flat A Short).
  - by destruct (flat A Long).
Qed.

Theorem submit_refines b A o now :
  let s := no_side o in
  inv b A → Z.of_nat (length (arena b)) < NIL → 0 ≤ no_tick o < u64_max →
  0 ≤ no_qty o ≤ u64_max →
  ∃ r b' A' x, submit b o now = Ret (r, b') ∧ inv b' A' ∧
    spec_submit (flat A s) (flat A (opposite_side s)) o now x =
      (r, flat A' s, flat A' (opposite_side s)).
Proof.
  intros s Hinv Hroom Ht Hq. unfold submit, spec_submit. fold s. cbv zeta.
  assert (Hprune : ∃ b1 A1 out, (if post_only o then prune_expired_head b (opposite_side s) now []
                                 else Ret (b, [])) = Ret (b1, out) ∧ inv b1 A1 ∧
    (if post_only o then spec_prune now (flat A (opposite_side s)) []
     else (flat A (opposite_side s), [])) = (flat A1 (opposite_side s), out) ∧
    flat A1 s = flat A s ∧ length (arena b1) = length (arena b)).
  { destruct (post_only o); [|by exists b, A, []]. unfold prune_expired_head.
    pose proof (flat_length _ _ _ (opposite_side s) (inv_core _ _ Hinv)).
    destruct (prune_loop_spec (S (length (arena b))) b A (opposite_side s) now [] Hinv)
      as (b1 & A1 & Hrun & Hinv1 & Hfo & Hfs & Hl); [lia|].
    exists b1, A1, (spec_prune now (flat A (opposite_side s)) []).2. split_and!; [done|done| | |done].
    - rewrite Hfo. by destruct (spec_prune _ _ _).
    - apply Hfs. intros E. symmetry in E. by apply (opposite_ne s). }
  destruct Hprune as (b1 & A1 & out & -> & Hinv1 & -> & Hfs & Hl1). rewrite ret_bind. cbv beta iota.
  rewrite (would_cross_spec b1 A1 s _ Hinv1), <- Hfs.
  destruct (post_only o && _).
  { by exists (mk_result (acc_empty out) None 0 true false), b1, A1, 0. }
  destruct (match_and_rest_spec b1 A1 o now out Hinv1) as (r & b2 & A2 & x & Hrun & Hinv2 & Hspec);
    [by rewrite Hl1|done|done|]. fold s in Hspec.
  destruct (decide (no_tif o = FillOrKill)) as [Hfok|Hfok]; cycle 1.
  { rewrite ret_bind, bool_decide_eq_false_2 by done. simpl andb. cbv iota. rewrite Hrun.
    by exists r, b2, A2, x. }
  destruct (available_to_match_spec b1 A1 s (no_tick o) (no_qty o) (no_owner o) now Hinv1)
    as (v & -> & Hiff); [lia|]. rewrite !ret_bind, (bool_decide_eq_true_2 (no_tif o = FillOrKill)) by done.
  simpl andb. rewrite (bool_decide_ext _ _ Hiff). case_bool_decide.
  - by exists (mk_result (acc_empty out) None 0 false true), b1, A1, x.
  - rewrite Hrun. by exists r, b2, A2, x.
Qed.

(** ** Depth *)

Lemma uniq_tag t q (f : list Entry) :
  q ≠ [] → Forall (λ e : Entry, e.1 ≠ t) f →
  uniq (fst <$> (tag t q ++ f)) = t :: uniq (fst <$> f).
Proof.
  intros Hq Hf. assert (Hu : ∀ l, Forall (λ t', t' ≠ t) l → match uniq l with t' :: _ => t ≠ t' | [] => True end).
  { induction 1 as [|t' l Ht' _ IH]; simpl; [done|]. destruct (uniq l) as [|t'' r]; [done|].
    case_decide; [by subst|done]. }
  induction q as [|e q IH]; [done|]. change (tag t (e :: q)) with ((t, e) :: tag t q).
  simpl app. rewrite fmap_cons. simpl fst. simpl uniq. destruct q as [|e' q].
  - simpl app. specialize (Hu (fst <$> f)). destruct (uniq (fst <$> f)) as [|t' r]; [done|].
    rewrite decide_False; [done|]. apply Hu, Forall_fmap. done.
  - rewrite IH by done. by rewrite decide_True.
Qed.

Lemma level_qty_level f1 t q f3 (f : list Entry) :
  f = f1 ++ tag t q ++ f3 → Forall (λ e : Entry, e.1 ≠ t) f1 → Forall (λ e : Entry, e.1 ≠ t) f3 →
  level_qty f t = lv_qty (level_of q).
Proof.
  intros -> H1 H3. unfold level_qty, level_of. cbn [lv_qty]. do 2 f_equal.
  rewrite !filter_app, (filter_none _ f1), (filter_none _ f3) by done. rewrite app_nil_r. simpl.
  rewrite filter_all; [unfold tag; by rewrite <- list_fmap_compose|].
  apply Forall_forall. by intros e [-> _]%elem_of_tag.
Qed.

Lemma depth_loop_spec room b A s f1 f2 cum :
  inv b A → flat A s = f1 ++ f2 →
  match f2 with [] => True | e :: _ => Forall (λ e', better s e'.1 e.1) f1 end →
  depth_loop room (ladder b s) s (first_tick f2) cum =
    Ret (spec_depth (take room (uniq (fst <$> f2))) (flat A s) cum).
Proof.
  intros Hinv. revert f1 f2 cum. induction room as [|room IH]; intros f1 f2 cum Hf Hf1; [done|].
  destruct f2 as [|e f2]; [done|].
  destruct (level_view _ _ _ _ _ _ _ (inv_core _ _ Hinv) Hf Hf1)
    as (i & q & f3 & r & Hq & He & Hqne & Hef & Hf3 & Hidx & Hlv & Hnext & Htr).
  change (first_tick (e :: f2)) with (Some e.1). simpl depth_loop.
  rewrite Hidx, Hlv, ret_bind, Hnext, ret_bind, Htr.
  assert (Hne : ∀ t t', better s t t' → t' ≠ t ∧ t ≠ t').
  { intros t t' Hb. split; intros ->; by apply better_irrefl in Hb. }
  rewrite (IH (f1 ++ tag e.1 q) f3); cycle 1.
  { by rewrite <- app_assoc, Hf, Hef. }
  { destruct f3 as [|e3 f3]; [done|]. apply Forall_cons in Hf3 as [Hb3 _]. apply Forall_app. split.
    - eapply Forall_impl; [exact Hf1|]. intros e' Hb. exact (better_trans _ _ _ _ Hb Hb3).
    - apply Forall_forall. intros e' [-> _]%elem_of_tag. done. }
  rewrite ret_bind, Hef, uniq_tag; [|done|].
  - simpl. rewrite (level_qty_level f1 e.1 q f3); [done|by rewrite Hf, Hef|..].
    + eapply Forall_impl; [exact Hf1|]. intros e' Hb. by apply Hne in Hb as [??].
    + eapply Forall_impl; [exact Hf3|]. intros e' Hb. by apply Hne in Hb as [??].
  - eapply Forall_impl; [exact Hf3|]. intros e' Hb. by apply Hne in Hb as [??].
Qed.

Lemma depth_spec b A s n :
  inv b A → depth b s n = Ret (spec_depth (take n (uniq (fst <$> flat A s))) (flat A s) 0).
Proof.
  intros Hinv. unfold depth. rewrite (inv_best _ _ Hinv).
  apply (depth_loop_spec n b A s [] (flat A s) 0 Hinv eq_refl).
  destruct (flat A s); [done|constructor].
Qed.

(** ** The abstraction function *)

Lemma walk_dseg fuel a s t p q :
  dseg a s t p q NIL → Forall (λ e : Z * Resting, e.1 ≠ NIL) q → (length q < fuel)%nat →
  walk fuel a (hdid NIL q) = q.
Proof.
  revert p q. induction fuel as [|fuel IH]; intros p q Hseg Hid Hlen; [lia|].
  destruct q as [|[x d] q]; [done|]. destruct Hseg as (_ & Hx & Hseg).
  apply Forall_cons in Hid as [Hxn Hid]. simpl in Hxn, Hlen. simpl. rewrite decide_False by done.
  rewrite Hx. simpl. rewrite (IH x q) by (done || lia). by destruct d.
Qed.

Lemma resting_flat b A s : inv b A → resting b s = flat A s.
Proof.
  intros Hinv. pose proof (inv_core _ _ Hinv) as Hc. pose proof (ic_lad _ _ _ Hc s) as Hl.
  unfold resting. set (per_level := imap _ _).
  assert (per_level = tagged A s) as ->; [|by destruct s].
  unfold per_level. apply list_eq. intros i. rewrite tagged_lookup, list_lookup_imap.
  rewrite (lr_levels _ _ _ Hl), list_lookup_fmap.
  destruct (sh_qs A s !! i) as [q|] eqn:Hq; [|done].
  cbn [fmap option_fmap option_map head level_of]. f_equal.
  rewrite (lr_base _ _ _ Hl) by (intros E; by rewrite E in Hq). f_equal.
  destruct (ic_seg _ _ _ Hc _ _ _ Hq) as [Hseg [Hnd _]].
  apply (walk_dseg _ _ s (sh_base A s + Z.of_nat i) NIL); [done| |].
  - apply Forall_forall. intros [x d] Hx. simpl.
    destruct (queue_elem _ _ _ Hc _ _ _ _ _ Hq Hx) as [? _]. lia.
  - pose proof (flat_length _ _ _ s Hc) as Hlen.
    destruct (flat_split A s i q Hq) as (f1 & f2 & Hf & _).
    rewrite Hf, !length_app in Hlen. unfold tag in Hlen. rewrite length_fmap in Hlen. lia.
Qed.

(** ** Every reachable book represents its resting orders *)

Lemma inv_new : inv new {| sh_base := λ _, 0; sh_qs := λ _, [] |}.
Proof.
  split; [|by intros []].
  split; simpl.
  - intros s. split; [done|by destruct s|destruct s; apply occ_default_ok|].
    intros i. by destruct s.
  - by intros s i q.
  - by intros x nd.
  - by intros.
  - split; [constructor|]. intros x. split; [intros H; by apply elem_of_nil in H|by intros [_ ?]].
  - intros s. unfold u64_max. lia.
  - unfold NIL. lia.
Qed.

Lemma step_inv b b' A : step b b' → inv b A → ∃ A', inv b' A'.
Proof.
  intros Hstep Hinv. destruct Hstep as [b o now r b' Ht Hq Hroom Hrun|b x r b' Hx Hrun].
  - destruct (submit_refines b A o now Hinv Hroom Ht Hq) as (r' & b'' & A' & y & Hrun' & Hinv' & _).
    rewrite Hrun in Hrun'. injection Hrun' as _ <-. by exists A'.
  - destruct (arena b !! Z.to_nat x) as [[nd|]|] eqn:Ha.
    + destruct (live_flat b A x nd (inv_core _ _ Hinv) Hx Ha) as (d & p & n & _ & Hin).
      destruct (cancel_live_spec b A _ _ x d Hinv Hin) as (b'' & A' & g1 & g2 & Hrun' & Hinv' & _).
      rewrite Hrun in Hrun'. injection Hrun' as _ <-. by exists A'.
    + rewrite (cancel_dead b x) in Hrun by (intros nd; congruence). injection Hrun as _ <-. by exists A.
    + rewrite (cancel_dead b x) in Hrun by (intros nd; congruence). injection Hrun as _ <-. by exists A.
Qed.

Lemma reachable_inv b : reachable b → ∃ A, inv b A.
Proof.
  unfold reachable. intros Hr. assert (H0 : ∃ A, inv new A) by (eexists; apply inv_new).
  revert H0. induction Hr as [|b b1 b2 Hstep _ IH]; intros [A Hinv]; [by exists A|].
  apply IH. by eapply step_inv.
Qed.
