(* ===== verification/BookProps.v ===== *)
(** * The matcher's order book: its correctness theorems

    Every call on a reachable book returns and computes what the specification says; the
    consequences a venue relies on: price-time priority, all-or-nothing fill-or-kill orders, maker-only
    orders that never take, no self-trade and no trade with an expired order, conservation of
    quantity, exact cancellation and exact depth. *)
From S2P Require Import Prelude Ints Types Occupancy Book BookWf BookOps BookSpec BookRefine.
Open Scope Z_scope.

(** ** Definitions *)

(** The arguments [submit] accepts: [u64] values, a tick below [u64::MAX], and a free slot number. *)
Definition submit_ok (b : OrderBook) (o : NewOrder) : Prop :=
  0 ≤ no_tick o < u64_max ∧ 0 ≤ no_qty o ≤ u64_max ∧ Z.of_nat (length (arena b)) < NIL.

#[export] Instance submit_ok_dec b o : Decision (submit_ok b o).
Proof. unfold submit_ok. apply _. Defined.

(** The opposite side as matching finds it: [resting b opp] without the expired orders a maker-only
    order pruned at its front. *)
Definition matched_side (b : OrderBook) (o : NewOrder) (now : Timestamp) : list Entry :=
  let opp := resting b (opposite_side (no_side o)) in
  if post_only o then (spec_prune now opp []).1 else opp.

(** The three ways [submit] ends. *)
Inductive outcome := Rejected | Killed | Matched.

Definition outcome_of (r : SubmitResult) : outcome :=
  if post_only_rejected r then Rejected else if fill_or_kill_failed r then Killed else Matched.

(** The taker's remainder comes to rest, or nothing does. *)
Definition rested (b b' : OrderBook) (o : NewOrder) (r : SubmitResult) (left : Qty) : Prop :=
  let s := no_side o in
  if bool_decide (0 < left) && rests (no_tif o) then
    ∃ x, resting_id r = Some x ∧ resting_qty r = left ∧
      resting b' s = insert_entry s (no_tick o, (x, {| r_qty := left; r_owner := no_owner o;
                                                       r_expiry := expiry_of (no_tif o) |}))
                       (resting b s)
  else resting_id r = None ∧ resting_qty r = 0 ∧ resting b' s = resting b s.

(** Nothing traded and nothing rests; only expired orders may have been dropped. *)
Definition untouched (b b' : OrderBook) (o : NewOrder) (now : Timestamp) (r : SubmitResult) : Prop :=
  fills r = [] ∧ resting_id r = None ∧ resting_qty r = 0 ∧
  resting b' (no_side o) = resting b (no_side o) ∧
  resting b' (opposite_side (no_side o)) = matched_side b o now.

(** A later order never has a better price. *)
Definition priority_sorted (s : Side) (l : list Entry) : Prop :=
  StronglySorted (λ e e', ¬ better s e'.1 e.1) l.

(** A book with two asks at 100, one at 105, one expiring at time 50, and a bid at 90. *)
Definition demo_order (s : Side) (t q w : Z) (tif : TimeInForce) (po : bool) : NewOrder :=
  {| no_side := s; no_tick := t; no_qty := q; no_owner := w; no_tif := tif; post_only := po |}.

Fixpoint run_orders (b : OrderBook) (os : list NewOrder) (now : Timestamp) : option OrderBook :=
  match os with
  | [] => Some b
  | o :: os' =>
      if decide (submit_ok b o) then
        match submit b o now with Ret (_, b') => run_orders b' os' now | Panic => None end
      else None
  end.

Definition demo_orders : list NewOrder :=
  [demo_order Short 100 5 1 GoodTilCancel false; demo_order Short 100 3 2 (GoodTilTime 50) false;
   demo_order Short 105 9 3 GoodTilCancel false; demo_order Long 90 4 2 GoodTilCancel true].

Definition demo_book : OrderBook :=
  default new (run_orders new demo_orders 10).

Ltac not_eligible := unfold eligible; simpl; intuition congruence.

(** ** Lemmas on the specification *)

Lemma StronglySorted_of_lookup {B} (R : B → B → Prop) (l : list B) :
  (∀ i j x y, (i < j)%nat → l !! i = Some x → l !! j = Some y → R x y) → StronglySorted R l.
Proof.
  induction l as [|x l IH]; intros H; constructor.
  - apply IH. intros i j y z Hij Hi Hj. apply (H (S i) (S j)); [lia|done|done].
  - apply Forall_lookup. intros i y Hi. apply (H 0%nat (S i)); [lia|done|done].
Qed.

Lemma resting_sorted b A s : inv b A → priority_sorted s (resting b s).
Proof.
  intros Hinv. rewrite (resting_flat _ _ _ Hinv). apply StronglySorted_of_lookup.
  intros i j e e' Hij Hi Hj. by apply (flat_sorted A s i j).
Qed.

Lemma sorted_not_crossing s tick (e : Entry) l :
  Forall (λ e' : Entry, ¬ better (opposite_side s) e'.1 e.1) l → crosses s tick e.1 = false →
  Forall (λ e' : Entry, crosses s tick e'.1 = false) l.
Proof.
  intros Hl Hc. eapply Forall_impl; [exact Hl|]. intros e' He'. by apply (crosses_worse s tick e.1).
Qed.

(** Matching takes what it can: the smaller of the order's quantity and the eligible quantity its
    limit reaches. *)
Lemma spec_match_takes s tick owner now l qty acc :
  positive l → priority_sorted (opposite_side s) l → 0 ≤ qty →
  qty - (spec_match s tick owner now l qty acc).1.2 =
    Z.min qty (reachable_qty s tick owner now l).
Proof.
  unfold positive. intros Hpos. revert qty acc.
  induction Hpos as [|[t [x d]] l Hd Hl IH]; intros qty acc Hs Hq.
  { unfold reachable_qty. simpl. lia. }
  apply StronglySorted_inv in Hs as [Hs Hlt]. simpl in Hd. simpl spec_match.
  assert (Hnn : 0 ≤ reachable_qty s tick owner now l).
  { apply sumZ_nonneg, Forall_fmap, Forall_filter. eapply Forall_impl; [exact Hl|]. simpl. lia. }
  assert (Hcons : reachable_qty s tick owner now ((t, (x, d)) :: l) =
    (if decide (crosses s tick t = true ∧ eligible owner now (t, (x, d))) then r_qty d else 0) +
    reachable_qty s tick owner now l).
  { unfold reachable_qty.
    destruct (decide (crosses s tick t = true ∧ eligible owner now (t, (x, d)))) as [H|H];
      [by rewrite filter_cons_True by exact H|by rewrite filter_cons_False by exact H]. }
  rewrite Hcons. destruct (decide (0 < qty)) as [Hqp|]; [|simpl fst; simpl snd; destruct (decide (_ ∧ _)); lia].
  destruct (crosses s tick t) eqn:Hcr; cycle 1.
  { rewrite decide_False by not_eligible. rewrite reachable_qty_none; [simpl; lia|].
    by apply (sorted_not_crossing s tick (t, (x, d))). }
  destruct (is_expired now (r_expiry d)) eqn:Hex.
  { rewrite decide_False by not_eligible. by apply IH. }
  destruct (decide (r_owner d = owner)) as [Ho|Ho].
  { rewrite decide_False by not_eligible. by apply IH. }
  rewrite (decide_True (P := true = true ∧ eligible owner now (t, (x, d)))) by (split; [done|by split]).
  destruct (decide (Z.min qty (r_qty d) = r_qty d)); [|simpl; lia].
  set (acc' := push_fill _ _). specialize (IH (qty - Z.min qty (r_qty d)) acc' Hs ltac:(lia)). lia.
Qed.

(** The fills go to the eligible makers in priority order, each but the last in full. *)
Lemma spec_match_priority s tick owner now l qty acc :
  positive l → 0 ≤ qty →
  let '(l', qty', acc') := spec_match s tick owner now l qty acc in
  ∃ fs, acc_fills acc' = acc_fills acc ++ fs ∧
    (maker_id <$> fs) `prefix_of` ids (filter (eligible owner now) l) ∧
    (∀ i f f', fs !! i = Some f → fs !! S i = Some f' → maker_filled f = true) ∧
    (0 < qty' → match l' with e :: _ => crosses s tick e.1 = false | [] => True end).
Proof.
  unfold positive. intros Hpos. revert qty acc.
  induction Hpos as [|[t [x d]] l Hd Hl IH]; intros qty acc Hq; simpl spec_match.
  { exists []. rewrite app_nil_r. split_and!; [done|apply prefix_nil|done|done]. }
  simpl in Hd. assert (Hstop : (0 < qty → crosses s tick t = false) →
    ∃ fs, acc_fills acc = acc_fills acc ++ fs ∧
      (maker_id <$> fs) `prefix_of` ids (filter (eligible owner now) ((t, (x, d)) :: l)) ∧
      (∀ i f f', fs !! i = Some f → fs !! S i = Some f' → maker_filled f = true) ∧
      (0 < qty → crosses s tick t = false)).
  { intros Hc. exists []. rewrite app_nil_r. split_and!; [done|apply prefix_nil|done|done]. }
  destruct (decide (0 < qty)) as [Hqp|Hqp]; [|by apply Hstop].
  destruct (crosses s tick t) eqn:Hcr; [|simpl fst; rewrite Hcr; by apply Hstop]. clear Hstop.
  destruct (is_expired now (r_expiry d)) eqn:Hex.
  { rewrite filter_cons_False by not_eligible.
    apply (IH qty (push_expired x acc) Hq). }
  destruct (decide (r_owner d = owner)) as [Ho|Ho].
  { rewrite filter_cons_False by not_eligible.
    apply (IH qty (push_self x acc) Hq). }
  rewrite filter_cons_True by (by split). set (f := {| maker_id := x; maker_owner := _; f_tick := _;
    f_qty := _; maker_filled := _; maker_size_before := _; taker_size_before := _ |}).
  destruct (decide (Z.min qty (r_qty d) = r_qty d)) as [Hfull|Hpart].
  - specialize (IH (qty - Z.min qty (r_qty d)) (push_fill f acc) ltac:(lia)).
    destruct (spec_match _ _ _ _ l _ _) as [[l' qty'] acc'].
    destruct IH as (fs & Hfs & Hpre & Hfilled & Hex'). exists (f :: fs). split_and!; [| | |done].
    + rewrite Hfs. simpl. by rewrite <- app_assoc.
    + unfold ids. rewrite !fmap_cons. by apply prefix_cons.
    + intros [|i] f1 f2 H1 H2; [|by eapply Hfilled]. simpl in H1. injection H1 as <-. simpl.
      by apply bool_decide_eq_true.
  - exists [f]. split_and!; [done| |by intros [|i] f1 f2 H1 H2|lia].
    unfold ids. rewrite !fmap_cons. apply prefix_cons, prefix_nil.
Qed.

Lemma submit_run b o now :
  reachable b → submit_ok b o →
  ∃ r b' x, submit b o now = Ret (r, b') ∧
    spec_submit (resting b (no_side o)) (resting b (opposite_side (no_side o))) o now x =
      (r, resting b' (no_side o), resting b' (opposite_side (no_side o))) ∧
    (∃ A, inv b' A) ∧ positive (resting b (opposite_side (no_side o))) ∧
    priority_sorted (opposite_side (no_side o)) (resting b (opposite_side (no_side o))).
Proof.
  intros [A Hinv]%reachable_inv (Ht & Hq & Hroom).
  destruct (submit_refines b A o now Hinv Hroom Ht Hq) as (r & b' & A' & x & Hrun & Hinv' & Hspec).
  exists r, b', x. rewrite !(resting_flat b A), !(resting_flat b' A') by done.
  split_and!; [done|done|by exists A'|by eapply flat_positive, inv_core|].
  rewrite <- (resting_flat b A) by done. by eapply resting_sorted.
Qed.

(** Pruning drops the expired orders at the front, and only those. *)
Lemma spec_prune_suffix now l out :
  ∃ l1 l2, l = l1 ++ l2 ∧ spec_prune now l out = (l2, out ++ ids l1) ∧
    Forall (λ e : Entry, is_expired now (r_expiry e.2.2) = true) l1 ∧
    match l2 with e :: _ => is_expired now (r_expiry e.2.2) = false | [] => True end.
Proof.
  revert out. induction l as [|[t [x d]] l IH]; intros out; simpl.
  { exists [], []. simpl. rewrite app_nil_r. split_and!; [done|done|constructor|done]. }
  destruct (is_expired now (r_expiry d)) eqn:Hex; cycle 1.
  { exists [], ((t, (x, d)) :: l). simpl. rewrite app_nil_r. split_and!; [done|done|constructor|done]. }
  destruct (IH (out ++ [x])) as (l1 & l2 & -> & Hpr & Hl1 & Hl2).
  exists ((t, (x, d)) :: l1), l2. split_and!; [done| |by constructor|done].
  by rewrite Hpr, <- app_assoc.
Qed.

Lemma matched_side_ok b o now :
  positive (resting b (opposite_side (no_side o))) →
  priority_sorted (opposite_side (no_side o)) (resting b (opposite_side (no_side o))) →
  positive (matched_side b o now) ∧ priority_sorted (opposite_side (no_side o)) (matched_side b o now) ∧
  (∃ l1, resting b (opposite_side (no_side o)) = l1 ++ matched_side b o now) ∧
  ∃ out, (if post_only o then spec_prune now (resting b (opposite_side (no_side o))) []
          else (resting b (opposite_side (no_side o)), [])) = (matched_side b o now, out).
Proof.
  intros Hpos Hs. unfold matched_side. destruct (post_only o); cycle 1.
  { split_and!; [done|done|by exists []|by exists []]. }
  destruct (spec_prune_suffix now (resting b (opposite_side (no_side o))) [])
    as (l1 & l2 & Hl & Hpr & _). rewrite Hpr. simpl. rewrite Hl in Hpos, Hs.
  unfold positive in *. apply Forall_app in Hpos as [_ ?]. apply StronglySorted_app in Hs as (_ & _ & ?).
  split_and!; [done|done|by exists l1|by eexists].
Qed.


(** Every call returns, in one of three ways. *)
Lemma submit_cases b o now :
  reachable b → submit_ok b o →
  let s := no_side o in let l := matched_side b o now in
  ∃ r b', submit b o now = Ret (r, b') ∧ 0 ≤ reachable_qty s (no_tick o) (no_owner o) now l ∧
    match outcome_of r with
    | Rejected => post_only o = true ∧ (∃ e l', l = e :: l' ∧ crosses s (no_tick o) e.1 = true) ∧
        untouched b b' o now r
    | Killed => no_tif o = FillOrKill ∧
        reachable_qty s (no_tick o) (no_owner o) now l < no_qty o ∧ untouched b b' o now r
    | Matched =>
        (post_only o = true → match l with e :: _ => crosses s (no_tick o) e.1 = false | [] => True end) ∧
        (no_tif o = FillOrKill → no_qty o ≤ reachable_qty s (no_tick o) (no_owner o) now l) ∧
        ∃ out left acc,
          spec_match s (no_tick o) (no_owner o) now l (no_qty o) (acc_empty out) =
            (resting b' (opposite_side s), left, acc) ∧
          fills r = acc_fills acc ∧ expired r = acc_expired acc ∧
          self_trade_cancelled r = acc_self acc ∧ rested b b' o r left
    end.
Proof.
  intros Hr Hok s l.
  destruct (submit_run b o now Hr Hok) as (r & b' & x & Hrun & Hspec & _ & Hpos & Hsort).
  destruct (matched_side_ok b o now Hpos Hsort) as (Hpl & Hsl & _ & out & Hmatched).
  exists r, b'. split; [done|]. split.
  { fold s l in Hpl |- *. apply sumZ_nonneg, Forall_fmap, Forall_filter.
    eapply Forall_impl; [exact Hpl|]. simpl. lia. }
  unfold spec_submit in Hspec. fold s in Hspec, Hmatched. rewrite Hmatched in Hspec. fold l in Hspec.
  destruct (post_only o && match l with e :: _ => crosses s (no_tick o) e.1 | [] => false end) eqn:Hpo.
  { injection Hspec as <- E1 E2. apply andb_true_iff in Hpo as [Hpo Hcr]. simpl.
    unfold untouched. fold s l. rewrite <- E1, <- E2.
    split_and!; try done. destruct l as [|e l']; [done|]. by exists e, l'. }
  apply andb_false_iff in Hpo.
  destruct (bool_decide (no_tif o = FillOrKill) && _) eqn:Hk.
  { injection Hspec as <- E1 E2. apply andb_true_iff in Hk as [Hk1%bool_decide_eq_true Hk2%bool_decide_eq_true].
    simpl. unfold untouched. fold s l. by rewrite <- E1, <- E2. }
  apply andb_false_iff in Hk.
  destruct (spec_match s (no_tick o) (no_owner o) now l (no_qty o) (acc_empty out)) as [[l' left] acc] eqn:Hm.
  assert (H1 : post_only o = true → match l with e :: _ => crosses s (no_tick o) e.1 = false | [] => True end).
  { intros Hp. destruct Hpo as [?|?]; [congruence|]. by destruct l. }
  assert (H2 : no_tif o = FillOrKill → no_qty o ≤ reachable_qty s (no_tick o) (no_owner o) now l).
  { intros Hf. destruct Hk as [Hk|Hk]; apply bool_decide_eq_false in Hk; [done|lia]. }
  unfold rested. fold s.
  destruct (bool_decide (0 < left) && rests (no_tif o)) eqn:Hrest; injection Hspec as <- E1 E2; simpl;
    (split; [done|]; split; [done|]); exists out, left, acc; rewrite <- ?E1, <- ?E2, Hrest;
    split_and!; try done.
  by exists x.
Qed.


Lemma run_orders_steps b os now b' : run_orders b os now = Some b' → rtc step b b'.
Proof.
  revert b. induction os as [|o os IH]; intros b; simpl; [by intros [= ->]|].
  case_decide as Hok; [|done]. destruct (submit b o now) as [[r b1]|] eqn:Hrun; [|done].
  intros Hrest. destruct Hok as (? & ? & ?). eapply rtc_l; [by eapply step_submit|by apply IH].
Qed.

Lemma book_demo_reachable : reachable demo_book.
Proof. apply (run_orders_steps new demo_orders 10). vm_compute. reflexivity. Qed.

(** ** Properties *)

(** C1: Refinement.  On every reachable book and for every order within the machine ranges,
    [submit] returns (no broken link, dead slot or exhausted loop), and its result and the two
    sides it leaves are exactly those the specification computes from the two sides it found: the
    priority-ordered walk that drops expired and self-owned orders, trades with the rest, and
    queues the remainder behind its own price level. *)
Theorem submit_refines_spec b o now :
  reachable b → submit_ok b o →
  let s := no_side o in
  ∃ r b' x, submit b o now = Ret (r, b') ∧
    spec_submit (resting b s) (resting b (opposite_side s)) o now x =
      (r, resting b' s, resting b' (opposite_side s)).
Proof.
  intros Hr Hok s. destruct (submit_run b o now Hr Hok) as (r & b' & x & ? & ? & _).
  by exists r, b', x.
Qed.

Lemma submit_refines_spec_witness :
  submit_ok demo_book (demo_order Long 105 10 2 GoodTilCancel false) ∧
  ∃ r b' x, submit demo_book (demo_order Long 105 10 2 GoodTilCancel false) 60 = Ret (r, b') ∧
    spec_submit (resting demo_book Long) (resting demo_book Short)
      (demo_order Long 105 10 2 GoodTilCancel false) 60 x = (r, resting b' Long, resting b' Short).
Proof.
  split; [by vm_compute|].
  apply (submit_refines_spec demo_book (demo_order Long 105 10 2 GoodTilCancel false) 60 book_demo_reachable).
  by vm_compute.
Defined.

(** Price-time priority.  An order that is neither rejected nor killed fills the opposite side's
    eligible orders (not expired, not its owner's) in priority order without skipping one, each
    but the last in full; and when quantity is left over, the best order still resting there is
    beyond the order's limit. *)
Theorem submit_priority b o now r b' :
  reachable b → submit_ok b o → submit b o now = Ret (r, b') → outcome_of r = Matched →
  let opp := opposite_side (no_side o) in
  (maker_id <$> fills r) `prefix_of`
    ids (filter (eligible (no_owner o) now) (matched_side b o now)) ∧
  (∀ i f f', fills r !! i = Some f → fills r !! S i = Some f' → maker_filled f = true) ∧
  (sumZ (f_qty <$> fills r) < no_qty o →
   match resting b' opp with e :: _ => crosses (no_side o) (no_tick o) e.1 = false | [] => True end).
Proof.
  intros Hr Hok Hrun Hout opp.
  destruct (submit_run b o now Hr Hok) as (_ & _ & _ & _ & _ & _ & Hpos & Hsort).
  destruct (matched_side_ok b o now Hpos Hsort) as (Hpl & _).
  destruct (submit_cases b o now Hr Hok) as (r0 & b0 & Hrun0 & _ & Hcase).
  rewrite Hrun in Hrun0. injection Hrun0 as <- <-. rewrite Hout in Hcase.
  destruct Hcase as (_ & _ & out & left & acc & Hm & Hf & _).
  destruct Hok as (_ & Hq & _).
  pose proof (spec_match_priority (no_side o) (no_tick o) (no_owner o) now _ (no_qty o)
                (acc_empty out) Hpl ltac:(lia)) as Hprio. rewrite Hm in Hprio.
  destruct Hprio as (fs & Hfs & Hpre & Hfull & Hrest).
  pose proof (spec_match_fills _ _ _ _ _ (no_qty o) _ _ _ _ Hpl ltac:(lia) Hm) as (_ & _ & fs' & Hfs' & Hsum & _).
  rewrite Hf, Hfs. simpl. split_and!; [done|done|]. intros Hlt. apply Hrest.
  rewrite Hfs in Hfs'. apply app_inv_head in Hfs' as <-. lia.
Qed.

Lemma submit_priority_witness :
  ∃ r b', submit demo_book (demo_order Long 105 10 9 GoodTilCancel false) 20 = Ret (r, b') ∧
    (maker_id <$> fills r) `prefix_of`
      ids (filter (eligible 9 20) (matched_side demo_book (demo_order Long 105 10 9 GoodTilCancel false) 20)).
Proof.
  eexists _, _. split; [vm_compute; reflexivity|].
  eapply (submit_priority demo_book (demo_order Long 105 10 9 GoodTilCancel false) 20 _ _ book_demo_reachable);
    [by vm_compute|vm_compute; reflexivity|vm_compute; reflexivity].
Defined.

(** Every fill is legitimate.  Each fill names an order that was resting on the opposite side when
    matching started, at that order's own tick, within the taker's limit; that order had not
    expired and belongs to another owner; the fill is positive and at most both sizes, and the
    sizes and the [maker_filled] flag it reports are the true ones. *)
Theorem submit_fills_legitimate b o now r b' :
  reachable b → submit_ok b o → submit b o now = Ret (r, b') →
  Forall (fill_ok (no_side o) (no_tick o) (no_owner o) now
            (resting b (opposite_side (no_side o)))) (fills r).
Proof.
  intros Hr Hok Hrun.
  destruct (submit_run b o now Hr Hok) as (_ & _ & _ & _ & _ & _ & Hpos & Hsort).
  destruct (matched_side_ok b o now Hpos Hsort) as (Hpl & _ & (l1 & Hl1) & _).
  destruct (submit_cases b o now Hr Hok) as (r0 & b0 & Hrun0 & _ & Hcase).
  rewrite Hrun in Hrun0. injection Hrun0 as <- <-.
  destruct (outcome_of r).
  - destruct Hcase as (_ & _ & -> & _). constructor.
  - destruct Hcase as (_ & _ & -> & _). constructor.
  - destruct Hcase as (_ & _ & out & left & acc & Hm & -> & _). destruct Hok as (_ & Hq & _).
    pose proof (spec_match_fills _ _ _ _ _ (no_qty o) _ _ _ _ Hpl ltac:(lia) Hm) as (_ & _ & fs & -> & _ & Hall).
    simpl. eapply Forall_impl; [exact Hall|]. intros f (d & Hin & ?). exists d.
    split; [|done]. rewrite Hl1. set_solver.
Qed.

Lemma submit_fills_legitimate_witness :
  ∃ r b', submit demo_book (demo_order Long 105 10 2 GoodTilCancel false) 60 = Ret (r, b') ∧
    (maker_owner <$> fills r) = [1; 3] ∧
    Forall (fill_ok Long 105 2 60 (resting demo_book Short)) (fills r).
Proof.
  eexists _, _. split; [vm_compute; reflexivity|]. split; [vm_compute; reflexivity|].
  eapply (submit_fills_legitimate demo_book (demo_order Long 105 10 2 GoodTilCancel false) 60 _ _ book_demo_reachable);
    [by vm_compute|vm_compute; reflexivity].
Defined.

(** Conservation.  The quantity of an order that was matched is exactly what it traded plus what
    came to rest plus, for the two time-in-force kinds that never rest, what was dropped; an order
    that may rest drops nothing, and the sum never exceeds the order. *)
Theorem submit_conserves b o now r b' :
  reachable b → submit_ok b o → submit b o now = Ret (r, b') → outcome_of r = Matched →
  0 ≤ no_qty o - sumZ (f_qty <$> fills r) - resting_qty r ∧
  (rests (no_tif o) = true → sumZ (f_qty <$> fills r) + resting_qty r = no_qty o) ∧
  (rests (no_tif o) = false → resting_id r = None ∧ resting_qty r = 0).
Proof.
  intros Hr Hok Hrun Hout.
  destruct (submit_run b o now Hr Hok) as (_ & _ & _ & _ & _ & _ & Hpos & Hsort).
  destruct (matched_side_ok b o now Hpos Hsort) as (Hpl & _).
  destruct (submit_cases b o now Hr Hok) as (r0 & b0 & Hrun0 & _ & Hcase).
  rewrite Hrun in Hrun0. injection Hrun0 as <- <-. rewrite Hout in Hcase.
  destruct Hcase as (_ & _ & out & left & acc & Hm & -> & _ & _ & Hrest). destruct Hok as (_ & Hq & _).
  pose proof (spec_match_fills _ _ _ _ _ (no_qty o) _ _ _ _ Hpl ltac:(lia) Hm) as (Hleft & _ & fs & Hfs & Hsum & _).
  unfold rested in Hrest. rewrite Hfs. simpl. rewrite Hsum.
  destruct (rests (no_tif o)).
  - rewrite andb_true_r in Hrest. case_bool_decide.
    + destruct Hrest as (x & _ & -> & _). split_and!; [lia|lia|done].
    + destruct Hrest as (_ & -> & _). split_and!; [lia|lia|done].
  - rewrite andb_false_r in Hrest. destruct Hrest as (-> & -> & _). split_and!; [lia|done|done].
Qed.

Lemma submit_conserves_witness :
  ∃ r b', submit demo_book (demo_order Long 100 10 9 GoodTilCancel false) 20 = Ret (r, b') ∧
    resting_qty r = 2 ∧ sumZ (f_qty <$> fills r) + resting_qty r = 10.
Proof.
  eexists _, _. split; [vm_compute; reflexivity|]. split; [vm_compute; reflexivity|].
  eapply (submit_conserves demo_book (demo_order Long 100 10 9 GoodTilCancel false) 20 _ _ book_demo_reachable);
    [by vm_compute|vm_compute; reflexivity|vm_compute; reflexivity|vm_compute; reflexivity].
Defined.

(** C14: Fill-or-kill is all or nothing.  A fill-or-kill order either trades exactly its whole quantity,
    or trades nothing, rests nothing and leaves both sides as they were (a maker-only one may have
    pruned expired orders); which of the two is decided by the eligible quantity its limit
    reaches. *)
Theorem fill_or_kill_all_or_nothing b o now r b' :
  reachable b → submit_ok b o → submit b o now = Ret (r, b') → no_tif o = FillOrKill →
  let enough := no_qty o ≤ reachable_qty (no_side o) (no_tick o) (no_owner o) now
                             (matched_side b o now) in
  match outcome_of r with
  | Matched => enough ∧ sumZ (f_qty <$> fills r) = no_qty o
  | Killed => ¬ enough ∧ untouched b b' o now r
  | Rejected => post_only o = true ∧ untouched b b' o now r
  end ∧ resting_id r = None.
Proof.
  intros Hr Hok Hrun Htif enough.
  destruct (submit_run b o now Hr Hok) as (_ & _ & _ & _ & _ & _ & Hpos & Hsort).
  destruct (matched_side_ok b o now Hpos Hsort) as (Hpl & Hsl & _).
  destruct (submit_cases b o now Hr Hok) as (r0 & b0 & Hrun0 & _ & Hcase).
  rewrite Hrun in Hrun0. injection Hrun0 as <- <-. destruct (outcome_of r).
  - destruct Hcase as (? & _ & Hun). split; [done|]. apply Hun.
  - destruct Hcase as (_ & ? & Hun). split; [split; [unfold enough; lia|done]|]. apply Hun.
  - destruct Hcase as (_ & Hen & out & left & acc & Hm & -> & _ & _ & Hrest).
    unfold rested in Hrest. rewrite Htif in Hrest. simpl in Hrest. rewrite andb_false_r in Hrest.
    destruct Hok as (_ & Hq & _). specialize (Hen Htif).
    pose proof (spec_match_fills _ _ _ _ _ (no_qty o) _ _ _ _ Hpl ltac:(lia) Hm) as (Hleft & _ & fs & Hfs & Hsum & _).
    pose proof (spec_match_takes (no_side o) (no_tick o) (no_owner o) now _ (no_qty o) (acc_empty out)
                  Hpl Hsl ltac:(lia)) as Htake. rewrite Hm in Htake. simpl in Htake.
    rewrite Hfs. simpl. rewrite Hsum. split; [|apply Hrest]. split; [done|lia].
Qed.

Lemma fill_or_kill_all_or_nothing_witness :
  ∃ r b', submit demo_book (demo_order Long 100 9 9 FillOrKill false) 20 = Ret (r, b') ∧
    outcome_of r = Killed ∧
    (match outcome_of r with
     | Matched => 9 ≤ reachable_qty Long 100 9 20 (resting demo_book Short) ∧
         sumZ (f_qty <$> fills r) = 9
     | Killed => ¬ 9 ≤ reachable_qty Long 100 9 20 (resting demo_book Short) ∧
         untouched demo_book b' (demo_order Long 100 9 9 FillOrKill false) 20 r
     | Rejected => false = true ∧
         untouched demo_book b' (demo_order Long 100 9 9 FillOrKill false) 20 r
     end ∧ resting_id r = None).
Proof.
  eexists _, _. split; [vm_compute; reflexivity|]. split; [vm_compute; reflexivity|].
  eapply (fill_or_kill_all_or_nothing demo_book (demo_order Long 100 9 9 FillOrKill false) 20 _ _ book_demo_reachable);
    [by vm_compute|vm_compute; reflexivity|reflexivity].
Defined.

(** Maker-only orders never take.  A maker-only order trades with nobody: it is rejected when,
    after the expired orders at the touch are pruned, the best opposite order is within its limit,
    and otherwise its whole quantity rests (unless its time in force never rests). *)
Theorem post_only_never_takes b o now r b' :
  reachable b → submit_ok b o → submit b o now = Ret (r, b') → post_only o = true →
  fills r = [] ∧
  (outcome_of r = Rejected ↔
     match matched_side b o now with
     | e :: _ => crosses (no_side o) (no_tick o) e.1 = true
     | [] => False
     end) ∧
  (outcome_of r = Matched → rests (no_tif o) = true → resting_qty r = no_qty o).
Proof.
  intros Hr Hok Hrun Hpo.
  destruct (submit_cases b o now Hr Hok) as (r0 & b0 & Hrun0 & Hnn & Hcase).
  destruct (submit_run b o now Hr Hok) as (r1 & b1 & x & Hrun1 & Hspec & _ & Hpos & Hsort).
  rewrite Hrun in Hrun0, Hrun1. injection Hrun0 as <- <-. injection Hrun1 as <- <-.
  destruct (matched_side_ok b o now Hpos Hsort) as (Hpl & Hsl & _ & out1 & Hms).
  assert (Hrej : match matched_side b o now with
                 | e :: _ => crosses (no_side o) (no_tick o) e.1 | [] => false end = true →
                 outcome_of r = Rejected).
  { intros Hc. unfold spec_submit in Hspec. rewrite Hms, Hpo, Hc in Hspec.
    by injection Hspec as <- _ _. }
  destruct (outcome_of r) eqn:Hout.
  - destruct Hcase as (_ & (e & l' & -> & Hc) & Hun & _). done.
  - destruct Hcase as (_ & _ & Hun & _). split_and!; [done| |done].
    split; [done|]. destruct (matched_side b o now) as [|e l']; [done|]. intros Hc.
    by apply Hrej in Hc.
  - destruct Hcase as (Hnc & _ & out & left & acc & Hm & -> & _ & _ & Hrest). specialize (Hnc Hpo).
    assert (Hzero : reachable_qty (no_side o) (no_tick o) (no_owner o) now (matched_side b o now) = 0).
    { apply reachable_qty_none. destruct (matched_side b o now) as [|e l']; [constructor|].
      apply StronglySorted_inv in Hsl as [_ Hlt]. constructor; [done|].
      by apply (sorted_not_crossing _ _ e). }
    destruct Hok as (_ & Hq & _).
    pose proof (spec_match_takes (no_side o) (no_tick o) (no_owner o) now _ (no_qty o) (acc_empty out)
                  Hpl Hsl ltac:(lia)) as Htake. rewrite Hm, Hzero in Htake. simpl in Htake.
    assert (left = no_qty o) as -> by lia.
    assert (Hnf : acc_fills acc = []).
    { clear - Hm Hnc. destruct (matched_side b o now) as [|[t [y d]] l']; simpl in Hm.
      - by assert (acc = acc_empty out) as -> by congruence.
      - simpl in Hnc. rewrite Hnc in Hm.
        assert (acc = acc_empty out) as -> by (case_decide; congruence). done. }
    split_and!; [done| |].
    + split; [done|]. destruct (matched_side b o now) as [|e l']; [done|]. congruence.
    + intros _ Hre. unfold rested in Hrest. rewrite Hre, andb_true_r in Hrest.
      case_bool_decide; [by destruct Hrest as (y & _ & -> & _)|destruct Hrest as (_ & -> & _); lia].
Qed.

Lemma post_only_never_takes_witness :
  ∃ r b', submit demo_book (demo_order Long 99 7 9 GoodTilCancel true) 20 = Ret (r, b') ∧
    resting_qty r = 7 ∧ fills r = [].
Proof.
  eexists _, _. split; [vm_compute; reflexivity|]. split; [vm_compute; reflexivity|].
  refine (proj1 (post_only_never_takes demo_book (demo_order Long 99 7 9 GoodTilCancel true) 20 _ _
                   book_demo_reachable _ _ _)); [by vm_compute|vm_compute; reflexivity|reflexivity].
Defined.

(** The book invariant.  On every book reached from the empty one, each side is in price-time order
    with positive quantities, the cached best tick is that of its first order, ids are unique
    across both sides, and the arena's live slots are exactly the resting orders, as [owner_of]
    reports them. *)
Theorem reachable_book_invariant b s :
  reachable b →
  priority_sorted s (resting b s) ∧ positive (resting b s) ∧
  best b s = first_tick (resting b s) ∧
  NoDup (ids (resting b Long ++ resting b Short)) ∧
  (∀ x w, 0 ≤ x → owner_of b x = Some w ↔
     ∃ s' t d, (t, (x, d)) ∈ resting b s' ∧ r_owner d = w).
Proof.
  intros [A Hinv]%reachable_inv. pose proof (inv_core _ _ Hinv) as Hc. split_and!.
  - by eapply resting_sorted.
  - rewrite (resting_flat _ _ _ Hinv). by eapply flat_positive.
  - rewrite (resting_flat _ _ _ Hinv). apply Hinv.
  - rewrite !(resting_flat _ _ _ Hinv). unfold ids. rewrite fmap_app. apply NoDup_app. split_and!.
    + by eapply flat_NoDup.
    + intros x ([t [y d]] & -> & Hl)%list_elem_of_fmap ([t' [y' d']] & E & Hs)%list_elem_of_fmap.
      cbn [fst snd] in E. subst y'. apply (flat_live b A None) in Hl as (_ & p & n & Ha); [|done].
      apply (flat_live b A None) in Hs as (_ & p' & n' & Ha'); [|done].
      unfold mk_node in *. congruence.
    + by eapply flat_NoDup.
  - intros x w Hx. unfold owner_of. split.
    + destruct (arena b !! Z.to_nat x) as [[nd|]|] eqn:Ha; [|done..]. intros [= <-].
      destruct (live_flat b A x nd Hc Hx Ha) as (d & p & n & Hnd & Hin).
      exists (n_side nd), (n_tick nd), d. rewrite (resting_flat _ _ _ Hinv). split; [done|].
      by rewrite Hnd.
    + intros (s' & t & d & Hin & <-). rewrite (resting_flat _ _ _ Hinv) in Hin.
      apply (flat_live b A None) in Hin as (_ & p & n & ->); [|done]. done.
Qed.

Lemma reachable_book_invariant_witness :
  ids (resting demo_book Short) = [0; 1; 2] ∧ best demo_book Short = first_tick (resting demo_book Short).
Proof.
  split; [vm_compute; reflexivity|].
  exact (proj1 (proj2 (proj2 (reachable_book_invariant demo_book Short book_demo_reachable)))).
Defined.

(** Cancellation.  Cancelling the id of a resting order reports its tick and remaining quantity and
    removes that order and nothing else; any other id reports nothing and changes nothing. *)
Theorem cancel_correct b x :
  reachable b → 0 ≤ x →
  match owner_of b x with
  | Some _ =>
      ∃ s t d b' l1 l2, cancel b x = Ret (Some (t, r_qty d), b') ∧
        resting b s = l1 ++ (t, (x, d)) :: l2 ∧ resting b' s = l1 ++ l2 ∧
        resting b' (opposite_side s) = resting b (opposite_side s)
  | None => cancel b x = Ret (None, b)
  end.
Proof.
  intros [A Hinv]%reachable_inv Hx. pose proof (inv_core _ _ Hinv) as Hc.
  unfold owner_of. destruct (arena b !! Z.to_nat x) as [[nd|]|] eqn:Ha;
    [|apply cancel_dead; intros nd; congruence..].
  destruct (live_flat b A x nd Hc Hx Ha) as (d & p & n & _ & Hin).
  destruct (cancel_live_spec b A _ _ x d Hinv Hin) as (b' & A' & g1 & g2 & Hrun & Hinv' & Hf & Hf' & Ho & _).
  exists (n_side nd), (n_tick nd), d, b', g1, g2.
  rewrite !(resting_flat b A), !(resting_flat b' A') by done.
  split_and!; [done..|]. apply Ho, opposite_ne.
Qed.

Lemma cancel_correct_witness :
  owner_of demo_book 1 = Some 2 ∧
  match owner_of demo_book 1 with
  | Some _ =>
      ∃ s t d b' l1 l2, cancel demo_book 1 = Ret (Some (t, r_qty d), b') ∧
        resting demo_book s = l1 ++ (t, (1, d)) :: l2 ∧ resting b' s = l1 ++ l2 ∧
        resting b' (opposite_side s) = resting demo_book (opposite_side s)
  | None => cancel demo_book 1 = Ret (None, demo_book)
  end.
Proof.
  split; [vm_compute; reflexivity|]. apply (cancel_correct demo_book 1 book_demo_reachable). lia.
Defined.

(** Depth.  On a reachable book a depth snapshot lists, best first, the distinct ticks that hold
    orders, capped at the requested number, each with the exact total resting there and the
    running total, both on [u64]; and it reports the true best ticks. *)
Theorem snapshot_correct b n :
  reachable b →
  snapshot b n = Ret {|
    snap_best_bid := first_tick (resting b Long);
    snap_best_ask := first_tick (resting b Short);
    snap_bids := spec_depth (take n (uniq (fst <$> resting b Long))) (resting b Long) 0;
    snap_asks := spec_depth (take n (uniq (fst <$> resting b Short))) (resting b Short) 0;
  |}.
Proof.
  intros [A Hinv]%reachable_inv. unfold snapshot. rewrite !(depth_spec _ _ _ _ Hinv), !ret_bind.
  rewrite !(resting_flat _ _ _ Hinv). pose proof (inv_best _ _ Hinv Long) as Hl.
  pose proof (inv_best _ _ Hinv Short) as Hs. simpl best in Hl, Hs. by rewrite Hl, Hs.
Qed.

Lemma snapshot_correct_witness :
  spec_depth (take 5 (uniq (fst <$> resting demo_book Short))) (resting demo_book Short) 0 =
    [{| pl_tick := 100; pl_qty := 8; cumulative := 8 |};
     {| pl_tick := 105; pl_qty := 9; cumulative := 17 |}] ∧
  snapshot demo_book 5 = Ret {|
    snap_best_bid := first_tick (resting demo_book Long);
    snap_best_ask := first_tick (resting demo_book Short);
    snap_bids := spec_depth (take 5 (uniq (fst <$> resting demo_book Long))) (resting demo_book Long) 0;
    snap_asks := spec_depth (take 5 (uniq (fst <$> resting demo_book Short))) (resting demo_book Short) 0;
  |}.
Proof.
  split; [vm_compute; reflexivity|]. apply (snapshot_correct demo_book 5 book_demo_reachable).
Defined.

(** The bitmap scans.  On a well-formed bitmap [next_set_from] and [prev_set_from] return, without
    reading out of range, the least set bit at or above and the greatest set bit at or below
    their argument, or nothing when there is none. *)
Theorem occupancy_scans_correct o i :
  occ_ok o →
  (∃ r, next_set_from o i = Ret r ∧ next_spec o i r) ∧
  (∃ r, prev_set_from o i = Ret r ∧ prev_spec o i r).
Proof. intros Hok. split; [by apply next_set_from_spec|by apply prev_set_from_spec]. Qed.

Lemma occupancy_scans_correct_witness :
  next_set_from (occupancy (asks demo_book)) 1 = Ret (Some 5%nat) ∧
  (∃ r, next_set_from (occupancy (asks demo_book)) 1 = Ret r ∧
     next_spec (occupancy (asks demo_book)) 1 r) ∧
  (∃ r, prev_set_from (occupancy (asks demo_book)) 1 = Ret r ∧
     prev_spec (occupancy (asks demo_book)) 1 r).
Proof.
  split; [vm_compute; reflexivity|]. apply (occupancy_scans_correct (occupancy (asks demo_book)) 1).
  destruct (reachable_inv _ book_demo_reachable) as [A Hinv].
  exact (lr_occ _ _ _ (ic_lad _ _ _ (inv_core _ _ Hinv) Short)).
Defined.
