(* ===== verification/Risk.v ===== *)
(** * The risk engine ([crates/risk/src/lib.rs])

    Isolated maintenance margin (the mirror of [RiskMonitor.sol]) and the portfolio margin
    [M = f_S + f_C + f_L + f_K].  Definitions only; the theorems are in [RiskProps].  A
    [HashMap] is a [gmap]; where the code iterates one, the fold runs over its entries in the
    map's own order, which [RiskProps] shows immaterial. *)
From S2P Require Import Prelude Ints Types U256.
Open Scope Z_scope.

(** ** Constants and data *)

Definition MMR_BPS : Z := 300.
Definition BPS_DENOMINATOR : Z := 10000.
Definition SCALE : Z := 1000000000000000000.

Inductive RiskError :=
| MissingMarkPrice (m : MarketId)
| RequirementOverflow.

Record PositionState := { market_id : MarketId; size : Z }.

Record AccountState := { positions : list PositionState; effective_collateral : Z }.

Record MarginResult := {
  margin_requirement : Z;
  mr_effective_collateral : Z;
  maintenance_breached : bool;
}.

Record Scenario := { label : string; price_shifts_bps : gmap MarketId Z }.

Record CorrelationEntry := { market_a : MarketId; market_b : MarketId; rho_bps : Z }.

Record PortfolioMarginParams := {
  scenarios : list Scenario;
  asset_groups : gmap MarketId string;
  concentration_threshold_bps : Z;
  concentration_kappa_bps : Z;
  liquidity_bps : gmap MarketId Z;
  correlations : list CorrelationEntry;
  beta_bps : Z;
}.

Record PortfolioMarginResult := {
  f_scenario : Z;
  f_concentration : Z;
  f_liquidity : Z;
  f_correlation : Z;
  total : Z;
}.

Abbreviation Prices := (gmap MarketId Z) (only parsing).

#[export] Instance RiskError_eq_dec : EqDecision RiskError.
Proof. solve_decision. Defined.

(** [.map_err(|_| RequirementOverflow)] of a fallible conversion or checked operation. *)
Definition or_overflow (o : option Z) : exec (result Z RiskError) :=
  Ret (ok_or o RequirementOverflow).

(** [oracle_mark_prices.get(&position.market_id).ok_or_else(...)]. *)
Definition mark_price (prices : Prices) (p : PositionState) : exec (result Z RiskError) :=
  Ret (ok_or (prices !! market_id p) (MissingMarkPrice (market_id p))).

Section risk.
Context `{U : U256}.

(** ** Isolated margin *)

(** One position's term: the full product before one floor division. *)
Definition margin_term (p : PositionState) (price : Z) : exec Z :=
  a ← u256_mul (Z.abs (size p)) price;
  a ← u256_mul a MMR_BPS;
  d ← u256_mul SCALE BPS_DENOMINATOR;
  u256_div a d.

Definition requirement_step (prices : Prices) (requirement : Z) (p : PositionState) :
    exec (result Z RiskError) :=
  if decide (size p = 0) then Ret (Ok requirement)
  else
    price ←? mark_price prices p;
    term ← margin_term p price;
    r ← u256_add requirement term;
    Ret (Ok r).

Definition current_margin_requirement (ps : list PositionState) (prices : Prices) :
    exec (result Z RiskError) :=
  requirement ←? try_fold (requirement_step prices) 0 ps;
  or_overflow (try_u 128 requirement).

Definition compute_margin (a : AccountState) (prices : Prices) :
    exec (result MarginResult RiskError) :=
  m ←? current_margin_requirement (positions a) prices;
  Ret (Ok {| margin_requirement := m; mr_effective_collateral := effective_collateral a;
             maintenance_breached := bool_decide (effective_collateral a < m) |}).

Definition is_withdraw_safe (a : AccountState) (prices : Prices) (withdraw_value_usd : Z) :
    exec (result bool RiskError) :=
  m ←? current_margin_requirement (positions a) prices;
  if decide (effective_collateral a < withdraw_value_usd) then Ret (Ok false)
  else Ret (Ok (bool_decide (m ≤ effective_collateral a - withdraw_value_usd))).

(** ** Portfolio margin *)

Definition signed_exposure_usd (sz price : Z) : exec (result Z RiskError) :=
  magnitude ← mul_div (Z.abs sz) price SCALE;
  m ←? or_overflow (try_s 128 magnitude);
  Ret (Ok (if decide (sz < 0) then i128_neg m else m)).

(** The mark price shifted by [shift_bps], on the signed surface. *)
Definition shifted_price (price shift_bps : Z) : exec (result Z RiskError) :=
  delta ← mul_div price (Z.abs shift_bps) BPS_DENOMINATOR;
  delta ←? or_overflow (try_s 128 delta);
  Ret (Ok (if decide (shift_bps < 0) then i128_sub (as_i128 price) delta
           else i128_add (as_i128 price) delta)).

(** One position's contribution to a scenario's value change. *)
Definition scenario_step (prices : Prices) (shifts : gmap MarketId Z) (change : Z)
    (p : PositionState) : exec (result Z RiskError) :=
  if decide (size p = 0) then Ret (Ok change)
  else
    price ←? mark_price prices p;
    shifted ←? shifted_price price (default 0 (shifts !! market_id p));
    after ←? signed_exposure_usd (size p) (as_u128 (Z.max shifted 0));
    before ←? signed_exposure_usd (size p) price;
    position_change ←? or_overflow (try_s 128 (after - before));
    or_overflow (try_s 128 (change + position_change)).

Definition scenario_loss_step (ps : list PositionState) (prices : Prices) (worst : Z)
    (sc : Scenario) : exec (result Z RiskError) :=
  change ←? try_fold (scenario_step prices (price_shifts_bps sc)) 0 ps;
  Ret (Ok (Z.max worst (sat_s 128 (- change)))).

Definition scenario_margin (ps : list PositionState) (prices : Prices) (scs : list Scenario) :
    exec (result Z RiskError) :=
  worst ←? try_fold (scenario_loss_step ps prices) 0 scs;
  Ret (Ok (as_u128 (Z.max worst 0))).

(** [u128]-wide notional of a position. *)
Definition notional_u128 (p : PositionState) (price : Z) : exec (result Z RiskError) :=
  n ← mul_div (Z.abs (size p)) price SCALE;
  or_overflow (try_u 128 n).

Definition group_of (groups : gmap MarketId string) (p : PositionState) : string :=
  default "ungrouped" (groups !! market_id p).

Definition concentration_step (prices : Prices) (groups : gmap MarketId string)
    (acc : Z * gmap string Z) (p : PositionState) : exec (result (Z * gmap string Z) RiskError) :=
  let '(total_notional, group_notional) := acc in
  if decide (size p = 0) then Ret (Ok acc)
  else
    price ←? mark_price prices p;
    notional ←? notional_u128 p price;
    total' ←? or_overflow (try_u 128 (total_notional + notional));
    let group := group_of groups p in
    Ret (Ok (total', <[group := u128_add (default 0 (group_notional !! group)) notional]>
                       group_notional)).

(** What one group is charged. *)
Definition group_charge (threshold_notional kappa_bps notional : Z) : Z :=
  if decide (threshold_notional < notional) then
    u128_mul (notional - threshold_notional) kappa_bps / BPS_DENOMINATOR
  else 0.

(** The fold over [group_notional.values()], in a given order. *)
Definition charge_groups (threshold_notional kappa_bps : Z) (notionals : list Z) : Z :=
  foldl (λ charge n, if decide (threshold_notional < n)
                     then u128_add charge (group_charge threshold_notional kappa_bps n)
                     else charge) 0 notionals.

Definition concentration_charge (ps : list PositionState) (prices : Prices)
    (groups : gmap MarketId string) (threshold_bps kappa_bps : Z) : exec (result Z RiskError) :=
  '(total_notional, group_notional) ←? try_fold (concentration_step prices groups) (0, ∅) ps;
  if decide (total_notional = 0) then Ret (Ok 0)
  else
    let threshold_notional := u128_mul total_notional threshold_bps / BPS_DENOMINATOR in
    Ret (Ok (charge_groups threshold_notional kappa_bps (map_to_list group_notional).*2)).

Definition liquidity_step (prices : Prices) (coefficients : gmap MarketId Z) (charge : Z)
    (p : PositionState) : exec (result Z RiskError) :=
  if decide (size p = 0) then Ret (Ok charge)
  else
    price ←? mark_price prices p;
    notional ← mul_div (Z.abs (size p)) price SCALE;
    term ← mul_div notional (default 0 (coefficients !! market_id p)) BPS_DENOMINATOR;
    t ←? or_overflow (try_u 128 term);
    Ret (Ok (u128_add charge t)).

Definition liquidity_charge (ps : list PositionState) (prices : Prices)
    (coefficients : gmap MarketId Z) : exec (result Z RiskError) :=
  try_fold (liquidity_step prices coefficients) 0 ps.

Definition exposure_step (prices : Prices) (exposures : gmap MarketId Z) (p : PositionState) :
    exec (result (gmap MarketId Z) RiskError) :=
  if decide (size p = 0) then Ret (Ok exposures)
  else
    price ←? mark_price prices p;
    e ←? signed_exposure_usd (size p) price;
    Ret (Ok (<[market_id p := e]> exposures)).

Definition correlation_step (exposures : gmap MarketId Z) (beta : Z) (tot : Z)
    (entry : CorrelationEntry) : exec (result Z RiskError) :=
  match exposures !! market_a entry, exposures !! market_b entry with
  | Some e_a, Some e_b =>
      let min_magnitude := Z.min (Z.abs e_a) (Z.abs e_b) in
      let sign := if decide (0 ≤ e_a ↔ 0 ≤ e_b) then 1 else -1 in
      a ← u256_mul min_magnitude (Z.abs (rho_bps entry));
      a ← u256_mul a beta;
      d ← u256_mul BPS_DENOMINATOR BPS_DENOMINATOR;
      q ← u256_div a d;
      term ←? or_overflow (try_s 128 q);
      let rho_sign := if decide (rho_bps entry < 0) then -1 else 1 in
      or_overflow (try_s 128 (tot + i128_mul (i128_mul sign rho_sign) term))
  | _, _ => Ret (Ok tot)
  end.

Definition correlation_adjustment (ps : list PositionState) (prices : Prices)
    (entries : list CorrelationEntry) (beta : Z) : exec (result Z RiskError) :=
  exposures ←? try_fold (exposure_step prices) ∅ ps;
  try_fold (correlation_step exposures beta) 0 entries.

Definition compute_portfolio_margin (ps : list PositionState) (prices : Prices)
    (params : PortfolioMarginParams) : exec (result PortfolioMarginResult RiskError) :=
  fs ←? scenario_margin ps prices (scenarios params);
  fc ←? concentration_charge ps prices (asset_groups params) (concentration_threshold_bps params)
          (concentration_kappa_bps params);
  fl ←? liquidity_charge ps prices (liquidity_bps params);
  fk ←? correlation_adjustment ps prices (correlations params) (beta_bps params);
  let sum := i128_add (i128_add (i128_add (as_i128 fs) (as_i128 fc)) (as_i128 fl)) fk in
  Ret (Ok {| f_scenario := fs; f_concentration := fc; f_liquidity := fl; f_correlation := fk;
             total := as_u128 (Z.max sum 0) |}).
End risk.
