(* ===== verification/RiskProps.v ===== *)
(** * Properties of the risk engine

    Closed forms for every term of [Risk]: the isolated requirement with its exact error and
    abort conditions, withdraw safety, and the portfolio terms [f_S], [f_C], [f_L] and [f_K]
    under explicit bounds that keep the code's 128-bit surfaces from overflowing. *)
From S2P Require Import Prelude Ints Types U256 Risk.
Open Scope Z_scope.

(** ** Specification *)

Definition active (ps : list PositionState) : list PositionState := filter (λ p, size p ≠ 0) ps.
Definition price_of (prices : gmap MarketId Z) (p : PositionState) : Z :=
  default 0 (prices !! market_id p).

(** Ranges of the Rust types. *)
Definition sizes_ok (ps : list PositionState) : Prop := Forall (λ p, in_s 128 (size p)) ps.
Definition prices_ok (prices : gmap MarketId Z) : Prop := map_Forall (λ _ x, in_u 128 x) prices.
Definition priced (prices : gmap MarketId Z) (ps : list PositionState) : Prop :=
  Forall (λ p, size p ≠ 0 → is_Some (prices !! market_id p)) ps.

(** What stops the requirement at a position: a missing price, or a product above 256 bits. *)
Definition position_fault (prices : gmap MarketId Z) (p : PositionState) :
    option (exec (result Z RiskError)) :=
  if decide (size p = 0) then None
  else match prices !! market_id p with
       | None => Some (Ret (Err (MissingMarkPrice (market_id p))))
       | Some price =>
           if decide (2 ^ 256 ≤ Z.abs (size p) * price * MMR_BPS) then Some Panic else None
       end.

Definition isolated_term (prices : gmap MarketId Z) (p : PositionState) : Z :=
  Z.abs (size p) * price_of prices p * MMR_BPS / (SCALE * BPS_DENOMINATOR).

Definition requirement_spec (ps : list PositionState) (prices : gmap MarketId Z) :
    exec (result Z RiskError) :=
  match omap (position_fault prices) ps with
  | fault :: _ => fault
  | [] => let m := sumZ (isolated_term prices <$> ps) in
          if decide (m < 2 ^ 128) then Ret (Ok m) else Ret (Err RequirementOverflow)
  end.

Definition notional_at (sz price : Z) : Z := Z.abs sz * price / SCALE.
Definition exposure_at (sz price : Z) : Z := Z.sgn sz * notional_at sz price.
Definition notional (prices : gmap MarketId Z) (p : PositionState) : Z :=
  notional_at (size p) (price_of prices p).
Definition gross (prices : gmap MarketId Z) (ps : list PositionState) : Z :=
  sumZ (notional prices <$> ps).

Definition shift_of (sc : Scenario) (p : PositionState) : Z :=
  default 0 (price_shifts_bps sc !! market_id p).
Definition shift_delta (prices : gmap MarketId Z) (sc : Scenario) (p : PositionState) : Z :=
  price_of prices p * Z.abs (shift_of sc p) / BPS_DENOMINATOR.
(** The price a scenario moves a market to, floored at zero. *)
Definition stressed_price (prices : gmap MarketId Z) (sc : Scenario) (p : PositionState) : Z :=
  Z.max 0 (price_of prices p + Z.sgn (shift_of sc p) * shift_delta prices sc p).
Definition value_change (prices : gmap MarketId Z) (sc : Scenario) (p : PositionState) : Z :=
  exposure_at (size p) (stressed_price prices sc p) - exposure_at (size p) (price_of prices p).
Definition scenario_loss (ps : list PositionState) (prices : gmap MarketId Z) (sc : Scenario) : Z :=
  - sumZ (value_change prices sc <$> ps).
Definition worst_case (losses : list Z) : Z := foldl Z.max 0 losses.

(** A scenario whose prices and values stay inside [i128]. *)
Definition scenario_fits (ps : list PositionState) (prices : gmap MarketId Z) (sc : Scenario) : Prop :=
  map_Forall (λ _ s, in_s 128 s) (price_shifts_bps sc) ∧
  Forall (λ p, price_of prices p + shift_delta prices sc p < 2 ^ 127) ps ∧
  sumZ ((λ p, notional_at (size p) (stressed_price prices sc p) + notional prices p) <$> ps)
    < 2 ^ 127.

Definition group_total (ps : list PositionState) (prices : gmap MarketId Z)
    (groups : gmap MarketId string) (g : string) : Z :=
  sumZ (notional prices <$> filter (λ p, group_of groups p = g) (active ps)).
Definition groups_in (ps : list PositionState) (groups : gmap MarketId string) : list string :=
  remove_dups (group_of groups <$> active ps).
Definition concentration_threshold (ps : list PositionState) (prices : gmap MarketId Z)
    (threshold_bps : Z) : Z := gross prices ps * threshold_bps / BPS_DENOMINATOR.
(** [kappa] on a group's excess over the threshold. *)
Definition excess_charge (threshold kappa n : Z) : Z :=
  Z.max 0 (n - threshold) * kappa / BPS_DENOMINATOR.
Definition concentration_spec (ps : list PositionState) (prices : gmap MarketId Z)
    (groups : gmap MarketId string) (threshold_bps kappa_bps : Z) : Z :=
  sumZ ((λ g, excess_charge (concentration_threshold ps prices threshold_bps) kappa_bps
                (group_total ps prices groups g)) <$> groups_in ps groups).

Definition liquidity_term (prices coefficients : gmap MarketId Z) (p : PositionState) : Z :=
  notional prices p * default 0 (coefficients !! market_id p) / BPS_DENOMINATOR.
Definition liquidity_spec (ps : list PositionState) (prices coefficients : gmap MarketId Z) : Z :=
  sumZ (liquidity_term prices coefficients <$> ps).

(** The exposure map: the last position of a market wins. *)
Definition exposures_of (ps : list PositionState) (prices : gmap MarketId Z) : gmap MarketId Z :=
  foldl (λ m p, <[market_id p := exposure_at (size p) (price_of prices p)]> m) ∅ (active ps).
Definition direction (x : Z) : Z := if decide (x < 0) then -1 else 1.
Definition pair_size (exposures : gmap MarketId Z) (beta : Z) (e : CorrelationEntry) : Z :=
  match exposures !! market_a e, exposures !! market_b e with
  | Some e_a, Some e_b =>
      Z.min (Z.abs e_a) (Z.abs e_b) * Z.abs (rho_bps e) * beta / (BPS_DENOMINATOR * BPS_DENOMINATOR)
  | _, _ => 0
  end.
Definition pair_term (exposures : gmap MarketId Z) (beta : Z) (e : CorrelationEntry) : Z :=
  match exposures !! market_a e, exposures !! market_b e with
  | Some e_a, Some e_b =>
      direction e_a * direction e_b * direction (rho_bps e) * pair_size exposures beta e
  | _, _ => 0
  end.
Definition correlation_spec (ps : list PositionState) (prices : gmap MarketId Z)
    (entries : list CorrelationEntry) (beta : Z) : Z :=
  sumZ (pair_term (exposures_of ps prices) beta <$> entries).

(** Portfolios whose terms stay inside the code's integer types. *)
Record well_scaled (ps : list PositionState) (prices : gmap MarketId Z)
    (params : PortfolioMarginParams) : Prop := {
  ws_sizes : sizes_ok ps;
  ws_prices : prices_ok prices;
  ws_priced : priced prices ps;
  ws_gross : gross prices ps < 2 ^ 127;
  ws_scenarios : Forall (scenario_fits ps prices) (scenarios params);
  ws_threshold : 0 ≤ concentration_threshold_bps params ∧
                 gross prices ps * concentration_threshold_bps params < 2 ^ 128;
  ws_kappa : 0 ≤ concentration_kappa_bps params ∧
             gross prices ps * concentration_kappa_bps params < 2 ^ 128;
  ws_liquidity : map_Forall (λ _ x, in_u 128 x) (liquidity_bps params);
  ws_beta : 0 ≤ beta_bps params < 2 ^ 64;
  ws_rho : Forall (λ e, Z.abs (rho_bps e) ≤ BPS_DENOMINATOR) (correlations params);
  ws_total : worst_case (scenario_loss ps prices <$> scenarios params)
             + concentration_spec ps prices (asset_groups params)
                 (concentration_threshold_bps params) (concentration_kappa_bps params)
             + liquidity_spec ps prices (liquidity_bps params)
             + sumZ (pair_size (exposures_of ps prices) (beta_bps params) <$> correlations params)
             < 2 ^ 127;
}.

(** Portfolios of the sizes a venue sees, in terms of its inputs alone: at most 4096 positions and
    correlations, a position of at most 2^160 in size times price (above 10^12 dollars, as both are
    scaled by 10^18), shifts, thresholds and coefficients of at most 2^14 basis points. *)
Record practical (ps : list PositionState) (prices : gmap MarketId Z) (params : PortfolioMarginParams) : Prop := {
  pr_count : Z.of_nat (length ps) ≤ 2 ^ 12;
  pr_sizes : sizes_ok ps;
  pr_prices : map_Forall (λ _ x, 0 ≤ x ≤ 2 ^ 112) prices;
  pr_priced : priced prices ps;
  pr_worth : Forall (λ p, Z.abs (size p) * price_of prices p ≤ 2 ^ 160) ps;
  pr_shifts : Forall (λ sc, map_Forall (λ _ s, Z.abs s ≤ 2 ^ 14) (price_shifts_bps sc)) (scenarios params);
  pr_threshold : 0 ≤ concentration_threshold_bps params ≤ 2 ^ 14;
  pr_kappa : 0 ≤ concentration_kappa_bps params ≤ 2 ^ 14;
  pr_liquidity : map_Forall (λ _ x, 0 ≤ x ≤ 2 ^ 14) (liquidity_bps params);
  pr_pairs : Z.of_nat (length (correlations params)) ≤ 2 ^ 12;
  pr_rho : Forall (λ e, Z.abs (rho_bps e) ≤ BPS_DENOMINATOR) (correlations params);
  pr_beta : 0 ≤ beta_bps params ≤ 2 ^ 14;
}.

(** A two-market book used by the witnesses: long 10 at 100, short 4 at 50, with a crash and a
    rally scenario, one asset group per market and a positive correlation. *)
Definition demo_positions : list PositionState :=
  [{| market_id := "ETH"; size := 10 * SCALE |}; {| market_id := "SOL"; size := -4 * SCALE |};
   {| market_id := "BTC"; size := 0 |}].
Definition demo_prices : gmap MarketId Z := <["ETH" := 100 * SCALE]> {["SOL" := 50 * SCALE]}.
Definition demo_params : PortfolioMarginParams := {|
  scenarios := [{| label := "crash"; price_shifts_bps := <["ETH" := -2000]> {["SOL" := -1000]} |};
                {| label := "rally"; price_shifts_bps := {["SOL" := 3000]} |}];
  asset_groups := <["ETH" := "majors"]> {["SOL" := "alts"]};
  concentration_threshold_bps := 5000;
  concentration_kappa_bps := 100;
  liquidity_bps := {["SOL" := 50]};
  correlations := [{| market_a := "ETH"; market_b := "SOL"; rho_bps := 8000 |}];
  beta_bps := 500;
|}.

(** ** Folds that add *)

Lemma try_fold_app {A B E} (f : B → A → exec (result B E)) acc l1 l2 :
  try_fold f acc (l1 ++ l2) = try_bind (try_fold f acc l1) (λ acc', try_fold f acc' l2).
Proof.
  revert acc. induction l1 as [|x l1 IH]; intros acc; [done|]. cbn [app try_fold].
  destruct (f acc x) as [[a|e]|]; [apply IH|done|done].
Qed.

Lemma try_fold_sum {A E} (f : Z → A → exec (result Z E)) (g : A → Z) l a :
  (∀ l1 x l2, l = l1 ++ x :: l2 →
     f (a + sumZ (g <$> l1)) x = Ret (Ok (a + sumZ (g <$> l1) + g x))) →
  try_fold f a l = Ret (Ok (a + sumZ (g <$> l))).
Proof.
  revert a. induction l as [|x l IH]; intros a Hf; [by rewrite fmap_nil, Z.add_0_r|].
  cbn [try_fold]. pose proof (Hf [] x l eq_refl) as Hx. rewrite fmap_nil, Z.add_0_r in Hx.
  rewrite Hx. cbn [try_bind]. rewrite IH.
  - by rewrite fmap_cons, sumZ_cons, Z.add_assoc.
  - intros l1 y l2 ->. specialize (Hf (x :: l1) y l2 eq_refl).
    by rewrite fmap_cons, sumZ_cons, Z.add_assoc in Hf.
Qed.

(** Prefixes of a sum of non-negative terms. *)
Lemma sumZ_prefix {A} (g : A → Z) l1 x l2 :
  (∀ y, 0 ≤ g y) →
  0 ≤ sumZ (g <$> l1) ∧ 0 ≤ g x ∧ sumZ (g <$> l1) + g x ≤ sumZ (g <$> (l1 ++ x :: l2)).
Proof.
  intros Hg. rewrite fmap_app, fmap_cons, sumZ_app, sumZ_cons.
  assert (Hn : ∀ l, 0 ≤ sumZ (g <$> l)) by (intros l; apply sumZ_nonneg, Forall_fmap, Forall_true; intros; apply Hg).
  pose proof (Hn l1). pose proof (Hn l2). pose proof (Hg x). lia.
Qed.

Lemma sumZ_abs_le {A} (g h : A → Z) l :
  Forall (λ x, Z.abs (g x) ≤ h x) l → Z.abs (sumZ (g <$> l)) ≤ sumZ (h <$> l).
Proof. induction 1; [done|]. rewrite !fmap_cons, !sumZ_cons. lia. Qed.

Lemma priced_app prices l1 l2 : priced prices (l1 ++ l2) ↔ priced prices l1 ∧ priced prices l2.
Proof. apply Forall_app. Qed.

Lemma price_of_range prices p : prices_ok prices → in_u 128 (price_of prices p).
Proof.
  intros Hp. unfold price_of. destruct (prices !! market_id p) eqn:E; [by eapply Hp|].
  cbn. int_range.
Qed.

Lemma notional_at_nonneg sz price : 0 ≤ price → 0 ≤ notional_at sz price.
Proof. intros. unfold notional_at, SCALE. apply div_nonneg; nia. Qed.

Lemma notional_nonneg prices p : prices_ok prices → 0 ≤ notional prices p.
Proof. intros H%(price_of_range _ p). apply notional_at_nonneg, H. Qed.

Lemma exposure_abs sz price : 0 ≤ price → Z.abs (exposure_at sz price) = notional_at sz price.
Proof.
  intros H. pose proof (notional_at_nonneg sz price H). unfold exposure_at.
  destruct (decide (sz = 0)) as [->|]; [unfold notional_at; cbn; by rewrite Z.div_0_l|].
  rewrite Z.abs_mul, (Z.abs_eq (notional_at _ _)) by done.
  assert (Z.abs (Z.sgn sz) = 1) as -> by lia. lia.
Qed.

Lemma isolated_term_nonneg prices p : prices_ok prices → 0 ≤ isolated_term prices p.
Proof.
  intros [??]%(price_of_range _ p). unfold isolated_term, SCALE, BPS_DENOMINATOR, MMR_BPS.
  apply div_nonneg; [|lia]. apply Z.mul_nonneg_nonneg; [|lia]. apply Z.mul_nonneg_nonneg; lia.
Qed.

Lemma size_price_lt prices p :
  in_s 128 (size p) → prices_ok prices → Z.abs (size p) * price_of prices p < 2 ^ 255.
Proof.
  intros Hs [??]%(price_of_range _ p). unfold in_s in Hs.
  change (2 ^ 255) with (2 ^ 127 * 2 ^ 128). change (128 - 1) with 127 in Hs.
  apply Z.le_lt_trans with (2 ^ 127 * price_of prices p).
  - apply Z.mul_le_mono_nonneg_r; lia.
  - apply Z.mul_lt_mono_pos_l; lia.
Qed.

Section isolated.
Context `{!U256Laws U} (prices : gmap MarketId Z) (Hprices : prices_ok prices).

Lemma margin_term_spec p :
  in_s 128 (size p) →
  margin_term p (price_of prices p) =
    if decide (2 ^ 256 ≤ Z.abs (size p) * price_of prices p * MMR_BPS) then Panic
    else Ret (isolated_term prices p).
Proof.
  intros Hs. pose proof (size_price_lt _ _ Hs Hprices) as Hlt.
  pose proof (price_of_range _ p Hprices) as [??].
  unfold margin_term. run (u256_mul_Ret (Z.abs (size p)) (price_of prices p)); [|int_range..].
  rewrite u256_mul_spec; [|split; nia|unfold MMR_BPS; int_range].
  case_decide as Hin.
  - rewrite decide_False by (destruct Hin; lia). cbv beta iota delta [mbind exec_bind].
    unfold SCALE, BPS_DENOMINATOR in *.
    rewrite u256_mul_Ret by lia.
    rewrite u256_div_Ret; [done|exact Hin|lia].
  - rewrite decide_True; [done|]. unfold in_u, MMR_BPS in *. nia.
Qed.

Lemma requirement_step_spec acc p :
  in_s 128 (size p) → 0 ≤ acc → acc + isolated_term prices p < 2 ^ 256 →
  requirement_step prices acc p =
    default (Ret (Ok (acc + isolated_term prices p))) (position_fault prices p).
Proof.
  intros Hs Hacc Hsum. pose proof (isolated_term_nonneg _ p Hprices).
  pose proof (margin_term_spec p Hs) as Hterm.
  unfold requirement_step, position_fault, mark_price.
  destruct (decide (size p = 0)) as [E|].
  { cbn. do 2 f_equal. unfold isolated_term. rewrite E, Z.abs_0, !Z.mul_0_l, Z.div_0_l by done. lia. }
  unfold price_of in Hterm. destruct (prices !! market_id p) as [price|] eqn:Hp; [|done].
  cbn [ok_or try_bind default from_option id] in *. rewrite Hterm.
  case_decide; [done|]. cbv beta iota delta [mbind exec_bind].
  rewrite u256_add_Ret by lia. done.
Qed.

Lemma isolated_term_small p :
  in_s 128 (size p) → position_fault prices p = None → isolated_term prices p < 2 ^ 184.
Proof.
  intros Hs. unfold position_fault, isolated_term, price_of. pose proof (price_of_range _ p Hprices) as Hr.
  unfold price_of in Hr.
  destruct (decide (size p = 0)) as [E|]; [intros _; rewrite E, Z.abs_0, !Z.mul_0_l, Z.div_0_l by done; lia|].
  destruct (prices !! market_id p); cbn in *; [|done].
  case_decide; [done|]. intros _. unfold SCALE, BPS_DENOMINATOR in *.
  apply Z.div_lt_upper_bound; lia.
Qed.

Lemma fault_not_ok p f a : position_fault prices p = Some f → f ≠ Ret (Ok a).
Proof. unfold position_fault. repeat case_match; naive_solver. Qed.

Lemma requirement_fold ps acc :
  sizes_ok ps → 0 ≤ acc → acc + Z.of_nat (length ps) * 2 ^ 184 ≤ 2 ^ 255 →
  try_fold (requirement_step prices) acc ps =
    match omap (position_fault prices) ps with
    | fault :: _ => fault
    | [] => Ret (Ok (acc + sumZ (isolated_term prices <$> ps)))
    end.
Proof.
  intros Hs. revert acc. induction Hs as [|p ps Hp Hs IH]; intros acc Hacc Hlen.
  { cbn. do 2 f_equal. lia. }
  cbn [try_fold]. pose proof (isolated_term_nonneg _ p Hprices).
  rewrite length_cons in Hlen.
  destruct (position_fault prices p) as [f|] eqn:Hf.
  - assert (requirement_step prices acc p = f) as ->.
    { assert (position_fault prices p = Some f → requirement_step prices acc p = f) as Hx; [|by apply Hx].
      clear Hf. intros Hf. pose proof (margin_term_spec p Hp) as Ht.
      unfold position_fault, requirement_step, mark_price, price_of in *.
      destruct (decide (size p = 0)); [done|].
      destruct (prices !! market_id p) eqn:E; cbn in *; [|congruence].
      rewrite Ht. case_decide; [by simplify_eq|done]. }
    cbn. rewrite Hf. pose proof (fault_not_ok p f) as Hn. destruct f as [[a|e]|]; [|done..].
    by destruct (Hn a).
  - pose proof (isolated_term_small p Hp Hf). rewrite requirement_step_spec by (done || lia).
    rewrite Hf. cbn [default from_option try_bind]. rewrite IH by lia.
    cbn [omap list_omap]. rewrite Hf. rewrite fmap_cons, sumZ_cons.
    by rewrite Z.add_assoc.
Qed.

Lemma requirement_exact ps :
  sizes_ok ps → Z.of_nat (length ps) < 2 ^ 64 →
  current_margin_requirement ps prices = requirement_spec ps prices.
Proof.
  intros Hs Hlen. unfold current_margin_requirement, requirement_spec.
  rewrite requirement_fold by (done || lia).
  destruct (omap _ ps) as [|f l] eqn:Ho.
  - cbn [try_bind]. rewrite Z.add_0_l. unfold or_overflow.
    assert (0 ≤ sumZ (isolated_term prices <$> ps)).
    { apply sumZ_nonneg, Forall_fmap, Forall_true. intros; by apply isolated_term_nonneg. }
    unfold try_u, in_u. repeat case_decide; (done || lia).
  - assert (∃ p, position_fault prices p = Some f) as [p Hp].
    { assert (f ∈ omap (position_fault prices) ps) as Hin by (rewrite Ho; left).
      apply list_elem_of_omap in Hin as (p & _ & Hp). by exists p. }
    pose proof (fault_not_ok p f) as Hn. destruct f as [[a|e]|]; [|done..]. by destruct (Hn a).
Qed.
End isolated.

(** ** The portfolio terms *)

Lemma signed_exposure_Ret `{!U256Laws U} sz price :
  in_s 128 sz → in_u 128 price → notional_at sz price < 2 ^ 127 → sz ≠ 0 →
  signed_exposure_usd sz price = Ret (Ok (exposure_at sz price)).
Proof.
  intros Hs Hp Hn Hz. pose proof (notional_at_nonneg sz price ltac:(int_range)).
  unfold signed_exposure_usd.
  run (mul_div_u128 (Z.abs sz) price SCALE); [|unfold SCALE; int_range..].
  fold (notional_at sz price). unfold or_overflow. rewrite try_s_in by int_range.
  cbn [ok_or try_bind]. unfold exposure_at. do 2 f_equal. case_decide.
  - unfold i128_neg. rewrite wraps_small by int_range. rewrite Z.sgn_neg by lia. lia.
  - rewrite Z.sgn_pos by lia. lia.
Qed.

Lemma notional_u128_Ret `{!U256Laws U} prices p :
  in_s 128 (size p) → prices_ok prices → notional prices p < 2 ^ 128 →
  notional_u128 p (price_of prices p) = Ret (Ok (notional prices p)).
Proof.
  intros Hs Hp Hn. pose proof (notional_nonneg _ p Hp). pose proof (price_of_range _ p Hp).
  unfold notional_u128. run (mul_div_u128 (Z.abs (size p)) (price_of prices p) SCALE);
    [|unfold SCALE; int_range..].
  unfold or_overflow. fold (notional_at (size p) (price_of prices p)). fold (notional prices p).
  by rewrite try_u_in by int_range.
Qed.

Lemma mark_price_priced prices p :
  (size p ≠ 0 → is_Some (prices !! market_id p)) → size p ≠ 0 →
  mark_price prices p = Ret (Ok (price_of prices p)).
Proof. intros Hp [x Hx]%Hp. unfold mark_price, price_of. by rewrite Hx. Qed.

Lemma zero_size_notional prices p : size p = 0 → notional prices p = 0.
Proof. intros E. unfold notional, notional_at. by rewrite E, Z.abs_0, Z.mul_0_l, Z.div_0_l. Qed.

Lemma shift_delta_nonneg prices sc p : prices_ok prices → 0 ≤ shift_delta prices sc p.
Proof.
  intros [??]%(price_of_range _ p). unfold shift_delta, BPS_DENOMINATOR. apply div_nonneg; nia.
Qed.

Lemma shifted_price_Ret `{!U256Laws U} prices sc p :
  prices_ok prices → in_s 128 (shift_of sc p) →
  price_of prices p + shift_delta prices sc p < 2 ^ 127 →
  ∃ x, shifted_price (price_of prices p) (shift_of sc p) = Ret (Ok x) ∧
       as_u128 (Z.max x 0) = stressed_price prices sc p.
Proof.
  intros Hp Hs Hd. pose proof (shift_delta_nonneg _ sc p Hp) as Hn.
  pose proof (price_of_range _ p Hp) as Hr. unfold shifted_price, stressed_price.
  run (mul_div_u128 (price_of prices p) (Z.abs (shift_of sc p)) BPS_DENOMINATOR);
    [|done|int_range|unfold BPS_DENOMINATOR; lia].
  fold (shift_delta prices sc p). unfold or_overflow. rewrite try_s_in by int_range.
  cbn [ok_or try_bind]. eexists. split; [done|].
  unfold as_i128, i128_sub, i128_add, as_u128. case_decide.
  - rewrite Z.sgn_neg by done. rewrite (wraps_small 128 (price_of prices p)), wraps_small by int_range.
    rewrite wrapu_small by int_range. lia.
  - rewrite (wraps_small 128 (price_of prices p)), wraps_small by int_range.
    rewrite wrapu_small by int_range.
    destruct (decide (shift_of sc p = 0)) as [E|].
    + unfold shift_delta. rewrite E, Z.abs_0, Z.mul_0_r, Z.div_0_l by done. lia.
    + rewrite Z.sgn_pos by lia. lia.
Qed.

Lemma stressed_price_range prices sc p :
  prices_ok prices → price_of prices p + shift_delta prices sc p < 2 ^ 127 →
  0 ≤ stressed_price prices sc p < 2 ^ 128.
Proof.
  intros Hp Hd. pose proof (shift_delta_nonneg _ sc p Hp). pose proof (price_of_range _ p Hp) as Hr.
  unfold stressed_price. destruct (Z.sgn_spec (shift_of sc p)) as [[? ->]|[[? ->]|[? ->]]]; int_range.
Qed.

Lemma value_change_abs prices sc p :
  prices_ok prices →
  Z.abs (value_change prices sc p)
    ≤ notional_at (size p) (stressed_price prices sc p) + notional prices p.
Proof.
  intros Hp. pose proof (price_of_range _ p Hp) as Hr.
  pose proof (exposure_abs (size p) (price_of prices p) ltac:(int_range)).
  pose proof (exposure_abs (size p) (stressed_price prices sc p) ltac:(unfold stressed_price; lia)).
  unfold value_change, notional. lia.
Qed.

Section scenario.
Context `{!U256Laws U} (prices : gmap MarketId Z) (ps : list PositionState).
Context (Hs : sizes_ok ps) (Hprices : prices_ok prices) (Hpriced : priced prices ps).

Let stress sc p := notional_at (size p) (stressed_price prices sc p) + notional prices p.

Lemma stress_nonneg sc p : 0 ≤ stress sc p.
Proof.
  unfold stress. pose proof (notional_nonneg _ p Hprices).
  pose proof (notional_at_nonneg (size p) (stressed_price prices sc p)
                ltac:(unfold stressed_price; lia)). lia.
Qed.

Lemma scenario_change_abs sc l :
  Z.abs (sumZ (value_change prices sc <$> l)) ≤ sumZ (stress sc <$> l).
Proof. apply sumZ_abs_le, Forall_true. intros. by apply value_change_abs. Qed.

Lemma scenario_change_Ret sc :
  scenario_fits ps prices sc →
  try_fold (scenario_step prices (price_shifts_bps sc)) 0 ps =
    Ret (Ok (sumZ (value_change prices sc <$> ps))).
Proof.
  intros (Hsh & Hd & Hsum). rewrite (try_fold_sum _ (value_change prices sc)); [by rewrite Z.add_0_l|].
  intros l1 p l2 ->. rewrite Z.add_0_l.
  apply Forall_app in Hs as [_ [Hp _]%Forall_cons]. apply Forall_app in Hd as [_ [Hdp _]%Forall_cons].
  apply Forall_app in Hpriced as [_ [Hpp _]%Forall_cons].
  pose proof (sumZ_prefix (stress sc) l1 p l2 (stress_nonneg sc)) as (Hn1 & Hn2 & Hle).
  change (sumZ (stress sc <$> (l1 ++ p :: l2)) < 2 ^ 127) in Hsum.
  pose proof (scenario_change_abs sc l1).
  pose proof (value_change_abs _ sc p Hprices) as Hv. fold (stress sc p) in Hv.
  unfold scenario_step. case_decide as Hz.
  { do 2 f_equal. unfold value_change, exposure_at. rewrite Hz. change (Z.sgn 0) with 0. lia. }
  rewrite mark_price_priced by done. cbn [try_bind].
  assert (in_s 128 (shift_of sc p)) as Hshp.
  { unfold shift_of. destruct (price_shifts_bps sc !! market_id p) eqn:E; [by eapply Hsh|cbn; int_range]. }
  destruct (shifted_price_Ret prices sc p Hprices Hshp Hdp) as (x & Hx & Hx').
  unfold shift_of in Hx. rewrite Hx. cbn [try_bind]. rewrite Hx'.
  pose proof (stressed_price_range _ sc p Hprices Hdp). pose proof (price_of_range _ p Hprices).
  pose proof (notional_nonneg _ p Hprices) as Hnn.
  pose proof (notional_at_nonneg (size p) (stressed_price prices sc p) ltac:(lia)).
  assert (stress sc p < 2 ^ 127) as Hst by lia. unfold stress in Hst.
  rewrite signed_exposure_Ret by (done || lia). cbn [try_bind].
  rewrite signed_exposure_Ret by (done || (unfold notional in *; lia)). cbn [try_bind].
  fold (value_change prices sc p). unfold or_overflow.
  rewrite try_s_in by int_range. cbn [ok_or try_bind].
  rewrite try_s_in by int_range. done.
Qed.

Lemma foldl_max_shift a b l : foldl Z.max (Z.max a b) l = Z.max a (foldl Z.max b l).
Proof. revert b. induction l as [|x l IH]; intros b; [done|]. cbn. rewrite <- IH. f_equal. lia. Qed.

Lemma scenario_margin_Ret scs :
  Forall (scenario_fits ps prices) scs →
  scenario_margin ps prices scs = Ret (Ok (worst_case (scenario_loss ps prices <$> scs))) ∧
  0 ≤ worst_case (scenario_loss ps prices <$> scs) < 2 ^ 127.
Proof.
  intros Hf.
  assert (∀ w, 0 ≤ w < 2 ^ 127 →
    try_fold (scenario_loss_step ps prices) w scs =
      Ret (Ok (foldl Z.max w (scenario_loss ps prices <$> scs))) ∧
    0 ≤ foldl Z.max w (scenario_loss ps prices <$> scs) < 2 ^ 127) as Hloop.
  { induction Hf as [|sc scs Hsc Hf IH]; intros w Hw; [done|].
    pose proof (scenario_change_abs sc ps). destruct (Hsc) as (_ & _ & Hsum).
    fold (stress sc) in Hsum. change (sumZ (stress sc <$> ps) < 2 ^ 127) in Hsum.
    cbn [try_fold]. unfold scenario_loss_step at 1. rewrite scenario_change_Ret by done.
    cbn [try_bind]. rewrite fmap_cons. cbn [foldl].
    assert (sat_s 128 (- sumZ (value_change prices sc <$> ps)) = scenario_loss ps prices sc) as ->.
    { unfold sat_s, scenario_loss. lia. }
    apply IH. unfold scenario_loss. lia. }
  destruct (Hloop 0 ltac:(lia)) as [Heq Hr]. split; [|exact Hr].
  unfold scenario_margin. rewrite Heq. cbn [try_bind]. do 2 f_equal. unfold as_u128, worst_case.
  rewrite wrapu_small by int_range. lia.
Qed.
End scenario.

Lemma worst_case_ge l x : x ∈ l → x ≤ worst_case l.
Proof.
  unfold worst_case. generalize 0. induction l as [|y l IH]; intros a; [by intros ?%elem_of_nil|].
  intros [->|Hx]%elem_of_cons; cbn; [|by apply IH].
  rewrite (Z.max_comm a y), foldl_max_shift. lia.
Qed.

Lemma worst_case_attained l : worst_case l = 0 ∨ worst_case l ∈ l.
Proof.
  unfold worst_case.
  assert (∀ a, foldl Z.max a l = a ∨ foldl Z.max a l ∈ l) as H; [|apply H].
  induction l as [|y l IH]; intros a; [by left|]. cbn.
  destruct (IH (Z.max a y)) as [->|]; [|by right; right].
  destruct (Z.max_spec a y) as [[_ ->]|[_ ->]]; [right; left|by left].
Qed.

(** *** Concentration *)

(** The sum of a map's values, in whatever order the map lists them. *)
Definition map_sum (m : gmap string Z) : Z := sumZ (map_to_list m).*2.

Lemma map_sum_insert m k v :
  map_sum (<[k:=v]> m) = map_sum m - default 0 (m !! k) + v.
Proof.
  unfold map_sum. rewrite <- insert_delete_eq.
  rewrite (sumZ_perm _ ((k, v) :: map_to_list (delete k m)).*2)
    by (by apply fmap_Permutation, map_to_list_insert, lookup_delete_eq).
  rewrite fmap_cons, sumZ_cons. cbn [snd].
  destruct (m !! k) as [w|] eqn:E; cbn [default from_option id].
  - rewrite (sumZ_perm (map_to_list m).*2 ((k, w) :: map_to_list (delete k m)).*2).
    + rewrite fmap_cons, sumZ_cons. cbn [snd]. lia.
    + apply fmap_Permutation. symmetry. by apply map_to_list_delete.
  - rewrite delete_id by done. lia.
Qed.

Section concentration.
Context (prices : gmap MarketId Z) (groups : gmap MarketId string) (Hprices : prices_ok prices).

Definition group_sum (q : list PositionState) (g : string) : Z :=
  sumZ (notional prices <$> filter (λ p, group_of groups p = g) q).
Definition group_map (q : list PositionState) : gmap string Z :=
  foldl (λ m p, <[group_of groups p := default 0 (m !! group_of groups p) + notional prices p]> m)
    ∅ q.

Lemma group_map_snoc q p :
  group_map (q ++ [p]) =
    <[group_of groups p := default 0 (group_map q !! group_of groups p) + notional prices p]>
      (group_map q).
Proof. unfold group_map. by rewrite foldl_app. Qed.

Lemma group_sum_snoc q p g :
  group_sum (q ++ [p]) g =
    group_sum q g + (if decide (group_of groups p = g) then notional prices p else 0).
Proof.
  unfold group_sum. rewrite filter_app, fmap_app, sumZ_app. f_equal.
  rewrite filter_cons, filter_nil. case_decide; cbn; lia.
Qed.

Lemma group_sum_absent q g : g ∉ group_of groups <$> q → group_sum q g = 0.
Proof.
  intros Hn. unfold group_sum. rewrite filter_none; [done|]. apply Forall_forall.
  intros x Hx Hg. apply Hn. rewrite <- Hg. by apply list_elem_of_fmap_2.
Qed.

Lemma group_map_lookup q g n :
  group_map q !! g = Some n ↔ g ∈ group_of groups <$> q ∧ n = group_sum q g.
Proof.
  revert n. induction q as [|p q IH] using rev_ind; intros n.
  { change (group_map []) with (∅ : gmap string Z). rewrite lookup_empty, elem_of_nil. naive_solver. }
  rewrite group_map_snoc, group_sum_snoc, fmap_app, elem_of_app.
  change (group_of groups <$> [p]) with [group_of groups p]. rewrite list_elem_of_singleton.
  case_decide as Hg.
  - subst g. rewrite lookup_insert_eq.
    assert (default 0 (group_map q !! group_of groups p) = group_sum q (group_of groups p)) as ->.
    { destruct (group_map q !! group_of groups p) as [m|].
      - by destruct (proj1 (IH m) eq_refl) as [_ ->].
      - symmetry. apply group_sum_absent. intros Hin.
        pose proof (proj2 (IH _) (conj Hin eq_refl)). congruence. }
    naive_solver.
  - rewrite lookup_insert_ne, IH by done. rewrite Z.add_0_r. naive_solver.
Qed.

Lemma group_map_sum q : map_sum (group_map q) = sumZ (notional prices <$> q).
Proof.
  induction q as [|p q IH] using rev_ind; [done|].
  rewrite group_map_snoc, map_sum_insert, IH, fmap_app, sumZ_app.
  change (notional prices <$> [p]) with [notional prices p]. rewrite sumZ_cons.
  change (sumZ []) with 0. lia.
Qed.

Lemma group_map_values q :
  (map_to_list (group_map q)).*2 ≡ₚ group_sum q <$> remove_dups (group_of groups <$> q).
Proof.
  transitivity (((λ g, (g, group_sum q g)) <$> remove_dups (group_of groups <$> q)).*2).
  - apply fmap_Permutation, NoDup_Permutation.
    + apply NoDup_map_to_list.
    + apply NoDup_fmap_2; [intros ?? [=]; done|apply NoDup_remove_dups].
    + intros [g n]. rewrite elem_of_map_to_list, group_map_lookup.
      split.
      * intros [Hg ->]. apply list_elem_of_fmap. exists g. by rewrite elem_of_remove_dups.
      * intros (g' & [= -> ->] & Hg)%list_elem_of_fmap. by rewrite elem_of_remove_dups in Hg.
  - by rewrite <- list_fmap_compose.
Qed.

Lemma sum_filter_le (P : PositionState → Prop) `{∀ p, Decision (P p)} q :
  sumZ (notional prices <$> filter P q) ≤ sumZ (notional prices <$> q).
Proof.
  induction q as [|p q IH]; [done|]. pose proof (notional_nonneg _ p Hprices).
  rewrite filter_cons. case_decide; rewrite ?fmap_cons, ?sumZ_cons; lia.
Qed.

Lemma group_sum_bounds q g : 0 ≤ group_sum q g ≤ sumZ (notional prices <$> q).
Proof.
  split; [|apply sum_filter_le]. apply sumZ_nonneg, Forall_fmap, Forall_true.
  intros. by apply notional_nonneg.
Qed.

Lemma active_gross ps : sumZ (notional prices <$> active ps) = gross prices ps.
Proof.
  unfold gross, active. induction ps as [|p ps IH]; [done|].
  rewrite filter_cons, fmap_cons, sumZ_cons, <- IH. case_decide as Hz.
  - by rewrite fmap_cons, sumZ_cons.
  - rewrite zero_size_notional by (destruct (decide (size p = 0)); [done|by destruct Hz]). lia.
Qed.

(** Charging groups in any order. *)
Lemma charge_groups_spec thr kappa ns :
  0 ≤ thr → 0 ≤ kappa → Forall (λ n, 0 ≤ n) ns → sumZ ns * kappa < 2 ^ 128 →
  charge_groups thr kappa ns = sumZ (excess_charge thr kappa <$> ns).
Proof.
  intros Ht Hk Hns Hb. unfold charge_groups.
  assert (∀ a, 0 ≤ a → a + sumZ ns * kappa < 2 ^ 128 →
    foldl (λ charge n, if decide (thr < n) then u128_add charge (group_charge thr kappa n)
                       else charge) a ns = a + sumZ (excess_charge thr kappa <$> ns)) as H;
    [|rewrite H by lia; lia].
  clear Hb. induction Hns as [|n ns Hn Hns IH]; intros a Ha Hb; [cbn; lia|].
  pose proof (sumZ_nonneg ns Hns). rewrite sumZ_cons in Hb.
  rewrite fmap_cons, sumZ_cons. cbn [foldl].
  assert (0 ≤ n * kappa ∧ 0 ≤ sumZ ns * kappa) as [??] by (split; nia).
  unfold group_charge, excess_charge at 1. case_decide.
  - rewrite Z.max_r by lia. unfold u128_mul, u128_add.
    assert (0 ≤ (n - thr) * kappa ≤ n * kappa) by nia.
    rewrite (wrapu_small 128 ((n - thr) * kappa)) by int_range.
    assert (0 ≤ (n - thr) * kappa / BPS_DENOMINATOR ≤ (n - thr) * kappa).
    { unfold BPS_DENOMINATOR. split; [apply div_nonneg|apply div_le_self]; lia. }
    rewrite wrapu_small by int_range. rewrite IH by lia. lia.
  - rewrite Z.max_l, Z.mul_0_l, Z.div_0_l by (done || lia). rewrite IH by lia. lia.
Qed.

Lemma excess_charge_sum thr kappa ns :
  0 ≤ thr → 0 ≤ kappa → Forall (λ n, 0 ≤ n) ns →
  0 ≤ sumZ (excess_charge thr kappa <$> ns) ≤ sumZ ns * kappa / BPS_DENOMINATOR.
Proof.
  intros Ht Hk. induction 1 as [|n ns Hn Hns IH]; [done|].
  rewrite fmap_cons, !sumZ_cons, Z.mul_add_distr_r.
  assert (0 ≤ excess_charge thr kappa n ≤ n * kappa / BPS_DENOMINATOR).
  { unfold excess_charge, BPS_DENOMINATOR. split; [apply div_nonneg; nia|].
    apply Z.div_le_mono; [lia|]. apply Z.mul_le_mono_nonneg_r; lia. }
  unfold BPS_DENOMINATOR in *.
  pose proof (Z.div_add_l (n * kappa / 10000) 10000 ((n * kappa) mod 10000 + sumZ ns * kappa) ltac:(lia)) as E.
  pose proof (Z.div_mod (n * kappa) 10000 ltac:(lia)) as E2.
  replace (n * kappa / 10000 * 10000 + ((n * kappa) mod 10000 + sumZ ns * kappa))
    with (n * kappa + sumZ ns * kappa) in E by lia.
  rewrite E. pose proof (Z.mod_pos_bound (n * kappa) 10000 ltac:(lia)).
  pose proof (Z.div_le_mono (sumZ ns * kappa) ((n * kappa) mod 10000 + sumZ ns * kappa) 10000). lia.
Qed.
End concentration.

Section portfolio.
Context `{!U256Laws U} (prices : gmap MarketId Z) (ps : list PositionState).
Context (Hs : sizes_ok ps) (Hprices : prices_ok prices) (Hpriced : priced prices ps).

Lemma concentration_fold_Ret groups l1 l2 :
  ps = l1 ++ l2 → gross prices ps < 2 ^ 128 →
  try_fold (concentration_step prices groups) (0, ∅) l1 =
    Ret (Ok (gross prices l1, group_map prices groups (active l1))).
Proof.
  intros Hps Hg. revert l2 Hps. induction l1 as [|p l1 IH] using rev_ind; intros l2 Hps; [done|].
  rewrite <- app_assoc in Hps. cbn [app] in Hps.
  rewrite try_fold_app, (IH (p :: l2) Hps). cbn [try_bind try_fold].
  subst ps. apply Forall_app in Hs as [_ [Hp _]%Forall_cons].
  apply Forall_app in Hpriced as [_ [Hpp _]%Forall_cons].
  pose proof (sumZ_prefix (notional prices) l1 p l2 (λ y, notional_nonneg _ y Hprices)) as (? & ? & ?).
  unfold gross in Hg. unfold concentration_step, gross, active.
  rewrite fmap_app, sumZ_app, filter_app, filter_cons, filter_nil.
  change (notional prices <$> [p]) with [notional prices p]. rewrite sumZ_cons.
  change (sumZ []) with 0. rewrite Z.add_0_r.
  destruct (decide (size p = 0)) as [Hz|Hz].
  { rewrite decide_False by (intros Hn; by apply Hn). rewrite app_nil_r, zero_size_notional by done.
    by rewrite Z.add_0_r. }
  rewrite decide_True by done. rewrite mark_price_priced by done. cbn [try_bind].
  rewrite notional_u128_Ret by (done || lia). cbn [try_bind]. unfold or_overflow.
  rewrite try_u_in by int_range. cbn [ok_or try_bind]. do 3 f_equal.
  rewrite group_map_snoc. f_equal. unfold u128_add. apply wrapu_small.
  destruct (group_map prices groups (filter (λ p, size p ≠ 0) l1) !! group_of groups p)
    as [n|] eqn:E; cbn [default from_option id]; [|int_range].
  apply group_map_lookup in E as [_ ->].
  pose proof (group_sum_bounds prices groups Hprices (active l1) (group_of groups p)) as Hb.
  rewrite active_gross in Hb. unfold gross, active in Hb. int_range.
Qed.

Lemma gross_nonneg : 0 ≤ gross prices ps.
Proof. apply sumZ_nonneg, Forall_fmap, Forall_true. intros. by apply notional_nonneg. Qed.

Lemma threshold_nonneg th : 0 ≤ th → 0 ≤ concentration_threshold ps prices th.
Proof.
  intros. pose proof gross_nonneg. unfold concentration_threshold, BPS_DENOMINATOR.
  apply div_nonneg; nia.
Qed.

Lemma group_totals_nonneg groups gs : Forall (λ n, 0 ≤ n) (group_total ps prices groups <$> gs).
Proof. apply Forall_fmap, Forall_true. intros g. apply (group_sum_bounds prices groups Hprices (active ps) g). Qed.

Lemma group_totals_sum groups :
  sumZ (group_total ps prices groups <$> groups_in ps groups) = gross prices ps.
Proof.
  rewrite <- active_gross, <- (group_map_sum prices groups). unfold map_sum. apply sumZ_perm.
  symmetry. apply group_map_values.
Qed.

Lemma concentration_Ret groups th kappa :
  gross prices ps < 2 ^ 128 → 0 ≤ th → gross prices ps * th < 2 ^ 128 →
  0 ≤ kappa → gross prices ps * kappa < 2 ^ 128 →
  concentration_charge ps prices groups th kappa =
    Ret (Ok (concentration_spec ps prices groups th kappa)).
Proof.
  intros Hg Hth Hgth Hk Hgk. pose proof gross_nonneg as Hg0. pose proof (threshold_nonneg th Hth).
  unfold concentration_charge. rewrite (concentration_fold_Ret groups ps []) by (done || by rewrite app_nil_r).
  cbn [try_bind]. unfold concentration_spec.
  rewrite (list_fmap_compose (group_total ps prices groups)
             (excess_charge (concentration_threshold ps prices th) kappa)).
  case_decide as Hz.
  - pose proof (excess_charge_sum (concentration_threshold ps prices th) kappa
                  (group_total ps prices groups <$> groups_in ps groups)
                  ltac:(done) Hk (group_totals_nonneg _ _)) as Hb.
    rewrite group_totals_sum, Hz, Z.mul_0_l, Z.div_0_l in Hb by done. do 2 f_equal. lia.
  - do 2 f_equal. unfold u128_mul. rewrite (wrapu_small 128 (gross _ _ * _)) by (unfold in_u; nia).
    fold (concentration_threshold ps prices th).
    rewrite charge_groups_spec; [|done..| |].
    + apply sumZ_perm, fmap_Permutation, group_map_values.
    + rewrite (group_map_values prices groups (active ps)). apply group_totals_nonneg.
    + change (sumZ (map_to_list (group_map prices groups (active ps))).*2)
        with (map_sum (group_map prices groups (active ps))).
      by rewrite group_map_sum, active_gross.
Qed.

Lemma liquidity_Ret coefficients :
  gross prices ps < 2 ^ 128 → map_Forall (λ _ x, in_u 128 x) coefficients →
  liquidity_spec ps prices coefficients < 2 ^ 128 →
  liquidity_charge ps prices coefficients = Ret (Ok (liquidity_spec ps prices coefficients)).
Proof.
  intros Hg Hc Hb.
  assert (∀ p, in_u 128 (default 0 (coefficients !! market_id p))) as Hcoef.
  { intros p. destruct (coefficients !! market_id p) eqn:E; [by eapply Hc|cbn; int_range]. }
  assert (∀ p, 0 ≤ liquidity_term prices coefficients p) as Hnn.
  { intros p. pose proof (notional_nonneg _ p Hprices). destruct (Hcoef p).
    unfold liquidity_term, BPS_DENOMINATOR. apply div_nonneg; nia. }
  unfold liquidity_charge. rewrite (try_fold_sum _ (liquidity_term prices coefficients)); [done|].
  intros l1 p l2 ->. rewrite Z.add_0_l.
  apply Forall_app in Hs as [_ [Hp _]%Forall_cons].
  apply Forall_app in Hpriced as [_ [Hpp _]%Forall_cons].
  pose proof (sumZ_prefix _ l1 p l2 Hnn) as (? & ? & ?).
  pose proof (sumZ_prefix (notional prices) l1 p l2 (λ y, notional_nonneg _ y Hprices)) as (? & ? & ?).
  unfold liquidity_spec in Hb. unfold gross in Hg. unfold liquidity_step.
  destruct (decide (size p = 0)) as [Hz|Hz].
  { unfold liquidity_term. rewrite zero_size_notional, Z.mul_0_l, Z.div_0_l by done.
    by rewrite Z.add_0_r. }
  rewrite mark_price_priced by done. cbn [try_bind].
  pose proof (price_of_range _ p Hprices).
  run (mul_div_u128 (Z.abs (size p)) (price_of prices p) SCALE); [|unfold SCALE; int_range..].
  fold (notional_at (size p) (price_of prices p)). fold (notional prices p).
  run (mul_div_u128 (notional prices p) (default 0 (coefficients !! market_id p)) BPS_DENOMINATOR);
    [|int_range|apply Hcoef|unfold BPS_DENOMINATOR; lia].
  fold (liquidity_term prices coefficients p). unfold or_overflow.
  rewrite try_u_in by int_range. cbn [ok_or try_bind]. unfold u128_add.
  by rewrite wrapu_small by int_range.
Qed.

Lemma exposures_fold_Ret l m :
  sizes_ok l → priced prices l → Forall (λ p, notional prices p < 2 ^ 127) l →
  try_fold (exposure_step prices) m l =
    Ret (Ok (foldl (λ m p, <[market_id p := exposure_at (size p) (price_of prices p)]> m)
                   m (active l))).
Proof.
  intros Hsl Hpl Hn. revert m. induction l as [|p l IH]; intros m; [done|].
  apply Forall_cons in Hsl as [Hp Hsl], Hpl as [Hpp Hpl], Hn as [Hnp Hn].
  cbn [try_fold]. unfold exposure_step at 1, active. rewrite filter_cons.
  destruct (decide (size p = 0)) as [Hz|Hz].
  { rewrite decide_False by (intros Hne; by apply Hne). cbn [try_bind]. by apply IH. }
  rewrite decide_True by done. rewrite mark_price_priced by done. cbn [try_bind].
  rewrite signed_exposure_Ret by (done || by apply price_of_range).
  cbn [try_bind foldl]. by apply IH.
Qed.

Lemma notionals_small b : gross prices ps < b → Forall (λ p, notional prices p < b) ps.
Proof.
  intros Hg. apply Forall_forall. intros p (l1 & l2 & E)%list_elem_of_split.
  unfold gross in Hg. rewrite E in Hg.
  pose proof (sumZ_prefix (notional prices) l1 p l2 (λ y, notional_nonneg _ y Hprices)). lia.
Qed.

(** Every exposure is bounded by the gross notional. *)
Lemma exposures_bound b m e :
  Forall (λ p, notional prices p < b) ps → exposures_of ps prices !! m = Some e → Z.abs e < b.
Proof.
  unfold exposures_of. intros Hb. apply (Forall_filter _ (λ p, size p ≠ 0)) in Hb.
  fold (active ps) in Hb. revert e. induction (active ps) as [|p q IH] using rev_ind; intros e.
  { cbn. by rewrite lookup_empty. }
  apply Forall_app in Hb as [Hq [Hp _]%Forall_cons]. rewrite foldl_app. cbn [foldl].
  rewrite lookup_insert_Some. intros [[_ <-]|[_ He]]; [|by apply IH].
  rewrite exposure_abs; [done|]. apply price_of_range, Hprices.
Qed.
End portfolio.

Lemma pair_size_nonneg exposures beta e : 0 ≤ beta → 0 ≤ pair_size exposures beta e.
Proof.
  intros. unfold pair_size, BPS_DENOMINATOR. repeat case_match; [|done..].
  apply div_nonneg; [|lia]. apply Z.mul_nonneg_nonneg; [|done]. apply Z.mul_nonneg_nonneg; lia.
Qed.

Lemma pair_term_abs exposures beta e :
  0 ≤ beta → Z.abs (pair_term exposures beta e) ≤ pair_size exposures beta e.
Proof.
  intros Hb. pose proof (pair_size_nonneg exposures beta e Hb). unfold pair_term.
  repeat case_match; [|lia..]. unfold direction. repeat case_decide; lia.
Qed.

Lemma correlation_fold_Ret `{!U256Laws U} exposures entries beta :
  map_Forall (λ _ e, Z.abs e < 2 ^ 127) exposures → 0 ≤ beta < 2 ^ 64 →
  Forall (λ e, Z.abs (rho_bps e) ≤ BPS_DENOMINATOR) entries →
  sumZ (pair_size exposures beta <$> entries) < 2 ^ 127 →
  try_fold (correlation_step exposures beta) 0 entries =
    Ret (Ok (sumZ (pair_term exposures beta <$> entries))).
Proof.
  intros He Hb Hrho Hsum. rewrite (try_fold_sum _ (pair_term exposures beta)); [done|].
  intros l1 e l2 ->. rewrite Z.add_0_l. apply Forall_app in Hrho as [_ [Hr _]%Forall_cons].
  pose proof (sumZ_prefix _ l1 e l2 (λ e, pair_size_nonneg exposures beta e ltac:(lia))) as (? & ? & ?).
  pose proof (sumZ_abs_le (pair_term exposures beta) (pair_size exposures beta) l1
                ltac:(apply Forall_true; intros; apply pair_term_abs; lia)) as Hacc.
  unfold correlation_step.
  destruct (exposures !! market_a e) as [e_a|] eqn:Ea;
    [destruct (exposures !! market_b e) as [e_b|] eqn:Eb|];
    [|unfold pair_term; rewrite Ea, ?Eb; do 2 f_equal; lia..].
  assert (pair_size exposures beta e =
    Z.min (Z.abs e_a) (Z.abs e_b) * Z.abs (rho_bps e) * beta / (BPS_DENOMINATOR * BPS_DENOMINATOR))
    as Hsz by (unfold pair_size; by rewrite Ea, Eb).
  pose proof (He _ _ Ea) as Ha. cbn in Ha. unfold BPS_DENOMINATOR in *.
  set (mn := Z.min (Z.abs e_a) (Z.abs e_b)) in *.
  assert (0 ≤ mn < 2 ^ 127) by (unfold mn; lia).
  assert (0 ≤ mn * Z.abs (rho_bps e) ≤ 2 ^ 127 * 10000) by nia.
  assert (0 ≤ mn * Z.abs (rho_bps e) * beta ≤ 2 ^ 127 * 10000 * 2 ^ 64) by nia.
  run (u256_mul_Ret mn (Z.abs (rho_bps e))); [|lia..].
  run (u256_mul_Ret (mn * Z.abs (rho_bps e)) beta); [|lia..].
  run (u256_mul_Ret 10000 10000); [|lia..].
  run (u256_div_Ret (mn * Z.abs (rho_bps e) * beta) (10000 * 10000)); [|lia..].
  rewrite <- Hsz.
  unfold or_overflow. rewrite try_s_in by int_range. cbn [ok_or try_bind].
  assert (i128_mul (i128_mul (if decide (0 ≤ e_a ↔ 0 ≤ e_b) then 1 else -1)
            (if decide (rho_bps e < 0) then -1 else 1)) (pair_size exposures beta e)
          = pair_term exposures beta e) as ->.
  { unfold pair_term, i128_mul. rewrite Ea, Eb. unfold direction.
    rewrite (wraps_small 128 ((if decide _ then 1 else -1) * _))
      by (repeat case_decide; int_range).
    rewrite wraps_small by (repeat case_decide; int_range).
    repeat case_decide; try lia; exfalso; intuition lia. }
  pose proof (pair_term_abs exposures beta e ltac:(lia)).
  by rewrite try_s_in by int_range.
Qed.

Lemma correlation_Ret `{!U256Laws U} ps prices entries beta :
  sizes_ok ps → prices_ok prices → priced prices ps → gross prices ps < 2 ^ 127 →
  0 ≤ beta < 2 ^ 64 → Forall (λ e, Z.abs (rho_bps e) ≤ BPS_DENOMINATOR) entries →
  sumZ (pair_size (exposures_of ps prices) beta <$> entries) < 2 ^ 127 →
  correlation_adjustment ps prices entries beta =
    Ret (Ok (correlation_spec ps prices entries beta)).
Proof.
  intros Hs Hp Hpp Hg Hb Hrho Hsum. unfold correlation_adjustment.
  pose proof (notionals_small prices ps Hp _ Hg) as Hn.
  rewrite exposures_fold_Ret by done. cbn [try_bind]. fold (exposures_of ps prices).
  apply correlation_fold_Ret; [|done..]. intros m e He. cbn.
  by eapply exposures_bound.
Qed.

Lemma correlation_abs ps prices entries beta :
  0 ≤ beta →
  Z.abs (correlation_spec ps prices entries beta)
    ≤ sumZ (pair_size (exposures_of ps prices) beta <$> entries).
Proof. intros. apply sumZ_abs_le, Forall_true. intros. by apply pair_term_abs. Qed.

Lemma excess_charge_nonneg thr kappa n : 0 ≤ kappa → 0 ≤ excess_charge thr kappa n.
Proof. intros. unfold excess_charge, BPS_DENOMINATOR. apply div_nonneg; nia. Qed.

Lemma concentration_spec_nonneg ps prices groups th kappa :
  0 ≤ kappa → 0 ≤ concentration_spec ps prices groups th kappa.
Proof.
  intros. apply sumZ_nonneg, Forall_fmap, Forall_true. intros. by apply excess_charge_nonneg.
Qed.

Lemma liquidity_spec_nonneg ps prices coefficients :
  prices_ok prices → map_Forall (λ _ x, in_u 128 x) coefficients →
  0 ≤ liquidity_spec ps prices coefficients.
Proof.
  intros Hp Hc. apply sumZ_nonneg, Forall_fmap, Forall_true. intros p. cbn.
  pose proof (notional_nonneg _ p Hp). unfold liquidity_term, BPS_DENOMINATOR.
  apply div_nonneg; [|lia]. apply Z.mul_nonneg_nonneg; [done|].
  destruct (coefficients !! market_id p) eqn:E; cbn; [|done].
  by destruct (Hc _ _ E).
Qed.

(** A fold over the positions that returns has looked every active market up. *)
Lemma try_fold_priced {B} (f : B → PositionState → exec (result B RiskError)) prices ps a b :
  (∀ a p b, f a p = Ret (Ok b) → size p ≠ 0 → is_Some (prices !! market_id p)) →
  try_fold f a ps = Ret (Ok b) → priced prices ps.
Proof.
  intros Hf. revert a. induction ps as [|p ps IH]; intros a Hr; [by constructor|].
  cbn [try_fold] in Hr. apply try_bind_Ok in Hr as (a' & Ha' & Hr).
  constructor; [by eapply Hf|by eapply IH].
Qed.

Lemma mark_price_Some prices p x : mark_price prices p = Ret (Ok x) → is_Some (prices !! market_id p).
Proof. unfold mark_price. destruct (prices !! market_id p); [done|discriminate]. Qed.

Lemma demo_prices_ok : prices_ok demo_prices.
Proof.
  unfold demo_prices. apply map_Forall_insert_2; [by vm_compute|].
  apply map_Forall_singleton. by vm_compute.
Qed.

Lemma demo_priced : priced demo_prices demo_positions.
Proof.
  do 2 (apply Forall_cons; split; [intros _; vm_compute; by eexists|]).
  apply Forall_cons; split; [by intros []|constructor].
Qed.

Lemma demo_sizes_ok : sizes_ok demo_positions.
Proof. repeat constructor; vm_compute; done. Qed.

Lemma demo_scenarios_fit :
  Forall (scenario_fits demo_positions demo_prices) (scenarios demo_params).
Proof.
  assert (∀ s, in_s 128 s → ∀ k, map_Forall (λ _ s, in_s 128 s) ({[k := s]} : gmap MarketId Z)) as H1.
  { intros. by apply map_Forall_singleton. }
  apply Forall_cons; split; [|apply Forall_cons; split; [|constructor]].
  - split; [|split].
    + apply map_Forall_insert_2; [by vm_compute|]. apply H1. by vm_compute.
    + repeat (apply Forall_cons; split; [by vm_compute|]). constructor.
    + by vm_compute.
  - split; [|split].
    + apply H1. by vm_compute.
    + repeat (apply Forall_cons; split; [by vm_compute|]). constructor.
    + by vm_compute.
Qed.

(** *** Practical portfolios stay inside the types *)

Lemma sumZ_bound {A} (g : A → Z) b l : Forall (λ x, g x ≤ b) l → sumZ (g <$> l) ≤ Z.of_nat (length l) * b.
Proof. induction 1; [done|]. rewrite fmap_cons, sumZ_cons, length_cons. lia. Qed.

(** A share of [x] of at most 2^14 basis points. *)
Lemma bps_share x bps b : 0 ≤ x ≤ b → 0 ≤ bps ≤ 2 ^ 14 → 0 ≤ x * bps / BPS_DENOMINATOR ≤ 2 * b.
Proof.
  intros Hx Hb. unfold BPS_DENOMINATOR. split; [apply div_nonneg; nia|].
  apply Z.div_le_upper_bound; [lia|]. nia.
Qed.

Section practical.
Context (ps : list PositionState) (prices : gmap MarketId Z) (params : PortfolioMarginParams).
Context (Hpr : practical ps prices params).

Lemma practical_prices : prices_ok prices.
Proof using Hpr. intros m x Hx. pose proof (pr_prices _ _ _ Hpr m x Hx) as Hr. cbn in Hr. int_range. Qed.
#[local] Hint Resolve practical_prices : core.

Lemma practical_price p : 0 ≤ price_of prices p ≤ 2 ^ 112.
Proof using Hpr.
  unfold price_of. destruct (prices !! market_id p) eqn:E; [|cbn; lia]. exact (pr_prices _ _ _ Hpr _ _ E).
Qed.

(** At most three times the worth of a position is below 2^103. *)
Lemma worth_notional sz price k : 0 ≤ k ≤ 3 * 2 ^ 160 → Z.abs sz * price ≤ k → 0 ≤ price → notional_at sz price ≤ 2 ^ 103.
Proof.
  intros Hk Hle Hp. unfold notional_at, SCALE. apply Z.lt_le_incl, Z.div_lt_upper_bound; lia.
Qed.

Lemma practical_notional : Forall (λ p, notional prices p ≤ 2 ^ 101) ps.
Proof using Hpr.
  eapply Forall_impl; [apply (pr_worth _ _ _ Hpr)|]. intros p Hw. cbn in Hw.
  unfold notional, notional_at, SCALE. apply Z.lt_le_incl, Z.div_lt_upper_bound; lia.
Qed.

Lemma practical_gross : 0 ≤ gross prices ps ≤ 2 ^ 113.
Proof using Hpr.
  split; [by apply gross_nonneg|]. pose proof (sumZ_bound _ _ _ practical_notional) as Hb.
  pose proof (pr_count _ _ _ Hpr). unfold gross. nia.
Qed.

Lemma practical_scenario sc :
  map_Forall (λ _ s, Z.abs s ≤ 2 ^ 14) (price_shifts_bps sc) →
  map_Forall (λ _ s, in_s 128 s) (price_shifts_bps sc) ∧
  Forall (λ p, price_of prices p + shift_delta prices sc p < 2 ^ 127) ps ∧
  sumZ ((λ p, notional_at (size p) (stressed_price prices sc p) + notional prices p) <$> ps) ≤ 2 ^ 116.
Proof using Hpr.
  intros Hsc.
  assert (Hshift : ∀ p, Z.abs (shift_of sc p) ≤ 2 ^ 14).
  { intros p. unfold shift_of. destruct (_ !! _) eqn:E; [by eapply Hsc|done]. }
  assert (Hdelta : ∀ p, 0 ≤ shift_delta prices sc p ≤ 2 * price_of prices p).
  { intros p. pose proof (practical_price p). pose proof (Hshift p). apply bps_share; lia. }
  split; [|split].
  - intros m s Hs. pose proof (Hsc m s Hs) as H. cbn in H. int_range.
  - apply Forall_true. intros p. pose proof (practical_price p). pose proof (Hdelta p). lia.
  - assert (Hall : Forall (λ p, notional_at (size p) (stressed_price prices sc p) + notional prices p ≤ 2 ^ 104) ps).
    { apply Forall_forall. intros p Hin. pose proof (proj1 (Forall_forall _ _) practical_notional p Hin) as Hn.
      pose proof (proj1 (Forall_forall _ _) (pr_worth _ _ _ Hpr) p Hin) as Hw. cbn in Hn, Hw.
      pose proof (practical_price p). pose proof (Hdelta p).
      assert (0 ≤ stressed_price prices sc p ≤ 3 * price_of prices p).
      { unfold stressed_price. destruct (Z.sgn_spec (shift_of sc p)) as [[? ->]|[[? ->]|[? ->]]]; lia. }
      pose proof (worth_notional (size p) (stressed_price prices sc p) (3 * 2 ^ 160)
        ltac:(lia) ltac:(nia) ltac:(lia)). lia. }
    pose proof (sumZ_bound _ _ _ Hall). pose proof (pr_count _ _ _ Hpr). nia.
Qed.

Lemma practical_worst : worst_case (scenario_loss ps prices <$> scenarios params) ≤ 2 ^ 116.
Proof using Hpr.
  destruct (worst_case_attained (scenario_loss ps prices <$> scenarios params)) as [->|Hin]; [lia|].
  apply list_elem_of_fmap in Hin as (sc & -> & Hsc).
  pose proof (proj1 (Forall_forall _ _) (pr_shifts _ _ _ Hpr) sc Hsc) as Hs.
  destruct (practical_scenario sc Hs) as (_ & _ & Hsum).
  assert (Habs : Z.abs (sumZ (value_change prices sc <$> ps)) ≤
    sumZ ((λ p, notional_at (size p) (stressed_price prices sc p) + notional prices p) <$> ps))
    by (apply sumZ_abs_le, Forall_true; intros; by apply value_change_abs).
  unfold scenario_loss. lia.
Qed.

Lemma practical_concentration :
  concentration_spec ps prices (asset_groups params) (concentration_threshold_bps params)
    (concentration_kappa_bps params) ≤ 2 ^ 114.
Proof using Hpr.
  unfold concentration_spec. rewrite (list_fmap_compose (group_total ps prices (asset_groups params))
    (excess_charge (concentration_threshold ps prices (concentration_threshold_bps params)) (concentration_kappa_bps params))).
  pose proof (excess_charge_sum (concentration_threshold ps prices (concentration_threshold_bps params))
    (concentration_kappa_bps params) (group_total ps prices (asset_groups params) <$> groups_in ps (asset_groups params))) as Hb.
  rewrite group_totals_sum in Hb by done.
  pose proof (bps_share (gross prices ps) (concentration_kappa_bps params) (2 ^ 113) practical_gross (pr_kappa _ _ _ Hpr)).
  assert (0 ≤ concentration_threshold ps prices (concentration_threshold_bps params))
    by (apply threshold_nonneg; [done|apply (pr_threshold _ _ _ Hpr)]).
  specialize (Hb ltac:(done) (proj1 (pr_kappa _ _ _ Hpr)) ltac:(by apply group_totals_nonneg)). lia.
Qed.

Lemma practical_liquidity : liquidity_spec ps prices (liquidity_bps params) ≤ 2 ^ 114.
Proof using Hpr.
  assert (Hall : Forall (λ p, liquidity_term prices (liquidity_bps params) p ≤ 2 ^ 102) ps).
  { eapply Forall_impl; [apply practical_notional|]. intros p Hn. cbn in Hn. unfold liquidity_term.
    apply (bps_share _ _ (2 ^ 101)); [split; [by apply notional_nonneg|done]|].
    destruct (liquidity_bps params !! market_id p) eqn:E; [exact (pr_liquidity _ _ _ Hpr _ _ E)|cbn; lia]. }
  pose proof (sumZ_bound _ _ _ Hall). pose proof (pr_count _ _ _ Hpr). unfold liquidity_spec. nia.
Qed.

Lemma practical_pairs :
  sumZ (pair_size (exposures_of ps prices) (beta_bps params) <$> correlations params) ≤ 2 ^ 115.
Proof using Hpr.
  assert (Hlt : Forall (λ p, notional prices p < 2 ^ 101 + 1) ps)
    by (eapply Forall_impl; [apply practical_notional|]; cbn; lia).
  assert (Hall : Forall (λ e, pair_size (exposures_of ps prices) (beta_bps params) e ≤ 2 ^ 102) (correlations params)).
  { eapply Forall_impl; [apply (pr_rho _ _ _ Hpr)|]. intros e Hrho. cbn in Hrho. unfold pair_size.
    destruct (exposures_of ps prices !! market_a e) as [x|] eqn:Ex; [|lia].
    destruct (exposures_of ps prices !! market_b e) as [y|] eqn:Ey; [|lia].
    pose proof (exposures_bound prices ps practical_prices _ _ _ Hlt Ex). pose proof (pr_beta _ _ _ Hpr).
    unfold BPS_DENOMINATOR in *. apply Z.div_le_upper_bound; [lia|].
    assert (0 ≤ Z.min (Z.abs x) (Z.abs y) ≤ 2 ^ 101) by lia.
    assert (0 ≤ Z.min (Z.abs x) (Z.abs y) * Z.abs (rho_bps e) ≤ 2 ^ 101 * 10000) by nia. nia. }
  pose proof (sumZ_bound _ _ _ Hall). pose proof (pr_pairs _ _ _ Hpr). nia.
Qed.

Lemma practical_scaled : well_scaled ps prices params.
Proof using Hpr.
  pose proof practical_gross. pose proof (pr_threshold _ _ _ Hpr). pose proof (pr_kappa _ _ _ Hpr).
  pose proof (pr_beta _ _ _ Hpr).
  split; [apply (pr_sizes _ _ _ Hpr)|done|apply (pr_priced _ _ _ Hpr)|lia|..].
  - eapply Forall_impl; [apply (pr_shifts _ _ _ Hpr)|]. intros sc Hsc.
    destruct (practical_scenario sc Hsc) as (? & ? & ?). split_and!; [done..|lia].
  - split; [lia|nia].
  - split; [lia|nia].
  - eapply map_Forall_impl; [apply (pr_liquidity _ _ _ Hpr)|]. cbn. intros _ x Hx. int_range.
  - lia.
  - apply (pr_rho _ _ _ Hpr).
  - pose proof practical_worst. pose proof practical_concentration. pose proof practical_liquidity.
    pose proof practical_pairs. lia.
Qed.
End practical.

Lemma demo_practical : practical demo_positions demo_prices demo_params.
Proof.
  split; [by vm_compute|exact demo_sizes_ok| |exact demo_priced|..].
  - unfold demo_prices. apply map_Forall_insert_2; [|apply map_Forall_singleton]; by vm_compute.
  - repeat (apply Forall_cons; split; [by vm_compute|]). constructor.
  - apply Forall_cons; split; [|apply Forall_cons; split; [|constructor]].
    + apply map_Forall_insert_2; [|apply map_Forall_singleton]; by vm_compute.
    + apply map_Forall_singleton. by vm_compute.
  - by vm_compute.
  - by vm_compute.
  - apply map_Forall_singleton. by vm_compute.
  - by vm_compute.
  - repeat (apply Forall_cons; split; [by vm_compute|]). constructor.
  - by vm_compute.
Qed.

(** Outside the bounds the [u128] product of the threshold wraps: a single position worth a little above 2^114
    (scaled), held to a threshold of 2^14 basis points (above 100%, so nothing exceeds it), is charged. *)
Definition huge_positions : list PositionState := [{| market_id := "ETH"; size := 2 ^ 114 |}].
Definition huge_params : PortfolioMarginParams := {|
  scenarios := []; asset_groups := ∅; concentration_threshold_bps := 2 ^ 14; concentration_kappa_bps := 100;
  liquidity_bps := ∅; correlations := []; beta_bps := 0 |}.
Lemma portfolio_margin_wraps :
  let prices := {["ETH" := SCALE]} in
  concentration_spec huge_positions prices ∅ (2 ^ 14) 100 = 0 ∧
  ∃ r, @compute_portfolio_margin checked_u256 huge_positions prices huge_params = Ret (Ok r) ∧
       f_concentration r = 2 ^ 114 / 100.
Proof. cbv zeta. split; [by vm_compute|]. eexists. split; vm_compute; reflexivity. Qed.

(** The margin where every term and product stays inside the code's types. *)
Lemma portfolio_margin_scaled `{!U256Laws U} ps prices params :
  well_scaled ps prices params →
  let fs := worst_case (scenario_loss ps prices <$> scenarios params) in
  let fc := concentration_spec ps prices (asset_groups params)
              (concentration_threshold_bps params) (concentration_kappa_bps params) in
  let fl := liquidity_spec ps prices (liquidity_bps params) in
  let fk := correlation_spec ps prices (correlations params) (beta_bps params) in
  compute_portfolio_margin ps prices params =
    Ret (Ok {| f_scenario := fs; f_concentration := fc; f_liquidity := fl; f_correlation := fk;
               total := Z.max 0 (fs + fc + fl + fk) |}) ∧
  0 ≤ fs ∧ 0 ≤ fc ∧ 0 ≤ fl ∧
  Z.abs fk ≤ sumZ (pair_size (exposures_of ps prices) (beta_bps params) <$> correlations params) ∧
  (0 ≤ fk → fs ≤ Z.max 0 (fs + fc + fl + fk)).
Proof.
  intros [Hs Hp Hpp Hg Hsc [Hth Hgth] [Hk Hgk] Hl Hb Hrho Htot] fs fc fl fk.
  destruct (scenario_margin_Ret prices ps Hs Hp Hpp _ Hsc) as [Hfs Hfsr]. fold fs in Hfs, Hfsr.
  assert (0 ≤ fc) by (by apply concentration_spec_nonneg).
  assert (0 ≤ fl) by (by apply liquidity_spec_nonneg).
  pose proof (correlation_abs ps prices (correlations params) (beta_bps params) ltac:(lia)) as Hfk.
  fold fk in Hfk. fold fs fc fl in Htot.
  split; [|split_and!; try done; lia].
  unfold compute_portfolio_margin. rewrite Hfs. cbn [try_bind].
  rewrite (concentration_Ret prices ps Hs Hp Hpp (asset_groups params) (concentration_threshold_bps params)
    (concentration_kappa_bps params)) by (done || lia). cbn [try_bind].
  rewrite (liquidity_Ret prices ps Hs Hp Hpp (liquidity_bps params)) by (done || fold fl; lia).
  cbn [try_bind].
  rewrite (correlation_Ret ps prices (correlations params) (beta_bps params)) by (done || lia).
  cbn [try_bind]. fold fc fl fk. do 2 f_equal.
  unfold as_i128, as_u128, i128_add.
  rewrite (wraps_small 128 fs), (wraps_small 128 fc), (wraps_small 128 fl) by int_range.
  rewrite (wraps_small 128 (fs + fc)), (wraps_small 128 (fs + fc + fl)) by int_range.
  rewrite (wraps_small 128 (fs + fc + fl + fk)), wrapu_small by int_range.
  f_equal. lia.
Qed.

(** ** Properties *)

(** C33: The isolated requirement is exact.  On any position set of at most [2^64] entries,
    [current_margin_requirement] returns the sum of the floored per-position terms
    [|size| * price * 300 / (1e18 * 1e4)], or [RequirementOverflow] exactly when that sum leaves
    [u128]; the first active position in list order that has no mark price, or whose product
    exceeds 256 bits, decides the failure; without such a position the order does not matter. *)
Theorem isolated_margin_exact `{!U256Laws U} ps prices :
  sizes_ok ps → prices_ok prices → Z.of_nat (length ps) < 2 ^ 64 →
  current_margin_requirement ps prices = requirement_spec ps prices ∧
  (∀ ps', ps ≡ₚ ps' → omap (position_fault prices) ps = [] →
     current_margin_requirement ps' prices = current_margin_requirement ps prices).
Proof.
  intros Hs Hp Hlen. split; [by apply requirement_exact|]. intros ps' Hperm Ho.
  assert (sizes_ok ps') by (unfold sizes_ok in *; by rewrite <- Hperm).
  assert (length ps = length ps') as El by (by apply Permutation_length).
  rewrite !requirement_exact by (done || lia). unfold requirement_spec.
  assert (omap (position_fault prices) ps' = []) as ->.
  { apply Permutation_nil. rewrite <- Ho. by apply omap_Permutation. }
  rewrite Ho. by rewrite (sumZ_perm _ _ (fmap_Permutation (isolated_term prices) _ _ Hperm)).
Qed.

Lemma isolated_margin_exact_witness :
  sizes_ok demo_positions ∧
  @current_margin_requirement checked_u256 demo_positions demo_prices = Ret (Ok (36 * SCALE)).
Proof.
  assert (sizes_ok demo_positions) as Hs by (repeat constructor; vm_compute; done).
  split; [exact Hs|].
  refine (eq_trans (proj1 (@isolated_margin_exact checked_u256 _ demo_positions demo_prices Hs _ _)) _);
    [exact demo_prices_ok|vm_compute; done|vm_compute; reflexivity].
Defined.

(** Withdraw safety.  [is_withdraw_safe] fails exactly as the requirement does and otherwise
    answers whether the collateral left covers it, [M + w <= C_eff]; a safe withdrawal leaves the
    account solvent by [compute_margin]'s own test on the remaining collateral, and an account is
    breached exactly when withdrawing nothing is already unsafe. *)
Theorem withdraw_safe_correct `{!U256} a prices w :
  0 ≤ w → 0 ≤ effective_collateral a →
  is_withdraw_safe a prices w =
    (m ←? current_margin_requirement (positions a) prices;
     Ret (Ok (bool_decide (m + w ≤ effective_collateral a)))) ∧
  (is_withdraw_safe a prices w = Ret (Ok true) →
     w ≤ effective_collateral a ∧
     ∃ r, compute_margin {| positions := positions a;
                            effective_collateral := effective_collateral a - w |} prices = Ret (Ok r) ∧
          maintenance_breached r = false) ∧
  (∀ r, compute_margin a prices = Ret (Ok r) →
     is_withdraw_safe a prices 0 = Ret (Ok (negb (maintenance_breached r)))).
Proof.
  intros Hw Hc.
  assert (∀ m, current_margin_requirement (positions a) prices = Ret (Ok m) → 0 ≤ m) as Hm.
  { unfold current_margin_requirement. intros m (x & _ & Hx)%try_bind_Ok.
    unfold or_overflow, try_u in Hx. case_decide as Hin; simplify_eq/=. apply Hin. }
  assert (∀ w, 0 ≤ w → is_withdraw_safe a prices w =
    (m ←? current_margin_requirement (positions a) prices;
     Ret (Ok (bool_decide (m + w ≤ effective_collateral a))))) as Heq.
  { intros v Hv. unfold is_withdraw_safe.
    destruct (current_margin_requirement _ _) as [[m|e]|]; [|done..]. cbn [try_bind].
    specialize (Hm m eq_refl). case_decide; do 2 f_equal.
    - symmetry. apply bool_decide_eq_false. lia.
    - apply bool_decide_ext. lia. }
  split; [by apply Heq|]. split.
  - rewrite Heq by done. intros (m & Hmm & [= Hle%bool_decide_eq_true])%try_bind_Ok.
    specialize (Hm m Hmm). split; [lia|]. unfold compute_margin. cbn [positions effective_collateral].
    rewrite Hmm. eexists. split; [done|]. cbn. apply bool_decide_eq_false. lia.
  - intros r. unfold compute_margin. intros (m & Hmm & [= <-])%try_bind_Ok.
    rewrite Heq, Hmm by done. cbn. do 2 f_equal. rewrite <- bool_decide_not.
    apply bool_decide_ext. lia.
Qed.

Lemma withdraw_safe_correct_witness :
  @is_withdraw_safe checked_u256
    {| positions := demo_positions; effective_collateral := 50 * SCALE |} demo_prices (14 * SCALE)
    = Ret (Ok true).
Proof.
  refine (eq_trans (proj1 (@withdraw_safe_correct checked_u256
    {| positions := demo_positions; effective_collateral := 50 * SCALE |} demo_prices (14 * SCALE)
    _ _)) _); [vm_compute; done..|vm_compute; reflexivity].
Defined.

(** The scenario term is the worst case.  When every scenario's values fit [i128], [f_S] is
    the largest portfolio loss over the scenario set, floored at zero: no scenario loses more, and
    it is either zero or the loss of one of the scenarios. *)
Theorem scenario_margin_worst_case `{!U256Laws U} ps prices scs :
  sizes_ok ps → prices_ok prices → priced prices ps → Forall (scenario_fits ps prices) scs →
  ∃ m, scenario_margin ps prices scs = Ret (Ok m) ∧ 0 ≤ m < 2 ^ 127 ∧
    (∀ sc, sc ∈ scs → scenario_loss ps prices sc ≤ m) ∧
    (m = 0 ∨ ∃ sc, sc ∈ scs ∧ m = scenario_loss ps prices sc).
Proof.
  intros Hs Hp Hpp Hf.
  destruct (scenario_margin_Ret prices ps Hs Hp Hpp scs Hf) as [Heq Hr].
  exists (worst_case (scenario_loss ps prices <$> scs)). split_and!; [done|lia|lia| |].
  - intros sc Hsc. apply worst_case_ge. by apply list_elem_of_fmap_2.
  - destruct (worst_case_attained (scenario_loss ps prices <$> scs)) as [->|Hin]; [by left|right].
    apply list_elem_of_fmap in Hin as (sc & -> & ?). by exists sc.
Qed.

Lemma scenario_margin_worst_case_witness :
  ∃ m, @scenario_margin checked_u256 demo_positions demo_prices (scenarios demo_params) = Ret (Ok m).
Proof.
  destruct (@scenario_margin_worst_case checked_u256 _ demo_positions demo_prices
    (scenarios demo_params) demo_sizes_ok demo_prices_ok demo_priced demo_scenarios_fit) as (m & Hm & _).
  exists m. exact Hm.
Defined.

(** The concentration charge is exact and does not depend on the order a hash map lists its
    groups in.  Inside the [u128] bounds it is [kappa] on every group's notional above
    [theta * gross / 1e4], a group's notional being the sum over its active positions (unlisted
    markets share one group); any listing of the accumulated groups is charged the same, the
    charge never exceeds [kappa * gross / 1e4], and it is zero when no group is above the
    threshold. *)
Theorem concentration_charge_exact `{!U256Laws U} ps prices groups th kappa :
  sizes_ok ps → prices_ok prices → priced prices ps → gross prices ps < 2 ^ 128 →
  0 ≤ th → gross prices ps * th < 2 ^ 128 → 0 ≤ kappa → gross prices ps * kappa < 2 ^ 128 →
  let threshold := concentration_threshold ps prices th in
  let charge := concentration_spec ps prices groups th kappa in
  concentration_charge ps prices groups th kappa = Ret (Ok charge) ∧
  (∀ m ns, try_fold (concentration_step prices groups) (0, ∅) ps = Ret (Ok (gross prices ps, m)) →
     ns ≡ₚ (map_to_list m).*2 → charge_groups threshold kappa ns = charge) ∧
  0 ≤ charge ≤ gross prices ps * kappa / BPS_DENOMINATOR ∧
  ((∀ g, g ∈ groups_in ps groups → group_total ps prices groups g ≤ threshold) → charge = 0).
Proof.
  intros Hs Hp Hpp Hg Hth Hgth Hk Hgk threshold charge.
  pose proof (threshold_nonneg prices ps Hp th Hth) as Ht.
  pose proof (group_totals_nonneg prices ps Hp groups (groups_in ps groups)) as Hnn.
  pose proof (group_totals_sum prices ps groups) as Hsum.
  assert (charge = sumZ (excess_charge threshold kappa <$>
            (group_total ps prices groups <$> groups_in ps groups))) as Hc
    by (unfold charge, concentration_spec; by rewrite <- list_fmap_compose).
  split; [by apply concentration_Ret|]. split; [|split].
  - intros m ns Hm Hns.
    rewrite (concentration_fold_Ret prices ps Hs Hp Hpp groups ps []) in Hm
      by (done || by rewrite app_nil_r). injection Hm as <-.
    pose proof (group_map_values prices groups (active ps)) as Hv. rewrite <- Hns in Hv.
    change (ns ≡ₚ group_total ps prices groups <$> groups_in ps groups) in Hv.
    rewrite charge_groups_spec; [|done..| |].
    + rewrite Hc. by apply sumZ_perm, fmap_Permutation.
    + by rewrite Hv.
    + by rewrite (sumZ_perm _ _ Hv), Hsum.
  - rewrite Hc, <- Hsum. by apply excess_charge_sum.
  - intros Hle. unfold charge, concentration_spec.
    assert (∀ gs, (∀ g, g ∈ gs → group_total ps prices groups g ≤ threshold) →
      sumZ ((λ g, excess_charge threshold kappa (group_total ps prices groups g)) <$> gs) = 0) as Hz;
      [|by apply Hz].
    induction gs as [|g gs IH]; intros Hgs; [done|]. rewrite fmap_cons, sumZ_cons, IH
      by (intros; apply Hgs; by right).
    pose proof (Hgs g ltac:(by left)). unfold excess_charge.
    rewrite Z.max_l, Z.mul_0_l, Z.div_0_l by (done || lia). done.
Qed.

Lemma concentration_charge_exact_witness :
  @concentration_charge checked_u256 demo_positions demo_prices (asset_groups demo_params) 5000 100
    = Ret (Ok (4 * SCALE)).
Proof.
  refine (eq_trans (proj1 (@concentration_charge_exact checked_u256 _ demo_positions demo_prices
    (asset_groups demo_params) 5000 100 demo_sizes_ok demo_prices_ok demo_priced _ _ _ _ _)) _);
    [vm_compute; done..|vm_compute; reflexivity].
Defined.

(** C19: The portfolio margin of any [practical] portfolio (priced positions of up to 10^12 dollars each, up to
    4096 of them, parameters of up to 163%) is [max 0 (f_S + f_C + f_L + f_K)] with each term in
    closed form: the worst scenario loss, the concentration and liquidity charges, and the correlation
    sum, whose pairs are each bounded by the smaller leg, charge same-direction exposure on a positive
    correlation and credit opposite directions.  Within these bounds on the inputs every 128- and
    256-bit operation on the way is exact, none errors or aborts, and without a credit the requirement
    is at least the worst loss.  Far outside them the code's own multiplications wrap
    ([portfolio_margin_wraps]). *)
Theorem portfolio_margin_exact `{!U256Laws U} ps prices params :
  practical ps prices params →
  let fs := worst_case (scenario_loss ps prices <$> scenarios params) in
  let fc := concentration_spec ps prices (asset_groups params)
              (concentration_threshold_bps params) (concentration_kappa_bps params) in
  let fl := liquidity_spec ps prices (liquidity_bps params) in
  let fk := correlation_spec ps prices (correlations params) (beta_bps params) in
  compute_portfolio_margin ps prices params =
    Ret (Ok {| f_scenario := fs; f_concentration := fc; f_liquidity := fl; f_correlation := fk;
               total := Z.max 0 (fs + fc + fl + fk) |}) ∧
  0 ≤ fs ∧ 0 ≤ fc ∧ 0 ≤ fl ∧
  Z.abs fk ≤ sumZ (pair_size (exposures_of ps prices) (beta_bps params) <$> correlations params) ∧
  (0 ≤ fk → fs ≤ Z.max 0 (fs + fc + fl + fk)).
Proof. intros Hp. apply portfolio_margin_scaled. by apply practical_scaled. Qed.

Lemma portfolio_margin_exact_witness :
  practical demo_positions demo_prices demo_params ∧
  ∃ r, @compute_portfolio_margin checked_u256 demo_positions demo_prices demo_params = Ret (Ok r) ∧
       total r = 177 * SCALE.
Proof.
  split; [exact demo_practical|]. eexists. split.
  - exact (proj1 (@portfolio_margin_exact checked_u256 _ demo_positions demo_prices demo_params demo_practical)).
  - vm_compute. reflexivity.
Defined.

(** Nothing is margined without a price.  Whatever the 256-bit arithmetic does, if the
    isolated requirement or the portfolio margin returns a number, every position of nonzero size
    had a mark price; a zero-size position needs none. *)
Theorem margin_needs_prices `{U256} ps prices params :
  (∀ m, current_margin_requirement ps prices = Ret (Ok m) → priced prices ps) ∧
  (∀ r, compute_portfolio_margin ps prices params = Ret (Ok r) → priced prices ps).
Proof.
  split.
  - intros m (x & Hx & _)%try_bind_Ok. eapply try_fold_priced; [|exact Hx].
    intros a p b. unfold requirement_step. case_decide; [done|].
    intros (price & Hpr & _)%try_bind_Ok _. by eapply mark_price_Some.
  - intros r (fs & _ & (fc & Hfc & _)%try_bind_Ok)%try_bind_Ok.
    apply try_bind_Ok in Hfc as ([t m] & Hx & _). eapply try_fold_priced; [|exact Hx].
    intros [t' m'] p b. unfold concentration_step. case_decide; [done|].
    intros (price & Hpr & _)%try_bind_Ok _. by eapply mark_price_Some.
Qed.
