(* ===== verification/Averages.v ===== *)
(** * Trailing windows and integer averages

    The arithmetic the two backstop makers share: the last [window] prints of a history and the
    floored mean of a list. *)
From S2P Require Import Prelude Ints.
Open Scope Z_scope.

(** [&history[history.len().saturating_sub(window)..]]. *)
Definition last_prints {A} (history : list A) (window : nat) : list A :=
  drop (length history - window) history.

Definition mean_spec (l : list Z) : Z := sumZ l / Z.of_nat (length l).

Lemma last_prints_nonempty {A} (history : list A) w :
  history ≠ [] → (0 < w)%nat → last_prints history w ≠ [].
Proof.
  intros Hh Hw E. apply (f_equal length) in E. unfold last_prints in E.
  rewrite length_drop in E. destruct history; [done|]. cbn in E. lia.
Qed.

Lemma last_prints_length {A} (history : list A) w :
  length (last_prints history w) = (length history `min` w)%nat.
Proof. unfold last_prints. rewrite length_drop. lia. Qed.

Lemma last_prints_all {A} (history : list A) w :
  (length history ≤ w)%nat → last_prints history w = history.
Proof. intros. unfold last_prints. by replace (length history - w)%nat with 0%nat by lia. Qed.

Lemma last_prints_Forall {A} (P : A → Prop) history w :
  Forall P history → Forall P (last_prints history w).
Proof. apply Forall_drop. Qed.

Lemma last_last_prints {A} (history : list A) w :
  (0 < w)%nat → last (last_prints history w) = last history.
Proof.
  intros Hw. destruct history as [|x h _] using rev_ind; [done|]. unfold last_prints.
  rewrite drop_app_le by (rewrite length_app; cbn; lia). by rewrite !last_snoc.
Qed.

(** Appending a print to a full window drops its oldest one. *)
Lemma last_prints_snoc {A} (history : list A) x w :
  (0 < w)%nat →
  last_prints (history ++ [x]) w =
    if decide (w < length (last_prints history w ++ [x]))%nat
    then tail (last_prints history w ++ [x]) else last_prints history w ++ [x].
Proof.
  intros Hw. rewrite length_app, last_prints_length. unfold last_prints. rewrite length_app. cbn.
  rewrite drop_app_le by lia. case_decide.
  - replace (length history + 1 - w)%nat with (S (length history - w)) by lia.
    replace (S (length history - w)) with (length history - w + 1)%nat by lia.
    rewrite <- drop_drop. destruct (drop (length history - w) history) as [|y l] eqn:E; [|done].
    apply (f_equal length) in E. rewrite length_drop in E. cbn in E. lia.
  - by replace (length history + 1 - w)%nat with (length history - w)%nat by lia.
Qed.

Lemma sum_bound (b : Z) l : Forall (λ x, 0 ≤ x < b) l → 0 ≤ sumZ l ≤ Z.of_nat (length l) * (b - 1).
Proof. induction 1; [done|]. rewrite sumZ_cons, length_cons. lia. Qed.

Lemma mean_between lo hi l :
  l ≠ [] → Forall (λ x, lo ≤ x ≤ hi) l → lo ≤ mean_spec l ≤ hi.
Proof.
  intros Hn Hf. unfold mean_spec.
  assert (0 < Z.of_nat (length l)) by (destruct l; [done|cbn; lia]).
  assert (Z.of_nat (length l) * lo ≤ sumZ l ≤ Z.of_nat (length l) * hi).
  { clear - Hf. induction Hf; [done|]. rewrite sumZ_cons, length_cons. lia. }
  split; [apply Z.div_le_lower_bound; lia|apply Z.div_le_upper_bound; lia].
Qed.

Lemma mean_in_u w l : l ≠ [] → Forall (in_u w) l → in_u w (mean_spec l).
Proof.
  intros Hn Hf. pose proof (mean_between 0 (2 ^ w - 1) l Hn
    ltac:(eapply Forall_impl; [exact Hf|unfold in_u; cbn; lia])). unfold in_u. lia.
Qed.

(** The last element is at most the length times one more than the mean. *)
Lemma last_le_mean l x :
  Forall (λ x, 0 ≤ x) l → last l = Some x → x < Z.of_nat (length l) * (mean_spec l + 1).
Proof.
  intros Hf Hx. apply last_Some in Hx as [l' ->].
  apply Forall_app in Hf as [Hf%sumZ_nonneg [Hx _]%Forall_cons]. unfold mean_spec.
  set (n := Z.of_nat (length (l' ++ [x]))). assert (0 < n) by (unfold n; rewrite length_app; cbn; lia).
  pose proof (Z.mul_succ_div_gt (sumZ (l' ++ [x])) n ltac:(lia)) as Hd.
  rewrite sumZ_app, sumZ_cons in *. change (sumZ []) with 0 in *. lia.
Qed.
