(* ===== verification/BackstopMaker.v ===== *)
(** * The backstop maker of the risk crate ([crates/risk/src/backstop_maker.rs])

    A quote centred on a slow trailing average, a cap on the size of a fill, a last look against a
    faster average, and the profit ledger.  [history] is a slice of [u128] whose last element is
    the live print.  The theorem at the end says exactly when a fill is accepted. *)
From S2P Require Import Prelude Ints U256 Averages.
Open Scope Z_scope.

Definition BPS_DENOMINATOR : Z := 10000.
Definition SCALE : Z := 1000000000000000000.

Inductive BackstopMakerError := EmptyHistory | Overflow.
Inductive Side := Buy | Sell.

Inductive SpreadModel :=
| Flat
| Dynamic (max_spread_bps widen_per_unit_utilization_bps inventory_reference : Z).

Record BackstopMakerConfig := {
  spread_bps : Z;
  spread_model : SpreadModel;
  quote_twap_window : nat;
  last_look_window : nat;
  last_look_threshold_bps : Z;
  notional_cap : Z;
}.

Record Quote := { bid : Z; ask : Z }.
Inductive FillDecision := Accepted (price sz : Z) | RejectedStalePrice.

Record PnlLedger := { cumulative : Z; inventory : Z }.

Definition or_overflow (o : option Z) : exec (result Z BackstopMakerError) := Ret (ok_or o Overflow).

Section maker.
Context `{U : U256}.

Definition effective_spread_bps (cfg : BackstopMakerConfig) (inv : Z) :
    exec (result Z BackstopMakerError) :=
  match spread_model cfg with
  | Flat => Ret (Ok (spread_bps cfg))
  | Dynamic max_spread_bps widen inventory_reference =>
      if decide (inventory_reference = 0) then Ret (Ok max_spread_bps)
      else
        u ← mul_div (Z.abs inv) BPS_DENOMINATOR inventory_reference;
        u ←? or_overflow (try_u 128 u);
        let utilization_bps := Z.min u BPS_DENOMINATOR in
        e ← mul_div widen utilization_bps BPS_DENOMINATOR;
        extra ←? or_overflow (try_u 128 e);
        Ret (Ok (Z.min (u128_add (spread_bps cfg) extra) max_spread_bps))
  end.

(** [iter().fold(U256::zero(), |acc, p| acc + p)]. *)
Fixpoint u256_sum (acc : Z) (l : list Z) : exec Z :=
  match l with
  | [] => Ret acc
  | p :: l' => acc' ← u256_add acc p; u256_sum acc' l'
  end.

Definition mean (history : list Z) : exec (result Z BackstopMakerError) :=
  match history with
  | [] => Ret (Err EmptyHistory)
  | _ => sum ← u256_sum 0 history;
         q ← u256_div sum (Z.of_nat (length history));
         or_overflow (try_u 128 q)
  end.

Definition trailing_mean (history : list Z) (window : nat) : exec (result Z BackstopMakerError) :=
  mean (last_prints history window).

Definition fair_value (history : list Z) (cfg : BackstopMakerConfig) :
    exec (result Z BackstopMakerError) := trailing_mean history (quote_twap_window cfg).

Definition compute_quote (history : list Z) (cfg : BackstopMakerConfig) (inv : Z) :
    exec (result Quote BackstopMakerError) :=
  center ←? fair_value history cfg;
  spread ←? effective_spread_bps cfg inv;
  h ← mul_div center spread BPS_DENOMINATOR;
  half_spread ←? or_overflow (try_u 128 h);
  Ret (Ok {| bid := sat_u 128 (center - half_spread); ask := sat_u 128 (center + half_spread) |}).

Definition evaluate_fill (history : list Z) (cfg : BackstopMakerConfig) (side : Side)
    (requested_size inv : Z) : exec (result FillDecision BackstopMakerError) :=
  quote ←? compute_quote history cfg inv;
  let price := match side with Buy => ask quote | Sell => bid quote end in
  let sz := Z.min requested_size (notional_cap cfg) in
  live_print ←? Ret (ok_or (last history) EmptyHistory);
  reference ←? trailing_mean history (last_look_window cfg);
  let deviation := abs_diff live_print reference in
  d ← mul_div deviation BPS_DENOMINATOR reference;
  deviation_bps ←? or_overflow (try_u 128 d);
  if decide (last_look_threshold_bps cfg < deviation_bps) then Ret (Ok RejectedStalePrice)
  else Ret (Ok (Accepted price sz)).
End maker.

(** [record_fill]: the maker took the opposite side; [/] on [i128] truncates towards zero. *)
Definition record_fill (l : PnlLedger) (side : Side) (fill_price mark_price sz : Z) : PnlLedger :=
  let price_diff := i128_sub (as_i128 mark_price) (as_i128 fill_price) in
  let signed_diff := match side with Buy => i128_neg price_diff | Sell => price_diff end in
  let trade_pnl := Z.quot (sat_s 128 (signed_diff * as_i128 sz)) SCALE in
  let inventory_delta := match side with Buy => i128_neg (as_i128 sz) | Sell => as_i128 sz end in
  {| cumulative := sat_s 128 (cumulative l + trade_pnl);
     inventory := sat_s 128 (inventory l + inventory_delta) |}.

Definition breakeven_subsidy_needed (l : PnlLedger) : Z :=
  if decide (0 ≤ cumulative l) then 0 else Z.abs (cumulative l).

(** ** Specification *)

Definition spread_spec (cfg : BackstopMakerConfig) (inv : Z) : Z :=
  match spread_model cfg with
  | Flat => spread_bps cfg
  | Dynamic mx widen ref =>
      if decide (ref = 0) then mx
      else Z.min (spread_bps cfg
                  + widen * Z.min (Z.abs inv * BPS_DENOMINATOR / ref) BPS_DENOMINATOR
                      / BPS_DENOMINATOR) mx
  end.

(** Configurations in range, whose spread arithmetic stays in [u128]. *)
Record config_ok (cfg : BackstopMakerConfig) (inv : Z) : Prop := {
  ok_spread : in_u 128 (spread_bps cfg);
  ok_cap : in_u 128 (notional_cap cfg);
  ok_inv : in_s 128 inv;
  ok_model : match spread_model cfg with
             | Flat => True
             | Dynamic mx widen ref =>
                 in_u 128 mx ∧ in_u 128 widen ∧ in_u 128 ref ∧ spread_bps cfg + widen < 2 ^ 128 ∧
                 (ref ≠ 0 → Z.abs inv * BPS_DENOMINATOR / ref < 2 ^ 128)
             end;
  ok_windows : (0 < quote_twap_window cfg ∧ 0 < last_look_window cfg)%nat;
}.

Definition history_ok (history : list Z) : Prop :=
  history ≠ [] ∧ Forall (in_u 128) history ∧ Z.of_nat (length history) < 2 ^ 64.

Definition half_spread_spec (history : list Z) (cfg : BackstopMakerConfig) (inv : Z) : Z :=
  mean_spec (last_prints history (quote_twap_window cfg)) * spread_spec cfg inv / BPS_DENOMINATOR.

(** A recorded fill: taker side, fill price, mark price, size. *)
Definition RecordedFill : Type := Side * Z * Z * Z.
Definition record_one (l : PnlLedger) (f : RecordedFill) : PnlLedger :=
  let '(side, fill_price, mark_price, sz) := f in record_fill l side fill_price mark_price sz.

(** What the maker earns on a fill, and how its position moves. *)
Definition maker_sign (side : Side) : Z := match side with Buy => -1 | Sell => 1 end.
Definition fill_pnl (f : RecordedFill) : Z :=
  let '(side, fill_price, mark_price, sz) := f in
  Z.quot (maker_sign side * (mark_price - fill_price) * sz) SCALE.
Definition fill_position (f : RecordedFill) : Z :=
  let '(side, _, _, sz) := f in maker_sign side * sz.
Definition fill_ok (f : RecordedFill) : Prop :=
  let '(side, fill_price, mark_price, sz) := f in
  0 ≤ fill_price < 2 ^ 127 ∧ 0 ≤ mark_price < 2 ^ 127 ∧ 0 ≤ sz < 2 ^ 127 ∧
  Z.abs (mark_price - fill_price) * sz < 2 ^ 127.

(** A configuration and a history used by the witness. *)
Definition demo_config : BackstopMakerConfig := {|
  spread_bps := 8; spread_model := Dynamic 24 16 20000; quote_twap_window := 4;
  last_look_window := 2; last_look_threshold_bps := 15; notional_cap := 5000 |}.
Definition demo_history : list Z := [99000; 100000; 100000; 100100; 100200].

Definition demo_fills : list RecordedFill :=
  [(Buy, 100 * SCALE, 110 * SCALE, 3 * SCALE / 10); (Sell, 90 * SCALE, 95 * SCALE, SCALE / 10)].

(** ** Lemmas *)

Lemma last_prints_ok history w :
  history_ok history → (0 < w)%nat → history_ok (last_prints history w).
Proof.
  intros (Hn & Hf & Hl) Hw. split_and!.
  - by apply last_prints_nonempty.
  - by apply Forall_drop.
  - unfold last_prints. rewrite length_drop. lia.
Qed.

Lemma mean_range l : history_ok l → in_u 128 (mean_spec l).
Proof. intros (? & ? & _). by apply mean_in_u. Qed.

Section laws.
Context `{!U256Laws U}.

Lemma u256_sum_Ret acc l :
  0 ≤ acc → Forall (λ x, 0 ≤ x) l → acc + sumZ l < 2 ^ 256 → u256_sum acc l = Ret (acc + sumZ l).
Proof.
  intros Ha Hf. revert acc Ha. induction Hf as [|x l Hx Hf IH]; intros acc Ha Hb.
  { cbn. f_equal. lia. }
  pose proof (sumZ_nonneg l Hf). rewrite sumZ_cons in *. cbn [u256_sum].
  run (u256_add_Ret acc x); [|lia..]. rewrite IH by lia. f_equal. lia.
Qed.

Lemma mean_Ret l : history_ok l → mean l = Ret (Ok (mean_spec l)).
Proof.
  intros Hok. pose proof (mean_range l Hok) as Hr. destruct Hok as (Hn & Hf & Hl).
  pose proof (sum_bound (2 ^ 128) l Hf) as Hs.
  assert (0 < Z.of_nat (length l)) by (destruct l; [done|cbn; lia]).
  assert (sumZ l < 2 ^ 192) by nia.
  unfold mean. destruct l as [|x l]; [done|].
  run (u256_sum_Ret 0 (x :: l));
    [|done|eapply Forall_impl; [exact Hf|unfold in_u; cbn; lia]|lia].
  rewrite Z.add_0_l. run (u256_div_Ret (sumZ (x :: l)) (Z.of_nat (length (x :: l)))); [|lia..].
  fold (mean_spec (x :: l)). unfold or_overflow. by rewrite try_u_in.
Qed.

Lemma effective_spread_Ret cfg inv :
  config_ok cfg inv →
  effective_spread_bps cfg inv = Ret (Ok (spread_spec cfg inv)) ∧ in_u 128 (spread_spec cfg inv).
Proof.
  intros [Hs _ Hi Hm _]. unfold effective_spread_bps, spread_spec.
  destruct (spread_model cfg) as [|mx widen ref]; [done|].
  destruct Hm as (Hmx & Hw & Hr & Hsum & Hu). case_decide as Hz; [done|].
  specialize (Hu Hz). unfold BPS_DENOMINATOR in *.
  assert (0 ≤ Z.abs inv * 10000 / ref) by (apply div_nonneg; int_range).
  run (mul_div_u128 (Z.abs inv) 10000 ref); [|int_range..].
  unfold or_overflow. rewrite try_u_in by int_range. cbn [ok_or try_bind].
  set (u := Z.min (Z.abs inv * 10000 / ref) 10000) in *.
  assert (0 ≤ u ≤ 10000) by (unfold u; lia).
  run (mul_div_u128 widen u 10000); [|int_range..].
  assert (0 ≤ widen * u / 10000 ≤ widen) by
    (split; [apply div_nonneg|apply Z.div_le_upper_bound]; unfold in_u in Hw; nia).
  rewrite try_u_in by int_range. cbn [ok_or try_bind]. unfold u128_add.
  rewrite wrapu_small by int_range. split; [done|]. int_range.
Qed.

Lemma compute_quote_Ret history cfg inv :
  history_ok history → config_ok cfg inv →
  let c := mean_spec (last_prints history (quote_twap_window cfg)) in
  let h := half_spread_spec history cfg inv in
  0 ≤ h ∧
  compute_quote history cfg inv =
    if decide (h < 2 ^ 128)
    then Ret (Ok {| bid := Z.max 0 (c - h); ask := Z.min (c + h) u128_max |})
    else Ret (Err Overflow).
Proof.
  intros Hh Hc c h. destruct (effective_spread_Ret cfg inv Hc) as [Hes Her].
  destruct Hc as [_ _ _ _ [Hw _]].
  pose proof (last_prints_ok history (quote_twap_window cfg) Hh Hw) as Hok.
  pose proof (mean_range _ Hok) as Hcr. fold c in Hcr.
  assert (0 ≤ h) as Hh0.
  { unfold h, half_spread_spec, BPS_DENOMINATOR. fold c. apply div_nonneg; unfold in_u in *; nia. }
  split; [done|]. unfold compute_quote, fair_value, trailing_mean.
  rewrite mean_Ret by done. cbn [try_bind]. rewrite Hes. cbn [try_bind].
  run (mul_div_u128 (mean_spec (last_prints history (quote_twap_window cfg))) (spread_spec cfg inv)
         BPS_DENOMINATOR); [|done|done|unfold BPS_DENOMINATOR; lia].
  fold c. change (c * spread_spec cfg inv / BPS_DENOMINATOR) with h. unfold or_overflow.
  case_decide.
  - rewrite try_u_in by int_range. cbn [ok_or try_bind]. unfold sat_u, u128_max. do 3 f_equal; int_range.
  - by rewrite (proj2 (try_u_None 128 h)) by int_range.
Qed.
End laws.

Lemma spread_spec_bounds cfg inv :
  config_ok cfg inv →
  match spread_model cfg with
  | Flat => spread_spec cfg inv = spread_bps cfg
  | Dynamic mx _ _ => spread_spec cfg inv ≤ mx ∧
                      (spread_bps cfg ≤ mx → spread_bps cfg ≤ spread_spec cfg inv)
  end.
Proof.
  intros [Hs _ Hi Hm _]. unfold spread_spec. destruct (spread_model cfg) as [|mx widen ref]; [done|].
  destruct Hm as (Hmx & Hw & Hr & _ & _). case_decide; [lia|]. unfold BPS_DENOMINATOR in *.
  assert (0 ≤ Z.abs inv * 10000 / ref) by (apply div_nonneg; int_range).
  assert (0 ≤ widen * Z.min (Z.abs inv * 10000 / ref) 10000 / 10000); [|lia].
  apply div_nonneg; [|lia]. unfold in_u in Hw. nia.
Qed.

Lemma record_one_exact l f :
  fill_ok f → Z.abs (cumulative l) + Z.abs (fill_pnl f) < 2 ^ 127 →
  Z.abs (inventory l) + Z.abs (fill_position f) < 2 ^ 127 →
  record_one l f = {| cumulative := cumulative l + fill_pnl f;
                      inventory := inventory l + fill_position f |}.
Proof.
  destruct f as [[[side fp] mp] sz]. intros (Hf & Hm & Hs & Hd) Hc Hi.
  cbn [record_one fill_pnl fill_position] in *. unfold record_fill.
  unfold as_i128, i128_sub, i128_neg.
  rewrite (wraps_small 128 mp), (wraps_small 128 fp), (wraps_small 128 sz) by int_range.
  rewrite (wraps_small 128 (mp - fp)) by int_range.
  assert (match side with Buy => wraps 128 (- (mp - fp)) | Sell => mp - fp end
          = maker_sign side * (mp - fp)) as ->.
  { destruct side; cbn [maker_sign]; [rewrite wraps_small by int_range|]; lia. }
  assert (match side with Buy => wraps 128 (- sz) | Sell => sz end = maker_sign side * sz) as ->.
  { destruct side; cbn [maker_sign]; [rewrite wraps_small by int_range|]; lia. }
  assert (sat_s 128 (maker_sign side * (mp - fp) * sz) = maker_sign side * (mp - fp) * sz) as ->.
  { unfold sat_s. destruct side; cbn [maker_sign] in *; nia. }
  unfold sat_s. f_equal; lia.
Qed.

(** ** Properties *)

(** What the backstop maker of the risk crate accepts.  For a non-empty history and a
    configuration in range, [evaluate_fill] errs only when the half spread itself overflows, aborts
    exactly when the last-look average is zero, refuses exactly when the live print is further from
    that average than the threshold (or an overflow of the ratio stops it), and otherwise accepts
    the smaller of the requested size and the cap at the taker's side of a quote centred on the slow
    average: the bid never above and the ask never below that centre, the spread between its floor
    and its ceiling. *)
Theorem evaluate_fill_exact `{!U256Laws U} history cfg side requested inv live :
  history_ok history → config_ok cfg inv → last history = Some live →
  let c := mean_spec (last_prints history (quote_twap_window cfg)) in
  let h := half_spread_spec history cfg inv in
  let ref := mean_spec (last_prints history (last_look_window cfg)) in
  let dev := abs_diff live ref * BPS_DENOMINATOR / ref in
  let price := match side with Buy => Z.min (c + h) u128_max | Sell => Z.max 0 (c - h) end in
  evaluate_fill history cfg side requested inv =
    (if decide (2 ^ 128 ≤ h) then Ret (Err Overflow)
     else if decide (ref = 0) then Panic
     else if decide (2 ^ 128 ≤ dev) then Ret (Err Overflow)
     else if decide (last_look_threshold_bps cfg < dev) then Ret (Ok RejectedStalePrice)
     else Ret (Ok (Accepted price (Z.min requested (notional_cap cfg))))) ∧
  match side with Buy => c ≤ price | Sell => price ≤ c end ∧
  match spread_model cfg with
  | Flat => spread_spec cfg inv = spread_bps cfg
  | Dynamic mx _ _ => spread_spec cfg inv ≤ mx ∧
                      (spread_bps cfg ≤ mx → spread_bps cfg ≤ spread_spec cfg inv)
  end.
Proof.
  intros Hh Hc Hlive c h ref dev price.
  destruct (compute_quote_Ret history cfg inv Hh Hc) as [Hh0 Hq]. fold c h in Hh0, Hq.
  pose proof (spread_spec_bounds cfg inv Hc) as Hsp. destruct (ok_windows _ _ Hc) as [Hw1 Hw2].
  pose proof (mean_range _ (last_prints_ok history _ Hh Hw1)) as Hcr. fold c in Hcr.
  pose proof (last_prints_ok history _ Hh Hw2) as Hlok.
  pose proof (mean_range _ Hlok) as Hrr. fold ref in Hrr.
  assert (in_u 128 live) as Hl.
  { destruct Hh as (_ & Hf & _). apply last_Some in Hlive as [l' ->].
    by apply Forall_app in Hf as [_ [? _]%Forall_cons]. }
  split; [|split; [|done]]; cycle 1.
  { destruct side; unfold price, u128_max, in_u in *; lia. }
  unfold evaluate_fill. rewrite Hq. destruct (decide (h < 2 ^ 128)) as [Hlt|Hge]; cycle 1.
  { by rewrite decide_True by lia. }
  rewrite (decide_False (P := 2 ^ 128 ≤ h)) by lia. cbn [try_bind]. rewrite Hlive. cbn [ok_or try_bind].
  unfold trailing_mean. rewrite mean_Ret by done. cbn [try_bind]. fold ref.
  destruct (decide (ref = 0)) as [Hz|Hnz].
  { unfold mul_div. rewrite u256_mul_Ret by (unfold abs_diff, BPS_DENOMINATOR, in_u in *; lia).
    cbv beta iota delta [mbind exec_bind]. rewrite u256_div_spec, decide_True; [done..| |];
      unfold abs_diff, BPS_DENOMINATOR, in_u in *; lia. }
  run (mul_div_u128 (abs_diff live ref) BPS_DENOMINATOR ref);
    [|unfold abs_diff, BPS_DENOMINATOR, in_u in *; lia..].
  fold dev. unfold or_overflow.
  assert (0 ≤ dev).
  { unfold dev, abs_diff, BPS_DENOMINATOR. unfold in_u in Hrr. apply div_nonneg; lia. }
  destruct (decide (2 ^ 128 ≤ dev)).
  { by rewrite (proj2 (try_u_None 128 dev)) by int_range. }
  rewrite try_u_in by int_range. cbn [ok_or try_bind]. case_decide; [done|].
  by destruct side.
Qed.

Lemma evaluate_fill_exact_witness :
  @evaluate_fill checked_u256 demo_history demo_config Buy 9000 (-10000)
    = Ret (Ok (Accepted 100235 5000)).
Proof.
  assert (history_ok demo_history) as Hh.
  { split_and!; [done|repeat (apply Forall_cons; split; [by vm_compute|]); constructor|by vm_compute]. }
  assert (config_ok demo_config (-10000)) as Hc.
  { split; [by vm_compute..| |by vm_compute; lia].
    split_and!; [by vm_compute..|intros _; by vm_compute]. }
  refine (eq_trans (proj1 (@evaluate_fill_exact checked_u256 _ demo_history demo_config Buy 9000
    (-10000) 100200 Hh Hc eq_refl)) _). vm_compute. reflexivity.
Defined.

(** The ledger adds up.  While every product and running total fits [i128], recording a
    sequence of fills leaves the cumulative result equal to the sum of the maker's individually
    truncated results (the maker gains when the mark falls after a taker buy and rises after a
    taker sell), the inventory equal to the sum of the opposite positions, and the subsidy due
    equal to the net loss and to nothing when there is none. *)
Theorem ledger_totals fills l :
  Forall fill_ok fills →
  Z.abs (cumulative l) + sumZ ((λ f, Z.abs (fill_pnl f)) <$> fills) < 2 ^ 127 →
  Z.abs (inventory l) + sumZ ((λ f, Z.abs (fill_position f)) <$> fills) < 2 ^ 127 →
  let l' := foldl record_one l fills in
  cumulative l' = cumulative l + sumZ (fill_pnl <$> fills) ∧
  inventory l' = inventory l + sumZ (fill_position <$> fills) ∧
  breakeven_subsidy_needed l' = Z.max 0 (- (cumulative l + sumZ (fill_pnl <$> fills))).
Proof.
  intros Hf Hc Hi l'.
  assert (cumulative l' = cumulative l + sumZ (fill_pnl <$> fills) ∧
          inventory l' = inventory l + sumZ (fill_position <$> fills)) as [Hcum Hinv].
  { unfold l'. clear l'. revert l Hc Hi. induction Hf as [|f fills Hfo Hf IH]; intros l Hc Hi.
    { cbn. lia. }
    rewrite fmap_cons, sumZ_cons in *. rewrite !fmap_cons, !sumZ_cons. cbn [foldl].
    assert (∀ g : RecordedFill → Z, 0 ≤ sumZ ((λ f, Z.abs (g f)) <$> fills)) as Hnn.
    { intros g. apply sumZ_nonneg, Forall_fmap, Forall_true. intros; cbn; lia. }
    pose proof (Hnn fill_pnl). pose proof (Hnn fill_position).
    rewrite record_one_exact by (done || lia).
    destruct (IH {| cumulative := cumulative l + fill_pnl f;
                    inventory := inventory l + fill_position f |}) as [-> ->];
      cbn [cumulative inventory]; lia. }
  split_and!; [done|done|]. unfold breakeven_subsidy_needed. rewrite Hcum. case_decide; lia.
Qed.

Lemma ledger_totals_witness :
  breakeven_subsidy_needed (foldl record_one {| cumulative := 0; inventory := 0 |} demo_fills)
    = 25 * SCALE / 10.
Proof.
  assert (Forall fill_ok demo_fills) as Hf by
    (repeat (apply Forall_cons; split; [vm_compute; intuition congruence|]); constructor).
  destruct (ledger_totals demo_fills {| cumulative := 0; inventory := 0 |} Hf
    ltac:(by vm_compute) ltac:(by vm_compute)) as (_ & _ & H).
  refine (eq_trans H _). vm_compute. reflexivity.
Defined.
