(* ===== verification/Backstop.v ===== *)
(** * The matcher's backstop maker ([crates/cerdic-tee-matcher/src/backstop.rs])

    The per-market liquidity of last resort, in raw [u64] ticks: a bounded price history, a quote
    around its slow average, a last look against its fast average, and mark-to-market accounting of
    its inventory.  A window of zero makes [trailing_mean] divide by zero, which is a [Panic]. *)
From S2P Require Import Prelude Ints Types Averages.
Open Scope Z_scope.

Definition BACKSTOP_OWNER_ID : Z := u64_max.
Definition MAX_HISTORY : nat := 64.
Definition BPS_DENOMINATOR : Z := 10000.

Inductive SpreadModel :=
| Flat
| Dynamic (max_spread_bps widen_per_unit_utilization_bps inventory_reference : Z).

Record BackstopConfig := {
  spread_bps : Z;
  spread_model : SpreadModel;
  quote_twap_window : nat;
  last_look_window : nat;
  last_look_threshold_bps : Z;
  notional_cap : Z;
}.

Definition config_default : BackstopConfig := {|
  spread_bps := 8; spread_model := Flat; quote_twap_window := 20; last_look_window := 3;
  last_look_threshold_bps := 15; notional_cap := u64_max |}.

Record BackstopState := { history : list Z; inventory : Z; cumulative_pnl : Z }.

Definition state_default : BackstopState :=
  {| history := []; inventory := 0; cumulative_pnl := 0 |}.

(** ** Operations *)

Definition mark_pnl_to (s : BackstopState) (from_price to_price : Z) : BackstopState :=
  if decide (inventory s = 0) then s
  else
    let price_delta := i128_sub to_price from_price in
    {| history := history s; inventory := inventory s;
       cumulative_pnl :=
         sat_s 128 (cumulative_pnl s + sat_s 128 (price_delta * inventory s)) |}.

Definition record_price (s : BackstopState) (price : Z) : BackstopState :=
  let s := match last (history s) with
           | Some previous_last => mark_pnl_to s previous_last price
           | None => s
           end in
  let h := history s ++ [price] in
  {| history := if decide (MAX_HISTORY < length h)%nat then tail h else h;
     inventory := inventory s; cumulative_pnl := cumulative_pnl s |}.

Definition trailing_mean (s : BackstopState) (window : nat) : exec (option Z) :=
  match history s with
  | [] => Ret None
  | _ =>
      let prints := last_prints (history s) window in
      let count := Z.of_nat (length prints) in
      let sum := foldl u128_add 0 prints in
      if decide (count = 0) then Panic else Ret (Some (as_u64 (sum / count)))
  end.

Definition effective_spread_bps (s : BackstopState) (cfg : BackstopConfig) : Z :=
  match spread_model cfg with
  | Flat => spread_bps cfg
  | Dynamic max_spread_bps widen inventory_reference =>
      if decide (inventory_reference = 0) then max_spread_bps
      else
        let utilization_bps :=
          as_u64 (Z.min (u128_mul (Z.abs (inventory s)) BPS_DENOMINATOR / inventory_reference)
                        BPS_DENOMINATOR) in
        let extra := as_u64 (u128_mul widen utilization_bps / BPS_DENOMINATOR) in
        Z.min (u64_add (spread_bps cfg) extra) max_spread_bps
  end.

Definition reference_price (s : BackstopState) (cfg : BackstopConfig) : exec (option Z) :=
  trailing_mean s (quote_twap_window cfg).

Definition quote (s : BackstopState) (cfg : BackstopConfig) (side : Side) : exec (option Z) :=
  center ← trailing_mean s (quote_twap_window cfg);
  match center with
  | None => Ret None
  | Some center =>
      let half_spread := as_u64 (u128_mul center (effective_spread_bps s cfg) / BPS_DENOMINATOR) in
      Ret (Some (match side with
                 | Long => sat_u 64 (center + half_spread)
                 | Short => sat_u 64 (center - half_spread)
                 end))
  end.

(** The last look: the live print against the fast average, then the size cap. *)
Definition quote_and_check (s : BackstopState) (cfg : BackstopConfig) (side : Side)
    (requested_qty : Z) : exec (option (Z * Z)) :=
  q ← quote s cfg side;
  match q, last (history s) with
  | Some price, Some live_print =>
      r ← trailing_mean s (last_look_window cfg);
      match r with
      | None => Ret None
      | Some reference =>
          if decide (reference = 0) then Ret None
          else
            let deviation_bps :=
              as_u64 (u128_mul (abs_diff live_print reference) BPS_DENOMINATOR / reference) in
            if decide (last_look_threshold_bps cfg < deviation_bps) then Ret None
            else
              let qty := Z.min requested_qty (notional_cap cfg) in
              if decide (qty = 0) then Ret None else Ret (Some (price, qty))
      end
  | _, _ => Ret None
  end.

Definition commit_fill (s : BackstopState) (side : Side) (qty : Z) : BackstopState :=
  {| history := history s;
     inventory := match side with
                  | Long => sat_s 64 (inventory s - as_i64 qty)
                  | Short => sat_s 64 (inventory s + as_i64 qty)
                  end;
     cumulative_pnl := cumulative_pnl s |}.

Definition try_fill (s : BackstopState) (cfg : BackstopConfig) (side : Side) (requested_qty : Z) :
    exec (BackstopState * option (Z * Z)) :=
  r ← quote_and_check s cfg side requested_qty;
  match r with
  | None => Ret (s, None)
  | Some (price, qty) => Ret (commit_fill s side qty, Some (price, qty))
  end.

Definition breakeven_subsidy_needed (s : BackstopState) : Z :=
  if decide (0 ≤ cumulative_pnl s) then 0 else Z.abs (cumulative_pnl s).

(** ** Specification *)

Definition state_ok (s : BackstopState) : Prop :=
  Forall (in_u 64) (history s) ∧ (length (history s) ≤ MAX_HISTORY)%nat ∧ in_s 64 (inventory s).
Definition config_ok (cfg : BackstopConfig) : Prop :=
  in_u 64 (spread_bps cfg) ∧ in_u 64 (notional_cap cfg) ∧
  (0 < quote_twap_window cfg)%nat ∧ (0 < last_look_window cfg)%nat ∧
  match spread_model cfg with
  | Flat => spread_bps cfg ≤ BPS_DENOMINATOR
  | Dynamic mx widen ref =>
      0 ≤ mx ≤ BPS_DENOMINATOR ∧ in_u 64 widen ∧ in_u 64 ref ∧ spread_bps cfg + widen < 2 ^ 64
  end.

Definition spread_spec (s : BackstopState) (cfg : BackstopConfig) : Z :=
  match spread_model cfg with
  | Flat => spread_bps cfg
  | Dynamic mx widen ref =>
      if decide (ref = 0) then mx
      else Z.min (spread_bps cfg
                  + widen * Z.min (Z.abs (inventory s) * BPS_DENOMINATOR / ref) BPS_DENOMINATOR
                      / BPS_DENOMINATOR) mx
  end.
Definition center_spec (s : BackstopState) (cfg : BackstopConfig) : Z :=
  mean_spec (last_prints (history s) (quote_twap_window cfg)).
Definition reference_spec (s : BackstopState) (cfg : BackstopConfig) : Z :=
  mean_spec (last_prints (history s) (last_look_window cfg)).
Definition half_spread_spec (s : BackstopState) (cfg : BackstopConfig) : Z :=
  center_spec s cfg * spread_spec s cfg / BPS_DENOMINATOR.
(** The maker sells to a taker who goes long, and buys from one who goes short. *)
Definition maker_delta (side : Side) (qty : Z) : Z :=
  match side with Long => - qty | Short => qty end.

(** States of one market's maker, with the prints it saw, the quantity it traded, and the value
    of its position changes at the print current when each was taken. *)
Inductive reachable (cfg : BackstopConfig) : BackstopState → list Z → Z → Z → Prop :=
| reach_default : reachable cfg state_default [] 0 0
| reach_price s prints traded basis p :
    reachable cfg s prints traded basis → in_u 64 p →
    reachable cfg (record_price s p) (prints ++ [p]) traded basis
| reach_fill s prints traded basis side q s' price qty :
    reachable cfg s prints traded basis → in_u 64 q →
    try_fill s cfg side q = Ret (s', Some (price, qty)) →
    reachable cfg s' prints (traded + qty)
      (basis + maker_delta side qty * default 0 (last prints)).

Definition demo_prints : list Z := [100000; 100010; 100020; 100030].
Definition demo_state : BackstopState := foldl record_price state_default demo_prints.

(** ** Lemmas *)

Lemma u128_sum a l :
  0 ≤ a → Forall (λ x, 0 ≤ x) l → a + sumZ l < 2 ^ 128 → foldl u128_add a l = a + sumZ l.
Proof.
  intros Ha Hf. revert a Ha. induction Hf as [|x l Hx Hf IH]; intros a Ha Hb; [cbn; lia|].
  pose proof (sumZ_nonneg l Hf). rewrite sumZ_cons in *. cbn [foldl]. unfold u128_add at 2.
  rewrite wrapu_small by int_range. rewrite IH; lia.
Qed.

Lemma window_ok s w :
  state_ok s → history s ≠ [] → (0 < w)%nat →
  last_prints (history s) w ≠ [] ∧ Forall (in_u 64) (last_prints (history s) w) ∧
  Z.of_nat (length (last_prints (history s) w)) ≤ 64.
Proof.
  intros (Hf & Hl & _) Hn Hw. split_and!.
  - by apply last_prints_nonempty.
  - by apply last_prints_Forall.
  - rewrite last_prints_length. unfold MAX_HISTORY in Hl. lia.
Qed.

Lemma trailing_mean_Ret s w :
  state_ok s → history s ≠ [] → (0 < w)%nat →
  trailing_mean s w = Ret (Some (mean_spec (last_prints (history s) w))) ∧
  in_u 64 (mean_spec (last_prints (history s) w)).
Proof.
  intros Hs Hn Hw. destruct (window_ok s w Hs Hn Hw) as (Hn' & Hf & Hlen).
  pose proof (mean_in_u 64 _ Hn' Hf) as Hm. split; [|done].
  unfold trailing_mean. destruct (history s) as [|x h] eqn:E; [done|]. rewrite <- E in *.
  pose proof (sum_bound (2 ^ 64) _ Hf) as Hb.
  assert (0 < Z.of_nat (length (last_prints (history s) w)))
    by (destruct (last_prints (history s) w); [done|cbn; lia]).
  rewrite decide_False by lia. rewrite u128_sum; [|lia|eapply Forall_impl; [exact Hf|unfold in_u; cbn; lia]|nia].
  rewrite Z.add_0_l. fold (mean_spec (last_prints (history s) w)). unfold as_u64.
  by rewrite wrapu_small.
Qed.

Lemma effective_spread_exact s cfg :
  state_ok s → config_ok cfg →
  effective_spread_bps s cfg = spread_spec s cfg ∧ 0 ≤ spread_spec s cfg ≤ BPS_DENOMINATOR.
Proof.
  intros (_ & _ & Hi) (Hs & _ & _ & _ & Hm). unfold effective_spread_bps, spread_spec.
  destruct (spread_model cfg) as [|mx widen ref]; [split; [done|int_range]|].
  destruct Hm as (Hmx & Hw & Hr & Hsum). case_decide; [done|]. unfold BPS_DENOMINATOR in *.
  assert (0 ≤ Z.abs (inventory s) * 10000 / ref) by (apply div_nonneg; int_range).
  unfold u128_mul. rewrite (wrapu_small 128 (Z.abs (inventory s) * 10000)) by int_range.
  set (u := Z.min (Z.abs (inventory s) * 10000 / ref) 10000) in *.
  assert (0 ≤ u ≤ 10000) by (unfold u; lia).
  unfold as_u64. rewrite (wrapu_small 64 u) by int_range.
  assert (0 ≤ widen * u ≤ widen * 10000) by (unfold in_u in Hw; nia).
  rewrite (wrapu_small 128 (widen * u)) by int_range.
  assert (0 ≤ widen * u / 10000 ≤ widen) by
    (split; [apply div_nonneg|apply Z.div_le_upper_bound]; lia).
  rewrite (wrapu_small 64 (widen * u / 10000)) by int_range. unfold u64_add.
  rewrite wrapu_small by int_range. split; [done|int_range].
Qed.

Lemma quote_Ret s cfg side :
  state_ok s → config_ok cfg → history s ≠ [] →
  let c := center_spec s cfg in let h := half_spread_spec s cfg in
  0 ≤ h ≤ c ∧ in_u 64 c ∧
  quote s cfg side = Ret (Some (match side with Long => Z.min (c + h) u64_max | Short => c - h end)).
Proof.
  intros Hs Hc Hn c h. destruct (effective_spread_exact s cfg Hs Hc) as [Hes Her].
  destruct Hc as (_ & _ & Hw & _ & _).
  destruct (trailing_mean_Ret s (quote_twap_window cfg) Hs Hn Hw) as [Hm Hr].
  fold (center_spec s cfg) in Hm, Hr. fold c in Hm, Hr. unfold BPS_DENOMINATOR in *.
  assert (0 ≤ h ≤ c) as Hh.
  { unfold h, half_spread_spec, BPS_DENOMINATOR. fold c.
    split; [apply div_nonneg|apply Z.div_le_upper_bound]; unfold in_u in *; nia. }
  split; [done|]. split; [done|]. unfold quote. rewrite Hm. rewrite ret_bind. rewrite Hes.
  unfold u128_mul. rewrite (wrapu_small 128 (c * spread_spec s cfg)) by (unfold in_u in *; nia).
  fold (half_spread_spec s cfg). change (c * spread_spec s cfg / BPS_DENOMINATOR) with h.
  unfold as_u64. rewrite wrapu_small by int_range. unfold sat_u, u64_max.
  do 2 f_equal. unfold in_u in *. destruct side; lia.
Qed.

(** The last look's ratio never reaches the width of the cast: the window holds the live print. *)
Lemma deviation_small s w live :
  state_ok s → (0 < w)%nat → last (history s) = Some live →
  let ref := mean_spec (last_prints (history s) w) in
  ref ≠ 0 → 0 ≤ abs_diff live ref * BPS_DENOMINATOR / ref < 2 ^ 64.
Proof.
  intros Hs Hw Hlive ref Hz.
  assert (history s ≠ []) as Hn by (intros E; by rewrite E in Hlive).
  destruct (window_ok s w Hs Hn Hw) as (Hn' & Hf & Hlen).
  pose proof (mean_in_u 64 _ Hn' Hf) as Hr. fold ref in Hr.
  pose proof (last_le_mean (last_prints (history s) w) live
    ltac:(eapply Forall_impl; [exact Hf|unfold in_u; cbn; lia])
    ltac:(by rewrite last_last_prints)) as Hl. fold ref in Hl.
  assert (0 ≤ live).
  { destruct Hs as (Hfs & _). apply last_Some in Hlive as [l' E]. rewrite E in Hfs.
    apply Forall_app in Hfs as [_ [[? _] _]%Forall_cons]. done. }
  unfold abs_diff, BPS_DENOMINATOR, in_u in *. split; [apply div_nonneg; lia|].
  apply Z.div_lt_upper_bound; nia.
Qed.

Lemma quote_and_check_Ret s cfg side q live :
  state_ok s → config_ok cfg → last (history s) = Some live →
  let ref := reference_spec s cfg in
  let price := match side with
               | Long => Z.min (center_spec s cfg + half_spread_spec s cfg) u64_max
               | Short => center_spec s cfg - half_spread_spec s cfg
               end in
  quote_and_check s cfg side q =
    Ret (if decide (ref ≠ 0 ∧
                    abs_diff live ref * BPS_DENOMINATOR / ref ≤ last_look_threshold_bps cfg ∧
                    Z.min q (notional_cap cfg) ≠ 0)
         then Some (price, Z.min q (notional_cap cfg)) else None).
Proof.
  intros Hs Hc Hlive ref price.
  assert (history s ≠ []) as Hn by (intros E; by rewrite E in Hlive).
  destruct (quote_Ret s cfg side Hs Hc Hn) as (_ & _ & Hq).
  destruct Hc as (_ & _ & _ & Hw & _).
  destruct (trailing_mean_Ret s (last_look_window cfg) Hs Hn Hw) as [Hm Hr].
  pose proof (deviation_small s (last_look_window cfg) live Hs Hw Hlive) as Hd.
  change (mean_spec (last_prints (history s) (last_look_window cfg))) with ref in *.
  unfold quote_and_check. rewrite Hq, ret_bind, Hlive, Hm, ret_bind. fold price.
  destruct (decide (ref = 0)); [by rewrite decide_False by tauto|]. specialize (Hd n).
  assert (0 ≤ live < 2 ^ 64).
  { destruct Hs as (Hfs & _). apply last_Some in Hlive as [l' E]. rewrite E in Hfs.
    by apply Forall_app in Hfs as [_ [? _]%Forall_cons]. }
  unfold u128_mul. rewrite wrapu_small by (unfold abs_diff, BPS_DENOMINATOR, in_u in *; lia).
  unfold as_u64. rewrite wrapu_small by done. case_decide; [by rewrite decide_False by lia|].
  case_decide; [by rewrite decide_False by tauto|]. rewrite decide_True by (split_and!; [done|lia|done]).
  done.
Qed.

Lemma try_fill_inv s cfg side q s' price qty :
  try_fill s cfg side q = Ret (s', Some (price, qty)) →
  s' = commit_fill s side qty ∧ qty = Z.min q (notional_cap cfg) ∧ qty ≠ 0 ∧ history s ≠ [] ∧
  quote s cfg side = Ret (Some price).
Proof.
  unfold try_fill, quote_and_check. intros ([[p k]|] & Hc & Ht)%bind_Ret; [|done].
  simplify_eq/=. apply bind_Ret in Hc as ([pr|] & Hq & Hc); [|done].
  destruct (last (history s)) as [live|] eqn:Hl; [|done].
  apply bind_Ret in Hc as ([ref|] & _ & Hc); [|done].
  repeat (case_decide; [done|]). simplify_eq/=. split_and!; try done.
  by intros E; rewrite E in Hl.
Qed.

(** A print marks the inventory from the previous one. *)
Lemma record_price_exact s p prev :
  last (history s) = Some prev → in_u 64 prev → in_u 64 p → Z.abs (inventory s) < 2 ^ 63 →
  Z.abs (cumulative_pnl s) + Z.abs ((p - prev) * inventory s) < 2 ^ 127 →
  inventory (record_price s p) = inventory s ∧
  cumulative_pnl (record_price s p) = cumulative_pnl s + (p - prev) * inventory s.
Proof.
  intros Hl Hp Hq Hi Hb. unfold record_price. rewrite Hl. cbn [inventory cumulative_pnl].
  unfold mark_pnl_to. case_decide as Hz; [rewrite Hz; lia|]. cbn [inventory cumulative_pnl].
  unfold i128_sub. rewrite wraps_small by int_range. split; [done|]. unfold sat_s. lia.
Qed.

Lemma record_price_history s p :
  history (record_price s p) =
    if decide (MAX_HISTORY < length (history s ++ [p]))%nat then tail (history s ++ [p])
    else history s ++ [p].
Proof. unfold record_price, mark_pnl_to. repeat case_match; done. Qed.

Record accounted (s : BackstopState) (prints : list Z) (traded basis : Z) : Prop := {
  acc_prints : Forall (in_u 64) prints;
  acc_history : history s = last_prints prints MAX_HISTORY;
  acc_traded : 0 ≤ traded;
  acc_inventory : Z.abs (inventory s) ≤ traded;
  acc_none : prints = [] → traded = 0;
  acc_pnl : cumulative_pnl s = inventory s * default 0 (last prints) - basis;
  acc_bound : Z.abs (cumulative_pnl s) ≤ Z.of_nat (length prints) * (traded * 2 ^ 64);
}.

Lemma last_in_u prints (x : Z) : Forall (in_u 64) prints → last prints = Some x → in_u 64 x.
Proof. intros Hf [l ->]%last_Some. by apply Forall_app in Hf as [_ [? _]%Forall_cons]. Qed.

Lemma accounted_price s prints traded basis p :
  accounted s prints traded basis → in_u 64 p → traded * Z.of_nat (length (prints ++ [p])) < 2 ^ 63 →
  accounted (record_price s p) (prints ++ [p]) traded basis.
Proof.
  intros [Hf Hh Ht Hi Hn Hp Hb] Hpr Hbound. rewrite length_app in Hbound. cbn in Hbound.
  assert (Forall (in_u 64) (prints ++ [p])) as Hf' by (apply Forall_app_2; auto).
  assert (history (record_price s p) = last_prints (prints ++ [p]) MAX_HISTORY) as Hh'.
  { rewrite record_price_history, Hh. unfold MAX_HISTORY. by rewrite last_prints_snoc by lia. }
  assert (last (history s) = last prints) as Hlast
    by (rewrite Hh; apply last_last_prints; unfold MAX_HISTORY; lia).
  destruct (last prints) as [prev|] eqn:Hl; cbn [default from_option id] in Hp.
  - pose proof (last_in_u _ _ Hf Hl) as Hprev.
    assert (prints ≠ []) as Hne by (intros ->; done).
    assert (1 ≤ Z.of_nat (length prints)) by (destruct prints; [done|cbn; lia]).
    assert (Z.abs ((p - prev) * inventory s) ≤ traded * 2 ^ 64).
    { rewrite Z.abs_mul. unfold in_u in *. transitivity (2 ^ 64 * traded); [|lia].
      apply Z.mul_le_mono_nonneg; lia. }
    destruct (record_price_exact s p prev) as [Hi' Hp']; [done|done|done|nia|nia|].
    split; [done|done|done|by rewrite Hi'|by intros [_ ?]%app_eq_nil| |].
    + rewrite Hp', Hi', Hp, last_snoc. cbn. lia.
    + rewrite Hp', length_app. cbn. lia.
  - apply last_None in Hl as ->. specialize (Hn eq_refl) as ->.
    assert (inventory s = 0) as Hz by lia.
    assert (record_price s p = {| history := history (record_price s p); inventory := inventory s;
                                  cumulative_pnl := cumulative_pnl s |}) as E.
    { unfold record_price at 1. rewrite Hlast. rewrite record_price_history. done. }
    split; [done|done|done|rewrite E; cbn; lia|by intros [_ ?]%app_eq_nil| |];
      rewrite E; cbn [inventory cumulative_pnl]; [rewrite Hz in *; lia|cbn in Hb |- *; lia].
Qed.

Lemma accounted_fill s prints traded basis side qty :
  accounted s prints traded basis → prints ≠ [] → 0 < qty →
  (traded + qty) * Z.of_nat (length prints) < 2 ^ 63 →
  accounted (commit_fill s side qty) prints (traded + qty)
    (basis + maker_delta side qty * default 0 (last prints)).
Proof.
  intros [Hf Hh Ht Hi Hn Hp Hb] Hne Hq Hbound.
  assert (1 ≤ Z.of_nat (length prints)) by (destruct prints; [done|cbn; lia]).
  assert (traded + qty < 2 ^ 63) by nia.
  assert (inventory (commit_fill s side qty) = inventory s + maker_delta side qty) as Hinv.
  { unfold commit_fill, as_i64, sat_s. cbn [inventory]. rewrite wraps_small by int_range.
    destruct side; cbn [maker_delta]; lia. }
  split; [done|done|lia| |done| |].
  - rewrite Hinv. destruct side; cbn [maker_delta]; lia.
  - rewrite Hinv. cbn [commit_fill cumulative_pnl]. rewrite Hp. lia.
  - cbn [commit_fill cumulative_pnl]. nia.
Qed.

Lemma reachable_accounted cfg s prints traded basis :
  config_ok cfg → reachable cfg s prints traded basis →
  traded * Z.of_nat (length prints) < 2 ^ 63 → accounted s prints traded basis.
Proof.
  intros Hc. induction 1 as [|s prints traded basis p Hr IH Hp|s prints traded basis side q s' price qty Hr IH Hq Ht];
    intros Hb.
  - by split.
  - apply accounted_price; [|done|done]. apply IH. rewrite length_app in Hb. cbn in Hb.
    destruct (decide (0 ≤ traded)); nia.
  - apply try_fill_inv in Ht as (-> & Hqty & Hnz & Hne & _).
    destruct Hc as (_ & Hcap & _). assert (0 < qty) by int_range.
    assert (accounted s prints traded basis) as Ha by (apply IH; nia).
    apply accounted_fill; [done| |lia|done].
    intros ->. apply Hne. rewrite (acc_history _ _ _ _ Ha). done.
Qed.

Lemma accounted_state_ok s prints traded basis :
  accounted s prints traded basis → traded < 2 ^ 63 → state_ok s.
Proof.
  intros [Hf Hh Ht Hi _ _ _] Hb. split_and!.
  - rewrite Hh. by apply last_prints_Forall.
  - rewrite Hh, last_prints_length. lia.
  - int_range.
Qed.

Lemma backstop_demo_reachable : reachable config_default demo_state demo_prints 0 0.
Proof.
  unfold demo_state, demo_prints. change [100000; 100010; 100020; 100030]
    with (((([] ++ [100000]) ++ [100010]) ++ [100020]) ++ [100030]).
  do 4 (apply reach_price; [|by vm_compute]). apply reach_default.
Qed.

(** ** Properties *)

(** When the backstop fills.  In any state whose history and inventory are in range, under a
    configuration with positive windows and a spread of at most 100 percent, [try_fill] does not
    abort; it fills exactly when there is a print, the fast average is nonzero, the live print is
    within the threshold of it (the cast of the ratio to [u64] loses nothing) and the capped size is
    nonzero; the price is the slow average plus or minus the half spread, the position moves by the
    size against the taker, nothing else changes, and a refusal changes nothing. *)
Theorem try_fill_exact s cfg side q :
  state_ok s → config_ok cfg → in_u 63 q →
  let c := center_spec s cfg in
  let h := half_spread_spec s cfg in
  let ref := reference_spec s cfg in
  let price := match side with Long => Z.min (c + h) u64_max | Short => c - h end in
  let qty := Z.min q (notional_cap cfg) in
  0 ≤ h ∧ (history s ≠ [] → h ≤ c) ∧
  try_fill s cfg side q =
    Ret (match last (history s) with
         | Some live =>
             if decide (ref ≠ 0 ∧
                        abs_diff live ref * BPS_DENOMINATOR / ref ≤ last_look_threshold_bps cfg ∧
                        qty ≠ 0)
             then ({| history := history s;
                      inventory := sat_s 64 (inventory s + maker_delta side qty);
                      cumulative_pnl := cumulative_pnl s |}, Some (price, qty))
             else (s, None)
         | None => (s, None)
         end).
Proof.
  intros Hs Hc Hq c h ref price qty.
  destruct (last (history s)) as [live|] eqn:Hl; cycle 1.
  { apply last_None in Hl. split_and!.
    - unfold h, half_spread_spec, center_spec. by rewrite Hl.
    - by rewrite Hl.
    - unfold try_fill, quote_and_check, quote, trailing_mean. by rewrite Hl. }
  assert (history s ≠ []) as Hn by (intros E; by rewrite E in Hl).
  destruct (quote_Ret s cfg side Hs Hc Hn) as (Hh & _ & _). fold c h in Hh.
  split; [lia|]. split; [lia|].
  unfold try_fill. rewrite (quote_and_check_Ret s cfg side q live Hs Hc Hl), ret_bind.
  fold ref qty c h price. case_decide; [|done]. do 2 f_equal. unfold commit_fill. f_equal.
  assert (in_s 64 qty).
  { destruct Hc as (_ & Hcap & _). unfold qty. int_range. }
  unfold as_i64. rewrite wraps_small by (done || lia). destruct side; cbn [maker_delta]; f_equal; lia.
Qed.

Lemma try_fill_exact_witness :
  ∃ s', try_fill demo_state config_default Long 5 = Ret (s', Some (100095, 5)) ∧ inventory s' = -5.
Proof.
  assert (config_ok config_default) as Hc by (split_and!; vm_compute; (done || lia)).
  assert (state_ok demo_state) as Hs.
  { split_and!; [|vm_compute; lia|by vm_compute].
    repeat (apply Forall_cons; split; [by vm_compute|]); constructor. }
  destruct (try_fill_exact demo_state config_default Long 5 Hs Hc ltac:(by vm_compute)) as (_ & _ & H).
  eexists. split; [refine (eq_trans H _); vm_compute; reflexivity|by vm_compute].
Defined.

(** Mark-to-market accounting over a whole run.  After any sequence of prints and fills whose
    traded quantity times number of prints stays below [2^63], the history is the last 64 prints,
    the inventory is bounded by what was traded, no saturation ever applied, and the cumulative
    result telescopes: it is the inventory at the latest print less the value of each position
    change at the print current when it was taken; the subsidy due is exactly the net loss. *)
Theorem backstop_pnl_telescopes cfg s prints traded basis :
  config_ok cfg → reachable cfg s prints traded basis →
  traded * Z.of_nat (length prints) < 2 ^ 63 →
  history s = last_prints prints MAX_HISTORY ∧
  Z.abs (inventory s) ≤ traded ∧
  cumulative_pnl s = inventory s * default 0 (last prints) - basis ∧
  breakeven_subsidy_needed s = Z.max 0 (basis - inventory s * default 0 (last prints)).
Proof.
  intros Hc Hr Hb. destruct (reachable_accounted _ _ _ _ _ Hc Hr Hb) as [_ Hh _ Hi _ Hp _].
  split_and!; [done..|]. unfold breakeven_subsidy_needed. rewrite Hp. case_decide; lia.
Qed.

Lemma backstop_pnl_telescopes_witness :
  ∃ s, cumulative_pnl s = -50 ∧ breakeven_subsidy_needed s = 50.
Proof.
  assert (config_ok config_default) as Hc by (split_and!; vm_compute; (done || lia)).
  assert (reachable config_default (record_price (commit_fill demo_state Long 5) 100040)
            (demo_prints ++ [100040]) (0 + 5)
            (0 + maker_delta Long 5 * default 0 (last demo_prints))) as Hr.
  { apply reach_price; [|by vm_compute].
    apply (reach_fill config_default demo_state demo_prints 0 0 Long 5 (commit_fill demo_state Long 5)
             100095 5); [apply backstop_demo_reachable|by vm_compute|vm_compute; reflexivity]. }
  destruct (backstop_pnl_telescopes _ _ _ _ _ Hc Hr ltac:(by vm_compute)) as (_ & _ & Hp & Hb).
  eexists. split; [refine (eq_trans Hp _)|refine (eq_trans Hb _)]; vm_compute; reflexivity.
Defined.
