(* ===== verification/Fees.v ===== *)
(** * Fee schedule and FX calendar ([crates/cerdic-tee-matcher/src/fees.rs], [market_hours.rs])

    The volume tiers with the taker fee and maker rebate they price, and the weekly FX trading
    calendar.  [fx_market_open_now] only feeds the wall clock to [fx_market_open_at]. *)
From S2P Require Import Prelude Ints.
Open Scope Z_scope.

(** ** Fees *)

Definition BPS_DENOMINATOR : Z := 10000.

(** [(cumulative_volume_threshold, taker_fee_bps, maker_rebate_bps)]. *)
Definition Tier : Type := Z * Z * Z.
Definition FEE_TIERS : list Tier :=
  [(0, 10, 2); (1000000, 8, 3); (10000000, 6, 4); (100000000, 4, 5)].
Definition threshold (t : Tier) : Z := t.1.1.

(** The scan over the tiers, stopping at the first threshold above the volume. *)
Fixpoint tier_scan (prior_volume : Z) (current : Tier) (tiers : list Tier) : Tier :=
  match tiers with
  | [] => current
  | tier :: tiers =>
      if decide (threshold tier ≤ prior_volume) then tier_scan prior_volume tier tiers
      else current
  end.

Definition tier_for_volume (prior_volume : Z) : Z * Z :=
  let current := tier_scan prior_volume (0, 10, 2) FEE_TIERS in (current.1.2, current.2).

Definition taker_fee (notional prior_volume : Z) : Z :=
  let '(taker_bps, _) := tier_for_volume prior_volume in
  u128_mul notional taker_bps / BPS_DENOMINATOR.

Definition maker_rebate (notional prior_volume : Z) : Z :=
  let '(_, maker_bps) := tier_for_volume prior_volume in
  u128_mul notional maker_bps / BPS_DENOMINATOR.

(** ** FX calendar *)

Definition SECONDS_PER_DAY : Z := 86400.
Definition EPOCH_WEEKDAY_OFFSET : Z := 3.
Definition FX_CLOSE_OPEN_UTC_SECONDS : Z := 21 * 3600.

Definition fx_market_open_at (unix_seconds : Z) : bool :=
  let day := unix_seconds / SECONDS_PER_DAY in
  let weekday := u64_add day EPOCH_WEEKDAY_OFFSET mod 7 in
  let seconds_in_day := unix_seconds mod SECONDS_PER_DAY in
  if decide (weekday = 5) then false
  else if decide (weekday = 4) then bool_decide (seconds_in_day < FX_CLOSE_OPEN_UTC_SECONDS)
  else if decide (weekday = 6) then bool_decide (FX_CLOSE_OPEN_UTC_SECONDS ≤ seconds_in_day)
  else true.

(** ** Specification *)

(** The tiers a volume has reached, in order. *)
Definition reached (volume : Z) : list Tier := filter (λ t, threshold t ≤ volume) FEE_TIERS.

Definition SECONDS_PER_WEEK : Z := 604800.
(** Seconds since the last Monday 00:00 UTC. *)
Definition second_of_week (t : Z) : Z := (t + 3 * SECONDS_PER_DAY) mod SECONDS_PER_WEEK.
Definition friday_close : Z := 4 * SECONDS_PER_DAY + FX_CLOSE_OPEN_UTC_SECONDS.
Definition sunday_open : Z := 6 * SECONDS_PER_DAY + FX_CLOSE_OPEN_UTC_SECONDS.

(** ** Lemmas *)

Lemma tier_for_volume_cases v :
  tier_for_volume v =
    if decide (v < 1000000) then (10, 2) else if decide (v < 10000000) then (8, 3)
    else if decide (v < 100000000) then (6, 4) else (4, 5).
Proof.
  unfold tier_for_volume, FEE_TIERS. cbn [tier_scan]. unfold threshold. cbn [fst snd].
  repeat case_decide; (done || lia).
Qed.

Lemma fx_open_spec t :
  in_u 64 t →
  fx_market_open_at t = bool_decide (second_of_week t < friday_close ∨ sunday_open ≤ second_of_week t).
Proof.
  intros Ht. unfold fx_market_open_at, second_of_week, friday_close, sunday_open, u64_add,
    SECONDS_PER_WEEK, FX_CLOSE_OPEN_UTC_SECONDS, SECONDS_PER_DAY, EPOCH_WEEKDAY_OFFSET.
  assert (0 ≤ t / 86400 < 2 ^ 63) as Hd.
  { split; [apply Z.div_pos; int_range|]. apply Z.div_lt_upper_bound; int_range. }
  rewrite wrapu_small by int_range.
  set (d := t / 86400) in *. set (r := t mod 86400).
  pose proof (Z.div_mod t 86400 ltac:(lia)) as Et. fold d r in Et.
  pose proof (Z.mod_pos_bound t 86400 ltac:(lia)) as Hr. fold r in Hr.
  pose proof (Z.div_mod (d + 3) 7 ltac:(lia)) as Ew.
  pose proof (Z.mod_pos_bound (d + 3) 7 ltac:(lia)) as Hw.
  set (w := (d + 3) mod 7) in *.
  assert ((t + 3 * 86400) mod 604800 = w * 86400 + r) as ->.
  { symmetry. apply (Z.mod_unique _ _ ((d + 3) / 7)); lia. }
  repeat case_decide; symmetry; first [apply bool_decide_eq_false; lia
    |apply bool_decide_eq_true; lia|apply bool_decide_ext; lia].
Qed.

(** ** Properties *)

(** The fee schedule.  A volume earns the last tier whose threshold it has reached; more
    volume never raises the taker rate and never lowers the rebate; inside [u128] a fee is the
    floored product, at most 10 basis points of the notional, it grows with the notional, and
    splitting a notional never makes the total fee larger. *)
Theorem fee_schedule_correct volume n :
  in_u 128 volume → 0 ≤ n → n * 10 < 2 ^ 128 →
  (∃ t, last (reached volume) = Some t ∧ tier_for_volume volume = (t.1.2, t.2)) ∧
  (∀ volume', volume ≤ volume' →
     (tier_for_volume volume').1 ≤ (tier_for_volume volume).1 ∧
     (tier_for_volume volume).2 ≤ (tier_for_volume volume').2) ∧
  taker_fee n volume = n * (tier_for_volume volume).1 / BPS_DENOMINATOR ∧
  maker_rebate n volume = n * (tier_for_volume volume).2 / BPS_DENOMINATOR ∧
  0 ≤ taker_fee n volume ≤ n * 10 / BPS_DENOMINATOR ∧
  (∀ a b, 0 ≤ a → 0 ≤ b → a + b = n → taker_fee a volume + taker_fee b volume ≤ taker_fee n volume).
Proof.
  intros Hv Hn Hb.
  assert (4 ≤ (tier_for_volume volume).1 ≤ 10 ∧ 2 ≤ (tier_for_volume volume).2 ≤ 5) as [Ht Hm].
  { rewrite tier_for_volume_cases. repeat case_decide; cbn; lia. }
  assert (∀ m, 0 ≤ m ≤ n → taker_fee m volume = m * (tier_for_volume volume).1 / BPS_DENOMINATOR) as Hf.
  { intros m Hmn. unfold taker_fee. destruct (tier_for_volume volume) as [tb mb]. cbn in *.
    unfold u128_mul. rewrite wrapu_small by (unfold in_u; nia). done. }
  assert (taker_fee n volume = n * (tier_for_volume volume).1 / BPS_DENOMINATOR) as Hfn by (apply Hf; lia).
  split; [|split; [|split; [done|split; [|split]]]].
  - unfold reached, FEE_TIERS, in_u in *. rewrite tier_for_volume_cases.
    rewrite !filter_cons, filter_nil. unfold threshold. cbn [fst snd].
    repeat case_decide; try lia; eexists; done.
  - intros v' Hle. rewrite !tier_for_volume_cases. repeat case_decide; cbn; lia.
  - unfold maker_rebate. destruct (tier_for_volume volume) as [tb mb]. cbn in *.
    unfold u128_mul. rewrite wrapu_small by (unfold in_u; nia). done.
  - rewrite Hfn. unfold BPS_DENOMINATOR. split; [apply Z.div_pos; nia|apply Z.div_le_mono; nia].
  - intros a b Ha Hbb Hab. rewrite Hfn, !Hf by lia. unfold BPS_DENOMINATOR.
    set (k := (tier_for_volume volume).1) in *. rewrite <- Hab.
    pose proof (Z.mul_div_le (a * k) 10000 ltac:(lia)). pose proof (Z.mul_div_le (b * k) 10000 ltac:(lia)).
    apply Z.div_le_lower_bound; lia.
Qed.

Lemma fee_schedule_correct_witness : taker_fee 100000 1000000 = 80 ∧ maker_rebate 100000 1000000 = 30.
Proof.
  destruct (fee_schedule_correct 1000000 100000 ltac:(by vm_compute) ltac:(lia) ltac:(by vm_compute))
    as (_ & _ & Hf & Hm & _).
  split; [refine (eq_trans Hf _)|refine (eq_trans Hm _)]; vm_compute; reflexivity.
Defined.

(** The FX week.  At every [u64] timestamp the market is closed exactly from Friday 21:00 UTC
    to Sunday 21:00 UTC (in seconds since Monday 00:00), the calendar repeats every week, and a
    market found closed is open again within 48 hours. *)
Theorem fx_calendar_correct t :
  0 ≤ t → t + SECONDS_PER_WEEK < 2 ^ 64 →
  (fx_market_open_at t = false ↔ friday_close ≤ second_of_week t < sunday_open) ∧
  fx_market_open_at (t + SECONDS_PER_WEEK) = fx_market_open_at t ∧
  (fx_market_open_at t = false →
     fx_market_open_at (t + (sunday_open - second_of_week t)) = true ∧
     0 < sunday_open - second_of_week t ≤ 48 * 3600).
Proof.
  intros Ht Hb. unfold SECONDS_PER_WEEK in Hb.
  assert (∀ u, 0 ≤ u ≤ 604800 → fx_market_open_at (t + u) =
    bool_decide (second_of_week (t + u) < friday_close ∨ sunday_open ≤ second_of_week (t + u))) as Hs
    by (intros; apply fx_open_spec; int_range).
  pose proof (Hs 0 ltac:(lia)) as H0. rewrite Z.add_0_r in H0.
  assert (fx_market_open_at t = false ↔ friday_close ≤ second_of_week t < sunday_open) as Hc.
  { rewrite H0, bool_decide_eq_false. lia. }
  split; [done|]. split.
  - rewrite Hs by (unfold SECONDS_PER_WEEK; lia). rewrite H0. unfold second_of_week, SECONDS_PER_WEEK.
    replace (t + 604800 + 3 * SECONDS_PER_DAY) with (t + 3 * SECONDS_PER_DAY + 1 * 604800) by lia.
    by rewrite Z.mod_add by lia.
  - intros Hcl%Hc. unfold sunday_open, friday_close, SECONDS_PER_DAY, FX_CLOSE_OPEN_UTC_SECONDS in *.
    split; [|lia]. rewrite Hs by lia. apply bool_decide_eq_true. right.
    unfold second_of_week in *. unfold SECONDS_PER_WEEK, SECONDS_PER_DAY in *.
    pose proof (Z.div_mod (t + 3 * 86400) 604800 ltac:(lia)) as E.
    set (s := (t + 3 * 86400) mod 604800) in *.
    replace (t + (6 * 86400 + 21 * 3600 - s) + 3 * 86400)
      with ((6 * 86400 + 21 * 3600) + (t + 3 * 86400) / 604800 * 604800) by lia.
    rewrite Z.mod_add by lia. rewrite Z.mod_small by lia. lia.
Qed.

Lemma fx_calendar_correct_witness :
  fx_market_open_at (86400 + 21 * 3600) = false ∧ fx_market_open_at (86400 + 21 * 3600 + 48 * 3600) = true.
Proof.
  destruct (fx_calendar_correct (86400 + 21 * 3600) ltac:(lia) ltac:(by vm_compute)) as (Hc & _ & Ho).
  assert (fx_market_open_at (86400 + 21 * 3600) = false) as Hcl by (apply Hc; vm_compute; split; congruence).
  split; [exact Hcl|]. refine (eq_trans _ (proj1 (Ho Hcl))). vm_compute. reflexivity.
Defined.
