(* ===== verification/MarketData.v ===== *)
(** * Public market data ([crates/cerdic-tee-matcher/src/market_data.rs])

    The rolling trade tape of one market: recording with pruning, the 24-hour snapshot, OHLCV
    candles and the recent prints. *)
From S2P Require Import Prelude Ints Averages.
Open Scope Z_scope.

Definition WINDOW_SECONDS : Z := 14 * 24 * 60 * 60.

Record TradeRecord := { timestamp : Z; price : Z; qty : Z }.

(** The tape, oldest trade first. *)
Record TradeTape := { trades : list TradeRecord }.

Record MarketSnapshot := {
  last_price : option Z;
  last_trade_at : option Z;
  change_24h_bps : option Z;
  volume_24h : Z;
  high_24h : option Z;
  low_24h : option Z;
}.

Record Candle := {
  open_time : Z;
  c_open : Z;
  high : Z;
  low : Z;
  close : Z;
  volume : Z;
}.

Definition tape_default : TradeTape := {| trades := [] |}.

(** ** Operations *)

Fixpoint prune_loop (cutoff : Z) (l : list TradeRecord) : list TradeRecord :=
  match l with
  | t :: l' => if decide (timestamp t < cutoff) then prune_loop cutoff l' else l
  | [] => []
  end.

Definition prune (tape : TradeTape) (now : Z) : TradeTape :=
  {| trades := prune_loop (sat_u 64 (now - WINDOW_SECONDS)) (trades tape) |}.

Definition record (tape : TradeTape) (ts p q : Z) : TradeTape :=
  prune {| trades := trades tape ++ [{| timestamp := ts; price := p; qty := q |}] |} ts.

(** [Iterator::max] and [min]. *)
Definition iter_max (l : list Z) : option Z :=
  match l with [] => None | x :: l => Some (foldl Z.max x l) end.
Definition iter_min (l : list Z) : option Z :=
  match l with [] => None | x :: l => Some (foldl Z.min x l) end.

(** The change in basis points; [i128] division truncates towards zero. *)
Definition change_bps (f l : TradeRecord) : option Z :=
  if decide (0 < price f ∧ timestamp f ≠ timestamp l)
  then Some (as_i64 (Z.quot (i128_mul (i128_sub (price l) (price f)) 10000) (price f)))
  else None.

Definition snapshot (tape : TradeTape) : MarketSnapshot :=
  let lst := last (trades tape) in
  let window_start := default 0 ((λ l, sat_u 64 (timestamp l - 24 * 60 * 60)) <$> lst) in
  let window := filter (λ t, window_start ≤ timestamp t) (trades tape) in
  {| last_price := price <$> lst;
     last_trade_at := timestamp <$> lst;
     change_24h_bps := match head window, lst with
                       | Some f, Some l => change_bps f l
                       | _, _ => None
                       end;
     volume_24h := foldl u64_add 0 (qty <$> window);
     high_24h := iter_max (price <$> window);
     low_24h := iter_min (price <$> window) |}.

Definition bucket_start (interval_secs : Z) (t : TradeRecord) : Z :=
  u64_mul (timestamp t / interval_secs) interval_secs.

Definition new_candle (interval_secs : Z) (t : TradeRecord) : Candle :=
  {| open_time := bucket_start interval_secs t; c_open := price t; high := price t; low := price t;
     close := price t; volume := qty t |}.

Definition update_candle (c : Candle) (t : TradeRecord) : Candle :=
  {| open_time := open_time c; c_open := c_open c; high := Z.max (high c) (price t);
     low := Z.min (low c) (price t); close := price t; volume := u64_add (volume c) (qty t) |}.

Definition candle_step (interval_secs : Z) (candles : list Candle) (t : TradeRecord) : list Candle :=
  match last candles with
  | Some c =>
      if decide (open_time c = bucket_start interval_secs t)
      then removelast candles ++ [update_candle c t]
      else candles ++ [new_candle interval_secs t]
  | None => candles ++ [new_candle interval_secs t]
  end.

Definition candles (tape : TradeTape) (interval_secs : Z) (limit : nat) : list Candle :=
  if decide (interval_secs = 0 ∨ trades tape = []) then []
  else last_prints (foldl (candle_step interval_secs) [] (trades tape)) limit.

Definition recent (tape : TradeTape) (limit : nat) : list TradeRecord :=
  take limit (rev (trades tape)).

(** ** Specification *)

#[export] Instance TradeRecord_eq_dec : EqDecision TradeRecord.
Proof. solve_decision. Defined.

Definition in_order : list TradeRecord → Prop := StronglySorted (λ a b, timestamp a ≤ timestamp b).
Definition trade_ok (t : TradeRecord) : Prop :=
  in_u 64 (timestamp t) ∧ in_u 64 (price t) ∧ in_u 64 (qty t).

(** A tape fed a sequence of trades. *)
Definition record_all (l : list TradeRecord) : TradeTape :=
  foldl (λ tape t, record tape (timestamp t) (price t) (qty t)) tape_default l.

(** The trades not older than [secs] before the last one. *)
Definition within (secs : Z) (l : list TradeRecord) : list TradeRecord :=
  match last l with
  | Some t => filter (λ u, timestamp t - secs ≤ timestamp u) l
  | None => []
  end.

Definition extremum (R : Z → Z → Prop) (x : Z) (l : list Z) : Prop := x ∈ l ∧ Forall (R x) l.

(** A candle summarises the trades of its bucket. *)
Record candle_of (interval : Z) (q : list TradeRecord) (c : Candle) : Prop := {
  co_open : price <$> head (filter (λ t, bucket_start interval t = open_time c) q) = Some (c_open c);
  co_close : price <$> last (filter (λ t, bucket_start interval t = open_time c) q) = Some (close c);
  co_high : extremum Z.ge (high c) (price <$> filter (λ t, bucket_start interval t = open_time c) q);
  co_low : extremum Z.le (low c) (price <$> filter (λ t, bucket_start interval t = open_time c) q);
  co_volume : volume c =
    wrapu 64 (sumZ (qty <$> filter (λ t, bucket_start interval t = open_time c) q));
}.

(** What the snapshot reports of a trade history. *)
Record snapshot_of (l : list TradeRecord) (s : MarketSnapshot) : Prop := {
  so_price : last_price s = price <$> last l;
  so_at : last_trade_at s = timestamp <$> last l;
  so_volume : volume_24h s = wrapu 64 (sumZ (qty <$> within 86400 l));
  so_none : l = [] → high_24h s = None ∧ low_24h s = None ∧ change_24h_bps s = None;
  so_high : l ≠ [] → ∃ x, high_24h s = Some x ∧ extremum Z.ge x (price <$> within 86400 l);
  so_low : l ≠ [] → ∃ x, low_24h s = Some x ∧ extremum Z.le x (price <$> within 86400 l);
  so_change : ∀ f t, head (within 86400 l) = Some f → last l = Some t →
    change_24h_bps s =
      if decide (0 < price f ∧ timestamp f ≠ timestamp t)
      then Some (as_i64 (Z.quot ((price t - price f) * 10000) (price f))) else None;
}.

Definition demo_trades : list TradeRecord :=
  [{| timestamp := 1000; price := 100; qty := 2 |}; {| timestamp := 1010; price := 110; qty := 3 |};
   {| timestamp := 1300000; price := 90; qty := 1 |};
   {| timestamp := 1300030; price := 99; qty := 4 |}].

(** ** Lemmas *)

Lemma in_order_app l1 l2 :
  in_order (l1 ++ l2) ↔
    in_order l1 ∧ in_order l2 ∧ ∀ a b, a ∈ l1 → b ∈ l2 → timestamp a ≤ timestamp b.
Proof. unfold in_order. rewrite StronglySorted_app. naive_solver. Qed.

Lemma in_order_snoc l t :
  in_order (l ++ [t]) ↔ in_order l ∧ ∀ a, a ∈ l → timestamp a ≤ timestamp t.
Proof.
  rewrite in_order_app. split.
  - intros (? & _ & H). split; [done|]. intros a Ha. apply H; [done|by left].
  - intros [? H]. split_and!; [done|repeat constructor|].
    intros a b Ha ->%list_elem_of_singleton. by apply H.
Qed.

Lemma prune_loop_filter cutoff l :
  in_order l → prune_loop cutoff l = filter (λ t, cutoff ≤ timestamp t) l.
Proof.
  induction 1 as [|t l Hl IH Ht]; [done|]. cbn [prune_loop]. rewrite filter_cons.
  case_decide as Hc.
  - rewrite decide_False by lia. done.
  - rewrite decide_True by lia. f_equal. symmetry. apply filter_all.
    eapply Forall_impl; [exact Ht|]. cbn. lia.
Qed.

Lemma filter_filter_le a b (l : list TradeRecord) :
  a ≤ b → filter (λ t, b ≤ timestamp t) (filter (λ t, a ≤ timestamp t) l)
          = filter (λ t, b ≤ timestamp t) l.
Proof.
  intros Hab. rewrite list_filter_filter. apply filter_ext_in. intros; lia.
Qed.

Lemma in_order_filter (P : TradeRecord → Prop) `{∀ t, Decision (P t)} l :
  in_order l → in_order (filter P l).
Proof.
  induction 1 as [|t l Hl IH Ht]; [constructor|]. rewrite filter_cons. case_decide; [|done].
  constructor; [done|]. by apply Forall_filter.
Qed.

(** The tape is what the window keeps of the whole history. *)
Lemma record_all_within l :
  in_order l → Forall trade_ok l → trades (record_all l) = within WINDOW_SECONDS l.
Proof.
  induction l as [|t l IH] using rev_ind; intros Ho Hok; [done|].
  unfold record_all. rewrite foldl_app. fold (record_all l). cbn [foldl].
  apply in_order_snoc in Ho as Ho'. destruct Ho' as [Hol Hle].
  apply Forall_app in Hok as [Hok [Ht _]%Forall_cons]. specialize (IH Hol Hok).
  unfold record, prune. cbn [trades]. rewrite IH.
  assert ({| timestamp := timestamp t; price := price t; qty := qty t |} = t) as -> by (by destruct t).
  assert (∀ x, in_u 64 x → ∀ u, in_u 64 (timestamp u) →
     sat_u 64 (x - WINDOW_SECONDS) ≤ timestamp u ↔ x - WINDOW_SECONDS ≤ timestamp u) as Hsat.
  { intros x Hx u Hu. unfold sat_u, WINDOW_SECONDS, in_u in *. lia. }
  unfold within at 2. rewrite last_snoc.
  assert (filter (λ u, sat_u 64 (timestamp t - WINDOW_SECONDS) ≤ timestamp u)
            (within WINDOW_SECONDS l ++ [t])
          = filter (λ u, timestamp t - WINDOW_SECONDS ≤ timestamp u) (l ++ [t])) as <-.
  { rewrite !filter_app. f_equal.
    - unfold within. destruct (last l) as [t0|] eqn:Hl; cycle 1.
      { apply last_None in Hl as ->. done. }
      apply last_Some in Hl as [l' ->].
      assert (timestamp t0 ≤ timestamp t) by (apply Hle; apply elem_of_app; right; by left).
      transitivity (filter (λ u, timestamp t - WINDOW_SECONDS ≤ timestamp u)
        (filter (λ u, timestamp t0 - WINDOW_SECONDS ≤ timestamp u) (l' ++ [t0])));
        [|apply filter_filter_le; lia].
      apply filter_ext_in. intros u [_ Hu]%list_elem_of_filter. apply Hsat; [apply Ht|].
      rewrite Forall_forall in Hok. by apply Hok.
    - apply filter_ext_in. intros u ->%list_elem_of_singleton. apply Hsat; apply Ht. }
  apply prune_loop_filter. apply in_order_snoc. split.
  - unfold within. destruct (last l); [by apply in_order_filter|constructor].
  - intros a Ha. apply Hle. unfold within in Ha. destruct (last l); [|by apply elem_of_nil in Ha].
    by apply list_elem_of_filter in Ha as [_ ?].
Qed.

Lemma last_within secs l t : 0 ≤ secs → last l = Some t → last (within secs l) = Some t.
Proof.
  intros Hs Hl. unfold within. rewrite Hl. apply last_Some in Hl as [l' ->].
  rewrite filter_app, filter_cons_True by lia. apply last_snoc.
Qed.

(** Pruning loses nothing the 24-hour statistics need. *)
Lemma within_within a b l : 0 ≤ a ≤ b → within a (within b l) = within a l.
Proof.
  intros Hab. destruct (last l) as [t|] eqn:Hl; cycle 1.
  { apply last_None in Hl as ->. done. }
  unfold within at 1. rewrite (last_within b l t) by (done || lia). unfold within. rewrite Hl.
  apply filter_filter_le. lia.
Qed.

Lemma volume_sum l a : foldl u64_add (wrapu 64 a) l = wrapu 64 (a + sumZ l).
Proof.
  revert a. induction l as [|x l IH]; intros a; [cbn; by rewrite Z.add_0_r|].
  cbn [foldl]. rewrite sumZ_cons. unfold u64_add at 2. rewrite wrapu_add_l by lia. rewrite IH.
  f_equal. lia.
Qed.

Lemma iter_max_spec l : l ≠ [] → ∃ x, iter_max l = Some x ∧ extremum Z.ge x l.
Proof.
  destruct l as [|x l]; [done|intros _]. cbn. eexists. split; [done|].
  revert x. induction l as [|y l IH]; intros x.
  { split; [by left|]. repeat constructor. cbn. lia. }
  cbn [foldl]. destruct (IH (Z.max x y)) as [Hin Hge]. apply Forall_cons in Hge as [Hm Hge]. split.
  - apply elem_of_cons in Hin as [->|?]; [|by do 2 right].
    destruct (Z.max_spec x y) as [[_ ->]|[_ ->]]; [right; by left|by left].
  - repeat (apply Forall_cons; split; [lia|]). done.
Qed.

Lemma iter_min_spec l : l ≠ [] → ∃ x, iter_min l = Some x ∧ extremum Z.le x l.
Proof.
  destruct l as [|x l]; [done|intros _]. cbn. eexists. split; [done|].
  revert x. induction l as [|y l IH]; intros x.
  { split; [by left|]. repeat constructor. cbn. lia. }
  cbn [foldl]. destruct (IH (Z.min x y)) as [Hin Hge]. apply Forall_cons in Hge as [Hm Hge]. split.
  - apply elem_of_cons in Hin as [->|?]; [|by do 2 right].
    destruct (Z.min_spec x y) as [[_ ->]|[_ ->]]; [by left|right; by left].
  - repeat (apply Forall_cons; split; [lia|]). done.
Qed.

Lemma extremum_singleton (R : Z → Z → Prop) x : R x x → extremum R x [x].
Proof. intros. split; [by left|]. by repeat constructor. Qed.

Lemma extremum_max x y l : extremum Z.ge x l → extremum Z.ge (Z.max x y) (l ++ [y]).
Proof.
  intros [Hin Hge]. split.
  - apply elem_of_app. destruct (Z.max_spec x y) as [[_ ->]|[_ ->]]; [right; by left|by left].
  - apply Forall_app_2; [|repeat constructor; lia]. eapply Forall_impl; [exact Hge|]. cbn. lia.
Qed.

Lemma extremum_min x y l : extremum Z.le x l → extremum Z.le (Z.min x y) (l ++ [y]).
Proof.
  intros [Hin Hge]. split.
  - apply elem_of_app. destruct (Z.min_spec x y) as [[_ ->]|[_ ->]]; [by left|right; by left].
  - apply Forall_app_2; [|repeat constructor; lia]. eapply Forall_impl; [exact Hge|]. cbn. lia.
Qed.

Lemma snapshot_window l :
  Forall trade_ok l →
  filter (λ t, default 0 ((λ l, sat_u 64 (timestamp l - 24 * 60 * 60)) <$> last l) ≤ timestamp t) l
    = within 86400 l.
Proof.
  intros Hok. unfold within. destruct (last l) as [t|] eqn:Hl; cycle 1.
  { apply last_None in Hl as ->. done. }
  apply filter_ext_in. intros u Hu. rewrite Forall_forall in Hok. destruct (Hok u Hu) as [[??] _].
  apply last_Some in Hl as [l' ->]. destruct (Hok t) as [[??] _].
  { apply elem_of_app; right; by left. }
  cbn. unfold sat_u. lia.
Qed.

Lemma snapshot_spec l : Forall trade_ok l → snapshot_of l (snapshot {| trades := l |}).
Proof.
  intros Hok. unfold snapshot. cbn [trades]. rewrite snapshot_window by done.
  assert (l ≠ [] → price <$> within 86400 l ≠ []) as Hne.
  { intros Hn. destruct (last l) as [t|] eqn:Hl; [|by apply last_None in Hl].
    pose proof (last_within 86400 l t ltac:(lia) Hl) as Hw. intros E%fmap_nil_inv. by rewrite E in Hw. }
  split; cbn [last_price last_trade_at volume_24h high_24h low_24h change_24h_bps]; try done.
  - change 0 with (wrapu 64 0) at 1. by rewrite volume_sum.
  - by intros ->.
  - intros Hn%Hne. by apply iter_max_spec.
  - intros Hn%Hne. by apply iter_min_spec.
  - intros f t Hf Ht. rewrite Hf, Ht. unfold change_bps.
    assert (trade_ok f) as (_ & Hpf & _).
    { apply head_Some_elem_of in Hf. unfold within in Hf. rewrite Ht in Hf.
      apply list_elem_of_filter in Hf as [_ Hf]. rewrite Forall_forall in Hok. by apply Hok. }
    assert (trade_ok t) as (_ & Hpt & _).
    { apply last_Some in Ht as [l' ->]. by apply Forall_app in Hok as [_ [? _]%Forall_cons]. }
    unfold i128_mul, i128_sub. rewrite (wraps_small 128 (price t - price f)) by int_range.
    by rewrite wraps_small by int_range.
Qed.

(** *** Candles *)

Section candles.
Context (interval : Z) (Hint : 0 < interval).

Let bucket := bucket_start interval.

Lemma bucket_le t : trade_ok t → bucket t = timestamp t / interval * interval ∧ bucket t ≤ timestamp t < bucket t + interval.
Proof.
  intros ((? & ?) & _). unfold bucket, bucket_start, u64_mul.
  pose proof (Z.mul_div_le (timestamp t) interval Hint).
  pose proof (Z.mul_succ_div_gt (timestamp t) interval Hint).
  assert (0 ≤ timestamp t / interval) by (apply Z.div_pos; lia).
  rewrite wrapu_small by (unfold in_u; nia). lia.
Qed.

Lemma bucket_mono a b : trade_ok a → trade_ok b → timestamp a ≤ timestamp b → bucket a ≤ bucket b.
Proof.
  intros Ha Hb Hab. destruct (bucket_le a Ha) as [-> _], (bucket_le b Hb) as [-> _].
  apply Z.mul_le_mono_nonneg_r; [lia|]. apply Z.div_le_mono; lia.
Qed.

(** What the fold maintains: one candle per bucket seen, in increasing order, the last one the
    bucket of the last trade. *)
Record candles_ok (q : list TradeRecord) (cs : list Candle) : Prop := {
  ck_sorted : StronglySorted Z.lt (open_time <$> cs);
  ck_times : ∀ b, b ∈ open_time <$> cs ↔ b ∈ bucket <$> q;
  ck_last : open_time <$> last cs = bucket <$> last q;
  ck_each : Forall (candle_of interval q) cs;
}.

Lemma candle_of_other q t c : bucket t ≠ open_time c → candle_of interval q c → candle_of interval (q ++ [t]) c.
Proof.
  intros Hb [H1 H2 H3 H4 H5]. unfold bucket in Hb.
  assert (filter (λ t, bucket_start interval t = open_time c) (q ++ [t])
          = filter (λ t, bucket_start interval t = open_time c) q) as E.
  { rewrite filter_app, filter_cons_False by done. by rewrite filter_nil, app_nil_r. }
  by split; rewrite E.
Qed.

Lemma candle_of_update q t c :
  bucket t = open_time c → trade_ok t → candle_of interval q c →
  candle_of interval (q ++ [t]) (update_candle c t).
Proof.
  intros Hb Ht [H1 H2 H3 H4 H5]. unfold bucket in Hb.
  assert (filter (λ t, bucket_start interval t = open_time (update_candle c t)) (q ++ [t])
          = filter (λ t, bucket_start interval t = open_time c) q ++ [t]) as E.
  { cbn [update_candle open_time]. rewrite filter_app, filter_cons_True by done. by rewrite filter_nil. }
  assert (filter (λ t0, bucket_start interval t0 = open_time (update_candle c t)) (q ++ [t])
          = filter (λ t, bucket_start interval t = open_time c) q ++ [t]) as E' by exact E.
  split; rewrite E'; cbn [update_candle c_open high low close volume];
    rewrite ?fmap_app; change (price <$> [t]) with [price t]; change (qty <$> [t]) with [qty t].
  - destruct (filter _ q); [done|]. exact H1.
  - by rewrite last_snoc.
  - by apply extremum_max.
  - by apply extremum_min.
  - rewrite H5, sumZ_app, sumZ_cons. change (sumZ []) with 0. unfold u64_add.
    rewrite wrapu_add_l by lia. f_equal. lia.
Qed.

Lemma candle_of_new q t :
  trade_ok t → bucket t ∉ bucket <$> q → candle_of interval (q ++ [t]) (new_candle interval t).
Proof.
  intros Ht Hn.
  assert (filter (λ u, bucket_start interval u = open_time (new_candle interval t)) (q ++ [t]) = [t]) as E.
  { cbn [new_candle open_time]. rewrite filter_app, filter_cons_True by done. rewrite filter_nil.
    rewrite filter_none; [done|]. apply Forall_forall. intros u Hu Hb. apply Hn.
    apply list_elem_of_fmap. by exists u. }
  split; rewrite E; cbn [new_candle c_open high low close volume]; try done.
  - apply extremum_singleton. lia.
  - apply extremum_singleton. lia.
  - cbn. rewrite Z.add_0_r. symmetry. apply wrapu_small, Ht.
Qed.

Lemma candle_step_ok q cs t :
  in_order (q ++ [t]) → Forall trade_ok (q ++ [t]) → candles_ok q cs →
  candles_ok (q ++ [t]) (candle_step interval cs t).
Proof.
  intros [Ho Hle]%in_order_snoc [Hok [Ht _]%Forall_cons]%Forall_app [Hs Htm Hl He].
  rewrite Forall_forall in Hok.
  assert (∀ b, b ∈ open_time <$> cs → b ≤ bucket t) as Hmax.
  { intros b Hb%Htm. apply list_elem_of_fmap in Hb as (u & -> & Hu).
    apply bucket_mono; [by apply Hok|done|by apply Hle]. }
  assert (bucket t ∉ open_time <$> cs → candles_ok (q ++ [t]) (cs ++ [new_candle interval t])) as Hnew.
  { intros Hn. split.
    - rewrite fmap_app. apply StronglySorted_app. split_and!; [|done|by repeat constructor].
      intros b x Hb ->%list_elem_of_singleton. pose proof (Hmax b Hb).
      assert (b ≠ bucket t) by (intros ->; done). change (b < bucket t). lia.
    - intros b. rewrite !fmap_app, !elem_of_app, Htm. done.
    - rewrite !last_snoc. done.
    - apply Forall_app_2.
      + apply Forall_forall. intros c Hc.
        rewrite Forall_forall in He. apply candle_of_other; [|by apply He].
        intros E. apply Hn. rewrite E. by apply list_elem_of_fmap_2.
      + constructor; [|constructor]. apply candle_of_new; [done|]. by rewrite <- Htm. }
  unfold candle_step. destruct (last cs) as [c|] eqn:Hc; cycle 1.
  { apply Hnew. apply last_None in Hc as ->. by intros ?%elem_of_nil. }
  apply last_Some in Hc as Hcs. destruct Hcs as [cs' ->].
  rewrite fmap_app in Hs. apply StronglySorted_app in Hs as (Hlt & Hs1 & Hs2).
  case_decide as Hb; cycle 1.
  - apply Hnew. rewrite fmap_app, elem_of_app. intros [Hin|Hin%list_elem_of_singleton].
    + pose proof (Hlt _ (open_time c) Hin ltac:(by left)).
      pose proof (Hmax (open_time c) ltac:(rewrite fmap_app; apply elem_of_app; right; by left)). lia.
    + by apply Hb.
  - rewrite removelast_last. apply Forall_app in He as [He [Hec _]%Forall_cons]. split.
    + rewrite fmap_app. apply StronglySorted_app. done.
    + intros b. rewrite !fmap_app, elem_of_app. cbn. rewrite elem_of_app.
      pose proof (Htm b) as Hb'. rewrite fmap_app, elem_of_app in Hb'. cbn in Hb'.
      rewrite <- Hb'. rewrite !list_elem_of_singleton. unfold bucket. rewrite <- Hb. tauto.
    + rewrite !last_snoc. cbn. by f_equal.
    + apply Forall_app_2.
      * rewrite Forall_forall in He |- *. intros c' Hc'. apply candle_of_other; [|by apply He].
        pose proof (Hlt (open_time c') (open_time c) (list_elem_of_fmap_2 _ _ _ Hc') ltac:(by left)).
        unfold bucket. lia.
      * constructor; [|constructor]. by apply candle_of_update.
Qed.

Lemma candles_fold_ok q :
  in_order q → Forall trade_ok q → candles_ok q (foldl (candle_step interval) [] q).
Proof.
  induction q as [|t q IH] using rev_ind; intros Ho Hok.
  { split; cbn; try done; constructor. }
  rewrite foldl_app. cbn [foldl]. apply candle_step_ok; [done|done|].
  apply in_order_snoc in Ho as [Ho _]. apply Forall_app in Hok as [Hok _]. by apply IH.
Qed.
End candles.

Lemma snapshot_of_within l s :
  snapshot_of (within WINDOW_SECONDS l) s → snapshot_of l s.
Proof.
  unfold WINDOW_SECONDS. intros [H1 H2 H3 H4 H5 H6 H7]. rewrite within_within in * by lia.
  destruct (last l) as [t|] eqn:Hl; cycle 1.
  { apply last_None in Hl as ->. done. }
  pose proof (last_within (14 * 24 * 60 * 60) l t ltac:(lia) Hl) as Hw.
  assert (l ≠ []) as Hn by (intros ->; done).
  assert (within (14 * 24 * 60 * 60) l ≠ []) as Hn' by (intros E; by rewrite E in Hw).
  rewrite Hw in *. split; rewrite ?Hl; auto. intros; done.
Qed.

Lemma demo_trades_ok : in_order demo_trades ∧ Forall trade_ok demo_trades.
Proof.
  split.
  - repeat (apply SSorted_cons; [|repeat (apply Forall_cons; split; [cbn; lia|]); constructor]).
    apply SSorted_nil.
  - repeat (apply Forall_cons; split; [split_and!; by vm_compute|]). constructor.
Qed.

(** The snapshot of a pruned tape is the one of the history. *)
Lemma record_all_snapshot l : in_order l → Forall trade_ok l → snapshot_of l (snapshot (record_all l)).
Proof.
  intros Ho Hok. pose proof (record_all_within l Ho Hok) as Ht. apply snapshot_of_within. rewrite <- Ht.
  assert (record_all l = {| trades := trades (record_all l) |}) as E by (by destruct (record_all l)).
  rewrite E at 2. apply snapshot_spec. rewrite Ht. unfold within.
  destruct (last l); [by apply Forall_filter|constructor].
Qed.

(** ** Properties *)

(** Pruning is invisible.  Feeding the tape trades in time order leaves exactly those of the
    last 14 days, and the snapshot taken from the pruned tape is the one of the whole history: last
    price and time, and over the trades of the last 24 hours the volume (modulo [2^64]), the
    highest and lowest price, and the change from the first of them, absent when there is nothing
    earlier to compare with; [recent] lists the newest prints first. *)
Theorem snapshot_correct_after_pruning l n :
  in_order l → Forall trade_ok l →
  trades (record_all l) = within WINDOW_SECONDS l ∧
  snapshot_of l (snapshot (record_all l)) ∧
  recent (record_all l) n = take n (rev (within WINDOW_SECONDS l)).
Proof.
  intros Ho Hok. pose proof (record_all_within l Ho Hok) as Ht. split; [done|]. split.
  - by apply record_all_snapshot.
  - unfold recent. by rewrite Ht.
Qed.

Lemma snapshot_correct_after_pruning_witness :
  length (trades (record_all demo_trades)) = 2%nat ∧
  volume_24h (snapshot (record_all demo_trades)) = 5 ∧
  change_24h_bps (snapshot (record_all demo_trades)) = Some 1000.
Proof.
  destruct demo_trades_ok as [Ho Hok].
  destruct (snapshot_correct_after_pruning demo_trades 1 Ho Hok) as (Ht & [_ _ Hv _ _ _ Hc] & _).
  split; [rewrite Ht; vm_compute; reflexivity|]. split.
  - refine (eq_trans Hv _). vm_compute. reflexivity.
  - refine (eq_trans (Hc {| timestamp := 1300000; price := 90; qty := 1 |}
                         {| timestamp := 1300030; price := 99; qty := 4 |} _ _) _);
      vm_compute; reflexivity.
Defined.

(** Candles.  For trades in time order and a nonzero interval, the uncapped candles have
    strictly increasing open times, one for every bucket that holds a trade and none for an empty
    bucket; each is the first, highest, lowest and last price and the volume (modulo [2^64]) of its
    bucket's trades.  A limit keeps the most recent bars, and a zero interval gives none. *)
Theorem candles_correct tape interval limit :
  in_order (trades tape) → Forall trade_ok (trades tape) → 0 < interval →
  let all := foldl (candle_step interval) [] (trades tape) in
  candles tape interval limit = last_prints all limit ∧
  length (candles tape interval limit) = (length all `min` limit)%nat ∧
  StronglySorted Z.lt (open_time <$> all) ∧
  (∀ b, b ∈ open_time <$> all ↔ ∃ t, t ∈ trades tape ∧ b = bucket_start interval t) ∧
  Forall (candle_of interval (trades tape)) all ∧
  candles tape 0 limit = [].
Proof.
  intros Ho Hok Hint all. destruct (candles_fold_ok interval Hint _ Ho Hok) as [Hs Ht _ He].
  assert (candles tape interval limit = last_prints all limit) as Hc.
  { unfold candles, all. case_decide as Hd; [|done]. destruct Hd as [->|E]; [lia|]. by rewrite E. }
  split; [done|]. split; [by rewrite Hc, last_prints_length|]. split; [done|]. split.
  - intros b. unfold all. rewrite Ht, list_elem_of_fmap. naive_solver.
  - split; [done|]. unfold candles. by rewrite decide_True by auto.
Qed.

Lemma candles_correct_witness :
  open_time <$> candles {| trades := demo_trades |} 60 2 = [1299960; 1300020].
Proof.
  destruct demo_trades_ok as [Ho Hok].
  destruct (candles_correct {| trades := demo_trades |} 60 2 Ho Hok ltac:(lia)) as (Hc & _).
  refine (eq_trans (f_equal (λ l, open_time <$> l) Hc) _). vm_compute. reflexivity.
Defined.
