(* ===== verification/I256.v ===== *)
(** * 256-bit signed integers as an interface

    [alloy]'s [I256] is a third-party type: its arithmetic and its conversions are parameters of the
    model.  The laws state their documented behaviour on values that fit: an operation is exact
    when its result fits 256 bits, and the conversions succeed exactly on the values of the target type. *)
From S2P Require Import Prelude Ints.
Open Scope Z_scope.

Class I256 := {
  i256_add : Z → Z → exec Z;
  i256_try_from : Z → option Z;
  i128_try_from : Z → option Z;
  i256_sub : Z → Z → exec Z;
  i256_abs : Z → exec Z;
  u128_try_from : Z → option Z;
}.

Class I256Laws (I : I256) : Prop := {
  i256_add_exact a b :
    in_s 256 a → in_s 256 b → in_s 256 (a + b) → i256_add a b = Ret (a + b);
  i256_try_from_exact a : in_s 256 a → i256_try_from a = Some a;
  i128_try_from_exact a : in_s 256 a → i128_try_from a = try_s 128 a;
  i256_sub_exact a b :
    in_s 256 a → in_s 256 b → in_s 256 (a - b) → i256_sub a b = Ret (a - b);
  i256_abs_exact a : in_s 256 a → in_s 256 (- a) → i256_abs a = Ret (Z.abs a);
  u128_try_from_exact a : in_s 256 a → u128_try_from a = try_u 128 a;
}.

(** An instance, for the witnesses. *)
Definition checked_i256 : I256 := {|
  i256_add := λ a b, expect (try_s 256 (a + b));
  i256_try_from := try_s 256;
  i128_try_from := try_s 128;
  i256_sub := λ a b, expect (try_s 256 (a - b));
  i256_abs := λ a, expect (try_s 256 (Z.abs a));
  u128_try_from := try_u 128;
|}.

#[export] Instance checked_i256_laws : I256Laws checked_i256.
Proof.
  split; cbn; intros.
  - by rewrite try_s_in.
  - by rewrite try_s_in.
  - done.
  - by rewrite try_s_in.
  - by rewrite try_s_in by int_range.
  - done.
Qed.

(** [x += d] on an [I256] field. *)
Lemma i256_add_Ret `{!I256Laws X} a b :
  - 2 ^ 254 < a < 2 ^ 254 → - 2 ^ 254 < b < 2 ^ 254 → i256_add a b = Ret (a + b).
Proof. intros. apply i256_add_exact; int_range. Qed.

Lemma i256_of_small `{!I256Laws X} a : - 2 ^ 254 < a < 2 ^ 254 → i256_try_from a = Some a.
Proof. intros. apply i256_try_from_exact. int_range. Qed.
