(* ===== verification/Positions.v ===== *)
(** * Position accounting in the matcher ([crates/cerdic-tee-matcher/src/api.rs])

    The money side of a fill: margin requirements, realized profit and loss, the fold of fills onto
    a position, the per-position cache it is written back to, and the queue of realized results.
    [I256] values are integers under the [I256] interface; reads of the chain are parameters.
    Definitions only; the theorems are in [PositionProps]. *)
From S2P Require Import Prelude Ints Types I256.
Open Scope Z_scope.

Definition IMR_BPS : Z := 500.
Definition BPS_DENOMINATOR : Z := 10000.
Definition MAX_LEVERAGE : Z := 50.
Definition USD_SCALE : Z := 1000000000000000000.

(** [oracle::price_scale_for_market]. *)
Definition price_scale_for_market (market_id : MarketId) : Z :=
  if decide (market_id ∈ ["EURC/USDC"; "GBP/USD"; "AUD/USD"; "USD/JPY"]) then 100000 else 100.

(** ** Data *)

(** [portfolioKey] (32 bytes) and addresses (20 bytes) as unsigned integers. *)
Abbreviation Key := Z (only parsing).
Abbreviation Address := Z (only parsing).

Record PortfolioMarketState := {
  pm_market_id : MarketId;
  pm_signed_size : Z;
  pm_entry_price : Z;
  pm_collateral : Z;
  pm_leverage : Z;
  pm_take_profit : option Z;
  pm_stop_loss : option Z;
  pm_entry_funding_index : Z;
}.

Record PositionFold := {
  signed_size : Z;
  entry_price : Z;
  entry_funding_index : Z;
  collateral : Z;
  leverage : Z;
  take_profit : option Z;
  stop_loss : option Z;
}.

(** [sealed::SealedParams]. *)
Record SealedParams := {
  side_is_buy : bool;
  sp_entry_price : Z;
  sp_size : Z;
  sp_leverage : Z;
  sp_take_profit : option Z;
  sp_stop_loss : option Z;
  sp_entry_funding_index : Z;
}.

(** The bytes written on chain: empty, or parameters sealed by the third-party AEAD, which is kept
    symbolic. *)
Inductive SealedBlob := EmptyBytes | Sealed (p : SealedParams).

Abbreviation Cache := (gmap (Key * MarketId) PortfolioMarketState) (only parsing).

(** ** Margin and realized results *)

Definition clamp (x lo hi : Z) : Z := Z.max lo (Z.min x hi).

Definition required_margin (tick qty lev : Z) : Z :=
  let imr_bps := BPS_DENOMINATOR / clamp lev 1 MAX_LEVERAGE in
  u128_mul (u128_mul tick qty) imr_bps / BPS_DENOMINATOR.

Definition required_margin_usd (tick qty : Z) (market_id : MarketId) (lev : Z) : Z :=
  let raw := required_margin tick qty lev in
  sat_u 128 (raw * USD_SCALE) / price_scale_for_market market_id.

Section positions.
Context `{I : I256}.

Definition realized_delta_to_usd (delta : Z) (market_id : MarketId) : Z :=
  let raw := default (if decide (delta < 0) then i128_min else i128_max) (i128_try_from delta) in
  let usd := Z.quot (sat_s 128 (raw * USD_SCALE)) (price_scale_for_market market_id) in
  default (if decide (usd < 0) then - 2 ^ 255 else 2 ^ 255 - 1) (i256_try_from usd).

Definition realized_close_delta (sz entry entry_funding close_size current_tick current_funding : Z) : Z :=
  let size_abs := Z.abs sz in
  if decide (size_abs = 0 ∨ close_size = 0) then 0
  else
    let close_size := Z.min close_size (as_u64 size_abs) in
    let signed_close := if decide (0 ≤ sz) then close_size else - close_size in
    let spot_pnl := i128_mul signed_close (i128_sub current_tick entry) in
    let funding_pnl := i128_mul signed_close (i128_sub current_funding entry_funding) in
    let pnl := i128_add spot_pnl funding_pnl in
    default (if decide (pnl < 0) then - 2 ^ 255 else 2 ^ 255 - 1) (i256_try_from pnl).

(** ** The fold *)

Definition from_existing (existing : option PortfolioMarketState) (default_leverage : Z) :
    PositionFold :=
  match existing with
  | Some m => {| signed_size := pm_signed_size m; entry_price := pm_entry_price m;
                 entry_funding_index := pm_entry_funding_index m; collateral := pm_collateral m;
                 leverage := pm_leverage m; take_profit := pm_take_profit m;
                 stop_loss := pm_stop_loss m |}
  | None => {| signed_size := 0; entry_price := 0; entry_funding_index := 0; collateral := 0;
               leverage := default_leverage; take_profit := None; stop_loss := None |}
  end.

Definition signed_fill (is_buy : bool) (qty : Z) : Z := if is_buy then qty else - qty.

(** Adding in the direction of the position: both entries are blended by size.  The divisions abort at a
    divisor of zero, and the signed one at [i128::MIN / -1]. *)
Definition fold_add (f : PositionFold) (fill_signed fill_price fill_qty current_funding : Z) :
    exec (PositionFold * (Z * Z)) :=
  let old_abs := Z.abs (signed_size f) in
  let new_abs := u128_add old_abs fill_qty in
  let blended := i128_add (i128_mul (entry_funding_index f) (as_i128 old_abs))
                          (i128_mul current_funding fill_qty) in
  if decide (new_abs = 0 ∨ blended = i128_min ∧ as_i128 new_abs = -1) then Panic
  else
    let entry := as_u64 (u128_add (u128_mul old_abs (entry_price f)) (u128_mul fill_qty fill_price)
                         / new_abs) in
    let funding := Z.quot blended (as_i128 new_abs) in
    margin ← expect (i256_try_from (required_margin fill_price fill_qty (leverage f)));
    Ret ({| signed_size := i128_add (signed_size f) fill_signed; entry_price := entry;
            entry_funding_index := funding; collateral := collateral f; leverage := leverage f;
            take_profit := take_profit f; stop_loss := stop_loss f |}, (margin, 0)).

(** Trading against the position: close up to its size, then open the excess on the other side. *)
Definition fold_close (f : PositionFold) (is_buy : bool) (fill_price fill_qty current_funding : Z) :
    exec (PositionFold * (Z * Z)) :=
  let existing_abs := Z.abs (signed_size f) in
  let close_size := as_u64 (Z.min fill_qty existing_abs) in
  let close_delta := realized_close_delta (signed_size f) (entry_price f) (entry_funding_index f)
                       close_size fill_price current_funding in
  let closed := i128_add (signed_size f) (if decide (0 ≤ signed_size f) then - close_size else close_size) in
  let flip_qty := u64_sub fill_qty close_size in
  if decide (flip_qty = 0) then
    Ret ({| signed_size := closed; entry_price := entry_price f;
            entry_funding_index := entry_funding_index f; collateral := collateral f;
            leverage := leverage f; take_profit := take_profit f; stop_loss := stop_loss f |},
         (close_delta, close_delta))
  else
    open_delta ← expect (i256_try_from (required_margin fill_price flip_qty (leverage f)));
    tot ← i256_add close_delta open_delta;
    Ret ({| signed_size := signed_fill is_buy flip_qty; entry_price := fill_price;
            entry_funding_index := current_funding; collateral := collateral f;
            leverage := leverage f; take_profit := None; stop_loss := None |},
         (tot, close_delta)).

Definition with_collateral (f : PositionFold) (c : Z) : PositionFold :=
  {| signed_size := signed_size f; entry_price := entry_price f;
     entry_funding_index := entry_funding_index f; collateral := c; leverage := leverage f;
     take_profit := take_profit f; stop_loss := stop_loss f |}.

Definition apply_fill (f : PositionFold) (is_buy : bool) (fill_price fill_qty current_funding : Z) :
    exec (PositionFold * (Z * Z)) :=
  let fill_signed := signed_fill is_buy fill_qty in
  let same_direction := bool_decide (signed_size f = 0) ||
    bool_decide (0 < signed_size f ↔ 0 < fill_signed) in
  '(f', (delta, realized)) ← (if same_direction
    then fold_add f fill_signed fill_price fill_qty current_funding
    else fold_close f is_buy fill_price fill_qty current_funding);
  c ← i256_add (collateral f') delta;
  Ret (with_collateral f' c, (delta, realized)).

(** ** The position cache *)

Definition state_of_fold (market_id : MarketId) (f : PositionFold) : PortfolioMarketState :=
  {| pm_market_id := market_id; pm_signed_size := signed_size f; pm_entry_price := entry_price f;
     pm_collateral := collateral f; pm_leverage := leverage f; pm_take_profit := take_profit f;
     pm_stop_loss := stop_loss f; pm_entry_funding_index := entry_funding_index f |}.

(** A read of the chain, as [load_single_market_state] performs it. *)
Definition params_state (market_id : MarketId) (p : SealedParams) (coll : Z) : PortfolioMarketState :=
  {| pm_market_id := market_id;
     pm_signed_size := if side_is_buy p then sp_size p else - sp_size p;
     pm_entry_price := sp_entry_price p; pm_collateral := coll; pm_leverage := sp_leverage p;
     pm_take_profit := sp_take_profit p; pm_stop_loss := sp_stop_loss p;
     pm_entry_funding_index := sp_entry_funding_index p |}.

(** [load_sealed] of one position: [None] when the read or the unsealing fails. *)
Context (load_sealed : Key → MarketId → option (SealedBlob * Z)).

Definition load_single_market_state (k : Key) (market_id : MarketId) : option PortfolioMarketState :=
  match load_sealed k market_id with
  | Some (Sealed p, coll) => Some (params_state market_id p coll)
  | _ => None
  end.

Definition load_single_market_state_cached (cache : Cache) (k : Key) (market_id : MarketId) :
    option PortfolioMarketState :=
  match cache !! (k, market_id) with
  | Some m => Some m
  | None => load_single_market_state k market_id
  end.

Definition load_and_fold (cache : Cache) (k : Key) (market_id : MarketId) (is_buy : bool)
    (fill_price fill_qty current_funding default_leverage extra_delta : Z) :
    exec (Cache * (Z * Z)) :=
  let existing := load_single_market_state_cached cache k market_id in
  '(f, (fill_delta, realized_delta)) ←
    apply_fill (from_existing existing default_leverage) is_buy fill_price fill_qty current_funding;
  delta ← i256_add fill_delta extra_delta;
  c ← i256_add (collateral f) extra_delta;
  let f := with_collateral f c in
  let cache' := if decide (signed_size f = 0) then delete (k, market_id) cache
                else <[(k, market_id) := state_of_fold market_id f]> cache in
  Ret (cache', (delta, realized_delta)).

Definition invalidate_position (cache : Cache) (k : Key) (market_id : MarketId) : Cache :=
  delete (k, market_id) cache.

Definition sealed_params_of (m : PortfolioMarketState) : SealedParams :=
  {| side_is_buy := bool_decide (0 < pm_signed_size m); sp_entry_price := pm_entry_price m;
     sp_size := as_u64 (Z.abs (pm_signed_size m)); sp_leverage := pm_leverage m;
     sp_take_profit := pm_take_profit m; sp_stop_loss := pm_stop_loss m;
     sp_entry_funding_index := pm_entry_funding_index m |}.

Definition cached_sealed_params (cache : Cache) (k : Key) (market_id : MarketId) :
    option SealedParams := sealed_params_of <$> cache !! (k, market_id).

(** ** The queue of realized results *)

Definition queue_realized_pnl (collateral_check : option (Address * Address))
    (pending : gmap (Address * Address) Z) (trader : Address) (delta : Z) :
    exec (gmap (Address * Address) Z) :=
  if decide (delta = 0 ∨ trader = 0) then Ret pending
  else match collateral_check with
       | None => Ret pending
       | Some (_, asset) =>
           d ← i256_add (default 0 (pending !! (trader, asset))) delta;
           Ret (<[(trader, asset) := d]> pending)
       end.

(** [drain]: the entries, and the emptied map. *)
Definition drain_realized_pnl (pending : gmap (Address * Address) Z) :
    gmap (Address * Address) Z * list (Address * Address * Z) := (∅, map_to_list pending).
End positions.
