(* ===== verification/PositionProps.v ===== *)
(** * Properties of the position accounting

    Closed forms for one fill on every branch of the fold, and the conservation law of a whole
    sequence of fills. *)
From S2P Require Import Prelude Ints Types I256 Positions.
Open Scope Z_scope.

(** ** Specification *)

(** Ranges that keep every intermediate product of a fold inside its type: sizes below [2^62],
    prices below [2^50] (the matcher refuses ticks above [10^11]), funding indices below [2^62]. *)
Record fold_ok (f : PositionFold) : Prop := {
  fo_size : Z.abs (signed_size f) < 2 ^ 62;
  fo_entry : 0 ≤ entry_price f < 2 ^ 50;
  fo_funding : Z.abs (entry_funding_index f) < 2 ^ 62;
  fo_leverage : in_u 64 (leverage f);
}.

Record Fill := { fl_buy : bool; fl_price : Z; fl_qty : Z; fl_funding : Z }.

Record fill_ok (x : Fill) : Prop := {
  fi_price : 0 ≤ fl_price x < 2 ^ 50;
  fi_qty : 0 < fl_qty x < 2 ^ 62;
  fi_funding : Z.abs (fl_funding x) < 2 ^ 62;
}.

Definition delta_of (x : Fill) : Z := signed_fill (fl_buy x) (fl_qty x).

(** The margin formula without wrap-around. *)
Definition margin_spec (tick qty lev : Z) : Z :=
  tick * qty * (BPS_DENOMINATOR / clamp lev 1 MAX_LEVERAGE) / BPS_DENOMINATOR.

(** Profit on closing [q] of a position: price and funding move against its entry stamps. *)
Definition close_pnl (f : PositionFold) (x : Fill) (q : Z) : Z :=
  Z.sgn (signed_size f) * q *
    ((fl_price x - entry_price f) + (fl_funding x - entry_funding_index f)).

(** A fill in the direction of the position, or onto a flat one. *)
Definition adds (f : PositionFold) (x : Fill) : Prop :=
  signed_size f = 0 ∨ (0 < signed_size f ↔ fl_buy x = true).

#[export] Instance adds_dec f x : Decision (adds f x).
Proof. unfold adds. destruct (fl_buy x); apply _. Defined.

Record fold_result (f : PositionFold) (x : Fill) (f' : PositionFold) (delta realized : Z) : Prop := {
  fr_size : signed_size f' = signed_size f + delta_of x;
  fr_collateral : collateral f' = collateral f + delta;
  fr_leverage : leverage f' = leverage f;
  fr_add : adds f x →
    realized = 0 ∧ delta = margin_spec (fl_price x) (fl_qty x) (leverage f) ∧
    take_profit f' = take_profit f ∧ stop_loss f' = stop_loss f ∧
    entry_price f' = (Z.abs (signed_size f) * entry_price f + fl_qty x * fl_price x)
                       / (Z.abs (signed_size f) + fl_qty x) ∧
    entry_funding_index f' =
      Z.quot (entry_funding_index f * Z.abs (signed_size f) + fl_funding x * fl_qty x)
             (Z.abs (signed_size f) + fl_qty x);
  fr_close : ¬ adds f x → fl_qty x ≤ Z.abs (signed_size f) →
    realized = close_pnl f x (fl_qty x) ∧ delta = realized ∧
    entry_price f' = entry_price f ∧ entry_funding_index f' = entry_funding_index f ∧
    take_profit f' = take_profit f ∧ stop_loss f' = stop_loss f;
  fr_flip : ¬ adds f x → Z.abs (signed_size f) < fl_qty x →
    realized = close_pnl f x (Z.abs (signed_size f)) ∧
    delta = realized + margin_spec (fl_price x) (fl_qty x - Z.abs (signed_size f)) (leverage f) ∧
    entry_price f' = fl_price x ∧ entry_funding_index f' = fl_funding x ∧
    take_profit f' = None ∧ stop_loss f' = None;
}.

Definition apply (f : PositionFold) (x : Fill) `{I256} : exec (PositionFold * (Z * Z)) :=
  apply_fill f (fl_buy x) (fl_price x) (fl_qty x) (fl_funding x).

(** A sequence of fills onto one position: the total delta and the total realized result. *)
Fixpoint apply_all `{I256} (f : PositionFold) (xs : list Fill) : exec (PositionFold * (Z * Z)) :=
  match xs with
  | [] => Ret (f, (0, 0))
  | x :: xs =>
      '(f1, (d, r)) ← apply f x;
      '(f2, (d', r')) ← apply_all f1 xs;
      Ret (f2, (d + d', r + r'))
  end.

(** The value at which a position is carried: its size at its entry stamps. *)
Definition basis (f : PositionFold) : Z := signed_size f * (entry_price f + entry_funding_index f).
(** What a fill pays. *)
Definition outlay (x : Fill) : Z := delta_of x * (fl_price x + fl_funding x).
(** The sizes a position goes through. *)
Fixpoint sizes (s : Z) (xs : list Fill) : list Z :=
  match xs with [] => [] | x :: xs => (s + delta_of x) :: sizes (s + delta_of x) xs end.

Definition demo_fold : PositionFold :=
  {| signed_size := 10; entry_price := 100; entry_funding_index := 0; collateral := 50;
     leverage := 20; take_profit := Some 120; stop_loss := None |}.
Definition demo_fills : list Fill :=
  [{| fl_buy := true; fl_price := 107; fl_qty := 5; fl_funding := 1 |};
   {| fl_buy := false; fl_price := 110; fl_qty := 4; fl_funding := 2 |};
   {| fl_buy := false; fl_price := 90; fl_qty := 20; fl_funding := 2 |}].

(** ** Lemmas *)

Lemma imr_range lev : 200 ≤ BPS_DENOMINATOR / clamp lev 1 MAX_LEVERAGE ≤ 10000.
Proof.
  unfold BPS_DENOMINATOR, clamp, MAX_LEVERAGE. set (l := Z.max 1 (Z.min lev 50)).
  assert (1 ≤ l ≤ 50) by (unfold l; lia).
  split; [apply Z.div_le_lower_bound|apply Z.div_le_upper_bound]; lia.
Qed.

Lemma required_margin_exact tick qty lev :
  0 ≤ tick → 0 ≤ qty → tick * qty < 2 ^ 114 →
  required_margin tick qty lev = margin_spec tick qty lev ∧ 0 ≤ margin_spec tick qty lev ≤ tick * qty.
Proof.
  intros Ht Hq Hb. pose proof (imr_range lev) as Hi. unfold required_margin, margin_spec.
  set (imr := BPS_DENOMINATOR / clamp lev 1 MAX_LEVERAGE) in *.
  assert (0 ≤ tick * qty) by nia. unfold u128_mul.
  rewrite (wrapu_small 128 (tick * qty)) by int_range.
  rewrite wrapu_small by (unfold in_u; nia). split; [done|]. unfold BPS_DENOMINATOR.
  split; [apply Z.div_pos; nia|apply Z.div_le_upper_bound; nia].
Qed.

Lemma mul_bound a b x y : Z.abs a ≤ x → Z.abs b ≤ y → Z.abs (a * b) ≤ x * y.
Proof. intros. rewrite Z.abs_mul. apply Z.mul_le_mono_nonneg; lia. Qed.

Section fold.
Context `{!I256Laws J}.

Lemma realized_close_exact f x q :
  fold_ok f → fill_ok x → signed_size f ≠ 0 → 0 < q ≤ Z.abs (signed_size f) →
  realized_close_delta (signed_size f) (entry_price f) (entry_funding_index f) q
    (fl_price x) (fl_funding x) = close_pnl f x q ∧
  Z.abs (close_pnl f x q) < 2 ^ 126.
Proof.
  intros [Hs He Hf Hl] [Hp Hq Hfu] Hn Hb. unfold realized_close_delta, close_pnl.
  rewrite decide_False by lia. unfold as_u64.
  rewrite (wrapu_small 64 (Z.abs _)) by int_range. rewrite Z.min_l by lia.
  assert ((if decide (0 ≤ signed_size f) then q else - q) = Z.sgn (signed_size f) * q) as ->.
  { case_decide; [rewrite Z.sgn_pos by lia|rewrite Z.sgn_neg by lia]; lia. }
  set (c := Z.sgn (signed_size f) * q).
  assert (Z.abs c ≤ 2 ^ 62) by (unfold c; destruct (Z.sgn_spec (signed_size f)) as [[? ->]|[[? ->]|[? ->]]]; lia).
  unfold i128_sub. rewrite (wraps_small 128 (fl_price x - _)), (wraps_small 128 (fl_funding x - _)) by int_range.
  pose proof (mul_bound c (fl_price x - entry_price f) (2 ^ 62) (2 ^ 50) ltac:(lia) ltac:(lia)) as HA.
  pose proof (mul_bound c (fl_funding x - entry_funding_index f) (2 ^ 62) (2 ^ 63) ltac:(lia) ltac:(lia)) as HB.
  unfold i128_mul. rewrite !(wraps_small 128 (c * _)) by int_range.
  unfold i128_add. rewrite wraps_small by int_range.
  rewrite Z.mul_add_distr_l. rewrite i256_of_small by lia. cbn [default from_option id].
  split; [done|]. lia.
Qed.

Lemma fold_add_exact f x :
  fold_ok f → fill_ok x → adds f x →
  ∃ f', fold_add f (delta_of x) (fl_price x) (fl_qty x) (fl_funding x)
          = Ret (f', (margin_spec (fl_price x) (fl_qty x) (leverage f), 0)) ∧
    signed_size f' = signed_size f + delta_of x ∧ collateral f' = collateral f ∧
    leverage f' = leverage f ∧ take_profit f' = take_profit f ∧ stop_loss f' = stop_loss f ∧
    entry_price f' = (Z.abs (signed_size f) * entry_price f + fl_qty x * fl_price x)
                       / (Z.abs (signed_size f) + fl_qty x) ∧
    entry_funding_index f' =
      Z.quot (entry_funding_index f * Z.abs (signed_size f) + fl_funding x * fl_qty x)
             (Z.abs (signed_size f) + fl_qty x) ∧
    0 ≤ entry_price f' < 2 ^ 50 ∧ Z.abs (entry_funding_index f') < 2 ^ 62.
Proof.
  intros [Hs He Hf Hl] [Hp Hq Hfu] Ha. unfold fold_add.
  set (old := Z.abs (signed_size f)) in *.
  assert (0 ≤ old < 2 ^ 62) by (unfold old; lia).
  assert (u128_add old (fl_qty x) = old + fl_qty x) as Hnew
    by (unfold u128_add; apply wrapu_small; int_range).
  rewrite Hnew, decide_False by (unfold as_i128; rewrite (wraps_small 128 (old + fl_qty x)) by int_range; lia).
  assert (0 ≤ old * entry_price f ≤ 2 ^ 62 * 2 ^ 50) by nia.
  assert (0 ≤ fl_qty x * fl_price x ≤ 2 ^ 62 * 2 ^ 50) by nia.
  destruct (required_margin_exact (fl_price x) (fl_qty x) (leverage f)) as [Hm Hmb]; [lia..|].
  rewrite Hm, i256_of_small by lia. cbn [expect]. cbv beta iota delta [mbind exec_bind].
  eexists. split; [reflexivity|]. cbn [signed_size collateral leverage take_profit stop_loss
    entry_price entry_funding_index].
  assert (0 ≤ (old * entry_price f + fl_qty x * fl_price x) / (old + fl_qty x) < 2 ^ 50) as Hr.
  { split; [apply Z.div_pos; lia|apply Z.div_lt_upper_bound; nia]. }
  unfold u128_mul, u128_add, i128_mul, i128_add, as_u64, as_i128.
  rewrite (wrapu_small 128 (old * _)), (wrapu_small 128 (fl_qty x * _)) by int_range.
  rewrite (wrapu_small 128 (_ + _)) by int_range. rewrite (wrapu_small 64) by int_range.
  rewrite (wraps_small 128 old), (wraps_small 128 (old + fl_qty x)) by int_range.
  pose proof (mul_bound (entry_funding_index f) old (2 ^ 62) (2 ^ 62) ltac:(lia) ltac:(lia)) as HA.
  pose proof (mul_bound (fl_funding x) (fl_qty x) (2 ^ 62) (2 ^ 62) ltac:(lia) ltac:(lia)) as HB.
  rewrite (wraps_small 128 (entry_funding_index f * old)), (wraps_small 128 (fl_funding x * fl_qty x)) by int_range.
  rewrite (wraps_small 128 (_ * _ + _ * _)) by int_range.
  assert (in_s 128 (signed_size f + delta_of x)) as Hsum.
  { unfold delta_of, signed_fill. destruct (fl_buy x); int_range. }
  rewrite (wraps_small 128 (signed_size f + delta_of x)) by (done || lia).
  split_and!; try done; try lia.
  (* the blended funding index stays between the two it blends *)
  set (a := entry_funding_index f * old) in *. set (b := fl_funding x * fl_qty x) in *.
  assert (Z.abs (a + b) ≤ (2 ^ 62 - 1) * (old + fl_qty x)).
  { pose proof (mul_bound (entry_funding_index f) old (2 ^ 62 - 1) old ltac:(lia) ltac:(lia)).
    pose proof (mul_bound (fl_funding x) (fl_qty x) (2 ^ 62 - 1) (fl_qty x) ltac:(lia) ltac:(lia)).
    unfold a, b. lia. }
  rewrite <- Z.quot_abs, (Z.abs_eq (old + fl_qty x)) by lia.
  rewrite Z.quot_div_nonneg by lia. apply Z.le_lt_trans with (2 ^ 62 - 1); [|lia].
  apply Z.div_le_upper_bound; lia.
Qed.

Lemma not_adds f x :
  ¬ adds f x → signed_size f ≠ 0 ∧
  ((0 < signed_size f ∧ fl_buy x = false) ∨ (signed_size f < 0 ∧ fl_buy x = true)).
Proof.
  unfold adds. intros Hn. split; [tauto|].
  destruct (decide (0 < signed_size f)); destruct (fl_buy x); [tauto|auto|right; lia|].
  exfalso. apply Hn. right. split; [lia|done].
Qed.

Lemma same_direction_adds f x :
  fill_ok x →
  bool_decide (signed_size f = 0) || bool_decide (0 < signed_size f ↔ 0 < delta_of x) =
  bool_decide (adds f x).
Proof.
  intros [_ Hq _]. unfold adds, delta_of, signed_fill.
  apply eq_bool_prop_intro. rewrite orb_True, !bool_decide_spec.
  assert (0 < (if fl_buy x then fl_qty x else - fl_qty x) ↔ fl_buy x = true) as ->.
  { destruct (fl_buy x); split; (done || lia). }
  done.
Qed.

(** Fields of a fold that a closing fill leaves alone. *)
Lemma fold_close_exact f x :
  fold_ok f → fill_ok x → ¬ adds f x →
  ∃ f' delta realized,
    fold_close f (fl_buy x) (fl_price x) (fl_qty x) (fl_funding x) = Ret (f', (delta, realized)) ∧
    signed_size f' = signed_size f + delta_of x ∧ collateral f' = collateral f ∧
    leverage f' = leverage f ∧ Z.abs delta < 2 ^ 127 ∧
    0 ≤ entry_price f' < 2 ^ 50 ∧ Z.abs (entry_funding_index f') < 2 ^ 62 ∧
    (fl_qty x ≤ Z.abs (signed_size f) →
      realized = close_pnl f x (fl_qty x) ∧ delta = realized ∧
      entry_price f' = entry_price f ∧ entry_funding_index f' = entry_funding_index f ∧
      take_profit f' = take_profit f ∧ stop_loss f' = stop_loss f) ∧
    (Z.abs (signed_size f) < fl_qty x →
      realized = close_pnl f x (Z.abs (signed_size f)) ∧
      delta = realized + margin_spec (fl_price x) (fl_qty x - Z.abs (signed_size f)) (leverage f) ∧
      entry_price f' = fl_price x ∧ entry_funding_index f' = fl_funding x ∧
      take_profit f' = None ∧ stop_loss f' = None).
Proof.
  intros Hf Hx Hn. destruct (not_adds f x Hn) as [Hnz Hdir].
  pose proof Hf as [Hs He Hfu Hl]. pose proof Hx as [Hp Hq Hxf].
  set (q := Z.min (fl_qty x) (Z.abs (signed_size f))).
  assert (0 < q ≤ Z.abs (signed_size f) ∧ q ≤ fl_qty x) as [Hq1 Hq2] by (unfold q; lia).
  assert (as_u64 (Z.min (fl_qty x) (Z.abs (signed_size f))) = q) as Eas
    by (unfold as_u64; rewrite wrapu_small by int_range; done).
  unfold fold_close. cbv zeta. rewrite Eas.
  destruct (realized_close_exact f x q Hf Hx Hnz Hq1) as [-> Hb].
  unfold u64_sub. rewrite (wrapu_small 64 (fl_qty x - q)) by int_range.
  assert (∀ a, (0 < signed_size f ∧ a = - fl_qty x) ∨ (signed_size f < 0 ∧ a = fl_qty x) →
    a = delta_of x) as Hd.
  { intros a Ha. unfold delta_of, signed_fill. destruct (fl_buy x); destruct Hdir as [[??]|[??]]; try done; lia. }
  destruct (decide (fl_qty x - q = 0)) as [Hz|Hz].
  - eexists _, _, _. split; [reflexivity|].
    cbn [signed_size collateral leverage take_profit stop_loss entry_price entry_funding_index].
    assert (q = fl_qty x) as Eq by lia.
    split_and!; try done; try lia; [|intros _; by rewrite Eq].
    unfold i128_add. rewrite Eq. destruct (decide (0 ≤ signed_size f)).
    + rewrite <- (Hd (- fl_qty x)) by lia. rewrite wraps_small by int_range. lia.
    + rewrite <- (Hd (fl_qty x)) by lia. rewrite wraps_small by int_range. lia.
  - assert (q = Z.abs (signed_size f)) as Eq by (unfold q in *; lia).
    assert (fl_price x * (fl_qty x - q) < 2 ^ 114) as Hpq by nia.
    destruct (required_margin_exact (fl_price x) (fl_qty x - q) (leverage f)) as [-> Hmb]; [lia..|].
    rewrite i256_of_small by lia. cbn [expect]. cbv beta iota delta [mbind exec_bind].
    rewrite i256_add_Ret by lia.
    eexists _, _, _. split; [reflexivity|].
    cbn [signed_size collateral leverage take_profit stop_loss entry_price entry_funding_index].
    split_and!; try done; try lia; [|intros _; by rewrite <- Eq].
    unfold signed_fill, delta_of, signed_fill. destruct (fl_buy x); destruct Hdir as [[??]|[??]]; try done; lia.
Qed.

Lemma apply_exact f x :
  fold_ok f → fill_ok x → Z.abs (collateral f) < 2 ^ 200 →
  ∃ f' delta realized,
    apply f x = Ret (f', (delta, realized)) ∧ fold_result f x f' delta realized ∧
    Z.abs delta < 2 ^ 127 ∧ (Z.abs (signed_size f') < 2 ^ 62 → fold_ok f').
Proof.
  intros Hf Hx Hc. unfold apply, apply_fill. fold (delta_of x).
  rewrite same_direction_adds by done. case_bool_decide as Ha.
  - destruct (fold_add_exact f x Hf Hx Ha) as
      (f' & -> & Hsz & Hcol & Hlev & Htp & Hsl & He & Hfu & Her & Hfr).
    destruct Hx as [Hp Hq Hxf].
    destruct (required_margin_exact (fl_price x) (fl_qty x) (leverage f)) as [_ Hmb]; [lia..|nia|].
    assert (fl_price x * fl_qty x < 2 ^ 114) by nia.
    cbv beta iota delta [mbind exec_bind]. rewrite i256_add_Ret by lia.
    eexists _, _, _. split; [reflexivity|].
    split; [split; cbn; try done; try (intros; done); rewrite ?Hcol; done|].
    split; [lia|]. intros Hs. split; cbn; rewrite ?Hlev; (done || apply Hf).
  - destruct (fold_close_exact f x Hf Hx Ha) as
      (f' & delta & realized & -> & Hsz & Hcol & Hlev & Hdb & Her & Hfr & Hcl & Hfl).
    cbv beta iota delta [mbind exec_bind]. rewrite i256_add_Ret by lia.
    eexists _, _, _. split; [reflexivity|].
    split; [split; cbn; try done; try (intros; done); rewrite ?Hcol; done|].
    split; [lia|]. intros Hs. split; cbn; rewrite ?Hlev; (done || apply Hf).
Qed.

(** The carrying value moves by what the fill paid plus what it realized, up to the rounding of a
    blended entry. *)
Lemma fold_basis f x f' delta realized :
  fold_ok f → fill_ok x → fold_result f x f' delta realized →
  Z.abs (basis f' - basis f - outlay x - realized) ≤ 2 * Z.abs (signed_size f').
Proof.
  intros Hf Hx [Hsz _ _ Hadd Hclose Hflip]. destruct (decide (adds f x)) as [Ha|Hn].
  - destruct (Hadd Ha) as (-> & _ & _ & _ & He & Hfu). clear Hadd Hclose Hflip.
    destruct Hx as [_ Hq _]. unfold basis, outlay.
    set (old := Z.abs (signed_size f)) in *. set (n := old + fl_qty x) in *.
    assert (0 < n) by (unfold n, old; lia).
    pose proof (Z.div_mod (old * entry_price f + fl_qty x * fl_price x) n ltac:(lia)) as E1.
    pose proof (Z.mod_pos_bound (old * entry_price f + fl_qty x * fl_price x) n ltac:(lia)) as B1.
    rewrite <- He in E1.
    set (r1 := (old * entry_price f + fl_qty x * fl_price x) mod n) in *.
    pose proof (Z.quot_rem (entry_funding_index f * old + fl_funding x * fl_qty x) n ltac:(lia)) as E2.
    rewrite <- Hfu in E2.
    set (r2 := Z.rem (entry_funding_index f * old + fl_funding x * fl_qty x) n) in *.
    assert (Z.abs r2 < n) as B2.
    { unfold r2. pose proof (Z.rem_bound_abs (entry_funding_index f * old + fl_funding x * fl_qty x) n ltac:(lia)). lia. }
    assert (∃ s, (s = 1 ∨ s = -1) ∧ signed_size f = s * old ∧ delta_of x = s * fl_qty x) as (s & Hs & Hso & Hsd).
    { unfold old, delta_of, signed_fill. unfold adds in Ha.
      destruct (fl_buy x); [exists 1|exists (-1)]; split_and!; auto; try lia. }
    assert (signed_size f' = s * n) as -> by (unfold n; lia).
    assert (Z.abs (s * n) = n) as -> by (destruct Hs as [->| ->]; lia).
    rewrite Hso, Hsd.
    replace (s * n * (entry_price f' + entry_funding_index f')
             - s * old * (entry_price f + entry_funding_index f)
             - s * fl_qty x * (fl_price x + fl_funding x) - 0)
      with (s * ((n * entry_price f' - (old * entry_price f + fl_qty x * fl_price x))
                 + (n * entry_funding_index f'
                    - (entry_funding_index f * old + fl_funding x * fl_qty x)))) by ring.
    rewrite Z.abs_mul. destruct Hs as [->| ->]; lia.
  - destruct (not_adds f x Hn) as [Hnz Hdir]. unfold basis, outlay. rewrite Hsz.
    unfold close_pnl, delta_of, signed_fill in *.
    destruct (decide (fl_qty x ≤ Z.abs (signed_size f))) as [Hle|Hgt].
    + destruct (Hclose Hn Hle) as (-> & _ & -> & -> & _).
      destruct Hdir as [[Hpos ->]|[Hneg ->]];
        [rewrite Z.sgn_pos by done|rewrite Z.sgn_neg by done];
        match goal with |- Z.abs ?e ≤ _ => replace e with 0 by ring end; lia.
    + destruct (Hflip Hn ltac:(lia)) as (-> & _ & -> & -> & _).
      destruct Hdir as [[Hpos ->]|[Hneg ->]];
        [rewrite Z.sgn_pos, (Z.abs_eq (signed_size f)) by lia
        |rewrite Z.sgn_neg, (Z.abs_neq (signed_size f)) by lia];
        match goal with |- Z.abs ?e ≤ _ => replace e with 0 by ring end; lia.
Qed.
End fold.

Section sequence.
Context `{!I256Laws J}.

Lemma apply_all_exact xs f :
  fold_ok f → Forall fill_ok xs → Forall (λ s, Z.abs s < 2 ^ 62) (sizes (signed_size f) xs) →
  Z.abs (collateral f) + Z.of_nat (length xs) * 2 ^ 127 < 2 ^ 200 →
  ∃ f' delta realized,
    apply_all f xs = Ret (f', (delta, realized)) ∧ fold_ok f' ∧
    signed_size f' = signed_size f + sumZ (delta_of <$> xs) ∧
    collateral f' = collateral f + delta ∧
    Z.abs (basis f' - basis f - sumZ (outlay <$> xs) - realized)
      ≤ 2 * sumZ (Z.abs <$> sizes (signed_size f) xs).
Proof.
  intros Hf Hxs. revert f Hf. induction Hxs as [|x xs Hx Hxs IH]; intros f Hf Hsz Hc.
  { exists f, 0, 0. cbn. split_and!; try done; lia. }
  cbn [sizes] in *. apply Forall_cons in Hsz as [Hs1 Hsz]. rewrite length_cons in Hc.
  destruct (apply_exact f x Hf Hx ltac:(lia)) as (f1 & d & r & Ha & Hr & Hd & Hok).
  pose proof (fold_basis f x f1 d r Hf Hx Hr) as Hb. pose proof Hr as [Hsize Hcol _ _ _ _].
  rewrite <- Hsize in *.
  destruct (IH f1) as (f2 & d2 & r2 & Hall & Hok2 & Hsize2 & Hcol2 & Hb2); [by apply Hok|done|lia|].
  exists f2, (d + d2), (r + r2). cbn [apply_all]. rewrite Ha. cbv beta iota delta [mbind exec_bind].
  rewrite Hall. split; [done|]. split; [done|]. rewrite !fmap_cons, !sumZ_cons. lia.
Qed.
End sequence.

Lemma demo_fold_ok : fold_ok demo_fold ∧ Forall fill_ok demo_fills.
Proof.
  split; [split; vm_compute; intuition congruence|].
  repeat (apply Forall_cons; split; [split; vm_compute; intuition congruence|]). constructor.
Qed.

(** ** Properties *)

(** C4: One fill, every branch.  In range, [apply_fill] returns: the position always moves by the
    signed fill and the tracked collateral by exactly the returned delta; a fill in the position's
    direction realizes nothing, locks the leverage-dependent margin and blends both entry stamps by
    size, the price staying between the old entry and the fill; a smaller opposite fill realizes
    its price and funding move on the closed part and leaves the entries; a larger one closes
    everything, then opens the excess at the fill's own price with fresh margin and no
    take-profit or stop-loss. *)
Theorem apply_fill_correct `{!I256Laws J} f x :
  fold_ok f → fill_ok x → Z.abs (collateral f) < 2 ^ 200 →
  ∃ f' delta realized,
    apply_fill f (fl_buy x) (fl_price x) (fl_qty x) (fl_funding x) = Ret (f', (delta, realized)) ∧
    fold_result f x f' delta realized ∧
    (adds f x → signed_size f ≠ 0 →
       Z.min (entry_price f) (fl_price x) ≤ entry_price f' ≤ Z.max (entry_price f) (fl_price x)) ∧
    (Z.abs (signed_size f') < 2 ^ 62 → fold_ok f').
Proof.
  intros Hf Hx Hc. destruct (apply_exact f x Hf Hx Hc) as (f' & d & r & Ha & Hr & _ & Hok).
  exists f', d, r. split; [exact Ha|]. split; [done|]. split; [|done].
  intros Hadd Hnz. destruct (fr_add _ _ _ _ _ Hr Hadd) as (_ & _ & _ & _ & -> & _).
  destruct Hx as [_ Hq _]. set (old := Z.abs (signed_size f)) in *.
  assert (0 < old) by (unfold old; lia).
  split; [apply Z.div_le_lower_bound|apply Z.div_le_upper_bound]; nia.
Qed.

Lemma apply_fill_correct_witness :
  ∃ f', @apply_fill checked_i256 demo_fold false 110 14 2 = Ret (f', (142, 120)) ∧ signed_size f' = -4.
Proof.
  destruct demo_fold_ok as [Hf _].
  destruct (@apply_fill_correct checked_i256 _ demo_fold
    {| fl_buy := false; fl_price := 110; fl_qty := 14; fl_funding := 2 |} Hf
    ltac:(split; vm_compute; intuition congruence) ltac:(by vm_compute)) as (f' & d & r & Ha & Hr & _).
  exists f'. pose proof (fr_size _ _ _ _ _ Hr) as Hs. vm_compute in Ha, Hs.
  injection Ha as <- <- <-. split; vm_compute; reflexivity.
Defined.

(** C23: No value is created by folding.  Along any sequence of fills in range, the final size is
    the initial one plus the signed fills, the collateral is the initial one plus the deltas, and
    the total realized result equals the change of the position's carrying value less what the
    fills paid, up to twice the sum of the sizes passed through (the rounding of blended entries);
    a round trip that starts and ends flat therefore realizes its cash flow. *)
Theorem fills_conserve_value `{!I256Laws J} f xs :
  fold_ok f → Forall fill_ok xs → Forall (λ s, Z.abs s < 2 ^ 62) (sizes (signed_size f) xs) →
  Z.abs (collateral f) + Z.of_nat (length xs) * 2 ^ 127 < 2 ^ 200 →
  ∃ f' delta realized,
    apply_all f xs = Ret (f', (delta, realized)) ∧
    signed_size f' = signed_size f + sumZ (delta_of <$> xs) ∧
    collateral f' = collateral f + delta ∧
    Z.abs (realized - (basis f' - basis f - sumZ (outlay <$> xs)))
      ≤ 2 * sumZ (Z.abs <$> sizes (signed_size f) xs) ∧
    (signed_size f = 0 → signed_size f' = 0 →
       Z.abs (realized + sumZ (outlay <$> xs)) ≤ 2 * sumZ (Z.abs <$> sizes (signed_size f) xs)).
Proof.
  intros Hf Hxs Hs Hc. destruct (apply_all_exact xs f Hf Hxs Hs Hc)
    as (f' & d & r & Ha & _ & Hsz & Hcol & Hb).
  exists f', d, r. split_and!; [done|done|done|lia|].
  intros H0 H1. unfold basis in Hb. rewrite H0, H1 in Hb. rewrite H0. lia.
Qed.

Lemma fills_conserve_value_witness :
  ∃ f' d, @apply_all checked_i256 demo_fold demo_fills = Ret (f', (d, -70)) ∧ signed_size f' = -9.
Proof.
  destruct demo_fold_ok as [Hf Hx].
  destruct (@fills_conserve_value checked_i256 _ demo_fold demo_fills Hf Hx
    ltac:(repeat (apply Forall_cons; split; [by vm_compute|]); constructor) ltac:(by vm_compute))
    as (f' & d & r & Ha & Hs & _).
  exists f', d. vm_compute in Ha, Hs. injection Ha as <- <- <-. split; vm_compute; reflexivity.
Defined.
