(* ===== verification/PositionLocks.v ===== *)
(** * The locks of positions ([api.rs])

    One mutex per position, created at its first use and never removed.  A fold holds the one of its
    position from its read to its write; a liquidation takes those of all the positions it found, in
    the order of their names, and holds them until its calls have answered.  A failed broadcast evicts
    a position without any lock.  Tasks interleave at every await. *)
From Stdlib Require OrderedTypeEx.
From S2P Require Import Prelude Ints Types U256 I256 Risk Averages Fees MarketData Backstop Positions.
Open Scope Z_scope.

Abbreviation Position := (Key * MarketId)%type (only parsing).

(** ** A fold, from what it read *)

Record FoldRequest := {
  fr_key : Key; fr_market : MarketId; fr_is_buy : bool; fr_price : Z; fr_qty : Z;
  fr_funding : Z; fr_leverage : Z; fr_extra : Z;
}.

Definition fr_position (r : FoldRequest) : Position := (fr_key r, fr_market r).

Section locks.
Context `{I : I256}.

(** The entry it writes, [None] for a flat position, and what it returns. *)
Definition fold_result (existing : option PortfolioMarketState) (r : FoldRequest) :
    exec (option PortfolioMarketState * (Z * Z)) :=
  '(f, (fill_delta, realized_delta)) ←
    apply_fill (from_existing existing (fr_leverage r)) (fr_is_buy r) (fr_price r) (fr_qty r) (fr_funding r);
  delta ← i256_add fill_delta (fr_extra r);
  c ← i256_add (collateral f) (fr_extra r);
  let f := with_collateral f c in
  Ret (if decide (signed_size f = 0) then None else Some (state_of_fold (fr_market r) f), (delta, realized_delta)).

(** ** The machine *)

Inductive Job :=
| FoldJob (r : FoldRequest)
| LiquidateJob (k : Key) (markets : list MarketId).

Inductive Stage :=
| Acquiring (held rest : list Position)
| Critical (held : list Position) (loaded : option (option PortfolioMarketState))
| Released (out : option (Z * Z)).

Record Worker := { wk_job : Job; wk_stage : Stage }.
Record Floor := {
  fl_cache : Cache;
  fl_locks : gmap Position nat;
  fl_workers : gmap nat Worker;
}.

Definition wanted (j : Job) : list Position :=
  match j with
  | FoldJob r => [fr_position r]
  | LiquidateJob k markets => pair k <$> markets
  end.

Definition set_stage (fl : Floor) (t : nat) (w : Worker) (st : Stage) : gmap nat Worker :=
  <[t := {| wk_job := wk_job w; wk_stage := st |}]> (fl_workers fl).

(** [drop] of the guards. *)
Definition release (held : list Position) (locks : gmap Position nat) : gmap Position nat :=
  foldr delete locks held.

(** [set_entry p (Some v)] inserts, [set_entry p None] removes. *)
Definition set_entry (p : Position) (v : option PortfolioMarketState) (c : Cache) : Cache :=
  partial_alter (λ _, v) p c.

(** The order in which the names are sorted. *)
Context (lt : relation MarketId) `{!StrictOrder lt} `{!RelDecision lt}.

(** A step of a worker towards its end. *)
Inductive work_step : Floor → Floor → Prop :=
| work_acquire fl t w held p rest :
    fl_workers fl !! t = Some w → wk_stage w = Acquiring held (p :: rest) → fl_locks fl !! p = None →
    work_step fl {| fl_cache := fl_cache fl; fl_locks := <[p := t]> (fl_locks fl);
                    fl_workers := set_stage fl t w (Acquiring (held ++ [p]) rest) |}
| work_enter fl t w held :
    fl_workers fl !! t = Some w → wk_stage w = Acquiring held [] →
    work_step fl {| fl_cache := fl_cache fl; fl_locks := fl_locks fl;
                    fl_workers := set_stage fl t w (Critical held None) |}
| work_load fl t w r held chain :
    fl_workers fl !! t = Some w → wk_job w = FoldJob r → wk_stage w = Critical held None →
    work_step fl {| fl_cache := fl_cache fl; fl_locks := fl_locks fl;
                    fl_workers := set_stage fl t w (Critical held (Some
                      (match fl_cache fl !! fr_position r with Some s => Some s | None => chain end))) |}
| work_store fl t w r held existing v out :
    fl_workers fl !! t = Some w → wk_job w = FoldJob r → wk_stage w = Critical held (Some existing) →
    fold_result existing r = Ret (v, out) →
    work_step fl {| fl_cache := set_entry (fr_position r) v (fl_cache fl); fl_locks := release held (fl_locks fl);
                    fl_workers := set_stage fl t w (Released (Some out)) |}
| work_abort fl t w r held existing :
    fl_workers fl !! t = Some w → wk_job w = FoldJob r → wk_stage w = Critical held (Some existing) →
    fold_result existing r = Panic →
    work_step fl {| fl_cache := fl_cache fl; fl_locks := release held (fl_locks fl);
                    fl_workers := set_stage fl t w (Released None) |}
| work_liquidated fl t w k markets held :
    fl_workers fl !! t = Some w → wk_job w = LiquidateJob k markets → wk_stage w = Critical held None →
    work_step fl {| fl_cache := fl_cache fl; fl_locks := release held (fl_locks fl);
                    fl_workers := set_stage fl t w (Released None) |}.

(** Everything that happens: the work, arrivals, the writes of a liquidation under its locks, and an
    eviction. *)
Inductive floor_step : Floor → Floor → Prop :=
| floor_work fl fl' : work_step fl fl' → floor_step fl fl'
| floor_fold fl t r :
    fl_workers fl !! t = None →
    floor_step fl {| fl_cache := fl_cache fl; fl_locks := fl_locks fl;
      fl_workers := <[t := {| wk_job := FoldJob r; wk_stage := Acquiring [] [fr_position r] |}]> (fl_workers fl) |}
| floor_liquidate fl t k markets :
    fl_workers fl !! t = None → StronglySorted lt markets →
    floor_step fl {| fl_cache := fl_cache fl; fl_locks := fl_locks fl;
      fl_workers := <[t := {| wk_job := LiquidateJob k markets; wk_stage := Acquiring [] (pair k <$> markets) |}]>
                      (fl_workers fl) |}
| floor_write fl t w k markets held p v :
    fl_workers fl !! t = Some w → wk_job w = LiquidateJob k markets → wk_stage w = Critical held None → p ∈ held →
    floor_step fl {| fl_cache := set_entry p v (fl_cache fl); fl_locks := fl_locks fl; fl_workers := fl_workers fl |}
| floor_invalidate fl k m :
    floor_step fl {| fl_cache := invalidate_position (fl_cache fl) k m; fl_locks := fl_locks fl;
                     fl_workers := fl_workers fl |}.

Definition open_floor (c : Cache) : Floor := {| fl_cache := c; fl_locks := ∅; fl_workers := ∅ |}.

(** ** Lemmas *)

(** [load_and_fold] is the read, the fold and the write, in one step. *)
Lemma load_and_fold_split load_sealed cache r :
  load_and_fold load_sealed cache (fr_key r) (fr_market r) (fr_is_buy r) (fr_price r) (fr_qty r)
    (fr_funding r) (fr_leverage r) (fr_extra r) =
  ('(v, out) ← fold_result (load_single_market_state_cached load_sealed cache (fr_key r) (fr_market r)) r;
   Ret (set_entry (fr_position r) v cache, out)).
Proof.
  unfold load_and_fold, fold_result. cbv zeta. destruct (apply_fill _ _ _ _ _) as [[f [d rd]]|]; [|done].
  rewrite !ret_bind. cbv beta iota. destruct (i256_add d (fr_extra r)) as [delta|]; [|done].
  rewrite !ret_bind. destruct (i256_add (collateral f) (fr_extra r)) as [c|]; [|done]. rewrite !ret_bind. cbv beta iota.
  by case_decide.
Qed.

Definition holds (st : Stage) : list Position :=
  match st with Acquiring held _ | Critical held _ => held | Released _ => [] end.

Definition before (p q : Position) : Prop := p.1 = q.1 ∧ lt p.2 q.2.

Record floor_ok (fl : Floor) : Prop := {
  fo_locks p t : fl_locks fl !! p = Some t ↔ ∃ w, fl_workers fl !! t = Some w ∧ p ∈ holds (wk_stage w);
  fo_sorted t w held rest : fl_workers fl !! t = Some w → wk_stage w = Acquiring held rest →
    StronglySorted before (held ++ rest);
  fo_wanted t w held l : fl_workers fl !! t = Some w → wk_stage w = Critical held l → held = wanted (wk_job w);
  fo_path t w held rest : fl_workers fl !! t = Some w → wk_stage w = Acquiring held rest → held ++ rest = wanted (wk_job w);
  fo_loaded t w held existing : fl_workers fl !! t = Some w → wk_stage w = Critical held (Some existing) →
    ∃ r, wk_job w = FoldJob r ∧
      (fl_cache fl !! fr_position r = existing ∨ fl_cache fl !! fr_position r = None);
}.

Lemma release_lookup held locks p : release held locks !! p = if decide (p ∈ held) then None else locks !! p.
Proof.
  induction held as [|q held IH]; [done|]. cbn [release foldr]. destruct (decide (p = q)) as [->|Hne].
  - rewrite lookup_delete_eq, decide_True; [done|by left].
  - rewrite lookup_delete_ne by done. fold (release held locks). rewrite IH.
    destruct (decide (p ∈ held)); [rewrite decide_True by (by right)|rewrite decide_False by set_solver]; done.
Qed.

Lemma set_entry_lookup p v c q : set_entry p v c !! q = if decide (q = p) then v else c !! q.
Proof.
  unfold set_entry. case_decide as Hd; [subst; apply lookup_partial_alter_eq|by apply lookup_partial_alter_ne].
Qed.

(** A worker that moves to another stage, with the locks that stage holds. *)
Lemma floor_ok_move fl t w st cache locks :
  floor_ok fl → fl_workers fl !! t = Some w →
  (∀ p t', locks !! p = Some t' ↔ (t' = t ∧ p ∈ holds st) ∨ (t' ≠ t ∧ fl_locks fl !! p = Some t')) →
  (∀ held rest, st = Acquiring held rest → StronglySorted before (held ++ rest) ∧ held ++ rest = wanted (wk_job w)) →
  (∀ held l, st = Critical held l → held = wanted (wk_job w)) →
  (∀ held existing, st = Critical held (Some existing) → ∃ r, wk_job w = FoldJob r ∧
     (cache !! fr_position r = existing ∨ cache !! fr_position r = None)) →
  (∀ p, p ∉ holds (wk_stage w) → cache !! p = fl_cache fl !! p) →
  floor_ok {| fl_cache := cache; fl_locks := locks; fl_workers := set_stage fl t w st |}.
Proof.
  intros Hok Ht Hlocks Hacq Hcrit Hload Hcache. unfold set_stage. split; cbn [fl_cache fl_locks fl_workers].
  - intros p t'. rewrite Hlocks. destruct (decide (t' = t)) as [->|Hne].
    + rewrite lookup_insert_eq. naive_solver.
    + rewrite lookup_insert_ne, (fo_locks _ Hok) by done. naive_solver.
  - intros t' w' held rest [[<- <-]|[Hne H]]%lookup_insert_Some Hst; [by apply Hacq|by eapply fo_sorted].
  - intros t' w' held l [[<- <-]|[Hne H]]%lookup_insert_Some Hst; [by eapply Hcrit|by eapply fo_wanted].
  - intros t' w' held rest [[<- <-]|[Hne H]]%lookup_insert_Some Hst; [by apply Hacq|by eapply fo_path].
  - intros t' w' held e [[<- <-]|[Hne H]]%lookup_insert_Some Hst; [by eapply Hload|].
    destruct (fo_loaded _ Hok _ _ _ _ H Hst) as (r & Hr & Hc). exists r. split; [done|]. rewrite Hcache; [done|].
    intros Hin. assert (Hin' : fr_position r ∈ holds (wk_stage w')).
    { rewrite Hst. cbn. rewrite (fo_wanted _ Hok _ _ _ _ H Hst), Hr. cbn. by left. }
    assert (fl_locks fl !! fr_position r = Some t) by (apply (fo_locks _ Hok); eauto).
    assert (fl_locks fl !! fr_position r = Some t') by (apply (fo_locks _ Hok); eauto). congruence.
Qed.

Lemma release_moves fl t w held p t' :
  floor_ok fl → fl_workers fl !! t = Some w → holds (wk_stage w) = held →
  release held (fl_locks fl) !! p = Some t' ↔ (t' = t ∧ p ∈ holds (Released None)) ∨ (t' ≠ t ∧ fl_locks fl !! p = Some t').
Proof.
  intros Hok Ht Hh. rewrite release_lookup. cbn [holds]. case_decide as Hin.
  - assert (fl_locks fl !! p = Some t) by (apply (fo_locks _ Hok); exists w; by rewrite Hh). split; [done|].
    intros [[_ ?%elem_of_nil]|[Hne ?]]; [done|congruence].
  - split.
    + intros H. right. split; [|done]. intros ->. apply (fo_locks _ Hok) in H as (w' & Hw' & Hp). by simplify_eq.
    + intros [[_ ?%elem_of_nil]|[_ ?]]; done.
Qed.

Lemma same_moves fl t w p t' :
  floor_ok fl → fl_workers fl !! t = Some w →
  fl_locks fl !! p = Some t' ↔ (t' = t ∧ p ∈ holds (wk_stage w)) ∨ (t' ≠ t ∧ fl_locks fl !! p = Some t').
Proof.
  intros Hok Ht. destruct (decide (t' = t)) as [->|Hne]; [|naive_solver]. rewrite (fo_locks _ Hok). naive_solver.
Qed.

Lemma work_step_ok fl fl' : work_step fl fl' → floor_ok fl → floor_ok fl'.
Proof.
  intros Hst Hok. destruct Hst as [fl t w held p rest Ht Hs Hp|fl t w held Ht Hs|fl t w r held chain Ht Hj Hs|
    fl t w r held e v out Ht Hj Hs Hf|fl t w r held e Ht Hj Hs Hf|fl t w k ms held Ht Hj Hs].
  - apply floor_ok_move; try done.
    + intros q t'. rewrite lookup_insert_Some. cbn [holds]. rewrite elem_of_app, list_elem_of_singleton.
      pose proof (same_moves fl t w q t' Hok Ht) as H. rewrite Hs in H. cbn [holds] in H.
      assert (p ∉ held) by (intros Hin; assert (fl_locks fl !! p = Some t) by (apply (fo_locks _ Hok); exists w; by rewrite Hs); congruence).
      destruct (decide (q = p)) as [->|]; naive_solver.
    + intros h' r' [= <- <-]. rewrite <- app_assoc.
      split; [exact (fo_sorted _ Hok _ _ _ _ Ht Hs)|exact (fo_path _ Hok _ _ _ _ Ht Hs)].
  - apply floor_ok_move; try done.
    + intros q t'. pose proof (same_moves fl t w q t' Hok Ht) as H. by rewrite Hs in H.
    + intros h' l [= <- <-]. rewrite <- (fo_path _ Hok _ _ _ _ Ht Hs). by rewrite app_nil_r.
  - apply floor_ok_move; try done.
    + intros q t'. pose proof (same_moves fl t w q t' Hok Ht) as H. by rewrite Hs in H.
    + intros h' l [= <- <-]. exact (fo_wanted _ Hok _ _ _ _ Ht Hs).
    + intros h' e [= <- <-]. exists r. split; [done|]. by destruct (fl_cache fl !! fr_position r); [left|right].
  - apply floor_ok_move; try done.
    + intros q t'. apply (release_moves fl t w); [done..|by rewrite Hs].
    + intros q Hq. rewrite set_entry_lookup, decide_False; [done|]. intros ->. apply Hq. rewrite Hs. cbn.
      rewrite (fo_wanted _ Hok _ _ _ _ Ht Hs), Hj. by left.
  - apply floor_ok_move; try done. intros q t'. apply (release_moves fl t w); [done..|by rewrite Hs].
  - apply floor_ok_move; try done. intros q t'. apply (release_moves fl t w); [done..|by rewrite Hs].
Qed.

Lemma sorted_pairs (k : Key) markets : StronglySorted lt markets → StronglySorted before (pair k <$> markets).
Proof.
  induction 1 as [|m ms _ IH Hm]; constructor; [done|]. apply Forall_fmap. eapply Forall_impl; [exact Hm|]. by intros.
Qed.

Lemma arrive_ok fl t j :
  floor_ok fl → fl_workers fl !! t = None → StronglySorted before (wanted j) →
  floor_ok {| fl_cache := fl_cache fl; fl_locks := fl_locks fl;
              fl_workers := <[t := {| wk_job := j; wk_stage := Acquiring [] (wanted j) |}]> (fl_workers fl) |}.
Proof.
  intros Hok Ht Hs. split; cbn [fl_cache fl_locks fl_workers].
  - intros p t'. rewrite (fo_locks _ Hok). destruct (decide (t' = t)) as [->|Hne].
    + rewrite lookup_insert_eq, Ht. split; [by intros (? & ? & _)|]. intros (w & [= <-] & Hin). by apply elem_of_nil in Hin.
    + by rewrite lookup_insert_ne.
  - intros t' w held rest [[<- <-]|[Hne H]]%lookup_insert_Some Hst; [|exact (fo_sorted _ Hok _ _ _ _ H Hst)].
    by injection Hst as <- <-.
  - intros t' w held l [[<- <-]|[Hne H]]%lookup_insert_Some Hst; [done|exact (fo_wanted _ Hok _ _ _ _ H Hst)].
  - intros t' w held rest [[<- <-]|[Hne H]]%lookup_insert_Some Hst; [|exact (fo_path _ Hok _ _ _ _ H Hst)].
    by injection Hst as <- <-.
  - intros t' w held e [[<- <-]|[Hne H]]%lookup_insert_Some Hst; [done|exact (fo_loaded _ Hok _ _ _ _ H Hst)].
Qed.

(** A write to the cache that no fold under way has read. *)
Lemma cache_ok fl c :
  floor_ok fl →
  (∀ t w r existing held, fl_workers fl !! t = Some w → wk_stage w = Critical held (Some existing) →
     wk_job w = FoldJob r → c !! fr_position r = fl_cache fl !! fr_position r ∨ c !! fr_position r = None) →
  floor_ok {| fl_cache := c; fl_locks := fl_locks fl; fl_workers := fl_workers fl |}.
Proof.
  intros [H1 H2 H3 H4 H5] Hc. split; try done. cbn [fl_workers fl_cache]. intros t w held e Ht Hs.
  destruct (H5 _ _ _ _ Ht Hs) as (r & Hr & Hor). exists r. split; [done|].
  destruct (Hc _ _ _ _ _ Ht Hs Hr) as [E|E]; [by rewrite E|by right].
Qed.

Lemma floor_step_ok fl fl' : floor_step fl fl' → floor_ok fl → floor_ok fl'.
Proof.
  intros Hst Hok. destruct Hst as [fl fl' Hw|fl t r Ht|fl t k ms Ht Hs|fl t w k ms held p v Ht Hj Hs Hp|fl k m].
  - by eapply work_step_ok.
  - apply (arrive_ok _ _ (FoldJob r)); [done..|]. repeat constructor.
  - apply (arrive_ok _ _ (LiquidateJob k ms)); [done..|]. by apply sorted_pairs.
  - apply cache_ok; [done|]. intros t' w' r e held' Ht' Hs' Hj'. left. rewrite set_entry_lookup, decide_False; [done|].
    intros <-. assert (fl_locks fl !! fr_position r = Some t) by (apply (fo_locks _ Hok); exists w; by rewrite Hs).
    assert (fl_locks fl !! fr_position r = Some t').
    { apply (fo_locks _ Hok). exists w'. split; [done|]. rewrite Hs'. cbn.
      rewrite (fo_wanted _ Hok _ _ _ _ Ht' Hs'), Hj'. by left. }
    assert (t = t') as <- by congruence. assert (w = w') as <- by congruence. congruence.
  - apply cache_ok; [done|]. intros t w r e held _ _ _. unfold invalidate_position.
    destruct (decide (fr_position r = (k, m))) as [->|Hne]; [right; apply lookup_delete_eq|left; by apply lookup_delete_ne].
Qed.

Definition floor_reach (c : Cache) (fl : Floor) : Prop := rtc floor_step (open_floor c) fl.

Lemma floor_reach_ok c fl : floor_reach c fl → floor_ok fl.
Proof.
  unfold floor_reach. revert fl. refine (rtc_ind_r _ _ _ _).
  - split; cbn; try (by intros *; rewrite lookup_empty). intros p t. rewrite lookup_empty.
    split; [done|]. intros (w & H & _). by rewrite lookup_empty in H.
  - intros fl1 fl2 _ Hst IH. by eapply floor_step_ok.
Qed.

(** ** Progress *)

Definition released (st : Stage) : bool := match st with Released _ => true | _ => false end.

Definition awaited (w : Worker) : option Position :=
  match wk_stage w with Acquiring _ (p :: _) => Some p | _ => None end.

#[local] Instance before_trans : Transitive before.
Proof. intros p q r [E1 H1] [E2 H2]. split; [congruence|by etransitivity]. Qed.

Lemma work_or_wait fl t w :
  floor_ok fl → fl_workers fl !! t = Some w → released (wk_stage w) = false →
  (∃ fl', work_step fl fl') ∨ ∃ p, awaited w = Some p ∧ is_Some (fl_locks fl !! p).
Proof.
  intros Hok Ht Hr. unfold awaited. destruct (wk_stage w) as [held [|p rest]|held l|out] eqn:Hs; [| | |done].
  - left. eexists. by eapply work_enter.
  - destruct (fl_locks fl !! p) as [t'|] eqn:Hp; [right; exists p; by rewrite Hp|left; eexists; by eapply work_acquire].
  - left. destruct (wk_job w) as [r|k ms] eqn:Hj.
    + destruct l as [e|]; [|eexists; by eapply (work_load _ _ _ _ _ None)].
      destruct (fold_result e r) as [[v out]|] eqn:Hf; eexists; [by eapply work_store|by eapply work_abort].
    + destruct l as [e|]; [|eexists; by eapply work_liquidated].
      destruct (fo_loaded _ Hok _ _ _ _ Ht Hs) as (r & Hr' & _). congruence.
Qed.

(** The worker that waits for the greatest position: whoever holds it waits for nothing. *)
Lemma not_stuck fl t w :
  floor_ok fl → fl_workers fl !! t = Some w → released (wk_stage w) = false → ∃ fl', work_step fl fl'.
Proof.
  intros Hok Ht Hr. destruct (work_or_wait fl t w Hok Ht Hr) as [?|(p0 & Hp0 & _)]; [done|].
  set (X := list_to_set (omap (λ e, awaited e.2) (map_to_list (fl_workers fl))) : gset Position).
  assert (HX : ∀ p, p ∈ X ↔ ∃ t' w', fl_workers fl !! t' = Some w' ∧ awaited w' = Some p).
  { intros p. unfold X. rewrite elem_of_list_to_set, list_elem_of_omap. split.
    - intros ([t' w'] & Hin & Ha). apply elem_of_map_to_list in Hin. eauto.
    - intros (t' & w' & Hin & Ha). exists (t', w'). by rewrite elem_of_map_to_list. }
  destruct (minimal_exists_elem_of_L (flip before) X) as (p & Hp & Hmin).
  { intros E. assert (p0 ∈ X) by (apply HX; eauto). set_solver. }
  apply HX in Hp as (t1 & w1 & Ht1 & Ha1).
  assert (Hr1 : released (wk_stage w1) = false) by (unfold awaited in Ha1; by destruct (wk_stage w1)).
  destruct (work_or_wait fl t1 w1 Hok Ht1 Hr1) as [?|(p' & Hp' & t2 & Hl)]; [done|]. simplify_eq.
  apply (fo_locks _ Hok) in Hl as (w2 & Ht2 & Hin).
  assert (Hr2 : released (wk_stage w2) = false) by (destruct (wk_stage w2); try done; by apply elem_of_nil in Hin).
  destruct (work_or_wait fl t2 w2 Hok Ht2 Hr2) as [?|(q & Hq & _)]; [done|exfalso].
  assert (Hpq : before p q).
  { unfold awaited in Hq. destruct (wk_stage w2) as [held [|q' rest]| |] eqn:Hs2; try done. injection Hq as ->.
    pose proof (fo_sorted _ Hok _ _ _ _ Ht2 Hs2) as Hsort. apply StronglySorted_app in Hsort as (H & _).
    apply (H p q); [done|by left]. }
  assert (HqX : q ∈ X) by (apply HX; eauto). specialize (Hmin q HqX Hpq). cbn in Hmin.
  destruct Hpq as [_ H1], Hmin as [_ H2]. by apply (irreflexivity lt p.2); etransitivity.
Qed.

(** ** Termination *)

Definition stage_effort (st : Stage) : nat :=
  match st with
  | Acquiring _ rest => length rest + 3
  | Critical _ None => 2
  | Critical _ (Some _) => 1
  | Released _ => 0
  end.
Definition effort (ws : gmap nat Worker) : nat := map_fold (λ _ w n, stage_effort (wk_stage w) + n)%nat 0%nat ws.

Lemma effort_insert ws t w w' :
  ws !! t = Some w → (effort (<[t := w']> ws) + stage_effort (wk_stage w) = effort ws + stage_effort (wk_stage w'))%nat.
Proof.
  intros Ht. unfold effort. rewrite <- (insert_delete_id ws t w) at 2 by done. rewrite <- insert_delete_eq.
  rewrite !map_fold_insert_L by (try apply lookup_delete_eq; intros; lia). lia.
Qed.

Lemma work_effort fl fl' : work_step fl fl' → (effort (fl_workers fl') < effort (fl_workers fl))%nat.
Proof.
  destruct 1 as [fl t w held p rest Ht Hs _|fl t w held Ht Hs|fl t w r held chain Ht _ Hs|
    fl t w r held e v out Ht _ Hs _|fl t w r held e Ht _ Hs _|fl t w k ms held Ht _ Hs];
    unfold set_stage; cbn [fl_workers];
    match goal with |- context [<[_ := ?w']> _] => pose proof (effort_insert _ _ _ w' Ht) as H end;
    rewrite Hs in H; cbn in H; lia.
Qed.

(** ** Theorems *)

(** C12: No fold is lost to another.  In any interleaving of folds, liquidations and evictions a
    position's lock has one holder; a fold about to write finds under its position what it read, or
    nothing; and when a read would still give what it read, its write and its result are those of the
    one-step [load_and_fold] of the cache as it is now. *)
Theorem no_fold_lost c fl :
  floor_reach c fl →
  (∀ t t' w w' p, fl_workers fl !! t = Some w → fl_workers fl !! t' = Some w' →
     p ∈ holds (wk_stage w) → p ∈ holds (wk_stage w') → t = t') ∧
  (∀ t w r held existing, fl_workers fl !! t = Some w → wk_job w = FoldJob r →
     wk_stage w = Critical held (Some existing) →
     (fl_cache fl !! fr_position r = existing ∨ fl_cache fl !! fr_position r = None) ∧
     ∀ load_sealed, load_single_market_state_cached load_sealed (fl_cache fl) (fr_key r) (fr_market r) = existing →
       load_and_fold load_sealed (fl_cache fl) (fr_key r) (fr_market r) (fr_is_buy r) (fr_price r) (fr_qty r)
         (fr_funding r) (fr_leverage r) (fr_extra r) =
       ('(v, out) ← fold_result existing r; Ret (set_entry (fr_position r) v (fl_cache fl), out))).
Proof.
  intros Hok%floor_reach_ok. split.
  - intros t t' w w' p Ht Ht' Hp Hp'. assert (fl_locks fl !! p = Some t) by (apply (fo_locks _ Hok); eauto).
    assert (fl_locks fl !! p = Some t') by (apply (fo_locks _ Hok); eauto). congruence.
  - intros t w r held e Ht Hj Hs. destruct (fo_loaded _ Hok _ _ _ _ Ht Hs) as (r' & Hr' & Hc).
    rewrite Hj in Hr'. injection Hr' as <-. split; [done|]. intros ls Hl. by rewrite load_and_fold_split, Hl.
Qed.

(** C17: The locks of positions never deadlock.  From any reachable state, a run of the workers' own
    steps is bounded, and one that cannot go on has released every lock: no set of folds and
    liquidations waits for one another. *)
Theorem position_locks_deadlock_free c fl n fl' :
  floor_reach c fl → nsteps work_step n fl fl' →
  (n ≤ effort (fl_workers fl))%nat ∧
  ((∀ fl2, ¬ work_step fl' fl2) → (∀ t w, fl_workers fl' !! t = Some w → released (wk_stage w) = true) ∧ fl_locks fl' = ∅).
Proof.
  intros Hok%floor_reach_ok Hn. split.
  - clear Hok. induction Hn as [fl|n fl1 fl2 fl3 Hst _ IH]; [lia|]. apply work_effort in Hst. lia.
  - assert (Hok' : floor_ok fl') by (induction Hn as [fl|n fl1 fl2 fl3 Hst _ IH]; [done|apply IH; by eapply work_step_ok]).
    intros Hstuck. assert (Hrel : ∀ t w, fl_workers fl' !! t = Some w → released (wk_stage w) = true).
    { intros t w Ht. destruct (released (wk_stage w)) eqn:Hr; [done|].
      destruct (not_stuck fl' t w Hok' Ht Hr) as [fl2 H]. by destruct (Hstuck fl2). }
    split; [exact Hrel|]. apply map_empty. intros p. destruct (fl_locks fl' !! p) as [t|] eqn:Hp; [|done].
    apply (fo_locks _ Hok') in Hp as (w & Ht & Hin). specialize (Hrel _ _ Ht). destruct (wk_stage w); try done.
    by apply elem_of_nil in Hin.
Qed.
End locks.

(** The order of Rust's strings. *)
Definition string_lt : relation MarketId := OrderedTypeEx.String_as_OT.lt.
#[export] Instance string_lt_strict : StrictOrder string_lt.
Proof.
  split; [intros x H; by apply (OrderedTypeEx.String_as_OT.lt_not_eq _ _ H)|].
  intros x y z. apply OrderedTypeEx.String_as_OT.lt_trans.
Qed.
#[export] Instance string_lt_dec : RelDecision string_lt.
Proof.
  intros x y. destruct (OrderedTypeEx.String_as_OT.compare x y) as [H|H|H]; [by left|right..].
  - intros H'. by apply (OrderedTypeEx.String_as_OT.lt_not_eq _ _ H').
  - intros H'. apply (irreflexivity string_lt x). by etransitivity.
Defined.

(** ** Concrete runs *)

Definition demo_request (is_buy : bool) (qty : Z) : FoldRequest :=
  {| fr_key := 7; fr_market := "EURC/USDC"; fr_is_buy := is_buy; fr_price := 100; fr_qty := qty;
     fr_funding := 0; fr_leverage := 10; fr_extra := 0 |}.

Inductive FloorMove :=
| FoldArrives (t : nat) (r : FoldRequest)
| LiquidationArrives (t : nat) (k : Key) (markets : list MarketId)
| Works (t : nat) (chain : option PortfolioMarketState)
| Evicts (k : Key) (m : MarketId).

Section runs.
Context `{I : I256}.

Definition sorted_names (l : list MarketId) : bool :=
  match l with [] => true | x :: l => fst (foldl (λ '(ok, p) y, (ok && bool_decide (string_lt p y), y)) (true, x) l) end.

Lemma sorted_names_ok l : sorted_names l = true → StronglySorted string_lt l.
Proof.
  assert (Hf : ∀ l p, fst (foldl (λ '(ok, p) y, (ok && bool_decide (string_lt p y), y)) (false, p) l) = false)
    by (clear; induction l; cbn; auto).
  intros H. apply Sorted_StronglySorted; [apply _|]. destruct l as [|x l]; [constructor|]. cbn in H. revert x H.
  induction l as [|y l IH]; intros x H; [repeat constructor|]. cbn in H.
  destruct (decide (string_lt x y)) as [Hxy|Hxy]; [rewrite bool_decide_eq_true_2 in H by done|
    rewrite bool_decide_eq_false_2 in H by done; cbn in H; by rewrite Hf in H].
  constructor; [by apply IH|by constructor].
Qed.

(** The next step of worker [t]; [chain] is what the chain would answer it. *)
Definition worker_move (fl : Floor) (t : nat) (chain : option PortfolioMarketState) : option Floor :=
  w ← fl_workers fl !! t;
  match wk_stage w, wk_job w with
  | Acquiring held (p :: rest), _ =>
      match fl_locks fl !! p with
      | Some _ => None
      | None => Some {| fl_cache := fl_cache fl; fl_locks := <[p := t]> (fl_locks fl);
                        fl_workers := set_stage fl t w (Acquiring (held ++ [p]) rest) |}
      end
  | Acquiring held [], _ =>
      Some {| fl_cache := fl_cache fl; fl_locks := fl_locks fl; fl_workers := set_stage fl t w (Critical held None) |}
  | Critical held None, FoldJob r =>
      Some {| fl_cache := fl_cache fl; fl_locks := fl_locks fl;
              fl_workers := set_stage fl t w (Critical held (Some
                (match fl_cache fl !! fr_position r with Some s => Some s | None => chain end))) |}
  | Critical held (Some existing), FoldJob r =>
      match fold_result existing r with
      | Ret (v, out) =>
          Some {| fl_cache := set_entry (fr_position r) v (fl_cache fl); fl_locks := release held (fl_locks fl);
                  fl_workers := set_stage fl t w (Released (Some out)) |}
      | Panic => None
      end
  | Critical held None, LiquidateJob _ _ =>
      Some {| fl_cache := fl_cache fl; fl_locks := release held (fl_locks fl);
              fl_workers := set_stage fl t w (Released None) |}
  | _, _ => None
  end.

Lemma worker_move_step fl t chain fl' : worker_move fl t chain = Some fl' → work_step fl fl'.
Proof.
  unfold worker_move. intros (w & Ht & H)%bind_Some.
  destruct (wk_stage w) as [held [|p rest]|held [e|]|out] eqn:Hs; destruct (wk_job w) as [r|k ms] eqn:Hj; try done;
    try (destruct (fl_locks fl !! p) eqn:Hp; [done|]); try (destruct (fold_result e r) as [[v out]|] eqn:Hf; [|done]);
    injection H as <-; by econstructor.
Qed.

Definition floor_move (fl : Floor) (mv : FloorMove) : option Floor :=
  match mv with
  | Works t chain => worker_move fl t chain
  | FoldArrives t r =>
      match fl_workers fl !! t with
      | Some _ => None
      | None => Some {| fl_cache := fl_cache fl; fl_locks := fl_locks fl;
          fl_workers := <[t := {| wk_job := FoldJob r; wk_stage := Acquiring [] [fr_position r] |}]> (fl_workers fl) |}
      end
  | LiquidationArrives t k ms =>
      match fl_workers fl !! t, sorted_names ms with
      | None, true => Some {| fl_cache := fl_cache fl; fl_locks := fl_locks fl;
          fl_workers := <[t := {| wk_job := LiquidateJob k ms; wk_stage := Acquiring [] (pair k <$> ms) |}]> (fl_workers fl) |}
      | _, _ => None
      end
  | Evicts k m => Some {| fl_cache := invalidate_position (fl_cache fl) k m; fl_locks := fl_locks fl;
                          fl_workers := fl_workers fl |}
  end.
Fixpoint floor_play (fl : Floor) (mvs : list FloorMove) : option Floor :=
  match mvs with [] => Some fl | mv :: mvs => fl ← floor_move fl mv; floor_play fl mvs end.

Lemma floor_play_reach c fl mvs fl' : floor_reach string_lt c fl → floor_play fl mvs = Some fl' → floor_reach string_lt c fl'.
Proof.
  revert fl. induction mvs as [|mv mvs IH]; intros fl Hr; cbn [floor_play]; [by intros [= <-]|].
  intros (fl1 & H1 & H)%bind_Some. apply (IH fl1); [|done]. eapply rtc_r; [exact Hr|].
  destruct mv as [t r|t k ms|t chain|k m]; cbn [floor_move] in H1.
  - destruct (fl_workers fl !! t) eqn:Ht; [done|]. injection H1 as <-. by apply floor_fold.
  - destruct (fl_workers fl !! t) eqn:Ht; [done|]. destruct (sorted_names ms) eqn:Hs; [|done]. injection H1 as <-.
    apply floor_liquidate; [done|by apply sorted_names_ok].
  - apply floor_work. by eapply worker_move_step.
  - injection H1 as <-. apply floor_invalidate.
Qed.
End runs.

(** Two folds of one position and a liquidation of two; the first fold has read and is about to write. *)
Definition busy_floor : list FloorMove :=
  [FoldArrives 0 (demo_request true 5); FoldArrives 1 (demo_request true 3);
   LiquidationArrives 2 7 ["EURC/USDC"; "GBP/USDC"]; FoldArrives 3 (demo_request false 2);
   Works 0 None; Works 0 None; Works 0 None].

Definition stage_of (fl : Floor) (t : nat) : option (list Position * option (option PortfolioMarketState)) :=
  w ← fl_workers fl !! t; match wk_stage w with Critical held l => Some (held, l) | _ => None end.

Lemma no_fold_lost_witness :
  ∃ fl w, floor_reach (I := checked_i256) string_lt ∅ fl ∧ fl_workers fl !! 0%nat = Some w ∧
    @load_and_fold checked_i256 (λ _ _, None) (fl_cache fl) 7 "EURC/USDC" true 100 5 0 10 0 =
      ('(v, out) ← @fold_result checked_i256 None (demo_request true 5);
       Ret (set_entry (7, "EURC/USDC") v (fl_cache fl), out)).
Proof.
  assert (Hv : (λ fl, (wk_job <$> fl_workers fl !! 0%nat, wk_stage <$> fl_workers fl !! 0%nat, fl_cache fl)) <$>
                 @floor_play checked_i256 (open_floor ∅) busy_floor =
               Some (Some (FoldJob (demo_request true 5)), Some (Critical [(7, "EURC/USDC")] (Some None)), ∅)) by by vm_compute.
  apply fmap_Some in Hv as (fl & Hfl & Hv). injection Hv as Hj Hs Hc.
  pose proof (@floor_play_reach checked_i256 ∅ _ _ _ (rtc_refl _ _) Hfl) as Hr. clear Hfl.
  destruct (fl_workers fl !! 0%nat) as [w|] eqn:Hw; [|done]. injection Hj as Hj. injection Hs as Hs.
  exists fl, w. split; [exact Hr|]. split; [done|].
  refine (proj2 (proj2 (no_fold_lost (I := checked_i256) string_lt ∅ fl Hr) 0%nat w (demo_request true 5) _ None Hw (eq_sym Hj) (eq_sym Hs))
           (λ _ _, None) _).
  rewrite <- Hc. done.
Defined.

Lemma position_locks_deadlock_free_witness :
  ∃ fl, floor_reach (I := checked_i256) string_lt ∅ fl ∧
    ∀ n fl', nsteps (@work_step checked_i256) n fl fl' → (n ≤ 16)%nat.
Proof.
  destruct (@floor_play checked_i256 (open_floor ∅) busy_floor) as [fl|] eqn:Hfl; [|by vm_compute in Hfl].
  assert (He : (λ fl, effort (fl_workers fl)) <$> @floor_play checked_i256 (open_floor ∅) busy_floor = Some 14%nat) by by vm_compute.
  rewrite Hfl in He. injection He as He.
  pose proof (@floor_play_reach checked_i256 ∅ _ _ _ (rtc_refl _ _) Hfl) as Hr. clear Hfl.
  exists fl. split; [exact Hr|]. intros n fl' Hn.
  pose proof (proj1 (position_locks_deadlock_free (I := checked_i256) string_lt ∅ fl n fl' Hr Hn)). lia.
Defined.

(** An eviction between a fold's read and its write is undone by the write: the position that was to
    be read again from the chain is back in the cache, with the fill folded onto it. *)
Definition evicted_schedule : list FloorMove :=
  [FoldArrives 0 (demo_request true 5); Works 0 None; Works 0 None; Works 0 None; Works 0 None;
   FoldArrives 1 (demo_request true 3); Works 1 None; Works 1 None; Works 1 None; Evicts 7 "EURC/USDC"; Works 1 None].

Lemma eviction_undone :
  (λ fl, pm_signed_size <$> fl_cache fl !! (7, "EURC/USDC")) <$> @floor_play checked_i256 (open_floor ∅) evicted_schedule =
    Some (Some 8).
Proof. by vm_compute. Qed.

(** A position closed in this process is forgotten, and the next fold reads it from the chain, where
    the transaction that closes it may not be mined: the closed size comes back. *)
Definition chain_long (k : Key) (m : MarketId) : option (SealedBlob * Z) :=
  Some (Sealed {| side_is_buy := true; sp_entry_price := 100; sp_size := 5; sp_leverage := 10;
                  sp_take_profit := None; sp_stop_loss := None; sp_entry_funding_index := 0 |}, 50).

Lemma closed_position_returns :
  (λ r, pm_signed_size <$> r.1 !! (7, "EURC/USDC")) <$>
    ('(cache, _) ← @load_and_fold checked_i256 chain_long ∅ 7 "EURC/USDC" false 100 5 0 10 0;
     @load_and_fold checked_i256 chain_long cache 7 "EURC/USDC" true 100 2 0 10 0) = Ret (Some 7).
Proof. by vm_compute. Qed.
