(* ===== verification/Liquidation.v ===== *)
(** * The collateral gate and liquidation sizing ([crates/cerdic-tee-matcher/src/api.rs])

    What stands between an order and the book ([check_deposited_collateral]), the margin evaluation
    of a loaded portfolio ([compute_margin]) and how much of a breached portfolio one liquidation
    closes ([size_liquidation_legs]).  Definitions only; the theorems are in [LiquidationProps]. *)
From S2P Require Import Prelude Ints Types U256 I256 Risk Positions.
Open Scope Z_scope.

Definition LIQUIDATION_REWARD_BPS : Z := 50.
Definition LIQUIDATION_SAFETY_BUFFER_BPS : Z := 1000.

Inductive OrderSide := Buy | Sell.
Definition common_side (s : OrderSide) : Side := match s with Buy => Long | Sell => Short end.

#[export] Instance SealedParams_eq_dec : EqDecision SealedParams.
Proof. solve_decision. Defined.
#[export] Instance PortfolioMarketState_eq_dec : EqDecision PortfolioMarketState.
Proof. solve_decision. Defined.

(** [settle::LiquidationLegDelta]: on-chain market, collateral delta, re-sealed remainder. *)
Record LiquidationLegDelta := { ld_market_id : Z; ld_collateral_delta : Z; ld_sealed_params : SealedBlob }.

Abbreviation MarketIndex := (gmap Key (gset MarketId)) (only parsing).

(** The refusal carries both amounts; the code renders them with [format_usd]. *)
Record InsufficientCollateral := { required_usd : Z; available_usd : Z }.

Section liquidation.
Context `{U : U256} `{I : I256} (load_sealed : Key → MarketId → option (SealedBlob * Z)).

(** ** Loading *)

Definition load_portfolio_state (index : MarketIndex) (cache : gmap (Key * MarketId) PortfolioMarketState)
    (k : Key) (market_hints : list MarketId) : MarketIndex * list PortfolioMarketState :=
  let entry := default ∅ (index !! k) ∪ list_to_set market_hints in
  (<[k := entry]> index,
   omap (load_single_market_state_cached load_sealed cache k) (elements entry)).

(** ** The gate *)

(** One position's locked collateral, in dollars scaled by [1e18]. *)
Definition locked_collateral (m : PortfolioMarketState) : Z :=
  let raw := as_u128 (Z.max (default 0 (i128_try_from (pm_collateral m))) 0) in
  sat_u 128 (raw * USD_SCALE) / price_scale_for_market (pm_market_id m).

Definition opening_quantity (existing_signed_size : Z) (side : OrderSide) (qty : Z) : Z :=
  let order_signed := match side with Buy => qty | Sell => - qty end in
  let closing_qty :=
    if decide (existing_signed_size ≠ 0 ∧ Z.sgn existing_signed_size ≠ Z.sgn order_signed)
    then Z.min qty (as_u64 (Z.abs existing_signed_size)) else 0 in
  sat_u 64 (qty - closing_qty).

(** [deposited] is the answer of the collateral read, [None] when it failed. *)
Definition check_deposited_collateral (collateral_check : option (Address * Address))
    (existing : list PortfolioMarketState) (deposited : option Z) (market_id : MarketId)
    (side : OrderSide) (tick qty lev : Z) : result unit InsufficientCollateral :=
  match collateral_check with
  | None => Ok ()
  | Some _ =>
      let locked_usd := foldl u128_add 0 (locked_collateral <$> existing) in
      let existing_signed_size :=
        default 0 (pm_signed_size <$> head (filter (λ m, pm_market_id m = market_id) existing)) in
      let opening_qty := opening_quantity existing_signed_size side qty in
      if decide (opening_qty = 0) then Ok ()
      else
        let new_order_usd := required_margin_usd tick opening_qty market_id lev in
        let required := sat_u 128 (locked_usd + new_order_usd) in
        match deposited with
        | None => Ok ()
        | Some balance =>
            let deposited_usd := default u128_max (try_u 128 balance) in
            if decide (deposited_usd < required)
            then Err {| required_usd := required; available_usd := deposited_usd |}
            else Ok ()
        end
  end.

(** ** Margin of a loaded portfolio *)

Definition position_of (m : PortfolioMarketState) : PositionState :=
  {| market_id := pm_market_id m; size := sat_s 128 (pm_signed_size m * SCALE) |}.

Definition mark_price_of (live_prices : gmap MarketId Z) (m : PortfolioMarketState) : Z :=
  default (pm_entry_price m) (live_prices !! pm_market_id m).

(** [collect] into a map: a later entry of the same market replaces an earlier one. *)
Definition mark_prices (live_prices : gmap MarketId Z) (states : list PortfolioMarketState) :
    gmap MarketId Z :=
  foldl (λ prices m, <[pm_market_id m := mark_price_of live_prices m]> prices) ∅ states.

Definition collateral_floor (m : PortfolioMarketState) : Z :=
  as_u128 (Z.max (default 0 (i128_try_from (pm_collateral m))) 0).

Definition compute_margin (states : list PortfolioMarketState) (live_prices : gmap MarketId Z) :
    exec (result MarginResult RiskError) :=
  Risk.compute_margin
    {| positions := position_of <$> states;
       effective_collateral := foldl u128_add 0 (collateral_floor <$> states) |}
    (mark_prices live_prices states).

(** ** Sizing *)

Definition close_bps (margin : MarginResult) : Z :=
  let m := margin_requirement margin in
  let deficit := sat_u 128 (m - mr_effective_collateral margin) in
  let f_min_bps := if decide (m = 0) then 10000 else div_ceil (u128_mul deficit 10000) m in
  Z.min (sat_u 128 (f_min_bps + LIQUIDATION_SAFETY_BUFFER_BPS)) 10000.

(** A leg closed outright: the cache forgets it and nothing is re-sealed. *)
Definition full_close (cache : gmap (Key * MarketId) PortfolioMarketState) (k : Key) (market_hash : Z)
    (m : PortfolioMarketState) (current_tick current_funding : Z) :
    gmap (Key * MarketId) PortfolioMarketState * LiquidationLegDelta :=
  let size_abs := Z.abs (pm_signed_size m) in
  let close_size := Z.min size_abs u64_max in
  let delta := realized_close_delta (pm_signed_size m) (pm_entry_price m) (pm_entry_funding_index m)
                 close_size current_tick current_funding in
  (delete (k, pm_market_id m) cache,
   {| ld_market_id := market_hash; ld_collateral_delta := delta; ld_sealed_params := EmptyBytes |}).

Definition size_leg (onchain_market_id : MarketId → Z) (k : Key) (bps : Z)
    (live_prices funding_indices : gmap MarketId Z)
    (cache : gmap (Key * MarketId) PortfolioMarketState) (m : PortfolioMarketState) :
    exec (gmap (Key * MarketId) PortfolioMarketState * LiquidationLegDelta) :=
  let market_hash := onchain_market_id (pm_market_id m) in
  let size_abs := Z.abs (pm_signed_size m) in
  let current_tick := as_u64 (mark_price_of live_prices m) in
  let current_funding := default (pm_entry_funding_index m) (funding_indices !! pm_market_id m) in
  if decide (10000 ≤ bps ∨ size_abs = 0)
  then Ret (full_close cache k market_hash m current_tick current_funding)
  else
    let close_size := u128_mul size_abs bps / 10000 in
    let remaining_size := wrapu 128 (size_abs - close_size) in
    if decide (close_size = 0 ∨ remaining_size = 0)
    then Ret (full_close cache k market_hash m current_tick current_funding)
    else
      let delta := realized_close_delta (pm_signed_size m) (pm_entry_price m)
                     (pm_entry_funding_index m) (as_u64 close_size) current_tick current_funding in
      let remaining_signed_size := if decide (0 ≤ pm_signed_size m) then as_i128 remaining_size
                                   else i128_neg (as_i128 remaining_size) in
      remaining_collateral ← i256_add (pm_collateral m) delta;
      let remaining_params :=
        {| side_is_buy := bool_decide (0 < pm_signed_size m); sp_entry_price := pm_entry_price m;
           sp_size := as_u64 remaining_size; sp_leverage := pm_leverage m;
           sp_take_profit := pm_take_profit m; sp_stop_loss := pm_stop_loss m;
           sp_entry_funding_index := pm_entry_funding_index m |} in
      Ret (<[(k, pm_market_id m) :=
               {| pm_market_id := pm_market_id m; pm_signed_size := remaining_signed_size;
                  pm_entry_price := pm_entry_price m; pm_collateral := remaining_collateral;
                  pm_leverage := pm_leverage m; pm_take_profit := pm_take_profit m;
                  pm_stop_loss := pm_stop_loss m;
                  pm_entry_funding_index := pm_entry_funding_index m |}]> cache,
           {| ld_market_id := market_hash; ld_collateral_delta := delta;
              ld_sealed_params := Sealed remaining_params |}).

Fixpoint size_legs (onchain_market_id : MarketId → Z) (k : Key) (bps : Z)
    (live_prices funding_indices : gmap MarketId Z)
    (cache : gmap (Key * MarketId) PortfolioMarketState) (states : list PortfolioMarketState) :
    exec (gmap (Key * MarketId) PortfolioMarketState * list LiquidationLegDelta) :=
  match states with
  | [] => Ret (cache, [])
  | m :: states =>
      '(cache, leg) ← size_leg onchain_market_id k bps live_prices funding_indices cache m;
      '(cache, legs) ← size_legs onchain_market_id k bps live_prices funding_indices cache states;
      Ret (cache, leg :: legs)
  end.

Definition size_liquidation_legs (onchain_market_id : MarketId → Z)
    (cache : gmap (Key * MarketId) PortfolioMarketState) (k : Key)
    (states : list PortfolioMarketState) (margin : MarginResult)
    (live_prices funding_indices : gmap MarketId Z) :
    exec (gmap (Key * MarketId) PortfolioMarketState * list LiquidationLegDelta * Z) :=
  let bps := close_bps margin in
  '(cache, legs) ← size_legs onchain_market_id k bps live_prices funding_indices cache states;
  Ret (cache, legs, bps).

(** The keeper's reward: [LIQUIDATION_REWARD_BPS] of the collateral, scaled by the closed part. *)
Definition liquidator_reward (margin : MarginResult) (bps : Z) : exec Z :=
  a ← u256_mul (mr_effective_collateral margin) LIQUIDATION_REWARD_BPS;
  a ← u256_div a BPS_DENOMINATOR;
  a ← u256_mul a bps;
  u256_div a 10000.


(** ** The liquidation handler *)

(** [settle::LiquidationSweep]. *)
Record LiquidationSweep := {
  ls_portfolio_key : Key;
  ls_margin_requirement : Z;
  ls_legs : list LiquidationLegDelta;
  ls_liquidator : Address;
  ls_liquidator_reward : Z;
}.

Definition with_legs (sweep : LiquidationSweep) (legs : list LiquidationLegDelta) : LiquidationSweep :=
  {| ls_portfolio_key := ls_portfolio_key sweep;
     ls_margin_requirement := ls_margin_requirement sweep; ls_legs := legs;
     ls_liquidator := ls_liquidator sweep; ls_liquidator_reward := ls_liquidator_reward sweep |}.

(** The legs of a sweep by resolved contract; a leg with none is skipped. *)
Definition group_legs (market_contracts : gmap Z Address) (legs : list LiquidationLegDelta) :
    gmap Address (list LiquidationLegDelta) :=
  foldl (λ groups leg,
    match market_contracts !! ld_market_id leg with
    | Some contract => <[contract := default [] (groups !! contract) ++ [leg]]> groups
    | None => groups
    end) ∅ legs.

(** [settle::liquidate_sealed]: one call per contract; [broadcast] is the third-party provider,
    answering the transaction hash of a call that went out. *)
Definition liquidate_sealed (broadcast : Address → LiquidationSweep → option Z)
    (sweep : LiquidationSweep) (market_contracts : gmap Z Address) : list (option Z) :=
  (λ '(contract, legs), broadcast contract (with_legs sweep legs))
    <$> map_to_list (group_legs market_contracts (ls_legs sweep)).

Record LiquidateResponse := { executed : bool; tx_hashes : list Z }.
Definition not_executed : LiquidateResponse := {| executed := false; tx_hashes := [] |}.

(** The part of [AppState] the handler touches. *)
Record LiquidationState := {
  l_index : MarketIndex;
  l_cache : gmap (Key * MarketId) PortfolioMarketState;
}.

(** [post_liquidate] on a decoded request.  The markets found are re-read under their locks in
    sorted order; [sort] is any sorting of the names. *)
Definition post_liquidate (sort : list MarketId → list MarketId)
    (onchain : MarketId → Z) (settlement_contracts : gmap MarketId Address)
    (live_mark_prices : list MarketId → gmap MarketId Z) (funding_indices : gmap MarketId Z)
    (broadcast : Address → LiquidationSweep → option Z)
    (st : LiquidationState) (k : Key) (liquidator : Address) (market_hints : list MarketId) :
    exec (LiquidationState * result LiquidateResponse RiskError) :=
  let '(index, discovered) := load_portfolio_state (l_index st) (l_cache st) k market_hints in
  let st := {| l_index := index; l_cache := l_cache st |} in
  if decide (discovered = []) then Ret (st, Ok not_executed)
  else
    let market_ids := sort (pm_market_id <$> discovered) in
    let states := omap (load_single_market_state_cached load_sealed (l_cache st) k) market_ids in
    if decide (states = []) then Ret (st, Ok not_executed)
    else
      let live_prices := live_mark_prices market_ids in
      r ← compute_margin states live_prices;
      match r with
      | Err e => Ret (st, Err e)
      | Ok margin =>
          if negb (maintenance_breached margin) then Ret (st, Ok not_executed)
          else
            '(cache, legs, bps) ← size_liquidation_legs onchain (l_cache st) k states margin
                                    live_prices funding_indices;
            reward ← liquidator_reward margin bps;
            let sweep := {| ls_portfolio_key := k; ls_margin_requirement := margin_requirement margin;
                            ls_legs := legs; ls_liquidator := liquidator;
                            ls_liquidator_reward := reward |} in
            let market_contracts :=
              list_to_map ((λ '(m, c), (onchain m, c)) <$> map_to_list settlement_contracts) in
            let results := liquidate_sealed broadcast sweep market_contracts in
            let cache := if bool_decide (None ∈ results)
                         then foldl (λ c m, invalidate_position c k m) cache market_ids
                         else cache in
            let hashes := omap id results in
            Ret ({| l_index := l_index st; l_cache := cache |},
                 Ok {| executed := negb (bool_decide (hashes = [])); tx_hashes := hashes |})
      end.
End liquidation.

(** [onchain_market_id]: the configured override, else the hash of the name. *)
Definition onchain_market_id (overrides : gmap MarketId Z) (keccak256 : MarketId → Z)
    (market_id : MarketId) : Z := default (keccak256 market_id) (overrides !! market_id).
