(* ===== verification/LiquidationProps.v ===== *)
(** * Properties of the collateral gate and of liquidation sizing

    When the gate lets an order through, the margin of a loaded portfolio in closed form, and how
    much of a breached portfolio a liquidation closes. *)
From S2P Require Import Prelude Ints Types U256 I256 Risk RiskProps Positions PositionProps Liquidation.
Open Scope Z_scope.

(** ** Specification *)

(** The part of an order that goes beyond flattening the position it meets. *)
Definition opening_spec (s : Z) (side : OrderSide) (qty : Z) : Z :=
  match side with
  | Buy => if decide (s < 0) then Z.max 0 (qty - Z.abs s) else qty
  | Sell => if decide (0 < s) then Z.max 0 (qty - Z.abs s) else qty
  end.

Definition locked_spec (m : PortfolioMarketState) : Z :=
  Z.max 0 (pm_collateral m) * USD_SCALE / price_scale_for_market (pm_market_id m).
Definition held_size (existing : list PortfolioMarketState) (market_id : MarketId) : Z :=
  default 0 (pm_signed_size <$> head (filter (λ m, pm_market_id m = market_id) existing)).

(** A position with its mark inside the ranges of [PositionProps]. *)
Record leg_ok (live_prices funding : gmap MarketId Z) (m : PortfolioMarketState) : Prop := {
  lo_fold : fold_ok (from_existing (Some m) 0);
  lo_collateral : Z.abs (pm_collateral m) < 2 ^ 100;
  lo_mark : 0 ≤ mark_price_of live_prices m < 2 ^ 50;
  lo_funding : Z.abs (default (pm_entry_funding_index m) (funding !! pm_market_id m)) < 2 ^ 62;
}.

Definition states_ok (live_prices funding : gmap MarketId Z) (states : list PortfolioMarketState) : Prop :=
  Forall (leg_ok live_prices funding) states ∧ NoDup (pm_market_id <$> states) ∧
  Z.of_nat (length states) < 2 ^ 20.

(** Maintenance margin of [q] units at the position's mark. *)
Definition maintenance (live_prices : gmap MarketId Z) (m : PortfolioMarketState) (q : Z) : Z :=
  q * mark_price_of live_prices m * MMR_BPS / 10000.
Definition free_collateral (m : PortfolioMarketState) : Z := Z.max 0 (pm_collateral m).

(** How much of a position a liquidation at [bps] closes. *)
Definition closed_size (bps : Z) (m : PortfolioMarketState) : Z :=
  let a := Z.abs (pm_signed_size m) in
  let c := a * bps / 10000 in
  if decide (10000 ≤ bps ∨ c = 0 ∨ c = a) then a else c.

Definition leg_fill (live_prices funding : gmap MarketId Z) (m : PortfolioMarketState) (q : Z) : Fill :=
  {| fl_buy := bool_decide (pm_signed_size m < 0); fl_price := mark_price_of live_prices m; fl_qty := q;
     fl_funding := default (pm_entry_funding_index m) (funding !! pm_market_id m) |}.
(** What closing that much realizes. *)
Definition leg_pnl (live_prices funding : gmap MarketId Z) (bps : Z) (m : PortfolioMarketState) : Z :=
  close_pnl (from_existing (Some m) 0) (leg_fill live_prices funding m (closed_size bps m))
    (closed_size bps m).

(** What one leg leaves of its position. *)
Definition after_leg (live_prices funding : gmap MarketId Z) (bps : Z) (m : PortfolioMarketState) :
    option PortfolioMarketState :=
  if decide (closed_size bps m = Z.abs (pm_signed_size m)) then None
  else Some {| pm_market_id := pm_market_id m;
               pm_signed_size :=
                 Z.sgn (pm_signed_size m) * (Z.abs (pm_signed_size m) - closed_size bps m);
               pm_entry_price := pm_entry_price m;
               pm_collateral := pm_collateral m + leg_pnl live_prices funding bps m;
               pm_leverage := pm_leverage m; pm_take_profit := pm_take_profit m;
               pm_stop_loss := pm_stop_loss m;
               pm_entry_funding_index := pm_entry_funding_index m |}.

Definition leg_spec (onchain : MarketId → Z) (live_prices funding : gmap MarketId Z) (bps : Z)
    (m : PortfolioMarketState) : LiquidationLegDelta :=
  {| ld_market_id := onchain (pm_market_id m);
     ld_collateral_delta := leg_pnl live_prices funding bps m;
     ld_sealed_params := match after_leg live_prices funding bps m with
                         | Some m' => Sealed (sealed_params_of m')
                         | None => EmptyBytes
                         end |}.

(** The cache after every leg. *)
Definition cache_after (k : Z) (live_prices funding : gmap MarketId Z) (bps : Z)
    (cache : gmap (Z * MarketId) PortfolioMarketState) (states : list PortfolioMarketState) :
    gmap (Z * MarketId) PortfolioMarketState :=
  foldl (λ c m, match after_leg live_prices funding bps m with
                | Some m' => <[(k, pm_market_id m) := m']> c
                | None => delete (k, pm_market_id m) c
                end) cache states.

(** A long of 100 opened at 100, marked at 97, with 200 of collateral. *)
Definition underwater : list PortfolioMarketState :=
  [{| pm_market_id := "BTC"; pm_signed_size := 100; pm_entry_price := 100; pm_collateral := 200;
      pm_leverage := 20; pm_take_profit := None; pm_stop_loss := None; pm_entry_funding_index := 0 |}].
Definition underwater_prices : gmap MarketId Z := {["BTC" := 97]}.

(** ** The gate *)

Lemma opening_quantity_exact s side qty :
  Z.abs s < 2 ^ 64 → in_u 64 qty → opening_quantity s side qty = opening_spec s side qty.
Proof.
  intros Hs Hq. unfold opening_quantity, opening_spec, as_u64.
  rewrite wrapu_small by int_range. unfold sat_u.
  destruct side; destruct (Z.sgn_spec s) as [[? Hs']|[[? Hs']|[? Hs']]]; rewrite Hs';
    [destruct (Z.sgn_spec qty) as [[? Hq']|[[? Hq']|[? Hq']]]
    |destruct (Z.sgn_spec qty) as [[? Hq']|[[? Hq']|[? Hq']]]
    |destruct (Z.sgn_spec qty) as [[? Hq']|[[? Hq']|[? Hq']]]
    |destruct (Z.sgn_spec (- qty)) as [[? Hq']|[[? Hq']|[? Hq']]]
    |destruct (Z.sgn_spec (- qty)) as [[? Hq']|[[? Hq']|[? Hq']]]
    |destruct (Z.sgn_spec (- qty)) as [[? Hq']|[[? Hq']|[? Hq']]]];
    rewrite Hq'; unfold in_u in Hq; repeat case_decide; lia.
Qed.

Lemma price_scale_pos m : 100 ≤ price_scale_for_market m ≤ 100000.
Proof. unfold price_scale_for_market. case_decide; lia. Qed.

Lemma locked_exact `{!I256Laws J} m :
  Z.abs (pm_collateral m) < 2 ^ 64 → locked_collateral m = locked_spec m ∧ 0 ≤ locked_spec m < 2 ^ 124.
Proof.
  intros Hc. unfold locked_collateral, locked_spec. rewrite i128_try_from_exact by int_range.
  rewrite try_s_in by int_range. cbn [default from_option id]. unfold as_u128.
  rewrite (wrapu_small 128) by int_range. rewrite (Z.max_comm (pm_collateral m)).
  pose proof (price_scale_pos (pm_market_id m)). unfold sat_u, USD_SCALE.
  assert (0 ≤ Z.max 0 (pm_collateral m) * 1000000000000000000 < 2 ^ 124) by lia.
  rewrite Z.min_l, Z.max_r by lia. split; [done|].
  split; [apply Z.div_pos; lia|apply Z.div_lt_upper_bound; nia].
Qed.

Lemma u128_sum_map {A} (g h : A → Z) l :
  Forall (λ x, g x = h x ∧ 0 ≤ h x) l → sumZ (h <$> l) < 2 ^ 128 →
  foldl u128_add 0 (g <$> l) = sumZ (h <$> l).
Proof.
  intros Hl Hb.
  assert (∀ a, 0 ≤ a → a + sumZ (h <$> l) < 2 ^ 128 →
    foldl u128_add a (g <$> l) = a + sumZ (h <$> l)) as H; [|by apply H].
  clear Hb. induction Hl as [|x l [E Hx] Hl IH]; intros a Ha Hb; [cbn; lia|].
  rewrite !fmap_cons, !sumZ_cons in *. cbn [foldl]. rewrite E.
  assert (0 ≤ sumZ (h <$> l)).
  { apply sumZ_nonneg, Forall_fmap. eapply Forall_impl; [exact Hl|]. cbn. tauto. }
  unfold u128_add at 2. rewrite wrapu_small by int_range. rewrite IH by lia. lia.
Qed.

Lemma gate_exact `{!I256Laws J} check existing deposited m side tick qty lev :
  Forall (λ p, Z.abs (pm_collateral p) < 2 ^ 64 ∧ Z.abs (pm_signed_size p) < 2 ^ 62) existing →
  sumZ (locked_spec <$> existing) < 2 ^ 127 → in_u 64 qty →
  check_deposited_collateral (Some check) existing deposited m side tick qty lev =
    let opening := opening_spec (held_size existing m) side qty in
    let required := sat_u 128 (sumZ (locked_spec <$> existing) + required_margin_usd tick opening m lev) in
    match deposited with
    | Some balance =>
        if decide (opening ≠ 0 ∧ default u128_max (try_u 128 balance) < required)
        then Err {| required_usd := required; available_usd := default u128_max (try_u 128 balance) |}
        else Ok ()
    | None => Ok ()
    end.
Proof.
  intros He Hsum Hq. unfold check_deposited_collateral. fold (held_size existing m).
  assert (Z.abs (held_size existing m) < 2 ^ 64) as Hh.
  { unfold held_size. destruct (head (filter _ existing)) as [p|] eqn:E; [|cbn; lia].
    apply head_Some_elem_of, list_elem_of_filter in E as [_ Hin].
    rewrite Forall_forall in He. destruct (He p Hin). cbn. lia. }
  rewrite opening_quantity_exact by done. rewrite (u128_sum_map _ locked_spec); [|
    eapply Forall_impl; [exact He|]; cbn; intros p [Hc _];
    destruct (locked_exact p Hc) as [-> [? _]]; done|lia].
  cbv zeta. destruct (decide (opening_spec _ _ _ = 0)) as [E|E].
  { destruct deposited; [|done]. rewrite decide_False by tauto. done. }
  destruct deposited as [b|]; [|done].
  destruct (decide (default u128_max (try_u 128 b) < _)).
  - rewrite decide_True by done. done.
  - rewrite decide_False by tauto. done.
Qed.

(** ** Sizing *)

Lemma close_bps_exact margin :
  0 ≤ mr_effective_collateral margin < margin_requirement margin →
  margin_requirement margin < 2 ^ 110 →
  let bps := close_bps margin in
  1000 ≤ bps ≤ 10000 ∧
  (bps < 10000 → margin_requirement margin * (11000 - bps) ≤ 10000 * mr_effective_collateral margin).
Proof.
  set (M := margin_requirement margin). set (C := mr_effective_collateral margin).
  intros HC HM. unfold close_bps. fold M C. unfold LIQUIDATION_SAFETY_BUFFER_BPS.
  rewrite decide_False by lia.
  assert (sat_u 128 (M - C) = M - C) as -> by (unfold sat_u; lia).
  unfold u128_mul. rewrite wrapu_small by int_range.
  pose proof (div_ceil_spec ((M - C) * 10000) M ltac:(lia) ltac:(lia)) as Hd.
  set (f := div_ceil ((M - C) * 10000) M) in *.
  assert (0 < f ≤ 10000) as Hf by nia.
  unfold sat_u. split; [lia|]. intros Hlt. nia.
Qed.

Lemma closed_size_bounds bps m :
  0 ≤ bps ≤ 10000 → 0 ≤ closed_size bps m ≤ Z.abs (pm_signed_size m) ∧
  (pm_signed_size m ≠ 0 → 0 < closed_size bps m) ∧
  10000 * (Z.abs (pm_signed_size m) - closed_size bps m)
    ≤ Z.abs (pm_signed_size m) * (10000 - bps) + 9999.
Proof.
  intros Hb. unfold closed_size. set (a := Z.abs (pm_signed_size m)).
  assert (0 ≤ a) by (unfold a; lia).
  pose proof (Z.mul_div_le (a * bps) 10000 ltac:(lia)).
  pose proof (Z.mul_succ_div_gt (a * bps) 10000 ltac:(lia)).
  assert (0 ≤ a * bps / 10000 ≤ a) by (split; [apply Z.div_pos; nia|apply Z.div_le_upper_bound; nia]).
  case_decide as Hd; [nia|]. split; [lia|]. split; [lia|]. nia.
Qed.

Section sizing.
Context `{!I256Laws J} (onchain : MarketId → Z) (k : Z) (live_prices funding : gmap MarketId Z).

Lemma leg_fill_ok m q :
  leg_ok live_prices funding m → 0 < q ≤ Z.abs (pm_signed_size m) →
  fill_ok (leg_fill live_prices funding m q).
Proof.
  intros [[Hs _ _ _] _ Hm Hf] Hq. cbn in Hs. split; cbn; [done|lia|done].
Qed.

Lemma leg_realized m q :
  leg_ok live_prices funding m → pm_signed_size m ≠ 0 → 0 < q ≤ Z.abs (pm_signed_size m) →
  realized_close_delta (pm_signed_size m) (pm_entry_price m) (pm_entry_funding_index m) q
    (as_u64 (mark_price_of live_prices m)) (default (pm_entry_funding_index m) (funding !! pm_market_id m))
    = close_pnl (from_existing (Some m) 0) (leg_fill live_prices funding m q) q ∧
  Z.abs (close_pnl (from_existing (Some m) 0) (leg_fill live_prices funding m q) q) < 2 ^ 126.
Proof.
  intros Hok Hnz Hq.
  pose proof (realized_close_exact (from_existing (Some m) 0) (leg_fill live_prices funding m q) q
    (lo_fold _ _ _ Hok) (leg_fill_ok m q Hok Hq) Hnz Hq) as [H1 H2].
  split; [|done]. rewrite <- H1. cbn. unfold as_u64.
  rewrite wrapu_small by (pose proof (lo_mark _ _ _ Hok); int_range). done.
Qed.

Lemma full_close_exact m cache :
  leg_ok live_prices funding m →
  full_close cache k (onchain (pm_market_id m)) m (as_u64 (mark_price_of live_prices m))
    (default (pm_entry_funding_index m) (funding !! pm_market_id m)) =
    (delete (k, pm_market_id m) cache,
     {| ld_market_id := onchain (pm_market_id m);
        ld_collateral_delta := close_pnl (from_existing (Some m) 0)
          (leg_fill live_prices funding m (Z.abs (pm_signed_size m))) (Z.abs (pm_signed_size m));
        ld_sealed_params := EmptyBytes |}).
Proof.
  intros Hok. unfold full_close. pose proof (fo_size _ (lo_fold _ _ _ Hok)) as Hs. cbn in Hs.
  rewrite Z.min_l by (unfold u64_max; lia). do 2 f_equal.
  destruct (decide (pm_signed_size m = 0)) as [E|Hnz].
  - rewrite E. unfold close_pnl. cbn. rewrite E. done.
  - by apply leg_realized; [| |lia].
Qed.

Lemma size_leg_exact bps m cache :
  1000 ≤ bps ≤ 10000 → leg_ok live_prices funding m →
  size_leg onchain k bps live_prices funding cache m =
    Ret (match after_leg live_prices funding bps m with
         | Some m' => <[(k, pm_market_id m) := m']> cache
         | None => delete (k, pm_market_id m) cache
         end, leg_spec onchain live_prices funding bps m).
Proof.
  intros Hb Hok. pose proof (fo_size _ (lo_fold _ _ _ Hok)) as Hs. cbn in Hs.
  unfold size_leg. cbv zeta. rewrite full_close_exact by done.
  unfold leg_spec, after_leg, leg_pnl, closed_size. set (a := Z.abs (pm_signed_size m)) in *.
  assert (0 ≤ a * bps / 10000 ≤ a) by (split; [apply Z.div_pos; nia|apply Z.div_le_upper_bound; nia]).
  destruct (decide (10000 ≤ bps ∨ a = 0)) as [Hf|Hf].
  { rewrite (decide_True (P := 10000 ≤ bps ∨ _)) by (destruct Hf as [?| ->]; [tauto|auto]).
    by rewrite decide_True. }
  unfold u128_mul. rewrite (wrapu_small 128 (a * bps)) by (unfold in_u; nia).
  rewrite (wrapu_small 128 (a - _)) by int_range.
  destruct (decide (a * bps / 10000 = 0 ∨ a - a * bps / 10000 = 0)) as [Hz|Hz].
  { rewrite (decide_True (P := 10000 ≤ bps ∨ _)) by (destruct Hz; [tauto|right; right; lia]).
    by rewrite decide_True. }
  rewrite (decide_False (P := 10000 ≤ bps ∨ _)) by lia.
  set (c := a * bps / 10000) in *. rewrite (decide_False (P := c = a)) by lia.
  assert (0 < c ≤ a) as Hc by lia.
  destruct (leg_realized m c Hok) as [Hr Hrb]; [unfold a in *; lia|unfold a in *; lia|].
  assert (as_u64 c = c) as Ec by (unfold as_u64; apply wrapu_small; int_range). rewrite Ec, Hr.
  pose proof (lo_collateral _ _ _ Hok). rewrite i256_add_Ret by lia.
  cbv beta iota delta [mbind exec_bind]. unfold as_i128, i128_neg.
  rewrite (wraps_small 128 (a - c)) by int_range.
  assert ((if decide (0 ≤ pm_signed_size m) then a - c else wraps 128 (- (a - c)))
          = Z.sgn (pm_signed_size m) * (a - c)) as ->.
  { case_decide; [rewrite Z.sgn_pos by (unfold a in *; lia)
      |rewrite wraps_small, Z.sgn_neg by (unfold a in *; int_range)]; lia. }
  do 3 f_equal. unfold sealed_params_of.
  cbn [pm_signed_size pm_entry_price pm_leverage pm_take_profit pm_stop_loss pm_entry_funding_index].
  f_equal. f_equal.
  - apply bool_decide_ext. destruct (Z.sgn_spec (pm_signed_size m)) as [[? ->]|[[? ->]|[? ->]]]; unfold a in *; lia.
  - f_equal. destruct (Z.sgn_spec (pm_signed_size m)) as [[? ->]|[[? ->]|[? ->]]]; unfold a in *; lia.
Qed.

Lemma size_legs_exact bps states cache :
  1000 ≤ bps ≤ 10000 → Forall (leg_ok live_prices funding) states →
  size_legs onchain k bps live_prices funding cache states =
    Ret (cache_after k live_prices funding bps cache states,
         leg_spec onchain live_prices funding bps <$> states).
Proof.
  intros Hb Hok. revert cache. induction Hok as [|m states Hm Hok IH]; intros cache; [done|].
  cbn [size_legs]. rewrite size_leg_exact by done. rewrite ret_bind, IH. done.
Qed.

(** Each market's entry of the resulting cache is its own leg's. *)
Lemma cache_after_lookup bps states cache m :
  NoDup (pm_market_id <$> states) → m ∈ states →
  cache_after k live_prices funding bps cache states !! (k, pm_market_id m)
    = after_leg live_prices funding bps m.
Proof.
  revert cache. induction states as [|m0 states IH]; intros cache Hnd Hin; [by apply elem_of_nil in Hin|].
  rewrite fmap_cons in Hnd. apply NoDup_cons in Hnd as [Hn Hnd].
  apply elem_of_cons in Hin as [->|Hin]; [|by apply IH].
  unfold cache_after. cbn [foldl]. fold (cache_after k live_prices funding bps
    (match after_leg live_prices funding bps m0 with
     | Some m' => <[(k, pm_market_id m0) := m']> cache
     | None => delete (k, pm_market_id m0) cache end) states).
  assert (∀ c, cache_after k live_prices funding bps c states !! (k, pm_market_id m0)
               = c !! (k, pm_market_id m0)) as ->.
  { clear IH Hnd. induction states as [|m1 states IH]; intros c; [done|].
    rewrite fmap_cons, not_elem_of_cons in Hn. destruct Hn as [Hne Hn].
    unfold cache_after in *. cbn [foldl]. rewrite (IH Hn).
    destruct (after_leg _ _ _ m1); [apply lookup_insert_ne|apply lookup_delete_ne]; congruence. }
  destruct (after_leg _ _ _ m0); [apply lookup_insert_eq|apply lookup_delete_eq].
Qed.
End sizing.

(** ** Margin of a loaded portfolio *)

Definition requirement (live_prices : gmap MarketId Z) (states : list PortfolioMarketState) : Z :=
  sumZ ((λ m, maintenance live_prices m (Z.abs (pm_signed_size m))) <$> states).
Definition free (states : list PortfolioMarketState) : Z := sumZ (free_collateral <$> states).

Lemma maintenance_range live_prices funding m q :
  leg_ok live_prices funding m → 0 ≤ q < 2 ^ 62 → 0 ≤ maintenance live_prices m q < 2 ^ 107 ∧
  q * mark_price_of live_prices m * MMR_BPS ≤ 10000 * maintenance live_prices m q + 9999 ∧
  10000 * maintenance live_prices m q ≤ q * mark_price_of live_prices m * MMR_BPS.
Proof.
  intros [_ _ Hm _] Hq. unfold maintenance, MMR_BPS.
  set (p := mark_price_of live_prices m) in *. assert (0 ≤ q * p ≤ 2 ^ 62 * 2 ^ 50) by nia.
  pose proof (Z.mul_div_le (q * p * 300) 10000 ltac:(lia)).
  pose proof (Z.mul_succ_div_gt (q * p * 300) 10000 ltac:(lia)).
  split; [split; [apply Z.div_pos; lia|apply Z.div_lt_upper_bound; lia]|lia].
Qed.

Lemma mark_prices_lookup live_prices states m :
  NoDup (pm_market_id <$> states) → m ∈ states →
  mark_prices live_prices states !! pm_market_id m = Some (mark_price_of live_prices m).
Proof.
  unfold mark_prices. induction states as [|m0 states IH] using rev_ind; intros Hnd Hin;
    [by apply elem_of_nil in Hin|].
  rewrite foldl_app. cbn [foldl]. rewrite fmap_app, NoDup_app in Hnd.
  destruct Hnd as (Hnd & Hdis & _).
  apply elem_of_app in Hin as [Hin| ->%list_elem_of_singleton]; [|by rewrite lookup_insert_eq].
  rewrite lookup_insert_ne; [by apply IH|]. intros E. apply (Hdis (pm_market_id m)).
  - by apply list_elem_of_fmap_2.
  - rewrite <- E. by left.
Qed.

Lemma mark_prices_Forall (P : Z → Prop) live_prices states :
  Forall (λ m, P (mark_price_of live_prices m)) states →
  map_Forall (λ _ x, P x) (mark_prices live_prices states).
Proof.
  unfold mark_prices. induction states as [|m states IH] using rev_ind; intros Hf; [apply map_Forall_empty|].
  apply Forall_app in Hf as [Hf [Hm _]%Forall_cons]. rewrite foldl_app. cbn [foldl].
  apply map_Forall_insert_2; [done|by apply IH].
Qed.

Lemma scaled_term s p :
  s * SCALE * p * MMR_BPS / (SCALE * Risk.BPS_DENOMINATOR) = s * p * MMR_BPS / 10000.
Proof.
  unfold SCALE, Risk.BPS_DENOMINATOR, MMR_BPS.
  replace (s * 1000000000000000000 * p * 300) with (1000000000000000000 * (s * p * 300)) by ring.
  apply Z.div_mul_cancel_l; lia.
Qed.

Lemma sum_lt {A} (g : A → Z) b l :
  Forall (λ x, 0 ≤ g x < b) l → 0 ≤ sumZ (g <$> l) ≤ Z.of_nat (length l) * b.
Proof. induction 1; [done|]. rewrite fmap_cons, sumZ_cons, length_cons. lia. Qed.

Lemma compute_margin_exact `{!U256Laws U, !I256Laws J} live_prices funding states :
  states_ok live_prices funding states →
  compute_margin states live_prices =
    Ret (Ok {| margin_requirement := requirement live_prices states;
               mr_effective_collateral := free states;
               maintenance_breached := bool_decide (free states < requirement live_prices states) |}) ∧
  0 ≤ requirement live_prices states < 2 ^ 128 ∧ 0 ≤ free states < 2 ^ 128.
Proof.
  intros (Hok & Hnd & Hlen). pose proof Hok as Hok'. rewrite Forall_forall in Hok'.
  assert (∀ m, m ∈ states → Z.abs (pm_signed_size m) < 2 ^ 62) as Hsz.
  { intros m Hm. apply (fo_size _ (lo_fold _ _ _ (Hok' m Hm))). }
  assert (Forall (λ m, position_of m = {| market_id := pm_market_id m; size := pm_signed_size m * SCALE |}
            ∧ in_s 128 (pm_signed_size m * SCALE)) states) as Hpos.
  { apply Forall_forall. intros m Hm%Hsz. unfold position_of, SCALE, sat_s in *. split; [|int_range].
    f_equal. lia. }
  assert (requirement live_prices states = sumZ (isolated_term (mark_prices live_prices states)
            <$> (position_of <$> states)) ∧
          omap (position_fault (mark_prices live_prices states)) (position_of <$> states) = []) as [Hreq Hfault].
  { assert (∀ l, (∀ m, m ∈ l → m ∈ states) →
      requirement live_prices l = sumZ (isolated_term (mark_prices live_prices states) <$> (position_of <$> l)) ∧
      omap (position_fault (mark_prices live_prices states)) (position_of <$> l) = []) as H; [|by apply H].
    rewrite Forall_forall in Hpos.
    induction l as [|m l IH]; intros Hl; [done|].
    destruct (IH ltac:(intros; apply Hl; by right)) as [IH1 IH2].
    assert (m ∈ states) as Hm by (apply Hl; by left).
    destruct (Hpos m Hm) as [Ep _]. pose proof (mark_prices_lookup live_prices states m Hnd Hm) as Hpr.
    pose proof (lo_mark _ _ _ (Hok' m Hm)) as Hmk.
    unfold requirement. rewrite !fmap_cons, !sumZ_cons. fold (requirement live_prices l). rewrite IH1.
    rewrite Ep. split.
    - f_equal. unfold maintenance, isolated_term, price_of. cbn [market_id size]. rewrite Hpr.
      cbn [default from_option id]. rewrite Z.abs_mul, (Z.abs_eq SCALE), scaled_term by done. done.
    - cbn [omap list_omap]. rewrite IH2. unfold position_fault. cbn [market_id size].
      destruct (decide (pm_signed_size m * SCALE = 0)); [done|]. rewrite Hpr.
      rewrite decide_False; [done|]. pose proof (Hsz m Hm). rewrite Z.abs_mul.
      assert (Z.abs (pm_signed_size m) * Z.abs SCALE * mark_price_of live_prices m
              ≤ 2 ^ 62 * 2 ^ 60 * 2 ^ 50) as Hb.
      { apply Z.mul_le_mono_nonneg; [| |lia|lia].
        - apply Z.mul_nonneg_nonneg; lia.
        - apply Z.mul_le_mono_nonneg; [lia|lia|done|by vm_compute]. }
      unfold MMR_BPS. lia. }
  assert (Forall (λ m, 0 ≤ maintenance live_prices m (Z.abs (pm_signed_size m)) < 2 ^ 107) states) as Hmt.
  { apply Forall_forall. intros m Hm. pose proof (Hsz m Hm).
    apply (maintenance_range _ _ _ _ (Hok' m Hm)). lia. }
  pose proof (sum_lt _ _ _ Hmt) as Hreqb.
  fold (requirement live_prices states) in Hreqb.
  assert (Forall (λ m, collateral_floor m = free_collateral m ∧ 0 ≤ free_collateral m < 2 ^ 100) states) as Hcol.
  { apply Forall_forall. intros m Hm. pose proof (lo_collateral _ _ _ (Hok' m Hm)).
    unfold collateral_floor, free_collateral. rewrite i128_try_from_exact by int_range.
    rewrite try_s_in by int_range. cbn [default from_option id]. unfold as_u128.
    rewrite wrapu_small by int_range. lia. }
  pose proof (sum_lt free_collateral (2 ^ 100) states
    ltac:(eapply Forall_impl; [exact Hcol|cbn; tauto])) as Hfree. fold (free states) in Hfree.
  split; [|lia].
  unfold compute_margin, Risk.compute_margin. cbn [positions effective_collateral].
  rewrite requirement_exact.
  - unfold requirement_spec. rewrite Hfault, <- Hreq. rewrite decide_True by lia. cbn [try_bind].
    rewrite (u128_sum_map _ free_collateral); [done| |unfold free in Hfree; lia].
    eapply Forall_impl; [exact Hcol|cbn; intuition lia].
  - apply (mark_prices_Forall (in_u 128)). eapply Forall_impl; [exact Hok|].
    intros m Hm. pose proof (lo_mark _ _ _ Hm). cbn. int_range.
  - apply Forall_fmap. eapply Forall_impl; [exact Hpos|]. intros m [E ?].
    change (in_s 128 (size (position_of m))). by rewrite E.
  - rewrite length_fmap. lia.
Qed.

(** ** What a liquidation leaves *)

Definition remaining (live_prices funding : gmap MarketId Z) (bps : Z)
    (states : list PortfolioMarketState) : list PortfolioMarketState :=
  omap (after_leg live_prices funding bps) states.
Definition mark_total (live_prices : gmap MarketId Z) (states : list PortfolioMarketState) : Z :=
  sumZ (mark_price_of live_prices <$> states).

Lemma remaining_leg live_prices funding bps m :
  leg_ok live_prices funding m → 0 ≤ bps ≤ 10000 →
  100000000 * requirement live_prices (remaining live_prices funding bps [m])
    ≤ (10000 - bps) * (10000 * maintenance live_prices m (Z.abs (pm_signed_size m)) + 9999)
      + 9999 * 300 * mark_price_of live_prices m.
Proof.
  intros Hok Hb. pose proof (fo_size _ (lo_fold _ _ _ Hok)) as Hs. cbn in Hs.
  destruct (closed_size_bounds bps m Hb) as (Hc & _ & Hrem).
  pose proof (lo_mark _ _ _ Hok) as Hm.
  destruct (maintenance_range _ _ m (Z.abs (pm_signed_size m)) Hok ltac:(lia)) as ([H0 _] & Hle & _).
  unfold remaining. cbn [omap list_omap]. unfold after_leg.
  destruct (decide (closed_size bps m = Z.abs (pm_signed_size m))) as [E|E].
  { change (requirement live_prices []) with 0. nia. }
  unfold requirement. rewrite fmap_cons, sumZ_cons. change (sumZ (_ <$> [])) with 0. rewrite Z.add_0_r.
  set (m' := Build_PortfolioMarketState _ _ _ _ _ _ _ _).
  set (r := Z.abs (pm_signed_size m) - closed_size bps m) in *.
  assert (Z.abs (pm_signed_size m') = r) as ->.
  { unfold m', r in *. cbn. destruct (Z.sgn_spec (pm_signed_size m)) as [[? ->]|[[? ->]|[? ->]]]; lia. }
  change (maintenance live_prices m' r) with (maintenance live_prices m r).
  destruct (maintenance_range _ _ m r Hok ltac:(unfold r; lia)) as (_ & _ & Hge).
  unfold MMR_BPS in *. set (p := mark_price_of live_prices m) in *. set (a := Z.abs (pm_signed_size m)) in *.
  assert (10000 * r * (p * 300) ≤ (a * (10000 - bps) + 9999) * (p * 300)) by
    (apply Z.mul_le_mono_nonneg_r; lia).
  assert ((10000 - bps) * (a * p * 300) ≤ (10000 - bps) * (10000 * maintenance live_prices m a + 9999)) by
    (apply Z.mul_le_mono_nonneg_l; lia).
  lia.
Qed.

Lemma requirement_remaining live_prices funding bps states :
  Forall (leg_ok live_prices funding) states → 0 ≤ bps ≤ 10000 →
  100000000 * requirement live_prices (remaining live_prices funding bps states)
    ≤ (10000 - bps) * (10000 * requirement live_prices states + 9999 * Z.of_nat (length states))
      + 9999 * 300 * mark_total live_prices states.
Proof.
  intros Hok Hb. induction Hok as [|m states Hm Hok IH]; [cbn; lia|].
  pose proof (remaining_leg live_prices funding bps m Hm Hb) as H1.
  unfold remaining in *. cbn [omap list_omap] in *. unfold mark_total in *.
  unfold requirement in H1 |- *. rewrite !fmap_cons, !sumZ_cons, length_cons.
  fold (requirement live_prices states). fold (requirement live_prices states) in IH.
  destruct (after_leg live_prices funding bps m) as [m'|].
  - rewrite fmap_cons, sumZ_cons in H1 |- *. change (sumZ (_ <$> [])) with 0 in H1.
    unfold requirement in IH. unfold requirement. lia.
  - change (sumZ (_ <$> [])) with 0 in H1. unfold requirement in IH. unfold requirement. lia.
Qed.

Lemma remaining_full live_prices funding bps states :
  10000 ≤ bps → remaining live_prices funding bps states = [].
Proof.
  intros Hb. unfold remaining. induction states as [|m states IH]; [done|].
  cbn [omap list_omap]. rewrite IH. unfold after_leg, closed_size.
  rewrite (decide_True (P := 10000 ≤ bps ∨ _)) by auto. by rewrite decide_True.
Qed.

Lemma underwater_ok : states_ok underwater_prices ∅ underwater.
Proof.
  split; [|split; [apply NoDup_singleton|by vm_compute]].
  apply Forall_cons; split; [|constructor].
  split; [split; vm_compute; intuition congruence|by vm_compute|split; by vm_compute|by vm_compute].
Qed.

(** ** Properties *)

(** C13: The collateral gate.  Without a configured contract every order passes.  Otherwise only
    the part of an order beyond flattening the trader's position in that market is charged: a pure
    close or reduction always passes, whatever is deposited, an unavailable balance passes, and an
    order that opens size passes exactly when the deposit covers the dollars already locked in all
    positions plus the margin of the opening part; the refusal reports exactly those two amounts.
    The margin of an order is the exact formula for sane ticks, it never decreases with size, and
    less leverage never needs less of it. *)
Theorem collateral_gate_correct `{!I256Laws J} check existing deposited m side tick qty lev :
  Forall (λ p, Z.abs (pm_collateral p) < 2 ^ 64 ∧ Z.abs (pm_signed_size p) < 2 ^ 62) existing →
  sumZ (locked_spec <$> existing) < 2 ^ 127 → in_u 64 qty → 0 ≤ tick < 2 ^ 50 →
  let opening := opening_spec (held_size existing m) side qty in
  let required := sat_u 128 (sumZ (locked_spec <$> existing) + required_margin_usd tick opening m lev) in
  check_deposited_collateral None existing deposited m side tick qty lev = Ok () ∧
  check_deposited_collateral (Some check) existing deposited m side tick qty lev =
    match deposited with
    | Some balance =>
        if decide (opening ≠ 0 ∧ default u128_max (try_u 128 balance) < required)
        then Err {| required_usd := required; available_usd := default u128_max (try_u 128 balance) |}
        else Ok ()
    | None => Ok ()
    end ∧
  0 ≤ opening ≤ qty ∧
  required_margin tick opening lev = margin_spec tick opening lev ∧
  (∀ q, 0 ≤ q ≤ opening → required_margin tick q lev ≤ required_margin tick opening lev) ∧
  (∀ lev', lev ≤ lev' → required_margin tick opening lev' ≤ required_margin tick opening lev).
Proof.
  intros He Hsum Hq Ht opening required.
  assert (0 ≤ opening ≤ qty) as Ho.
  { unfold opening, opening_spec. unfold in_u in Hq. destruct side; case_decide; lia. }
  assert (∀ q l, 0 ≤ q ≤ opening → required_margin tick q l = margin_spec tick q l) as Hex.
  { intros q l Hql. apply required_margin_exact; unfold in_u in Hq; nia. }
  split; [done|]. split; [by apply gate_exact|]. split; [done|]. split; [by apply Hex; lia|].
  split.
  - intros q Hql. rewrite !Hex by lia. pose proof (imr_range lev). unfold margin_spec.
    set (imr := BPS_DENOMINATOR / clamp lev 1 MAX_LEVERAGE) in *.
    apply Z.div_le_mono; [by vm_compute|]. apply Z.mul_le_mono_nonneg_r; [lia|].
    apply Z.mul_le_mono_nonneg_l; lia.
  - intros lev' Hl. rewrite !Hex by lia. unfold margin_spec.
    apply Z.div_le_mono; [by vm_compute|]. apply Z.mul_le_mono_nonneg_l; [nia|].
    apply Z.div_le_compat_l; unfold BPS_DENOMINATOR, clamp, MAX_LEVERAGE; lia.
Qed.

Lemma collateral_gate_correct_witness :
  check_deposited_collateral (I := checked_i256) (Some (1, 2)) underwater (Some 0) "BTC" Sell 97 100 20 = Ok () ∧
  is_err (check_deposited_collateral (I := checked_i256) (Some (1, 2)) underwater (Some (3 * USD_SCALE))
            "BTC" Sell 9700 160 20) = true.
Proof.
  assert (Forall (λ p, Z.abs (pm_collateral p) < 2 ^ 64 ∧ Z.abs (pm_signed_size p) < 2 ^ 62) underwater)
    as He by (apply Forall_cons; split; [split; by vm_compute|constructor]).
  destruct (@collateral_gate_correct checked_i256 _ (1, 2) underwater (Some 0) "BTC" Sell 97 100 20
    He ltac:(by vm_compute) ltac:(by vm_compute) ltac:(lia)) as (_ & H1 & _).
  destruct (@collateral_gate_correct checked_i256 _ (1, 2) underwater (Some (3 * USD_SCALE)) "BTC" Sell 9700 160 20
    He ltac:(by vm_compute) ltac:(by vm_compute) ltac:(lia)) as (_ & H2 & _).
  split; [refine (eq_trans H1 _)|refine (eq_trans (f_equal is_err H2) _)]; vm_compute; reflexivity.
Defined.

(** C15: How much a liquidation closes.  For a breached portfolio in range, sizing succeeds with
    one fraction of at least 10 percent for every leg, whose complement of the requirement is
    covered by the collateral with the buffer to spare; each leg closes that fraction (rounded
    down) or everything when nothing meaningful would remain, realizes exactly the closed part's
    price and funding move, re-seals what is left on the same side and leaves the cache agreeing.
    If the closed parts did not cost collateral and the portfolio is larger than the rounding of
    one unit per leg, what remains is no longer breached. *)
Theorem liquidation_sizing_correct `{!U256Laws U, !I256Laws J} onchain cache k states live_prices funding margin :
  states_ok live_prices funding states →
  compute_margin states live_prices = Ret (Ok margin) → maintenance_breached margin = true →
  margin_requirement margin < 2 ^ 110 →
  let bps := close_bps margin in
  let left := remaining live_prices funding bps states in
  ∃ cache',
    size_liquidation_legs onchain cache k states margin live_prices funding =
      Ret (cache', leg_spec onchain live_prices funding bps <$> states, bps) ∧
    1000 ≤ bps ≤ 10000 ∧
    (bps < 10000 →
       margin_requirement margin * (11000 - bps) ≤ 10000 * mr_effective_collateral margin) ∧
    (∀ m, m ∈ states → cache' !! (k, pm_market_id m) = after_leg live_prices funding bps m ∧
       (pm_signed_size m ≠ 0 → 0 < closed_size bps m ≤ Z.abs (pm_signed_size m))) ∧
    (9999 * Z.of_nat (length states) + 300 * mark_total live_prices states
       ≤ 1000 * margin_requirement margin →
     free states ≤ free left → states_ok live_prices funding left →
     ∃ r, compute_margin left live_prices = Ret (Ok r) ∧ maintenance_breached r = false).
Proof.
  intros Hok Hm Hbr HM bps left.
  destruct (compute_margin_exact live_prices funding states Hok) as (He & [Hr0 _] & [Hf0 _]).
  rewrite He in Hm. injection Hm as <-. cbn [margin_requirement mr_effective_collateral maintenance_breached] in *.
  apply bool_decide_eq_true in Hbr. destruct Hok as (Hlegs & Hnd & Hlen).
  destruct (close_bps_exact {| margin_requirement := requirement live_prices states;
    mr_effective_collateral := free states;
    maintenance_breached := bool_decide (free states < requirement live_prices states) |} (conj Hf0 Hbr) HM) as [Hb Hcov].
  fold bps in Hb, Hcov. cbn [margin_requirement mr_effective_collateral] in Hcov.
  exists (cache_after k live_prices funding bps cache states).
  split; [|split; [done|split; [done|split]]].
  - unfold size_liquidation_legs. fold bps. rewrite size_legs_exact by done. done.
  - intros m Hin. split; [by apply cache_after_lookup|].
    destruct (closed_size_bounds bps m ltac:(lia)) as (? & Hpos & _). intros Hnz%Hpos. lia.
  - intros Hslack Hfree Hleft. destruct (compute_margin_exact live_prices funding left Hleft) as (-> & _).
    eexists. split; [done|]. cbn. apply bool_decide_eq_false. apply Z.le_ngt.
    transitivity (free states); [|done].
    pose proof (requirement_remaining live_prices funding bps states Hlegs ltac:(lia)) as Hrem. fold left in Hrem.
    assert (0 ≤ mark_total live_prices states).
    { apply sumZ_nonneg, Forall_fmap. eapply Forall_impl; [exact Hlegs|]. intros m Hmm. apply (lo_mark _ _ _ Hmm). }
    destruct (decide (bps < 10000)) as [Hlt|Hge]; [specialize (Hcov Hlt); nia|].
    unfold left. rewrite remaining_full by lia. done.
Qed.

Lemma liquidation_sizing_correct_witness :
  ∃ cache' legs, size_liquidation_legs (I := checked_i256) (λ _, 7) ∅ 1 underwater
    {| margin_requirement := 291; mr_effective_collateral := 200; maintenance_breached := true |}
    underwater_prices ∅ = Ret (cache', legs, 4128).
Proof.
  destruct (@liquidation_sizing_correct checked_u256 _ checked_i256 _ (λ _, 7) ∅ 1 underwater underwater_prices ∅
    {| margin_requirement := 291; mr_effective_collateral := 200; maintenance_breached := true |}
    underwater_ok ltac:(vm_compute; reflexivity) eq_refl ltac:(by vm_compute)) as (cache' & Hs & _).
  eexists cache', _. exact Hs.
Defined.

(** A liquidation can leave the portfolio breached.  The fraction is computed from the
    collateral before the close, so a realized loss is not accounted for: a long of 100 opened at
    100 and marked at 97 with 200 of collateral is closed to 59 units in one call, and the remaining
    position still fails the same margin test. *)
Theorem liquidation_can_leave_breached :
  ∃ margin cache' legs bps m r,
    compute_margin (U := checked_u256) (I := checked_i256) underwater underwater_prices = Ret (Ok margin) ∧
    maintenance_breached margin = true ∧
    size_liquidation_legs (I := checked_i256) (λ _, 7) ∅ 1 underwater margin underwater_prices ∅
      = Ret (cache', legs, bps) ∧ bps < 10000 ∧
    cache' !! (1, "BTC") = Some m ∧ pm_signed_size m = 59 ∧
    compute_margin (U := checked_u256) (I := checked_i256) [m] underwater_prices = Ret (Ok r) ∧
    maintenance_breached r = true.
Proof.
  do 6 eexists. split; [vm_compute; reflexivity|]. split; [reflexivity|].
  split; [vm_compute; reflexivity|]. split; [reflexivity|]. split; [vm_compute; reflexivity|].
  split; [reflexivity|]. split; [vm_compute; reflexivity|]. reflexivity.
Qed.
