(* ===== verification/Text.v ===== *)
(** * Text and bytes

    Strings as lists of ASCII characters, the methods of [str] and of the integer types that the
    code parses and prints with, and the bytes of integers. *)
From stdpp Require Import pretty.
From S2P Require Import Prelude Ints.
Open Scope Z_scope.

(** ** Strings *)

Abbreviation Bytes := (list Ascii.ascii) (only parsing).

Definition into_bytes (s : string) : Bytes := String.list_ascii_of_string s.

(** The decimal of an integer ([{}] in a format string). *)
Definition fmt_u64 (n : Z) : Bytes := into_bytes (pretty n).

Definition byte_value (a : Ascii.ascii) : Z := Z.of_N (Ascii.N_of_ascii a).

(** A character is an ASCII one or a code point; its [code] is what the methods of [char] look at. *)
Class Char (A : Type) := code : A → Z.
#[export] Instance ascii_char : Char Ascii.ascii := byte_value.
#[export] Instance code_point : Char Z := λ c, c.

Definition comma : Ascii.ascii := Ascii.ascii_of_N 44.
Definition equals : Ascii.ascii := Ascii.ascii_of_N 61.

Section str.
Context {A : Type} `{EqDecision A} `{Char A}.
Implicit Types (a c : A) (s : list A).

(** [char::is_whitespace]: the Unicode property [White_Space]. *)
Definition is_whitespace a : bool :=
  let n := code a in
  bool_decide (9 ≤ n ≤ 13) || bool_decide (n ∈ [32; 133; 160; 5760; 8232; 8233; 8239; 8287; 12288])
  || bool_decide (8192 ≤ n ≤ 8202).

(** [str::split] by a character: one piece more than separators. *)
Fixpoint split c s : list (list A) :=
  match s with
  | [] => [[]]
  | a :: s =>
      if decide (a = c) then [] :: split c s
      else match split c s with
           | piece :: pieces => (a :: piece) :: pieces
           | [] => [[a]]
           end
  end.

(** [str::split_once]: around the first occurrence. *)
Fixpoint split_once c s : option (list A * list A) :=
  match s with
  | [] => None
  | a :: s =>
      if decide (a = c) then Some ([], s)
      else match split_once c s with
           | Some (l, r) => Some (a :: l, r)
           | None => None
           end
  end.

Fixpoint trim_start s : list A :=
  match s with
  | [] => []
  | a :: s' => if is_whitespace a then trim_start s' else s
  end.
Definition trim s : list A := reverse (trim_start (reverse (trim_start s))).

(** [char::to_digit], for a radix of at most 16. *)
Definition to_digit (radix : Z) a : option Z :=
  let n := code a in
  let d := if decide (48 ≤ n ≤ 57) then n - 48 else if decide (97 ≤ n ≤ 102) then n - 87
           else if decide (65 ≤ n ≤ 70) then n - 55 else radix in
  if decide (d < radix) then Some d else None.

Definition push_digit (radix : Z) (acc : option Z) a : option Z :=
  v ← acc; d ← to_digit radix a;
  let v := radix * v + d in if decide (v ≤ u64_max) then Some v else None.

(** [u64::from_str_radix]: an optional plus sign and at least one digit. *)
Definition from_str_radix (radix : Z) s : option Z :=
  match s with
  | [] => None
  | a :: rest =>
      let digits := if decide (code a = 43) then rest else s in
      if decide (digits = []) then None else foldl (push_digit radix) (Some 0) digits
  end.

(** [str::parse::<u64>]. *)
Definition parse_u64 : list A → option Z := from_str_radix 10.

(** [str::parse::<i64>]: the magnitude may reach [2^63] behind a minus sign. *)
Definition parse_i64 s : option Z :=
  match s with
  | [] => None
  | a :: rest =>
      let digits := if decide (code a = 43 ∨ code a = 45) then rest else s in
      if decide (digits = []) then None
      else
        v ← foldl (push_digit 10) (Some 0) digits;
        try_s 64 (if decide (code a = 45) then - v else v)
  end.
End str.

(** ** UTF-8 *)

(** The payload of a continuation byte. *)
Definition continuation (a : Ascii.ascii) : option Z :=
  let n := byte_value a in if decide (128 ≤ n ≤ 191) then Some (n - 128) else None.

(** [char] is a Unicode scalar value: no surrogate. *)
Definition is_scalar (c : Z) : Prop := 0 ≤ c ≤ 55295 ∨ 57344 ≤ c ≤ 1114111.
#[export] Instance is_scalar_dec c : Decision (is_scalar c).
Proof. unfold is_scalar. apply _. Defined.

(** [str::from_utf8]: shortest forms of scalar values only. *)
Fixpoint from_utf8 (s : Bytes) : option (list Z) :=
  match s with
  | [] => Some []
  | a :: s1 =>
      let n := byte_value a in
      if decide (n < 128) then cons n <$> from_utf8 s1
      else match s1 with
      | [] => None
      | b1 :: s2 =>
          x1 ← continuation b1;
          if decide (192 ≤ n ≤ 223) then
            let c := 64 * (n - 192) + x1 in
            if decide (128 ≤ c) then cons c <$> from_utf8 s2 else None
          else match s2 with
          | [] => None
          | b2 :: s3 =>
              x2 ← continuation b2;
              if decide (224 ≤ n ≤ 239) then
                let c := 4096 * (n - 224) + 64 * x1 + x2 in
                if decide (2048 ≤ c ∧ is_scalar c) then cons c <$> from_utf8 s3 else None
              else match s3 with
              | [] => None
              | b3 :: s4 =>
                  x3 ← continuation b3;
                  if decide (240 ≤ n ≤ 247) then
                    let c := 262144 * (n - 240) + 4096 * x1 + 64 * x2 + x3 in
                    if decide (65536 ≤ c ∧ is_scalar c) then cons c <$> from_utf8 s4 else None
                  else None
              end
          end
      end
  end.

(** [str::as_bytes]. *)
Definition byte (n : Z) : Ascii.ascii := Ascii.ascii_of_N (Z.to_N n).
Definition char_to_utf8 (c : Z) : Bytes :=
  if decide (c < 128) then [byte c]
  else if decide (c < 2048) then [byte (192 + c / 64); byte (128 + c mod 64)]
  else if decide (c < 65536) then
    [byte (224 + c / 4096); byte (128 + c / 64 mod 64); byte (128 + c mod 64)]
  else
    [byte (240 + c / 262144); byte (128 + c / 4096 mod 64); byte (128 + c / 64 mod 64); byte (128 + c mod 64)].
Definition to_utf8 (s : list Z) : Bytes := s ≫= char_to_utf8.

(** [u8::to_ascii_lowercase] and [eq_ignore_ascii_case]. *)
Definition to_ascii_lowercase (a : Ascii.ascii) : Ascii.ascii :=
  let n := Ascii.N_of_ascii a in if decide (65 ≤ n ≤ 90)%N then Ascii.ascii_of_N (n + 32) else a.
Definition eq_ignore_ascii_case (s t : Bytes) : bool :=
  bool_decide (to_ascii_lowercase <$> s = to_ascii_lowercase <$> t).

(** ** Integers as bytes *)

(** [to_be_bytes] of a [w]-byte integer, most significant byte first. *)
Fixpoint to_be_bytes (w : nat) (n : Z) : list Z :=
  match w with
  | O => []
  | S w => to_be_bytes w (n / 256) ++ [n mod 256]
  end.

(** ** Lemmas: strings *)

Lemma into_bytes_app s t : into_bytes (s +:+ t) = into_bytes s ++ into_bytes t.
Proof. induction s as [|a s IH]; [done|]. change (a :: into_bytes (s +:+ t) = a :: into_bytes s ++ into_bytes t). by rewrite IH. Qed.

#[export] Instance into_bytes_inj : Inj (=) (=) into_bytes.
Proof.
  intros s t H. rewrite <- (String.string_of_list_ascii_of_string s),
    <- (String.string_of_list_ascii_of_string t). by f_equal.
Qed.

Section str_lemmas.
Context {A : Type} `{EqDecision A} `{Char A}.
Implicit Types (a c : A) (s t b : list A).

Definition blank (s : list A) : Prop := Forall (λ a, is_whitespace a = true) s.

Lemma split_app c s t : c ∉ s → split c (s ++ c :: t) = s :: split c t.
Proof.
  induction s as [|a s IH]; intros Hc; cbn [app split]; [by rewrite decide_True|].
  apply not_elem_of_cons in Hc as [Ha Hc]. rewrite decide_False by done. by rewrite IH.
Qed.

Lemma split_one c s : c ∉ s → split c s = [s].
Proof.
  induction s as [|a s IH]; intros Hc; cbn [split]; [done|].
  apply not_elem_of_cons in Hc as [Ha Hc]. rewrite decide_False by done. by rewrite IH.
Qed.

Lemma split_once_app c s t : c ∉ s → split_once c (s ++ c :: t) = Some (s, t).
Proof.
  induction s as [|a s IH]; intros Hc; cbn [app split_once]; [by rewrite decide_True|].
  apply not_elem_of_cons in Hc as [Ha Hc]. rewrite decide_False by done. by rewrite IH.
Qed.

Lemma trim_start_blank b s : blank b → trim_start (b ++ s) = trim_start s.
Proof. induction 1 as [|a b Ha _ IH]; [done|]. cbn [app trim_start]. by rewrite Ha. Qed.

(** A string that starts and ends with a visible character. *)
Definition solid (s : list A) : Prop :=
  (∃ a t, s = a :: t ∧ is_whitespace a = false) ∧ ∃ t a, s = t ++ [a] ∧ is_whitespace a = false.

Lemma trim_solid b s b' : blank b → solid s → blank b' → trim (b ++ s ++ b') = s.
Proof.
  intros Hb [(a & t & Ha & Hwa) (t' & a' & Ha' & Hwa')] Hb'. unfold trim. rewrite trim_start_blank by done.
  assert (trim_start (s ++ b') = s ++ b') as -> by (rewrite Ha; cbn [app trim_start]; by rewrite Hwa).
  rewrite reverse_app, trim_start_blank by (by apply Forall_reverse).
  assert (trim_start (reverse s) = reverse s) as ->; [|apply reverse_involutive].
  rewrite Ha', reverse_snoc. cbn [trim_start]. by rewrite Hwa'.
Qed.

(** What a number read fits in. *)
Lemma to_digit_range radix a d : 0 ≤ radix → to_digit radix a = Some d → 0 ≤ d < radix.
Proof. unfold to_digit. intros Hr. repeat case_decide; intros [= <-]; lia. Qed.

Lemma push_digits_range radix s acc n :
  0 ≤ radix → (∀ v, acc = Some v → in_u 64 v) → foldl (push_digit radix) acc s = Some n → in_u 64 n.
Proof.
  intros Hr. revert acc. induction s as [|a s IH]; intros acc Ha; cbn [foldl]; [apply Ha|]. apply IH.
  intros v Hv. unfold push_digit in Hv. destruct acc as [u|]; [|done]. specialize (Ha u eq_refl).
  cbn [mbind option_bind] in Hv. destruct (to_digit radix a) as [d|] eqn:Hd; [|done].
  cbn [mbind option_bind] in Hv. apply to_digit_range in Hd; [|done]. case_decide; [|done].
  injection Hv as <-. unfold in_u, u64_max in *. nia.
Qed.

Lemma from_str_radix_range radix s n : 0 ≤ radix → from_str_radix radix s = Some n → in_u 64 n.
Proof.
  intros Hr. unfold from_str_radix. destruct s as [|a s]; [done|]. case_match; [done|].
  apply push_digits_range; [done|]. intros v [= <-]. done.
Qed.
End str_lemmas.

(** ** Lemmas: UTF-8 *)

Lemma byte_value_byte n : 0 ≤ n < 256 → byte_value (byte n) = n.
Proof. intros Hn. unfold byte_value, byte. rewrite Ascii.N_ascii_embedding by lia. lia. Qed.

Lemma continuation_byte n : 0 ≤ n < 64 → continuation (byte (128 + n)) = Some n.
Proof.
  intros Hn. unfold continuation. rewrite byte_value_byte by lia. rewrite decide_True by lia. f_equal. lia.
Qed.

Lemma from_utf8_char c s : is_scalar c → from_utf8 (char_to_utf8 c ++ s) = cons c <$> from_utf8 s.
Proof.
  intros Hc. unfold char_to_utf8.
  pose proof (Z.div_mod c 64 ltac:(done)). pose proof (Z.mod_pos_bound c 64 ltac:(done)).
  pose proof (Z.div_mod (c / 64) 64 ltac:(done)). pose proof (Z.mod_pos_bound (c / 64) 64 ltac:(done)).
  pose proof (Z.div_mod (c / 4096) 64 ltac:(done)). pose proof (Z.mod_pos_bound (c / 4096) 64 ltac:(done)).
  assert (c / 64 / 64 = c / 4096) by (by rewrite Z.div_div). assert (c / 4096 / 64 = c / 262144) by (by rewrite Z.div_div).
  assert (0 ≤ c ≤ 1114111) by (destruct Hc; lia).
  repeat case_decide; cbn [app from_utf8].
  - rewrite byte_value_byte by lia. by rewrite decide_True by lia.
  - rewrite byte_value_byte by lia. rewrite decide_False by lia. rewrite (continuation_byte (c mod 64)) by done.
    cbn [mbind option_bind]. rewrite decide_True by lia. rewrite decide_True by lia.
    do 2 f_equal. lia.
  - rewrite byte_value_byte by lia. rewrite decide_False by lia. rewrite (continuation_byte (c / 64 mod 64)) by done.
    cbn [mbind option_bind]. rewrite (decide_False (P := 192 ≤ _ ≤ 223)) by lia. rewrite (continuation_byte (c mod 64)) by done.
    cbn [mbind option_bind]. rewrite (decide_True (P := 224 ≤ _ ≤ 239)) by lia.
    replace (4096 * (224 + c / 4096 - 224) + 64 * (c / 64 mod 64) + c mod 64) with c by lia.
    by rewrite decide_True by (split; [lia|done]).
  - rewrite byte_value_byte by lia. rewrite decide_False by lia. rewrite (continuation_byte (c / 4096 mod 64)) by done.
    cbn [mbind option_bind]. rewrite (decide_False (P := 192 ≤ _ ≤ 223)) by lia. rewrite (continuation_byte (c / 64 mod 64)) by done.
    cbn [mbind option_bind]. rewrite (decide_False (P := 224 ≤ _ ≤ 239)) by lia. rewrite (continuation_byte (c mod 64)) by done.
    cbn [mbind option_bind]. rewrite (decide_True (P := 240 ≤ _ ≤ 247)) by lia.
    replace (262144 * (240 + c / 262144 - 240) + 4096 * (c / 4096 mod 64) + 64 * (c / 64 mod 64) + c mod 64)
      with c by lia.
    by rewrite decide_True by (split; [lia|done]).
Qed.

Lemma from_to_utf8 s : Forall is_scalar s → from_utf8 (to_utf8 s) = Some s.
Proof.
  induction 1 as [|c s Hc _ IH]; [done|]. change (to_utf8 (c :: s)) with (char_to_utf8 c ++ to_utf8 s).
  rewrite from_utf8_char by done. by rewrite IH.
Qed.

(** ** Lemmas: decimals *)

(** What decimals are made of. *)
Definition numeral (l : Bytes) : Prop := Forall (λ a, a ∈ into_bytes "-0123456789") l.

(** A literal is checked by computation. *)
Ltac solve_numeral := unfold numeral; refine (bool_decide_unpack _ _); vm_compute; exact I.

Lemma pretty_N_go_numeral x s : numeral (into_bytes s) → numeral (into_bytes (pretty_N_go x s)).
Proof.
  revert s. induction (N.lt_wf_0 x) as [x _ IH]; intros s Hs.
  assert (x = 0 ∨ 0 < x)%N as [->|Hx] by lia; [done|].
  rewrite pretty_N_go_step by done. apply IH; [by apply N.div_lt|].
  change (numeral (pretty_N_char (x `mod` 10) :: into_bytes s)). constructor; [|done].
  unfold pretty_N_char. destruct (x `mod` 10)%N as [|p]; [solve_numeral|].
  do 4 (try destruct p as [p|p|]); solve_numeral.
Qed.

Lemma fmt_u64_numeral n : numeral (fmt_u64 n).
Proof.
  unfold fmt_u64. destruct n as [|p|p]; [solve_numeral| |].
  - change (numeral (into_bytes (pretty_N_go (Npos p) ""))). apply pretty_N_go_numeral. constructor.
  - change (numeral (into_bytes ("-" +:+ pretty_N_go (Npos p) ""))). rewrite into_bytes_app.
    apply Forall_app. split; [solve_numeral|]. apply pretty_N_go_numeral. constructor.
Qed.

#[export] Instance fmt_u64_inj : Inj (=) (=) fmt_u64.
Proof. intros n m H. unfold fmt_u64 in H. by simplify_eq. Qed.

Lemma push_digit_pretty (v d : N) :
  (d < 10)%N → Z.of_N (10 * v + d) ≤ u64_max →
  push_digit 10 (Some (Z.of_N v)) (pretty_N_char d) = Some (Z.of_N (10 * v + d)).
Proof.
  intros Hd Hv. unfold push_digit. cbn [mbind option_bind].
  assert (to_digit 10 (pretty_N_char d) = Some (Z.of_N d)) as ->.
  { destruct d as [|p]; [done|]. do 4 (destruct p as [p|p|]; try done; try lia). }
  cbn [mbind option_bind]. rewrite decide_True by lia. f_equal. lia.
Qed.

Lemma parse_digits (x : N) s :
  Z.of_N x ≤ u64_max →
  foldl (push_digit 10) (Some 0) (into_bytes (pretty_N_go x s)) = foldl (push_digit 10) (Some (Z.of_N x)) (into_bytes s).
Proof.
  revert s. induction (N.lt_wf_0 x) as [x _ IH]; intros s Hx.
  destruct (decide (x = 0)%N) as [->|Hne]; [by rewrite pretty_N_go_0|].
  pose proof (N.div_mod x 10 ltac:(done)) as Hdm. pose proof (N.mod_lt x 10 ltac:(done)) as Hlt.
  assert (Hq : (x / 10 < x)%N) by (apply N.div_lt; lia).
  rewrite pretty_N_go_step by lia. rewrite IH; [|exact Hq|lia].
  change (into_bytes (String (pretty_N_char (x mod 10)) s)) with (pretty_N_char (x mod 10) :: into_bytes s).
  cbn [foldl]. rewrite push_digit_pretty by lia. by rewrite <- Hdm.
Qed.

Lemma numeral_not_plus a : a ∈ into_bytes "-0123456789" → code a ≠ 43.
Proof.
  intros Ha. assert (Hall : Forall (λ a, code a ≠ 43) (into_bytes "-0123456789")).
  { refine (bool_decide_unpack _ _). vm_compute. exact I. }
  exact (proj1 (Forall_forall _ _) Hall a Ha).
Qed.

(** The decimal of a number is read back; no digit is a plus sign. *)
Lemma parse_fmt n : in_u 64 n → parse_u64 (fmt_u64 n) = Some n.
Proof.
  intros Hn. unfold fmt_u64, in_u in *. destruct n as [|p|p]; [done| |lia].
  change (into_bytes (pretty (Zpos p))) with (into_bytes (pretty_N_go (Npos p) "")).
  pose proof (parse_digits (Npos p) "" ltac:(unfold u64_max; lia)) as Hp.
  destruct (into_bytes (pretty_N_go (N.pos p) "")) as [|a rest] eqn:Hs.
  { cbn in Hp. by injection Hp. }
  unfold parse_u64, from_str_radix. rewrite (decide_False (P := code a = 43)); cycle 1.
  { pose proof (pretty_N_go_numeral (N.pos p) "" (Forall_nil_2 _)) as Hnum.
    rewrite Hs in Hnum. apply Forall_cons in Hnum as [Ha _]. by apply numeral_not_plus. }
  rewrite decide_False by done. rewrite Hp. done.
Qed.

(** ** Lemmas: bytes of integers *)

Lemma to_be_bytes_length w n : length (to_be_bytes w n) = w.
Proof. revert n. induction w as [|w IH]; intros n; cbn; [done|]. rewrite length_app, IH. cbn. lia. Qed.

Lemma to_be_bytes_inj w n m :
  0 ≤ n < 256 ^ Z.of_nat w → 0 ≤ m < 256 ^ Z.of_nat w → to_be_bytes w n = to_be_bytes w m → n = m.
Proof.
  revert n m. induction w as [|w IH]; intros n m Hn Hm H; [cbn in *; lia|].
  rewrite Nat2Z.inj_succ, Z.pow_succ_r in Hn, Hm by lia.
  cbn [to_be_bytes] in H. apply app_inj_2 in H as [Hq [= Hr]]; [|done].
  apply IH in Hq; [|split; [apply div_nonneg; lia|apply Z.div_lt_upper_bound; lia]..].
  rewrite (Z.div_mod n 256), (Z.div_mod m 256) by lia. by rewrite Hq, Hr.
Qed.

#[export] Instance byte_value_inj : Inj (=) (=) byte_value.
Proof.
  intros a b H. unfold byte_value in H. apply N2Z.inj in H.
  rewrite <- (Ascii.ascii_N_embedding a), <- (Ascii.ascii_N_embedding b). by f_equal.
Qed.
