(* ===== verification/Sealed.v ===== *)
(** * Sealed position parameters ([sealed.rs])

    The bytes behind the symbolic [Positions.SealedBlob]: a nonce of twelve bytes and the AES-256-GCM
    ciphertext of the JSON of the parameters.  The cipher and the JSON are third-party interfaces. *)
From S2P Require Import Prelude Ints Text Types Positions.
Open Scope Z_scope.

(** ** The cipher *)

(** [encrypt key nonce plaintext], and [decrypt key nonce ciphertext]. *)
Class Aead := {
  aead_encrypt : Bytes → Bytes → Bytes → option Bytes;
  aead_decrypt : Bytes → Bytes → Bytes → option Bytes;
  params_to_vec : SealedParams → option Bytes;
  params_from_slice : Bytes → option SealedParams;
}.

Definition NONCE_LEN : nat := 12.

Inductive SealError := Truncated | AuthenticationFailed | BadPayload.

Record SealedKey := { cipher : Bytes }.
Definition from_bytes (key : Bytes) : SealedKey := {| cipher := key |}.

Section sealed.
Context `{Aead}.

(** [nonce] is the one [generate_nonce] draws. *)
Definition seal (k : SealedKey) (params : SealedParams) (nonce : Bytes) : exec Bytes :=
  plaintext ← expect (params_to_vec params);
  ciphertext ← expect (aead_encrypt (cipher k) nonce plaintext);
  Ret (nonce ++ ciphertext).

Definition unseal (k : SealedKey) (sealed : Bytes) : result SealedParams SealError :=
  if decide (length sealed < NONCE_LEN)%nat then Err Truncated
  else
    let nonce := take NONCE_LEN sealed in
    let ciphertext := drop NONCE_LEN sealed in
    match aead_decrypt (cipher k) nonce ciphertext with
    | None => Err AuthenticationFailed
    | Some plaintext => ok_or (params_from_slice plaintext) BadPayload
    end.

(** The symbolic blob of a position, which the rest of the development computes with: what the chain
    stores and what the enclave reads of it agree. *)
Definition represents (k : SealedKey) (s : Bytes) (b : SealedBlob) : Prop :=
  match b with EmptyBytes => s = [] | Sealed p => unseal k s = Ok p end.

(** ** Theorems *)

(** The cipher as documented: what it encrypts it decrypts under the same key and nonce, and it
    decrypts nothing else; the JSON of parameters reads back. *)
Class AeadLaws : Prop := {
  decrypt_encrypt k n p c : aead_encrypt k n p = Some c → aead_decrypt k n c = Some p;
  decrypt_authentic k n p c : aead_decrypt k n c = Some p → aead_encrypt k n p = Some c;
  params_round p : ∃ v, params_to_vec p = Some v ∧ params_from_slice v = Some p;
}.
Context `{!AeadLaws}.

(** What is sealed is unsealed by the same key, also by the one a restart rebuilds from its bytes. *)
Lemma unseal_seal k params nonce s :
  length nonce = NONCE_LEN → seal k params nonce = Ret s → unseal (from_bytes (cipher k)) s = Ok params.
Proof.
  intros Hn. unfold seal. intros (v & Hv & H1)%bind_Ret. apply bind_Ret in H1 as (c & Hc & [= <-]).
  destruct (params_round params) as (v' & Hv' & Hr). rewrite Hv' in Hv. cbn [expect] in Hv. injection Hv as <-.
  destruct (aead_encrypt (cipher k) nonce v') as [c'|] eqn:He; [|done]. cbn [expect] in Hc. injection Hc as <-.
  unfold unseal. rewrite decide_False by (rewrite length_app; lia). rewrite take_app_length', drop_app_length' by done.
  cbn [from_bytes cipher]. by rewrite (decrypt_encrypt _ _ _ _ He), Hr.
Qed.

(** A blob that unseals is the encryption under this key of parameters' bytes; shorter ones are refused. *)
Lemma unseal_authentic k s params :
  unseal k s = Ok params →
  ∃ nonce plaintext c, s = nonce ++ c ∧ length nonce = NONCE_LEN ∧ aead_encrypt (cipher k) nonce plaintext = Some c ∧
    params_from_slice plaintext = Some params.
Proof.
  unfold unseal. case_decide as Hl; [done|]. destruct (aead_decrypt _ _ _) as [v|] eqn:Hd; [|done].
  destruct (params_from_slice v) as [p|] eqn:Hp; [|done]. intros [= ->].
  exists (take NONCE_LEN s), v, (drop NONCE_LEN s). rewrite take_drop, length_take. split_and!; [done|lia| |done].
  by apply decrypt_authentic.
Qed.

(** The symbolic blob is a function of the bytes. *)
Lemma represents_one k s b b' : represents k s b → represents k s b' → b = b'.
Proof.
  destruct b, b'; cbn [represents]; try done.
  - intros -> [=].
  - intros H1 ->. discriminate H1.
  - intros -> [= ->]. done.
Qed.
End sealed.
