(* ===== verification/Wire.v ===== *)
(** * What a trader signs, and what names a match ([crates/cerdic-tee-matcher/src/api.rs])

    The decrypted payloads, the byte strings [signing_bytes] puts under the signature, and the
    preimage [match_id_for] hashes.  Formatting an integer is the decimal [pretty] of stdpp; a
    payload's [signature] field is not part of what it signs and is left out of the records. *)
From stdpp Require Import pretty.
From S2P Require Import Prelude Ints Text Types U256 I256 Book Risk Positions Liquidation.
Open Scope Z_scope.

(** ** Data *)

Record OrderPayload := {
  op_market_id : MarketId;
  op_side : OrderSide;
  op_tick : Z;
  op_qty : Z;
  op_tif : TimeInForce;
  op_post_only : bool;
  op_nonce : Z;
  op_leverage : Z;
}.

Record OfferPayload := {
  of_market_id : MarketId;
  of_side : OrderSide;
  of_tick : Z;
  of_max_size : Z;
  of_expiry : option Z;
  of_group : option Z;
  of_reduce_only : bool;
  of_nonce : Z;
}.

Record CancelPayload := { cp_market_id : MarketId; cp_order_id : Z; cp_nonce : Z }.
Record PortfolioKeyRequest := { pk_nonce : Z }.

(** Everything a trader can sign. *)
Inductive Payload :=
| POrder (p : OrderPayload)
| POffer (p : OfferPayload)
| PCancel (p : CancelPayload)
| PPortfolioKey (p : PortfolioKeyRequest).

(** ** [signing_bytes] *)

Definition bar : Ascii.ascii := Ascii.Ascii false false true true true true true false.

(** The fields after the first, each behind a bar. *)
Fixpoint bars (x : Bytes) (fields : list Bytes) : Bytes :=
  match fields with
  | [] => x
  | f :: fields => bars (x ++ bar :: f) fields
  end.

Definition fmt_side (s : OrderSide) : Bytes :=
  into_bytes (match s with Buy => "Buy" | Sell => "Sell" end).
Definition fmt_bool (b : bool) : Bytes := into_bytes (if b then "true" else "false").
Definition fmt_option (o : option Z) : Bytes :=
  match o with Some n => fmt_u64 n | None => into_bytes "none" end.

Definition tif_tag (tif : TimeInForce) : Bytes :=
  match tif with
  | GoodTilCancel => into_bytes "GTC"
  | GoodTilTime t => into_bytes "GTT" ++ fmt_u64 t
  | ImmediateOrCancel => into_bytes "IOC"
  | FillOrKill => into_bytes "FOK"
  end.

Definition order_signing_bytes (p : OrderPayload) : Bytes :=
  bars (into_bytes "order|" ++ into_bytes (op_market_id p))
    [fmt_side (op_side p); fmt_u64 (op_tick p); fmt_u64 (op_qty p); tif_tag (op_tif p);
     fmt_bool (op_post_only p); fmt_u64 (op_nonce p); fmt_u64 (op_leverage p)].

Definition offer_signing_bytes (p : OfferPayload) : Bytes :=
  bars (into_bytes "offer|" ++ into_bytes (of_market_id p))
    [fmt_side (of_side p); fmt_u64 (of_tick p); fmt_u64 (of_max_size p); fmt_option (of_expiry p);
     fmt_option (of_group p); fmt_bool (of_reduce_only p); fmt_u64 (of_nonce p)].

Definition cancel_signing_bytes (p : CancelPayload) : Bytes :=
  bars (into_bytes "cancel|" ++ into_bytes (cp_market_id p))
    [fmt_u64 (cp_order_id p); fmt_u64 (cp_nonce p)].

Definition portfolio_key_signing_bytes (p : PortfolioKeyRequest) : Bytes :=
  into_bytes "portfolio_key_request|" ++ fmt_u64 (pk_nonce p).

Definition signing_bytes (p : Payload) : Bytes :=
  match p with
  | POrder p => order_signing_bytes p
  | POffer p => offer_signing_bytes p
  | PCancel p => cancel_signing_bytes p
  | PPortfolioKey p => portfolio_key_signing_bytes p
  end.

(** ** Match identifiers *)

Definition match_id_bytes (taker : Address) (maker_owner : OwnerId) (market_id : MarketId) (tick : Z)
    (fill_index : nat) (taker_nonce : Z) : list Z :=
  to_be_bytes 20 taker ++ to_be_bytes 8 maker_owner ++ (byte_value <$> into_bytes market_id) ++
  to_be_bytes 8 tick ++ to_be_bytes 8 taker_nonce ++ to_be_bytes 8 (as_u64 (Z.of_nat fill_index)).

Definition match_id_for (keccak256 : list Z → Z) (taker : Address) (maker_owner : OwnerId)
    (market_id : MarketId) (tick : Z) (fill_index : nat) (taker_nonce : Z) : Z :=
  keccak256 (match_id_bytes taker maker_owner market_id tick fill_index taker_nonce).

(** ** No field after the market contains a bar *)

Definition barless (l : Bytes) : Prop := bar ∉ l.

Lemma barless_app l k : barless l → barless k → barless (l ++ k).
Proof. unfold barless. set_solver. Qed.

(** A literal is checked by computation. *)
Ltac solve_literal :=
  unfold numeral, barless; refine (bool_decide_unpack _ _); vm_compute; exact I.

Lemma numeral_barless l : numeral l → barless l.
Proof.
  unfold numeral, barless. rewrite Forall_forall. intros H Hb. specialize (H _ Hb). revert H.
  change (¬ bar ∈ into_bytes "-0123456789"). solve_literal.
Qed.

Lemma fmt_u64_barless n : barless (fmt_u64 n).
Proof. apply numeral_barless, fmt_u64_numeral. Qed.
#[export] Hint Resolve fmt_u64_barless barless_app : cerdic.

Lemma fmt_side_barless s : barless (fmt_side s).
Proof. destruct s; solve_literal. Qed.
Lemma fmt_bool_barless b : barless (fmt_bool b).
Proof. destruct b; solve_literal. Qed.
Lemma fmt_option_barless o : barless (fmt_option o).
Proof. destruct o; cbn [fmt_option]; [auto with cerdic|solve_literal]. Qed.
Lemma tif_tag_barless t : barless (tif_tag t).
Proof.
  destruct t; cbn [tif_tag]; [solve_literal| |solve_literal..].
  apply barless_app; [solve_literal|auto with cerdic].
Qed.
#[export] Hint Resolve fmt_side_barless fmt_bool_barless fmt_option_barless tif_tag_barless : cerdic.

(** ** Each field determines its value *)

Lemma fmt_u64_not_none n : fmt_u64 n ≠ into_bytes "none".
Proof.
  intros E. pose proof (fmt_u64_numeral n) as H. rewrite E in H. revert H.
  change (¬ numeral (into_bytes "none")). unfold numeral. solve_literal.
Qed.

#[export] Instance fmt_option_inj : Inj (=) (=) fmt_option.
Proof.
  intros [n|] [m|]; cbn [fmt_option]; intros H; [by simplify_eq| | |done].
  - by apply fmt_u64_not_none in H.
  - by apply eq_sym, fmt_u64_not_none in H.
Qed.
#[export] Instance fmt_side_inj : Inj (=) (=) fmt_side.
Proof. intros [] []; by vm_compute. Qed.
#[export] Instance fmt_bool_inj : Inj (=) (=) fmt_bool.
Proof. intros [] []; by vm_compute. Qed.
#[export] Instance tif_tag_inj : Inj (=) (=) tif_tag.
Proof.
  intros [|t| |] [|u| |]; cbn [tif_tag]; intros H; try done.
  apply (inj (app (into_bytes "GTT"))) in H. by simplify_eq.
Qed.

(** ** The last bar separates *)

Lemma last_bar_unique (x y a b : Bytes) :
  barless a → barless b → x ++ bar :: a = y ++ bar :: b → x = y ∧ a = b.
Proof.
  intros Ha Hb. revert y. induction x as [|c x IH]; intros [|d y]; cbn [app]; intros H.
  - by injection H.
  - injection H as _ H. destruct Ha. rewrite H. set_solver.
  - injection H as _ H. destruct Hb. rewrite <- H. set_solver.
  - injection H as -> H. by apply IH in H as [-> ->].
Qed.

Lemma bars_inj fs gs x y :
  Forall barless fs → Forall barless gs → length fs = length gs →
  bars x fs = bars y gs → x = y ∧ fs = gs.
Proof.
  intros Hf. revert gs x y. induction Hf as [|f fs Hf _ IH]; intros [|g gs] x y Hg Hlen H; simplify_eq/=;
    [done|].
  apply Forall_cons in Hg as [Hg Hgs]. apply IH in H as [H ->]; [|done..].
  apply last_bar_unique in H as [-> ->]; done.
Qed.

Ltac solve_fields := repeat (apply Forall_cons; split; [auto with cerdic|]); apply Forall_nil; done.

#[export] Instance order_signing_bytes_inj : Inj (=) (=) order_signing_bytes.
Proof.
  intros [] [] H. apply bars_inj in H as [Hm H]; [|solve_fields..|done]. apply (inj (app _)) in Hm.
  injection H; intros; simplify_eq/=; done.
Qed.
#[export] Instance offer_signing_bytes_inj : Inj (=) (=) offer_signing_bytes.
Proof.
  intros [] [] H. apply bars_inj in H as [Hm H]; [|solve_fields..|done]. apply (inj (app _)) in Hm.
  injection H; intros; simplify_eq/=; done.
Qed.
#[export] Instance cancel_signing_bytes_inj : Inj (=) (=) cancel_signing_bytes.
Proof.
  intros [] [] H. apply bars_inj in H as [Hm H]; [|solve_fields..|done]. apply (inj (app _)) in Hm.
  injection H; intros; simplify_eq/=; done.
Qed.
#[export] Instance portfolio_key_signing_bytes_inj : Inj (=) (=) portfolio_key_signing_bytes.
Proof. intros [n] [m] H. apply (inj (app (into_bytes "portfolio_key_request|"))) in H. simplify_eq/=. done. Qed.

Lemma bars_app x fs : ∃ k, bars x fs = x ++ k.
Proof.
  revert x. induction fs as [|f fs IH]; intros x; cbn [bars]; [exists []; by rewrite app_nil_r|].
  destruct (IH (x ++ bar :: f)) as [k ->]. exists ((bar :: f) ++ k). by rewrite <- app_assoc.
Qed.

(** The tag each kind of payload starts with. *)
Definition payload_tag (p : Payload) : string :=
  match p with
  | POrder _ => "or" | POffer _ => "of" | PCancel _ => "ca" | PPortfolioKey _ => "po"
  end.

Lemma signing_bytes_tag p : ∃ k, signing_bytes p = into_bytes (payload_tag p) ++ k.
Proof.
  destruct p as [p|p|p|p]; cbn [signing_bytes payload_tag].
  - destruct (bars_app (into_bytes "order|" ++ into_bytes (op_market_id p))
      [fmt_side (op_side p); fmt_u64 (op_tick p); fmt_u64 (op_qty p); tif_tag (op_tif p);
       fmt_bool (op_post_only p); fmt_u64 (op_nonce p); fmt_u64 (op_leverage p)]) as [k E].
    unfold order_signing_bytes. rewrite E. by eexists.
  - destruct (bars_app (into_bytes "offer|" ++ into_bytes (of_market_id p))
      [fmt_side (of_side p); fmt_u64 (of_tick p); fmt_u64 (of_max_size p); fmt_option (of_expiry p);
       fmt_option (of_group p); fmt_bool (of_reduce_only p); fmt_u64 (of_nonce p)]) as [k E].
    unfold offer_signing_bytes. rewrite E. by eexists.
  - destruct (bars_app (into_bytes "cancel|" ++ into_bytes (cp_market_id p))
      [fmt_u64 (cp_order_id p); fmt_u64 (cp_nonce p)]) as [k E].
    unfold cancel_signing_bytes. rewrite E. by eexists.
  - by eexists.
Qed.

(** * Theorems *)

#[export] Instance signing_bytes_inj : Inj (=) (=) signing_bytes.
Proof.
  intros p q H. assert (Htag : payload_tag p = payload_tag q).
  { destruct (signing_bytes_tag p) as [k Hk], (signing_bytes_tag q) as [k' Hk'].
    rewrite Hk, Hk' in H. apply app_inj_1 in H as [H _]; [by apply (inj into_bytes)|].
    by destruct p, q. }
  destruct p, q; try discriminate Htag; cbn [signing_bytes] in H; f_equal; by apply (inj _) in H.
Qed.

(** C30: A signature binds one payload.  Two signable payloads have the same signing bytes exactly
    when they are the same payload: no order can be replayed as an offer, a cancellation or a key
    request, and no market name (whatever bars it contains) shifts a field of one payload into
    another. *)
Theorem signing_bytes_injective p q : signing_bytes p = signing_bytes q ↔ p = q.
Proof. split; [apply (inj signing_bytes)|by intros ->]. Qed.

(** A match identifier's preimage determines the taker, its nonce, the maker, the market, the price
    and the position of the fill in its sweep. *)
Lemma match_id_bytes_inj taker owner m tick i nonce taker' owner' m' tick' i' nonce' :
  in_u 160 taker → in_u 160 taker' → in_u 64 owner → in_u 64 owner' → in_u 64 tick → in_u 64 tick' →
  in_u 64 nonce → in_u 64 nonce' → in_u 64 (Z.of_nat i) → in_u 64 (Z.of_nat i') →
  match_id_bytes taker owner m tick i nonce = match_id_bytes taker' owner' m' tick' i' nonce' →
  taker = taker' ∧ owner = owner' ∧ m = m' ∧ tick = tick' ∧ nonce = nonce' ∧ i = i'.
Proof.
  unfold match_id_bytes, in_u. intros ?????????? H. unfold as_u64 in H. rewrite !wrapu_small in H by done.
  apply app_inj_1 in H as [Ht H]; [|by rewrite !to_be_bytes_length].
  apply app_inj_1 in H as [Ho H]; [|by rewrite !to_be_bytes_length].
  apply app_inj_2 in H as [Hm H]; [|by rewrite !length_app, !to_be_bytes_length].
  apply app_inj_1 in H as [Hk H]; [|by rewrite !to_be_bytes_length].
  apply app_inj_1 in H as [Hn Hi]; [|by rewrite !to_be_bytes_length].
  apply to_be_bytes_inj in Ht, Ho, Hk, Hn, Hi; [|done..]. apply (inj _) in Hm, Hm.
  split_and!; [done..|lia].
Qed.
