(* ===== verification/Matcher.v ===== *)
(** * The matcher's request handlers ([crates/cerdic-tee-matcher/src/api.rs])

    The state the signed endpoints share and the handlers that change it: replay protection, the
    sanity and collateral gates, the book, the backstop's rescue of what the book left unserved, the
    public tape, the accounting of every fill for both sides, and cancellation.  A handler receives
    the decrypted payload with its recovered signer; the wall clock, the deposited balance and the
    funding index it reads are arguments.  Handlers run one at a time here.  Definitions only; the
    theorems are in [MatcherProps] and, over runs of requests, in [MatcherTrace]. *)
From S2P Require Import Prelude Ints Types U256 I256 Risk Averages Fees MarketData Backstop.
From S2P Require Import Positions Liquidation Book Wire.
Open Scope Z_scope.

Definition MAX_SANE_TICK : Z := 100000000000.
Definition NOTIONAL_THRESHOLD : Z := 1000.
Definition MAX_BATCH_SIZE : nat := 8.

(** ** Data *)

Inductive OrderResponse :=
| Resting (order_id : OrderId)
| Filled (order_id : option OrderId) (fills : nat)
| OrderRejected (reason : string).

Inductive OfferResponse := OfferResting (offer_id : OrderId) | OfferRejected (reason : string).
Inductive CancelResponse := Cancelled (tick qty : Z) | NotFound.

Inductive ApiError :=
| NonceReplay (got last : Z)
| InvalidTick (tick : Z)
| InsufficientCollateralError (e : InsufficientCollateral)
| NotOrderOwner (order_id : OrderId).

(** [settle::MakerFill] and [settle::TakerSweep]. *)
Record MakerFill := {
  mf_match_id : Z;
  mf_portfolio_key : Key;
  mf_collateral_delta : Z;
  mf_sealed_params : SealedBlob;
}.

Record TakerSweep := {
  ts_market_id : Z;
  ts_portfolio_key_taker : Key;
  ts_collateral_delta_taker : Z;
  ts_sealed_params_taker : SealedBlob;
  ts_maker_legs : list MakerFill;
}.

(** [proof::MatchWitness]. *)
Record MatchWitness := {
  mw_side_a : bool; mw_price_a : Z; mw_size_a : Z;
  mw_side_b : bool; mw_price_b : Z; mw_size_b : Z;
  mw_match_price : Z; mw_match_size : Z;
}.

(** The fields of [AppState] that change while it serves, the funding accrual aside. *)
Record AppState := {
  books : gmap MarketId OrderBook;
  market_data : gmap MarketId TradeTape;
  last_nonce : gmap Address Z;
  owner_addresses : gmap OwnerId Address;
  portfolio_markets : MarketIndex;
  backstop : gmap MarketId BackstopState;
  trader_volume : gmap Address Z;
  position_cache : Cache;
  pending_realized_pnl : gmap (Address * Address) Z;
  settlement_tx_hashes : gmap (Address * Z) (option Z);
  oi_index : gmap MarketId (gset Key * Z);
}.

(** The fields fixed by configuration. *)
Record Deployment := {
  backstop_config : BackstopConfig;
  collateral_check : option (Address * Address);
  onchain : MarketId → Z;
}.

Definition new_state : AppState := {|
  books := ∅; market_data := ∅; last_nonce := ∅;
  owner_addresses := {[ BACKSTOP_OWNER_ID := 0 ]};
  portfolio_markets := ∅; backstop := ∅; trader_volume := ∅; position_cache := ∅;
  pending_realized_pnl := ∅; settlement_tx_hashes := ∅; oi_index := ∅ |}.

(** ** Writes to one field *)

Definition set_books (st : AppState) v := {|
  books := v; market_data := market_data st; last_nonce := last_nonce st;
  owner_addresses := owner_addresses st; portfolio_markets := portfolio_markets st;
  backstop := backstop st; trader_volume := trader_volume st; position_cache := position_cache st;
  pending_realized_pnl := pending_realized_pnl st;
  settlement_tx_hashes := settlement_tx_hashes st; oi_index := oi_index st |}.
Definition set_market_data (st : AppState) v := {|
  books := books st; market_data := v; last_nonce := last_nonce st;
  owner_addresses := owner_addresses st; portfolio_markets := portfolio_markets st;
  backstop := backstop st; trader_volume := trader_volume st; position_cache := position_cache st;
  pending_realized_pnl := pending_realized_pnl st;
  settlement_tx_hashes := settlement_tx_hashes st; oi_index := oi_index st |}.
Definition set_last_nonce (st : AppState) v := {|
  books := books st; market_data := market_data st; last_nonce := v;
  owner_addresses := owner_addresses st; portfolio_markets := portfolio_markets st;
  backstop := backstop st; trader_volume := trader_volume st; position_cache := position_cache st;
  pending_realized_pnl := pending_realized_pnl st;
  settlement_tx_hashes := settlement_tx_hashes st; oi_index := oi_index st |}.
Definition set_owner_addresses (st : AppState) v := {|
  books := books st; market_data := market_data st; last_nonce := last_nonce st;
  owner_addresses := v; portfolio_markets := portfolio_markets st;
  backstop := backstop st; trader_volume := trader_volume st; position_cache := position_cache st;
  pending_realized_pnl := pending_realized_pnl st;
  settlement_tx_hashes := settlement_tx_hashes st; oi_index := oi_index st |}.
Definition set_portfolio_markets (st : AppState) v := {|
  books := books st; market_data := market_data st; last_nonce := last_nonce st;
  owner_addresses := owner_addresses st; portfolio_markets := v;
  backstop := backstop st; trader_volume := trader_volume st; position_cache := position_cache st;
  pending_realized_pnl := pending_realized_pnl st;
  settlement_tx_hashes := settlement_tx_hashes st; oi_index := oi_index st |}.
Definition set_backstop (st : AppState) v := {|
  books := books st; market_data := market_data st; last_nonce := last_nonce st;
  owner_addresses := owner_addresses st; portfolio_markets := portfolio_markets st;
  backstop := v; trader_volume := trader_volume st; position_cache := position_cache st;
  pending_realized_pnl := pending_realized_pnl st;
  settlement_tx_hashes := settlement_tx_hashes st; oi_index := oi_index st |}.
Definition set_trader_volume (st : AppState) v := {|
  books := books st; market_data := market_data st; last_nonce := last_nonce st;
  owner_addresses := owner_addresses st; portfolio_markets := portfolio_markets st;
  backstop := backstop st; trader_volume := v; position_cache := position_cache st;
  pending_realized_pnl := pending_realized_pnl st;
  settlement_tx_hashes := settlement_tx_hashes st; oi_index := oi_index st |}.
(** A fold writes the position cache and queues what it realized. *)
Definition set_positions (st : AppState) (c : Cache) p := {|
  books := books st; market_data := market_data st; last_nonce := last_nonce st;
  owner_addresses := owner_addresses st; portfolio_markets := portfolio_markets st;
  backstop := backstop st; trader_volume := trader_volume st; position_cache := c;
  pending_realized_pnl := p; settlement_tx_hashes := settlement_tx_hashes st; oi_index := oi_index st |}.
Definition set_settlement (st : AppState) (c : Cache) h := {|
  books := books st; market_data := market_data st; last_nonce := last_nonce st;
  owner_addresses := owner_addresses st; portfolio_markets := portfolio_markets st;
  backstop := backstop st; trader_volume := trader_volume st; position_cache := c;
  pending_realized_pnl := pending_realized_pnl st; settlement_tx_hashes := h; oi_index := oi_index st |}.

(** [entry(market).or_default()] on each per-market map. *)
Definition book_of (st : AppState) (m : MarketId) : OrderBook := default Book.new (books st !! m).
Definition tape_of (st : AppState) (m : MarketId) : TradeTape :=
  default tape_default (market_data st !! m).
Definition maker_of (st : AppState) (m : MarketId) : BackstopState :=
  default state_default (backstop st !! m).
Definition put_book (st : AppState) (m : MarketId) (b : OrderBook) : AppState :=
  set_books st (<[m := b]> (books st)).
Definition put_maker (st : AppState) (m : MarketId) (s : BackstopState) : AppState :=
  set_backstop st (<[m := s]> (backstop st)).
Definition index_market (st : AppState) (k : Key) (m : MarketId) : AppState :=
  set_portfolio_markets st
    (<[k := default ∅ (portfolio_markets st !! k) ∪ {[ m ]}]> (portfolio_markets st)).

(** ** Gates *)

(** The low 8 bytes of the address. *)
Definition signer_owner_id (signer : Address) : OwnerId := as_u64 signer.

Definition accept_nonce (st : AppState) (signer nonce : Z) : result AppState ApiError :=
  let accepted := set_last_nonce st (<[signer := nonce]> (last_nonce st)) in
  match last_nonce st !! signer with
  | Some last => if decide (nonce ≤ last) then Err (NonceReplay nonce last) else Ok accepted
  | None => Ok accepted
  end.

Definition register_owner (st : AppState) (signer : Address) : AppState :=
  set_owner_addresses st (<[signer_owner_id signer := signer]> (owner_addresses st)).

Definition should_prove (traded_qty : Z) : bool := bool_decide (NOTIONAL_THRESHOLD ≤ traded_qty).

(** The loop of [chunk_for_batching]: the chunks emitted so far and the current one. *)
Definition chunk_step {A} (acc : list (list A) * list A) (w : A) : list (list A) * list A :=
  let current := acc.2 ++ [w] in
  if decide (length current = MAX_BATCH_SIZE) then (acc.1 ++ [current], []) else (acc.1, current).

Definition chunk_for_batching {A} (witnesses : list A) : list (list A) :=
  let '(chunks, current) := foldl chunk_step ([], []) witnesses in
  if decide (current = []) then chunks else chunks ++ [current].

(** ** Matching and the backstop's rescue *)

Definition new_order (p : OrderPayload) (owner : OwnerId) : NewOrder :=
  {| no_side := common_side (op_side p); no_tick := op_tick p; no_qty := op_qty p;
     no_owner := owner; no_tif := op_tif p; post_only := op_post_only p |}.

Definition submit_order (st : AppState) (m : MarketId) (o : NewOrder) (now : Z) :
    exec (SubmitResult * AppState) :=
  '(r, b) ← Book.submit (book_of st m) o now; Ret (r, put_book st m b).

(** The quote is taken only when it covers the whole request. *)
Definition serve_whole (s : BackstopState) (cfg : BackstopConfig) (side : Side) (requested : Z) :
    exec (BackstopState * option (Z * Z)) :=
  q ← quote_and_check s cfg side requested;
  Ret match q with
      | Some (price, filled) =>
          if decide (filled = requested) then (commit_fill s side filled, Some (price, filled))
          else (s, None)
      | None => (s, None)
      end.

Definition backstop_fill (price filled requested : Z) : Fill :=
  {| maker_id := 2 ^ 32 - 1; maker_owner := BACKSTOP_OWNER_ID; f_tick := price; f_qty := filled;
     maker_filled := true; maker_size_before := filled; taker_size_before := requested |}.

(** A fill pushed onto the result, with the two flags it may clear. *)
Definition with_fill (r : SubmitResult) (f : Fill) (id : option OrderId) (qty : Qty) :
    SubmitResult :=
  {| fills := fills r ++ [f]; resting_id := id; resting_qty := qty; expired := expired r;
     self_trade_cancelled := self_trade_cancelled r; post_only_rejected := post_only_rejected r;
     fill_or_kill_failed := false |}.

Definition is_ioc (tif : TimeInForce) : bool :=
  match tif with ImmediateOrCancel => true | _ => false end.

(** Demand the book dropped: the leftover of an immediate order, or a failed fill-or-kill. *)
Definition rescue_dropped (cfg : BackstopConfig) (st : AppState) (m : MarketId) (o : NewOrder)
    (r : SubmitResult) (requested : Z) : exec (SubmitResult * AppState) :=
  '(s, accepted) ← (if fill_or_kill_failed r
                    then serve_whole (maker_of st m) cfg (no_side o) requested
                    else try_fill (maker_of st m) cfg (no_side o) requested);
  let st := put_maker st m s in
  Ret (match accepted with
       | Some (price, filled) =>
           with_fill r (backstop_fill price filled requested) (resting_id r) (resting_qty r)
       | None => r
       end, st).

(** Demand that just came to rest: taken whole, and the resting order cancelled. *)
Definition rescue_resting (cfg : BackstopConfig) (st : AppState) (m : MarketId) (o : NewOrder)
    (r : SubmitResult) (id : OrderId) : exec (SubmitResult * AppState) :=
  let qty := resting_qty r in
  '(s, accepted) ← serve_whole (maker_of st m) cfg (no_side o) qty;
  let st := put_maker st m s in
  match accepted with
  | Some (price, filled) =>
      '(_, b) ← Book.cancel (book_of st m) id;
      Ret (with_fill r (backstop_fill price filled qty) None 0, put_book st m b)
  | None => Ret (r, st)
  end.

Definition rescue (cfg : BackstopConfig) (st : AppState) (m : MarketId) (o : NewOrder)
    (r : SubmitResult) : exec (SubmitResult * AppState) :=
  let filled_qty := foldl u64_add 0 (f_qty <$> fills r) in
  let leftover := sat_u 64 (no_qty o - filled_qty) in
  if (is_ioc (no_tif o) && bool_decide (0 < leftover)) || fill_or_kill_failed r then
    rescue_dropped cfg st m o r (if fill_or_kill_failed r then no_qty o else leftover)
  else match resting_id r with
       | Some id => rescue_resting cfg st m o r id
       | None => Ret (r, st)
       end.

Definition match_order (cfg : BackstopConfig) (st : AppState) (m : MarketId) (o : NewOrder)
    (now : Z) : exec (SubmitResult * AppState) :=
  '(r, st) ← submit_order st m o now; rescue cfg st m o r.

(** Every print goes on the tape and into the backstop's history. *)
Definition record_prints (st : AppState) (m : MarketId) (fs : list Fill) (now : Z) : AppState :=
  if decide (fs = []) then st
  else
    let tape := foldl (λ t f, MarketData.record t now (f_tick f) (f_qty f)) (tape_of st m) fs in
    let s := foldl (λ s f, record_price s (f_tick f)) (maker_of st m) fs in
    put_maker (set_market_data st (<[m := tape]> (market_data st))) m s.

(** ** Accounting of the fills *)

Section handlers.
Context `{I : I256} (load_sealed : Key → MarketId → option (SealedBlob * Z)).
Context (portfolio_key : Address → Key) (keccak256 : list Z → Z) (dep : Deployment).

Definition sealed_params_after (st : AppState) (k : Key) (m : MarketId) : SealedBlob :=
  match cached_sealed_params (position_cache st) k m with
  | Some params => Sealed params
  | None => EmptyBytes
  end.

(** One fold with its realized result queued for [trader]. *)
Definition fold_and_queue (st : AppState) (trader : Address) (m : MarketId) (is_buy : bool)
    (tick qty current_funding default_leverage extra : Z) : exec (AppState * Z) :=
  '(cache, (delta, realized)) ←
    load_and_fold load_sealed (position_cache st) (portfolio_key trader) m is_buy tick qty
      current_funding default_leverage extra;
  pending ← queue_realized_pnl (collateral_check dep) (pending_realized_pnl st) trader
              (realized_delta_to_usd realized m);
  Ret (set_positions st cache pending, delta).

Definition build_maker_leg (st : AppState) (taker : Address) (taker_nonce : Z) (fill_index : nat)
    (m : MarketId) (tick qty : Z) (taker_is_buy : bool) (owner : OwnerId) (maker : Address)
    (current_funding : Z) : exec (AppState * MakerFill) :=
  '(st, delta) ← fold_and_queue st maker m (negb taker_is_buy) tick qty current_funding 20 0;
  Ret (st, {| mf_match_id := match_id_for keccak256 taker owner m tick fill_index taker_nonce;
              mf_portfolio_key := portfolio_key maker; mf_collateral_delta := delta;
              mf_sealed_params := sealed_params_after st (portfolio_key maker) m |}).

(** What the sweep over the fills accumulates. *)
Record SweepAcc := {
  sa_legs : list MakerFill;
  sa_collateral_delta : Z;
  sa_weighted_price : Z;
  sa_provable : list MatchWitness;
}.

Definition is_buy (s : OrderSide) : bool := match s with Buy => true | Sell => false end.

Definition match_witness (p : OrderPayload) (f : Fill) : MatchWitness :=
  let taker_is_buy := is_buy (op_side p) in
  {| mw_side_a := taker_is_buy; mw_price_a := op_tick p; mw_size_a := taker_size_before f;
     mw_side_b := negb taker_is_buy; mw_price_b := f_tick f; mw_size_b := maker_size_before f;
     mw_match_price := f_tick f; mw_match_size := f_qty f |}.

(** The body of the loop over [result.fills]. *)
Definition settle_fill (p : OrderPayload) (signer : Address) (prior_volume current_funding : Z)
    (fill_index : nat) (st : AppState) (acc : SweepAcc) (f : Fill) : exec (AppState * SweepAcc) :=
  let m := op_market_id p in
  let taker_is_buy := is_buy (op_side p) in
  let provable := if should_prove (f_qty f) then sa_provable acc ++ [match_witness p f]
                  else sa_provable acc in
  match owner_addresses st !! maker_owner f with
  | None => Ret (st, {| sa_legs := sa_legs acc; sa_collateral_delta := sa_collateral_delta acc;
                        sa_weighted_price := sa_weighted_price acc; sa_provable := provable |})
  | Some maker =>
      '(st, leg) ← build_maker_leg st signer (op_nonce p) fill_index m (f_tick f) (f_qty f)
                     taker_is_buy (maker_owner f) maker current_funding;
      let st := index_market st (mf_portfolio_key leg) m in
      let notional := u128_mul (f_tick f) (f_qty f) in
      fee ← expect (i256_try_from (Fees.taker_fee notional prior_volume));
      '(st, fold_delta) ← fold_and_queue st signer m taker_is_buy (f_tick f) (f_qty f)
                            current_funding (op_leverage p) fee;
      delta ← i256_add (sa_collateral_delta acc) fold_delta;
      Ret (st, {| sa_legs := sa_legs acc ++ [leg]; sa_collateral_delta := delta;
                  sa_weighted_price := u128_add (sa_weighted_price acc) notional;
                  sa_provable := provable |})
  end.

Fixpoint settle_fills (p : OrderPayload) (signer : Address) (prior_volume current_funding : Z)
    (fill_index : nat) (st : AppState) (acc : SweepAcc) (fs : list Fill) :
    exec (AppState * SweepAcc) :=
  match fs with
  | [] => Ret (st, acc)
  | f :: fs =>
      '(st, acc) ← settle_fill p signer prior_volume current_funding fill_index st acc f;
      settle_fills p signer prior_volume current_funding (S fill_index) st acc fs
  end.

Definition add_volume (st : AppState) (signer : Address) (weighted : Z) : AppState :=
  if decide (0 < weighted)
  then set_trader_volume st
         (<[signer := u128_add (default 0 (trader_volume st !! signer)) weighted]> (trader_volume st))
  else st.

(** The sweep broadcast for the settled fills, when there are any. *)
Definition build_sweep (st : AppState) (m : MarketId) (signer : Address) (acc : SweepAcc) :
    AppState * option TakerSweep :=
  if decide (sa_legs acc = []) then (st, None)
  else
    let k := portfolio_key signer in
    (index_market st k m,
     Some {| ts_market_id := onchain dep m; ts_portfolio_key_taker := k;
             ts_collateral_delta_taker := sa_collateral_delta acc;
             ts_sealed_params_taker := sealed_params_after st k m; ts_maker_legs := sa_legs acc |}).

Definition settle_order (st : AppState) (p : OrderPayload) (signer : Address) (current_funding : Z)
    (fs : list Fill) : exec (AppState * option TakerSweep * list (list MatchWitness)) :=
  let prior_volume := default 0 (trader_volume st !! signer) in
  '(st, acc) ← settle_fills p signer prior_volume current_funding 0 st
    {| sa_legs := []; sa_collateral_delta := 0; sa_weighted_price := 0; sa_provable := [] |} fs;
  let st := add_volume st signer (sa_weighted_price acc) in
  let '(st, sweep) := build_sweep st (op_market_id p) signer acc in
  Ret (st, sweep, chunk_for_batching (sa_provable acc)).

(** The task spawned with the sweep, once its broadcast answered. *)
Definition finish_settlement (st : AppState) (m : MarketId) (signer nonce : Z) (sweep : TakerSweep)
    (tx_hash : option Z) : AppState :=
  let cache :=
    match tx_hash with
    | Some _ => position_cache st
    | None => foldl (λ c k, invalidate_position c k m) (position_cache st)
                (ts_portfolio_key_taker sweep :: (mf_portfolio_key <$> ts_maker_legs sweep))
    end in
  set_settlement st cache (<[(signer, nonce) := tx_hash]> (settlement_tx_hashes st)).

(** ** The handlers *)

(** What [post_order] did: its response, the broadcast it spawned and the proofs it started. *)
Record OrderOutcome := {
  oo_response : result OrderResponse ApiError;
  oo_sweep : option TakerSweep;
  oo_proofs : list (list MatchWitness);
}.

Definition refused (e : ApiError) : OrderOutcome :=
  {| oo_response := Err e; oo_sweep := None; oo_proofs := [] |}.

Definition order_response (r : SubmitResult) : OrderResponse :=
  if post_only_rejected r then OrderRejected "post_only order would have crossed"
  else if fill_or_kill_failed r then OrderRejected "insufficient liquidity for fill-or-kill"
  else match resting_id r with
       | Some id => Resting id
       | None => Filled None (length (fills r))
       end.

(** The gate, with the read of the trader's portfolio it performs when a contract is configured. *)
Definition collateral_gate (st : AppState) (signer : Address) (deposited : option Z)
    (p : OrderPayload) : AppState * result unit InsufficientCollateral :=
  match collateral_check dep with
  | None => (st, Ok ())
  | Some _ =>
      let '(index, existing) :=
        load_portfolio_state load_sealed (portfolio_markets st) (position_cache st)
          (portfolio_key signer) [] in
      (set_portfolio_markets st index,
       check_deposited_collateral (collateral_check dep) existing deposited (op_market_id p)
         (op_side p) (op_tick p) (op_qty p) (op_leverage p))
  end.

(** [post_order] after its gates. *)
Definition execute_order (st : AppState) (p : OrderPayload) (signer : Address)
    (now current_funding : Z) : exec (AppState * OrderOutcome) :=
  let m := op_market_id p in
  let st := register_owner st signer in
  '(r, st) ← match_order (backstop_config dep) st m (new_order p (signer_owner_id signer)) now;
  let st := record_prints st m (fills r) now in
  '(st, sweep, proofs) ← settle_order st p signer current_funding (fills r);
  Ret (st, {| oo_response := Ok (order_response r); oo_sweep := sweep; oo_proofs := proofs |}).

Definition post_order (st : AppState) (p : OrderPayload) (signer : Address)
    (now : Z) (deposited : option Z) (current_funding : Z) : exec (AppState * OrderOutcome) :=
  match accept_nonce st signer (op_nonce p) with
  | Err e => Ret (st, refused e)
  | Ok st =>
      if decide (MAX_SANE_TICK < op_tick p) then Ret (st, refused (InvalidTick (op_tick p)))
      else
        let '(st, gate) := collateral_gate st signer deposited p in
        match gate with
        | Err e => Ret (st, refused (InsufficientCollateralError e))
        | Ok _ => execute_order st p signer now current_funding
        end
  end.

(** A standing offer, always maker-only. *)
Definition offer_order (p : OfferPayload) (owner : OwnerId) : NewOrder :=
  {| no_side := common_side (of_side p); no_tick := of_tick p; no_qty := of_max_size p;
     no_owner := owner;
     no_tif := match of_expiry p with Some expiry => GoodTilTime expiry | None => GoodTilCancel end;
     post_only := true |}.

Definition post_offer (st : AppState) (p : OfferPayload) (signer : Address) (now : Z) :
    exec (AppState * result OfferResponse ApiError) :=
  match accept_nonce st signer (of_nonce p) with
  | Err e => Ret (st, Err e)
  | Ok st =>
      if decide (MAX_SANE_TICK < of_tick p) then Ret (st, Err (InvalidTick (of_tick p)))
      else
        let st := register_owner st signer in
        '(r, st) ← submit_order st (of_market_id p) (offer_order p (signer_owner_id signer)) now;
        if post_only_rejected r then Ret (st, Ok (OfferRejected "offer would have crossed the book"))
        else
          offer_id ← expect (resting_id r);
          Ret (st, Ok (OfferResting offer_id))
  end.

Definition post_cancel (st : AppState) (p : CancelPayload) (signer : Address) :
    exec (AppState * result CancelResponse ApiError) :=
  match accept_nonce st signer (cp_nonce p) with
  | Err e => Ret (st, Err e)
  | Ok st =>
      match books st !! cp_market_id p with
      | None => Ret (st, Ok NotFound)
      | Some book =>
          match owner_of book (cp_order_id p) with
          | None => Ret (st, Ok NotFound)
          | Some existing =>
              if decide (existing ≠ signer_owner_id signer)
              then Ret (st, Err (NotOrderOwner (cp_order_id p)))
              else
                '(cancelled, b) ← Book.cancel book (cp_order_id p);
                Ret (put_book st (cp_market_id p) b,
                     Ok match cancelled with
                        | Some (tick, qty) => Cancelled tick qty
                        | None => NotFound
                        end)
          end
      end
  end.

Definition post_portfolio_key (st : AppState) (p : PortfolioKeyRequest) (signer : Address) :
    AppState * result Key ApiError :=
  match accept_nonce st signer (pk_nonce p) with
  | Err e => (st, Err e)
  | Ok st => (st, Ok (portfolio_key signer))
  end.

(** ** Requests *)

(** What a request reads besides its payload: the clock, the chain, the funding index, and whether the
    market's stream of updates has ever been subscribed to. *)
Record Reading := { rd_now : Z; rd_deposited : option Z; rd_funding : Z; rd_subscribed : bool }.

Inductive Response :=
| ROrder (o : OrderOutcome)
| ROffer (r : result OfferResponse ApiError)
| RCancel (r : result CancelResponse ApiError)
| RPortfolioKey (r : result Key ApiError).

(** The four signed endpoints of [router]. *)
Definition handle (st : AppState) (p : Payload) (signer : Address) (rd : Reading) :
    exec (AppState * Response) :=
  match p with
  | POrder p =>
      '(st, o) ← post_order st p signer (rd_now rd) (rd_deposited rd) (rd_funding rd);
      Ret (st, ROrder o)
  | POffer p => '(st, r) ← post_offer st p signer (rd_now rd); Ret (st, ROffer r)
  | PCancel p => '(st, r) ← post_cancel st p signer; Ret (st, RCancel r)
  | PPortfolioKey p => let '(st, r) := post_portfolio_key st p signer in Ret (st, RPortfolioKey r)
  end.
End handlers.

(** ** Depth responses and query parsing *)

(** The loop of [group_levels]: the buckets so far and the running total. *)
Definition group_step (group : Z) (acc : list PriceLevel * Z) (lv : PriceLevel) :
    list PriceLevel * Z :=
  let bucket := u64_mul (pl_tick lv / group) group in
  let cum := u64_add acc.2 (pl_qty lv) in
  let fresh := {| pl_tick := bucket; pl_qty := pl_qty lv; cumulative := cum |} in
  match last acc.1 with
  | Some l =>
      if decide (pl_tick l = bucket)
      then (removelast acc.1 ++
              [{| pl_tick := bucket; pl_qty := u64_add (pl_qty l) (pl_qty lv); cumulative := cum |}], cum)
      else (acc.1 ++ [fresh], cum)
  | None => ([fresh], cum)
  end.

Definition group_levels (levels : list PriceLevel) (group : Z) : list PriceLevel :=
  if decide (group ≤ 1) then levels else (foldl (group_step group) ([], 0) levels).1.

Definition MAX_DEPTH_LEVELS : Z := 200.
Definition DEFAULT_DEPTH_LEVELS : Z := 50.
Definition MAX_CANDLE_LIMIT : Z := 500.
Definition DEFAULT_CANDLE_LIMIT : Z := 180.
Definition MAX_TRADES_LIMIT : Z := 200.
Definition DEFAULT_TRADES_LIMIT : Z := 50.

Definition interval_to_seconds (interval : string) : option Z :=
  if decide (interval = "1m") then Some 60
  else if decide (interval = "5m") then Some (5 * 60)
  else if decide (interval = "15m") then Some (15 * 60)
  else if decide (interval = "30m") then Some (30 * 60)
  else if decide (interval = "1h") then Some (60 * 60)
  else if decide (interval = "4h") then Some (4 * 60 * 60)
  else if decide (interval = "1d") then Some (24 * 60 * 60)
  else None.

Record OrderBookResponse := {
  ob_market_id : MarketId;
  ob_best_bid : option Tick;
  ob_best_ask : option Tick;
  ob_bids : list PriceLevel;
  ob_asks : list PriceLevel;
  ob_mark_price : option Z;
  ob_market : MarketSnapshot;
}.

Definition snapshot_default : BookSnapshot :=
  {| snap_best_bid := None; snap_best_ask := None; snap_bids := []; snap_asks := [] |}.
Definition market_default : MarketSnapshot :=
  {| last_price := None; last_trade_at := None; change_24h_bps := None; volume_24h := 0;
     high_24h := None; low_24h := None |}.

Definition build_orderbook_response_grouped (cfg : BackstopConfig) (st : AppState) (m : MarketId)
    (levels : nat) (group : Z) : exec OrderBookResponse :=
  snapshot ← match books st !! m with
             | Some book => Book.snapshot book levels
             | None => Ret snapshot_default
             end;
  mark_price ← match backstop st !! m with
               | Some b => reference_price b cfg
               | None => Ret None
               end;
  Ret {| ob_market_id := m; ob_best_bid := snap_best_bid snapshot;
         ob_best_ask := snap_best_ask snapshot;
         ob_bids := group_levels (snap_bids snapshot) group;
         ob_asks := group_levels (snap_asks snapshot) group; ob_mark_price := mark_price;
         ob_market := default market_default (MarketData.snapshot <$> market_data st !! m) |}.

Definition get_orderbook (cfg : BackstopConfig) (st : AppState) (m : MarketId)
    (levels group : option Z) : exec OrderBookResponse :=
  build_orderbook_response_grouped cfg st m
    (Z.to_nat (clamp (default DEFAULT_DEPTH_LEVELS levels) 1 MAX_DEPTH_LEVELS))
    (Z.max (default 1 group) 1).

(** [None] is the refusal of an unknown interval. *)
Definition get_candles (st : AppState) (m : MarketId) (interval : string) (limit : option Z) :
    option (list Candle) :=
  interval_secs ← interval_to_seconds interval;
  let n := Z.to_nat (clamp (default DEFAULT_CANDLE_LIMIT limit) 1 MAX_CANDLE_LIMIT) in
  Some (default [] ((λ tape, MarketData.candles tape interval_secs n) <$> market_data st !! m)).

Definition get_trades (st : AppState) (m : MarketId) (limit : option Z) : list TradeRecord :=
  let n := Z.to_nat (clamp (default DEFAULT_TRADES_LIMIT limit) 1 MAX_TRADES_LIMIT) in
  default [] ((λ tape, recent tape n) <$> market_data st !! m).
