(* ===== verification/MatcherBook.v ===== *)
(** * What the handlers rely on of a book

    One call of [submit] and the cancellation that may follow it, summarised for the handlers: the
    call returns, the book stays reachable, its arena grows by at most one slot, and the fills and
    the remainder account for the order. *)
From S2P Require Import Prelude Ints Types Occupancy Book BookWf BookOps BookSpec BookRefine BookProps.
Open Scope Z_scope.

(** ** The arena only grows when an order comes to rest *)

Ltac arena_steps :=
  repeat match goal with
  | H : _ ≫= _ = Ret _ |- _ => apply bind_Ret in H as (? & ? & ?)
  | H : (let '(_, _) := ?p in _) = Ret _ |- _ => destruct p
  | H : (if ?c then _ else _) = Ret _ |- _ => destruct c
  | H : Ret _ = Ret _ |- _ => injection H as <-
  end.

Lemma set_ladder_arena b s l : arena (set_ladder b s l) = arena b.
Proof. by destruct s. Qed.
Lemma set_best_arena b s t : arena (set_best b s t) = arena b.
Proof. by destruct s. Qed.

Lemma vec_set_length {A} (l : list A) i x l' : vec_set l i x = Ret l' → length l' = length l.
Proof. unfold vec_set. case_decide; [|done]. intros [= <-]. apply length_insert. Qed.

Lemma upd_level_arena b s i f b' : upd_level b s i f = Ret b' → arena b' = arena b.
Proof. unfold upd_level. intros H. arena_steps. apply set_ladder_arena. Qed.

Lemma upd_slot_arena b i f b' : upd_slot b i f = Ret b' → length (arena b') = length (arena b).
Proof. unfold upd_slot. intros H. arena_steps. by eapply vec_set_length. Qed.

Lemma raise_best_arena b s t : arena (raise_best b s t) = arena b.
Proof. unfold raise_best. repeat case_match; try done; apply set_best_arena. Qed.

Lemma push_back_arena b s t i b' : push_back b s t i = Ret b' → length (arena b') = length (arena b).
Proof.
  unfold push_back. intros ([l li] & _ & H)%bind_Ret. apply bind_Ret in H as (lv & _ & H).
  apply bind_Ret in H as (b1 & Hb1 & H). apply bind_Ret in H as (n & _ & H).
  apply bind_Ret in H as (b2 & Hb2 & [= <-]). rewrite raise_best_arena, (upd_level_arena _ _ _ _ _ Hb2).
  case_decide.
  - apply bind_Ret in Hb1 as (b3 & Hb3 & Hb1). apply bind_Ret in Hb1 as (l' & _ & [= <-]).
    by rewrite set_ladder_arena, (upd_level_arena _ _ _ _ _ Hb3), set_ladder_arena.
  - apply bind_Ret in Hb1 as (b3 & Hb3 & Hb1). apply bind_Ret in Hb1 as (b4 & Hb4 & Hb1).
    rewrite (upd_level_arena _ _ _ _ _ Hb1), (upd_slot_arena _ _ _ _ Hb4), (upd_slot_arena _ _ _ _ Hb3).
    by rewrite set_ladder_arena.
Qed.

Lemma alloc_arena b nd b' x : alloc b nd = Ret (b', x) → (length (arena b') ≤ S (length (arena b)))%nat.
Proof.
  unfold alloc. destruct (free b).
  - intros [= <- _]. simpl. rewrite length_app. simpl. lia.
  - intros (a & Ha & [= <- _])%bind_Ret. simpl. by rewrite (vec_set_length _ _ _ _ Ha); lia.
Qed.

Lemma match_and_rest_arena b A o now out r b' :
  inv b A → match_and_rest b o now out = Ret (r, b') →
  (length (arena b') ≤ S (length (arena b)))%nat.
Proof.
  intros Hinv. unfold match_and_rest. cbv zeta.
  pose proof (flat_length _ _ _ (opposite_side (no_side o)) (inv_core _ _ Hinv)) as Hfl.
  pose proof (match_loop_spec (S (S (length (arena b)))) b A (no_side o) (no_tick o) (no_owner o) now
                (no_qty o) {| acc_fills := []; acc_expired := out; acc_self := [] |} Hinv ltac:(lia)) as Hm.
  destruct (spec_match _ _ _ _ _ _ _) as [[l' qty'] acc']. destruct Hm as (b1 & A1 & -> & _ & _ & _ & Hl).
  rewrite ret_bind. cbv beta iota. destruct (_ && _).
  - intros ([b2 x] & Hal & H)%bind_Ret. apply bind_Ret in H as (b3 & Hpb & [= _ <-]).
    rewrite (push_back_arena _ _ _ _ _ Hpb). apply alloc_arena in Hal. lia.
  - intros [= _ <-]. lia.
Qed.

Lemma submit_arena b o now r b' :
  reachable b → submit b o now = Ret (r, b') → (length (arena b') ≤ S (length (arena b)))%nat.
Proof.
  intros [A Hinv]%reachable_inv. unfold submit. intros ([b1 out] & Hp & H)%bind_Ret.
  assert (∃ A1, inv b1 A1 ∧ length (arena b1) = length (arena b)) as (A1 & Hinv1 & Hl).
  { destruct (post_only o); [|injection Hp as <- <-; by exists A]. unfold prune_expired_head in Hp.
    pose proof (flat_length _ _ _ (opposite_side (no_side o)) (inv_core _ _ Hinv)) as Hfl.
    destruct (prune_loop_spec (S (length (arena b))) b A (opposite_side (no_side o)) now [] Hinv)
      as (b2 & A2 & Hrun & Hinv2 & _ & _ & Hl); [lia|]. rewrite Hrun in Hp. injection Hp as <- <-.
    by exists A2. }
  cbv zeta in H. destruct (_ && _); [injection H as _ <-; lia|].
  apply bind_Ret in H as (killed & _ & H). destruct killed; [injection H as _ <-; lia|].
  rewrite <- Hl. by eapply match_and_rest_arena.
Qed.

(** ** One submission *)

(** The order that rests under [x]. *)
Definition rests_as (b : OrderBook) (o : NewOrder) (x : OrderId) (q : Qty) : Prop :=
  (no_tick o, (x, {| r_qty := q; r_owner := no_owner o; r_expiry := expiry_of (no_tif o) |}))
    ∈ resting b (no_side o).

(** A fill inside the limit and both sizes of the order it fills. *)
Definition inside_order (s : Side) (tick : Tick) (qty : Qty) (f : Fill) : Prop :=
  crosses s tick (f_tick f) = true ∧ f_qty f ≤ maker_size_before f ≤ u64_max ∧
  f_qty f ≤ taker_size_before f ≤ qty.

(** How [submit]'s result accounts for the order. *)
Record submit_account (b b' : OrderBook) (o : NewOrder) (r : SubmitResult) : Prop := {
  sa_fills : Forall (λ f, 0 < f_qty f) (fills r);
  sa_ticks : Forall (λ f, in_u 64 (f_tick f)) (fills r);
  sa_sum : sumZ (f_qty <$> fills r) + resting_qty r ≤ no_qty o;
  sa_exact : outcome_of r = Matched → rests (no_tif o) = true →
             sumZ (f_qty <$> fills r) + resting_qty r = no_qty o;
  sa_unmatched : outcome_of r ≠ Matched → fills r = [];
  sa_killed : outcome_of r = Killed → no_tif o = FillOrKill;
  sa_fok : no_tif o = FillOrKill → outcome_of r = Matched → sumZ (f_qty <$> fills r) = no_qty o;
  sa_rest : match resting_id r with
            | Some x => outcome_of r = Matched ∧ 0 < resting_qty r ∧ rests (no_tif o) = true ∧
                        rests_as b' o x (resting_qty r)
            | None => resting_qty r = 0
            end;
  sa_inside : Forall (inside_order (no_side o) (no_tick o) (no_qty o)) (fills r);
}.

Lemma spec_match_inside s tick owner now l N qty acc l' qty' acc' :
  positive l → 0 ≤ qty ≤ N → spec_match s tick owner now l qty acc = (l', qty', acc') →
  Forall (inside_order s tick N) (acc_fills acc) → Forall (inside_order s tick N) (acc_fills acc').
Proof.
  intros Hpos. revert qty acc.
  induction Hpos as [|[t [x d]] l Hd Hl IH]; intros qty acc Hq Hm Hacc; simpl in Hm.
  { by injection Hm as _ _ <-. }
  simpl in Hd. case_decide; [|by injection Hm as _ _ <-].
  destruct (crosses s tick t) eqn:Hcr; [|by injection Hm as _ _ <-].
  destruct (is_expired now (r_expiry d)); [by eapply IH in Hm|]. case_decide; [by eapply IH in Hm|].
  assert (Hf : ∀ f, f_tick f = t → f_qty f = Z.min qty (r_qty d) → maker_size_before f = r_qty d →
            taker_size_before f = qty → Forall (inside_order s tick N) (acc_fills (push_fill f acc))).
  { intros f E1 E2 E3 E4. apply Forall_app. split; [done|]. constructor; [|constructor].
    unfold inside_order. rewrite E1, E2, E3, E4. split; [done|]. lia. }
  case_decide.
  - eapply IH in Hm; [done|lia|]. by apply Hf.
  - injection Hm as _ _ <-. by apply Hf.
Qed.

(** Every resting order's tick is a [u64]. *)
Lemma resting_ticks b s : reachable b → Forall (λ e : Entry, in_u 64 e.1) (resting b s).
Proof.
  intros [A Hinv]%reachable_inv. rewrite (resting_flat _ _ _ Hinv). apply Forall_forall.
  intros e (i & q & Hq & -> & _)%elem_of_flat. apply lookup_lt_Some in Hq.
  pose proof (ic_range _ _ _ (inv_core _ _ Hinv) s). unfold u64_max in *. int_range.
Qed.

Lemma elem_of_insert_entry s e l : e ∈ insert_entry s e l.
Proof. induction l as [|x l IH]; simpl; [by left|]. case_decide; [by left|by right]. Qed.

Lemma submit_accounts b o now :
  reachable b → submit_ok b o →
  ∃ r b', submit b o now = Ret (r, b') ∧ reachable b' ∧ submit_account b b' o r ∧
    (length (arena b') ≤ S (length (arena b)))%nat.
Proof.
  intros Hr Hok.
  destruct (submit_run b o now Hr Hok) as (_ & _ & _ & _ & _ & _ & Hpos & Hsort).
  destruct (matched_side_ok b o now Hpos Hsort) as (Hpl & Hsl & [l1 Hl1] & _).
  destruct (submit_cases b o now Hr Hok) as (r & b' & Hrun & _ & Hcase).
  exists r, b'. split; [done|]. split.
  { unfold reachable. eapply rtc_r; [exact Hr|]. destruct Hok as (? & ? & ?). by eapply step_submit. }
  split; [|by eapply submit_arena]. pose proof Hok as (_ & Hq & _).
  destruct (outcome_of r) eqn:Hout.
  - destruct Hcase as (_ & _ & Hf & Hid & Hrq & _).
    split; rewrite ?Hf, ?Hrq, ?Hid, ?Hout; try done; simpl; lia.
  - destruct Hcase as (Hfok & _ & Hf & Hid & Hrq & _).
    split; rewrite ?Hf, ?Hrq, ?Hid, ?Hout; try done; simpl; lia.
  - destruct Hcase as (_ & Hen & out & left & acc & Hm & Hf & _ & _ & Hrest).
    pose proof (spec_match_fills _ _ _ _ _ (no_qty o) _ _ _ _ Hpl ltac:(lia) Hm)
      as (Hleft & _ & fs & Hfs & Hsum & Hall).
    pose proof (spec_match_takes (no_side o) (no_tick o) (no_owner o) now _ (no_qty o) (acc_empty out)
                  Hpl Hsl ltac:(lia)) as Htake. rewrite Hm in Htake. simpl in Htake.
    rewrite Hfs in Hf. simpl in Hf. unfold rested in Hrest.
    assert (Hrq : resting_qty r = if rests (no_tif o) then left else 0).
    { destruct (rests (no_tif o)); [rewrite andb_true_r in Hrest|rewrite andb_false_r in Hrest; apply Hrest].
      case_bool_decide; [by destruct Hrest as (x & _ & -> & _)|destruct Hrest as (_ & -> & _); lia]. }
    split; rewrite ?Hf, ?Hrq, ?Hout; try done.
    + eapply Forall_impl; [exact Hall|]. intros f (d & Hd). lia.
    + eapply Forall_impl; [exact Hall|]. intros f (d & Hin & _).
      pose proof (resting_ticks b (opposite_side (no_side o)) Hr) as Ht. rewrite Hl1 in Ht.
      apply Forall_app in Ht as [_ Ht]. rewrite Forall_forall in Ht. by apply (Ht (f_tick f, (maker_id f, d))).
    + destruct (rests (no_tif o)); lia.
    + intros _ ->. lia.
    + intros Hfok _. specialize (Hen Hfok). lia.
    + destruct (bool_decide (0 < left)) eqn:Hlp; [|destruct Hrest as (-> & ? & _); congruence].
      apply bool_decide_eq_true in Hlp. destruct (rests (no_tif o)); [|destruct Hrest as (-> & ? & _); congruence].
      destruct Hrest as (x & -> & _ & Hres). split_and!; [done|done|done|].
      unfold rests_as. rewrite Hres. apply elem_of_insert_entry.
    + cbn in Hfs. rewrite <- Hfs. eapply spec_match_inside; [exact Hpl| |exact Hm|constructor]. lia.
Qed.

(** ** Cancelling what just came to rest *)

Lemma cancel_reachable b x r b' : reachable b → 0 ≤ x → cancel b x = Ret (r, b') → reachable b'.
Proof. intros Hr Hx Hrun. eapply rtc_r; [exact Hr|]. by eapply step_cancel. Qed.

Lemma cancel_resting b s t x d :
  reachable b → (t, (x, d)) ∈ resting b s →
  ∃ b' l1 l2, cancel b x = Ret (Some (t, r_qty d), b') ∧ reachable b' ∧
    resting b s = l1 ++ (t, (x, d)) :: l2 ∧ resting b' s = l1 ++ l2 ∧
    resting b' (opposite_side s) = resting b (opposite_side s) ∧
    length (arena b') = length (arena b).
Proof.
  intros Hr Hin. destruct (reachable_inv b Hr) as [A Hinv]. rewrite (resting_flat _ _ _ Hinv) in Hin.
  destruct (cancel_live_spec b A s t x d Hinv Hin) as (b' & A' & g1 & g2 & Hrun & Hinv' & Hf & Hf' & Ho & Hl).
  assert (0 ≤ x).
  { apply elem_of_flat in Hin as (i & q & Hq & _ & Hx). simpl in Hx.
    by destruct (queue_elem _ _ _ (inv_core _ _ Hinv) _ _ _ _ _ Hq Hx) as [? _]; lia. }
  exists b', g1, g2. rewrite !(resting_flat b A), !(resting_flat b' A') by done.
  split_and!; [done|by eapply cancel_reachable|done|done| |done].
  apply Ho, opposite_ne.
Qed.

(** Cancelling a live id. *)
Lemma cancel_owned b x w :
  reachable b → 0 ≤ x → owner_of b x = Some w →
  ∃ s t d b' l1 l2, cancel b x = Ret (Some (t, r_qty d), b') ∧ r_owner d = w ∧ reachable b' ∧
    resting b s = l1 ++ (t, (x, d)) :: l2 ∧ resting b' s = l1 ++ l2 ∧
    resting b' (opposite_side s) = resting b (opposite_side s) ∧
    length (arena b') = length (arena b).
Proof.
  intros Hr Hx. destruct (reachable_inv b Hr) as [A Hinv]. unfold owner_of.
  destruct (arena b !! Z.to_nat x) as [[nd|]|] eqn:Ha; [|done..]. intros [= <-].
  destruct (live_flat b A x nd (inv_core _ _ Hinv) Hx Ha) as (d & p & n & Hnd & Hin).
  rewrite <- (resting_flat b A) in Hin by done.
  destruct (cancel_resting b _ _ x d Hr Hin) as (b' & l1 & l2 & H).
  exists (n_side nd), (n_tick nd), d, b', l1, l2. apply (f_equal n_owner) in Hnd.
  destruct H as (?&?&?&?&?&?). by split_and!.
Qed.
