(* ===== verification/MatcherProps.v ===== *)
(** * The matcher's request handlers: theorems

    What an order does across the book and the backstop, and what the backstop's rescue ignores. *)
From S2P Require Import Prelude Ints Types U256 I256 Risk Averages Fees MarketData Backstop.
From S2P Require Import Positions Liquidation Occupancy Book BookWf BookOps BookSpec BookRefine BookProps.
From S2P Require Import Wire Matcher MatcherBook.
Open Scope Z_scope.

(** ** Specification *)

(** What the backstop answers to a request, in closed form. *)
Definition maker_offer (s : BackstopState) (cfg : BackstopConfig) (side : Side) (requested : Z) :
    option (Z * Z) :=
  match last (history s) with
  | Some live =>
      let ref := reference_spec s cfg in
      if decide (ref ≠ 0 ∧
                 abs_diff live ref * BPS_DENOMINATOR / ref ≤ last_look_threshold_bps cfg ∧
                 Z.min requested (notional_cap cfg) ≠ 0)
      then Some (match side with
                 | Long => Z.min (center_spec s cfg + half_spread_spec s cfg) u64_max
                 | Short => center_spec s cfg - half_spread_spec s cfg
                 end, Z.min requested (notional_cap cfg))
      else None
  | None => None
  end.

(** What the book left unserved, and whether only the whole of it may be served. *)
Definition unserved (o : NewOrder) (r : SubmitResult) : option (Z * bool) :=
  let left := no_qty o - sumZ (f_qty <$> fills r) in
  if fill_or_kill_failed r then Some (no_qty o, true)
  else if is_ioc (no_tif o) && bool_decide (0 < left) then Some (left, false)
  else match resting_id r with Some _ => Some (resting_qty r, true) | None => None end.

(** The backstop's fill, if any: its price, its size and the request it answers. *)
Definition accepted_offer (s : BackstopState) (cfg : BackstopConfig) (o : NewOrder)
    (r : SubmitResult) : option (Z * Z * Z) :=
  match unserved o r with
  | Some (requested, whole) =>
      match maker_offer s cfg (no_side o) requested with
      | Some (price, q) =>
          if bool_decide (q = requested) || negb whole then Some (price, q, requested) else None
      | None => None
      end
  | None => None
  end.

(** [b'] is [b] without the order resting under [x] on side [s]. *)
Definition without (b b' : OrderBook) (s : Side) (x : OrderId) : Prop :=
  ∃ t d l1 l2, resting b s = l1 ++ (t, (x, d)) :: l2 ∧ resting b' s = l1 ++ l2 ∧
    resting b' (opposite_side s) = resting b (opposite_side s).

(** ** The backstop's side *)

Lemma quote_and_check_offer s cfg side q :
  state_ok s → config_ok cfg → quote_and_check s cfg side q = Ret (maker_offer s cfg side q).
Proof.
  intros Hs Hc. unfold maker_offer. destruct (last (history s)) as [live|] eqn:Hl.
  - by rewrite (quote_and_check_Ret s cfg side q live Hs Hc Hl).
  - apply last_None in Hl. unfold quote_and_check, quote, trailing_mean. by rewrite Hl.
Qed.

Lemma maker_offer_bounds s cfg side q price k :
  config_ok cfg → 0 ≤ q → maker_offer s cfg side q = Some (price, k) → 0 < k ≤ q.
Proof.
  intros (_ & Hcap & _) Hq. unfold maker_offer. destruct (last _); [|done]. cbv zeta.
  case_decide; [|done]. intros [= _ <-]. int_range.
Qed.

Lemma commit_fill_ok s side q : state_ok s → state_ok (commit_fill s side q).
Proof.
  intros (? & ? & _). split_and!; [done..|]. unfold commit_fill, sat_s. cbn [inventory].
  destruct side; int_range.
Qed.

Lemma serve_whole_spec s cfg side q :
  state_ok s → config_ok cfg →
  serve_whole s cfg side q =
    Ret match maker_offer s cfg side q with
        | Some (price, k) => if decide (k = q) then (commit_fill s side k, Some (price, k)) else (s, None)
        | None => (s, None)
        end.
Proof. intros Hs Hc. unfold serve_whole. by rewrite quote_and_check_offer by done. Qed.

Lemma try_fill_spec s cfg side q :
  state_ok s → config_ok cfg →
  try_fill s cfg side q =
    Ret match maker_offer s cfg side q with
        | Some (price, k) => (commit_fill s side k, Some (price, k))
        | None => (s, None)
        end.
Proof.
  intros Hs Hc. unfold try_fill. rewrite quote_and_check_offer by done. rewrite ret_bind.
  by destruct (maker_offer s cfg side q) as [[]|].
Qed.

(** ** Reading the maps back *)

Lemma book_of_put st m b : book_of (put_book st m b) m = b.
Proof. unfold book_of. simpl. by rewrite lookup_insert_eq. Qed.
Lemma maker_of_put st m s : maker_of (put_maker st m s) m = s.
Proof. unfold maker_of. simpl. by rewrite lookup_insert_eq. Qed.
#[export] Hint Rewrite book_of_put maker_of_put : cerdic.

(** The quantities of fills that fit an order never wrap. *)
Lemma filled_exact (fs : list Fill) a :
  Forall (λ f, 0 < f_qty f) fs → 0 ≤ a → a + sumZ (f_qty <$> fs) ≤ u64_max →
  foldl u64_add a (f_qty <$> fs) = a + sumZ (f_qty <$> fs) ∧ 0 ≤ sumZ (f_qty <$> fs).
Proof.
  intros Hf. revert a. induction Hf as [|f fs Hf _ IH]; intros a Ha Hb; [cbn; lia|].
  rewrite fmap_cons, sumZ_cons in *. cbn [foldl].
  destruct (IH 0) as [_ Hnn]; [lia| |]; [lia|]. unfold u64_max in *.
  destruct (IH (u64_add a (f_qty f))) as [IH1 _];
    unfold u64_add in *; rewrite wrapu_small in * by int_range; [lia|lia|]. lia.
Qed.

(** ** Matching with the rescue *)

(** The rescue's effect, given what the backstop accepted. *)
Definition rescued (cfg : BackstopConfig) (st : AppState) (m : MarketId) (o : NewOrder)
    (r0 : SubmitResult) (b0 : OrderBook) (r : SubmitResult) (b' : OrderBook)
    (bs : gmap MarketId BackstopState) : Prop :=
  match accepted_offer (maker_of st m) cfg o r0 with
  | Some (price, q, requested) =>
      r = with_fill r0 (backstop_fill price q requested) None 0 ∧
      bs = <[m := commit_fill (maker_of st m) (no_side o) q]> (backstop st) ∧
      match resting_id r0 with Some x => without b0 b' (no_side o) x | None => b' = b0 end
  | None => r = r0 ∧ b' = b0 ∧ (bs = backstop st ∨ bs = <[m := maker_of st m]> (backstop st))
  end.

Lemma put_maker_eq st m b s :
  put_maker (put_book st m b) m s = set_backstop (put_book st m b) (<[m := s]> (backstop st)).
Proof. done. Qed.

Lemma put_book_again st m b s b' :
  put_book (put_maker (put_book st m b) m s) m b' =
    set_backstop (put_book st m b') (<[m := s]> (backstop st)).
Proof. unfold put_book, set_books, put_maker, set_backstop. simpl. by rewrite insert_insert_eq. Qed.

Lemma rescue_spec cfg st m o b b0 r0 :
  config_ok cfg → state_ok (maker_of st m) → 0 ≤ no_qty o ≤ u64_max →
  submit_account b b0 o r0 → Book.reachable b0 →
  ∃ r b' bs, rescue cfg (put_book st m b0) m o r0 = Ret (r, set_backstop (put_book st m b') bs) ∧
    Book.reachable b' ∧ length (arena b') = length (arena b0) ∧ rescued cfg st m o r0 b0 r b' bs.
Proof.
  intros Hc Hs Hq [Hpos _ Hsum _ Hun Hkill _ Hrest] Hr. unfold rescue, rescued, accepted_offer, unserved.
  destruct (filled_exact (fills r0) 0 Hpos ltac:(lia)) as [Hfold Hnn].
  { destruct (resting_id r0); [destruct Hrest|]; lia. }
  rewrite Hfold, Z.add_0_l. set (left := no_qty o - sumZ (f_qty <$> fills r0)) in *.
  assert (0 ≤ resting_qty r0) by (destruct (resting_id r0); [destruct Hrest|]; lia).
  assert (sat_u 64 left = left) as -> by (unfold sat_u, left, u64_max in *; lia).
  assert (Hdrop : fill_or_kill_failed r0 = true ∨ is_ioc (no_tif o) = true →
            resting_id r0 = None ∧ resting_qty r0 = 0).
  { intros Hd. destruct (resting_id r0) as [x|]; [|done]. destruct Hrest as (Hm & _ & Ht & _).
    destruct Hd as [Hk|Hi]; [|by destruct (no_tif o)].
    unfold outcome_of in Hm. rewrite Hk in Hm. by destruct (post_only_rejected r0). }
  unfold rescue_dropped, rescue_resting.
  replace (maker_of (put_book st m b0) m) with (maker_of st m) by done.
  destruct (fill_or_kill_failed r0) eqn:Hk.
  { rewrite orb_true_r. destruct Hdrop as [Hid Hrq]; [by left|]. rewrite serve_whole_spec by done. rewrite Hid, Hrq.
    destruct (maker_offer _ _ _ _) as [[price q]|].
    - cbn [negb]. rewrite orb_false_r. destruct (decide (q = no_qty o)) as [->|Hne].
      + rewrite bool_decide_eq_true_2 by done. eexists _, b0, _. split; [done|]. by split_and!.
      + rewrite bool_decide_eq_false_2 by done. eexists _, b0, _. split; [done|]. split_and!; try done. by right.
    - eexists _, b0, _. split; [done|]. split_and!; try done. by right. }
  rewrite orb_false_r. destruct (is_ioc (no_tif o) && bool_decide (0 < left)) eqn:Hi.
  { apply andb_true_iff in Hi as [Hi _]. destruct Hdrop as [Hid Hrq]; [by right|]. rewrite try_fill_spec by done.
    rewrite Hid, Hrq. destruct (maker_offer _ _ _ _) as [[price q]|].
    - cbn [negb]. rewrite orb_true_r. eexists _, b0, _. split; [done|]. by split_and!.
    - eexists _, b0, _. split; [done|]. split_and!; try done. by right. }
  destruct (resting_id r0) as [x|] eqn:Hid; cycle 1.
  { exists r0, b0, (backstop st). split; [done|]. split_and!; try done. by left. }
  rewrite serve_whole_spec by done.
  destruct (maker_offer _ _ _ _) as [[price q]|] eqn:Hoff; cycle 1.
  { rewrite ret_bind. cbv beta iota zeta. eexists _, b0, _. split; [done|]. split_and!; try done. by right. }
  cbn [negb]. rewrite orb_false_r. destruct (decide (q = resting_qty r0)) as [->|Hne]; cycle 1.
  { rewrite bool_decide_eq_false_2 by done. rewrite ret_bind. cbv beta iota zeta.
    eexists _, b0, _. split; [done|]. split_and!; try done. by right. }
  rewrite bool_decide_eq_true_2 by done. rewrite ret_bind. cbv beta iota zeta.
  destruct Hrest as (_ & _ & _ & Hin).
  destruct (cancel_resting b0 (no_side o) _ x _ Hr Hin) as (b' & l1 & l2 & Hcan & Hr' & Hl & Hl' & Ho & Hlen).
  replace (book_of (put_maker (put_book st m b0) m _) m) with b0 by (symmetry; apply book_of_put).
  rewrite Hcan, ret_bind. cbv beta iota. rewrite put_book_again.
  eexists _, b', _. split; [done|]. split_and!; try done. by eexists _, _, l1, l2.
Qed.

Lemma match_order_run cfg st m o now :
  config_ok cfg → Book.reachable (book_of st m) → state_ok (maker_of st m) →
  submit_ok (book_of st m) o →
  ∃ r0 b0 r b' bs, submit (book_of st m) o now = Ret (r0, b0) ∧
    submit_account (book_of st m) b0 o r0 ∧
    match_order cfg st m o now = Ret (r, set_backstop (put_book st m b') bs) ∧
    Book.reachable b' ∧ (length (arena b') ≤ S (length (arena (book_of st m))))%nat ∧
    rescued cfg st m o r0 b0 r b' bs.
Proof.
  intros Hc Hr Hs Hok. destruct (submit_accounts _ _ now Hr Hok) as (r0 & b0 & Hrun & Hr0 & Hacc & Hlen).
  pose proof Hok as (_ & Hq & _).
  destruct (rescue_spec cfg st m o _ b0 r0 Hc Hs Hq Hacc Hr0) as (r & b' & bs & Hres & Hr' & Hlen' & Hresc).
  exists r0, b0, r, b', bs. split; [done|]. split; [done|]. split_and!; [|done|lia|done].
  unfold match_order, submit_order. rewrite Hrun, !ret_bind. cbv beta iota. by rewrite Hres.
Qed.

(** The taker never trades more than the order, however the rescue went. *)
Lemma rescued_totals cfg st m b o r0 b0 r b' bs :
  config_ok cfg → 0 ≤ no_qty o → submit_account b b0 o r0 → rescued cfg st m o r0 b0 r b' bs →
  sumZ (f_qty <$> fills r) + resting_qty r ≤ no_qty o ∧
  (no_tif o = FillOrKill → sumZ (f_qty <$> fills r) = no_qty o ∨ fills r = []) ∧
  (rests (no_tif o) = true → post_only_rejected r = false →
     sumZ (f_qty <$> fills r) + resting_qty r = no_qty o) ∧
  Forall (λ f, 0 < f_qty f) (fills r).
Proof.
  intros Hc Hq [Hpos _ Hsum Hex Hun Hkill Hfok Hrest] Hresc. unfold rescued, accepted_offer in Hresc.
  assert (Hrej : rests (no_tif o) = true → post_only_rejected r0 = false → outcome_of r0 = Matched).
  { intros Ht Hp. destruct (outcome_of r0) eqn:E; [|by rewrite (Hkill eq_refl) in Ht|done].
    unfold outcome_of in E. rewrite Hp in E. by destruct (fill_or_kill_failed r0). }
  assert (Hkd : fill_or_kill_failed r0 = true → outcome_of r0 ≠ Matched).
  { intros Hk E. unfold outcome_of in E. rewrite Hk in E. by destruct (post_only_rejected r0). }
  assert (Hbase : no_tif o = FillOrKill → sumZ (f_qty <$> fills r0) = no_qty o ∨ fills r0 = []).
  { intros Ht. destruct (outcome_of r0); [right; by apply Hun..|left; by apply Hfok]. }
  assert (H0 : 0 ≤ resting_qty r0) by (destruct (resting_id r0); [destruct Hrest|]; lia).
  destruct (unserved o r0) as [[req whole]|] eqn:Hu; cycle 1.
  { destruct Hresc as (-> & _). split_and!; [lia|done|intros; auto|done]. }
  destruct (maker_offer _ _ _ _) as [[price q]|] eqn:Hoff; cycle 1.
  { destruct Hresc as (-> & _). split_and!; [lia|done|intros; auto|done]. }
  destruct (bool_decide (q = req) || negb whole) eqn:Hacc; cycle 1.
  { destruct Hresc as (-> & _). split_and!; [lia|done|intros; auto|done]. }
  destruct Hresc as (-> & _ & _). cbn [with_fill fills resting_qty post_only_rejected].
  rewrite fmap_app, sumZ_app. cbn [fmap list_fmap sumZ foldr backstop_fill f_qty]. rewrite Z.add_0_r.
  unfold unserved in Hu. destruct (fill_or_kill_failed r0) eqn:Hk.
  { injection Hu as <- <-. rewrite (Hun (Hkd eq_refl)) in *. cbn in *.
    apply maker_offer_bounds in Hoff; [|done..]. rewrite orb_false_r in Hacc. apply bool_decide_eq_true in Hacc.
    split_and!; [lia|lia|lia|]. constructor; [|constructor]. cbn. lia. }
  destruct (is_ioc (no_tif o) && bool_decide (0 < no_qty o - sumZ (f_qty <$> fills r0))) eqn:Hi.
  { injection Hu as <- <-. apply andb_true_iff in Hi as [Hi Hlp%bool_decide_eq_true].
    apply maker_offer_bounds in Hoff; [|done|lia]. destruct (no_tif o); try done.
    split_and!; [lia|done|done|]. apply Forall_app. split; [done|]. constructor; [cbn; lia|constructor]. }
  destruct (resting_id r0) as [x|]; [|done]. injection Hu as <- <-.
  destruct Hrest as (Hm & Hrq & Ht & _). apply maker_offer_bounds in Hoff; [|done|lia].
  rewrite orb_false_r in Hacc. apply bool_decide_eq_true in Hacc as ->. specialize (Hex Hm Ht).
  split_and!; [lia|lia|lia|]. apply Forall_app. split; [done|]. constructor; [cbn; lia|constructor].
Qed.

(** ** A market the backstop quotes *)

Definition demo_market : MarketId := "EURC/USDC".
Definition demo_dep : Deployment :=
  {| backstop_config := config_default; collateral_check := None; onchain := λ _, 0 |}.
Definition quoted_state : AppState := set_backstop new_state {[ demo_market := demo_state ]}.
Definition demo_payload (side : OrderSide) (tick qty : Z) (tif : TimeInForce) (po : bool)
    (nonce : Z) : OrderPayload :=
  {| op_market_id := demo_market; op_side := side; op_tick := tick; op_qty := qty; op_tif := tif;
     op_post_only := po; op_nonce := nonce; op_leverage := 10 |}.
Definition demo_offer (side : OrderSide) (tick qty nonce : Z) : OfferPayload :=
  {| of_market_id := demo_market; of_side := side; of_tick := tick; of_max_size := qty;
     of_expiry := None; of_group := None; of_reduce_only := false; of_nonce := nonce |}.

(** Requests on a deployment with checked arithmetic, nothing on chain and no collateral gate. *)
Definition demo_handle (st : AppState) (p : Payload) (signer : Address) : exec (AppState * Response) :=
  @handle checked_i256 (λ _ _, None) id (λ _, 0) demo_dep st p signer
    {| rd_now := 0; rd_deposited := None; rd_funding := 0; rd_subscribed := false |}.

(** The response to an order, and the size and entry price its signer then holds. *)
Definition order_result (m : exec (AppState * Response)) (signer : Address) :
    option (result OrderResponse ApiError * option (Z * Z)) :=
  match m with
  | Ret (st, ROrder o) =>
      Some (oo_response o,
            (λ p, (pm_signed_size p, pm_entry_price p)) <$> position_cache st !! (signer, demo_market))
  | _ => None
  end.

Definition after (m : exec (AppState * Response)) (k : AppState → exec (AppState * Response)) :
    exec (AppState * Response) := '(st, _) ← m; k st.

Lemma demo_state_ok : state_ok demo_state.
Proof.
  split_and!; [|vm_compute; lia|by vm_compute].
  repeat (apply Forall_cons; split; [by vm_compute|]); constructor.
Qed.
Lemma config_default_ok : config_ok config_default.
Proof. split_and!; vm_compute; (done || lia). Qed.
Lemma reachable_new : Book.reachable Book.new.
Proof. apply rtc_refl. Qed.
#[export] Hint Resolve demo_state_ok config_default_ok reachable_new : cerdic.

(** ** Properties *)

(** C2: What an order does to its market.  On a reachable book, a backstop state in range and an
    order in the machine ranges, matching with the rescue returns.  It is the book's own submission
    followed by at most one fill from the backstop, made exactly when the backstop's offer (its
    quote under the last look, capped) meets what the book left unserved: any part of an immediate
    order's leftover, but only the whole of a killed or of a resting order, the latter leaving the
    book.  The order never trades more than its quantity, a fill-or-kill order trades all of it or
    nothing, an order that may rest and is not rejected is accounted for exactly, and no other
    market is touched. *)
Theorem match_order_correct cfg st m o now :
  config_ok cfg → Book.reachable (book_of st m) → state_ok (maker_of st m) →
  submit_ok (book_of st m) o →
  ∃ r0 b0 r st', submit (book_of st m) o now = Ret (r0, b0) ∧
    match_order cfg st m o now = Ret (r, st') ∧
    Book.reachable (book_of st' m) ∧ state_ok (maker_of st' m) ∧
    (∀ m', m' ≠ m → book_of st' m' = book_of st m' ∧ maker_of st' m' = maker_of st m') ∧
    match accepted_offer (maker_of st m) cfg o r0 with
    | Some (price, q, requested) =>
        r = with_fill r0 (backstop_fill price q requested) None 0 ∧
        maker_of st' m = commit_fill (maker_of st m) (no_side o) q ∧
        match resting_id r0 with
        | Some x => without b0 (book_of st' m) (no_side o) x
        | None => book_of st' m = b0
        end
    | None => r = r0 ∧ book_of st' m = b0 ∧ maker_of st' m = maker_of st m
    end ∧
    sumZ (f_qty <$> fills r) + resting_qty r ≤ no_qty o ∧
    (no_tif o = FillOrKill → sumZ (f_qty <$> fills r) = no_qty o ∨ fills r = []) ∧
    (rests (no_tif o) = true → post_only_rejected r = false →
       sumZ (f_qty <$> fills r) + resting_qty r = no_qty o).
Proof.
  intros Hc Hr Hs Hok. pose proof Hok as (_ & Hq & _).
  destruct (match_order_run cfg st m o now Hc Hr Hs Hok)
    as (r0 & b0 & r & b' & bs & Hsub & Hacc & Hrun & Hr' & _ & Hresc).
  destruct (rescued_totals _ _ _ _ _ _ _ _ _ _ Hc (proj1 Hq) Hacc Hresc) as (H1 & H2 & H3 & _).
  exists r0, b0, r, (set_backstop (put_book st m b') bs).
  assert (Hbook : book_of (set_backstop (put_book st m b') bs) m = b') by apply (book_of_put st m b').
  assert (Hbs : (bs = backstop st ∨ bs = <[m := maker_of st m]> (backstop st)) →
            maker_of (set_backstop (put_book st m b') bs) m = maker_of st m).
  { unfold maker_of. intros [->| ->]; simpl; [done|]. by rewrite lookup_insert_eq. }
  rewrite Hbook. unfold rescued in Hresc. split; [done|]. split; [done|]. split; [done|].
  destruct (accepted_offer _ _ _ _) as [[[price q] req]|].
  - destruct Hresc as (-> & -> & Hrest).
    assert (Hm : maker_of (set_backstop (put_book st m b') (<[m:=commit_fill (maker_of st m) (no_side o) q]> (backstop st))) m
                 = commit_fill (maker_of st m) (no_side o) q).
    { unfold maker_of. simpl. by rewrite lookup_insert_eq. }
    rewrite Hm. split; [by apply commit_fill_ok|]. split; [|by split_and!].
    intros m' Hne. unfold book_of, maker_of. simpl. by rewrite !lookup_insert_ne by done.
  - destruct Hresc as (-> & -> & Hb). rewrite (Hbs Hb). split; [done|]. split; [|by split_and!].
    intros m' Hne. unfold book_of, maker_of. simpl. rewrite lookup_insert_ne by done.
    destruct Hb as [->| ->]; [done|]. by rewrite lookup_insert_ne.
Qed.

Lemma match_order_correct_witness :
  ∃ r st', match_order config_default quoted_state demo_market
             (new_order (demo_payload Buy 100200 5 FillOrKill false 1) 7) 0 = Ret (r, st') ∧
    f_qty <$> fills r = [5] ∧
    sumZ (f_qty <$> fills r) + resting_qty r ≤ 5.
Proof.
  destruct (match_order_correct config_default quoted_state demo_market
    (new_order (demo_payload Buy 100200 5 FillOrKill false 1) 7) 0 config_default_ok
    reachable_new demo_state_ok ltac:(split_and!; by vm_compute))
    as (r0 & b0 & r & st' & _ & Hrun & _ & _ & _ & _ & Hle & _).
  exists r, st'. split; [exact Hrun|]. split; [|exact Hle].
  vm_compute in Hrun. injection Hrun as <- <-. vm_compute. reflexivity.
Defined.

(** The rescue ignores the order's terms.  The backstop's quote is never compared with the
    order's limit nor with its maker-only flag.  On a market quoted around 100000: a maker-only
    order to buy at no more than 90000 is filled as a taker at 100095; a fill-or-kill order to sell
    at no less than 110000 is filled at 99935; and a maker-only immediate order that would cross a
    resting offer at 100100 is answered [Rejected], yet its signer then holds a position of 5. *)
Theorem rescue_ignores_order_terms :
  order_result (demo_handle quoted_state (POrder (demo_payload Buy 90000 5 GoodTilCancel true 1)) 7) 7 =
    Some (Ok (Filled None 1), Some (5, 100095)) ∧
  order_result (demo_handle quoted_state (POrder (demo_payload Sell 110000 5 FillOrKill false 1)) 7) 7 =
    Some (Ok (Filled None 1), Some (-5, 99935)) ∧
  order_result (after (demo_handle quoted_state (POffer (demo_offer Sell 100100 5 1)) 7) (λ st,
      demo_handle st (POrder (demo_payload Buy 100200 5 ImmediateOrCancel true 1)) 8)) 8 =
    Some (Ok (OrderRejected "post_only order would have crossed"), Some (5, 100095)).
Proof. split_and!; vm_compute; reflexivity. Qed.
