(* ===== verification/MatcherTrace.v ===== *)
(** * The matcher's request handlers over a run

    What holds along any sequence of signed requests: nonces accepted from one signer increase, every
    book stays reachable and every backstop state in range, and only an order's owner id cancels it. *)
From S2P Require Import Prelude Ints Types U256 I256 Risk Averages Fees MarketData Backstop.
From S2P Require Import Positions Liquidation Occupancy Book BookWf BookOps BookSpec BookRefine BookProps.
From S2P Require Import Wire Matcher MatcherBook MatcherProps.
Open Scope Z_scope.

(** ** Definitions *)

Definition payload_nonce (p : Payload) : Z :=
  match p with
  | POrder p => op_nonce p | POffer p => of_nonce p | PCancel p => cp_nonce p
  | PPortfolioKey p => pk_nonce p
  end.

(** The error a response carries. *)
Definition response_error (r : Response) : option ApiError :=
  match r with
  | ROrder o => match oo_response o with Err e => Some e | Ok _ => None end
  | ROffer (Err e) | RCancel (Err e) | RPortfolioKey (Err e) => Some e
  | _ => None
  end.

(** A request with its signer and what the handler reads. *)
Record Request := { rq_payload : Payload; rq_signer : Address; rq_reading : Reading }.

(** Everything an enclave is configured with, and what it calls. *)
Record Enclave := {
  en_i256 : I256;
  en_load : Key → MarketId → option (SealedBlob * Z);
  en_key : Address → Key;
  en_keccak : list Z → Z;
  en_dep : Deployment;
}.

Definition serve_one (E : Enclave) (st : AppState) (q : Request) : exec (AppState * Response) :=
  @handle (en_i256 E) (en_load E) (en_key E) (en_keccak E) (en_dep E) st (rq_payload q)
    (rq_signer q) (rq_reading q).

(** A run of the enclave, with its log of requests and responses. *)
Fixpoint serve (E : Enclave) (st : AppState) (qs : list Request) :
    exec (AppState * list (Request * Response)) :=
  match qs with
  | [] => Ret (st, [])
  | q :: qs =>
      '(st, r) ← serve_one E st q;
      '(st, log) ← serve E st qs;
      Ret (st, (q, r) :: log)
  end.

(** The nonces of [signer]'s requests that were not refused as replays. *)
Definition is_replay (r : Response) : bool :=
  match response_error r with Some (NonceReplay _ _) => true | _ => false end.
Definition accepted_nonces (signer : Address) (log : list (Request * Response)) : list Z :=
  (λ e, payload_nonce (rq_payload e.1)) <$>
    filter (λ e, rq_signer e.1 = signer ∧ is_replay e.2 = false) log.

(** Each nonce is above the previous one, the first above [floor]. *)
Fixpoint increasing_from (floor : option Z) (l : list Z) : Prop :=
  match l with
  | [] => True
  | n :: l => match floor with Some f => f < n | None => True end ∧ increasing_from (Some n) l
  end.

(** The state components the accounting of fills leaves alone. *)
Record frame (st st' : AppState) : Prop := {
  fr_nonces : last_nonce st' = last_nonce st;
  fr_books : books st' = books st;
  fr_backstop : backstop st' = backstop st;
  fr_interest : oi_index st' = oi_index st;
}.

(** ** Frames *)

Ltac exec_inv :=
  repeat match goal with
  | H : _ ≫= _ = Ret _ |- _ => apply bind_Ret in H as (? & ? & ?)
  | H : (let '(_, _) := ?p in _) = Ret _ |- _ => destruct p
  | H : (match ?x with _ => _ end) = Ret _ |- _ => destruct x eqn:?
  | H : (match ?x with _ => _ end ≫= _) = Ret _ |- _ => destruct x eqn:?
  end; simplify_eq.

Section frames.
Context `{I : I256} (load_sealed : Key → MarketId → option (SealedBlob * Z)).
Context (portfolio_key : Address → Key) (keccak256 : list Z → Z) (dep : Deployment).

Lemma frame_refl st : frame st st.
Proof. done. Qed.
Lemma frame_trans st1 st2 st3 : frame st1 st2 → frame st2 st3 → frame st1 st3.
Proof. intros [] []. split; congruence. Qed.

Lemma fold_and_queue_frame st trader m b t q f l x st' d :
  fold_and_queue load_sealed portfolio_key dep st trader m b t q f l x = Ret (st', d) → frame st st'.
Proof. unfold fold_and_queue. intros H. exec_inv. done. Qed.

Lemma settle_fill_frame p signer v f i st acc fl st' acc' :
  settle_fill load_sealed portfolio_key keccak256 dep p signer v f i st acc fl = Ret (st', acc') →
  frame st st'.
Proof.
  unfold settle_fill. cbv zeta. destruct (owner_addresses st !! maker_owner fl); [|by intros [= <- _]].
  unfold build_maker_leg. intros ([st1 leg] & H1 & H)%bind_Ret.
  apply bind_Ret in H1 as ([st1' d] & H1 & [= <- <-]).
  apply bind_Ret in H as (fee & _ & H). apply bind_Ret in H as ([st2 d2] & H2 & H).
  apply bind_Ret in H as (tot & _ & [= <- _]).
  apply fold_and_queue_frame in H1, H2. eapply frame_trans; [exact H1|]. by destruct H2.
Qed.

Lemma settle_fills_frame p signer v f i st acc fs st' acc' :
  settle_fills load_sealed portfolio_key keccak256 dep p signer v f i st acc fs = Ret (st', acc') →
  frame st st'.
Proof.
  revert i st acc. induction fs as [|fl fs IH]; intros i st acc; cbn [settle_fills]; [by intros [= <- _]|].
  intros ([st1 acc1] & H1 & H)%bind_Ret. apply IH in H. apply settle_fill_frame in H1.
  by eapply frame_trans.
Qed.

Lemma settle_order_frame st p signer f fs st' sw pr :
  settle_order load_sealed portfolio_key keccak256 dep st p signer f fs = Ret (st', sw, pr) →
  frame st st'.
Proof.
  unfold settle_order. intros ([st1 acc] & H1 & H)%bind_Ret. apply settle_fills_frame in H1.
  unfold build_sweep, add_volume in H. eapply frame_trans; [exact H1|].
  destruct (decide (0 < _)); destruct (decide (sa_legs acc = [])); by injection H as <- _ _.
Qed.

Lemma collateral_gate_frame st signer d p :
  frame st (collateral_gate load_sealed portfolio_key dep st signer d p).1.
Proof.
  unfold collateral_gate. destruct (collateral_check dep); [|done]. by destruct (load_portfolio_state _ _ _ _ _).
Qed.
End frames.

Lemma match_order_nonces cfg st m o now r st' :
  match_order cfg st m o now = Ret (r, st') →
  last_nonce st' = last_nonce st ∧ oi_index st' = oi_index st.
Proof.
  unfold match_order, submit_order, rescue, rescue_dropped, rescue_resting, put_book, put_maker.
  cbv zeta. intros H. exec_inv; done.
Qed.

Lemma record_prints_nonces st m fs now :
  last_nonce (record_prints st m fs now) = last_nonce st ∧
  oi_index (record_prints st m fs now) = oi_index st.
Proof. unfold record_prints. by case_decide. Qed.

(** ** One request's nonce *)

Section nonces.
Context (E : Enclave).

(** What a request does to the table of nonces; the open-interest index is not its business. *)
Definition nonce_step (st st' : AppState) (signer n : Z) (e : option ApiError) : Prop :=
  oi_index st' = oi_index st ∧
  match last_nonce st !! signer with
  | Some l => if decide (n ≤ l) then st' = st ∧ e = Some (NonceReplay n l)
              else last_nonce st' = <[signer := n]> (last_nonce st) ∧
                   ∀ g l', e ≠ Some (NonceReplay g l')
  | None => last_nonce st' = <[signer := n]> (last_nonce st) ∧ ∀ g l', e ≠ Some (NonceReplay g l')
  end.

(** A handler that accepts the nonce and keeps the table from there on. *)
Lemma nonce_step_intro st st' signer n e :
  match accept_nonce st signer n with
  | Err e' => st' = st ∧ e = Some e'
  | Ok st1 => (last_nonce st' = last_nonce st1 ∧ oi_index st' = oi_index st1) ∧
              ∀ g l', e ≠ Some (NonceReplay g l')
  end → nonce_step st st' signer n e.
Proof.
  unfold accept_nonce, nonce_step.
  destruct (last_nonce st !! signer) as [l|]; [case_decide|]; naive_solver.
Qed.

Lemma post_order_nonce `{I : I256} ls pk kc dep st p signer now d f st' o :
  post_order ls pk kc dep st p signer now d f = Ret (st', o) →
  nonce_step st st' signer (op_nonce p) (response_error (ROrder o)).
Proof.
  unfold post_order. intros H. apply nonce_step_intro.
  destruct (accept_nonce st signer (op_nonce p)) as [st1|e]; [|by injection H as <- <-].
  case_decide; [by injection H as <- <-|].
  pose proof (collateral_gate_frame ls pk dep st1 signer d p) as Hg.
  destruct (collateral_gate ls pk dep st1 signer d p) as [st2 [[]|e]]; cbn in Hg; cycle 1.
  { injection H as <- <-. split; [split; apply Hg|done]. }
  unfold execute_order in H. cbv zeta in H.
  apply bind_Ret in H as ([r st3] & H1 & H). apply bind_Ret in H as ([[st4 sw] pr] & H2 & [= <- <-]).
  apply match_order_nonces in H1 as [Hn Hi]. apply settle_order_frame in H2. split; [|done].
  destruct (record_prints_nonces st3 (op_market_id p) (fills r) now) as [Hpn Hpi].
  rewrite (fr_nonces _ _ H2), (fr_interest _ _ H2), Hpn, Hpi, Hn, Hi. split; apply Hg.
Qed.

Lemma post_offer_nonce st p signer now st' r :
  post_offer st p signer now = Ret (st', r) →
  nonce_step st st' signer (of_nonce p) (response_error (ROffer r)).
Proof.
  unfold post_offer. intros H. apply nonce_step_intro.
  destruct (accept_nonce st signer (of_nonce p)) as [st1|e]; [|by injection H as <- <-].
  case_decide; [by injection H as <- <-|]. cbv zeta in H. unfold submit_order in H.
  apply bind_Ret in H as ([r1 st2] & H1 & H). apply bind_Ret in H1 as ([r2 b] & _ & [= <- <-]).
  destruct (post_only_rejected r2); [by injection H as <- <-|].
  by apply bind_Ret in H as (x & _ & [= <- <-]).
Qed.

Lemma post_cancel_nonce st p signer st' r :
  post_cancel st p signer = Ret (st', r) →
  nonce_step st st' signer (cp_nonce p) (response_error (RCancel r)).
Proof.
  unfold post_cancel. intros H. apply nonce_step_intro.
  destruct (accept_nonce st signer (cp_nonce p)) as [st1|e]; [|by injection H as <- <-].
  destruct (books st1 !! cp_market_id p) as [b|]; [|by injection H as <- <-].
  destruct (owner_of b (cp_order_id p)); [|by injection H as <- <-].
  case_decide; [by injection H as <- <-|].
  by apply bind_Ret in H as ([c b'] & _ & [= <- <-]).
Qed.

Lemma serve_one_nonce st q st' r :
  serve_one E st q = Ret (st', r) →
  nonce_step st st' (rq_signer q) (payload_nonce (rq_payload q)) (response_error r).
Proof.
  unfold serve_one, handle. destruct (rq_payload q) as [p|p|p|p]; cbn [payload_nonce].
  - intros ([st1 o] & H & [= <- <-])%bind_Ret. by eapply post_order_nonce.
  - intros ([st1 o] & H & [= <- <-])%bind_Ret. by eapply post_offer_nonce.
  - intros ([st1 o] & H & [= <- <-])%bind_Ret. by eapply post_cancel_nonce.
  - unfold post_portfolio_key. intros H. apply nonce_step_intro.
    destruct (accept_nonce st (rq_signer q) (pk_nonce p)); by injection H as <- <-.
Qed.
End nonces.

(** ** Books and backstop states *)

Definition payload_ok (p : Payload) : Prop :=
  match p with
  | POrder p => in_u 64 (op_tick p) ∧ in_u 64 (op_qty p)
  | POffer p => in_u 64 (of_tick p) ∧ in_u 64 (of_max_size p)
  | PCancel p => in_u 32 (cp_order_id p)
  | PPortfolioKey _ => True
  end.

(** After [n] requests no arena holds more than [n] slots. *)
Definition matcher_ok (n : nat) (st : AppState) : Prop :=
  (∀ m, Book.reachable (book_of st m) ∧ (length (arena (book_of st m)) ≤ n)%nat) ∧
  ∀ m, state_ok (maker_of st m).

Lemma matcher_ok_weaken n n' st : (n ≤ n')%nat → matcher_ok n st → matcher_ok n' st.
Proof. intros Hn [Hb Hm]. split; [|done]. intros m. destruct (Hb m). split; [done|lia]. Qed.

Lemma matcher_ok_same n st st' :
  books st' = books st → backstop st' = backstop st → matcher_ok n st → matcher_ok n st'.
Proof. unfold matcher_ok, book_of, maker_of. by intros -> ->. Qed.

Lemma matcher_ok_frame n st st' : frame st st' → matcher_ok n st → matcher_ok n st'.
Proof. intros []. by apply matcher_ok_same. Qed.

Lemma state_default_ok : state_ok state_default.
Proof. split_and!; [constructor|vm_compute; lia|by vm_compute]. Qed.

Lemma matcher_ok_new : matcher_ok 0 new_state.
Proof.
  split; intros m; unfold book_of, maker_of; simpl; rewrite lookup_empty; simpl.
  - split; [apply reachable_new|done].
  - apply state_default_ok.
Qed.

Lemma matcher_ok_put n st m b bs :
  matcher_ok n st → Book.reachable b → (length (arena b) ≤ S n)%nat →
  (∀ m', state_ok (default state_default (bs !! m'))) →
  matcher_ok (S n) (set_backstop (put_book st m b) bs).
Proof.
  intros [Hb _] Hr Hl Hbs. split; [|done]. intros m'. unfold book_of. simpl.
  destruct (decide (m' = m)) as [->|Hne]; [by rewrite lookup_insert_eq|].
  rewrite lookup_insert_ne by done. destruct (Hb m'). split; [done|]. unfold book_of in *. lia.
Qed.

Lemma record_price_ok s p : state_ok s → in_u 64 p → state_ok (record_price s p).
Proof.
  intros (Hf & Hl & Hi) Hp. split_and!.
  - rewrite record_price_history.
    assert (Forall (in_u 64) (history s ++ [p])) as Hall by (apply Forall_app_2; auto).
    case_decide; [|done]. destruct (history s ++ [p]) as [|x h]; [done|]. by apply Forall_cons in Hall as [_ ?].
  - rewrite record_price_history. unfold MAX_HISTORY in *.
    assert (length (history s ++ [p]) = S (length (history s))) as E by (rewrite length_app; cbn; lia).
    case_decide; [|lia]. destruct (history s ++ [p]); cbn in *; lia.
  - unfold record_price, mark_pnl_to. cbn [inventory]. repeat case_match; done.
Qed.

Lemma record_prints_ok n st m fs now :
  matcher_ok n st → Forall (λ f, in_u 64 (f_tick f)) fs → matcher_ok n (record_prints st m fs now).
Proof.
  intros [Hb Hm] Hf. unfold record_prints. case_decide; [by split|]. split; [exact Hb|].
  intros m'. unfold maker_of. simpl. destruct (decide (m' = m)) as [->|Hne].
  - rewrite lookup_insert_eq. simpl. specialize (Hm m). unfold maker_of in Hm. revert Hm. generalize (default state_default (backstop st !! m)) as s.
    clear -Hf. induction Hf as [|f fs Hf _ IH]; intros s Hs; [exact Hs|]. apply IH. by apply record_price_ok.
  - rewrite lookup_insert_ne by done. apply Hm.
Qed.

(** The price of an offer is a [u64]. *)
Lemma maker_offer_price s cfg side q price k :
  state_ok s → config_ok cfg → maker_offer s cfg side q = Some (price, k) → in_u 64 price.
Proof.
  intros Hs Hc. unfold maker_offer. destruct (last (history s)) as [live|] eqn:Hl; [|done]. cbv zeta.
  assert (history s ≠ []) as Hn by (intros E; by rewrite E in Hl).
  destruct (quote_Ret s cfg side Hs Hc Hn) as (Hh & Hcen & _).
  case_decide; [|done]. intros [= <- _]. unfold u64_max in *. destruct side; int_range.
Qed.

Lemma match_order_ok n cfg st m o now :
  config_ok cfg → matcher_ok n st → Z.of_nat n < NIL →
  0 ≤ no_tick o < u64_max → in_u 64 (no_qty o) →
  ∃ r st', match_order cfg st m o now = Ret (r, st') ∧ matcher_ok (S n) st' ∧
    Forall (λ f, in_u 64 (f_tick f)) (fills r).
Proof.
  intros Hc Hok Hn Ht Hq. pose proof Hok as [Hb Hm]. destruct (Hb m) as [Hr Hl].
  assert (Hsub : submit_ok (book_of st m) o) by (unfold submit_ok, u64_max in *; int_range).
  destruct (match_order_run cfg st m o now Hc Hr (Hm m) Hsub)
    as (r0 & b0 & r & b' & bs & _ & Hacc & Hrun & Hr' & Hl' & Hresc).
  exists r, (set_backstop (put_book st m b') bs). split; [done|]. unfold rescued, accepted_offer in Hresc.
  assert (Hput : ∀ s, state_ok s → ∀ m', state_ok (default state_default (<[m := s]> (backstop st) !! m'))).
  { intros s Hs m'. destruct (decide (m' = m)) as [->|Hne]; [by rewrite lookup_insert_eq|].
    rewrite lookup_insert_ne by done. apply Hm. }
  assert (Hkeep : bs = backstop st ∨ bs = <[m := maker_of st m]> (backstop st) →
            ∀ m', state_ok (default state_default (bs !! m'))).
  { intros [->| ->]; [apply Hm|]. by apply Hput. }
  assert (Hdone : (r = r0 ∧ b' = b0 ∧ (bs = backstop st ∨ bs = <[m := maker_of st m]> (backstop st))) →
            matcher_ok (S n) (set_backstop (put_book st m b') bs) ∧ Forall (λ f, in_u 64 (f_tick f)) (fills r)).
  { intros (-> & -> & Hbs). split; [|apply Hacc]. apply matcher_ok_put; [done|done|lia|by apply Hkeep]. }
  destruct (unserved o r0) as [[req whole]|]; [|by apply Hdone].
  destruct (maker_offer _ _ _ _) as [[price q]|] eqn:Hoff; [|by apply Hdone].
  destruct (_ || _); [|by apply Hdone]. destruct Hresc as (-> & -> & _). split.
  - apply matcher_ok_put; [done|done|lia|]. apply Hput, commit_fill_ok, Hm.
  - cbn [with_fill fills]. apply Forall_app. split; [apply Hacc|]. constructor; [|constructor].
    cbn. by eapply maker_offer_price.
Qed.

(** ** Requests keep them *)

Section invariant.
Context (E : Enclave) (Hcfg : config_ok (backstop_config (en_dep E))).

Lemma accept_nonce_same st signer n st1 :
  accept_nonce st signer n = Ok st1 → books st1 = books st ∧ backstop st1 = backstop st.
Proof. unfold accept_nonce. repeat case_match; try done; by intros [= <-]. Qed.

Lemma sane_tick t : in_u 64 t → t ≤ MAX_SANE_TICK → 0 ≤ t < u64_max.
Proof. unfold MAX_SANE_TICK, u64_max. int_range. Qed.

Lemma post_order_ok `{I : I256} n ls pk kc dep st p signer now d f st' o :
  config_ok (backstop_config dep) → matcher_ok n st → Z.of_nat n < NIL → payload_ok (POrder p) →
  post_order ls pk kc dep st p signer now d f = Ret (st', o) → matcher_ok (S n) st'.
Proof.
  intros Hc Hok Hn [Ht Hq]. unfold post_order.
  destruct (accept_nonce st signer (op_nonce p)) as [st1|e] eqn:Hacc; cycle 1.
  { intros [= <- _]. apply (matcher_ok_weaken n); [lia|done]. }
  apply accept_nonce_same in Hacc as [E1 E2]. assert (Hok1 : matcher_ok n st1) by by eapply matcher_ok_same.
  case_decide as Htick; [intros [= <- _]; apply (matcher_ok_weaken n); [lia|done]|].
  pose proof (collateral_gate_frame ls pk dep st1 signer d p) as Hg.
  destruct (collateral_gate ls pk dep st1 signer d p) as [st2 [[]|e]]; cbn in Hg; cycle 1.
  { intros [= <- _]. apply (matcher_ok_weaken n); [lia|]. by eapply matcher_ok_frame. }
  unfold execute_order. cbv zeta. intros ([r st3] & H1 & H)%bind_Ret.
  apply bind_Ret in H as ([[st4 sw] pr] & H2 & [= <- _]).
  destruct (match_order_ok n (backstop_config dep) (register_owner st2 signer) (op_market_id p)
    (new_order p (signer_owner_id signer)) now Hc) as (r' & st3' & Hrun & Hok3 & Hticks).
  { eapply matcher_ok_frame; [|exact Hok1]. by destruct Hg. }
  { done. } { apply sane_tick; [done|cbn; lia]. } { done. }
  rewrite H1 in Hrun. injection Hrun as <- <-. apply settle_order_frame in H2.
  eapply matcher_ok_frame; [exact H2|]. by apply record_prints_ok.
Qed.

Lemma post_offer_ok n st p signer now st' r :
  matcher_ok n st → Z.of_nat n < NIL → payload_ok (POffer p) →
  post_offer st p signer now = Ret (st', r) → matcher_ok (S n) st'.
Proof.
  intros Hok Hn [Ht Hq]. unfold post_offer.
  destruct (accept_nonce st signer (of_nonce p)) as [st1|e] eqn:Hacc; cycle 1.
  { intros [= <- _]. apply (matcher_ok_weaken n); [lia|done]. }
  apply accept_nonce_same in Hacc as [E1 E2]. assert (Hok1 : matcher_ok n st1) by by eapply matcher_ok_same.
  case_decide as Htick; [intros [= <- _]; apply (matcher_ok_weaken n); [lia|done]|].
  cbv zeta. unfold submit_order. set (st2 := register_owner st1 signer).
  assert (Hok2 : matcher_ok n st2) by by eapply matcher_ok_same.
  set (o := offer_order p _). destruct (proj1 Hok2 (of_market_id p)) as [Hr Hl].
  destruct (submit_accounts (book_of st2 (of_market_id p)) o now Hr) as (r1 & b1 & Hrun & Hr1 & _ & Hl1).
  { pose proof (sane_tick _ Ht ltac:(lia)). unfold submit_ok, o, u64_max in *. cbn. int_range. }
  rewrite Hrun, !ret_bind. cbv beta iota.
  assert (Hput : matcher_ok (S n) (put_book st2 (of_market_id p) b1)).
  { change (put_book st2 (of_market_id p) b1)
      with (set_backstop (put_book st2 (of_market_id p) b1) (backstop st2)).
    apply matcher_ok_put; [done|done|lia|]. apply Hok2. }
  destruct (post_only_rejected r1); [by intros [= <- _]|].
  by intros (x & _ & [= <- _])%bind_Ret.
Qed.

Lemma post_cancel_ok n st p signer st' r :
  matcher_ok n st → payload_ok (PCancel p) →
  post_cancel st p signer = Ret (st', r) → matcher_ok (S n) st'.
Proof.
  intros Hok [Hid _]. unfold post_cancel.
  destruct (accept_nonce st signer (cp_nonce p)) as [st1|e] eqn:Hacc; cycle 1.
  { intros [= <- _]. apply (matcher_ok_weaken n); [lia|done]. }
  apply accept_nonce_same in Hacc as [E1 E2]. assert (Hok1 : matcher_ok n st1) by by eapply matcher_ok_same.
  assert (Hok1' : matcher_ok (S n) st1) by (apply (matcher_ok_weaken n); [lia|done]).
  destruct (books st1 !! cp_market_id p) as [b|] eqn:Hbk; [|by intros [= <- _]].
  destruct (owner_of b (cp_order_id p)) as [w|] eqn:Hw; [|by intros [= <- _]].
  case_decide; [by intros [= <- _]|].
  destruct (proj1 Hok1 (cp_market_id p)) as [Hr Hl]. unfold book_of in Hr, Hl. rewrite Hbk in Hr, Hl.
  cbn [default from_option id] in Hr, Hl.
  destruct (cancel_owned b (cp_order_id p) w Hr Hid Hw) as (s & t & dd & b' & l1 & l2 & -> & _ & Hr' & _ & _ & _ & Hlen).
  rewrite ret_bind. intros [= <- _].
  change (put_book st1 (cp_market_id p) b')
    with (set_backstop (put_book st1 (cp_market_id p) b') (backstop st1)).
  apply matcher_ok_put; [done|done|lia|]. apply Hok1.
Qed.

Lemma serve_one_ok n st q st' r :
  matcher_ok n st → Z.of_nat n < NIL → payload_ok (rq_payload q) →
  serve_one E st q = Ret (st', r) → matcher_ok (S n) st'.
Proof.
  intros Hok Hn Hp. unfold serve_one, handle. destruct (rq_payload q) as [p|p|p|p].
  - intros ([st1 o] & H & [= <- <-])%bind_Ret. by eapply post_order_ok.
  - intros ([st1 o] & H & [= <- <-])%bind_Ret. by eapply post_offer_ok.
  - intros ([st1 o] & H & [= <- <-])%bind_Ret. by eapply post_cancel_ok.
  - unfold post_portfolio_key. destruct (accept_nonce st (rq_signer q) (pk_nonce p)) as [st1|e] eqn:Hacc;
      intros [= <- <-]; apply (matcher_ok_weaken n); [lia| |lia|done].
    apply accept_nonce_same in Hacc as []. by eapply matcher_ok_same.
Qed.

Lemma serve_ok qs n st st' log :
  matcher_ok n st → Z.of_nat (n + length qs) < NIL → Forall (λ q, payload_ok (rq_payload q)) qs →
  serve E st qs = Ret (st', log) → matcher_ok (n + length qs) st'.
Proof.
  revert n st log. induction qs as [|q qs IH]; intros n st log Hok Hn Hp; cbn [serve length].
  - intros [= <- _]. by rewrite Nat.add_0_r.
  - apply Forall_cons in Hp as [Hq Hp]. cbn [length] in Hn.
    intros ([st1 r] & H1 & H)%bind_Ret. apply bind_Ret in H as ([st2 log2] & H2 & [= <- _]).
    rewrite Nat.add_succ_r, <- Nat.add_succ_l. eapply IH; [|lia|done|exact H2].
    eapply serve_one_ok; [exact Hok|lia|done|exact H1].
Qed.
End invariant.

(** ** Replays over a run *)

Lemma increasing_above floor l n : increasing_from floor l → n ∈ l → match floor with Some f => f < n | None => True end.
Proof.
  revert floor. induction l as [|x l IH]; intros floor; cbn [increasing_from]; [by intros _ ?%elem_of_nil|].
  intros [Hx Hl] [->|Hn]%elem_of_cons; [done|]. specialize (IH _ Hl Hn). cbn in IH.
  destruct floor; [lia|done].
Qed.

Lemma increasing_NoDup floor l : increasing_from floor l → NoDup l.
Proof.
  revert floor. induction l as [|x l IH]; intros floor; [constructor|]. intros [_ Hl]. constructor; [|by eapply IH].
  intros Hin. pose proof (increasing_above _ _ _ Hl Hin) as Hlt. cbn in Hlt. lia.
Qed.

Lemma accepted_cons signer q r log :
  accepted_nonces signer ((q, r) :: log) =
    (if decide (rq_signer q = signer ∧ is_replay r = false) then [payload_nonce (rq_payload q)] else []) ++
    accepted_nonces signer log.
Proof.
  unfold accepted_nonces. destruct (decide (rq_signer q = signer ∧ is_replay r = false)) as [H|H];
    [by rewrite filter_cons_True by exact H|by rewrite filter_cons_False by exact H].
Qed.

Lemma nonce_step_cases st st' signer n r :
  nonce_step st st' signer n (response_error r) →
  (is_replay r = true ∧ st' = st ∧ ∃ l, last_nonce st !! signer = Some l ∧ n ≤ l) ∨
  (is_replay r = false ∧ last_nonce st' = <[signer := n]> (last_nonce st) ∧
   match last_nonce st !! signer with Some l => l < n | None => True end).
Proof.
  intros [_ Hstep]. revert Hstep. unfold is_replay.
  assert (Hne : (∀ g l', response_error r ≠ Some (NonceReplay g l')) →
    match response_error r with Some (NonceReplay _ _) => true | _ => false end = false).
  { intros H. destruct (response_error r) as [[g l| | |]|]; try done. by destruct (H g l). }
  destruct (last_nonce st !! signer) as [l|].
  - case_decide; intros [H1 H2]; [left; rewrite H2; by eauto|right]. split; [by apply Hne|]. split; [done|lia].
  - intros [H1 H2]. right. split; [by apply Hne|done].
Qed.

(** The nonces accepted over a run, and where the table ends. *)
Lemma serve_nonces E qs st st' log signer :
  serve E st qs = Ret (st', log) →
  increasing_from (last_nonce st !! signer) (accepted_nonces signer log) ∧
  last_nonce st' !! signer =
    match last (accepted_nonces signer log) with
    | Some n => Some n | None => last_nonce st !! signer end.
Proof.
  revert st log. induction qs as [|q qs IH]; intros st log; cbn [serve]; [by intros [= <- <-]|].
  intros ([st1 r] & H1 & H)%bind_Ret. apply bind_Ret in H as ([st2 log2] & H2 & [= <- <-]).
  specialize (IH _ _ H2) as [IHi IHe]. rewrite accepted_cons.
  apply serve_one_nonce, nonce_step_cases in H1 as [(Hr & -> & _)|(Hr & Hn & Hl)]; rewrite Hr.
  - by rewrite decide_False by (intros [_ ?]; done).
  - rewrite Hn in IHi, IHe. destruct (decide (rq_signer q = signer)) as [<-|Hne].
    + rewrite lookup_insert_eq in IHi, IHe. rewrite decide_True by done. cbn [app increasing_from].
      split; [done|]. rewrite IHe. rewrite last_cons. by destruct (last _).
    + rewrite lookup_insert_ne in IHi, IHe by done. by rewrite decide_False by naive_solver.
Qed.

(** ** Properties *)

(** C5: Replay protection.  Along any run from any state, the nonces accepted from one signer
    strictly increase, starting above the one on record, so none is accepted twice, and the table
    ends with the last one accepted; and a request refused as a replay changes nothing at all. *)
Theorem replay_protection E qs st st' log :
  serve E st qs = Ret (st', log) →
  (∀ signer, increasing_from (last_nonce st !! signer) (accepted_nonces signer log) ∧
             NoDup (accepted_nonces signer log) ∧
             last_nonce st' !! signer =
               match last (accepted_nonces signer log) with
               | Some n => Some n | None => last_nonce st !! signer
               end) ∧
  (∀ q st2 r, serve_one E st q = Ret (st2, r) →
     (is_replay r = true ↔ ∃ l, last_nonce st !! rq_signer q = Some l ∧ payload_nonce (rq_payload q) ≤ l) ∧
     (is_replay r = true → st2 = st)).
Proof.
  intros Hrun. split; cycle 1.
  { intros q st2 r [(Hr & -> & Hl)|(Hr & _ & Hl)]%serve_one_nonce%nonce_step_cases; rewrite Hr.
    - done.
    - split; [|done]. split; [done|]. intros (l & Heq & ?). rewrite Heq in Hl. lia. }
  intros signer. destruct (serve_nonces E qs st st' log signer Hrun) as [Hi He].
  split_and!; [done|by eapply increasing_NoDup|done].
Qed.

Definition demo_enclave : Enclave :=
  {| en_i256 := checked_i256; en_load := λ _ _, None; en_key := id; en_keccak := λ _, 0;
     en_dep := demo_dep |}.
Lemma matcher_ok_quoted : matcher_ok 0 quoted_state.
Proof.
  destruct matcher_ok_new as [Hb Hm]. split; [exact Hb|]. intros m. unfold maker_of, quoted_state. cbn.
  destruct (decide (m = demo_market)) as [->|Hne].
  - rewrite lookup_insert_eq. apply demo_state_ok.
  - rewrite lookup_insert_ne by done. rewrite lookup_empty. apply state_default_ok.
Qed.


Definition demo_request (p : Payload) (signer : Address) : Request :=
  {| rq_payload := p; rq_signer := signer;
     rq_reading := {| rd_now := 0; rd_deposited := None; rd_funding := 0; rd_subscribed := false |} |}.
Definition demo_run : list Request :=
  [demo_request (POffer (demo_offer Sell 100 5 1)) 7;
   demo_request (POrder (demo_payload Buy 100 3 ImmediateOrCancel false 4)) 8;
   demo_request (POrder (demo_payload Buy 100 3 ImmediateOrCancel false 4)) 8;
   demo_request (PPortfolioKey {| pk_nonce := 9 |}) 8].

Lemma replay_protection_witness :
  ∃ st log, serve demo_enclave new_state demo_run = Ret (st, log) ∧
    accepted_nonces 8 log = [4; 9] ∧ NoDup (accepted_nonces 8 log).
Proof.
  eexists _, _. split; [vm_compute; reflexivity|]. split; [vm_compute; reflexivity|].
  eapply (proj1 (proj2 (proj1 (replay_protection demo_enclave demo_run new_state _ _
            ltac:(vm_compute; reflexivity)) 8))).
Defined.

(** The service never corrupts a market.  From the empty enclave, after any run of fewer than
    [2^32 - 1] signed requests with machine-range fields, every market's book is reachable (so the
    book theorems apply to it) and every backstop state is in range; the next order of any trader
    on any market is matched without aborting. *)
Theorem service_invariant E qs st log :
  config_ok (backstop_config (en_dep E)) → Forall (λ q, payload_ok (rq_payload q)) qs →
  Z.of_nat (length qs) < NIL → serve E new_state qs = Ret (st, log) →
  (∀ m, Book.reachable (book_of st m) ∧ state_ok (maker_of st m)) ∧
  (∀ m o now, 0 ≤ no_tick o ≤ MAX_SANE_TICK → in_u 64 (no_qty o) →
     ∃ r st', match_order (backstop_config (en_dep E)) st m o now = Ret (r, st')).
Proof.
  intros Hc Hp Hn Hrun.
  pose proof (serve_ok E Hc qs 0 new_state st log matcher_ok_new Hn Hp Hrun) as Hok. cbn [Nat.add] in Hok.
  split.
  - intros m. split; [apply (proj1 Hok m)|apply (proj2 Hok m)].
  - intros m o now Ht Hq.
    destruct (match_order_ok (length qs) (backstop_config (en_dep E)) st m o now Hc Hok Hn)
      as (r & st' & H & _); [unfold MAX_SANE_TICK, u64_max in *; lia|done|by exists r, st'].
Qed.

Lemma service_invariant_witness :
  ∃ st log, serve demo_enclave new_state demo_run = Ret (st, log) ∧
    best_ask (book_of st demo_market) = Some 100 ∧ state_ok (maker_of st demo_market).
Proof.
  eexists _, _. split; [vm_compute; reflexivity|]. split; [vm_compute; reflexivity|].
  eapply (proj2 (proj1 (service_invariant demo_enclave demo_run _ _ config_default_ok
    ltac:(repeat (apply Forall_cons; split; [by vm_compute|]); apply Forall_nil; exact I)
    ltac:(by vm_compute) ltac:(vm_compute; reflexivity)) demo_market)).
Defined.

(** C22: Only an order's owner id cancels it.  A cancellation always answers.  It answers
    [Cancelled] only when the id is live on that market's book under the signer's owner id, and then
    removes exactly that order, reporting its tick and remaining quantity; any other answer leaves
    every book as it was: [NotOrderOwner] for a live order of another owner id, [NotFound] for an id
    that is not live. *)
Theorem post_cancel_authorized n st p signer st1 :
  matcher_ok n st → payload_ok (PCancel p) → accept_nonce st signer (cp_nonce p) = Ok st1 →
  let b := book_of st (cp_market_id p) in let me := signer_owner_id signer in
  ∃ st' r, post_cancel st p signer = Ret (st', r) ∧
    match r with
    | Ok (Cancelled t q) => ∃ s d l1 l2,
        owner_of b (cp_order_id p) = Some me ∧ r_owner d = me ∧ r_qty d = q ∧
        resting b s = l1 ++ (t, (cp_order_id p, d)) :: l2 ∧
        resting (book_of st' (cp_market_id p)) s = l1 ++ l2 ∧
        resting (book_of st' (cp_market_id p)) (opposite_side s) = resting b (opposite_side s) ∧
        ∀ m, m ≠ cp_market_id p → books st' !! m = books st !! m
    | Ok NotFound => owner_of b (cp_order_id p) = None ∧ books st' = books st
    | Err e => e = NotOrderOwner (cp_order_id p) ∧ books st' = books st ∧
        ∃ w, owner_of b (cp_order_id p) = Some w ∧ w ≠ me
    end.
Proof.
  intros Hok [Hid _] Hacc b me. unfold post_cancel. rewrite Hacc.
  apply accept_nonce_same in Hacc as [E1 _]. unfold b, book_of. rewrite <- E1.
  destruct (books st1 !! cp_market_id p) as [bk|] eqn:Hb; cycle 1.
  { eexists _, _. split; [done|]. split; [|done]. cbn. unfold owner_of. cbn. by rewrite lookup_nil. }
  cbn [default from_option id]. destruct (owner_of bk (cp_order_id p)) as [w|] eqn:Hw; cycle 1.
  { eexists _, _. split; [done|]. by split. }
  case_decide as Hme.
  { eexists _, _. split; [done|]. split; [done|]. split; [done|]. by exists w. }
  subst w. destruct (proj1 Hok (cp_market_id p)) as [Hr _].
  unfold book_of in Hr. rewrite <- E1, Hb in Hr. cbn [default from_option id] in Hr.
  destruct (cancel_owned bk (cp_order_id p) _ Hr Hid Hw)
    as (s & t & d & b' & l1 & l2 & -> & Hown & _ & Hl & Hl' & Ho & _).
  rewrite ret_bind. cbv beta iota. eexists _, _. split; [done|].
  exists s, d, l1, l2. simpl. rewrite lookup_insert_eq. cbn [default from_option id].
  split_and!; try done. intros m Hne. by rewrite lookup_insert_ne.
Qed.

Definition offered : AppState * list (Request * Response) :=
  match serve demo_enclave new_state [demo_request (POffer (demo_offer Sell 100 5 1)) 7] with
  | Ret r => r
  | Panic => (new_state, [])
  end.

Lemma offered_ok : matcher_ok 1 offered.1.
Proof.
  apply (serve_ok demo_enclave config_default_ok [demo_request (POffer (demo_offer Sell 100 5 1)) 7] 0
           new_state _ offered.2); [apply matcher_ok_new|by vm_compute| |vm_compute; reflexivity].
  apply Forall_cons. split; [by vm_compute|apply Forall_nil; exact I].
Qed.

Lemma post_cancel_authorized_witness :
  ∃ st1, accept_nonce offered.1 7 2 = Ok st1 ∧
    ∃ st' r, post_cancel offered.1 {| cp_market_id := demo_market; cp_order_id := 0; cp_nonce := 2 |} 7
      = Ret (st', r) ∧ r = Ok (Cancelled 100 5) ∧ best_ask (book_of st' demo_market) = None.
Proof.
  eexists. split; [vm_compute; reflexivity|].
  destruct (post_cancel_authorized 1 offered.1
    {| cp_market_id := demo_market; cp_order_id := 0; cp_nonce := 2 |} 7 _ offered_ok ltac:(by vm_compute)
    ltac:(vm_compute; reflexivity)) as (st' & r & Hrun & _).
  exists st', r. split; [exact Hrun|]. vm_compute in Hrun. injection Hrun as <- <-.
  split; vm_compute; reflexivity.
Defined.

(** C40: A standing offer only rests.  On a well-formed state, an offer with a fresh nonce and a sane
    tick never trades and touches no position, tape or backstop: when the best opposite order left
    after pruning is within its limit it is rejected; otherwise its whole size comes to rest under
    the reported id, unless that size is zero, the one input on which the handler aborts. *)
Theorem post_offer_correct n st p signer now st1 :
  matcher_ok n st → Z.of_nat n < NIL → payload_ok (POffer p) →
  accept_nonce st signer (of_nonce p) = Ok st1 → of_tick p ≤ MAX_SANE_TICK →
  let m := of_market_id p in
  let o := offer_order p (signer_owner_id signer) in
  let opposite := matched_side (book_of st m) o now in
  let crossing := match opposite with
                  | e :: _ => crosses (no_side o) (no_tick o) e.1 = true | [] => False end in
  match post_offer st p signer now with
  | Panic => of_max_size p = 0 ∧ ¬ crossing
  | Ret (st', r) =>
      position_cache st' = position_cache st ∧ market_data st' = market_data st ∧
      backstop st' = backstop st ∧
      resting (book_of st' m) (opposite_side (no_side o)) = opposite ∧
      match r with
      | Ok (OfferResting x) => ¬ crossing ∧ 0 < of_max_size p ∧
          resting (book_of st' m) (no_side o) =
            insert_entry (no_side o)
              (no_tick o, (x, {| r_qty := of_max_size p; r_owner := signer_owner_id signer;
                                 r_expiry := of_expiry p |})) (resting (book_of st m) (no_side o))
      | Ok (OfferRejected _) => crossing ∧
          resting (book_of st' m) (no_side o) = resting (book_of st m) (no_side o)
      | Err _ => False
      end
  end.
Proof.
  intros Hok Hn [Ht Hq] Hacc Hsane m o opposite crossing. unfold post_offer. rewrite Hacc.
  rewrite decide_False by lia. cbv zeta. unfold submit_order.
  assert (Hsame : position_cache st1 = position_cache st ∧ market_data st1 = market_data st ∧
                  backstop st1 = backstop st ∧ books st1 = books st).
  { unfold accept_nonce in Hacc. repeat case_match; try done; by injection Hacc as <-. }
  destruct Hsame as (Hp & Hm & Hb & Hbk).
  replace (book_of (register_owner st1 signer) (of_market_id p)) with (book_of st m)
    by (unfold book_of, register_owner; simpl; by rewrite Hbk).
  fold m o. destruct (proj1 Hok m) as [Hr Hl].
  assert (Hsub : submit_ok (book_of st m) o).
  { pose proof (sane_tick _ Ht Hsane). unfold submit_ok, o, u64_max in *. cbn. int_range. }
  destruct (submit_run _ o now Hr Hsub) as (_ & _ & _ & _ & _ & _ & Hpos & Hsort).
  destruct (submit_cases _ o now Hr Hsub) as (r & b' & -> & _ & Hcase). fold opposite in Hcase.
  rewrite !ret_bind. cbv beta iota.
  assert (Hbook : ∀ b', book_of (put_book (register_owner st1 signer) m b') m = b')
    by (intros; apply book_of_put).
  destruct (outcome_of r) eqn:Hout; unfold outcome_of in Hout.
  - destruct Hcase as (_ & (e & l' & He & Hcr) & _ & _ & _ & Hs & Ho).
    destruct (post_only_rejected r); [|by destruct (fill_or_kill_failed r)].
    split_and!; try done; [by rewrite Hbook| |by rewrite Hbook]. unfold crossing. by rewrite He.
  - destruct Hcase as (Hk & _). unfold o in Hk. cbn in Hk. by destruct (of_expiry p).
  - destruct (post_only_rejected r); [done|].
    destruct Hcase as (Hnc & _ & out & left & acc & Hmatch & _ & _ & _ & Hrest).
    specialize (Hnc eq_refl).
    assert (Hncr : ¬ crossing).
    { unfold crossing. destruct opposite as [|e l']; [tauto|]. by rewrite Hnc. }
    assert (Hall : spec_match (no_side o) (no_tick o) (no_owner o) now opposite (no_qty o) (acc_empty out)
                   = (opposite, no_qty o, acc_empty out)).
    { destruct opposite as [|[t [x d]] l']; [done|]. cbn [spec_match]. cbn [fst] in Hnc.
      rewrite Hnc. by case_decide. }
    rewrite Hall in Hmatch. injection Hmatch as Ho <- <-. unfold rested in Hrest.
    assert (Hrests : rests (no_tif o) = true) by (unfold o; cbn; by destruct (of_expiry p)).
    assert (Hexp : expiry_of (no_tif o) = of_expiry p) by (unfold o; cbn; by destruct (of_expiry p)).
    rewrite Hrests, andb_true_r in Hrest. case_bool_decide as Hz.
    + destruct Hrest as (x & -> & _ & Hres). cbn [expect]. rewrite ret_bind.
      rewrite Hbook. split_and!; try done. by rewrite Hres, Hexp.
    + destruct Hrest as (-> & _). cbn. split; [|done]. unfold o in Hz. cbn in Hz. int_range.
Qed.

Lemma post_offer_correct_witness :
  ∃ st', post_offer offered.1 (demo_offer Buy 90 6 2) 7 0 = Ret (st', Ok (OfferResting 1)) ∧
    best_bid (book_of st' demo_market) = Some 90 ∧ market_data st' = market_data offered.1.
Proof.
  pose proof (post_offer_correct 1 offered.1 (demo_offer Buy 90 6 2) 7 0 _ offered_ok ltac:(by vm_compute)
    ltac:(split; by vm_compute) ltac:(vm_compute; reflexivity) ltac:(by vm_compute)) as H.
  destruct (post_offer offered.1 (demo_offer Buy 90 6 2) 7 0) as [[st' r]|] eqn:E; cycle 1.
  { vm_compute in E. discriminate E. }
  destruct H as (_ & Hm & _). exists st'. vm_compute in E. injection E as <- <-.
  split; [reflexivity|]. split; [reflexivity|exact Hm].
Defined.
