(* ===== verification/Field.v ===== *)
(** * The scalar field and the bit decomposition the circuits are built on

    What [zk-circuits] uses of arkworks, as an interface: the prime field [Fr] with its ring
    operations on canonical representatives, and [to_bits_be], the canonical big-endian bits of an
    element.  A gadget's value is determined by its inputs, so a constraint system is modelled by
    the equations it enforces on the assigned values. *)
From S2P Require Import Prelude Ints.
Open Scope Z_scope.

(** The order of BN254's scalar field. *)
Definition bn254_r : Z :=
  21888242871839275222246405745257275088548364400416034343698204186575808495617.

(** Elements are their canonical representatives. *)
Abbreviation Fr := Z (only parsing).

Class FrOps := {
  fr_from : Z → Fr;
  fr_add : Fr → Fr → Fr;
  fr_sub : Fr → Fr → Fr;
  fr_mul : Fr → Fr → Fr;
  to_bits_be : Fr → list bool;
}.

Definition in_field (a : Fr) : Prop := 0 ≤ a < bn254_r.

(** The number a list of bits spells, most significant first. *)
Definition bits_value (l : list bool) : Z := foldl (λ v b, 2 * v + (if (b : bool) then 1 else 0)) 0 l.

Class FrLaws (F : FrOps) : Prop := {
  fr_from_exact n : fr_from n = n mod bn254_r;
  fr_add_exact a b : in_field a → in_field b → fr_add a b = (a + b) mod bn254_r;
  fr_sub_exact a b : in_field a → in_field b → fr_sub a b = (a - b) mod bn254_r;
  fr_mul_exact a b : in_field a → in_field b → fr_mul a b = (a * b) mod bn254_r;
  to_bits_length a : length (to_bits_be a) = 254%nat;
  to_bits_value a : in_field a → bits_value (to_bits_be a) = a;
}.

(** ** An instance, for the witnesses *)

Fixpoint bits_be (n : nat) (a : Z) : list bool :=
  match n with
  | O => []
  | S n => bits_be n (Z.div2 a) ++ [Z.odd a]
  end.

Definition bn254 : FrOps := {|
  fr_from := λ n, n mod bn254_r;
  fr_add := λ a b, (a + b) mod bn254_r;
  fr_sub := λ a b, (a - b) mod bn254_r;
  fr_mul := λ a b, (a * b) mod bn254_r;
  to_bits_be := bits_be 254;
|}.

Lemma bits_be_length n a : length (bits_be n a) = n.
Proof. revert a. induction n as [|n IH]; intros a; cbn; [done|]. rewrite length_app, IH. cbn. lia. Qed.

Lemma bits_be_value n a : 0 ≤ a < 2 ^ Z.of_nat n → bits_value (bits_be n a) = a.
Proof.
  revert a. induction n as [|n IH]; intros a Ha; [cbn in *; lia|].
  cbn [bits_be]. unfold bits_value in *. rewrite foldl_app. cbn [foldl].
  rewrite Nat2Z.inj_succ, Z.pow_succ_r in Ha by lia.
  pose proof (Z.div2_odd a) as Hd. rewrite IH by (destruct (Z.odd a); cbn in Hd; lia).
  rewrite Hd at 3. by destruct (Z.odd a).
Qed.

#[export] Instance bn254_laws : FrLaws bn254.
Proof.
  split; try done.
  intros a Ha. apply (bits_be_value 254). unfold in_field, bn254_r in Ha. change (Z.of_nat 254) with 254. lia.
Qed.

Lemma in_field_mod a : in_field (a mod bn254_r).
Proof. apply Z.mod_pos_bound. by vm_compute. Qed.
Lemma in_field_u64 a : in_u 64 a → in_field a ∧ a mod bn254_r = a.
Proof.
  intros Ha. assert (in_field a) by (unfold in_field, bn254_r; int_range). split; [done|].
  by apply Z.mod_small.
Qed.
#[export] Hint Resolve in_field_mod : cerdic.
