(* ===== verification/Circuits.v ===== *)
(** * The correctness circuits ([crates/zk-circuits], [crates/cerdic-tee-matcher/src/proof.rs])

    The MiMC commitment, native and as a gadget, the comparison gadget, and the match, batch and
    margin circuits, each as the conjunction of the equations it enforces on its assigned values; a
    value left unassigned is [AssignmentMissing].  SHA-256 is a parameter.  Definitions only; the theorems are in [CircuitProps]. *)
From S2P Require Import Prelude Ints Text Field Types U256 I256 Book Risk Positions Liquidation Wire Matcher.
Open Scope Z_scope.

Definition ROUNDS : nat := 110.

Inductive SynthesisError := AssignmentMissing.

(** A synthesis so far: the value computed and whether every enforced equation holds. *)
Definition synth (A : Type) : Type := result A SynthesisError.

Definition assigned {A} (o : option A) : synth A := ok_or o AssignmentMissing.

Section circuits.
Context `{F : FrOps} (sha256 : Bytes → list Z).

(** ** MiMC ([mimc.rs]) *)

(** [Fr::from_le_bytes_mod_order]: the number spelled least significant byte first. *)
Definition from_le_bytes_mod_order (digest : list Z) : Fr := fr_from (foldr (λ b v, b + 256 * v) 0 digest).

Definition round_constants : list Fr :=
  (λ i : nat, from_le_bytes_mod_order
     (sha256 (into_bytes "cerdic-mimc-round-" ++ fmt_u64 (Z.of_nat i)))) <$> seq 0 ROUNDS.

Definition round (key state c : Fr) : Fr :=
  let t := fr_add (fr_add state key) c in
  fr_mul (fr_mul (fr_mul (fr_mul t t) t) t) t.

Definition permute (x key : Fr) (constants : list Fr) : Fr :=
  fr_add (foldl (round key) x constants) key.

Definition compress (left right : Fr) (constants : list Fr) : Fr :=
  fr_add (permute left right constants) right.

Definition commit (side price size : Fr) : Fr :=
  let constants := round_constants in
  let h1 := compress (fr_from 0) side constants in
  let h2 := compress h1 price constants in
  compress h2 size constants.

(** Three multiplications a round. *)
Definition round_gadget (key state c : Fr) : Fr :=
  let t := fr_add (fr_add state key) c in
  let t2 := fr_mul t t in
  let t4 := fr_mul t2 t2 in
  fr_mul t4 t.

Definition permute_gadget (x key : Fr) (constants : list Fr) : Fr :=
  fr_add (foldl (round_gadget key) x constants) key.

Definition compress_gadget (left right : Fr) (constants : list Fr) : Fr :=
  fr_add (permute_gadget left right constants) right.

Definition commit_gadget (side price size : Fr) : Fr :=
  let constants := round_constants in
  let zero := fr_from 0 in
  let h1 := compress_gadget zero side constants in
  let h2 := compress_gadget h1 price constants in
  compress_gadget h2 size constants.

Definition enforce_equal (computed expected : Fr) : bool := bool_decide (computed = expected).

(** ** Comparison ([match_correctness::le]) *)

Definition le_step (acc : bool * bool) (bits : bool * bool) : bool * bool :=
  let '(greater, still_tied) := acc in
  let '(abit, bbit) := bits in
  let this_bit_greater := abit && negb bbit in
  (greater || (still_tied && this_bit_greater), still_tied && eqb abit bbit).

Definition le (a b : Fr) : bool :=
  negb (foldl le_step (false, true) (zip (to_bits_be a) (to_bits_be b))).1.

Definition select {A} (cond : bool) (t f : A) : A := if cond then t else f.

(** ** MatchCorrectness *)

Record MatchCorrectnessCircuit := {
  side_a : option bool; price_a : option Fr; size_a : option Fr;
  side_b : option bool; price_b : option Fr; size_b : option Fr;
  cmt_a : option Fr; cmt_b : option Fr;
  match_price : option Fr; match_size : option Fr;
}.

Definition side_fr (s : bool) : Fr := if s then fr_from 1 else fr_from 0.

Definition match_new (sa : bool) (pa za : Fr) (sb : bool) (pb zb mp mz : Fr) :
    MatchCorrectnessCircuit :=
  {| side_a := Some sa; price_a := Some pa; size_a := Some za;
     side_b := Some sb; price_b := Some pb; size_b := Some zb;
     cmt_a := Some (commit (side_fr sa) pa za); cmt_b := Some (commit (side_fr sb) pb zb);
     match_price := Some mp; match_size := Some mz |}.

Definition match_empty : MatchCorrectnessCircuit :=
  {| side_a := None; price_a := None; size_a := None; side_b := None; price_b := None;
     size_b := None; cmt_a := None; cmt_b := None; match_price := None; match_size := None |}.

Definition match_public_inputs (c : MatchCorrectnessCircuit) : exec (list Fr) :=
  ca ← expect (cmt_a c); cb ← expect (cmt_b c);
  mp ← expect (match_price c); mz ← expect (match_size c);
  Ret [ca; cb; mp; mz].

(** [generate_constraints]: the conjunction of the enforced equations. *)
Definition match_constraints (c : MatchCorrectnessCircuit) : exec (synth bool) :=
  cmt_a ←? Ret (assigned (cmt_a c));
  cmt_b ←? Ret (assigned (cmt_b c));
  match_price ←? Ret (assigned (match_price c));
  match_size ←? Ret (assigned (match_size c));
  side_a_bit ←? Ret (assigned (side_a c));
  price_a ←? Ret (assigned (price_a c));
  size_a ←? Ret (assigned (size_a c));
  side_b_bit ←? Ret (assigned (side_b c));
  price_b ←? Ret (assigned (price_b c));
  size_b ←? Ret (assigned (size_b c));
  let opposite := eqb (xorb side_a_bit side_b_bit) true in
  let side_a_fp := select side_a_bit (fr_from 1) (fr_from 0) in
  let side_b_fp := select side_b_bit (fr_from 1) (fr_from 0) in
  let committed_a := enforce_equal (commit_gadget side_a_fp price_a size_a) cmt_a in
  let committed_b := enforce_equal (commit_gadget side_b_fp price_b size_b) cmt_b in
  let buyer_price := select side_a_bit price_a price_b in
  let seller_price := select side_a_bit price_b price_a in
  let within := le seller_price match_price && le match_price buyer_price in
  let sized := le match_size size_a && le match_size size_b in
  Ret (Ok (opposite && committed_a && committed_b && within && sized)).

(** ** Batches *)

Record BatchMatchCorrectnessCircuit := { matches : list MatchCorrectnessCircuit }.

Definition padding_match : MatchCorrectnessCircuit :=
  let zero := fr_from 0 in match_new true zero zero false zero zero zero zero.

(** The [while padded.len() < MAX_BATCH_SIZE] loop. *)
Fixpoint pad (room : nat) (padded : list MatchCorrectnessCircuit) : list MatchCorrectnessCircuit :=
  match room with
  | O => padded
  | S room => if decide (length padded < MAX_BATCH_SIZE)%nat
              then pad room (padded ++ [padding_match]) else padded
  end.

Definition batch_new (ms : list MatchCorrectnessCircuit) : exec BatchMatchCorrectnessCircuit :=
  if decide (length ms ≤ MAX_BATCH_SIZE)%nat then Ret {| matches := pad MAX_BATCH_SIZE ms |}
  else Panic.

Definition batch_empty : BatchMatchCorrectnessCircuit :=
  {| matches := replicate MAX_BATCH_SIZE match_empty |}.

Fixpoint public_inputs_all (ms : list MatchCorrectnessCircuit) : exec (list Fr) :=
  match ms with
  | [] => Ret []
  | m :: ms => x ← match_public_inputs m; xs ← public_inputs_all ms; Ret (x ++ xs)
  end.
Definition batch_public_inputs (c : BatchMatchCorrectnessCircuit) : exec (list Fr) :=
  public_inputs_all (matches c).

Definition batch_constraints (c : BatchMatchCorrectnessCircuit) : exec (synth bool) :=
  try_fold (λ ok m, held ←? match_constraints m; Ret (Ok (ok && held))) true (matches c).

(** The circuit [generate_batch_match_proof] proves. *)
Definition witness_circuit (w : MatchWitness) : MatchCorrectnessCircuit :=
  match_new (mw_side_a w) (fr_from (mw_price_a w)) (fr_from (mw_size_a w)) (mw_side_b w)
    (fr_from (mw_price_b w)) (fr_from (mw_size_b w)) (fr_from (mw_match_price w))
    (fr_from (mw_match_size w)).

Definition batch_circuit (witnesses : list MatchWitness) : exec BatchMatchCorrectnessCircuit :=
  batch_new (witness_circuit <$> witnesses).

(** ** MarginCorrectness *)

Definition BIAS : Z := 2 ^ 40.

Definition to_biased (v : Fr) : Fr := fr_add v (fr_from BIAS).
Definition le_signed (a b : Fr) : bool := le a b.

(** [N_POSITIONS] is 2. *)
Record MarginCorrectnessCircuit := {
  size_biased_0 : option Fr;
  size_biased_1 : option Fr;
  f_c : option Fr;
  f_l : option Fr;
  m_claimed : option Fr;
}.

Definition margin_new (s0 s1 fc fl m : Fr) : MarginCorrectnessCircuit :=
  {| size_biased_0 := Some (to_biased s0); size_biased_1 := Some (to_biased s1);
     f_c := Some fc; f_l := Some fl; m_claimed := Some m |}.

Definition margin_empty : MarginCorrectnessCircuit :=
  {| size_biased_0 := None; size_biased_1 := None; f_c := None; f_l := None; m_claimed := None |}.

Definition margin_public_inputs (c : MarginCorrectnessCircuit) : exec (list Fr) :=
  m ← expect (m_claimed c); Ret [m].

(** [Params::default]. *)
Record Params := { beta : Fr; rho : Fr; shifts_biased : list Fr }.
Definition params_default : Params :=
  {| beta := fr_from 1; rho := fr_from 0;
     shifts_biased := [to_biased (fr_sub (fr_from 0) (fr_from 10)); to_biased (fr_from 10)] |}.

Definition scenario_values_biased (params : Params) (net_size : Fr) : list Fr :=
  (λ shift_biased,
     let shift := fr_sub shift_biased (fr_from BIAS) in
     fr_add (fr_mul shift net_size) (fr_from BIAS)) <$> shifts_biased params.

Definition max_biased (values : list Fr) : exec Fr :=
  match values with
  | [] => Panic
  | v :: rest => Ret (foldl (λ f_s candidate, select (le_signed f_s candidate) candidate f_s) v rest)
  end.

Definition margin_constraints (c : MarginCorrectnessCircuit) : exec (synth bool) :=
  let params := params_default in
  m_claimed ←? Ret (assigned (m_claimed c));
  b0 ←? Ret (assigned (size_biased_0 c));
  b1 ←? Ret (assigned (size_biased_1 c));
  let s0 := fr_sub b0 (fr_from BIAS) in
  let s1 := fr_sub b1 (fr_from BIAS) in
  f_c ←? Ret (assigned (f_c c));
  f_l ←? Ret (assigned (f_l c));
  let pairwise := fr_mul (fr_mul s0 s1) (fr_from 2) in
  let f_k := fr_mul (fr_mul (beta params) (rho params)) pairwise in
  let net_size := foldl fr_add (fr_from 0) [s0; s1] in
  f_s_biased ← max_biased (scenario_values_biased params net_size);
  let f_s := fr_sub f_s_biased (fr_from BIAS) in
  let computed_m := fr_add (fr_add (fr_add f_s f_c) f_l) f_k in
  Ret (Ok (enforce_equal computed_m m_claimed)).
End circuits.
