(* ===== verification/CircuitProps.v ===== *)
(** * The correctness circuits: theorems

    The comparison gadget decides the order of canonical representatives, the in-circuit commitment
    is the native one, and the match circuit holds exactly on the matches it describes. *)
From S2P Require Import Prelude Ints Text Field Types U256 I256 Risk Positions Liquidation Occupancy.
From S2P Require Import Averages Fees MarketData Backstop Book BookWf BookOps BookSpec BookRefine BookProps.
From S2P Require Import Wire Matcher MatcherBook MatcherProps Circuits.
Open Scope Z_scope.

(** ** Comparison *)

Definition bit (b : bool) : Z := if b then 1 else 0.
Definition value_from (v : Z) (l : list bool) : Z := foldl (λ v b, 2 * v + bit b) v l.

Lemma le_loop va vb l k :
  length l = length k →
  foldl le_step (bool_decide (vb < va), bool_decide (va = vb)) (zip l k) =
    (bool_decide (value_from vb k < value_from va l), bool_decide (value_from va l = value_from vb k)).
Proof.
  revert va vb k. induction l as [|a l IH]; intros va vb [|b k] H; try discriminate H; [done|].
  cbn [zip zip_with foldl value_from]. unfold value_from in IH.
  rewrite <- (IH (2 * va + bit a) (2 * vb + bit b) k) by (by injection H). f_equal.
  unfold le_step. f_equal.
  - repeat case_bool_decide; destruct a, b; cbn in *; try done; lia.
  - repeat case_bool_decide; destruct a, b; cbn in *; try done; lia.
Qed.

Section circuits.
Context `{F : FrOps} `{!FrLaws F} (sha256 : Bytes → list Z).

Lemma le_exact a b : in_field a → in_field b → le a b = bool_decide (a ≤ b).
Proof.
  intros Ha Hb. unfold le.
  pose proof (le_loop 0 0 (to_bits_be a) (to_bits_be b)) as H.
  rewrite !to_bits_length in H. specialize (H eq_refl).
  change (bool_decide (0 < 0), bool_decide (0 = 0)) with (false, true) in H. rewrite H. cbn [fst].
  change (value_from 0 (to_bits_be a)) with (bits_value (to_bits_be a)).
  change (value_from 0 (to_bits_be b)) with (bits_value (to_bits_be b)).
  rewrite !to_bits_value by done. repeat case_bool_decide; (done || lia).
Qed.

(** ** The commitment *)

Lemma fr_add_in a b : in_field a → in_field b → in_field (fr_add a b).
Proof. intros. rewrite fr_add_exact by done. apply in_field_mod. Qed.
Lemma fr_sub_in a b : in_field a → in_field b → in_field (fr_sub a b).
Proof. intros. rewrite fr_sub_exact by done. apply in_field_mod. Qed.
Lemma fr_mul_in a b : in_field a → in_field b → in_field (fr_mul a b).
Proof. intros. rewrite fr_mul_exact by done. apply in_field_mod. Qed.
Lemma fr_from_in n : in_field (fr_from n).
Proof. rewrite fr_from_exact. apply in_field_mod. Qed.
#[local] Hint Resolve fr_add_in fr_sub_in fr_mul_in fr_from_in : cerdic.

Lemma fr_mul_assoc a b c :
  in_field a → in_field b → in_field c → fr_mul (fr_mul a b) c = fr_mul a (fr_mul b c).
Proof.
  intros. rewrite !fr_mul_exact by (rewrite ?fr_mul_exact by done; auto with cerdic).
  rewrite Zmult_mod_idemp_l, Zmult_mod_idemp_r. f_equal. lia.
Qed.

Lemma round_in key state c : in_field key → in_field state → in_field c → in_field (round key state c).
Proof. intros. unfold round. auto 10 with cerdic. Qed.

Lemma round_gadget_exact key state c :
  in_field key → in_field state → in_field c → round_gadget key state c = round key state c.
Proof.
  intros. unfold round_gadget, round. set (t := fr_add _ _).
  assert (in_field t) by (unfold t; auto with cerdic).
  by rewrite (fr_mul_assoc (fr_mul t t) t t) by auto with cerdic.
Qed.

Lemma permute_gadget_exact x key cs :
  in_field key → in_field x → Forall in_field cs →
  permute_gadget x key cs = permute x key cs ∧ in_field (permute x key cs).
Proof.
  intros Hk Hx Hcs. unfold permute_gadget, permute.
  cut (foldl (round_gadget key) x cs = foldl (round key) x cs ∧ in_field (foldl (round key) x cs)).
  { intros [-> ?]. auto with cerdic. }
  revert x Hx. induction Hcs as [|c cs Hc _ IH]; intros x Hx; [done|]. cbn [foldl].
  rewrite round_gadget_exact by done. apply IH. by apply round_in.
Qed.

Lemma compress_gadget_exact l r cs :
  in_field l → in_field r → Forall in_field cs →
  compress_gadget l r cs = compress l r cs ∧ in_field (compress l r cs).
Proof.
  intros. unfold compress_gadget, compress.
  destruct (permute_gadget_exact l r cs) as [-> ?]; auto with cerdic.
Qed.

Lemma round_constants_in : Forall in_field (round_constants sha256).
Proof. apply Forall_fmap, Forall_true. intros i. apply fr_from_in. Qed.

Lemma commit_gadget_exact s p z :
  in_field s → in_field p → in_field z →
  commit_gadget sha256 s p z = commit sha256 s p z.
Proof.
  intros ???. pose proof round_constants_in as Hcs. unfold commit_gadget, commit.
  destruct (compress_gadget_exact (fr_from 0) s (round_constants sha256)) as [-> Hc1]; [auto with cerdic..|].
  destruct (compress_gadget_exact (compress (fr_from 0) s (round_constants sha256)) p (round_constants sha256))
    as [-> Hc2]; [auto..|].
  by destruct (compress_gadget_exact (compress (compress (fr_from 0) s (round_constants sha256)) p
    (round_constants sha256)) z (round_constants sha256)) as [-> _].
Qed.

(** ** The match circuit *)

(** What a proof of a match asserts: opposite sides, the committed orders, a price inside both
    limits and a size inside both sizes. *)
Definition valid_match (sa : bool) (pa za : Z) (sb : bool) (pb zb mp mz : Z) : Prop :=
  sa ≠ sb ∧ (if sa then pb else pa) ≤ mp ≤ (if sa then pa else pb) ∧ mz ≤ za ∧ mz ≤ zb.

#[export] Instance valid_match_dec sa pa za sb pb zb mp mz :
  Decision (valid_match sa pa za sb pb zb mp mz).
Proof. unfold valid_match. destruct sa; apply _. Defined.

Lemma side_fr_select s : select s (fr_from 1) (fr_from 0) = side_fr s.
Proof. by destruct s. Qed.
Lemma side_fr_in s : in_field (side_fr s).
Proof. destruct s; apply fr_from_in. Qed.

Lemma match_constraints_exact sa pa za sb pb zb ca cb mp mz :
  Forall in_field [pa; za; pb; zb; mp; mz] →
  match_constraints sha256
    {| side_a := Some sa; price_a := Some pa; size_a := Some za; side_b := Some sb;
       price_b := Some pb; size_b := Some zb; cmt_a := Some ca; cmt_b := Some cb;
       match_price := Some mp; match_size := Some mz |} =
    Ret (Ok (bool_decide (ca = commit sha256 (side_fr sa) pa za ∧
                          cb = commit sha256 (side_fr sb) pb zb ∧
                          valid_match sa pa za sb pb zb mp mz))).
Proof.
  intros Hf. repeat apply Forall_cons in Hf as [? Hf]. clear Hf.
  unfold match_constraints, enforce_equal. cbn [assigned ok_or try_bind Circuits.side_a Circuits.price_a Circuits.size_a
    Circuits.side_b Circuits.price_b Circuits.size_b Circuits.cmt_a Circuits.cmt_b
    Circuits.match_price Circuits.match_size].
  do 2 f_equal. rewrite !side_fr_select, !commit_gadget_exact by auto using side_fr_in.
  rewrite !le_exact by (destruct sa; done). unfold valid_match, select.
  destruct sa, sb; cbn [xorb eqb andb]; repeat case_bool_decide; cbn; try done; naive_solver lia.
Qed.

Lemma match_new_exact sa pa za sb pb zb mp mz :
  Forall in_field [pa; za; pb; zb; mp; mz] →
  match_constraints sha256 (match_new sha256 sa pa za sb pb zb mp mz) =
    Ret (Ok (bool_decide (valid_match sa pa za sb pb zb mp mz))).
Proof.
  intros Hf. unfold match_new. rewrite match_constraints_exact by done. do 2 f_equal.
  apply bool_decide_ext. tauto.
Qed.
End circuits.

(** ** Batches *)

Lemma chunk_foldl {A} (ws : list A) chunks current :
  (length current < MAX_BATCH_SIZE)%nat → Forall (λ ch, ch ≠ [] ∧ (length ch ≤ MAX_BATCH_SIZE)%nat) chunks →
  let '(chunks', current') := foldl chunk_step (chunks, current) ws in
  mjoin chunks' ++ current' = mjoin chunks ++ current ++ ws ∧
  (length current' < MAX_BATCH_SIZE)%nat ∧
  Forall (λ ch, ch ≠ [] ∧ (length ch ≤ MAX_BATCH_SIZE)%nat) chunks'.
Proof.
  revert chunks current. induction ws as [|w ws IH]; intros chunks current Hc Hch.
  - cbn [foldl]. by rewrite app_nil_r.
  - cbn [foldl]. unfold chunk_step at 2. cbn [fst snd].
    assert (Hlen : length (current ++ [w]) = S (length current)) by (rewrite length_app; cbn; lia).
    case_decide as Hfull.
    + specialize (IH (chunks ++ [current ++ [w]]) []). destruct (foldl _ _ ws) as [chunks' current'].
      destruct IH as (-> & ? & ?); [unfold MAX_BATCH_SIZE; cbn; lia| |].
      * apply Forall_app. split; [done|]. constructor; [|constructor]. split; [by destruct current|lia].
      * split_and!; [|done|done]. rewrite join_app. cbn. rewrite app_nil_r, <- !app_assoc. done.
    + specialize (IH chunks (current ++ [w])). destruct (foldl _ _ ws) as [chunks' current'].
      destruct IH as (-> & ? & ?); [lia|done|]. split_and!; [|done|done]. by rewrite <- app_assoc.
Qed.

(** Chunking loses nothing, and no chunk is empty or too large for a batch. *)
Lemma chunk_for_batching_spec {A} (ws : list A) :
  mjoin (chunk_for_batching ws) = ws ∧
  Forall (λ ch, ch ≠ [] ∧ (length ch ≤ MAX_BATCH_SIZE)%nat) (chunk_for_batching ws).
Proof.
  unfold chunk_for_batching. pose proof (chunk_foldl ws [] []) as H.
  destruct (foldl _ _ ws) as [chunks current].
  destruct H as (Hj & Hl & Hf); [unfold MAX_BATCH_SIZE; cbn; lia|constructor|]. cbn in Hj. case_decide as Hc.
  - split; [|done]. rewrite <- Hj, Hc. by rewrite app_nil_r.
  - split; [rewrite join_app; cbn; by rewrite app_nil_r|]. apply Forall_app. split; [done|].
    constructor; [|constructor]. split; [done|lia].
Qed.

Section batches.
Context `{F : FrOps} `{!FrLaws F} (sha256 : Bytes → list Z).

Definition witness_ok (w : MatchWitness) : Prop :=
  Forall (in_u 64) [mw_price_a w; mw_size_a w; mw_price_b w; mw_size_b w; mw_match_price w; mw_match_size w].

Definition witness_valid (w : MatchWitness) : Prop :=
  valid_match (mw_side_a w) (mw_price_a w) (mw_size_a w) (mw_side_b w) (mw_price_b w) (mw_size_b w)
    (mw_match_price w) (mw_match_size w).

#[export] Instance witness_valid_dec w : Decision (witness_valid w).
Proof. unfold witness_valid. apply _. Defined.

Lemma fr_from_u64 n : in_u 64 n → fr_from n = n ∧ in_field n.
Proof. intros Hn. rewrite fr_from_exact. by destruct (in_field_u64 n Hn). Qed.

Lemma fr_from_id n : in_u 64 n → fr_from n = n.
Proof. apply fr_from_u64. Qed.

Lemma witness_constraints w :
  witness_ok w →
  match_constraints sha256 (witness_circuit sha256 w) =
    Ret (Ok (bool_decide (witness_valid w))).
Proof.
  intros Hw. unfold witness_ok in Hw. repeat apply Forall_cons in Hw as [? Hw]. clear Hw.
  unfold witness_circuit. rewrite !fr_from_id by eassumption.
  apply match_new_exact. repeat (constructor; [by apply fr_from_u64|]). constructor.
Qed.

Lemma padding_constraints :
  match_constraints sha256 (padding_match sha256) = Ret (Ok true).
Proof.
  unfold padding_match. rewrite fr_from_id by by vm_compute.
  rewrite match_new_exact.
  - rewrite bool_decide_eq_true_2; [done|]. unfold valid_match. split_and!; (done || lia).
  - repeat (constructor; [by apply (fr_from_u64 0); vm_compute|]). constructor.
Qed.

Lemma pad_extra room ms :
  (MAX_BATCH_SIZE ≤ length ms + room)%nat → (length ms ≤ MAX_BATCH_SIZE)%nat →
  pad sha256 room ms =
    ms ++ replicate (MAX_BATCH_SIZE - length ms) (padding_match sha256).
Proof.
  revert ms. induction room as [|room IH]; intros ms H Hl; cbn [pad].
  - assert (length ms = MAX_BATCH_SIZE) as -> by lia. by rewrite Nat.sub_diag, app_nil_r.
  - case_decide as Hlt.
    + assert (E : length (ms ++ [padding_match sha256]) = S (length ms)) by (rewrite length_app; cbn; lia).
      rewrite IH by lia. rewrite E, <- app_assoc.
      replace (MAX_BATCH_SIZE - length ms)%nat with (S (MAX_BATCH_SIZE - S (length ms))) by lia. done.
    + assert (length ms = MAX_BATCH_SIZE) as -> by lia. by rewrite Nat.sub_diag, app_nil_r.
Qed.

Definition batch_step (ok : bool) (m : MatchCorrectnessCircuit) : exec (synth bool) :=
  try_bind (match_constraints sha256 m) (λ held, Ret (Ok (ok && held))).

Lemma batch_fold ok (ms : list MatchCorrectnessCircuit) (held : list bool) :
  Forall2 (λ m h, match_constraints sha256 m = Ret (Ok h)) ms held →
  try_fold batch_step ok ms = Ret (Ok (ok && forallb id held)).
Proof.
  intros H. revert ok. induction H as [|m h ms held Hm _ IH]; intros ok; cbn [try_fold forallb].
  - by rewrite andb_true_r.
  - unfold batch_step at 1. rewrite Hm. cbn [try_bind]. by rewrite IH, andb_assoc.
Qed.

(** A batch holds exactly when every one of its matches is valid. *)
Lemma batch_exact (ws : list MatchWitness) :
  (length ws ≤ MAX_BATCH_SIZE)%nat → Forall witness_ok ws →
  ∃ c, batch_circuit sha256 ws = Ret c ∧ length (matches c) = MAX_BATCH_SIZE ∧
    batch_constraints sha256 c = Ret (Ok (bool_decide (Forall witness_valid ws))).
Proof.
  intros Hl Hok. unfold batch_circuit, batch_new. rewrite length_fmap, decide_True by done.
  eexists. split; [done|]. cbn [matches]. rewrite pad_extra; rewrite ?length_fmap; [|lia|done]. split.
  { rewrite length_app, length_fmap, length_replicate. lia. }
  unfold batch_constraints. cbn [matches].
  pose proof (batch_fold true
    ((witness_circuit sha256 <$> ws) ++
     replicate (MAX_BATCH_SIZE - length ws) (padding_match sha256))
    (((λ w, bool_decide (witness_valid w)) <$> ws) ++ replicate (MAX_BATCH_SIZE - length ws) true)) as H.
  unfold batch_step in H. rewrite H; cycle 1.
  { apply Forall2_app.
    - apply Forall2_fmap, Forall_Forall2_diag. eapply Forall_impl; [exact Hok|]. apply witness_constraints.
    - apply Forall2_replicate, padding_constraints. }
  cbn [andb]. do 2 f_equal. rewrite forallb_app.
  assert (forallb id (replicate (MAX_BATCH_SIZE - length ws) true) = true) as ->
    by (generalize (MAX_BATCH_SIZE - length ws)%nat; clear; intros n; by induction n).
  rewrite andb_true_r. clear. induction ws as [|w ws IH]; [done|]. cbn. rewrite IH.
  repeat case_bool_decide; rewrite ?Forall_cons in *; cbn; tauto.
Qed.

(** Every slot exposes its two commitments, its price and its size. *)
Lemma public_inputs_slots (ms : list MatchCorrectnessCircuit) :
  Forall (λ m, ∃ xs, match_public_inputs m = Ret xs ∧ length xs = 4%nat) ms →
  ∃ xs, public_inputs_all ms = Ret xs ∧ length xs = (4 * length ms)%nat.
Proof.
  induction 1 as [|m ms (x & Hx & Hlx) _ (xs & Hxs & Hl)]; [by exists []|].
  exists (x ++ xs). cbn [public_inputs_all]. rewrite Hx, ret_bind. cbv beta. rewrite Hxs, ret_bind. cbv beta.
  split; [done|]. rewrite length_app. cbn. lia.
Qed.

Lemma public_inputs_batch (ws : list MatchWitness) c :
  batch_circuit sha256 ws = Ret c →
  ∃ xs, batch_public_inputs c = Ret xs ∧ length xs = (4 * length (matches c))%nat.
Proof.
  unfold batch_circuit, batch_new. case_decide as Hl; [|done]. intros E.
  assert (c = {| matches := pad sha256 MAX_BATCH_SIZE (witness_circuit sha256 <$> ws) |})
    as -> by congruence.
  unfold batch_public_inputs. cbn [matches]. rewrite pad_extra by lia. apply public_inputs_slots, Forall_app. split.
  - apply Forall_fmap, Forall_true. intros w. by eexists.
  - apply Forall_replicate. by eexists.
Qed.

(** ** Matches the enclave proves *)

Definition fill_in_range (f : Fill) : Prop :=
  Forall (in_u 64) [f_tick f; f_qty f; maker_size_before f; taker_size_before f].

(** A fill whose price is inside the order's limit and whose size fits both sides can be proved. *)
Lemma match_witness_valid p f :
  witness_valid (match_witness p f) ↔
    crosses (common_side (op_side p)) (op_tick p) (f_tick f) = true ∧
    f_qty f ≤ taker_size_before f ∧ f_qty f ≤ maker_size_before f.
Proof.
  unfold witness_valid, valid_match, match_witness. cbn [mw_side_a mw_price_a mw_size_a mw_side_b
    mw_price_b mw_size_b mw_match_price mw_match_size].
  unfold crosses. destruct (op_side p); cbn; rewrite bool_decide_eq_true; intuition (done || lia).
Qed.
End batches.

(** ** Properties *)

(** C28: The match circuit proves exactly a valid match.  With assigned values in the field, the in-circuit commitment computes the native one, and the constraints hold if
    and only if the two public commitments are those of the private orders, the sides are opposite,
    and the public price and size are inside both limits and both sizes.  A batch of at most
    [MAX_BATCH_SIZE] machine-range witnesses is padded to the fixed size, exposes four public inputs
    per slot, and holds if and only if every witness does; a larger one aborts, and an unassigned
    circuit is an error rather than a vacuous success. *)
Theorem match_circuit_exact `{F : FrOps} `{!FrLaws F} (sha256 : Bytes → list Z) :
  (∀ s p z, Forall in_field [s; p; z] → commit_gadget sha256 s p z = commit sha256 s p z) ∧
  (∀ sa pa za sb pb zb ca cb mp mz, Forall in_field [pa; za; pb; zb; mp; mz] →
     match_constraints sha256
       {| side_a := Some sa; price_a := Some pa; size_a := Some za; side_b := Some sb;
          price_b := Some pb; size_b := Some zb; cmt_a := Some ca; cmt_b := Some cb;
          match_price := Some mp; match_size := Some mz |} =
       Ret (Ok (bool_decide (ca = commit sha256 (side_fr sa) pa za ∧ cb = commit sha256 (side_fr sb) pb zb ∧
                             valid_match sa pa za sb pb zb mp mz)))) ∧
  (∀ ws, Forall witness_ok ws →
     if decide (length ws ≤ MAX_BATCH_SIZE)%nat then
       ∃ c xs, batch_circuit sha256 ws = Ret c ∧ batch_public_inputs c = Ret xs ∧
         length xs = (4 * MAX_BATCH_SIZE)%nat ∧
         batch_constraints sha256 c = Ret (Ok (bool_decide (Forall witness_valid ws)))
     else batch_circuit sha256 ws = Panic) ∧
  batch_constraints sha256 batch_empty = Ret (Err AssignmentMissing).
Proof.
  split_and!.
  - intros s p z Hf. repeat apply Forall_cons in Hf as [? Hf]. by apply commit_gadget_exact.
  - intros. by apply match_constraints_exact.
  - intros ws Hok. case_decide as Hl.
    + destruct (batch_exact sha256 ws Hl Hok) as (c & Hc & Hlen & Hcon).
      destruct (public_inputs_batch sha256 ws c Hc) as (xs & Hxs & Hlx).
      exists c, xs. split_and!; [done|done|by rewrite Hlx, Hlen|done].
    + unfold batch_circuit, batch_new. by rewrite length_fmap, decide_False by done.
  - done.
Qed.

(** A digest function, for the examples. *)
Definition demo_sha256 (bs : Bytes) : list Z := [Z.of_nat (length bs); 7].

Lemma match_circuit_exact_witness :
  let w mp := {| mw_side_a := true; mw_price_a := 105; mw_size_a := 3000; mw_side_b := false;
                 mw_price_b := 100; mw_size_b := 2000; mw_match_price := mp; mw_match_size := 1500 |} in
  ∃ c c', @batch_circuit bn254 demo_sha256 [w 100; w 105] = Ret c ∧
    @batch_constraints bn254 demo_sha256 c = Ret (Ok true) ∧
    @batch_circuit bn254 demo_sha256 [w 100; w 106] = Ret c' ∧
    @batch_constraints bn254 demo_sha256 c' = Ret (Ok false).
Proof.
  intros w.
  pose proof (@match_circuit_exact bn254 bn254_laws demo_sha256) as (_ & _ & H & _).
  assert (Hw : ∀ mp, in_u 64 mp → witness_ok (w mp)).
  { intros mp Hmp. unfold witness_ok. repeat (apply Forall_cons; split; [first [exact Hmp|by vm_compute]|]).
    apply Forall_nil. exact I. }
  assert (Hws : ∀ mp, in_u 64 mp → Forall witness_ok [w 100; w mp]).
  { intros mp Hmp. apply Forall_cons. split; [apply Hw; by vm_compute|]. apply Forall_cons.
    split; [by apply Hw|apply Forall_nil; exact I]. }
  destruct (H [w 100; w 105] (Hws 105 ltac:(by vm_compute))) as (c & _ & Hc & _ & _ & Hcon).
  destruct (H [w 100; w 106] (Hws 106 ltac:(by vm_compute))) as (c' & _ & Hc' & _ & _ & Hcon').
  exists c, c'. split; [exact Hc|]. split; [exact Hcon|]. split; [exact Hc'|exact Hcon'].
Defined.
