(* ===== verification/ProofProps.v ===== *)
(** * The correctness proofs an order starts: theorems

    From a signed order to the batches handed to the prover: which fills are proved, that every
    batch is within the circuit's size, and that its constraints hold exactly when every price in
    it is inside the order's limit.  The book's fills always are; the backstop's need not be. *)
From S2P Require Import Prelude Ints Text Types U256 I256 Occupancy Risk Positions Liquidation.
From S2P Require Import Averages Fees MarketData Backstop Book BookWf BookOps BookSpec BookRefine BookProps.
From S2P Require Import Wire Matcher MatcherBook MatcherProps MatcherTrace Field Circuits CircuitProps.
Open Scope Z_scope.

(** ** Definitions *)

(** The match price respects the order's limit. *)
Definition inside_limit (p : OrderPayload) (w : MatchWitness) : Prop :=
  crosses (common_side (op_side p)) (op_tick p) (mw_match_price w) = true.

#[export] Instance inside_limit_dec p w : Decision (inside_limit p w).
Proof. unfold inside_limit. apply _. Defined.

(** The backstop's part of an order's fills. *)
Definition backstop_part (s : BackstopState) (cfg : BackstopConfig) (o : NewOrder)
    (r : SubmitResult) : list Fill :=
  match accepted_offer s cfg o r with
  | Some (price, q, requested) => [backstop_fill price q requested]
  | None => []
  end.

(** A fill the circuit has room for: [u64] fields and a size within both sizes. *)
Definition fill_fits (f : Fill) : Prop :=
  fill_in_range f ∧ f_qty f ≤ taker_size_before f ∧ f_qty f ≤ maker_size_before f.

Definition provable_fill (f : Fill) : Prop := should_prove (f_qty f) = true.

(** ** The fills of a matched order *)

Lemma inside_order_fits s tick qty f :
  qty ≤ u64_max → 0 < f_qty f → in_u 64 (f_tick f) → inside_order s tick qty f → fill_fits f.
Proof.
  unfold u64_max. intros Hq Hpos Ht (_ & Hm & Hk). unfold u64_max in *.
  split; [|lia]. repeat (constructor; [first [exact Ht|int_range]|]). constructor.
Qed.

Lemma match_order_fills cfg st m o now r st' :
  config_ok cfg → Book.reachable (book_of st m) → state_ok (maker_of st m) →
  submit_ok (book_of st m) o → match_order cfg st m o now = Ret (r, st') →
  ∃ r0 b0, submit (book_of st m) o now = Ret (r0, b0) ∧
    fills r = fills r0 ++ backstop_part (maker_of st m) cfg o r0 ∧
    Forall fill_fits (fills r) ∧
    Forall (λ f, crosses (no_side o) (no_tick o) (f_tick f) = true) (fills r0).
Proof.
  intros Hc Hr Hs Hok Hrun.
  destruct (match_order_run cfg st m o now Hc Hr Hs Hok)
    as (r0 & b0 & r1 & b' & bs & Hsub & Hacc & Hrun1 & _ & _ & Hresc).
  rewrite Hrun in Hrun1. injection Hrun1 as <- _. pose proof Hok as (_ & Hq & _).
  exists r0, b0. split; [done|].
  assert (Hfits : Forall fill_fits (fills r0)).
  { destruct Hacc as [Hpos Ht _ _ _ _ _ _ Hin]. rewrite Forall_forall in Hpos, Ht, Hin.
    apply Forall_forall. intros f Hf. eapply (inside_order_fits (no_side o) (no_tick o) (no_qty o)); auto. lia. }
  assert (Hcross : Forall (λ f, crosses (no_side o) (no_tick o) (f_tick f) = true) (fills r0)).
  { eapply Forall_impl; [apply (sa_inside _ _ _ _ Hacc)|]. by intros f []. }
  destruct (rescued_totals _ _ _ _ _ _ _ _ _ _ Hc (proj1 Hq) Hacc Hresc) as (Htot & _ & _ & Hpos).
  unfold rescued, backstop_part in *.
  destruct (accepted_offer _ _ _ _) as [[[price q] req]|] eqn:Hoff; cycle 1.
  { destruct Hresc as (-> & _). by rewrite app_nil_r. }
  destruct Hresc as (-> & _). cbn [with_fill fills] in *. split; [done|]. split; [|done].
  apply Forall_app. split; [done|]. constructor; [|constructor].
  unfold accepted_offer in Hoff.
  destruct (unserved o r0) as [[req' whole]|] eqn:Hu; [|done].
  destruct (maker_offer (maker_of st m) cfg (no_side o) req') as [[price' q']|] eqn:Hm; [|done].
  destruct (_ || _); [|done]. injection Hoff as <- <- <-.
  assert (Hreq : 0 ≤ req' ≤ no_qty o).
  { destruct Hacc as [Hp0 _ Hsum _ _ _ _ Hrest _].
    assert (0 ≤ sumZ (f_qty <$> fills r0)).
    { apply sumZ_nonneg, Forall_fmap. eapply Forall_impl; [exact Hp0|]. cbn. lia. }
    assert (0 ≤ resting_qty r0) by (destruct (resting_id r0); [destruct Hrest|]; lia).
    unfold unserved in Hu. destruct (fill_or_kill_failed r0); [injection Hu as <- _; lia|].
    destruct (_ && bool_decide _) eqn:Hi.
    - injection Hu as <- _. lia.
    - destruct (resting_id r0); [|done]. injection Hu as <- _. lia. }
  pose proof (maker_offer_bounds _ _ _ _ _ _ Hc (proj1 Hreq) Hm) as Hb.
  pose proof (maker_offer_price _ _ _ _ _ _ Hs Hc Hm) as Hp. unfold u64_max in *.
  unfold fill_fits, fill_in_range, backstop_fill. cbn. split; [|lia].
  repeat (constructor; [first [exact Hp|int_range]|]). constructor.
Qed.

(** ** The fills that are proved *)

Section settle.
Context `{I : I256} (load_sealed : Key → MarketId → option (SealedBlob * Z)).
Context (portfolio_key : Address → Key) (keccak256 : list Z → Z) (dep : Deployment).

Lemma settle_fill_provable p signer v cf i st acc f st' acc' :
  settle_fill load_sealed portfolio_key keccak256 dep p signer v cf i st acc f = Ret (st', acc') →
  sa_provable acc' = sa_provable acc ++ (match_witness p <$> filter provable_fill [f]).
Proof.
  assert (E : (if should_prove (f_qty f) then sa_provable acc ++ [match_witness p f] else sa_provable acc)
            = sa_provable acc ++ (match_witness p <$> filter provable_fill [f])).
  { destruct (should_prove (f_qty f)) eqn:Hp.
    - by rewrite filter_cons_True.
    - rewrite filter_cons_False by (unfold provable_fill; congruence). by rewrite app_nil_r. }
  unfold settle_fill. cbv zeta. rewrite E. clear E.
  destruct (owner_addresses st !! maker_owner f); [|by intros [= _ <-]].
  intros ([st1 leg] & _ & H)%bind_Ret. apply bind_Ret in H as (fee & _ & H).
  apply bind_Ret in H as ([st2 d2] & _ & H). by apply bind_Ret in H as (tot & _ & [= _ <-]).
Qed.

Lemma settle_fills_provable p signer v cf i st acc fs st' acc' :
  settle_fills load_sealed portfolio_key keccak256 dep p signer v cf i st acc fs = Ret (st', acc') →
  sa_provable acc' = sa_provable acc ++ (match_witness p <$> filter provable_fill fs).
Proof.
  revert i st acc. induction fs as [|f fs IH]; intros i st acc; cbn [settle_fills].
  { intros [= _ <-]. by rewrite app_nil_r. }
  intros ([st1 acc1] & H1 & H)%bind_Ret. apply IH in H. apply settle_fill_provable in H1.
  rewrite H, H1, <- app_assoc. change (f :: fs) with ([f] ++ fs). by rewrite filter_app, fmap_app.
Qed.

Lemma settle_order_proofs st p signer cf fs st' sw pr :
  settle_order load_sealed portfolio_key keccak256 dep st p signer cf fs = Ret (st', sw, pr) →
  pr = chunk_for_batching (match_witness p <$> filter provable_fill fs).
Proof.
  unfold settle_order. intros ([st1 acc] & H1 & H)%bind_Ret. apply settle_fills_provable in H1.
  destruct (build_sweep _ _ _ _ _ _) as [st2 sw2]. injection H as _ _ <-. by rewrite H1.
Qed.
End settle.

(** A batch of witnesses of fitting fills holds exactly when its prices are inside the limit. *)
Lemma fitting_batch `{F : FrOps} `{!FrLaws F} (sha256 : Bytes → list Z) p (fs : list Fill) (ch : list MatchWitness) :
  payload_ok (POrder p) → Forall fill_fits fs → (length ch ≤ MAX_BATCH_SIZE)%nat →
  (∀ w, w ∈ ch → w ∈ match_witness p <$> fs) →
  ∃ c, batch_circuit sha256 ch = Ret c ∧
    batch_constraints sha256 c = Ret (Ok (bool_decide (Forall (inside_limit p) ch))).
Proof.
  intros [Hpt _] Hfit Hl Hin. rewrite Forall_forall in Hfit.
  destruct (batch_exact sha256 ch Hl) as (c & Hc & _ & Hcon).
  { apply Forall_forall. intros w (f & -> & Hf)%Hin%list_elem_of_fmap.
    destruct (Hfit f Hf) as [Hr _]. unfold fill_in_range in Hr.
    repeat apply Forall_cons in Hr as [? Hr]. unfold witness_ok, match_witness. cbn.
    by repeat (constructor; [done|]). }
  exists c. split; [done|]. rewrite Hcon. do 2 f_equal. apply bool_decide_ext.
  rewrite !Forall_forall. split; intros H w Hw; specialize (H w Hw);
    apply Hin, list_elem_of_fmap in Hw as (f & -> & Hf); destruct (Hfit f Hf) as [_ Hs].
  - by apply match_witness_valid in H as [? _].
  - apply match_witness_valid. by split.
Qed.

(** ** Properties *)

(** C29: The proofs an order starts.  An order accepted past its gates trades with the book and then,
    at most once, with the backstop.  The witnesses handed to the prover are those of exactly the
    fills of at least the threshold, in order, in non-empty batches no larger than the circuit; each
    batch circuit is built, and its constraints hold if and only if every price in it is inside the
    order's limit.  The book's fills always are, so a batch can fail only on a fill of the
    backstop.  A refused order starts no proof. *)
Theorem order_proofs_correct `{I : I256} `{F : FrOps} `{!FrLaws F} (sha256 : Bytes → list Z) n load key keccak dep st p
    signer now deposited funding st' out :
  config_ok (backstop_config dep) → matcher_ok n st → Z.of_nat n < NIL →
  payload_ok (POrder p) →
  post_order load key keccak dep st p signer now deposited funding = Ret (st', out) →
  match oo_response out with
  | Err _ => oo_proofs out = []
  | Ok _ =>
      let m := op_market_id p in let o := new_order p (signer_owner_id signer) in
      ∃ r0 b0, submit (book_of st m) o now = Ret (r0, b0) ∧
        mjoin (oo_proofs out) = match_witness p <$> filter provable_fill
          (fills r0 ++ backstop_part (maker_of st m) (backstop_config dep) o r0) ∧
        Forall (λ f, inside_limit p (match_witness p f)) (fills r0) ∧
        Forall (λ ch, ch ≠ [] ∧ ∃ c, batch_circuit sha256 ch = Ret c ∧
          batch_constraints sha256 c = Ret (Ok (bool_decide (Forall (inside_limit p) ch)))) (oo_proofs out)
  end.
Proof.
  intros Hc Hok Hn [Ht Hq]. unfold post_order.
  destruct (accept_nonce st signer (op_nonce p)) as [st1|e] eqn:Hacc; [|by intros [= _ <-]].
  apply accept_nonce_same in Hacc as [E1 E2]. assert (Hok1 : matcher_ok n st1) by by eapply matcher_ok_same.
  case_decide as Htick; [by intros [= _ <-]|].
  pose proof (collateral_gate_frame load key dep st1 signer deposited p) as Hg.
  destruct (collateral_gate load key dep st1 signer deposited p) as [st2 [[]|e]]; cbn in Hg; [|by intros [= _ <-]].
  unfold execute_order. cbv zeta. intros ([r st3] & H1 & H)%bind_Ret.
  apply bind_Ret in H as ([[st4 sw] pr] & H2 & [= _ <-]). cbn [oo_response oo_proofs].
  set (st2' := register_owner st2 signer) in *.
  assert (Hok2 : matcher_ok n st2') by (eapply matcher_ok_frame; [|exact Hok1]; by destruct Hg).
  assert (Hb : book_of st2' (op_market_id p) = book_of st (op_market_id p) ∧
               maker_of st2' (op_market_id p) = maker_of st (op_market_id p)).
  { unfold book_of, maker_of. destruct Hg as [Hg1 Hg2]. cbn. rewrite <- E1, <- E2. split; f_equal; congruence. }
  destruct Hb as [Hb1 Hb2]. destruct Hok2 as [Hbooks Hmakers]. destruct (Hbooks (op_market_id p)) as [Hr Hl].
  pose proof (sane_tick _ Ht ltac:(lia)) as Hsane.
  assert (Hsub : submit_ok (book_of st2' (op_market_id p)) (new_order p (signer_owner_id signer))).
  { split; [exact Hsane|]. split; [cbn; unfold u64_max; int_range|lia]. }
  destruct (match_order_fills _ _ _ _ _ _ _ Hc Hr (Hmakers _) Hsub H1)
    as (r0 & b0 & Hrun0 & Hfills & Hfit & Hcross).
  rewrite Hb1 in Hrun0. rewrite Hb2 in Hfills. exists r0, b0. split; [done|].
  apply settle_order_proofs in H2 as ->. destruct (chunk_for_batching_spec (match_witness p <$> filter provable_fill (fills r)))
    as [Hjoin Hch]. rewrite Hjoin, <- Hfills. split; [done|]. split; [done|].
  rewrite Forall_forall in Hch. apply Forall_forall. intros ch Hin. destruct (Hch ch Hin) as [Hne Hlen].
  split; [done|]. apply (fitting_batch sha256 p (fills r)); [by split|done|done|].
  intros w Hw. assert (Hw' : w ∈ match_witness p <$> filter provable_fill (fills r)).
  { rewrite <- Hjoin. apply list_elem_of_join. by exists ch. }
  apply list_elem_of_fmap in Hw' as (f & -> & [_ Hf]%list_elem_of_filter). apply list_elem_of_fmap. by exists f.
Qed.

(** A buy limited to 90000 filled by the backstop at 100095: its batch does not hold. *)
Lemma order_proofs_correct_witness :
  ∃ st' out ch c,
    @post_order checked_i256 (λ _ _, None) id (λ _, 0) demo_dep quoted_state
      (demo_payload Buy 90000 2000 ImmediateOrCancel false 1) 7 0 None 0 = Ret (st', out) ∧
    oo_proofs out = [ch] ∧ @batch_circuit bn254 demo_sha256 ch = Ret c ∧
    @batch_constraints bn254 demo_sha256 c = Ret (Ok false).
Proof.
  eexists _, _.
  pose proof (@order_proofs_correct checked_i256 bn254 bn254_laws demo_sha256 0 (λ _ _, None) id (λ _, 0) demo_dep
    quoted_state (demo_payload Buy 90000 2000 ImmediateOrCancel false 1) 7 0 None 0 _ _
    config_default_ok matcher_ok_quoted ltac:(by vm_compute) ltac:(split; by vm_compute)
    ltac:(vm_compute; reflexivity)) as H.
  destruct H as (r0 & b0 & _ & _ & _ & H). apply Forall_cons in H as [(_ & c & Hc & Hcon) _].
  eexists _, c. split; [vm_compute; reflexivity|]. split; [vm_compute; reflexivity|]. split; [exact Hc|].
  exact Hcon.
Defined.
