(* ===== verification/Prover.v ===== *)
(** * Generating the correctness proofs ([proof.rs])

    The keys of the two circuits, drawn once per process, and the proof of a match and of a batch with
    its check against the verifying key.  Groth16 and its randomness are arkworks': [Groth16] is its
    interface, [Groth16Laws] its completeness. *)
From S2P Require Import Prelude Ints Text Types U256 I256 Risk Positions Liquidation Averages Fees MarketData Backstop.
From S2P Require Import Book Wire Matcher MatcherBook MatcherProps MatcherTrace Field Circuits CircuitProps ProofProps.
Open Scope Z_scope.

(** ** The proving system *)

(** A circuit: what [generate_constraints] enforces, and its public inputs. *)
Class ConstraintSynthesizer (C : Type) := {
  generate_constraints : C → exec (synth bool);
  public_inputs : C → exec (list Fr);
}.

(** [r] is the randomness drawn. *)
Class Groth16 := {
  ProvingKey : Type;
  VerifyingKey : Type;
  Proof : Type;
  circuit_specific_setup {C} `{ConstraintSynthesizer C} : C → Z → option (ProvingKey * VerifyingKey);
  prove {C} `{ConstraintSynthesizer C} : ProvingKey → C → Z → option Proof;
  verify : VerifyingKey → list Fr → Proof → option bool;
}.

Section prover.
Context `{F : FrOps} (sha256 : Bytes → list Z) `{G : Groth16}.

#[export] Instance match_synthesizer : ConstraintSynthesizer MatchCorrectnessCircuit :=
  {| generate_constraints := match_constraints sha256; public_inputs := match_public_inputs |}.
#[export] Instance batch_synthesizer : ConstraintSynthesizer BatchMatchCorrectnessCircuit :=
  {| generate_constraints := batch_constraints sha256; public_inputs := batch_public_inputs |}.

(** ** Keys *)

Record ProofKeys := { proving_key : ProvingKey; verifying_key : VerifyingKey }.

Definition keys_of (k : ProvingKey * VerifyingKey) : ProofKeys := {| proving_key := k.1; verifying_key := k.2 |}.
Definition setup (r : Z) : exec ProofKeys := keys_of <$> expect (circuit_specific_setup match_empty r).
Definition setup_batch (r : Z) : exec ProofKeys := keys_of <$> expect (circuit_specific_setup batch_empty r).

(** [KEYS.get_or_init]: the keys, and the cell from then on. *)
Definition shared (init : Z → exec ProofKeys) (cell : option ProofKeys) (r : Z) : exec (ProofKeys * option ProofKeys) :=
  match cell with
  | Some keys => Ret (keys, cell)
  | None => keys ← init r; Ret (keys, Some keys)
  end.

(** ** Proofs *)

Record MatchProofResult := { proof : Proof; result_inputs : list Fr; self_verified : bool }.

Definition prove_and_verify {C} `{!ConstraintSynthesizer C} (keys : ProofKeys) (circuit : C) (r : Z) : exec MatchProofResult :=
  inputs ← public_inputs circuit;
  proof ← expect (prove (proving_key keys) circuit r);
  Ret {| proof := proof; result_inputs := inputs; self_verified := default false (verify (verifying_key keys) inputs proof) |}.

Definition generate_match_proof (keys : ProofKeys) (w : MatchWitness) (r : Z) : exec MatchProofResult :=
  prove_and_verify keys (witness_circuit sha256 w) r.

Definition generate_batch_match_proof (keys : ProofKeys) (witnesses : list MatchWitness) (r : Z) : exec MatchProofResult :=
  circuit ← batch_circuit sha256 witnesses; prove_and_verify keys circuit r.

(** The tasks an order spawns: whether each proof verified, the failures being logged. *)
Fixpoint proof_tasks (keys : ProofKeys) (chunks : list (list MatchWitness)) (r : Z) : exec (list bool) :=
  match chunks with
  | [] => Ret []
  | chunk :: chunks =>
      res ← generate_batch_match_proof keys chunk r;
      rest ← proof_tasks keys chunks (r + 1);
      Ret (self_verified res :: rest)
  end.

(** ** Completeness *)

(** The keys made for the shape of a circuit prove every assignment that satisfies it, and the proof
    verifies against its public inputs. *)
Definition complete_for {C} `{!ConstraintSynthesizer C} (keys : ProofKeys) : Prop :=
  ∀ (c : C) xs r, generate_constraints c = Ret (Ok true) → public_inputs c = Ret xs →
    ∃ p, prove (proving_key keys) c r = Some p ∧ verify (verifying_key keys) xs p = Some true.

Class Groth16Laws : Prop := {
  setup_complete r keys : setup r = Ret keys → complete_for (C := MatchCorrectnessCircuit) keys;
  setup_batch_complete r keys : setup_batch r = Ret keys → complete_for (C := BatchMatchCorrectnessCircuit) keys;
}.

Context `{!FrLaws F, !Groth16Laws}.

(** The shared keys are those of one setup, whoever asks first. *)
Lemma shared_once init cell r keys cell' :
  shared init cell r = Ret (keys, cell') → cell' = Some keys ∧ ∀ r', shared init cell' r' = Ret (keys, cell').
Proof.
  unfold shared. destruct cell as [k|]; [by intros [= -> <-]|].
  intros (k & _ & [= -> <-])%bind_Ret. done.
Qed.

Lemma prove_complete {C} `{!ConstraintSynthesizer C} keys (c : C) xs r :
  complete_for (C := C) keys → generate_constraints c = Ret (Ok true) → public_inputs c = Ret xs →
  ∃ res, prove_and_verify keys c r = Ret res ∧ self_verified res = true ∧ result_inputs res = xs.
Proof.
  intros Hk Hc Hx. destruct (Hk c xs r Hc Hx) as (p & Hp & Hv). unfold prove_and_verify. rewrite Hx, ret_bind, Hp. cbn [expect].
  rewrite ret_bind, Hv. by eexists.
Qed.

(** A batch whose prices are inside the limit is proved, and the proof verifies. *)
Lemma batch_proof_verifies r keys p (fs : list Fill) (ch : list MatchWitness) r' :
  setup_batch r = Ret keys → payload_ok (POrder p) → Forall fill_fits fs → (length ch ≤ MAX_BATCH_SIZE)%nat →
  (∀ w, w ∈ ch → w ∈ match_witness p <$> fs) → Forall (inside_limit p) ch →
  ∃ res, generate_batch_match_proof keys ch r' = Ret res ∧ self_verified res = true.
Proof using All.
  intros Hk Hp Hf Hl Hin Hlim. destruct (fitting_batch sha256 p fs ch Hp Hf Hl Hin) as (c & Hc & Hcon).
  rewrite bool_decide_eq_true_2 in Hcon by done. destruct (public_inputs_batch sha256 ch c Hc) as (xs & Hxs & _).
  unfold generate_batch_match_proof. rewrite Hc, ret_bind.
  destruct (prove_complete keys c xs r' (setup_batch_complete _ _ Hk) Hcon Hxs) as (res & Hres & Hv & _). by exists res.
Qed.

(** Every task of an order whose proved fills are inside its limit verifies: the book's fills always are. *)
Theorem proof_tasks_verify r keys p (fs : list Fill) r' :
  setup_batch r = Ret keys → payload_ok (POrder p) → Forall fill_fits fs →
  Forall (λ f, provable_fill f → inside_limit p (match_witness p f)) fs →
  let chunks := chunk_for_batching (match_witness p <$> filter provable_fill fs) in
  proof_tasks keys chunks r' = Ret (replicate (length chunks) true).
Proof using All.
  intros Hk Hp Hf Hlim chunks. destruct (chunk_for_batching_spec (match_witness p <$> filter provable_fill fs)) as [Hjoin Hch].
  fold chunks in Hjoin, Hch.
  assert (Hall : Forall (λ ch, (length ch ≤ MAX_BATCH_SIZE)%nat ∧ (∀ w, w ∈ ch → w ∈ match_witness p <$> fs) ∧
                               Forall (inside_limit p) ch) chunks).
  { pose proof (proj1 (Forall_forall _ _) Hlim) as Hlim'. cbn beta in Hlim'. rewrite Forall_forall in Hch. apply Forall_forall.
    intros ch Hin. destruct (Hch ch Hin) as [_ Hlen]. split; [done|].
    assert (Hw : ∀ w, w ∈ ch → ∃ f, w = match_witness p f ∧ f ∈ fs ∧ provable_fill f).
    { intros w Hw. assert (Hw' : w ∈ match_witness p <$> filter provable_fill fs)
        by (rewrite <- Hjoin; apply list_elem_of_join; by exists ch).
      apply list_elem_of_fmap in Hw' as (f & -> & [? ?]%list_elem_of_filter). by exists f. }
    split; [|apply Forall_forall]; intros w (f & -> & Hff & Hpr)%Hw; [apply list_elem_of_fmap; by exists f|by apply Hlim']. }
  clear Hjoin Hch Hlim. revert r'. induction Hall as [|ch rest (Hl & Hin & Hc) _ IH]; intros r'; [done|]. cbn [proof_tasks].
  destruct (batch_proof_verifies r keys p fs ch r' Hk Hp Hf Hl Hin Hc) as (res & -> & Hv). rewrite ret_bind, IH, ret_bind, Hv. done.
Qed.
End prover.

(** ** A proving system *)

(** A proof that is the checked constraints and the inputs themselves. *)
Definition transparent : Groth16 := {|
  ProvingKey := unit; VerifyingKey := unit; Proof := bool * list Fr;
  circuit_specific_setup := λ _ _ _ _, Some ((), ());
  prove := λ _ _ _ c _,
    match generate_constraints c, public_inputs c with Ret (Ok held), Ret xs => Some (held, xs) | _, _ => None end;
  verify := λ _ xs p, Some (p.1 && bool_decide (xs = p.2)) |}.

Lemma transparent_laws `{F : FrOps} sha256 : @Groth16Laws F sha256 transparent.
Proof.
  split; intros r keys _ c xs r' Hc Hx; exists (true, xs); cbn [prove transparent]; rewrite Hc, Hx; (split; [done|]);
    cbn [verify transparent fst snd andb]; by rewrite bool_decide_eq_true_2.
Qed.

(** A sale of 2000 at its limit is proved in one batch. *)
Lemma proof_tasks_verify_witness :
  ∃ keys, @setup_batch bn254 demo_sha256 transparent 0 = Ret keys ∧
    let p := demo_payload Sell 100 2000 ImmediateOrCancel false 1 in
    let f := {| maker_id := 0; maker_owner := 5; f_tick := 100; f_qty := 2000; maker_filled := true; maker_size_before := 2000;
                taker_size_before := 2000 |} in
    @proof_tasks bn254 demo_sha256 transparent keys (chunk_for_batching (match_witness p <$> filter provable_fill [f])) 0 = Ret [true].
Proof.
  eexists. split; [reflexivity|]. intros p f.
  apply (@proof_tasks_verify bn254 demo_sha256 transparent bn254_laws (transparent_laws demo_sha256) 0 _ p [f] 0 eq_refl).
  - split; by vm_compute.
  - apply Forall_singleton. split; [|split; by vm_compute]. unfold fill_in_range.
    repeat (apply Forall_cons; split; [by vm_compute|]). apply Forall_nil. exact Logic.I.
  - apply Forall_singleton. intros _. by vm_compute.
Defined.
