(* ===== verification/MarginCircuit.v ===== *)
(** * The margin circuit: what it constrains

    Its value on signed position sizes inside and outside the range its bias covers, and the freedom
    its unconstrained witnesses leave. *)
From S2P Require Import Prelude Ints Field Types U256 I256 Risk Positions Liquidation Book Wire Matcher.
From S2P Require Import Circuits CircuitProps.
Open Scope Z_scope.

(** ** Definitions *)

(** The number the circuit's scenario and correlation terms stand for: the larger of the two shifted
    values of the net position; the correlation is zero. *)
Definition expected_margin (s0 s1 c l : Z) : Z := Z.max (-10 * (s0 + s1)) (10 * (s0 + s1)) + c + l.

(** ** Arithmetic on representatives *)

Section margin.
Context `{F : FrOps} `{!FrLaws F}.

Lemma fr_add_mod a b : fr_add (a mod bn254_r) (b mod bn254_r) = (a + b) mod bn254_r.
Proof. rewrite fr_add_exact by apply in_field_mod. by rewrite <- Zplus_mod. Qed.
Lemma fr_sub_mod a b : fr_sub (a mod bn254_r) (b mod bn254_r) = (a - b) mod bn254_r.
Proof. rewrite fr_sub_exact by apply in_field_mod. by rewrite <- Zminus_mod. Qed.
Lemma fr_mul_mod a b : fr_mul (a mod bn254_r) (b mod bn254_r) = (a * b) mod bn254_r.
Proof. rewrite fr_mul_exact by apply in_field_mod. by rewrite <- Zmult_mod. Qed.

(** The scenario term, up to the order of the field. *)
Definition scenario_term (net : Z) : Z :=
  if decide ((-10 * net + BIAS) mod bn254_r ≤ (10 * net + BIAS) mod bn254_r) then 10 * net else -10 * net.

Lemma scenario_max net :
  max_biased (scenario_values_biased params_default (net mod bn254_r)) =
    Ret ((scenario_term net + BIAS) mod bn254_r).
Proof.
  unfold scenario_values_biased, params_default, to_biased. cbn [shifts_biased fmap list_fmap max_biased foldl].
  rewrite !fr_from_exact, !fr_sub_mod, !fr_add_mod, !fr_sub_mod, !fr_mul_mod, !fr_add_mod. f_equal.
  unfold le_signed. rewrite le_exact by apply in_field_mod. unfold scenario_term, select.
  replace ((0 - 10 + BIAS - BIAS) * net + BIAS) with (-10 * net + BIAS) by lia.
  replace ((10 + BIAS - BIAS) * net + BIAS) with (10 * net + BIAS) by lia.
  case_decide as H.
  - by rewrite bool_decide_eq_true_2.
  - by rewrite bool_decide_eq_false_2.
Qed.

(** The circuit on biased sizes. *)
Lemma margin_constraints_mod b0 b1 c l m :
  margin_constraints {| size_biased_0 := Some (b0 mod bn254_r); size_biased_1 := Some (b1 mod bn254_r);
                        f_c := Some (c mod bn254_r); f_l := Some (l mod bn254_r);
                        m_claimed := Some (m mod bn254_r) |} =
    Ret (Ok (bool_decide ((scenario_term (b0 - BIAS + (b1 - BIAS)) + c + l) mod bn254_r = m mod bn254_r))).
Proof.
  unfold margin_constraints, enforce_equal. cbv zeta.
  cbn [assigned ok_or try_bind size_biased_0 size_biased_1 f_c f_l m_claimed foldl beta rho params_default].
  rewrite !fr_from_exact, !fr_sub_mod, !fr_add_mod, scenario_max, ret_bind. cbv beta.
  rewrite !fr_sub_mod, !fr_mul_mod, !fr_add_mod. do 3 f_equal.
  apply bool_decide_ext. rewrite Z.add_0_l. f_equiv. f_equal. lia.
Qed.

Lemma margin_new_mod s0 s1 c l m :
  margin_constraints (margin_new (fr_from s0) (fr_from s1) (fr_from c) (fr_from l) (fr_from m)) =
    Ret (Ok (bool_decide ((scenario_term (s0 + s1) + c + l) mod bn254_r = m mod bn254_r))).
Proof.
  unfold margin_new, to_biased. rewrite !fr_from_exact, !fr_add_mod, margin_constraints_mod.
  replace (s0 + BIAS - BIAS + (s1 + BIAS - BIAS)) with (s0 + s1) by lia. done.
Qed.

Lemma scenario_term_small net : 10 * Z.abs net ≤ BIAS → scenario_term net = Z.max (-10 * net) (10 * net).
Proof.
  intros H. unfold scenario_term. assert (2 * BIAS < bn254_r) by by vm_compute.
  rewrite !Z.mod_small by lia. case_decide; lia.
Qed.

Lemma scenario_term_large net :
  BIAS < 10 * Z.abs net → 20 * Z.abs net < bn254_r - 2 * BIAS → scenario_term net = Z.min (-10 * net) (10 * net).
Proof.
  intros Hlo Hhi. unfold scenario_term. assert (0 < BIAS) by by vm_compute.
  assert (Hneg : ∀ x, - bn254_r ≤ x < 0 → x mod bn254_r = x + bn254_r).
  { intros x Hx. symmetry. apply (Z.mod_unique_pos _ _ (-1)); lia. }
  destruct (decide (0 ≤ net)).
  - rewrite (Hneg (-10 * net + BIAS)), (Z.mod_small (10 * net + BIAS)) by lia. case_decide; lia.
  - rewrite (Hneg (10 * net + BIAS)), (Z.mod_small (-10 * net + BIAS)) by lia. case_decide; lia.
Qed.

(** ** Properties *)

(** C34: What the margin circuit constrains.  On signed sizes whose net position the bias covers the
    circuit holds exactly when the claimed number is the worse of the two scenarios plus the two
    asserted terms, modulo the field.  Past the bias the comparison wraps: it holds exactly when
    the better scenario, a negative number, stands in its place.  And since the concentration term
    is an unconstrained witness, for any assigned sizes, liquidity term and claimed number there is
    one with which the circuit holds: no claimed margin is ever refutable. *)
Theorem margin_circuit_exact :
  (∀ s0 s1 c l m, 10 * Z.abs (s0 + s1) ≤ BIAS →
     margin_constraints (margin_new (fr_from s0) (fr_from s1) (fr_from c) (fr_from l) (fr_from m)) =
       Ret (Ok (bool_decide (expected_margin s0 s1 c l mod bn254_r = m mod bn254_r)))) ∧
  (∀ s0 s1 c l m, BIAS < 10 * Z.abs (s0 + s1) → 20 * Z.abs (s0 + s1) < bn254_r - 2 * BIAS →
     margin_constraints (margin_new (fr_from s0) (fr_from s1) (fr_from c) (fr_from l) (fr_from m)) =
       Ret (Ok (bool_decide ((c + l - 10 * Z.abs (s0 + s1)) mod bn254_r = m mod bn254_r)))) ∧
  (∀ b0 b1 l m, Forall in_field [b0; b1; l; m] → ∃ c, in_field c ∧
     margin_constraints {| size_biased_0 := Some b0; size_biased_1 := Some b1; f_c := Some c;
                           f_l := Some l; m_claimed := Some m |} = Ret (Ok true)).
Proof.
  split_and!.
  - intros s0 s1 c l m H. rewrite margin_new_mod, scenario_term_small by done. done.
  - intros s0 s1 c l m Hlo Hhi. rewrite margin_new_mod, scenario_term_large by done.
    do 3 f_equal. apply bool_decide_ext. f_equiv. f_equal. lia.
  - intros b0 b1 l m Hf. repeat apply Forall_cons in Hf as [? Hf]. clear Hf.
    set (c := m - l - scenario_term (b0 - BIAS + (b1 - BIAS))).
    exists (c mod bn254_r). split; [apply in_field_mod|].
    rewrite <- (Z.mod_small b0 bn254_r), <- (Z.mod_small b1 bn254_r), <- (Z.mod_small l bn254_r),
      <- (Z.mod_small m bn254_r) by assumption.
    rewrite margin_constraints_mod. rewrite bool_decide_eq_true_2; [done|].
    unfold c. f_equal. lia.
Qed.
End margin.

Lemma margin_circuit_exact_witness :
  let new s0 s1 c l m := @margin_new bn254 (@fr_from bn254 s0) (@fr_from bn254 s1) (@fr_from bn254 c)
                           (@fr_from bn254 l) (@fr_from bn254 m) in
  @margin_constraints bn254 (new 5 (-3) 2 1 23) = Ret (Ok true) ∧
  @margin_constraints bn254 (new (2 ^ 40) 0 0 0 (-10 * 2 ^ 40)) = Ret (Ok true).
Proof.
  destruct (@margin_circuit_exact bn254 bn254_laws) as (H1 & H2 & _). split.
  - refine (eq_trans (H1 5 (-3) 2 1 23 _) _); [by vm_compute|vm_compute; reflexivity].
  - refine (eq_trans (H2 (2 ^ 40) 0 0 0 (-10 * 2 ^ 40) _ _) _); [by vm_compute..|vm_compute; reflexivity].
Defined.
