(* ===== verification/Persistence.v ===== *)
(** * Durability across a restart ([crates/cerdic-tee-matcher/src/persistence.rs], [api.rs], [main.rs])

    What the enclave writes to its state database, how it is read back at boot, and the migration of
    an older database.  [redb] and [serde_json] are interfaces: transactions that either commit
    everything or fail, and an encoding that decodes to what was encoded.  Definitions and their
    instance for the witnesses; the theorems are in [ServiceProps]. *)
From S2P Require Import Prelude Ints Types U256 I256 Book Risk Positions Liquidation MarketData Backstop Wire Matcher.
Open Scope Z_scope.

(** ** The persisted fields *)

Record PersistedState := {
  ps_market_data : gmap MarketId TradeTape;
  ps_last_nonce : gmap Address Z;
  ps_portfolio_markets : MarketIndex;
  ps_trader_volume : gmap Address Z;
  ps_oi_index : gmap MarketId (gset Key * Z);
}.

Definition persisted_default : PersistedState := {|
  ps_market_data := ∅; ps_last_nonce := ∅; ps_portfolio_markets := ∅; ps_trader_volume := ∅;
  ps_oi_index := ∅ |}.

(** ** The database and the encoding *)

(** What [redb] reports, by the operation that failed. *)
Inductive RedbError := TransactionFailed | TableFailed | StorageFailed | CommitFailed.

(** A database file.  [state_table] is [None] while the table does not exist; [write] is one
    transaction that opens the state table if its second argument says so, inserting a blob if
    there is one, and stamps a version if there is one. *)
Class Redb (Blob : Type) := {
  Db : Type;
  DatabaseError : Type;
  state_table : Db → result (option (option Blob)) RedbError;
  meta_version : Db → result (option Z) RedbError;
  write : Db → option (option Blob) → option Z → result Db RedbError;
}.

Class RedbLaws {Blob} (R : Redb Blob) : Prop := {
  write_state db s v db' : write db s v = Ok db' →
    match s with
    | None => state_table db' = state_table db
    | Some (Some b) => state_table db' = Ok (Some (Some b))
    | Some None => ∀ t, state_table db = Ok t → state_table db' = Ok (Some (mjoin t))
    end;
  write_version db s v db' : write db s v = Ok db' →
    match v with None => meta_version db' = meta_version db | Some v => meta_version db' = Ok (Some v) end;
}.

Class Serde (Blob : Type) := {
  Value : Type;
  JsonError : Type;
  to_vec : PersistedState → result Blob JsonError;
  from_slice : Blob → result PersistedState JsonError;
  value_from_slice : Blob → result Value JsonError;
  value_to_vec : Value → result Blob JsonError;
}.

Class SerdeLaws {Blob} (S : Serde Blob) : Prop := {
  decode_encode s b : to_vec s = Ok b → from_slice b = Ok s;
}.

Definition CURRENT_SCHEMA_VERSION : Z := 1.

Section persistence.
Context {Blob : Type} `{R : Redb Blob} `{S : Serde Blob}.

Inductive PersistenceError :=
| Open (source : DatabaseError)
| Transaction
| Table
| Storage
| Commit
| Json (e : JsonError).

(** The [#[from]] conversions behind [?]. *)
Definition from_redb (e : RedbError) : PersistenceError :=
  match e with
  | TransactionFailed => Transaction
  | TableFailed => Table
  | StorageFailed => Storage
  | CommitFailed => Commit
  end.
Definition redb {A} (r : result A RedbError) : exec (result A PersistenceError) :=
  Ret match r with Ok a => Ok a | Err e => Err (from_redb e) end.
Definition json {A} (r : result A JsonError) : exec (result A PersistenceError) :=
  Ret match r with Ok a => Ok a | Err e => Err (Json e) end.

Definition MIGRATIONS : list (Value → Value) := [].

(** [&MIGRATIONS[from..]], which aborts past the end. *)
Definition migrations_from (from : nat) : exec (list (Value → Value)) :=
  if decide (from ≤ length MIGRATIONS)%nat then Ret (drop from MIGRATIONS) else Panic.

(** What the migration branch writes to the state table. *)
Definition migrate_state (db : Db) (stored_version : Z) :
    exec (result (option (option Blob)) PersistenceError) :=
  existing ←? redb (state_table db);
  match mjoin existing with
  | Some raw =>
      value ←? json (value_from_slice raw);
      steps ← migrations_from (Z.to_nat (sat_u 64 (stored_version - 1)));
      encoded ←? json (value_to_vec (foldl (λ v f, f v) value steps));
      Ret (Ok (Some (Some encoded)))
  | None => Ret (Ok (Some None))
  end.

Definition run_migrations (db : Db) : exec (result Db PersistenceError) :=
  version ←? redb (meta_version db);
  let stored_version := default 0 version in
  state ←? (if decide (stored_version < CURRENT_SCHEMA_VERSION ∧ 0 < stored_version)
            then migrate_state db stored_version else Ret (Ok None));
  redb (write db state (Some CURRENT_SCHEMA_VERSION)).

(** [created] is what [Database::create] answers for the path. *)
Definition open (created : result Db DatabaseError) : exec (result Db PersistenceError) :=
  db ←? Ret (match created with Ok db => Ok db | Err e => Err (Open e) end);
  run_migrations db.

Definition try_load (db : Db) : exec (result PersistedState PersistenceError) :=
  table ←? redb (state_table db);
  match table with
  | None => Ret (Ok persisted_default)
  | Some (Some raw) => json (from_slice raw)
  | Some None => Ret (Ok persisted_default)
  end.

(** A blob that cannot be read degrades to the empty state. *)
Definition load (db : Db) : exec PersistedState :=
  r ← try_load db; Ret (match r with Ok state => state | Err _ => persisted_default end).

Definition save (db : Db) (state : PersistedState) : exec (result Db PersistenceError) :=
  bytes ←? json (to_vec state);
  redb (write db (Some (Some bytes)) None).

(** ** The enclave's side ([api.rs]) *)

Definition apply_persisted_state (st : AppState) (p : PersistedState) : AppState := {|
  books := books st; market_data := ps_market_data p; last_nonce := ps_last_nonce p;
  owner_addresses := owner_addresses st; portfolio_markets := ps_portfolio_markets p;
  backstop := backstop st; trader_volume := ps_trader_volume p; position_cache := position_cache st;
  pending_realized_pnl := pending_realized_pnl st;
  settlement_tx_hashes := settlement_tx_hashes st; oi_index := ps_oi_index p |}.

Definition snapshot_for_persistence (st : AppState) : PersistedState := {|
  ps_market_data := market_data st; ps_last_nonce := last_nonce st;
  ps_portfolio_markets := portfolio_markets st; ps_trader_volume := trader_volume st;
  ps_oi_index := oi_index st |}.

(** One tick of [persist_loop], and the flush at shutdown: a failed save leaves the last one. *)
Definition persist (db : Db) (st : AppState) : exec Db :=
  r ← save db (snapshot_for_persistence st);
  Ret (match r with Ok db' => db' | Err _ => db end).

(** The start of [main]: a database that cannot be opened stops the process. *)
Definition boot (created : result Db DatabaseError) (fresh : AppState) : exec (Db * AppState) :=
  opened ← open created;
  match opened with
  | Ok db => p ← load db; Ret (db, apply_persisted_state fresh p)
  | Err _ => Panic
  end.
End persistence.

(** ** An instance, for the witnesses *)

(** A file that holds the state itself, and never fails. *)
#[export] Instance file_redb {Blob} : Redb Blob := {|
  Db := option (option Blob) * option Z;
  DatabaseError := unit;
  state_table db := Ok db.1;
  meta_version db := Ok db.2;
  write db s v :=
    Ok (match s with None => db.1 | Some (Some b) => Some (Some b) | Some None => Some (mjoin db.1) end,
        match v with Some v => Some v | None => db.2 end) |}.

#[export] Instance file_redb_laws {Blob} : RedbLaws (@file_redb Blob).
Proof.
  split.
  - intros db [[b|]|] v db' [= <-]; [done| |done]. by intros t [= <-].
  - by intros db s [v|] db' [= <-].
Qed.

Definition identity_serde : Serde PersistedState := {|
  Value := unit; JsonError := unit; to_vec := Ok; from_slice := Ok;
  value_from_slice _ := Err (); value_to_vec _ := Err () |}.

#[export] Instance identity_serde_laws : SerdeLaws identity_serde.
Proof. split. by intros s b [= <-]. Qed.
