(* ===== verification/Service.v ===== *)
(** * Background tasks and public queries ([crates/cerdic-tee-matcher/src/api.rs], [settle.rs], [main.rs])

    What changes the enclave's state besides signed requests: the oracle poll, the open-interest
    scan, the flush of realized results, liquidations and margin attestations; and the unsigned
    queries on that state.  The chain is a provider passed to each scan.  Definitions only; the
    theorems are in [ServiceProps]. *)
From S2P Require Import Prelude Ints Types U256 I256 Book Risk Positions Liquidation MarketData Backstop Wire Matcher.
Open Scope Z_scope.

Definition set_oi_index (st : AppState) v := {|
  books := books st; market_data := market_data st; last_nonce := last_nonce st;
  owner_addresses := owner_addresses st; portfolio_markets := portfolio_markets st;
  backstop := backstop st; trader_volume := trader_volume st; position_cache := position_cache st;
  pending_realized_pnl := pending_realized_pnl st;
  settlement_tx_hashes := settlement_tx_hashes st; oi_index := v |}.

(** ** The oracle poll *)

(** [prices] is what [live_mark_prices] answered, in the order it is iterated. *)
Definition poll_oracle_prices (feeds : gmap MarketId string) (st : AppState)
    (prices : list (MarketId * Z)) : AppState :=
  if decide (feeds = ∅) then st
  else foldl (λ st e, put_maker st e.1 (record_price (maker_of st e.1) (as_u64 e.2))) st prices.

(** ** The open-interest scan *)

Inductive LoadSealedError := NotConfigured | Rpc (e : string).

(** The chain behind the RPC url: its head, and the topics of the logs of a contract that carry a
    signature and a market in a range of blocks. *)
Record Provider := {
  get_block_number : result Z string;
  get_logs : Address → Z → Z → Z → Z → result (list (list Key)) string;
}.

Section service.
Context (rpc_url : option string) (touched_signature : Z).

Definition broadcast_config (contract : option Address) : option (string * Address) :=
  match rpc_url, contract with
  | Some url, Some c => Some (url, c)
  | _, _ => None
  end.

Definition rpc {A} (r : result A string) : exec (result A LoadSealedError) :=
  Ret match r with Ok a => Ok a | Err e => Err (Rpc e) end.

Definition index_open_interest (provider : Provider) (market_id : Z) (contract : option Address)
    (from_block : Z) : exec (result (list Key * Z) LoadSealedError) :=
  '(url, contract) ←? Ret (ok_or (broadcast_config contract) NotConfigured);
  latest ←? rpc (get_block_number provider);
  logs ←? rpc (get_logs provider contract touched_signature market_id from_block latest);
  Ret (Ok (omap (λ topics : list Key, topics !! 1%nat) logs, u64_add latest 1)).

(** The scan of one market. *)
Definition poll_market (onchain : MarketId → Z) (provider : Provider) (st : AppState)
    (e : MarketId * Address) : exec AppState :=
  let '(market_id, contract) := e in
  let from_block := match oi_index st !! market_id with Some (_, next) => next | None => 0 end in
  found ← index_open_interest provider (onchain market_id) (Some contract) from_block;
  Ret match found with
      | Ok (new_keys, next_block) =>
          let keys := match oi_index st !! market_id with Some (keys, _) => keys | None => ∅ end in
          set_oi_index st (<[market_id := (keys ∪ list_to_set new_keys, next_block)]> (oi_index st))
      | Err _ => st
      end.

(** [contracts] is the iteration of [settlement_contracts]; each scan sees the provider of its time. *)
Fixpoint poll_open_interest (onchain : MarketId → Z) (st : AppState)
    (contracts : list (MarketId * Address * Provider)) : exec AppState :=
  match contracts with
  | [] => Ret st
  | (e, provider) :: contracts =>
      st ← poll_market onchain provider st e;
      poll_open_interest onchain st contracts
  end.

(** ** Flushing realized results *)

(** The call of [Account.settleRealizedPnlBatch]. *)
Record RealizedPnlBatch := {
  rb_contract : Address;
  rb_traders : list Address;
  rb_assets : list Address;
  rb_deltas : list Z;
}.

(** The batch broadcast, if any; a failed broadcast is only logged. *)
Definition settle_realized_pnl_batch (items : list (Address * Address * Z))
    (contract : option Address) : option RealizedPnlBatch :=
  if decide (items = []) then None
  else match broadcast_config contract with
       | None => None
       | Some (_, contract) =>
           Some {| rb_contract := contract; rb_traders := (λ i, i.1.1) <$> items;
                   rb_assets := (λ i, i.1.2) <$> items; rb_deltas := snd <$> items |}
       end.

Definition account_contract (collateral_check : option (Address * Address)) : option Address :=
  fst <$> collateral_check.

(** One round of [realized_pnl_flush_loop]. *)
Definition realized_pnl_flush (collateral_check : option (Address * Address)) (st : AppState) :
    AppState * option RealizedPnlBatch :=
  let '(pending, items) := drain_realized_pnl (pending_realized_pnl st) in
  let st := set_positions st (position_cache st) pending in
  if decide (items = []) then (st, None)
  else (st, settle_realized_pnl_batch items (account_contract collateral_check)).
End service.

(** ** Margin of a portfolio, to keepers and to the chain *)

Section margin.
Context `{U : U256} `{I : I256} (load_sealed : Key → MarketId → option (SealedBlob * Z)).
Context (live_mark_prices : list MarketId → gmap MarketId Z).

Definition portfolio_state (st : AppState) (k : Key) (market_hints : list MarketId) :
    AppState * list PortfolioMarketState :=
  let '(index, states) :=
    load_portfolio_state load_sealed (portfolio_markets st) (position_cache st) k market_hints in
  (set_portfolio_markets st index, states).

(** [post_liquidation_check] on a decoded request. *)
Definition post_liquidation_check (st : AppState) (k : Key) (market_hints : list MarketId) :
    exec (AppState * bool) :=
  let '(st, market_states) := portfolio_state st k market_hints in
  if decide (market_states = []) then Ret (st, false)
  else
    let live_prices := live_mark_prices (pm_market_id <$> market_states) in
    r ← compute_margin market_states live_prices;
    Ret (st, match r with Ok margin => maintenance_breached margin | Err _ => false end).

(** [post_liquidate] on the fields it changes. *)
Definition liquidate (sort : list MarketId → list MarketId) (onchain : MarketId → Z)
    (settlement_contracts : gmap MarketId Address) (funding_indices : gmap MarketId Z)
    (broadcast : Address → LiquidationSweep → option Z) (st : AppState) (k : Key)
    (liquidator : Address) (market_hints : list MarketId) :
    exec (AppState * result LiquidateResponse RiskError) :=
  '(l, r) ← post_liquidate load_sealed sort onchain settlement_contracts live_mark_prices
              funding_indices broadcast
              {| l_index := portfolio_markets st; l_cache := position_cache st |}
              k liquidator market_hints;
  Ret (set_positions (set_portfolio_markets st (l_index l)) (l_cache l) (pending_realized_pnl st), r).

(** The call of [RiskMonitor.submitPortfolioMargin]. *)
Record PortfolioMarginCall := {
  pmc_contract : Address;
  pmc_trader : Address;
  pmc_requirement : Z;
  pmc_expiry : Z;
}.

Definition submit_portfolio_margin (rpc_url : option string) (trader : Address)
    (requirement expiry : Z) (contract : option Address) : option PortfolioMarginCall :=
  match broadcast_config rpc_url contract with
  | None => None
  | Some (_, contract) =>
      Some {| pmc_contract := contract; pmc_trader := trader; pmc_requirement := requirement;
              pmc_expiry := expiry |}
  end.

Definition PORTFOLIO_MARGIN_ATTESTATION_TTL_SECS : Z := 3600.

Definition attest_portfolio_margin (rpc_url : option string) (risk_monitor_contract : option Address)
    (now : Z) (st : AppState) (trader : Address) (k : Key) :
    exec (AppState * option PortfolioMarginCall) :=
  match risk_monitor_contract with
  | None => Ret (st, None)
  | Some contract =>
      let '(st, market_states) := portfolio_state st k [] in
      if decide (market_states = []) then Ret (st, None)
      else
        let live_prices := live_mark_prices (pm_market_id <$> market_states) in
        r ← compute_margin market_states live_prices;
        Ret (st, match r with
                 | Ok margin =>
                     submit_portfolio_margin rpc_url trader (margin_requirement margin)
                       (u64_add now PORTFOLIO_MARGIN_ATTESTATION_TTL_SECS) (Some contract)
                 | Err _ => None
                 end)
  end.
End margin.

(** ** Queries *)

Inductive SettlementStatusResponse := Pending | Confirmed (tx_hash : Z) | Failed.

(** [signer] is the parsed address of the path, if it parses. *)
Definition get_settlement_status (st : AppState) (signer : option Address) (nonce : Z) :
    option SettlementStatusResponse :=
  signer ← signer;
  Some match settlement_tx_hashes st !! (signer, nonce) with
       | Some (Some tx_hash) => Confirmed tx_hash
       | Some None => Failed
       | None => Pending
       end.

Record OpenInterestResponse := {
  oi_market_id : MarketId;
  total_collateral : option Z;
  position_count : option nat;
}.

Definition add_position `{I : I256} (load_sealed : Key → Z → Address → option Z) (market_hash : Z)
    (contract : Address) (acc : Z * nat) (key : Key) : Z * nat :=
  match load_sealed key market_hash contract with
  | Some collateral =>
      match i128_try_from collateral with
      | Some c => if decide (0 < c) then (wraps 128 (acc.1 + c), S acc.2) else acc
      | None => acc
      end
  | None => acc
  end.

(** [keys] is the iteration of the market's key set. *)
Definition get_open_interest `{I : I256} (settlement_contracts : gmap MarketId Address) (onchain : MarketId → Z)
    (load_sealed : Key → Z → Address → option Z) (st : AppState) (market_id : MarketId) :
    OpenInterestResponse :=
  match settlement_contracts !! market_id with
  | None => {| oi_market_id := market_id; total_collateral := None; position_count := None |}
  | Some contract =>
      let keys := match oi_index st !! market_id with Some (keys, _) => elements keys | None => [] end in
      let '(total, count) :=
        foldl (add_position load_sealed (onchain market_id) contract) (0, O) keys in
      {| oi_market_id := market_id; total_collateral := Some total; position_count := Some count |}
  end.
