(* ===== verification/ServiceProps.v ===== *)
(** * Background tasks and restarts: theorems

    What survives a restart and what a crash reopens, that the open-interest index is exactly the
    portfolios the chain has shown, and that a flush reports exactly what the folds realized. *)
From S2P Require Import Prelude Ints Types U256 I256 Occupancy Risk Positions Liquidation Averages Fees.
From S2P Require Import MarketData Backstop Book BookWf BookOps BookSpec BookRefine BookProps.
From S2P Require Import Wire Matcher MatcherBook MatcherProps MatcherTrace Persistence Service.
Open Scope Z_scope.

(** ** Definitions *)

(** A nonce the enclave would accept from a signer. *)
Definition accepts (st : AppState) (signer nonce : Z) : bool :=
  match accept_nonce st signer nonce with Ok _ => true | Err _ => false end.

(** The fields a restart takes from the new process. *)
Definition volatile_eq (st st' : AppState) : Prop :=
  books st' = books st ∧ owner_addresses st' = owner_addresses st ∧ backstop st' = backstop st ∧
  position_cache st' = position_cache st ∧ pending_realized_pnl st' = pending_realized_pnl st ∧
  settlement_tx_hashes st' = settlement_tx_hashes st.

(** ** Nonces *)

Lemma accepts_spec st signer n :
  accepts st signer n =
    match last_nonce st !! signer with Some l => bool_decide (l < n) | None => true end.
Proof.
  unfold accepts, accept_nonce. destruct (last_nonce st !! signer) as [l|]; [|done].
  case_decide; case_bool_decide; (done || lia).
Qed.

(** What a run accepted it does not accept again; it was acceptable before the run. *)
Lemma accepted_spent E qs st st' log signer n :
  serve E st qs = Ret (st', log) → n ∈ accepted_nonces signer log →
  accepts st signer n = true ∧ accepts st' signer n = false.
Proof.
  intros Hrun Hn. destruct (serve_nonces E qs st st' log signer Hrun) as [Hi He].
  rewrite !accepts_spec, He. pose proof (increasing_above _ _ _ Hi Hn) as Hab. split.
  { destruct (last_nonce st !! signer); [by apply bool_decide_eq_true_2|done]. }
  revert Hi Hn. clear. generalize (last_nonce st !! signer). intros o.
  induction (accepted_nonces signer log) as [|x l IH] in o |- *; cbn [increasing_from].
  { by intros _ ?%elem_of_nil. }
  intros [_ Hl] Hin. rewrite last_cons. destruct (last l) as [z|] eqn:Hz.
  - apply bool_decide_eq_false_2. apply elem_of_cons in Hin as [->|Hin].
    + apply last_Some_elem_of in Hz. pose proof (increasing_above _ _ _ Hl Hz) as Hlt. cbn in Hlt. lia.
    + specialize (IH _ Hl Hin). by apply bool_decide_eq_false in IH.
  - apply last_None in Hz as ->. apply list_elem_of_singleton in Hin as ->.
    apply bool_decide_eq_false_2. lia.
Qed.

(** ** The database *)

Section database.
Context {Blob : Type} `{R : Redb Blob} `{!RedbLaws R} `{S : Serde Blob} `{!SerdeLaws S}.

Lemma save_load db p db' : save db p = Ret (Ok db') → load db' = Ret p.
Proof.
  unfold save, json. intros (b & Hb & H)%try_bind_Ok. unfold redb in H.
  destruct (to_vec p) as [b'|] eqn:Hp; [|done]. injection Hb as ->.
  destruct (write _ _ _) as [db1|] eqn:Hw; [|done]. injection H as ->.
  apply write_state in Hw. unfold load, try_load, redb, json. rewrite Hw. cbn.
  by rewrite (decode_encode _ _ Hp).
Qed.

(** Opening keeps the state: no released version needs a migration. *)
Lemma open_load db db' : open (Ok db) = Ret (Ok db') → load db' = load db.
Proof.
  unfold open, run_migrations. intros (db0 & [= ->] & H)%try_bind_Ok.
  apply try_bind_Ok in H as (v & _ & H). cbv zeta in H. rewrite decide_False in H
    by (unfold CURRENT_SCHEMA_VERSION; lia).
  cbn in H. unfold redb in H. destruct (write _ _ _) as [db1|] eqn:Hw; [|done]. injection H as ->.
  apply write_state in Hw. unfold load, try_load. by rewrite Hw.
Qed.

Lemma boot_inv db fresh db' st' :
  boot (Ok db) fresh = Ret (db', st') →
  ∃ p, load db = Ret p ∧ load db' = Ret p ∧ st' = apply_persisted_state fresh p.
Proof.
  unfold boot. intros ([db1|e] & Ho & H)%bind_Ret; [|done].
  apply bind_Ret in H as (p & Hp & [= <- <-]). exists p.
  by rewrite <- (open_load _ _ Ho).
Qed.
End database.

(** ** The open-interest index *)

Section open_interest.
Context (rpc_url : string) (signature : Z) (onchain : MarketId → Z).
(** The logs of a contract and a market in a block: the chain's history, which does not change. *)
Context (touched : Address → Z → Z → list (list Key)).

Definition logs_between (c : Address) (m from to : Z) : list (list Key) :=
  mjoin (touched c m <$> seqZ from (to - from + 1)).

(** A provider that answers from the history, as of some head, or fails. *)
Definition honest (p : Provider) : Prop :=
  (∀ head, get_block_number p = Ok head → 0 ≤ head < 2 ^ 63) ∧
  (∀ c m from to logs, get_logs p c signature m from to = Ok logs → logs = logs_between c m from to).

Definition topic_keys (logs : list (list Key)) : list Key := omap (λ topics : list Key, topics !! 1%nat) logs.

(** The portfolios touched before a block. *)
Definition seen_below (c : Address) (m n : Z) : gset Key :=
  list_to_set (topic_keys (logs_between c m 0 (n - 1))).

(** An entry holds the portfolios touched before some block not below the one it resumes from. *)
Definition entry_ok (c : Address) (m : Z) (e : gset Key * Z) : Prop :=
  ∃ n, 0 ≤ e.2 ≤ n ∧ e.1 = seen_below c m n.

Definition index_ok (contracts : gmap MarketId Address) (st : AppState) : Prop :=
  ∀ m c e, contracts !! m = Some c → oi_index st !! m = Some e → entry_ok c (onchain m) e.

Lemma topic_keys_app l1 l2 : topic_keys (l1 ++ l2) = topic_keys l1 ++ topic_keys l2.
Proof. apply omap_app. Qed.

Lemma elem_of_seen c m n k :
  k ∈ seen_below c m n ↔ ∃ b, 0 ≤ b < n ∧ k ∈ topic_keys (touched c m b).
Proof.
  unfold seen_below, logs_between, topic_keys. rewrite elem_of_list_to_set, list_elem_of_omap. split.
  - intros (l & (ls & Hl & (b & -> & Hb)%list_elem_of_fmap)%list_elem_of_join & Hk).
    apply elem_of_seqZ in Hb. exists b. split; [lia|]. apply list_elem_of_omap. by exists l.
  - intros (b & Hb & (l & Hl & Hk)%list_elem_of_omap). exists l. split; [|done].
    apply list_elem_of_join. exists (touched c m b). split; [done|]. apply list_elem_of_fmap.
    exists b. split; [done|]. apply elem_of_seqZ. lia.
Qed.

(** Resuming inside what was seen and scanning to the head sees everything below the further end. *)
Lemma seen_extend c m n from head :
  0 ≤ from ≤ n →
  seen_below c m n ∪ list_to_set (topic_keys (logs_between c m from head)) =
    seen_below c m (Z.max n (head + 1)).
Proof.
  intros Hn. apply set_eq. intros k. rewrite elem_of_union, !elem_of_seen, elem_of_list_to_set.
  unfold logs_between, topic_keys. rewrite list_elem_of_omap. split.
  - intros [(b & Hb & Hk)|(l & (ls & Hl & (b & -> & Hb)%list_elem_of_fmap)%list_elem_of_join & Hk)].
    + exists b. split; [lia|done].
    + apply elem_of_seqZ in Hb. exists b. split; [lia|]. apply list_elem_of_omap. by exists l.
  - intros (b & Hb & Hk). destruct (decide (b < n)); [left; exists b; split; [lia|done]|right].
    apply list_elem_of_omap in Hk as (l & Hl & Hk). exists l. split; [|done].
    apply list_elem_of_join. exists (touched c m b). split; [done|]. apply list_elem_of_fmap.
    exists b. split; [done|]. apply elem_of_seqZ. lia.
Qed.

(** One scan: it fails and changes nothing, or brings the market up to its provider's head. *)
Lemma poll_market_spec st m c p :
  honest p → (∀ e, oi_index st !! m = Some e → entry_ok c (onchain m) e) →
  ∃ st', poll_market (Some rpc_url) signature onchain p st (m, c) = Ret st' ∧
    (∀ m', m' ≠ m → oi_index st' !! m' = oi_index st !! m') ∧
    (st' = st ∨ ∃ head n keys, get_block_number p = Ok head ∧ head < n ∧
       oi_index st' !! m = Some (keys, head + 1) ∧ keys = seen_below c (onchain m) n).
Proof.
  intros [Hhead Hlogs] Hok. unfold poll_market, index_open_interest, broadcast_config, rpc. cbv zeta.
  cbn [ok_or try_bind ret_bind]. destruct (get_block_number p) as [head|e] eqn:Hh; cbn [try_bind]; cycle 1.
  { eexists. rewrite ret_bind. split; [done|]. split; [done|by left]. }
  set (from := match oi_index st !! m with Some (_, next) => next | None => 0 end).
  destruct (get_logs p c signature (onchain m) from head) as [logs|e] eqn:Hl; cbn [try_bind]; cycle 1.
  { eexists. rewrite ret_bind. split; [done|]. split; [done|by left]. }
  apply Hlogs in Hl as ->. specialize (Hhead _ eq_refl).
  eexists. rewrite ret_bind. split; [done|]. split.
  { intros m' Hne. cbn. by rewrite lookup_insert_ne. }
  right. assert (∃ n, 0 ≤ from ≤ n ∧
    match oi_index st !! m with Some (keys, _) => keys | None => ∅ end = seen_below c (onchain m) n) as (n & Hn & Hk).
  { unfold from. destruct (oi_index st !! m) as [[keys next]|].
    - destruct (Hok _ eq_refl) as (n & Hn & Hk). by exists n.
    - exists 0. split; [lia|]. apply set_eq. intros k. rewrite elem_of_seen. split; [set_solver|]. intros (b & Hb & _). lia. }
  exists head, (Z.max n (head + 1)). eexists. split; [done|]. split; [lia|]. cbn. rewrite lookup_insert_eq.
  unfold u64_add. rewrite wrapu_small by int_range. split; [done|]. rewrite Hk. by apply seen_extend.
Qed.
End open_interest.

(** ** Realized results *)

Fixpoint queue_all `{I : I256} (check : option (Address * Address)) (pending : gmap (Address * Address) Z)
    (results : list (Address * Z)) : exec (gmap (Address * Address) Z) :=
  match results with
  | [] => Ret pending
  | (trader, delta) :: results =>
      pending ← queue_realized_pnl check pending trader delta; queue_all check pending results
  end.

(** What a run of results comes to for a trader; the zero address is the backstop. *)
Definition owed (results : list (Address * Z)) (trader : Address) : Z :=
  if decide (trader = 0) then 0 else sumZ (snd <$> filter (λ e, e.1 = trader) results).

Definition volume (results : list (Address * Z)) : Z := sumZ ((λ e, Z.abs e.2) <$> results).

Lemma owed_cons t d results trader :
  owed ((t, d) :: results) trader = (if decide (t = trader ∧ trader ≠ 0) then d else 0) + owed results trader.
Proof.
  unfold owed. destruct (decide (trader = 0)) as [->|Hne]; [by rewrite decide_False by naive_solver|].
  destruct (decide (t = trader)) as [->|Hnt].
  - rewrite filter_cons_True, fmap_cons, sumZ_cons by done. by rewrite decide_True.
  - rewrite filter_cons_False by done. by rewrite decide_False by naive_solver.
Qed.

Lemma queue_one_spec `{I : I256} `{!I256Laws I} account asset pending t d :
  Z.abs (default 0 (pending !! (t, asset))) + Z.abs d < 2 ^ 254 →
  ∃ pending', queue_realized_pnl (Some (account, asset)) pending t d = Ret pending' ∧
    ∀ k, default 0 (pending' !! k) =
         default 0 (pending !! k) + (if decide (k = (t, asset) ∧ t ≠ 0) then d else 0).
Proof.
  intros Hb. unfold queue_realized_pnl. destruct (decide (d = 0 ∨ t = 0)) as [H|H].
  { eexists. split; [done|]. intros k. case_decide; [|lia]. destruct H; naive_solver lia. }
  rewrite i256_add_Ret by lia. rewrite ret_bind. eexists. split; [done|]. intros k.
  destruct (decide (k = (t, asset))) as [->|Hk].
  - rewrite lookup_insert_eq, decide_True by naive_solver. done.
  - rewrite lookup_insert_ne, decide_False by naive_solver. lia.
Qed.

Lemma queue_all_spec `{I : I256} `{!I256Laws I} account asset results pending :
  (∀ k, Z.abs (default 0 (pending !! k)) + volume results < 2 ^ 254) →
  ∃ pending', queue_all (Some (account, asset)) pending results = Ret pending' ∧
    ∀ k, default 0 (pending' !! k) =
         default 0 (pending !! k) + (if decide (k.2 = asset) then owed results k.1 else 0).
Proof.
  revert pending. induction results as [|[t d] results IH]; intros pending Hb; cbn [queue_all].
  { eexists. split; [done|]. intros k. unfold owed. repeat case_decide; cbn; lia. }
  unfold volume in *. rewrite fmap_cons, sumZ_cons in Hb. cbn [snd] in Hb.
  assert (Hn : 0 ≤ volume results) by (apply sumZ_nonneg, Forall_fmap, Forall_true; cbn; lia).
  unfold volume in Hn. destruct (queue_one_spec account asset pending t d) as (p1 & -> & H1).
  { specialize (Hb (t, asset)). lia. }
  rewrite ret_bind. destruct (IH p1) as (p2 & -> & H2).
  { intros k. rewrite H1. specialize (Hb k). destruct (decide (k = (t, asset) ∧ t ≠ 0)); lia. }
  exists p2. split; [done|]. intros [t' a']. rewrite H2, H1. cbn [fst snd]. rewrite owed_cons.
  destruct (decide (a' = asset)) as [->|Ha]; [|rewrite decide_False by naive_solver; lia].
  destruct (decide ((t', asset) = (t, asset) ∧ t ≠ 0)) as [[[= ->] Ht]|H].
  - rewrite (decide_True (P := t = t ∧ t ≠ 0)) by done. lia.
  - rewrite (decide_False (P := t = t' ∧ t' ≠ 0)) by naive_solver. lia.
Qed.

Lemma zip_unzip {A B C} (l : list (A * B * C)) :
  zip (zip ((λ i, i.1.1) <$> l) ((λ i, i.1.2) <$> l)) (snd <$> l) = l.
Proof. induction l as [|[[a b] c] l IH]; [done|]. cbn. by rewrite IH. Qed.

(** A round of scans. *)
Lemma poll_open_interest_ok rpc_url signature onchain touched contracts st polls :
  index_ok onchain touched contracts st →
  Forall (λ e : MarketId * Address * Provider,
    contracts !! e.1.1 = Some e.1.2 ∧ honest signature touched e.2) polls →
  ∃ st', poll_open_interest (Some rpc_url) signature onchain st polls = Ret st' ∧
    index_ok onchain touched contracts st' ∧
    (∀ m c p, polls = [(m, c, p)] → st' = st ∨
       ∃ head n keys, get_block_number p = Ok head ∧ head < n ∧
         oi_index st' !! m = Some (keys, head + 1) ∧
         ∀ k, k ∈ keys ↔ ∃ b, 0 ≤ b < n ∧ k ∈ topic_keys (touched c (onchain m) b)).
Proof.
  intros Hok Hpolls. revert st Hok.
  induction Hpolls as [|[[m c] p] polls [Hc Hp] _ IH]; intros st Hok; cbn [poll_open_interest].
  { by exists st. }
  cbn [fst snd] in Hc, Hp.
  destruct (poll_market_spec rpc_url signature onchain touched st m c p Hp) as (st1 & Hrun & Hother & Hone).
  { intros e He. by eapply Hok. }
  rewrite Hrun, ret_bind. destruct (IH st1) as (st2 & Hrun2 & Hok2 & _).
  { intros m' c' e Hc' He. destruct (decide (m' = m)) as [->|Hne]; [|rewrite Hother in He by done; by eapply Hok].
    destruct Hone as [->|(head & n & keys & Hh & Hn & Hk & ->)]; [by eapply Hok|].
    rewrite Hc in Hc'. injection Hc' as <-. rewrite Hk in He. injection He as <-.
    exists n. cbn. destruct Hp as [Hp _]. specialize (Hp _ Hh). split; [lia|done]. }
  exists st2. split; [done|]. split; [done|]. intros m' c' p' [= -> -> -> ->].
  cbn in Hrun2. injection Hrun2 as <-.
  destruct Hone as [->|(head & n & keys & Hh & Hn & Hk & ->)]; [by left|right].
  exists head, n, (seen_below touched c' (onchain m') n). split_and!; [done|done|done|].
  intros k. apply elem_of_seen.
Qed.

(** ** Everything the process does, interleaved *)

Section process.
Context `{U : U256} (E : Enclave) (rpc_url : string) (signature : Z).
Context (touched : Address → Z → Z → list (list Key)) (contracts : gmap MarketId Address).
Context (sort : list MarketId → list MarketId) (broadcast : Address → LiquidationSweep → option Z).

Abbreviation onchain_id := (onchain (en_dep E)).

(** The states the process reaches, counting the requests served since it last started. *)
Inductive process : nat → AppState → Prop :=
| process_start : process 0 new_state
| process_request n st q st' r :
    process n st → payload_ok (rq_payload q) → serve_one E st q = Ret (st', r) → process (S n) st'
| process_settled n st m signer nonce sweep tx_hash :
    process n st → process n (finish_settlement st m signer nonce sweep tx_hash)
| process_attest n st monitor live now trader k st' call :
    process n st →
    attest_portfolio_margin (I := en_i256 E) (en_load E) live (Some rpc_url) monitor now st trader k = Ret (st', call) →
    process n st'
| process_check n st live k hints st' r :
    process n st → post_liquidation_check (I := en_i256 E) (en_load E) live st k hints = Ret (st', r) →
    process n st'
| process_liquidate n st live funding k liquidator hints st' r :
    process n st →
    liquidate (I := en_i256 E) (en_load E) live sort onchain_id contracts funding broadcast st k liquidator hints =
      Ret (st', r) →
    process n st'
| process_oracle n st feeds prices :
    process n st → process n (poll_oracle_prices feeds st prices)
| process_interest n st polls st' :
    process n st →
    Forall (λ e : MarketId * Address * Provider,
      contracts !! e.1.1 = Some e.1.2 ∧ honest signature touched e.2) polls →
    poll_open_interest (Some rpc_url) signature onchain_id st polls = Ret st' → process n st'
| process_flush n st :
    process n st → process n (realized_pnl_flush (Some rpc_url) (collateral_check (en_dep E)) st).1
| process_restart n st n' saved :
    process n st → process n' saved →
    process 0 (apply_persisted_state new_state (snapshot_for_persistence saved)).

Definition process_ok (n : nat) (st : AppState) : Prop :=
  (Z.of_nat n < NIL → matcher_ok n st) ∧ index_ok onchain_id touched contracts st.

Lemma process_ok_frame n st st' :
  books st' = books st → backstop st' = backstop st → oi_index st' = oi_index st →
  process_ok n st → process_ok n st'.
Proof.
  intros Hb Hs Hi [Hm Ho]. split.
  - intros Hn. eapply matcher_ok_same; [done..|by apply Hm].
  - unfold index_ok. by rewrite Hi.
Qed.

Lemma poll_oracle_spec n feeds st prices :
  (matcher_ok n st → matcher_ok n (poll_oracle_prices feeds st prices)) ∧
  oi_index (poll_oracle_prices feeds st prices) = oi_index st.
Proof.
  unfold poll_oracle_prices. case_decide; [done|]. clear. revert st.
  induction prices as [|[m price] prices IH]; intros st; [done|]. cbn [foldl fst snd].
  destruct (IH (put_maker st m (record_price (maker_of st m) (as_u64 price)))) as [Hok ->].
  split; [|done]. intros [Hb Hm]. apply Hok. split; [exact Hb|]. intros m'.
  destruct (decide (m' = m)) as [->|Hne]; unfold maker_of, put_maker; simpl.
  - rewrite lookup_insert_eq. apply record_price_ok; [apply Hm|]. apply wrapu_range. lia.
  - rewrite lookup_insert_ne by done. apply Hm.
Qed.

Lemma poll_interest_frame st polls st' :
  poll_open_interest (Some rpc_url) signature onchain_id st polls = Ret st' →
  books st' = books st ∧ backstop st' = backstop st.
Proof.
  revert st. induction polls as [|[[m c] p] polls IH]; intros st; cbn [poll_open_interest]; [by intros [= <-]|].
  intros (st1 & H1 & H)%bind_Ret. destruct (IH _ H) as [-> ->]. unfold poll_market in H1. cbv zeta in H1.
  apply bind_Ret in H1 as ([[keys next]|e] & _ & [= <-]); done.
Qed.

Lemma portfolio_state_frame st k hints :
  let st' := (portfolio_state (en_load E) st k hints).1 in
  books st' = books st ∧ backstop st' = backstop st ∧ oi_index st' = oi_index st.
Proof. done. Qed.

Lemma process_invariant (Hc : config_ok (backstop_config (en_dep E))) n st :
  process n st → process_ok n st.
Proof.
  induction 1 as [|n st q st' r _ [Hm Hi] Hp Hrun|n st m signer nonce sweep tx_hash _ IH
                  |n st monitor live now trader k st' call _ IH Hrun|n st live k hints st' r _ IH Hrun
                  |n st live funding k liquidator hints st' r _ IH Hrun
                  |n st feeds prices _ [Hm Hi]|n st polls st' _ [Hm Hi] Hpolls Hrun|n st _ IH
                  |n st n' saved _ _ _ [_ Hi]].
  - split; [intros _; apply matcher_ok_new|]. intros m c e _ He. cbn in He. by rewrite lookup_empty in He.
  - split; [intros Hn; eapply serve_one_ok; [exact Hc|apply Hm; lia|lia|done|exact Hrun]|].
    apply serve_one_nonce in Hrun as [Heq _]. unfold index_ok. by rewrite Heq.
  - by eapply process_ok_frame; [..|exact IH].
  - unfold attest_portfolio_margin in Hrun. destruct monitor; [|by injection Hrun as <- _].
    unfold portfolio_state in Hrun. destruct (load_portfolio_state _ _ _ _ _) as [index states].
    case_decide; [injection Hrun as <- _|apply bind_Ret in Hrun as (x & _ & [= <- _])];
      by eapply process_ok_frame; [..|exact IH].
  - unfold post_liquidation_check, portfolio_state in Hrun.
    destruct (load_portfolio_state _ _ _ _ _) as [index states].
    case_decide; [injection Hrun as <- _|apply bind_Ret in Hrun as (x & _ & [= <- _])];
      by eapply process_ok_frame; [..|exact IH].
  - unfold liquidate in Hrun. apply bind_Ret in Hrun as ([l r'] & _ & [= <- _]).
    by eapply process_ok_frame; [..|exact IH].
  - destruct (poll_oracle_spec n feeds st prices) as [Hok Heq]. split; [auto|]. unfold index_ok. by rewrite Heq.
  - destruct (poll_interest_frame _ _ _ Hrun) as [Hb Hs]. split.
    { intros Hn. eapply matcher_ok_same; [done..|by apply Hm]. }
    destruct (poll_open_interest_ok rpc_url signature onchain_id touched contracts st polls Hi Hpolls)
      as (st2 & Hrun2 & Hok & _). by rewrite Hrun in Hrun2; injection Hrun2 as <-.
  - unfold realized_pnl_flush, drain_realized_pnl. case_decide; by eapply process_ok_frame; [..|exact IH].
  - split; [intros _; exact matcher_ok_new|exact Hi].
Qed.
End process.

(** ** Properties *)

(** C25: What a restart recovers and what it reopens.  A save either fails and leaves the last one in
    place or is what the next boot loads.  After a boot on a saved database the tape, the nonces,
    the portfolios, the volumes and the open-interest index are those of the save, and everything
    else is that of the new process: no order rests, no position is cached and no realized result
    is pending.  So a nonce is acceptable after the restart exactly when it was at the save, and
    every request accepted between the save and the crash, spent before it, can be accepted again. *)
Theorem restart_recovers {Blob} `{R : Redb Blob} `{!RedbLaws R} `{S : Serde Blob} `{!SerdeLaws S}
    (db db1 db2 : Db) st fresh st' :
  persist db st = Ret db1 → boot (Ok db1) fresh = Ret (db2, st') →
  (load db1 = Ret (snapshot_for_persistence st) ∨ db1 = db) ∧
  (load db1 = Ret (snapshot_for_persistence st) →
     load db2 = Ret (snapshot_for_persistence st) ∧
     snapshot_for_persistence st' = snapshot_for_persistence st ∧ volatile_eq fresh st' ∧
     (∀ signer n, accepts st' signer n = accepts st signer n) ∧
     (∀ E qs st2 log signer n, serve E st qs = Ret (st2, log) → n ∈ accepted_nonces signer log →
        accepts st2 signer n = false ∧ accepts st' signer n = true)).
Proof.
  intros Hp Hb. split.
  { unfold persist in Hp. apply bind_Ret in Hp as ([db'|e] & Hs & [= <-]); [left|by right].
    by eapply save_load. }
  intros Hl. apply boot_inv in Hb as (p & Hp1 & Hp2 & ->). rewrite Hl in Hp1. injection Hp1 as <-.
  assert (Ha : ∀ signer n,
    accepts (apply_persisted_state fresh (snapshot_for_persistence st)) signer n = accepts st signer n).
  { intros. by rewrite !accepts_spec. }
  split_and!; [done|done|by split_and!|done|].
  intros E qs st2 log signer n Hrun Hn. rewrite Ha. by destruct (accepted_spent E qs st st2 log signer n Hrun Hn).
Qed.

(** An order accepted after the save is spent before the crash and acceptable after the restart. *)
Lemma restart_recovers_witness :
  let db0 : @Db _ (@file_redb PersistedState) := (None, None) in
  let order := [demo_request (POrder (demo_payload Buy 100 3 ImmediateOrCancel false 4)) 8] in
  ∃ db1 db2 st' st2 log,
    @persist _ file_redb identity_serde db0 new_state = Ret db1 ∧
    @boot _ file_redb identity_serde (Ok db1) new_state = Ret (db2, st') ∧
    serve demo_enclave new_state order = Ret (st2, log) ∧
    accepts st2 8 4 = false ∧ accepts st' 8 4 = true.
Proof.
  intros db0 order. eexists _, _, _, _, _. split; [vm_compute; reflexivity|]. split; [vm_compute; reflexivity|].
  split; [vm_compute; reflexivity|].
  refine (proj2 (proj2 (proj2 (proj2 (proj2 (@restart_recovers PersistedState file_redb _ identity_serde _
    db0 _ _ new_state new_state _ _ _) _)))) demo_enclave order _ _ 8 4 _ _).
  1-4: vm_compute; reflexivity.
  apply list_elem_of_singleton. vm_compute. reflexivity.
Defined.

(** The open-interest index is what the chain showed.  Against a provider that answers from a
    fixed history as of its head, or fails, a round of scans always returns and keeps every entry
    equal to the set of portfolios touched before some block, never below the one it resumes from:
    nothing is missed, skipped or invented, whatever order the heads come in.  One scan either
    leaves the state as it was or brings the market up to its provider's head. *)
Theorem open_interest_complete rpc_url signature onchain touched contracts st polls :
  index_ok onchain touched contracts st →
  Forall (λ e : MarketId * Address * Provider,
    contracts !! e.1.1 = Some e.1.2 ∧ honest signature touched e.2) polls →
  ∃ st', poll_open_interest (Some rpc_url) signature onchain st polls = Ret st' ∧
    index_ok onchain touched contracts st' ∧
    (∀ m c p, polls = [(m, c, p)] → st' = st ∨
       ∃ head n keys, get_block_number p = Ok head ∧ head < n ∧
         oi_index st' !! m = Some (keys, head + 1) ∧
         ∀ k, k ∈ keys ↔ ∃ b, 0 ≤ b < n ∧ k ∈ topic_keys (touched c (onchain m) b)).
Proof. apply poll_open_interest_ok. Qed.

Definition demo_touched (c m b : Z) : list (list Key) := if decide (b = 3) then [[0; 77]] else [].
Definition demo_provider : Provider :=
  {| get_block_number := Ok 5;
     get_logs := λ c _ m from to, Ok (logs_between demo_touched c m from to) |}.

Lemma open_interest_complete_witness :
  ∃ st', poll_open_interest (Some "rpc") 0 (λ _, 1) new_state [("EURC/USDC", 9, demo_provider)] = Ret st' ∧
    oi_index st' !! "EURC/USDC" = Some ({[77]}, 6) ∧
    index_ok (λ _, 1) demo_touched {["EURC/USDC" := 9]} st'.
Proof.
  destruct (open_interest_complete "rpc" 0 (λ _, 1) demo_touched {["EURC/USDC" := 9]} new_state
    [("EURC/USDC", 9, demo_provider)]) as (st' & Hrun & Hok & _).
  - intros m c e _ He. unfold new_state in He. cbn in He. by rewrite lookup_empty in He.
  - apply Forall_cons. split; [|apply Forall_nil; exact I]. split; [by vm_compute|]. split.
    + intros head [= <-]. by vm_compute.
    + by intros c m from to logs [= <-].
  - exists st'. split; [exact Hrun|]. split; [|exact Hok].
    vm_compute in Hrun. injection Hrun as <-. vm_compute. reflexivity.
Defined.

(** A flush reports exactly what was realized.  With the account contract and its asset
    configured, queueing any results of bounded volume nets, for every trader but the zero address,
    exactly their sum.  A flush empties the queue and, when an RPC endpoint is configured, broadcasts
    every pending entry once, to the account contract; when it is not, the drained entries are
    reported to nobody. *)
Theorem realized_pnl_flushed `{I : I256} `{!I256Laws I} rpc_url account asset results st :
  volume results < 2 ^ 254 →
  ∃ pending, queue_all (Some (account, asset)) ∅ results = Ret pending ∧
    (∀ t a, default 0 (pending !! (t, a)) = if decide (a = asset) then owed results t else 0) ∧
    (pending_realized_pnl st = pending →
     let '(st', batch) := realized_pnl_flush rpc_url (Some (account, asset)) st in
     pending_realized_pnl st' = ∅ ∧ snapshot_for_persistence st' = snapshot_for_persistence st ∧
     match batch with
     | Some b => pending ≠ ∅ ∧ rb_contract b = account ∧
         zip (zip (rb_traders b) (rb_assets b)) (rb_deltas b) = map_to_list pending
     | None => rpc_url = None ∨ pending = ∅
     end).
Proof.
  intros Hv. destruct (queue_all_spec account asset results ∅) as (pending & Hq & Hsum).
  { intros k. rewrite lookup_empty. cbn. lia. }
  exists pending. split; [done|]. split.
  { intros t a. rewrite Hsum, lookup_empty. cbn. lia. }
  intros Hst. unfold realized_pnl_flush, drain_realized_pnl. rewrite Hst.
  destruct (decide (map_to_list pending = [])) as [Hnil|Hne].
  { apply map_to_list_empty_iff in Hnil. split_and!; [done|done|by right]. }
  split; [done|]. split; [done|]. unfold settle_realized_pnl_batch. rewrite decide_False by done.
  unfold broadcast_config, account_contract. cbn [fmap option_fmap option_map fst].
  destruct rpc_url as [url|]; [|by left]. split_and!; [|done|].
  - intros ->. apply Hne. apply map_to_list_empty.
  - cbn [rb_traders rb_assets rb_deltas]. apply zip_unzip.
Qed.

Lemma realized_pnl_flushed_witness :
  ∃ pending, @queue_all checked_i256 (Some (1, 2)) ∅ [(7, 50); (8, -20); (0, 9); (7, -10)] = Ret pending ∧
    default 0 (pending !! (7, 2)) = 40.
Proof.
  destruct (@realized_pnl_flushed checked_i256 _ (Some "rpc") 1 2 [(7, 50); (8, -20); (0, 9); (7, -10)] new_state
    ltac:(by vm_compute)) as (pending & Hq & Hsum & _).
  exists pending. split; [exact Hq|]. refine (eq_trans (Hsum 7 2) _). vm_compute. reflexivity.
Defined.

(** C18: The process as a whole.  From its start, however signed requests, settlements that complete
    or fail, margin attestations, liquidation checks and liquidations, oracle polls, open-interest
    scans, flushes and restarts from an earlier save interleave, as long as fewer than [2^32 - 1]
    requests were served since the last start: every market's book is reachable and every backstop
    state in range, so any order in the machine ranges is matched without aborting, and the
    open-interest index is what the chain showed. *)
Theorem process_never_corrupts `{U : U256} E rpc_url signature touched contracts sort broadcast n st :
  config_ok (backstop_config (en_dep E)) →
  process E rpc_url signature touched contracts sort broadcast n st → Z.of_nat n < NIL →
  (∀ m, Book.reachable (book_of st m) ∧ state_ok (maker_of st m)) ∧
  (∀ m o now, 0 ≤ no_tick o ≤ MAX_SANE_TICK → in_u 64 (no_qty o) →
     ∃ r st', match_order (backstop_config (en_dep E)) st m o now = Ret (r, st')) ∧
  index_ok (onchain (en_dep E)) touched contracts st.
Proof.
  intros Hc Hrun Hn. destruct (process_invariant E rpc_url signature touched contracts sort broadcast Hc n st Hrun)
    as [Hm Hi]. specialize (Hm Hn). split_and!; [|..|exact Hi].
  - intros m. split; [apply (proj1 Hm m)|apply (proj2 Hm m)].
  - intros m o now Ht Hq. destruct (match_order_ok n (backstop_config (en_dep E)) st m o now Hc Hm Hn)
      as (r & st' & H & _); [unfold MAX_SANE_TICK, u64_max in *; lia|done|by exists r, st'].
Qed.

(** An offer, an oracle price, and a restart from the state before them. *)
Lemma process_never_corrupts_witness :
  ∃ st, process (U := checked_u256) demo_enclave "rpc" 0 demo_touched {["EURC/USDC" := 9]} id (λ _ _, None) 0 st ∧
    ∀ m, Book.reachable (book_of st m) ∧ state_ok (maker_of st m).
Proof.
  assert (∃ st1 r, serve_one demo_enclave new_state (demo_request (POffer (demo_offer Sell 100 5 1)) 7) =
                     Ret (st1, r)) as (st1 & r & Hs) by (eexists _, _; vm_compute; reflexivity).
  pose proof (process_start (U := checked_u256) demo_enclave "rpc" 0 demo_touched {["EURC/USDC" := 9]} id
                (λ _ _, None)) as H0.
  assert (Hp : payload_ok (POffer (demo_offer Sell 100 5 1))) by (split; by vm_compute).
  pose proof (process_request _ _ _ _ _ _ _ _ _
    (demo_request (POffer (demo_offer Sell 100 5 1)) 7) _ _ H0 Hp Hs) as H1.
  pose proof (process_oracle _ _ _ _ _ _ _ _ _ {[demo_market := "feed"]} [(demo_market, 100)] H1) as H2.
  pose proof (process_restart _ _ _ _ _ _ _ _ _ _ _ H2 H1) as H3.
  eexists. split; [exact H3|].
  exact (proj1 (process_never_corrupts demo_enclave _ _ _ _ _ _ _ _ config_default_ok H3 ltac:(by vm_compute))).
Defined.
