(* ===== verification/LiquidateProps.v ===== *)
(** * A liquidation from the public check to the calls it sends: theorems

    The unauthenticated check and the handler agree on the same prices; what the handler sends, and
    what the cache holds once it knows which calls went out. *)
From S2P Require Import Prelude Ints Types U256 I256 Occupancy Risk RiskProps MarketData Backstop Book.
From S2P Require Import Wire Matcher Service Positions PositionProps Liquidation LiquidationProps.
Open Scope Z_scope.

(** Each cached position carries the market it is cached under. *)
Definition well_named (cache : Cache) (k : Key) : Prop :=
  ∀ m p, cache !! (k, m) = Some p → pm_market_id p = m.

Lemma invalidate_all cache k ms k' m :
  foldl (λ c m, invalidate_position c k m) cache ms !! (k', m) =
    if decide (k' = k ∧ m ∈ ms) then None else cache !! (k', m).
Proof.
  revert cache. induction ms as [|m0 ms IH]; intros cache; cbn [foldl].
  { rewrite decide_False; [done|]. by intros [_ ?%elem_of_nil]. }
  rewrite IH. unfold invalidate_position.
  destruct (decide ((k', m) = (k, m0))) as [[= -> ->]|Hne].
  - rewrite lookup_delete_eq, (decide_True (P := k = k ∧ m0 ∈ m0 :: ms)) by (split; [done|by left]).
    by case_decide.
  - rewrite lookup_delete_ne by congruence.
    destruct (decide (k' = k ∧ m ∈ ms)) as [[-> Hm]|H].
    + rewrite decide_True; [done|]. split; [done|by right].
    + rewrite decide_False; [done|]. intros [-> [->|Hm]%elem_of_cons]; naive_solver.
Qed.

Section liquidate.
Context `{!U256Laws U} `{!I256Laws J} (load : Key → MarketId → option (SealedBlob * Z)).
Context (prices funding : gmap MarketId Z).

Lemma load_named cache k m p :
  well_named cache k → load_single_market_state_cached load cache k m = Some p → pm_market_id p = m.
Proof.
  intros Hn. unfold load_single_market_state_cached. destruct (cache !! (k, m)) as [p'|] eqn:Hc.
  { intros [= <-]. by apply Hn. }
  unfold load_single_market_state. destruct (load k m) as [[[|q] c]|]; try done. by intros [= <-].
Qed.

(** Reading the discovered markets again, in any order, finds the same positions. *)
Lemma reread cache k ms sorted :
  well_named cache k →
  let states := omap (load_single_market_state_cached load cache k) ms in
  sorted ≡ₚ (pm_market_id <$> states) →
  omap (load_single_market_state_cached load cache k) sorted ≡ₚ states.
Proof.
  intros Hn states ->.
  enough (omap (load_single_market_state_cached load cache k) (pm_market_id <$> states) = states) as -> by done.
  unfold states. clear states.
  induction ms as [|m ms IH]; [done|]. cbn [omap list_omap].
  destruct (load_single_market_state_cached load cache k m) as [p|] eqn:Hp; [|done].
  cbn [fmap list_fmap omap list_omap]. rewrite (load_named _ _ _ _ Hn Hp), Hp. by f_equal.
Qed.

Lemma states_ok_perm l l' : l ≡ₚ l' → states_ok prices funding l → states_ok prices funding l'.
Proof. intros Hl (Hf & Hn & Hlen). split_and!; by rewrite <- Hl. Qed.

Lemma requirement_perm l l' : l ≡ₚ l' → requirement prices l = requirement prices l'.
Proof. intros Hl. unfold requirement. by apply sumZ_perm, fmap_Permutation. Qed.
Lemma free_perm l l' : l ≡ₚ l' → free l = free l'.
Proof. intros Hl. unfold free. by apply sumZ_perm, fmap_Permutation. Qed.

Lemma liquidator_reward_exact margin bps :
  0 ≤ mr_effective_collateral margin < 2 ^ 128 → 0 ≤ bps ≤ 10000 →
  liquidator_reward margin bps =
    Ret (mr_effective_collateral margin * LIQUIDATION_REWARD_BPS / BPS_DENOMINATOR * bps / 10000).
Proof.
  intros Hf Hb. unfold liquidator_reward, LIQUIDATION_REWARD_BPS, BPS_DENOMINATOR.
  set (f := mr_effective_collateral margin) in *.
  assert (0 ≤ f * 50 / 10000 ≤ f) by (split; [apply Z.div_pos; lia|apply Z.div_le_upper_bound; lia]).
  rewrite u256_mul_Ret by int_range. rewrite ret_bind, u256_div_Ret by int_range.
  rewrite ret_bind, u256_mul_Ret by (unfold in_u in *; nia). rewrite ret_bind.
  apply u256_div_Ret; [unfold in_u in *; nia|lia].
Qed.

(** ** Properties *)

(** What the handler sends for a breached portfolio. *)
Definition sweep_of (onchain : MarketId → Z) (k : Key) (liquidator : Address) (bps : Z)
    (states : list PortfolioMarketState) : LiquidationSweep :=
  {| ls_portfolio_key := k; ls_margin_requirement := requirement prices states;
     ls_legs := leg_spec onchain prices funding bps <$> states; ls_liquidator := liquidator;
     ls_liquidator_reward := free states * LIQUIDATION_REWARD_BPS / BPS_DENOMINATOR * bps / 10000 |}.

Definition margin_of (states : list PortfolioMarketState) : MarginResult :=
  {| margin_requirement := requirement prices states; mr_effective_collateral := free states;
     maintenance_breached := bool_decide (free states < requirement prices states) |}.

(** The handler, past the reads. *)
Lemma post_liquidate_run sort onchain contracts broadcast l k liquidator hints index states :
  (∀ ms, sort ms ≡ₚ ms) → well_named (l_cache l) k →
  load_portfolio_state load (l_index l) (l_cache l) k hints = (index, states) →
  states_ok prices funding states → requirement prices states < 2 ^ 110 →
  ∃ states', states' ≡ₚ states ∧
    post_liquidate load sort onchain contracts (λ _, prices) funding broadcast l k liquidator hints =
      if decide (free states < requirement prices states) then
        let bps := close_bps (margin_of states) in
        let cache := cache_after k prices funding bps (l_cache l) states' in
        let results := liquidate_sealed broadcast (sweep_of onchain k liquidator bps states')
                         (list_to_map ((λ '(m, c), (onchain m, c)) <$> map_to_list contracts)) in
        Ret ({| l_index := index;
                l_cache := if bool_decide (None ∈ results)
                           then foldl (λ c m, invalidate_position c k m) cache (sort (pm_market_id <$> states))
                           else cache |},
             Ok {| executed := negb (bool_decide (omap id results = [])); tx_hashes := omap id results |})
      else Ret ({| l_index := index; l_cache := l_cache l |}, Ok not_executed).
Proof.
  intros Hsort Hnamed Hload Hok HM. unfold post_liquidate. rewrite Hload.
  set (sorted := sort (pm_market_id <$> states)).
  set (states' := omap (load_single_market_state_cached load (l_cache l) k) sorted).
  assert (Hperm : states' ≡ₚ states).
  { unfold load_portfolio_state in Hload. injection Hload as _ Hs. unfold states'. rewrite <- Hs.
    apply reread; [done|]. rewrite Hs. unfold sorted. apply Hsort. }
  exists states'. split; [done|]. cbn [l_cache l_index]. destruct (decide (states = [])) as [->|Hne].
  { by rewrite decide_False. }
  cbv zeta. fold sorted states'. rewrite (decide_False (P := states' = [])); cycle 1.
  { intros E. rewrite E in Hperm. by apply Permutation_nil_l in Hperm. }
  pose proof (states_ok_perm states states' (symmetry Hperm) Hok) as Hok'.
  cbv beta zeta. fold states'. destruct (compute_margin_exact prices funding states' Hok') as (-> & Hr & Hf). rewrite ret_bind.
  rewrite (requirement_perm _ _ Hperm), (free_perm _ _ Hperm) in *. cbn [maintenance_breached].
  destruct (decide (free states < requirement prices states)) as [Hlt|Hge]; cycle 1.
  { by rewrite bool_decide_eq_false_2 by done. }
  rewrite bool_decide_eq_true_2 by done. cbn [negb].
  assert (E : {| margin_requirement := requirement prices states; mr_effective_collateral := free states;
                 maintenance_breached := true |} = margin_of states).
  { unfold margin_of. by rewrite bool_decide_eq_true_2. }
  rewrite E. set (bps := close_bps (margin_of states)).
  destruct (close_bps_exact (margin_of states)) as [Hb _]; [cbn; lia|done|]. fold bps in Hb.
  unfold size_liquidation_legs. fold bps. rewrite size_legs_exact; [|done|apply Hok'].
  rewrite ret_bind. cbv beta iota. rewrite ret_bind. cbv beta iota.
  rewrite liquidator_reward_exact by (cbn; lia). rewrite ret_bind. cbv beta zeta.
  unfold sweep_of. by rewrite (requirement_perm _ _ Hperm), (free_perm _ _ Hperm).
Qed.
End liquidate.

(** C24: From the public check to the calls a liquidation sends.  On one state and one set of prices,
    the unauthenticated check answers exactly whether the free collateral is below the maintenance
    requirement, and the handler acts on exactly that answer, whatever order it re-reads and locks
    the markets in: a healthy portfolio is left alone, nothing is sent and the cache is untouched;
    a breached one is swept with the requirement, the sized legs of all its positions and the
    keeper's reward, the response lists exactly the calls that went out, and afterwards the cache
    holds every position as its leg left it, or, when any call failed, none of them, so that the
    next read is the chain's. *)
Theorem liquidate_matches_check `{!U256Laws U} `{!I256Laws J} load prices funding sort onchain contracts
    broadcast st k liquidator hints st1 states :
  (∀ ms, sort ms ≡ₚ ms) → well_named (position_cache st) k →
  portfolio_state load st k hints = (st1, states) →
  states_ok prices funding states → requirement prices states < 2 ^ 110 →
  post_liquidation_check load (λ _, prices) st k hints =
    Ret (st1, bool_decide (free states < requirement prices states)) ∧
  ∃ st2 out,
    liquidate load (λ _, prices) sort onchain contracts funding broadcast st k liquidator hints =
      Ret (st2, Ok out) ∧
    if decide (free states < requirement prices states) then
      ∃ states' bps, states' ≡ₚ states ∧ 1000 ≤ bps ≤ 10000 ∧
        let results := liquidate_sealed broadcast (sweep_of prices funding onchain k liquidator bps states')
                         (list_to_map ((λ '(m, c), (onchain m, c)) <$> map_to_list contracts)) in
        tx_hashes out = omap id results ∧ (executed out = true ↔ ∃ h, Some h ∈ results) ∧
        ∀ m, m ∈ states → position_cache st2 !! (k, pm_market_id m) =
          if bool_decide (None ∈ results) then None else after_leg prices funding bps m
    else st2 = st1 ∧ out = not_executed.
Proof.
  intros Hsort Hnamed Hload Hok HM. pose proof Hload as Hload'. unfold portfolio_state in Hload'.
  destruct (load_portfolio_state load (portfolio_markets st) (position_cache st) k hints) as [index states0] eqn:Hl.
  injection Hload' as Hst1 ->. split.
  { unfold post_liquidation_check. rewrite Hload. destruct (decide (states = [])) as [->|Hne]; [done|].
    cbv zeta. by destruct (compute_margin_exact prices funding states Hok) as (-> & _). }
  destruct (post_liquidate_run load prices funding sort onchain contracts broadcast
    {| l_index := portfolio_markets st; l_cache := position_cache st |} k liquidator hints index states
    Hsort Hnamed Hl Hok HM) as (states' & Hperm & Hrun).
  unfold liquidate. rewrite Hrun. cbn [l_cache l_index].
  destruct (decide (free states < requirement prices states)) as [Hlt|Hge]; cycle 1.
  { rewrite ret_bind. eexists _, _. split; [done|]. split; [|done]. rewrite <- Hst1. by destruct st. }
  cbv zeta. rewrite ret_bind. eexists _, _. split; [done|].
  destruct (compute_margin_exact prices funding states Hok) as (_ & _ & Hf).
  destruct (close_bps_exact (margin_of prices states)) as [Hb _]; [cbn; lia|done|].
  exists states', (close_bps (margin_of prices states)). split; [done|]. split; [done|].
  set (results := liquidate_sealed _ _ _). split; [done|]. split.
  - cbn [executed]. rewrite negb_true_iff, bool_decide_eq_false. split.
    + intros Hne. destruct (omap id results) as [|h hs] eqn:Eh; [done|].
      assert (Hin : h ∈ omap id results) by (rewrite Eh; by left).
      apply list_elem_of_omap in Hin as (o & Ho & Hid). exists h. by rewrite <- Hid.
    + intros (h & Hh) E. assert (Hin : h ∈ omap id results) by (apply list_elem_of_omap; by exists (Some h)).
      rewrite E in Hin. by apply elem_of_nil in Hin.
  - intros m Hm. cbn [position_cache set_positions l_cache]. case_bool_decide.
    + rewrite invalidate_all. rewrite decide_True; [done|]. split; [done|]. rewrite Hsort. by apply list_elem_of_fmap_2.
    + apply cache_after_lookup; [|by rewrite Hperm]. rewrite Hperm. apply Hok.
Qed.

(** A breached portfolio, cached, whose only call goes out. *)
Definition breached_state : AppState :=
  set_positions (set_portfolio_markets new_state {[1 := {["BTC"]}]})
    (list_to_map ((λ m, ((1, pm_market_id m), m)) <$> underwater)) ∅.

Lemma liquidate_matches_check_witness :
  ∃ st1 st2 out,
    post_liquidation_check (U := checked_u256) (I := checked_i256) (λ _ _, None) (λ _, underwater_prices)
      breached_state 1 [] = Ret (st1, true) ∧
    liquidate (U := checked_u256) (I := checked_i256) (λ _ _, None) (λ _, underwater_prices) id (λ _, 7)
      {["BTC" := 9]} ∅ (λ _ _, Some 55) breached_state 1 3 [] = Ret (st2, Ok out) ∧ tx_hashes out = [55].
Proof.
  assert (Hn : well_named (position_cache breached_state) 1).
  { intros m p Hp. unfold breached_state in Hp. cbn in Hp.
    apply lookup_insert_Some in Hp as [[[= <-] <-]|[_ Hp]]; [reflexivity|]. by rewrite lookup_empty in Hp. }
  assert (Hs : ∃ st1, portfolio_state (λ _ _, None) breached_state 1 [] = (st1, underwater))
    by (eexists; vm_compute; reflexivity).
  destruct Hs as [st1 Hs].
  destruct (liquidate_matches_check (U := checked_u256) (J := checked_i256) (λ _ _, None) underwater_prices ∅
    id (λ _, 7) {["BTC" := 9]} (λ _ _, Some 55) breached_state 1 3 [] st1 underwater
    (λ _, reflexivity _) Hn Hs underwater_ok ltac:(by vm_compute)) as (Hc & st2 & out & Hrun & _).
  exists st1, st2, out. split; [exact Hc|]. split; [exact Hrun|].
  revert Hrun. vm_compute. intros [= _ <-]. reflexivity.
Defined.
