(* ===== verification/Config.v ===== *)
(** * Configuration from the environment ([crates/cerdic-tee-matcher/src/main.rs])

    The parsing of the environment variables that configure the enclave at startup and the setters
    of [AppState] they call.  Values are ASCII; the parsing of addresses and of 32-byte ids is
    alloy's, a parameter. *)
From S2P Require Import Prelude Ints Text Types Positions Backstop.
Open Scope Z_scope.

(** ** The configured fields of [AppState] *)

Record Config := {
  oracle_feed_mapping : gmap Bytes Bytes;
  settlement_contracts : gmap Bytes Address;
  cf_collateral_check : option (Address * Address);
  risk_monitor_contract : option Address;
  market_id_overrides : gmap Bytes Z;
  cf_backstop_config : BackstopConfig;
  debug_seed_enabled : bool;
}.

Definition unconfigured : Config := {|
  oracle_feed_mapping := ∅; settlement_contracts := ∅; cf_collateral_check := None;
  risk_monitor_contract := None; market_id_overrides := ∅; cf_backstop_config := config_default;
  debug_seed_enabled := false |}.

Definition configure_oracle_feed (c : Config) (market_id feed_id : Bytes) : Config := {|
  oracle_feed_mapping := <[market_id := feed_id]> (oracle_feed_mapping c);
  settlement_contracts := settlement_contracts c; cf_collateral_check := cf_collateral_check c;
  risk_monitor_contract := risk_monitor_contract c; market_id_overrides := market_id_overrides c;
  cf_backstop_config := cf_backstop_config c; debug_seed_enabled := debug_seed_enabled c |}.
Definition configure_settlement_contract (c : Config) (market_id : Bytes) (contract : Address) : Config := {|
  oracle_feed_mapping := oracle_feed_mapping c;
  settlement_contracts := <[market_id := contract]> (settlement_contracts c);
  cf_collateral_check := cf_collateral_check c;
  risk_monitor_contract := risk_monitor_contract c; market_id_overrides := market_id_overrides c;
  cf_backstop_config := cf_backstop_config c; debug_seed_enabled := debug_seed_enabled c |}.
Definition configure_collateral_check (c : Config) (account asset : Address) : Config := {|
  oracle_feed_mapping := oracle_feed_mapping c; settlement_contracts := settlement_contracts c;
  cf_collateral_check := Some (account, asset);
  risk_monitor_contract := risk_monitor_contract c; market_id_overrides := market_id_overrides c;
  cf_backstop_config := cf_backstop_config c; debug_seed_enabled := debug_seed_enabled c |}.
Definition configure_risk_monitor (c : Config) (contract : Address) : Config := {|
  oracle_feed_mapping := oracle_feed_mapping c; settlement_contracts := settlement_contracts c;
  cf_collateral_check := cf_collateral_check c;
  risk_monitor_contract := Some contract; market_id_overrides := market_id_overrides c;
  cf_backstop_config := cf_backstop_config c; debug_seed_enabled := debug_seed_enabled c |}.
Definition configure_market_id_override (c : Config) (market_id : Bytes) (onchain_id : Z) : Config := {|
  oracle_feed_mapping := oracle_feed_mapping c; settlement_contracts := settlement_contracts c;
  cf_collateral_check := cf_collateral_check c; risk_monitor_contract := risk_monitor_contract c;
  market_id_overrides := <[market_id := onchain_id]> (market_id_overrides c);
  cf_backstop_config := cf_backstop_config c; debug_seed_enabled := debug_seed_enabled c |}.
Definition configure_backstop_notional_cap (c : Config) (cap : Z) : Config := {|
  oracle_feed_mapping := oracle_feed_mapping c; settlement_contracts := settlement_contracts c;
  cf_collateral_check := cf_collateral_check c; risk_monitor_contract := risk_monitor_contract c;
  market_id_overrides := market_id_overrides c;
  cf_backstop_config :=
    {| spread_bps := spread_bps (cf_backstop_config c); spread_model := spread_model (cf_backstop_config c);
       quote_twap_window := quote_twap_window (cf_backstop_config c);
       last_look_window := last_look_window (cf_backstop_config c);
       last_look_threshold_bps := last_look_threshold_bps (cf_backstop_config c); notional_cap := cap |};
  debug_seed_enabled := debug_seed_enabled c |}.
Definition configure_debug_seed (c : Config) (enabled : bool) : Config := {|
  oracle_feed_mapping := oracle_feed_mapping c; settlement_contracts := settlement_contracts c;
  cf_collateral_check := cf_collateral_check c; risk_monitor_contract := risk_monitor_contract c;
  market_id_overrides := market_id_overrides c; cf_backstop_config := cf_backstop_config c;
  debug_seed_enabled := enabled |}.

(** ** The variables *)

Section environment.
Context (var : string → option Bytes).
Context (parse_address parse_id : Bytes → option Z).

(** The loop over the comma-separated pairs; a pair without two sides is skipped. *)
Definition pairs (raw : Bytes) : list Bytes := filter (λ s, s ≠ []) (trim <$> split comma raw).
Definition configure_pair (f : Config → Bytes → Bytes → Config) (c : Config) (pair : Bytes) : Config :=
  match split_once equals pair with
  | Some (l, r) => if decide (l ≠ [] ∧ r ≠ []) then f c l r else c
  | None => c
  end.
Definition configure_pairs (name : string) (f : Config → Bytes → Bytes → Config) (c : Config) : Config :=
  match var name with
  | None => c
  | Some raw => foldl (configure_pair f) c (pairs raw)
  end.

Definition configure_oracle_feeds : Config → Config :=
  configure_pairs "CERDIC_ORACLE_FEEDS" configure_oracle_feed.

Definition configure_settlement_contracts : Config → Config :=
  configure_pairs "CERDIC_SETTLEMENT_CONTRACTS" (λ c market_id contract,
    match parse_address contract with
    | Some address => configure_settlement_contract c market_id address
    | None => c
    end).

Definition configure_market_id_overrides : Config → Config :=
  configure_pairs "CERDIC_MARKET_ID_OVERRIDES" (λ c market_id onchain_id,
    match parse_id onchain_id with
    | Some id => configure_market_id_override c market_id id
    | None => c
    end).

Definition configure_collateral (c : Config) : Config :=
  match var "CERDIC_ACCOUNT_CONTRACT", var "CERDIC_COLLATERAL_ASSET" with
  | Some account_raw, Some asset_raw =>
      match parse_address account_raw, parse_address asset_raw with
      | Some account, Some asset => configure_collateral_check c account asset
      | _, _ => c
      end
  | _, _ => c
  end.

Definition configure_monitor (c : Config) : Config :=
  match var "CERDIC_RISK_MONITOR_CONTRACT" with
  | None => c
  | Some raw =>
      match parse_address raw with
      | Some contract => configure_risk_monitor c contract
      | None => c
      end
  end.

Definition configure_cap (c : Config) : Config :=
  match var "CERDIC_BACKSTOP_NOTIONAL_CAP" with
  | None => c
  | Some raw =>
      match parse_u64 raw with
      | Some cap => configure_backstop_notional_cap c cap
      | None => c
      end
  end.

Definition configure_seed (c : Config) : Config :=
  configure_debug_seed c (match var "CERDIC_ENABLE_DEBUG_SEED" with
                          | Some v => negb (bool_decide (v = []))
                          | None => false
                          end).

Definition DEFAULT_REALIZED_PNL_FLUSH_BASE_SECS : Z := 20.
Definition DEFAULT_REALIZED_PNL_FLUSH_JITTER_SECS : Z := 10.

(** The base in seconds and the jitter. *)
Definition configure_realized_pnl_flush_interval : Z * Z :=
  (default DEFAULT_REALIZED_PNL_FLUSH_BASE_SECS (var "CERDIC_PNL_FLUSH_BASE_SECS" ≫= parse_u64),
   default DEFAULT_REALIZED_PNL_FLUSH_JITTER_SECS (var "CERDIC_PNL_FLUSH_JITTER_SECS" ≫= parse_u64)).

(** The configuration steps of [main], in order. *)
Definition configure (c : Config) : Config :=
  configure_seed (configure_cap (configure_market_id_overrides (configure_monitor
    (configure_collateral (configure_settlement_contracts (configure_oracle_feeds c)))))).
End environment.
