(* ===== verification/ConfigProps.v ===== *)
(** * Configuration from the environment: theorems

    What an operator writes is what the enclave is configured with, white space around the pairs
    aside; what is not set changes nothing. *)
From S2P Require Import Prelude Ints Text Types Positions Backstop Config.
Open Scope Z_scope.

(** ** Definitions *)

(** A pair as written: its two sides and the white space around it. *)
Record Written := { w_before : Bytes; w_left : Bytes; w_right : Bytes; w_after : Bytes }.

Definition write (w : Written) : Bytes :=
  w_before w ++ (w_left w ++ equals :: w_right w) ++ w_after w.

Fixpoint write_all (ws : list Written) : Bytes :=
  match ws with
  | [] => []
  | [w] => write w
  | w :: ws => write w ++ comma :: write_all ws
  end.

Definition tidy (s : Bytes) : Prop :=
  s ≠ [] ∧ Forall (λ a, is_whitespace a = false ∧ a ≠ comma) s.

Record written_ok (w : Written) : Prop := {
  wo_before : blank (w_before w);
  wo_left : tidy (w_left w) ∧ equals ∉ w_left w;
  wo_right : tidy (w_right w);
  wo_after : blank (w_after w);
}.

(** ** Lemmas *)

Lemma blank_comma s : blank s → comma ∉ s.
Proof. intros Hb Hin. apply (proj1 (Forall_forall _ s) Hb) in Hin. by vm_compute in Hin. Qed.

Lemma tidy_comma s : tidy s → comma ∉ s.
Proof. intros [_ Ht] Hin. by apply (proj1 (Forall_forall _ s) Ht) in Hin as [_ ?]. Qed.

Lemma tidy_first s : tidy s → ∃ a t, s = a :: t ∧ is_whitespace a = false.
Proof. intros [Hn Hf]. destruct s as [|a t]; [done|]. apply Forall_cons in Hf as [[? _] _]. by eexists _, _. Qed.
Lemma tidy_last s : tidy s → ∃ t a, s = t ++ [a] ∧ is_whitespace a = false.
Proof.
  intros [Hn Hf]. destruct s as [|a t _] using rev_ind; [done|].
  apply Forall_app in Hf as [_ [[? _] _]%Forall_cons]. by eexists _, _.
Qed.

Lemma body_solid l r : tidy l → tidy r → solid (l ++ equals :: r).
Proof.
  intros (a & t & -> & Ha)%tidy_first (t' & a' & -> & Ha')%tidy_last. split.
  - by eexists _, _.
  - exists ((a :: t) ++ equals :: t'), a'. by rewrite <- app_assoc.
Qed.

Lemma trim_write w : written_ok w → trim (write w) = w_left w ++ equals :: w_right w.
Proof. intros [? [? _] ? ?]. by apply trim_solid; [|apply body_solid|]. Qed.

Lemma write_comma w : written_ok w → comma ∉ write w.
Proof.
  intros [Hb [Hl _] Hr Ha]. unfold write. rewrite !not_elem_of_app, not_elem_of_cons.
  split_and!; [by apply blank_comma|by apply tidy_comma|done|by apply tidy_comma|by apply blank_comma].
Qed.

Lemma pairs_write ws :
  Forall written_ok ws → pairs (write_all ws) = (λ w, w_left w ++ equals :: w_right w) <$> ws.
Proof.
  intros Hws. unfold pairs.
  assert (Hne : ∀ w, w_left w ++ equals :: w_right w ≠ []) by (intros w; by destruct (w_left w)).
  destruct ws as [|w ws]; [done|]. revert w Hws. induction ws as [|w' ws IH]; intros w Hws.
  - apply Forall_cons in Hws as [Hw _]. cbn [write_all]. rewrite split_one by by apply write_comma.
    cbn [fmap list_fmap]. rewrite trim_write by done. by rewrite filter_cons_True.
  - apply Forall_cons in Hws as [Hw Hws]. change (write_all (w :: w' :: ws)) with (write w ++ comma :: write_all (w' :: ws)).
    rewrite split_app by by apply write_comma. rewrite !fmap_cons, trim_write by done.
    rewrite filter_cons_True by done. f_equal. by apply IH.
Qed.

Lemma configure_pairs_write var name f c ws :
  Forall written_ok ws → var name = Some (write_all ws) →
  configure_pairs var name f c = foldl (λ c w, f c (w_left w) (w_right w)) c ws.
Proof.
  intros Hws Hv. unfold configure_pairs. rewrite Hv, pairs_write by done. clear Hv. revert c.
  induction Hws as [|w ws Hw _ IH]; intros c; [done|]. cbn [fmap list_fmap foldl].
  unfold configure_pair at 2. destruct Hw as [_ [[Hl _] He] [Hr _] _]. rewrite split_once_app by done.
  rewrite decide_True by done. apply IH.
Qed.

(** ** Properties *)

(** The configuration is what the operator wrote.  For any pairs of visible sides, the left
    without an equals sign, written with any white space around them, the oracle feeds, the
    settlement contracts and the identifier overrides are entered pair by pair in the order
    written, a pair whose right side does not parse being skipped; the last entry of a market
    wins.  A cap written in decimal is the cap.  With no variable set the configuration is the
    default one. *)
Theorem configuration_roundtrip var parse_address parse_id c ws :
  Forall written_ok ws →
  (var "CERDIC_ORACLE_FEEDS" = Some (write_all ws) →
     configure_oracle_feeds var c = foldl (λ c w, configure_oracle_feed c (w_left w) (w_right w)) c ws ∧
     ∀ w ws', ws = ws' ++ [w] →
       oracle_feed_mapping (configure_oracle_feeds var c) !! w_left w = Some (w_right w)) ∧
  (var "CERDIC_SETTLEMENT_CONTRACTS" = Some (write_all ws) →
     configure_settlement_contracts var parse_address c =
       foldl (λ c w, match parse_address (w_right w) with
                     | Some a => configure_settlement_contract c (w_left w) a
                     | None => c end) c ws) ∧
  (var "CERDIC_MARKET_ID_OVERRIDES" = Some (write_all ws) →
     configure_market_id_overrides var parse_id c =
       foldl (λ c w, match parse_id (w_right w) with
                     | Some i => configure_market_id_override c (w_left w) i
                     | None => c end) c ws) ∧
  (∀ cap, in_u 64 cap → var "CERDIC_BACKSTOP_NOTIONAL_CAP" = Some (fmt_u64 cap) →
     configure_cap var c = configure_backstop_notional_cap c cap) ∧
  ((∀ name, var name = None) → configure var parse_address parse_id unconfigured = unconfigured).
Proof.
  intros Hws. split_and!.
  - intros Hv. unfold configure_oracle_feeds. rewrite (configure_pairs_write _ _ _ _ ws) by done.
    split; [done|]. intros w ws' ->. rewrite foldl_app. cbn. by rewrite lookup_insert_eq.
  - intros Hv. unfold configure_settlement_contracts. by rewrite (configure_pairs_write _ _ _ _ ws).
  - intros Hv. unfold configure_market_id_overrides. by rewrite (configure_pairs_write _ _ _ _ ws).
  - intros cap Hcap Hv. unfold configure_cap. by rewrite Hv, parse_fmt.
  - intros Hv. unfold configure, configure_seed, configure_cap, configure_market_id_overrides,
      configure_monitor, configure_collateral, configure_settlement_contracts, configure_oracle_feeds,
      configure_pairs. by rewrite !Hv.
Qed.

Lemma configuration_roundtrip_witness :
  let feeds := into_bytes "EURC/USDC=a995d0 ,  BTC/USDC=e62df6" in
  let c := configure_oracle_feeds (λ _, Some feeds) unconfigured in
  oracle_feed_mapping c !! into_bytes "BTC/USDC" = Some (into_bytes "e62df6").
Proof.
  set (w1 := {| w_before := []; w_left := into_bytes "EURC/USDC"; w_right := into_bytes "a995d0";
                w_after := into_bytes " " |}).
  set (w2 := {| w_before := into_bytes "  "; w_left := into_bytes "BTC/USDC"; w_right := into_bytes "e62df6";
                w_after := [] |}).
  assert (Hws : Forall written_ok [w1; w2]).
  { apply Forall_cons. split; [|apply Forall_cons; split; [|apply Forall_nil; exact I]];
      (split; [apply (bool_decide_unpack _); vm_compute; exact I|
               split; [split; [discriminate|apply (bool_decide_unpack _); vm_compute; exact I]|
                       apply (bool_decide_unpack _); vm_compute; exact I]|
               split; [discriminate|apply (bool_decide_unpack _); vm_compute; exact I]|
               apply (bool_decide_unpack _); vm_compute; exact I]). }
  intros feeds c.
  exact (proj2 (proj1 (configuration_roundtrip (λ _, Some feeds) (λ _, None) (λ _, None) unconfigured [w1; w2] Hws)
    (eq_refl (Some feeds))) w2 [w1] eq_refl).
Defined.
