(* ===== verification/MarketMaker.v ===== *)
(** * The standing market maker ([crates/cerdic-tee-matcher/src/bin/market_maker.rs])

    A client of the signed endpoints that keeps a ladder of post-only offers around a live price:
    what it infers from its public collateral, the ticks and sizes it quotes, and the requote cycle
    that places each slot's new offers before cancelling its old ones.  What goes through floating
    point and randomness (the spread of a level, the jittered size) is a parameter; sending a
    request is an interface, which [MakerVenue] implements by the enclave itself.
    Definitions only. *)
From S2P Require Import Prelude Ints Types I256 Risk Positions Liquidation Book Wire.
Open Scope Z_scope.

(** ** Inventory inferred from the public collateral *)

(** A quote is a tick and a quantity. *)
Definition Quote : Type := Z * Z.

Definition ROUNDING_TOLERANCE_UNITS : Z := 2.

(** The margin a full fill of the quote pledges. *)
Definition expected_margin (q : Quote) : Z :=
  u128_mul (u128_mul (as_u128 q.1) (as_u128 q.2)) IMR_BPS `div` BPS_DENOMINATOR.

Section inference.
Context `{I : I256}.

Definition matches_quote (delta : Z) (quote : option Quote) : exec bool :=
  match quote with
  | None => Ret false
  | Some q =>
      let expected := expected_margin q in
      d ← i256_abs delta;
      Ret match u128_try_from d with
          | None => false
          | Some d => bool_decide (0 < expected) &&
                      bool_decide (abs_diff expected d ≤ ROUNDING_TOLERANCE_UNITS)
          end
  end.

Definition infer_fill_side (delta : Z) (last_bid last_ask : option Quote) : exec (option OrderSide) :=
  bid ← matches_quote delta last_bid;
  ask ← matches_quote delta last_ask;
  Ret match bid, ask with
      | true, false => Some Buy
      | false, true => Some Sell
      | _, _ => None
      end.

Definition filled_qty (delta : Z) : exec Z :=
  d ← i256_abs delta;
  Ret (u128_mul (default 0 (u128_try_from d)) BPS_DENOMINATOR `div` IMR_BPS).
End inference.

(** ** Data *)

(** The mutable variables of [main]. *)
Record Maker := {
  last_bid : option Quote;
  last_ask : option Quote;
  last_collateral : option Z;
  inventory_estimate : Z;
  mk_nonce : Z;
  mid_history : list Z;
  resting_ids : list OrderId;
}.

(** What the environment configures, the terms of the float arithmetic aside. *)
Record Settings := {
  se_market_id : MarketId;
  se_skew_bps_per_unit : Z;
  se_vol_window : nat;
  se_requote_secs : Z;
}.

(** The random draws of one ladder level, and the clock when each offer is built. *)
Record LevelDraw := {
  ld_bid_jitter : Z; ld_ask_jitter : Z;
  ld_bid_size : Z; ld_ask_size : Z;
  ld_bid_now : Z; ld_ask_now : Z;
}.

(** What one cycle reads: the live mid, the public collateral ([None] when the read failed), and one
    draw per ladder level. *)
Record Sample := { sm_mid : option Z; sm_collateral : option Z; sm_levels : list LevelDraw }.

Definition start (nonce : Z) : Maker := {|
  last_bid := None; last_ask := None; last_collateral := None; inventory_estimate := 0;
  mk_nonce := nonce; mid_history := []; resting_ids := [] |}.

Definition set_nonce (mk : Maker) n := {|
  last_bid := last_bid mk; last_ask := last_ask mk; last_collateral := last_collateral mk;
  inventory_estimate := inventory_estimate mk; mk_nonce := n; mid_history := mid_history mk;
  resting_ids := resting_ids mk |}.
Definition set_resting_ids (mk : Maker) l := {|
  last_bid := last_bid mk; last_ask := last_ask mk; last_collateral := last_collateral mk;
  inventory_estimate := inventory_estimate mk; mk_nonce := mk_nonce mk;
  mid_history := mid_history mk; resting_ids := l |}.
Definition set_quotes (mk : Maker) b a := {|
  last_bid := b; last_ask := a; last_collateral := last_collateral mk;
  inventory_estimate := inventory_estimate mk; mk_nonce := mk_nonce mk;
  mid_history := mid_history mk; resting_ids := resting_ids mk |}.
Definition set_inventory (mk : Maker) c i := {|
  last_bid := last_bid mk; last_ask := last_ask mk; last_collateral := c;
  inventory_estimate := i; mk_nonce := mk_nonce mk; mid_history := mid_history mk;
  resting_ids := resting_ids mk |}.
Definition set_mid_history (mk : Maker) h := {|
  last_bid := last_bid mk; last_ask := last_ask mk; last_collateral := last_collateral mk;
  inventory_estimate := inventory_estimate mk; mk_nonce := mk_nonce mk; mid_history := h;
  resting_ids := resting_ids mk |}.

(** ** One cycle *)

(** How a request reaches the matcher: [post_offer]'s id and [post_cancel]'s success. *)
Class Exchange (W : Type) := {
  send_offer : W → OfferPayload → exec (W * option OrderId);
  send_cancel : W → CancelPayload → exec (W * bool);
}.

(** A mid pushed onto the rolling window. *)
Definition record_mid (window : nat) (mk : Maker) (mid : Z) : Maker :=
  let h := mid_history mk in
  let h := if decide (length h = window) then drop 1 h else h in
  set_mid_history mk (h ++ [mid]).

Definition update_inventory `{I : I256} (mk : Maker) (collateral : option Z) : exec Maker :=
  match collateral with
  | None => Ret mk
  | Some c =>
      inventory ←
        match last_collateral mk with
        | None => Ret (inventory_estimate mk)
        | Some prev =>
            delta ← i256_sub c prev;
            if decide (0 < delta) then
              side ← infer_fill_side delta (last_bid mk) (last_ask mk);
              match side with
              | Some Buy =>
                  q ← filled_qty delta; Ret (wraps 64 (inventory_estimate mk + as_i64 q))
              | Some Sell =>
                  q ← filled_qty delta;
                  Ret (wraps 64 (inventory_estimate mk + wraps 64 (- as_i64 q)))
              | None => Ret (inventory_estimate mk)
              end
            else Ret (inventory_estimate mk)
        end;
      Ret (set_inventory mk (Some c) inventory)
  end.

Definition quote_bps (spread skew : Z) : Z :=
  Z.min (as_u64 (Z.max (wraps 64 (spread + skew)) 1)) 5000.
Definition bid_tick (mid bps : Z) : Z := sat_u 64 (mid - u64_mul mid bps `div` 10000).
Definition ask_tick (mid bps : Z) : Z := sat_u 64 (mid + u64_mul mid bps `div` 10000).
Definition jittered_size (rounded : Z) : Z := as_u64 (Z.max rounded 1).

Section cycle.
Context `{I : I256} `{X : Exchange W} (se : Settings).
(** [(base_spread_bps * level_mult * jitter) as i64] of the past mids, the level and a draw, and
    [(level_size * factor).round() as i64] of the level and a draw. *)
Context (spread_bps : list Z → nat → Z → Z) (rounded_size : nat → Z → Z).

Definition level_bid (mk : Maker) (mid skew : Z) (level : nat) (d : LevelDraw) : Quote :=
  (bid_tick mid (quote_bps (spread_bps (mid_history mk) level (ld_bid_jitter d)) skew),
   jittered_size (rounded_size level (ld_bid_size d))).
Definition level_ask (mk : Maker) (mid skew : Z) (level : nat) (d : LevelDraw) : Quote :=
  (ask_tick mid (quote_bps (spread_bps (mid_history mk) level (ld_ask_jitter d)) (- skew)),
   jittered_size (rounded_size level (ld_ask_size d))).

(** The offer [post_offer] builds. *)
Definition maker_offer_payload (side : OrderSide) (q : Quote) (nonce now : Z) : OfferPayload := {|
  of_market_id := se_market_id se; of_side := side; of_tick := q.1; of_max_size := q.2;
  of_expiry := Some (u64_add now (u64_mul (se_requote_secs se) 2)); of_group := None;
  of_reduce_only := false; of_nonce := nonce |}.

Definition place (w : W) (mk : Maker) (side : OrderSide) (q : Quote) (now : Z) :
    exec (W * Maker * option OrderId) :=
  let nonce := u64_add (mk_nonce mk) 1 in
  '(w, id) ← send_offer w (maker_offer_payload side q nonce now);
  Ret (w, set_nonce mk nonce, id).

Definition withdraw (w : W) (mk : Maker) (id : OrderId) : exec (W * Maker) :=
  let nonce := u64_add (mk_nonce mk) 1 in
  '(w, _) ← send_cancel w {| cp_market_id := se_market_id se; cp_order_id := id; cp_nonce := nonce |};
  Ret (w, set_nonce mk nonce).

(** [if let Some(old_id) = old_resting_ids.pop_front()]. *)
Definition retire_one (w : W) (mk : Maker) (old : list OrderId) : exec (W * Maker * list OrderId) :=
  match old with
  | [] => Ret (w, mk, [])
  | id :: old => '(w, mk) ← withdraw w mk id; Ret (w, mk, old)
  end.

Fixpoint retire_all (w : W) (mk : Maker) (old : list OrderId) : exec (W * Maker) :=
  match old with
  | [] => Ret (w, mk)
  | id :: old => '(w, mk) ← withdraw w mk id; retire_all w mk old
  end.

(** Only the innermost level feeds the inference. *)
Definition remember (mk : Maker) (level : nat) (bid ask : Quote) (bid_id ask_id : option OrderId) :
    Maker :=
  match level with
  | O => set_quotes mk (match bid_id with Some _ => Some bid | None => last_bid mk end)
                       (match ask_id with Some _ => Some ask | None => last_ask mk end)
  | S _ => mk
  end.

Definition requote_level (mid skew : Z) (level : nat) (d : LevelDraw) (w : W) (mk : Maker)
    (old : list OrderId) : exec (W * Maker * list OrderId) :=
  let bid := level_bid mk mid skew level d in
  let ask := level_ask mk mid skew level d in
  '(w, mk, bid_id) ← place w mk Buy bid (ld_bid_now d);
  '(w, mk, ask_id) ← place w mk Sell ask (ld_ask_now d);
  let mk := set_resting_ids mk (resting_ids mk ++ option_list bid_id ++ option_list ask_id) in
  '(w, mk, old) ← retire_one w mk old;
  '(w, mk, old) ← retire_one w mk old;
  Ret (w, remember mk level bid ask bid_id ask_id, old).

Fixpoint requote_ladder (mid skew : Z) (level : nat) (ds : list LevelDraw) (w : W) (mk : Maker)
    (old : list OrderId) : exec (W * Maker * list OrderId) :=
  match ds with
  | [] => Ret (w, mk, old)
  | d :: ds =>
      '(w, mk, old) ← requote_level mid skew level d w mk old;
      requote_ladder mid skew (S level) ds w mk old
  end.

(** The body of the loop in [main]. *)
Definition requote (w : W) (mk : Maker) (sm : Sample) : exec (W * Maker) :=
  match sm_mid sm with
  | None => Ret (w, mk)
  | Some mid =>
      if decide (mid = 0) then Ret (w, mk) else
        let old := resting_ids mk in
        let mk := record_mid (se_vol_window se) (set_resting_ids mk []) mid in
        mk ← update_inventory mk (sm_collateral sm);
        let skew := wraps 64 (inventory_estimate mk * se_skew_bps_per_unit se) in
        '(w, mk, old) ← requote_ladder mid skew 0 (sm_levels sm) w mk old;
        retire_all w mk old
  end.

Fixpoint run_maker (w : W) (mk : Maker) (cycles : list Sample) : exec (W * Maker) :=
  match cycles with
  | [] => Ret (w, mk)
  | sm :: cycles => '(w, mk) ← requote w mk sm; run_maker w mk cycles
  end.
End cycle.
