(* ===== verification/MakerVenue.v ===== *)
(** * The enclave as the market maker's exchange

    The requests of the maker are served by [Matcher.handle], between requests of other traders;
    each one may be lost on its way in or on its way back.  The lemmas follow one owner's live
    orders through every request of anybody. *)
From S2P Require Import Prelude Ints Types I256 Risk Backstop Positions Liquidation Book Wire Matcher.
From S2P Require Import BookWf BookOps BookSpec BookRefine BookProps MatcherBook MatcherProps MatcherTrace MarketMaker.
Open Scope Z_scope.

(** ** The exchange *)

Inductive Delivery := Arrives | RequestLost | AnswerLost.

(** What happens around one request of the maker: the requests served before it, the clock, and its
    fate. *)
Record Leg := { leg_before : list Request; leg_now : Z; leg_delivery : Delivery }.

(** [ve_lost]: the ids the maker has no answer for, or whose cancellation never arrived. *)
Record Venue := { ve_state : AppState; ve_legs : list Leg; ve_lost : list OrderId }.

Definition quiet : Leg := {| leg_before := []; leg_now := 0; leg_delivery := Arrives |}.
Definition next_leg (w : Venue) : Leg := default quiet (hd_error (ve_legs w)).

Section venue.
Context (E : Enclave) (signer : Address).

Definition maker_request (p : Payload) (now : Z) : Request :=
  {| rq_payload := p; rq_signer := signer;
     rq_reading := {| rd_now := now; rd_deposited := None; rd_funding := 0; rd_subscribed := false |} |}.

(** The state after a request and what the enclave answered, if it reached the enclave. *)
Definition transmit (w : Venue) (p : Payload) : exec (AppState * option Response) :=
  '(st, _) ← serve E (ve_state w) (leg_before (next_leg w));
  match leg_delivery (next_leg w) with
  | RequestLost => Ret (st, None)
  | _ => '(st, r) ← serve_one E st (maker_request p (leg_now (next_leg w))); Ret (st, Some r)
  end.

Definition after_leg (w : Venue) (st : AppState) (lost : list OrderId) : Venue :=
  {| ve_state := st; ve_legs := drop 1 (ve_legs w); ve_lost := lost ++ ve_lost w |}.

(** The id in an answer. *)
Definition offered_id (r : option Response) : option OrderId :=
  match r with Some (ROffer (Ok (OfferResting x))) => Some x | _ => None end.

Definition venue_offer (w : Venue) (p : OfferPayload) : exec (Venue * option OrderId) :=
  '(st, r) ← transmit w (POffer p);
  Ret match leg_delivery (next_leg w) with
      | Arrives => (after_leg w st [], offered_id r)
      | _ => (after_leg w st (option_list (offered_id r)), None)
      end.

Definition venue_cancel (w : Venue) (p : CancelPayload) : exec (Venue * bool) :=
  '(st, r) ← transmit w (PCancel p);
  Ret match leg_delivery (next_leg w) with
      | Arrives => (after_leg w st [],
                    match r with Some (RCancel (Ok _)) => true | _ => false end)
      | AnswerLost => (after_leg w st [], false)
      | RequestLost => (after_leg w st [cp_order_id p], false)
      end.

#[export] Instance venue_exchange : Exchange Venue :=
  {| send_offer := venue_offer; send_cancel := venue_cancel |}.
End venue.

(** ** An owner's live orders *)

Definition live (b : OrderBook) (me : OwnerId) (x : OrderId) : Prop :=
  ∃ s t d, (t, (x, d)) ∈ resting b s ∧ r_owner d = me.

(** The orders of [b'] that are not in [b] are [o], under [x]. *)
Definition adds_only (b b' : OrderBook) (o : NewOrder) (x : option OrderId) : Prop :=
  ∀ me y, live b' me y → live b me y ∨ (no_owner o = me ∧ x = Some y).

Lemma spec_match_keeps s tick owner now l qty acc l' q' acc' t y d :
  spec_match s tick owner now l qty acc = (l', q', acc') → (t, (y, d)) ∈ l' →
  ∃ t0 d0, (t0, (y, d0)) ∈ l ∧ r_owner d0 = r_owner d.
Proof.
  revert qty acc. induction l as [|[t1 [x1 d1]] l IH]; intros qty acc Hm Hin; simpl in Hm.
  { injection Hm as <- _ _. by apply elem_of_nil in Hin. }
  assert (Hskip : ∀ q a, spec_match s tick owner now l q a = (l', q', acc') →
            ∃ t0 d0, (t0, (y, d0)) ∈ (t1, (x1, d1)) :: l ∧ r_owner d0 = r_owner d).
  { intros q a H. destruct (IH _ _ H Hin) as (t0 & d0 & H0 & Ho). exists t0, d0. split; [by right|done]. }
  assert (Hsame : l' = (t1, (x1, d1)) :: l →
            ∃ t0 d0, (t0, (y, d0)) ∈ (t1, (x1, d1)) :: l ∧ r_owner d0 = r_owner d).
  { intros ->. by exists t, d. }
  case_decide; [|by injection Hm as <- _ _; apply Hsame].
  destruct (crosses s tick t1); [|by injection Hm as <- _ _; apply Hsame].
  destruct (is_expired now (r_expiry d1)); [by eapply Hskip|]. case_decide; [by eapply Hskip|].
  case_decide; [by eapply Hskip|]. injection Hm as <- _ _.
  apply elem_of_cons in Hin as [[= -> -> ->]|Hin]; [|exists t, d; split; [by right|done]].
  exists t1, d1. split; [by left|done].
Qed.

Lemma elem_of_insert_entry_inv s e e' l : e' ∈ insert_entry s e l → e' = e ∨ e' ∈ l.
Proof.
  induction l as [|x l IH]; cbn [insert_entry]; [set_solver|]. case_decide as Hb; [set_solver|].
  intros [->|Hin]%elem_of_cons; [right; by left|]. destruct (IH Hin); [by left|right; by right].
Qed.

Lemma submit_adds b o now r b' :
  Book.reachable b → submit_ok b o → submit b o now = Ret (r, b') → adds_only b b' o (resting_id r).
Proof.
  intros Hr Hok Hrun me y (s & t & d & Hin & Hme).
  destruct (submit_run b o now Hr Hok) as (_ & _ & _ & _ & _ & _ & Hpos & Hsort).
  destruct (matched_side_ok b o now Hpos Hsort) as (_ & _ & [l1 Hl1] & _).
  destruct (submit_cases b o now Hr Hok) as (r0 & b0 & Hrun' & _ & Hcase).
  rewrite Hrun in Hrun'. injection Hrun' as <- <-.
  assert (Hopp : ∀ t0 d0, (t0, (y, d0)) ∈ matched_side b o now → r_owner d0 = me → live b me y).
  { intros t0 d0 H0 Ho. exists (opposite_side (no_side o)), t0, d0. rewrite Hl1.
    split; [|done]. apply elem_of_app. by right. }
  assert (Hun : untouched b b' o now r → live b me y).
  { intros (_ & _ & _ & Es & Eo). destruct (side_cases (no_side o) s) as [-> | ->].
    - rewrite Es in Hin. by exists (no_side o), t, d.
    - rewrite Eo in Hin. by eapply Hopp. }
  destruct (outcome_of r); [left; by apply Hun, Hcase|left; by apply Hun, Hcase|].
  destruct Hcase as (_ & _ & out & left & acc & Hm & _ & _ & _ & Hrest).
  destruct (side_cases (no_side o) s) as [-> | ->]; cycle 1.
  { destruct (spec_match_keeps _ _ _ _ _ _ _ _ _ _ _ _ _ Hm Hin) as (t0 & d0 & H0 & Ho).
    left. eapply Hopp; [exact H0|congruence]. }
  unfold rested in Hrest. destruct (_ && _).
  - destruct Hrest as (x & Hx & _ & E). rewrite E in Hin.
    apply elem_of_insert_entry_inv in Hin as [[= _ -> ->]|Hin]; [by right|]. left. by exists (no_side o), t, d.
  - destruct Hrest as (_ & _ & E). rewrite E in Hin. left. by exists (no_side o), t, d.
Qed.

Lemma without_live b b' s x me y : without b b' s x → live b' me y → live b me y.
Proof.
  intros (t0 & d0 & l1 & l2 & E & E' & Eo) (s' & t & d & Hin & Hme). exists s', t, d. split; [|done].
  destruct (side_cases s s') as [-> | ->]; [|by rewrite <- Eo]. rewrite E. rewrite E' in Hin. set_solver.
Qed.

(** Cancelling a live order of [w] leaves nothing of it, and nothing new. *)
Lemma cancel_live b x w :
  Book.reachable b → 0 ≤ x → owner_of b x = Some w →
  ∃ o b', Book.cancel b x = Ret (o, b') ∧ (∀ me y, live b' me y → live b me y) ∧ ∀ me, ¬ live b' me x.
Proof.
  intros Hr Hx Hw. destruct (cancel_owned b x w Hr Hx Hw) as (s & t & d & b' & l1 & l2 & Hc & _ & Hr' & E & E' & Eo & _).
  exists (Some (t, r_qty d)), b'. split; [done|]. split.
  { intros me y. apply (without_live b b' s x). by exists t, d, l1, l2. }
  intros me (s' & t' & d' & Hin & _).
  destruct (reachable_inv b Hr) as [A Hinv]. pose proof (inv_core _ _ Hinv) as Hcore.
  assert (Hd : (t, (x, d)) ∈ flat A s) by (rewrite <- (resting_flat _ _ _ Hinv), E; set_solver).
  destruct (side_cases s s') as [-> | ->].
  - pose proof (flat_NoDup b A None s Hcore) as Hnd. rewrite <- (resting_flat _ _ _ Hinv), E in Hnd.
    unfold ids in Hnd. rewrite fmap_app, fmap_cons in Hnd. apply NoDup_app in Hnd as (_ & Hdis & Hnd).
    apply NoDup_cons in Hnd as [Hni _]. rewrite E' in Hin. apply elem_of_app in Hin as [Hin|Hin].
    + apply (Hdis x); [|by left]. apply list_elem_of_fmap. by exists (t', (x, d')).
    + apply Hni, list_elem_of_fmap. by exists (t', (x, d')).
  - rewrite Eo, (resting_flat _ _ _ Hinv) in Hin. apply (flat_live b A None) in Hd as (_ & p & n & Ha); [|done].
    apply (flat_live b A None) in Hin as (_ & p' & n' & Ha'); [|done]. unfold mk_node in *.
    rewrite Ha in Ha'. injection Ha' as E1 _. by destruct s.
Qed.

(** ** The requests of anybody *)

Abbreviation holds st m me y := (live (book_of st m) me y).

Lemma holds_books st st' m me y : books st' = books st → holds st' m me y → holds st m me y.
Proof. unfold book_of. by intros ->. Qed.

Lemma holds_put st m b m' me y (P : Prop) :
  (live b me y → holds st m me y ∨ P) → holds (put_book st m b) m' me y →
  holds st m' me y ∨ (m' = m ∧ P).
Proof.
  intros Hb Hl. destruct (decide (m' = m)) as [->|Hne].
  - rewrite book_of_put in Hl. destruct (Hb Hl); [by left|by right].
  - left. unfold book_of in *. simpl in Hl. by rewrite lookup_insert_ne in Hl.
Qed.

(** An order the matcher executes leaves nobody's order but its own. *)
Lemma match_order_adds n cfg st m o now r st' m' me y :
  config_ok cfg → matcher_ok n st → submit_ok (book_of st m) o →
  match_order cfg st m o now = Ret (r, st') →
  holds st' m' me y → holds st m' me y ∨ no_owner o = me.
Proof.
  intros Hc [Hb Hm] Hsub Hrun Hl. destruct (Hb m) as [Hr _].
  destruct (match_order_run cfg st m o now Hc Hr (Hm m) Hsub)
    as (r0 & b0 & r1 & b' & bs & Hs & _ & Hrun' & _ & _ & Hresc).
  rewrite Hrun in Hrun'. injection Hrun' as <- ->.
  assert (Hb0 : live b0 me y → holds st m me y ∨ no_owner o = me).
  { intros H0. destruct (submit_adds _ _ _ _ _ Hr Hsub Hs me y H0) as [?|[? _]]; [by left|by right]. }
  assert (Hb' : live b' me y → live b0 me y).
  { unfold rescued in Hresc. destruct (accepted_offer _ _ _ _) as [[[? ?] ?]|].
    - destruct Hresc as (_ & _ & Hx). destruct (resting_id r0); [by eapply without_live|by subst b'].
    - by destruct Hresc as (_ & -> & _). }
  change (holds (put_book st m b') m' me y) in Hl.
  apply (holds_put _ _ _ _ _ _ (no_owner o = me)) in Hl; [|by auto]. destruct Hl as [?|[_ ?]]; by auto.
Qed.

Lemma record_prints_books st m fs now : books (record_prints st m fs now) = books st.
Proof. unfold record_prints. by case_decide. Qed.

Lemma post_order_adds `{I : I256} n ls pk kc dep st p signer now d f st' o m me y :
  config_ok (backstop_config dep) → matcher_ok n st → Z.of_nat n < NIL → payload_ok (POrder p) →
  post_order ls pk kc dep st p signer now d f = Ret (st', o) →
  holds st' m me y → holds st m me y ∨ signer_owner_id signer = me.
Proof.
  intros Hc Hok Hn [Ht Hq]. unfold post_order.
  destruct (accept_nonce st signer (op_nonce p)) as [st1|e] eqn:Hacc; [|by intros [= <- _]; left].
  apply accept_nonce_same in Hacc as [E1 E2]. assert (Hok1 : matcher_ok n st1) by by eapply matcher_ok_same.
  case_decide as Htick; [intros [= <- _]; left; by eapply holds_books|].
  pose proof (collateral_gate_frame ls pk dep st1 signer d p) as Hg.
  destruct (collateral_gate ls pk dep st1 signer d p) as [st2 [[]|e]]; cbn in Hg; cycle 1.
  { intros [= <- _]. left. eapply holds_books; [|done]. by rewrite (fr_books _ _ Hg). }
  unfold execute_order. cbv zeta. intros ([r st3] & H1 & H)%bind_Ret Hl.
  apply bind_Ret in H as ([[st4 sw] pr] & H2 & [= <- _]).
  apply settle_order_frame in H2.
  assert (Hbk : books st4 = books st3) by by rewrite (fr_books _ _ H2), record_prints_books.
  apply (holds_books _ _ _ _ _ Hbk) in Hl.
  assert (Hok2 : matcher_ok n (register_owner st2 signer)).
  { eapply matcher_ok_frame; [|exact Hok1]. by destruct Hg. }
  assert (Hsub : submit_ok (book_of (register_owner st2 signer) (op_market_id p))
                   (new_order p (signer_owner_id signer))).
  { destruct (proj1 Hok2 (op_market_id p)) as [_ Hlen].
    pose proof (sane_tick _ Ht ltac:(lia)). unfold submit_ok, u64_max in *. cbn. int_range. }
  destruct (match_order_adds n _ _ _ _ _ _ _ _ _ _ Hc Hok2 Hsub H1 Hl) as [Hor|Hor]; [left|by right].
  eapply holds_books; [|exact Hor]. cbn. by rewrite (fr_books _ _ Hg).
Qed.

(** An offer returns unless its size is zero, and adds at most the order it reports. *)
Lemma post_offer_adds n st p signer now :
  matcher_ok n st → Z.of_nat n < NIL → payload_ok (POffer p) →
  match post_offer st p signer now with
  | Panic => of_max_size p ≤ 0
  | Ret (st', r) =>
    (∀ m me y, holds st' m me y →
      holds st m me y ∨ (m = of_market_id p ∧ signer_owner_id signer = me ∧ r = Ok (OfferResting y))) ∧
    (∀ y, r = Ok (OfferResting y) → holds st' (of_market_id p) (signer_owner_id signer) y)
  end.
Proof.
  intros Hok Hn [Ht Hsz]. unfold post_offer.
  destruct (accept_nonce st signer (of_nonce p)) as [st1|e] eqn:Hacc; cycle 1.
  { split; [by left|done]. }
  apply accept_nonce_same in Hacc as [E1 E2].
  case_decide as Htick.
  { split; [|done]. intros m me y Hl. left. by eapply holds_books. }
  cbv zeta. unfold submit_order. set (st2 := register_owner st1 signer). set (o := offer_order p _).
  assert (E : books st2 = books st) by done.
  replace (book_of st2 (of_market_id p)) with (book_of st (of_market_id p)) by (unfold book_of; by rewrite E).
  destruct (proj1 Hok (of_market_id p)) as [Hr Hlen].
  assert (Hsub : submit_ok (book_of st (of_market_id p)) o).
  { pose proof (sane_tick _ Ht ltac:(lia)). unfold submit_ok, o, u64_max in *. cbn. int_range. }
  destruct (submit_cases _ o now Hr Hsub) as (r & b' & Hrun & _ & Hcase).
  rewrite Hrun, !ret_bind. cbv beta iota.
  assert (Hadd : ∀ m me y, holds (put_book st2 (of_market_id p) b') m me y →
            holds st m me y ∨ (m = of_market_id p ∧ signer_owner_id signer = me ∧ resting_id r = Some y)).
  { intros m me y Hl. change (no_owner o) with (signer_owner_id signer).
    apply (holds_put _ _ _ _ _ _ (signer_owner_id signer = me ∧ resting_id r = Some y)) in Hl.
    - destruct Hl as [Hl|Hl]; [left; by eapply holds_books|by right].
    - intros Hb. destruct (submit_adds _ _ _ _ _ Hr Hsub Hrun me y Hb) as [?|?]; [left|by right].
      by apply (holds_books st2 st). }
  assert (Hr0 : post_only_rejected r = true → resting_id r = None).
  { intros Hp. unfold outcome_of in Hcase. rewrite Hp in Hcase. apply Hcase. }
  destruct (post_only_rejected r) eqn:Hp.
  { split; [|done]. intros m me y Hl. destruct (Hadd _ _ _ Hl) as [?|(_ & _ & Hy)]; [by left|].
    by rewrite Hr0 in Hy. }
  destruct (resting_id r) as [x|] eqn:Hx.
  { cbn [expect]. rewrite ret_bind. split.
    - intros m me y Hl. destruct (Hadd _ _ _ Hl) as [?|(? & ? & [= ->])]; [by left|]. right. by split_and!.
    - intros y [= <-]. rewrite book_of_put. unfold outcome_of in Hcase. rewrite Hp in Hcase.
      destruct (fill_or_kill_failed r);
        [destruct Hcase as (_ & _ & _ & Hno & _); congruence|].
      destruct Hcase as (_ & _ & out & left & acc & _ & _ & _ & _ & Hrest). unfold rested in Hrest.
      destruct (_ && _); [|destruct Hrest as (? & _); congruence].
      destruct Hrest as (x' & Hx' & _ & E'). assert (x' = x) as -> by congruence.
      eexists (no_side o), _, _. rewrite E'. split; [apply elem_of_insert_entry|done]. }
  cbn [expect]. change (of_max_size p) with (no_qty o). apply Z.nlt_ge. intros Hq. unfold outcome_of in Hcase. rewrite Hp in Hcase.
  assert (Hrests : rests (no_tif o) = true) by (unfold o; cbn; by destruct (of_expiry p)).
  destruct (fill_or_kill_failed r); [destruct Hcase as [Hk _]; unfold o in Hk; cbn in Hk; by destruct (of_expiry p)|].
  destruct Hcase as (Hnc & _ & out & left & acc & Hm & _ & _ & _ & Hrest). specialize (Hnc eq_refl).
  unfold rested in Hrest. rewrite Hrests, andb_true_r, Hx in Hrest.
  case_bool_decide as Hz; [by destruct Hrest as (? & ? & _)|]. apply Hz.
  destruct (matched_side _ o now) as [|[t1 [x1 d1]] l]; cbn [spec_match] in Hm.
  - by injection Hm as _ <- _.
  - cbn [fst] in Hnc. case_decide; [|by injection Hm as _ <- _]. rewrite Hnc in Hm. by injection Hm as _ <- _.
Qed.

(** A cancellation always returns, adds nothing, and leaves nothing of its own order. *)
Lemma post_cancel_adds n st p signer :
  matcher_ok n st → payload_ok (PCancel p) →
  ∃ st' r, post_cancel st p signer = Ret (st', r) ∧
    (∀ m me y, holds st' m me y → holds st m me y) ∧
    ((∀ l, last_nonce st !! signer = Some l → l < cp_nonce p) →
       ¬ holds st' (cp_market_id p) (signer_owner_id signer) (cp_order_id p)).
Proof.
  intros Hok [Hid _]. unfold post_cancel.
  destruct (accept_nonce st signer (cp_nonce p)) as [st1|e] eqn:Hacc; cycle 1.
  { eexists _, _. split; [done|]. split; [done|]. intros Hlt. exfalso. unfold accept_nonce in Hacc.
    destruct (last_nonce st !! signer) as [l|]; [|done]. specialize (Hlt l eq_refl).
    case_decide; [lia|done]. }
  apply accept_nonce_same in Hacc as [E1 E2].
  assert (Hst1 : ∀ m me y, holds st1 m me y → holds st m me y) by (intros ???; by apply holds_books).
  set (b := book_of st1 (cp_market_id p)).
  assert (Hr : Book.reachable b) by (unfold b, book_of; rewrite E1; apply (proj1 Hok)).
  assert (Hno : owner_of b (cp_order_id p) ≠ Some (signer_owner_id signer) →
            ¬ holds st1 (cp_market_id p) (signer_owner_id signer) (cp_order_id p)).
  { intros Hne (s & t & d & Hin & Hme). apply Hne. fold b in Hin.
    destruct (reachable_inv b Hr) as [A Hinv]. rewrite (resting_flat _ _ _ Hinv) in Hin.
    apply (flat_live b A None) in Hin as (_ & q & nx & Ha); [|apply (inv_core _ _ Hinv)].
    unfold owner_of. rewrite Ha. cbn. by rewrite Hme. }
  destruct (books st1 !! cp_market_id p) as [bk|] eqn:Hbk; cycle 1.
  { eexists _, _. split; [done|]. split; [done|]. intros _. apply Hno. unfold b, book_of. rewrite Hbk.
    unfold owner_of. cbn. by rewrite lookup_nil. }
  assert (bk = b) as -> by (unfold b, book_of; by rewrite Hbk).
  destruct (owner_of b (cp_order_id p)) as [w|] eqn:Hw; cycle 1.
  { eexists _, _. split; [done|]. split; [done|]. intros _. by apply Hno. }
  case_decide as Hme.
  { eexists _, _. split; [done|]. split; [done|]. intros _. apply Hno. congruence. }
  destruct (cancel_live b (cp_order_id p) w Hr Hid Hw) as (o & b' & -> & Hle & Hgone).
  rewrite ret_bind. cbv beta iota. eexists _, _. split; [done|]. split.
  - intros m me y Hl. apply Hst1. apply (holds_put _ _ _ _ _ _ False) in Hl; [|left; by apply Hle]. tauto.
  - intros _. rewrite book_of_put. apply Hgone.
Qed.

(** Ids of live orders are arena slots. *)
Lemma live_range n b me y :
  Book.reachable b → (length (arena b) ≤ n)%nat → Z.of_nat n ≤ NIL → live b me y → in_u 32 y.
Proof.
  intros Hr Hl Hn (s & t & d & Hin & _). destruct (reachable_inv b Hr) as [A Hinv].
  rewrite (resting_flat _ _ _ Hinv) in Hin. apply (flat_live b A None) in Hin as (Hy & p & q & Ha); [|apply Hinv].
  apply lookup_lt_Some in Ha. unfold NIL in *. int_range.
Qed.

(** A request of another owner adds nothing of mine and keeps my nonce. *)
Section others.
Context (E : Enclave) (Hcfg : config_ok (backstop_config (en_dep E))) (signer : Address).

Definition foreign (q : Request) : Prop :=
  payload_ok (rq_payload q) ∧ signer_owner_id (rq_signer q) ≠ signer_owner_id signer.

Lemma serve_one_foreign n st q st' r m y :
  matcher_ok n st → Z.of_nat n < NIL → foreign q → serve_one E st q = Ret (st', r) →
  (holds st' m (signer_owner_id signer) y → holds st m (signer_owner_id signer) y) ∧
  last_nonce st' !! signer = last_nonce st !! signer.
Proof.
  intros Hok Hn [Hp Hne] Hrun. split; cycle 1.
  { apply serve_one_nonce in Hrun as [_ Hs].
    assert (rq_signer q ≠ signer) by congruence.
    destruct (last_nonce st !! rq_signer q); [case_decide|];
      destruct Hs as [Hs _]; rewrite Hs; by rewrite ?lookup_insert_ne. }
  revert Hrun. unfold serve_one, handle. destruct (rq_payload q) as [p|p|p|p].
  - intros ([st1 o] & Hrun & [= <- <-])%bind_Ret Hl.
    by destruct (post_order_adds _ _ _ _ _ _ _ _ _ _ _ _ _ _ _ _ Hcfg Hok Hn Hp Hrun Hl).
  - intros ([st1 o] & Hrun & [= <- <-])%bind_Ret Hl.
    pose proof (post_offer_adds n st p (rq_signer q) (rd_now (rq_reading q)) Hok Hn Hp) as Hadd.
    rewrite Hrun in Hadd. destruct Hadd as [Hadd _]. by destruct (Hadd _ _ _ Hl) as [?|(_ & ? & _)].
  - intros ([st1 o] & Hrun & [= <- <-])%bind_Ret Hl.
    destruct (post_cancel_adds n st p (rq_signer q) Hok Hp) as (st2 & r2 & Hrun' & Hadd & _).
    rewrite Hrun in Hrun'. injection Hrun' as <- <-. by apply Hadd.
  - unfold post_portfolio_key. destruct (accept_nonce st (rq_signer q) (pk_nonce p)) as [st1|e] eqn:Hacc;
      intros [= <- <-] Hl; [|done].
    apply accept_nonce_same in Hacc as [E1 _]. by eapply holds_books.
Qed.
End others.
