(* ===== verification/MarketMakerProps.v ===== *)
(** * The standing market maker: theorems

    What it quotes, how its inventory estimate moves, and which of its orders rest in the enclave's
    book after any number of cycles, against any other traders and an unreliable connection. *)
From S2P Require Import Prelude Ints Types I256 Risk Fees Backstop Positions PositionProps Liquidation.
From S2P Require Import Book Wire Matcher.
From S2P Require Import BookSpec BookProps MatcherBook MatcherProps MatcherTrace MarketMaker MakerVenue.
Open Scope Z_scope.

(** ** Outcomes that may only abort for a reason *)

Definition returns_or {A} (F : Prop) (m : exec A) (Q : A → Prop) : Prop :=
  match m with Ret a => Q a | Panic => F end.

Lemma returns_or_bind {A B} F (m : exec A) (k : A → exec B) Q R :
  returns_or F m Q → (∀ a, Q a → returns_or F (k a) R) → returns_or F (m ≫= k) R.
Proof. destruct m; simpl; auto. Qed.

Lemma returns_or_mono {A} F (m : exec A) (Q R : A → Prop) :
  returns_or F m Q → (∀ a, Q a → R a) → returns_or F m R.
Proof. destruct m; simpl; auto. Qed.

(** ** Every live order is tracked *)

Section tracking.
Context (E : Enclave) (Hcfg : config_ok (backstop_config (en_dep E))) (signer : Address).
Context (market : MarketId) (N : nat) (HN : Z.of_nat N < NIL).
Context (legs0 : list Leg) (Hforeign : Forall (λ l, Forall (foreign signer) (leg_before l)) legs0).
Context (lost0 : list OrderId).

Definition pending (legs : list Leg) : nat := sum_list ((λ l, length (leg_before l)) <$> legs).
Definition reliable (legs : list Leg) : Prop := Forall (λ l, leg_delivery l = Arrives) legs.

(** A request of another trader whose handler aborts. *)
Definition foreign_abort : Prop :=
  ∃ l st q, l ∈ legs0 ∧ q ∈ leg_before l ∧ serve_one E st q = Panic.

(** [ids] are tracked, and [c] more requests can be paid for. *)
Record tracks (c : nat) (ids : list OrderId) (w : Venue) (nonce : Z) : Prop := {
  tr_ok : ∃ n, matcher_ok n (ve_state w) ∧ (n + pending (ve_legs w) + length ids + c ≤ N)%nat;
  tr_nonce : ∀ l, last_nonce (ve_state w) !! signer = Some l → l ≤ nonce;
  tr_room : 0 ≤ nonce ∧ nonce + Z.of_nat (length ids + c) ≤ u64_max;
  tr_live : ∀ y, holds (ve_state w) market (signer_owner_id signer) y → y ∈ ids ++ ve_lost w;
  tr_ids : Forall (in_u 32) ids;
  tr_legs : ve_legs w ⊆ legs0;
  tr_lost : reliable legs0 → ve_lost w = lost0;
}.

Lemma tracks_perm c ids ids' w nonce : ids ≡ₚ ids' → tracks c ids w nonce → tracks c ids' w nonce.
Proof.
  intros Hp [Hok Hn Hr Hl Hi Hs Hlo]. pose proof (Permutation_length Hp) as El. rewrite El in Hok, Hr.
  split; try done; [|by rewrite <- Hp]. intros y Hy. rewrite <- Hp. by apply Hl.
Qed.

Lemma tracks_pay c c' ids w nonce : (c' ≤ c)%nat → tracks c ids w nonce → tracks c' ids w nonce.
Proof.
  intros Hc [(n & Hn & Hb) ? Hroom ????]. split; [exists n; split; [done|lia]|done|lia|done..].
Qed.

Lemma next_leg_in w : ve_legs w ⊆ legs0 → next_leg w = quiet ∨ next_leg w ∈ legs0.
Proof.
  unfold next_leg. destruct (ve_legs w) as [|l ls]; intros Hs; [by left|]. right. apply Hs. by left.
Qed.

Lemma next_leg_foreign w : ve_legs w ⊆ legs0 → Forall (foreign signer) (leg_before (next_leg w)).
Proof.
  intros [-> |Hin]%next_leg_in; [constructor|]. rewrite Forall_forall in Hforeign. by apply Hforeign.
Qed.

Lemma next_leg_abort w q st :
  ve_legs w ⊆ legs0 → q ∈ leg_before (next_leg w) → serve_one E st q = Panic → foreign_abort.
Proof.
  intros [E1|Hin]%next_leg_in Hq Hp; [rewrite E1 in Hq; by apply elem_of_nil in Hq|].
  by exists (next_leg w), st, q.
Qed.

Lemma pending_drop w :
  (length (leg_before (next_leg w)) + pending (drop 1 (ve_legs w)) = pending (ve_legs w))%nat.
Proof. unfold next_leg, pending. by destruct (ve_legs w). Qed.

Lemma serve_foreign qs n st :
  matcher_ok n st → Z.of_nat (n + length qs) < NIL → Forall (foreign signer) qs →
  returns_or (∃ st q, q ∈ qs ∧ serve_one E st q = Panic) (serve E st qs) (λ r,
    matcher_ok (n + length qs) r.1 ∧ last_nonce r.1 !! signer = last_nonce st !! signer ∧
    ∀ m y, holds r.1 m (signer_owner_id signer) y → holds st m (signer_owner_id signer) y).
Proof.
  revert n st. induction qs as [|q qs IH]; intros n st Hok Hn Hf.
  { simpl. by rewrite Nat.add_0_r. }
  apply Forall_cons in Hf as [Hq Hf]. cbn [length] in *. cbn [serve].
  destruct (serve_one E st q) as [[st1 r1]|] eqn:Hrun; cycle 1.
  { exists st, q. split; [by left|done]. }
  rewrite ret_bind. cbv beta iota.
  pose proof (serve_one_ok E Hcfg n st q st1 r1 Hok ltac:(lia) (proj1 Hq) Hrun) as Hok1.
  pose proof (λ m y, serve_one_foreign E Hcfg signer n st q st1 r1 m y Hok ltac:(lia) Hq Hrun) as Hst.
  specialize (IH (S n) st1 Hok1 ltac:(lia) Hf). destruct (serve E st1 qs) as [[st2 log]|]; simpl in *.
  - destruct IH as (Hok2 & Hn2 & Hl2). rewrite Nat.add_succ_r. split_and!; [done| |].
    + rewrite Hn2. by apply (Hst market 0).
    + intros m y Hy. by apply Hst, Hl2.
  - destruct IH as (st' & q' & Hq' & Hp). exists st', q'. split; [by right|done].
Qed.

(** Other traders' requests keep everything tracked. *)
Lemma tracks_foreign c ids w nonce :
  tracks c ids w nonce →
  returns_or foreign_abort (serve E (ve_state w) (leg_before (next_leg w)))
    (λ r, tracks c ids (after_leg w r.1 []) nonce).
Proof.
  intros [(n & Hok & Hb) Hnon Hroom Hlive Hids Hlegs Hlost]. pose proof (pending_drop w) as Hd.
  assert (Hlt : Z.of_nat (n + length (leg_before (next_leg w))) < NIL) by lia.
  pose proof (serve_foreign (leg_before (next_leg w)) n (ve_state w) Hok Hlt
                (next_leg_foreign w Hlegs)) as Hs.
  destruct (serve E (ve_state w) _) as [[st log]|]; simpl in *.
  - destruct Hs as (Hok' & Hn' & Hl'). split; cbn [after_leg ve_state ve_legs ve_lost app].
    + exists (n + length (leg_before (next_leg w)))%nat. split; [done|lia].
    + by rewrite Hn'.
    + done.
    + intros y Hy. by apply Hlive, Hl'.
    + done.
    + destruct (ve_legs w); set_solver.
    + done.
  - destruct Hs as (st' & q & Hq & Hp). by eapply next_leg_abort.
Qed.

Lemma nonce_after st st' n e m :
  nonce_step st st' signer n e → (∀ l, last_nonce st !! signer = Some l → l ≤ m) → m ≤ n →
  ∀ l, last_nonce st' !! signer = Some l → l ≤ n.
Proof.
  intros [_ Hs] Hl Hm l Hl'. destruct (last_nonce st !! signer) as [k|] eqn:Hk; [case_decide|].
  - destruct Hs as [-> _]. specialize (Hl k eq_refl). rewrite Hk in Hl'. injection Hl' as <-. lia.
  - destruct Hs as [Hs _]. rewrite Hs, lookup_insert_eq in Hl'. by injection Hl' as <-.
  - destruct Hs as [Hs _]. rewrite Hs, lookup_insert_eq in Hl'. by injection Hl' as <-.
Qed.

Lemma tracks_lose ids c y w st nonce nonce' :
  nonce ≤ nonce' ≤ nonce + 1 →
  leg_delivery (next_leg w) ≠ Arrives → ve_legs w ⊆ legs0 →
  tracks c (y :: ids) (after_leg w st []) nonce → tracks c ids (after_leg w st [y]) nonce'.
Proof.
  intros Hno Hd Hsub [(n & Hok & Hb) Hnon Hroom Hlive Hids Hlegs Hlost].
  cbn [after_leg ve_state ve_legs ve_lost app length] in *. split; cbn [after_leg ve_state ve_legs ve_lost app].
  - exists n. split; [done|lia].
  - intros l Hl. specialize (Hnon l Hl). lia.
  - lia.
  - intros z Hz. specialize (Hlive z Hz). set_solver.
  - by apply Forall_cons in Hids as [_ ?].
  - done.
  - intros Hr. destruct Hd. destruct (next_leg_in w Hsub) as [-> |Hin]; [done|].
    unfold reliable in Hr. rewrite Forall_forall in Hr. by apply Hr.
Qed.

(** The enclave serves an offer of the maker. *)
Lemma offer_served c ids w st nonce p now :
  tracks (S (S c)) ids (after_leg w st []) nonce → of_market_id p = market →
  of_nonce p = nonce + 1 → payload_ok (POffer p) → 0 < of_max_size p →
  ∃ st' r, serve_one E st (maker_request signer (POffer p) now) = Ret (st', r) ∧
    tracks c (option_list (offered_id (Some r)) ++ ids) (after_leg w st' []) (nonce + 1).
Proof.
  intros [(n & Hok & Hb) Hnon Hroom Hlive Hids Hlegs Hlost] Hm Hno Hp Hz.
  cbn [after_leg ve_state ve_legs ve_lost app] in *. assert (Hn : Z.of_nat n < NIL) by lia.
  pose proof (post_offer_adds n st p signer now Hok Hn Hp) as Hadd.
  unfold serve_one, handle. cbn [maker_request rq_payload rq_signer rq_reading rd_now].
  destruct (post_offer st p signer now) as [[st' r]|] eqn:Hrun; [|lia]. destruct Hadd as [Hadd Hnew].
  rewrite ret_bind. cbv beta iota. eexists _, _. split; [done|].
  assert (Hok' : matcher_ok (S n) st') by (apply (post_offer_ok n st p signer now st' r Hok Hn Hp Hrun)).
  set (got := offered_id (Some (ROffer r))).
  assert (Hgot : match got with Some y => r = Ok (OfferResting y) | None => ∀ y, r ≠ Ok (OfferResting y) end).
  { unfold got, offered_id. by destruct r as [[]|]. }
  assert (Hlen : (length (option_list got) ≤ 1)%nat) by by destruct got; simpl; lia.
  split; cbn [after_leg ve_state ve_legs ve_lost app].
  - exists (S n). split; [done|]. rewrite length_app. lia.
  - apply post_offer_nonce in Hrun. rewrite Hno in Hrun. eapply nonce_after; [exact Hrun|exact Hnon|lia].
  - rewrite length_app. lia.
  - intros y Hy. destruct (Hadd _ _ _ Hy) as [Hold|(_ & _ & Hr)]; [specialize (Hlive _ Hold); set_solver|].
    destruct got as [z|]; [|by destruct (Hgot y)]. assert (z = y) as -> by congruence. simpl. by left.
  - apply Forall_app. split; [|done]. destruct got as [z|]; [|constructor]. constructor; [|constructor].
    specialize (Hnew z Hgot). destruct (proj1 Hok' (of_market_id p)) as [Hr Hl].
    eapply live_range; [exact Hr|exact Hl|lia|exact Hnew].
  - done.
  - done.
Qed.

(** The enclave serves a cancellation of the maker. *)
Lemma cancel_served c x ids w st nonce p now :
  tracks c (x :: ids) (after_leg w st []) nonce →
  p = {| cp_market_id := market; cp_order_id := x; cp_nonce := nonce + 1 |} →
  ∃ st' r, serve_one E st (maker_request signer (PCancel p) now) = Ret (st', r) ∧
    tracks c ids (after_leg w st' []) (nonce + 1).
Proof.
  intros [(n & Hok & Hb) Hnon Hroom Hlive Hids Hlegs Hlost] ->.
  cbn [after_leg ve_state ve_legs ve_lost app length] in *. apply Forall_cons in Hids as [Hx Hids].
  set (p := {| cp_market_id := market; cp_order_id := x; cp_nonce := nonce + 1 |}).
  destruct (post_cancel_adds n st p signer Hok Hx) as (st' & r & Hrun & Hadd & Hgone).
  unfold serve_one, handle. cbn [maker_request rq_payload rq_signer]. rewrite Hrun, ret_bind. cbv beta iota.
  eexists _, _. split; [done|]. split; cbn [after_leg ve_state ve_legs ve_lost app].
  - exists (S n). split; [exact (post_cancel_ok n st p signer st' r Hok Hx Hrun)|lia].
  - apply post_cancel_nonce in Hrun. eapply nonce_after; [exact Hrun|exact Hnon|cbn; lia].
  - lia.
  - intros y Hy. specialize (Hlive y (Hadd _ _ _ Hy)). apply elem_of_cons in Hlive as [->|?]; [|done].
    exfalso. apply Hgone; [|exact Hy]. intros l Hl. specialize (Hnon l Hl). cbn. lia.
  - done.
  - done.
  - done.
Qed.

Lemma venue_offer_tracks c ids w nonce p :
  tracks (S (S c)) ids w nonce → of_market_id p = market → of_nonce p = nonce + 1 →
  payload_ok (POffer p) → 0 < of_max_size p →
  returns_or foreign_abort (venue_offer E signer w p)
    (λ r, tracks c (option_list r.2 ++ ids) r.1 (nonce + 1)).
Proof.
  intros Ht Hm Hno Hp Hz. pose proof (tr_legs _ _ _ _ Ht) as Hlegs. unfold venue_offer, transmit.
  pose proof (tracks_foreign _ _ _ _ Ht) as Ht1.
  destruct (serve E (ve_state w) (leg_before (next_leg w))) as [[st log]|]; [|exact Ht1].
  cbn [returns_or fst] in Ht1. rewrite ret_bind. cbv beta iota.
  assert (Hlost : tracks c ids (after_leg w st []) (nonce + 1)).
  { destruct Ht1 as [(n & Hok & Hb) Hnon Hroom ????]. split; try done.
    - exists n. split; [done|lia].
    - intros l Hl. specialize (Hnon l Hl). lia.
    - lia. }
  destruct (offer_served c ids w st nonce p (leg_now (next_leg w)) Ht1 Hm Hno Hp Hz) as (st' & r & Hrun & Ht2).
  destruct (leg_delivery (next_leg w)) eqn:Hd; rewrite ?Hrun, ?ret_bind; cbn [returns_or fst snd].
  - exact Ht2.
  - exact Hlost.
  - destruct (offered_id (Some r)) as [y|]; [|exact Ht2]. apply (tracks_lose _ _ _ _ _ (nonce + 1)); [lia|by rewrite Hd|done|exact Ht2].
Qed.

Lemma venue_cancel_tracks c x ids w nonce p :
  tracks c (x :: ids) w nonce →
  p = {| cp_market_id := market; cp_order_id := x; cp_nonce := nonce + 1 |} →
  returns_or foreign_abort (venue_cancel E signer w p) (λ r, tracks c ids r.1 (nonce + 1)).
Proof.
  intros Ht Hp. pose proof (tr_legs _ _ _ _ Ht) as Hlegs. unfold venue_cancel, transmit.
  pose proof (tracks_foreign _ _ _ _ Ht) as Ht1.
  destruct (serve E (ve_state w) (leg_before (next_leg w))) as [[st log]|]; [|exact Ht1].
  cbn [returns_or fst] in Ht1. rewrite ret_bind. cbv beta iota.
  destruct (cancel_served c x ids w st nonce p (leg_now (next_leg w)) Ht1 Hp) as (st' & r & Hrun & Ht2).
  destruct (leg_delivery (next_leg w)) eqn:Hd; rewrite ?Hrun, ?ret_bind; cbn [returns_or fst snd]; try exact Ht2.
  subst p. apply (tracks_lose _ _ _ _ _ nonce); [lia|by rewrite Hd|done|exact Ht1].
Qed.

(** ** One cycle *)

Context `{I : I256} {HI : I256Laws I} (se : Settings) (Hse : se_market_id se = market).
Context (spread : list Z → nat → Z → Z) (rounded : nat → Z → Z).
Context (Hrounded : ∀ level draw, in_s 64 (rounded level draw)).

#[local] Instance exchange : Exchange Venue := venue_exchange E signer.

Definition quote_ok (q : Quote) : Prop := in_u 64 q.1 ∧ in_u 64 q.2 ∧ 0 < q.2.

Lemma sat_u_range x : in_u 64 (sat_u 64 x).
Proof. unfold sat_u. int_range. Qed.

Lemma jittered_size_ok level draw : in_u 64 (jittered_size (rounded level draw)) ∧ 0 < jittered_size (rounded level draw).
Proof.
  pose proof (Hrounded level draw) as Hr. unfold jittered_size, as_u64. rewrite wrapu_small by int_range. int_range.
Qed.

Lemma level_bid_ok mk mid skew level d : quote_ok (level_bid spread rounded mk mid skew level d).
Proof. split; [apply sat_u_range|apply jittered_size_ok]. Qed.
Lemma level_ask_ok mk mid skew level d : quote_ok (level_ask spread rounded mk mid skew level d).
Proof. split; [apply sat_u_range|apply jittered_size_ok]. Qed.

Lemma place_tracks c ids w mk side q now :
  quote_ok q → tracks (S (S c)) ids w (mk_nonce mk) →
  returns_or foreign_abort (place se w mk side q now) (λ r,
    r.1.2 = set_nonce mk (mk_nonce mk + 1) ∧
    tracks c (option_list r.2 ++ ids) r.1.1 (mk_nonce mk + 1)).
Proof.
  intros (Ht & Hs & Hz) Htr. pose proof (tr_room _ _ _ _ Htr) as Hroom.
  assert (Hn : u64_add (mk_nonce mk) 1 = mk_nonce mk + 1).
  { unfold u64_add. apply wrapu_small. unfold u64_max in *. int_range. }
  unfold place. cbv zeta. rewrite Hn. eapply returns_or_bind.
  - apply (venue_offer_tracks c ids w (mk_nonce mk)); [exact Htr|exact Hse|done|split; [exact Ht|exact Hs]|exact Hz].
  - intros [w' id] Hr. by split.
Qed.

Lemma withdraw_tracks c x ids w mk :
  tracks c (x :: ids) w (mk_nonce mk) →
  returns_or foreign_abort (withdraw se w mk x) (λ r,
    r.2 = set_nonce mk (mk_nonce mk + 1) ∧ tracks c ids r.1 (mk_nonce mk + 1)).
Proof.
  intros Htr. pose proof (tr_room _ _ _ _ Htr) as Hroom. cbn [length] in Hroom.
  assert (Hn : u64_add (mk_nonce mk) 1 = mk_nonce mk + 1).
  { unfold u64_add. apply wrapu_small. unfold u64_max in *. int_range. }
  unfold withdraw. cbv zeta. rewrite Hn, Hse. eapply returns_or_bind.
  - apply (venue_cancel_tracks c x ids w (mk_nonce mk)); [exact Htr|done].
  - intros [w' ok] Hr. by split.
Qed.

(** Between two steps of a cycle: the new ids and the old ones not yet retired are tracked. *)
Definition cycling (c len : nat) (lc : option Z) (r : Venue * Maker * list OrderId) : Prop :=
  tracks c (resting_ids r.1.2 ++ r.2) r.1.1 (mk_nonce r.1.2) ∧
  (length (resting_ids r.1.2) ≤ len)%nat ∧ last_collateral r.1.2 = lc.

Lemma retire_one_tracks c len lc w mk old :
  cycling c len lc (w, mk, old) → returns_or foreign_abort (retire_one se w mk old) (cycling c len lc).
Proof.
  intros (Ht & Hl & Hc). cbn [fst snd] in *. destruct old as [|x old]; [by split_and!|].
  cbn [retire_one]. eapply returns_or_bind.
  - apply (withdraw_tracks c x (resting_ids mk ++ old)). eapply tracks_perm; [|exact Ht].
    symmetry. apply Permutation_middle.
  - intros [w' mk'] [Hmk Ht']. cbn [fst snd] in *. subst mk'. by split_and!.
Qed.

Lemma retire_all_tracks c len lc old w mk :
  cycling c len lc (w, mk, old) →
  returns_or foreign_abort (retire_all se w mk old) (λ r, cycling c len lc (r, [])).
Proof.
  revert w mk. induction old as [|x old IH]; intros w mk Hcy; [exact Hcy|].
  cbn [retire_all]. pose proof (retire_one_tracks _ _ _ _ _ _ Hcy) as Hr. cbn [retire_one] in Hr.
  destruct (withdraw se w mk x) as [[w' mk']|]; [|exact Hr]. by apply IH.
Qed.

Lemma requote_level_tracks c len lc mid skew level d w mk old :
  cycling (4 + c) len lc (w, mk, old) →
  returns_or foreign_abort (requote_level se spread rounded mid skew level d w mk old) (cycling c (2 + len) lc).
Proof.
  intros (Ht & Hl & Hc). cbn [fst snd] in *. unfold requote_level. cbv zeta.
  set (bid := level_bid _ _ _ _ _ _ _). set (ask := level_ask _ _ _ _ _ _ _).
  eapply returns_or_bind; [apply (place_tracks (2 + c)); [apply level_bid_ok|exact Ht]|].
  intros [[w1 mk1] bid_id] [E1 Ht1]. cbn [fst snd] in *. subst mk1.
  eapply returns_or_bind; [apply (place_tracks c); [apply level_ask_ok|exact Ht1]|].
  intros [[w2 mk2] ask_id] [E2 Ht2]. cbn [fst snd set_nonce mk_nonce resting_ids] in *. subst mk2.
  set (mk2 := set_resting_ids _ _).
  assert (Hcy : cycling c (2 + len) lc (w2, mk2, old)).
  { split_and!; cbn; [|rewrite !length_app; destruct bid_id, ask_id; simpl; lia|done].
    eapply tracks_perm; [|exact Ht2]. solve_Permutation. }
  eapply returns_or_bind; [by apply retire_one_tracks|]. intros [[w3 mk3] old3] Hcy3.
  eapply returns_or_bind; [by apply retire_one_tracks|]. intros [[w4 mk4] old4] (Ht4 & Hl4 & Hc4).
  cbn [fst snd] in *. destruct level; by split_and!.
Qed.

Lemma requote_ladder_tracks c len lc mid skew ds level w mk old :
  cycling (4 * length ds + c) len lc (w, mk, old) →
  returns_or foreign_abort (requote_ladder se spread rounded mid skew level ds w mk old)
    (cycling c (2 * length ds + len) lc).
Proof.
  revert level len w mk old. induction ds as [|d ds IH]; intros level len w mk old Hcy; [exact Hcy|].
  cbn [requote_ladder]. eapply returns_or_bind.
  - apply (requote_level_tracks (4 * length ds + c) len lc). cbn [length] in Hcy.
    by replace (4 + (4 * length ds + c))%nat with (4 * S (length ds) + c)%nat by lia.
  - intros [[w1 mk1] old1] Hcy1. cbn [length].
    replace (2 * S (length ds) + len)%nat with (2 * length ds + (2 + len))%nat by lia. by apply IH.
Qed.

Definition small (o : option Z) : Prop := match o with Some c => - 2 ^ 254 < c < 2 ^ 254 | None => True end.

Lemma matches_quote_Ret delta q : 0 < delta < 2 ^ 255 → ∃ b, matches_quote delta q = Ret b.
Proof.
  intros Hd. destruct q as [q|]; [|by eexists]. unfold matches_quote. rewrite i256_abs_exact by int_range.
  rewrite ret_bind. by eexists.
Qed.

Lemma update_inventory_Ret mk c :
  small (last_collateral mk) → small c →
  ∃ lc i, update_inventory mk c = Ret (set_inventory mk lc i) ∧ small lc.
Proof.
  intros Hl Hc. unfold update_inventory. destruct c as [c|]; cycle 1.
  { exists (last_collateral mk), (inventory_estimate mk). by destruct mk. }
  destruct (last_collateral mk) as [prev|]; [|by exists (Some c), (inventory_estimate mk)].
  simpl in Hl, Hc. rewrite i256_sub_exact by int_range. rewrite ret_bind. case_decide as Hd.
  - assert (Hr : 0 < c - prev < 2 ^ 255) by lia. unfold infer_fill_side, filled_qty.
    destruct (matches_quote_Ret _ (last_bid mk) Hr) as [b1 ->].
    destruct (matches_quote_Ret _ (last_ask mk) Hr) as [b2 ->]. rewrite !ret_bind.
    rewrite i256_abs_exact by int_range. exists (Some c). destruct b1, b2; rewrite ?ret_bind; by eexists.
  - rewrite ret_bind. by exists (Some c), (inventory_estimate mk).
Qed.

Definition maker_tracks (c len : nat) (r : Venue * Maker) : Prop :=
  tracks c (resting_ids r.2) r.1 (mk_nonce r.2) ∧ (length (resting_ids r.2) ≤ len)%nat ∧
  small (last_collateral r.2).

Lemma requote_tracks c len w mk sm :
  (2 * length (sm_levels sm) ≤ len)%nat → small (sm_collateral sm) →
  maker_tracks (4 * length (sm_levels sm) + c) len (w, mk) →
  returns_or foreign_abort (requote se spread rounded w mk sm) (maker_tracks c len).
Proof.
  intros Hlen Hsm (Ht & Hl & Hc). cbn [fst snd] in *. unfold requote.
  assert (Hstay : maker_tracks c len (w, mk)).
  { split_and!; try done. eapply tracks_pay; [|exact Ht]. lia. }
  destruct (sm_mid sm) as [mid|]; [|exact Hstay]. case_decide; [exact Hstay|]. cbv zeta.
  set (mk1 := record_mid _ _ _).
  destruct (update_inventory_Ret mk1 (sm_collateral sm) Hc Hsm) as (lc & i & -> & Hlc). rewrite ret_bind.
  set (mk2 := set_inventory mk1 lc i).
  assert (Hcy : cycling (4 * length (sm_levels sm) + c) 0 lc (w, mk2, resting_ids mk)) by by split_and!.
  eapply returns_or_bind; [by apply requote_ladder_tracks|]. intros [[w3 mk3] old3] Hcy3.
  eapply returns_or_mono; [by apply retire_all_tracks|]. intros [w4 mk4] (Ht4 & Hl4 & Hc4).
  cbn [fst snd] in *. rewrite app_nil_r in Ht4. split_and!; [exact Ht4|cbn; lia|]. cbn. by rewrite Hc4.
Qed.

Definition offers_cost (cycles : list Sample) : nat :=
  4 * sum_list ((λ sm, length (sm_levels sm)) <$> cycles).

Lemma run_maker_tracks cycles c len w mk :
  Forall (λ sm, (2 * length (sm_levels sm) ≤ len)%nat ∧ small (sm_collateral sm)) cycles →
  maker_tracks (offers_cost cycles + c) len (w, mk) →
  returns_or foreign_abort (run_maker se spread rounded w mk cycles) (maker_tracks c len).
Proof.
  revert w mk. induction cycles as [|sm cycles IH]; intros w mk Hs Ht; [exact Ht|].
  apply Forall_cons in Hs as [[Hl Hsm] Hs]. cbn [run_maker]. eapply returns_or_bind.
  - apply (requote_tracks (offers_cost cycles + c) len); [exact Hl|exact Hsm|].
    unfold offers_cost in *. cbn [fmap list_fmap sum_list] in Ht.
    replace (4 * length (sm_levels sm) + (4 * sum_list ((λ sm, length (sm_levels sm)) <$> cycles) + c))%nat
      with (4 * (length (sm_levels sm) + sum_list ((λ sm, length (sm_levels sm)) <$> cycles)) + c)%nat by lia.
    exact Ht.
  - intros [w1 mk1] Ht1. by apply IH.
Qed.
End tracking.

(** ** What it quotes *)

Lemma quote_bps_spec s k :
  in_s 64 (s + k) → quote_bps s k = Z.min (Z.max (s + k) 1) 5000 ∧ 1 ≤ quote_bps s k ≤ 5000.
Proof.
  intros Hr. unfold quote_bps, as_u64. rewrite wraps_small by done.
  rewrite wrapu_small by int_range. lia.
Qed.

Lemma ticks_spec mid b :
  0 < mid → mid * 5000 < 2 ^ 64 → 1 ≤ b ≤ 5000 →
  bid_tick mid b = mid - mid * b / 10000 ∧ ask_tick mid b = mid + mid * b / 10000 ∧
  0 ≤ mid * b / 10000 ≤ mid / 2.
Proof.
  intros Hm Hb Hr. assert (0 ≤ mid * b < 2 ^ 64) by nia.
  assert (Hd : 0 ≤ mid * b / 10000 ≤ mid / 2).
  { split; [apply Z.div_pos; lia|]. apply Z.div_le_lower_bound; [lia|].
    pose proof (Z.mul_div_le (mid * b) 10000 ltac:(lia)). nia. }
  unfold bid_tick, ask_tick, u64_mul. rewrite wrapu_small by int_range.
  pose proof (Z.mul_div_le mid 2 ltac:(lia)). unfold sat_u. split_and!; lia.
Qed.

(** The quotes of a ladder level.  On a positive mid whose product with the 5000 bps clamp fits 64
    bits, the bid is the mid less, and the ask the mid plus, the level's spread leaned by the skew
    and clamped to 1 to 5000 bps: neither ever passes the mid or strays more than half of it away,
    from a mid of 10000 ticks the two are strictly apart, and a longer inventory never raises
    either. *)
Theorem maker_quotes_straddle spread rounded mk mid skew skew' level d :
  0 < mid → mid * 5000 < 2 ^ 64 → skew ≤ skew' →
  let s j := spread (mid_history mk) level j in
  (∀ k j, k = skew ∨ k = skew' → j = ld_bid_jitter d ∨ j = ld_ask_jitter d →
     in_s 64 (s j + k) ∧ in_s 64 (s j - k)) →
  let bid := (level_bid spread rounded mk mid skew level d).1 in
  let ask := (level_ask spread rounded mk mid skew level d).1 in
  bid = mid - mid * Z.min (Z.max (s (ld_bid_jitter d) + skew) 1) 5000 / 10000 ∧
  ask = mid + mid * Z.min (Z.max (s (ld_ask_jitter d) - skew) 1) 5000 / 10000 ∧
  mid - mid / 2 ≤ bid ≤ mid ∧ mid ≤ ask ≤ mid + mid / 2 ∧
  (10000 ≤ mid → bid < mid < ask) ∧
  (level_bid spread rounded mk mid skew' level d).1 ≤ bid ∧
  (level_ask spread rounded mk mid skew' level d).1 ≤ ask.
Proof.
  intros Hm Hb Hs s Hr bid ask. unfold bid, ask, level_bid, level_ask. cbn [fst]. fold (s (ld_bid_jitter d)) (s (ld_ask_jitter d)).
  assert (Hrange : ∀ k j, k = skew ∨ k = skew' → j = ld_bid_jitter d ∨ j = ld_ask_jitter d →
            in_s 64 (s j + k) ∧ in_s 64 (s j + - k)).
  { intros k j Hk Hj. by apply Hr. }
  destruct (Hrange skew (ld_bid_jitter d)) as [B1 _]; [by left..|].
  destruct (Hrange skew' (ld_bid_jitter d)) as [B2 _]; [by right|by left|].
  destruct (Hrange skew (ld_ask_jitter d)) as [_ A1]; [by left|by right|].
  destruct (Hrange skew' (ld_ask_jitter d)) as [_ A2]; [by right..|].
  apply quote_bps_spec in B1 as [B1 B1r], B2 as [B2 B2r], A1 as [A1 A1r], A2 as [A2 A2r].
  destruct (ticks_spec mid _ Hm Hb B1r) as (-> & _ & D1). destruct (ticks_spec mid _ Hm Hb B2r) as (-> & _ & D2).
  destruct (ticks_spec mid _ Hm Hb A1r) as (_ & -> & D3). destruct (ticks_spec mid _ Hm Hb A2r) as (_ & -> & D4).
  rewrite <- !Z.add_opp_r with (m := skew), <- B1, <- A1. split_and!; try done; try lia.
  - intros Hbig. assert (∀ b, 1 ≤ b → 1 ≤ mid * b / 10000) as H1 by (intros b ?; apply Z.div_le_lower_bound; nia).
    pose proof (H1 _ (proj1 B1r)). pose proof (H1 _ (proj1 A1r)). lia.
  - enough (mid * quote_bps (s (ld_bid_jitter d)) skew / 10000 ≤ mid * quote_bps (s (ld_bid_jitter d)) skew' / 10000) by lia.
    apply Z.div_le_mono; [lia|]. rewrite B1, B2. nia.
  - enough (mid * quote_bps (s (ld_ask_jitter d)) (- skew') / 10000 ≤ mid * quote_bps (s (ld_ask_jitter d)) (- skew) / 10000) by lia.
    apply Z.div_le_mono; [lia|]. rewrite A1, A2. nia.
Qed.

Definition demo_spread (_ : list Z) (level : nat) (_ : Z) : Z := 20 * Z.of_nat (S level).
Definition demo_draw : LevelDraw :=
  {| ld_bid_jitter := 0; ld_ask_jitter := 0; ld_bid_size := 0; ld_ask_size := 0;
     ld_bid_now := 100; ld_ask_now := 100 |}.

Lemma maker_quotes_straddle_witness :
  level_bid demo_spread (λ _ _, 40) (start 0) 65000 (-6) 0 demo_draw = (64909, 40) ∧
  (level_bid demo_spread (λ _ _, 40) (start 0) 65000 5 0 demo_draw).1 ≤ 64909.
Proof.
  split; [by vm_compute|].
  apply (maker_quotes_straddle demo_spread (λ _ _, 40) (start 0) 65000 (-6) 5 0 demo_draw);
    [lia|lia|lia|]. intros k j Hk Hj. unfold demo_spread. cbn. destruct Hk as [-> | ->]; split; int_range.
Defined.

(** ** What it believes it holds *)

(** The margin a full fill of a quote pledges, and whether [delta] is within the tolerance of it. *)
Definition margin_of (t n : Z) : Z := t * n * IMR_BPS / BPS_DENOMINATOR.
Definition near (q : option Quote) (delta : Z) : bool :=
  match q with
  | Some (t, n) => bool_decide (0 < margin_of t n ∧ Z.abs (margin_of t n - delta) ≤ 2)
  | None => false
  end.

Definition quote_small (q : option Quote) : Prop :=
  match q with Some (t, n) => 0 ≤ t < 2 ^ 64 ∧ 0 ≤ n < 2 ^ 64 ∧ t * n < 2 ^ 60 | None => True end.

Lemma margin_of_bounds t n : 0 ≤ t * n → t * n - 20 < 20 * margin_of t n ≤ t * n.
Proof.
  intros Hn. unfold margin_of, IMR_BPS, BPS_DENOMINATOR.
  pose proof (Z.div_mod (t * n * 500) 10000 ltac:(lia)).
  pose proof (Z.mod_pos_bound (t * n * 500) 10000 ltac:(lia)). lia.
Qed.

Lemma matches_quote_spec {X : I256} {HX : I256Laws X} q delta :
  quote_small q → 0 < delta < 2 ^ 254 →
  matches_quote delta q = Ret (near q delta) ∧
  (near q delta = true → filled_qty delta = Ret (20 * delta) ∧ 20 * delta < 2 ^ 61).
Proof.
  intros Hq Hd. destruct q as [[t n]|]; [|done]. destruct Hq as (Ht & Hn & Hb).
  assert (Hnn : 0 ≤ t * n) by lia. pose proof (margin_of_bounds t n Hnn) as Hm.
  assert (He : expected_margin (t, n) = margin_of t n).
  { unfold expected_margin, margin_of, u128_mul, as_u128, IMR_BPS, BPS_DENOMINATOR. cbn [fst snd].
    rewrite (wrapu_small 128 t), (wrapu_small 128 n), (wrapu_small 128 (t * n)),
      (wrapu_small 128 (t * n * 500)) by int_range. done. }
  unfold matches_quote, filled_qty, near. rewrite He, i256_abs_exact, !ret_bind by int_range.
  rewrite u128_try_from_exact by int_range. rewrite Z.abs_eq by lia.
  unfold abs_diff, ROUNDING_TOLERANCE_UNITS. split.
  - destruct (decide (delta < 2 ^ 128)) as [Hs|Hs].
    + rewrite try_u_in by int_range. f_equal. by rewrite bool_decide_and.
    + replace (try_u 128 delta) with (@None Z) by (symmetry; apply try_u_None; int_range).
      f_equal. symmetry. apply bool_decide_eq_false_2. lia.
  - intros [Hp Hc]%bool_decide_eq_true. rewrite try_u_in by int_range. cbn [default from_option id].
    unfold u128_mul, IMR_BPS, BPS_DENOMINATOR. rewrite wrapu_small by int_range. split; [|lia]. f_equal.
    replace (delta * 10000) with (20 * delta * 500) by lia. by rewrite Z.div_mul.
Qed.

(** The inventory estimate.  A growth of the public collateral within two units of the margin of
    exactly one outstanding quote moves the estimate up for the bid, down for the ask, by 20 times
    the growth; anything else leaves it alone.  When the growth is the margin the enclave pledges
    for a whole fill of a bid of [n] at tick [t], the move is the notional [t * n] up to rounding,
    not the [n] units the estimate is documented to count. *)
Theorem inventory_moves_by_notional {X : I256} {HX : I256Laws X} mk prev c :
  last_collateral mk = Some prev → small (Some prev) → small (Some c) → c - prev < 2 ^ 254 →
  quote_small (last_bid mk) → quote_small (last_ask mk) → Z.abs (inventory_estimate mk) < 2 ^ 62 →
  let delta := c - prev in
  let moved :=
    match decide (0 < delta), near (last_bid mk) delta, near (last_ask mk) delta with
    | left _, true, false => 20 * delta
    | left _, false, true => - (20 * delta)
    | _, _, _ => 0
    end in
  update_inventory mk (Some c) = Ret (set_inventory mk (Some c) (inventory_estimate mk + moved)) ∧
  (∀ t n, last_bid mk = Some (t, n) → delta = required_margin t n 20 → 0 < delta →
     near (last_ask mk) delta = false → t * n - 20 < moved ≤ t * n).
Proof.
  intros Hl Hp Hc Hdl Hb Ha Hi delta moved. simpl in Hp, Hc. unfold update_inventory. rewrite Hl.
  rewrite i256_sub_exact by int_range. rewrite ret_bind. fold delta. split.
  - unfold moved. destruct (decide (0 < delta)) as [Hd|Hd]; cycle 1.
    { rewrite ret_bind. repeat f_equal. lia. }
    destruct (matches_quote_spec (last_bid mk) delta Hb ltac:(lia)) as [E1 F1].
    destruct (matches_quote_spec (last_ask mk) delta Ha ltac:(lia)) as [E2 F2].
    unfold infer_fill_side. rewrite E1, E2, !ret_bind.
    destruct (near (last_bid mk) delta), (near (last_ask mk) delta); rewrite ?ret_bind;
      try (repeat f_equal; lia).
    + destruct F1 as [-> Hr]; [done|]. unfold as_i64. rewrite !ret_bind.
      rewrite (wraps_small 64 (20 * delta)) by (done || int_range). rewrite wraps_small by (done || int_range). done.
    + destruct F2 as [-> Hr]; [done|]. unfold as_i64. rewrite !ret_bind.
      rewrite (wraps_small 64 (20 * delta)) by (done || int_range).
      rewrite (wraps_small 64 (- (20 * delta))) by (done || int_range).
      rewrite wraps_small by (done || int_range). done.
  - intros t n Hq Hd Hpos Hna. rewrite Hq in Hb. destruct Hb as (Ht & Hn & Hbd).
    destruct (required_margin_exact t n 20) as [E _]; [lia..|]. rewrite E in Hd.
    change (margin_spec t n 20) with (margin_of t n) in Hd.
    pose proof (margin_of_bounds t n ltac:(lia)). unfold moved. destruct (decide (0 < delta)); [|lia].
    rewrite Hna, Hq. cbn [near]. rewrite bool_decide_eq_true_2 by lia. lia.
Qed.

Definition filled_maker : Maker :=
  set_inventory (set_quotes (start 0) (Some (63868, 10)) (Some (64122, 10))) (Some 5) 0.

Lemma inventory_moves_by_notional_witness :
  required_margin 63868 10 20 = 31934 ∧
  update_inventory (I := checked_i256) filled_maker (Some 31939) =
    Ret (set_inventory filled_maker (Some 31939) 638680).
Proof.
  split; [by vm_compute|].
  refine (proj1 (@inventory_moves_by_notional checked_i256 _ filled_maker 5 31939 eq_refl _ _ _ _ _ _));
    cbn; lia.
Defined.

(** ** Many cycles against the enclave *)

Definition all_small (L : nat) (cycles : list Sample) : Prop :=
  Forall (λ sm, (length (sm_levels sm) ≤ L)%nat ∧ small (sm_collateral sm)) cycles.

(** Where a run of the maker may begin: a well-formed enclave whose live orders of the maker are the
    ids it tracks, and room for the requests of the run. *)
Record run_start (signer : Address) (se : Settings) (L : nat) (st : AppState) (legs : list Leg)
    (mk : Maker) (cycles : list Sample) : Prop := {
  rs_ok : ∃ n, matcher_ok n st ∧
    Z.of_nat (n + pending legs + length (resting_ids mk) + offers_cost cycles) < NIL;
  rs_foreign : Forall (λ l, Forall (foreign signer) (leg_before l)) legs;
  rs_nonce : ∀ l, last_nonce st !! signer = Some l → l ≤ mk_nonce mk;
  rs_room : 0 ≤ mk_nonce mk ∧
    mk_nonce mk + Z.of_nat (length (resting_ids mk) + offers_cost cycles) ≤ u64_max;
  rs_live : ∀ y, holds st (se_market_id se) (signer_owner_id signer) y → y ∈ resting_ids mk;
  rs_ids : Forall (in_u 32) (resting_ids mk) ∧ (length (resting_ids mk) ≤ 2 * L)%nat;
  rs_small : small (last_collateral mk) ∧ all_small L cycles;
}.

(** C37: No stray quotes.  Whatever other traders send in between, and whichever of the maker's requests
    or answers are lost, a run of requote cycles returns unless a handler aborts on another
    trader's request, and then every live order of the maker is one it tracks, or one whose offer
    went unanswered or whose cancellation never arrived; over a reliable connection there are none
    of the latter.  The tracked ids never exceed twice the ladder's levels. *)
Theorem maker_orders_tracked {X : I256} {HX : I256Laws X} E signer se spread rounded L st legs mk cycles :
  config_ok (backstop_config (en_dep E)) → (∀ level draw, in_s 64 (rounded level draw)) →
  run_start signer se L st legs mk cycles →
  match run_maker (X := venue_exchange E signer) se spread rounded
          {| ve_state := st; ve_legs := legs; ve_lost := [] |} mk cycles with
  | Ret (w, mk') =>
      (∀ y, holds (ve_state w) (se_market_id se) (signer_owner_id signer) y →
         y ∈ resting_ids mk' ++ ve_lost w) ∧
      (Forall (λ l, leg_delivery l = Arrives) legs → ve_lost w = []) ∧
      (length (resting_ids mk') ≤ 2 * L)%nat ∧ ∃ n, matcher_ok n (ve_state w)
  | Panic => ∃ l st' q, l ∈ legs ∧ q ∈ leg_before l ∧ serve_one E st' q = Panic
  end.
Proof.
  intros Hcfg Hr [(n & Hok & Hn) Hf Hnon Hroom Hlive [Hids Hlen] [Hsm Hcy]].
  set (w0 := {| ve_state := st; ve_legs := legs; ve_lost := [] |}).
  set (N := (n + pending legs + length (resting_ids mk) + offers_cost cycles)%nat) in *.
  assert (Hstart : maker_tracks signer (se_market_id se) N legs [] (offers_cost cycles + 0) (2 * L) (w0, mk)).
  { split_and!; [|done|done]. rewrite Nat.add_0_r.
    split; cbn [fst snd w0 ve_state ve_legs ve_lost]; try done; [by exists n|].
    intros y Hy. rewrite app_nil_r. by apply Hlive. }
  apply (run_maker_tracks E Hcfg signer (se_market_id se) N Hn legs Hf [] se eq_refl spread rounded Hr) in Hstart.
  - destruct (run_maker _ _ _ _ _ _) as [[w mk']|]; [|exact Hstart].
    destruct Hstart as ([(k & Hk & _) _ _ Hl _ _ Hlost] & Hlen' & _). split_and!; try done. by exists k.
  - eapply Forall_impl; [exact Hcy|]. intros sm [? ?]. split; [lia|done].
Qed.

Definition demo_settings : Settings :=
  {| se_market_id := demo_market; se_skew_bps_per_unit := 2; se_vol_window := 20; se_requote_secs := 15 |}.
Definition demo_sample : Sample :=
  {| sm_mid := Some 65000; sm_collateral := Some 0; sm_levels := [demo_draw] |}.
Definition demo_sell : Request :=
  demo_request (POrder (demo_payload Sell 64870 40 ImmediateOrCancel false 1)) 8.
Definition demo_legs : list Leg :=
  [quiet; quiet; {| leg_before := [demo_sell]; leg_now := 0; leg_delivery := Arrives |}].
Definition demo_venue : Venue := {| ve_state := new_state; ve_legs := demo_legs; ve_lost := [] |}.

(** Two cycles of one level, another trader's sale taking the whole bid in between. *)
Definition demo_maker_run : exec (Venue * Maker) :=
  run_maker (I := checked_i256) (X := venue_exchange demo_enclave 7) demo_settings demo_spread (λ _ _, 40)
    demo_venue (start 1000) [demo_sample; demo_sample].

Lemma demo_run_start : run_start 7 demo_settings 1 new_state demo_legs (start 1000) [demo_sample; demo_sample].
Proof.
  split; cbn.
  - exists 0%nat. split; [apply matcher_ok_new|by vm_compute].
  - unfold demo_legs. apply Forall_cons_2; [apply Forall_nil_2|]. apply Forall_cons_2; [apply Forall_nil_2|].
    apply Forall_cons_2; [|apply Forall_nil_2]. apply Forall_cons_2; [|apply Forall_nil_2].
    split; [split; by vm_compute|by vm_compute].
  - intros l Hl. by rewrite lookup_empty in Hl.
  - vm_compute. split; discriminate.
  - intros y (s & t & d & Hin & _). exfalso. unfold book_of in Hin. cbn in Hin. destruct s; by vm_compute in Hin; inversion Hin.
  - split; [apply Forall_nil_2|lia].
  - split; [exact Logic.I|]. unfold all_small. apply Forall_cons_2; [cbn; lia|]. apply Forall_cons_2; [cbn; lia|]. apply Forall_nil_2.
Qed.

Lemma maker_orders_tracked_witness :
  ∃ w mk, demo_maker_run = Ret (w, mk) ∧ resting_ids mk = [0; 2] ∧
    ∀ y, holds (ve_state w) demo_market 7 y → y ∈ [0; 2] ++ ve_lost w.
Proof.
  pose proof (@maker_orders_tracked checked_i256 _ demo_enclave 7 demo_settings demo_spread (λ _ _, 40) 1
    new_state demo_legs (start 1000) [demo_sample; demo_sample] config_default_ok
    ltac:(intros ??; by vm_compute) demo_run_start) as H.
  change (match demo_maker_run with
          | Ret (w, mk') =>
              (∀ y, holds (ve_state w) demo_market (signer_owner_id 7) y → y ∈ resting_ids mk' ++ ve_lost w) ∧
              (Forall (λ l, leg_delivery l = Arrives) demo_legs → ve_lost w = []) ∧
              (length (resting_ids mk') ≤ 2)%nat ∧ ∃ n, matcher_ok n (ve_state w)
          | Panic => ∃ l st' q, l ∈ demo_legs ∧ q ∈ leg_before l ∧ serve_one demo_enclave st' q = Panic
          end) in H.
  assert (E : (r ← demo_maker_run; Ret (resting_ids r.2)) = Ret [0; 2]) by (vm_compute; reflexivity).
  revert H E. generalize demo_maker_run as run. intros [[w mk]|] H E; [|discriminate E]. injection E as Hids.
  exists w, mk. split; [reflexivity|]. split; [exact Hids|]. rewrite <- Hids. exact (proj1 H).
Defined.

(** The replacement of a filled quote is cancelled by the requote that places it.  Order ids are
    arena slots: the bid another trader filled frees its slot, the cycle's new bid takes it, and the
    cancellation of the old id then removes the new bid.  Every request arrived and was answered,
    the maker records [0] as its resting bid, and the book holds no bid at all. *)
Theorem replacement_quote_cancelled :
  Forall (λ l, leg_delivery l = Arrives) demo_legs ∧
  ∃ w mk, demo_maker_run = Ret (w, mk) ∧ ve_lost w = [] ∧ resting_ids mk = [0; 2] ∧
    last_bid mk = Some (64870, 40) ∧ best_bid (book_of (ve_state w) demo_market) = None ∧
    best_ask (book_of (ve_state w) demo_market) = Some 65130.
Proof.
  split; [unfold demo_legs; repeat (apply Forall_cons_2; [reflexivity|]); apply Forall_nil_2|].
  eexists _, _. split; [vm_compute; reflexivity|]. by split_and!.
Qed.
