(* ===== verification/Attestation.v ===== *)
(** * Attestation tokens ([attestation.rs], and [get_pubkey] and [get_health] of [api.rs])

    The request for a token, the reading of the launcher's HTTP answer and the chunked transfer
    decoding.  The parsing of the head of an HTTP response is the [httparse] crate's and the JSON of
    the request is [serde_json]'s: both are parameters.  A body is bytes, text is code points. *)
From Equations Require Import Equations.
From S2P Require Import Prelude Ints Text.
Open Scope Z_scope.

(** ** Errors *)

(** What [BadResponse] says. *)
Inductive Malformed :=
| BadHead | IncompleteResponse | MissingStatusCode | NotUtf8
| MissingSizeLine | SizeLineNotUtf8 | BadSize | TruncatedChunk.

Inductive AttestationError :=
| NoLauncherSocket
| Timeout
| Io
| BadResponse (why : Malformed)
| HttpError (code : Z).

(** ** Chunked transfer decoding *)

Definition cr : Ascii.ascii := Ascii.ascii_of_N 13.
Definition lf : Ascii.ascii := Ascii.ascii_of_N 10.
Definition crlf : Bytes := [cr; lf].
Definition semicolon : Z := 59.

(** [slice::windows] for a positive width. *)
Definition windows {A} (n : nat) (s : list A) : list (list A) :=
  (λ i, take n (drop i s)) <$> seq 0 (S (length s) - n).

Definition find_crlf (buf : Bytes) : option nat :=
  fst <$> list_find (λ w, w = crlf) (windows 2 buf).

(** The size before any chunk extension. *)
Definition size_hex (size_line : list Z) : list Z :=
  trim (default size_line (hd_error (split semicolon size_line))).

Lemma windows_lookup {A} n (s : list A) i w :
  windows n s !! i = Some w ↔ (i + n ≤ length s)%nat ∧ w = take n (drop i s).
Proof.
  unfold windows. rewrite list_lookup_fmap, fmap_Some. split.
  - intros (j & [-> Hj]%lookup_seq & ->). split; [lia|done].
  - intros [Hi ->]. exists i. rewrite lookup_seq. split; [lia|done].
Qed.

Lemma find_crlf_bound s i : find_crlf s = Some i → (i + 2 ≤ length s)%nat.
Proof.
  unfold find_crlf. intros ([j w] & (Hj & _)%list_find_Some & ->)%fmap_Some.
  by apply windows_lookup in Hj as [? _].
Qed.

(** A value with the equation that says where it comes from. *)
Definition remember_eq {A} (a : A) : {b | a = b} := exist _ a eq_refl.

(** [body.len() < size + 2] wraps at the width of [usize]; the slice that follows aborts when the
    size is beyond the end. *)
Equations decode_loop (body out : Bytes) : exec (result Bytes AttestationError) by wf (length body) lt :=
  decode_loop body out with remember_eq (find_crlf body) := {
    | exist _ None _ => Ret (Err (BadResponse MissingSizeLine));
    | exist _ (Some line_end) Hfind with from_utf8 (take line_end body) => {
      | None => Ret (Err (BadResponse SizeLineNotUtf8));
      | Some size_line with from_str_radix 16 (size_hex size_line) => {
        | None => Ret (Err (BadResponse BadSize));
        | Some size with decide (size = 0) => {
          | left _ => Ret (Ok out);
          | right _ with decide (Z.of_nat (length (drop (line_end + 2) body)) < u64_add size 2) => {
            | left _ => Ret (Err (BadResponse TruncatedChunk));
            | right _ with decide (Z.of_nat (length (drop (line_end + 2) body)) < size) => {
              | left _ => Panic;
              | right _ =>
                  decode_loop (drop (Z.to_nat (u64_add size 2)) (drop (line_end + 2) body))
                    (out ++ take (Z.to_nat size) (drop (line_end + 2) body)) } } } } } }.
Next Obligation.
  intros body i _ size _ _ _ Hf. intros. apply find_crlf_bound in Hf. rewrite !length_drop. lia.
Qed.

Definition decode_chunked (body : Bytes) : exec (result Bytes AttestationError) := decode_loop body [].

(** ** The launcher's answer *)

(** [haystack.to_ascii_lowercase().windows(..).any(..)]. *)
Definition contains_ci (haystack needle : Bytes) : bool :=
  existsb (λ w, eq_ignore_ascii_case w needle) (windows (length needle) (to_ascii_lowercase <$> haystack)).

(** What [httparse] reads of a complete head: its length, the status code and the headers. *)
Record Head := { header_len : nat; hd_code : option Z; headers : list (Bytes * Bytes) }.
Inductive ParsedHead := HeadError | Partial | Complete (h : Head).

Section launcher.
Context (httparse : Bytes → ParsedHead) (to_json : Bytes → option Bytes → Bytes).

Definition is_chunked (h : Head) : bool :=
  existsb (λ '(name, value), eq_ignore_ascii_case name (into_bytes "transfer-encoding")
                             && contains_ci value (into_bytes "chunked")) (headers h).

Definition parse_http_response (raw : Bytes) : exec (result (list Z) AttestationError) :=
  match httparse raw with
  | HeadError => Ret (Err (BadResponse BadHead))
  | Partial => Ret (Err (BadResponse IncompleteResponse))
  | Complete h =>
      match hd_code h with
      | None => Ret (Err (BadResponse MissingStatusCode))
      | Some code =>
          if decide (code ≠ 200) then Ret (Err (HttpError code))
          else if decide (length raw < header_len h)%nat then Panic
          else
            let body := drop (header_len h) raw in
            decoded ←? (if is_chunked h then decode_chunked body else Ret (Ok body));
            Ret (match from_utf8 decoded with
                 | Some s => Ok (trim s)
                 | None => Err (BadResponse NotUtf8)
                 end)
      end
  end.

(** The bytes written to the socket. *)
Definition token_request (audience : Bytes) (nonce : option Bytes) : Bytes :=
  let body := to_json audience nonce in
  into_bytes "POST /v1/token HTTP/1.1" ++ crlf ++ into_bytes "Host: localhost" ++ crlf ++
  into_bytes "Content-Type: application/json" ++ crlf ++
  into_bytes "Content-Length: " ++ fmt_u64 (Z.of_nat (length body)) ++ crlf ++
  into_bytes "Connection: close" ++ crlf ++ crlf ++ body.

(** The socket: whether it exists, and what a request gets within the timeout. *)
Inductive SocketReply := TimedOut | IoFailed | Replied (raw : Bytes).
Record Socket := { launcher_present : bool; ask : Bytes → SocketReply }.

Definition fetch_oidc_token (sock : Socket) (audience : Bytes) (nonce : option Bytes) :
    exec (result (list Z) AttestationError) :=
  if launcher_present sock then
    match ask sock (token_request audience nonce) with
    | TimedOut => Ret (Err Timeout)
    | IoFailed => Ret (Err Io)
    | Replied raw => parse_http_response raw
    end
  else Ret (Err NoLauncherSocket).

(** ** [GET /pubkey] and [GET /health] *)

Definition ATTESTATION_AUDIENCE : Bytes := into_bytes "cerdic-tee-matcher".

Record PubkeyResponse := { pubkey_b64 : Bytes; settlement_address : Bytes; attestation : option (list Z) }.

(** [address] is the checksummed hexadecimal [Address::to_string] gives, ASCII. *)
Definition get_pubkey (sock : Socket) (public_key_b64 address : Bytes) : exec PubkeyResponse :=
  r ← fetch_oidc_token sock ATTESTATION_AUDIENCE (Some (to_ascii_lowercase <$> address));
  Ret {| pubkey_b64 := public_key_b64; settlement_address := address;
         attestation := match r with Ok token => Some token | Err _ => None end |}.

(** The [attested] field. *)
Definition get_health (sock : Socket) : bool := launcher_present sock.
End launcher.

(** ** The format *)

(** A line: no line break before its end. *)
Definition is_line (line : Bytes) : Prop :=
  ∀ j, (j < length line)%nat → take 2 (drop j (line ++ crlf)) ≠ crlf.

Definition size_line (line : Bytes) (size : Z) : Prop :=
  is_line line ∧ ∃ l, from_utf8 line = Some l ∧ from_str_radix 16 (size_hex l) = Some size.

(** [chunks body data rest]: the body starts with chunks that carry [data]; [rest] follows them. *)
Inductive chunks : Bytes → Bytes → Bytes → Prop :=
| chunks_nil rest : chunks rest [] rest
| chunks_cons line size chunk sep body data rest :
    size_line line size → size ≠ 0 → Z.of_nat (length chunk) = size → length sep = 2%nat →
    chunks body data rest →
    chunks (line ++ crlf ++ chunk ++ sep ++ body) (chunk ++ data) rest.

(** A whole body: chunks, and a chunk of size zero before the trailers. *)
Definition chunked (body data : Bytes) : Prop :=
  ∃ line trailers, chunks body data (line ++ crlf ++ trailers) ∧ size_line line 0.

(** Chunks, then a size line that wraps: [size + 2] is 0 or 1. *)
Definition overlong (body : Bytes) : Prop :=
  ∃ data line size rest,
    chunks body data (line ++ crlf ++ rest) ∧ size_line line size ∧
    2 ^ 64 - 2 ≤ size ≤ Z.of_nat (length rest) + 2 ^ 64 - 2.

(** ** Lemmas *)

Lemma find_crlf_line line rest : is_line line → find_crlf (line ++ crlf ++ rest) = Some (length line).
Proof.
  intros Hl. unfold find_crlf. apply fmap_Some. exists (length line, crlf). split; [|done].
  apply list_find_Some. split_and!; [|done|].
  - apply windows_lookup. rewrite !length_app. split; [cbn; lia|]. by rewrite drop_app_length.
  - intros j w (Hj & ->)%windows_lookup Hlt. specialize (Hl j Hlt).
    rewrite app_assoc, drop_app_le by (rewrite length_app; lia).
    by rewrite take_app_le by (rewrite length_drop, length_app; cbn; lia).
Qed.

Lemma find_crlf_inv s i :
  find_crlf s = Some i → ∃ rest, s = take i s ++ crlf ++ rest ∧ is_line (take i s) ∧ rest = drop (i + 2) s.
Proof.
  intros Hf. pose proof (find_crlf_bound _ _ Hf) as Hi. unfold find_crlf in Hf.
  apply fmap_Some in Hf as ([j w] & (Hj & Hw & Hmin)%list_find_Some & ->). cbn [fst] in *.
  apply windows_lookup in Hj as [_ Hj]. exists (drop (j + 2) s).
  assert (Hs : s = take j s ++ crlf ++ drop (j + 2) s).
  { rewrite <- Hw, Hj, <- drop_drop, take_drop. by rewrite take_drop. }
  split_and!; [done| |done]. intros k Hk. rewrite length_take in Hk.
  intros Hc. apply (Hmin k crlf); [|lia|done].
  apply windows_lookup. split; [lia|]. rewrite <- Hc.
  transitivity (take 2 (drop k ((take j s ++ crlf) ++ drop (j + 2) s))).
  - rewrite (drop_app_le (take j s ++ crlf)) by (rewrite length_app, length_take; cbn; lia).
    by rewrite take_app_le by (rewrite length_drop, length_app, length_take; cbn; lia).
  - by rewrite <- app_assoc, <- Hs.
Qed.

Lemma find_crlf_none s line rest : find_crlf s = None → is_line line → s ≠ line ++ crlf ++ rest.
Proof. intros Hf Hl ->. by rewrite find_crlf_line in Hf. Qed.

(** The line at the front of a body is unique. *)
Lemma line_unique line rest line' rest' :
  is_line line → is_line line' → line ++ crlf ++ rest = line' ++ crlf ++ rest' → line = line' ∧ rest = rest'.
Proof.
  intros Hl Hl' E. pose proof (find_crlf_line line rest Hl) as Hf. rewrite E, find_crlf_line in Hf by done.
  injection Hf as Hf. apply app_inj_1 in E as [-> E]; [|done]. by apply app_inj_1 in E as [_ ->].
Qed.

Lemma size_line_unique line n n' : size_line line n → size_line line n' → n = n'.
Proof. intros (_ & l & Hl & Hn) (_ & l' & Hl' & Hn'). by simplify_eq. Qed.

(** One turn of the loop, without the equations its termination needs. *)
Lemma decode_loop_turn body out :
  decode_loop body out =
    match find_crlf body with
    | None => Ret (Err (BadResponse MissingSizeLine))
    | Some i =>
        match from_utf8 (take i body) with
        | None => Ret (Err (BadResponse SizeLineNotUtf8))
        | Some l =>
            match from_str_radix 16 (size_hex l) with
            | None => Ret (Err (BadResponse BadSize))
            | Some n =>
                let rest := drop (i + 2) body in
                if decide (n = 0) then Ret (Ok out)
                else if decide (Z.of_nat (length rest) < u64_add n 2) then Ret (Err (BadResponse TruncatedChunk))
                else if decide (Z.of_nat (length rest) < n) then Panic
                else decode_loop (drop (Z.to_nat (u64_add n 2)) rest) (out ++ take (Z.to_nat n) rest)
            end
        end
    end.
Proof.
  rewrite decode_loop_equation_1. destruct (remember_eq (find_crlf body)) as [o Hf].
  match goal with |- _ = match _ with Some i => @?k i | None => ?e end =>
    transitivity (match o with Some i => k i | None => e end); [|by rewrite Hf] end.
  destruct o as [i|]; [|done].
  simpl. destruct (from_utf8 _) as [l|]; [|done]. simpl. destruct (from_str_radix _ _) as [n|]; [|done].
  simpl. destruct (decide (n = 0)); [done|]. simpl. case_decide; [done|]. simpl. by case_decide.
Qed.

Lemma size_line_range line n : size_line line n → in_u 64 n.
Proof. intros (_ & l & _ & Hn). by apply from_str_radix_range in Hn. Qed.

(** The turn, in terms of the line in front. *)
Lemma decode_loop_line line n rest out :
  size_line line n →
  decode_loop (line ++ crlf ++ rest) out =
    if decide (n = 0) then Ret (Ok out)
    else if decide (Z.of_nat (length rest) < u64_add n 2) then Ret (Err (BadResponse TruncatedChunk))
    else if decide (Z.of_nat (length rest) < n) then Panic
    else decode_loop (drop (Z.to_nat (u64_add n 2)) rest) (out ++ take (Z.to_nat n) rest).
Proof.
  intros (Hl & l & Hu & Hr). rewrite decode_loop_turn, find_crlf_line, take_app_length, Hu, Hr by done.
  cbv zeta. rewrite app_assoc, drop_app_length' by (by rewrite length_app). done.
Qed.

(** No chunk follows. *)
Definition no_chunk (s : Bytes) : Prop :=
  ∀ line n rest, s = line ++ crlf ++ rest → size_line line n → n = 0 ∨ Z.of_nat (length rest) < n + 2.

Lemma decode_loop_chunks body data rest out :
  chunks body data rest → in_u 63 (Z.of_nat (length body)) → decode_loop body out = decode_loop rest (out ++ data).
Proof.
  intros Hc. revert out. induction Hc as [rest|line n chunk sep body data rest Hl Hn Hlen Hsep Hc IH]; intros out Hb.
  - by rewrite app_nil_r.
  - assert (in_u 63 (Z.of_nat (length body))) as Hb' by (unfold in_u in *; rewrite !length_app in Hb; lia).
    rewrite decode_loop_line with (n := n) by done. rewrite decide_False by done.
    assert (u64_add n 2 = n + 2) as ->.
    { apply wrapu_small. unfold in_u in *. rewrite !length_app in Hb. lia. }
    rewrite !decide_False by (rewrite !length_app; lia).
    rewrite take_app_length' by lia. rewrite app_assoc, drop_app_length' by (rewrite length_app; lia).
    rewrite IH by done. by rewrite app_assoc.
Qed.

Lemma decide_no_chunk s :
  no_chunk s ∨ ∃ line n rest, s = line ++ crlf ++ rest ∧ size_line line n ∧ n ≠ 0 ∧ n + 2 ≤ Z.of_nat (length rest).
Proof.
  destruct (find_crlf s) as [i|] eqn:Hf.
  - apply find_crlf_inv in Hf as (rest & Hs & Hl & _). revert Hs Hl. generalize (take i s) as line. intros line Hs Hl.
    destruct (from_utf8 line ≫= λ l, from_str_radix 16 (size_hex l)) as [n|] eqn:Hn.
    + apply bind_Some in Hn as (l & Hu & Hr).
      assert (Hsl : size_line line n) by (split; [done|by exists l]).
      destruct (decide (n ≠ 0 ∧ n + 2 ≤ Z.of_nat (length rest))) as [[Hz Hle]|Hno].
      * right. by exists line, n, rest.
      * left. intros line' n' rest' Hs' Hsl'. rewrite Hs in Hs'.
        apply line_unique in Hs' as [-> ->]; [|done|apply Hsl'].
        rewrite (size_line_unique _ _ _ Hsl' Hsl). lia.
    + left. intros line' n' rest' Hs' Hsl'. rewrite Hs in Hs'.
      apply line_unique in Hs' as [-> ->]; [|done|apply Hsl'].
      destruct Hsl' as (_ & l & Hu & Hr). rewrite Hu in Hn. cbn in Hn. by rewrite Hr in Hn.
  - left. intros line n rest Hs Hl. exfalso. by eapply find_crlf_none; [|apply Hl|].
Qed.

(** Every body is chunks and something that is not one. *)
Lemma chunks_maximal body : ∃ data rest, chunks body data rest ∧ no_chunk rest.
Proof.
  induction body as [body IH] using (induction_ltof1 _ (@length _)). unfold ltof in IH.
  destruct (decide_no_chunk body) as [Hs|(line & n & rest & -> & Hl & Hn & Hlen)].
  - exists [], body. split; [constructor|done].
  - destruct (IH (drop (Z.to_nat n + 2) rest)) as (data & rest' & Hc & Hs).
    { rewrite !length_app, length_drop. cbn. lia. }
    exists (take (Z.to_nat n) rest ++ data), rest'. split; [|done].
    pose proof (size_line_range _ _ Hl) as Hr. unfold in_u in Hr.
    rewrite <- (take_drop (Z.to_nat n) rest) at 1.
    rewrite <- (take_drop 2 (drop (Z.to_nat n) rest)), drop_drop.
    apply chunks_cons with n; [done|done| | |done].
    + rewrite length_take. lia.
    + rewrite length_take, length_drop. lia.
Qed.

Lemma chunks_length body data rest : chunks body data rest → (length rest ≤ length body)%nat.
Proof. induction 1; [done|]. rewrite !length_app. lia. Qed.

Lemma chunks_terminated body data line trailers out :
  chunks body data (line ++ crlf ++ trailers) → size_line line 0 → in_u 63 (Z.of_nat (length body)) →
  decode_loop body out = Ret (Ok (out ++ data)).
Proof.
  intros Hc Hl Hb. rewrite (decode_loop_chunks _ _ _ _ Hc) by done.
  rewrite decode_loop_line with (n := 0) by done. done.
Qed.

(** The length test wraps. *)
Lemma u64_add_over n : 2 ^ 64 ≤ n + 2 → n < 2 ^ 64 → u64_add n 2 = n + 2 - 2 ^ 64.
Proof.
  intros. unfold u64_add, wrapu. replace (n + 2) with (n + 2 - 2 ^ 64 + 1 * 2 ^ 64) at 1 by lia.
  rewrite Z_mod_plus_full. apply Z.mod_small. lia.
Qed.

Lemma chunks_overlong body out :
  overlong body → in_u 63 (Z.of_nat (length body)) → decode_loop body out = Panic.
Proof.
  intros (data & line & n & rest & Hc & Hl & Hn) Hb. rewrite (decode_loop_chunks _ _ _ _ Hc) by done.
  pose proof (size_line_range _ _ Hl) as Hr. apply chunks_length in Hc. rewrite !length_app in Hc.
  assert (Hw : u64_add n 2 = n + 2 - 2 ^ 64).
  { apply u64_add_over; unfold in_u in *; lia. }
  unfold in_u in *. rewrite decode_loop_line with (n := n) by done. rewrite Hw.
  rewrite decide_False by lia. rewrite decide_False by lia. by rewrite decide_True by lia.
Qed.

(** At the first thing that is no chunk the loop ends. *)
Lemma decode_loop_no_chunk rest out :
  no_chunk rest → in_u 63 (Z.of_nat (length rest)) →
  (∃ line trailers, rest = line ++ crlf ++ trailers ∧ size_line line 0 ∧ decode_loop rest out = Ret (Ok out)) ∨
  (∃ line size r, rest = line ++ crlf ++ r ∧ size_line line size ∧
     2 ^ 64 - 2 ≤ size ≤ Z.of_nat (length r) + 2 ^ 64 - 2 ∧ decode_loop rest out = Panic) ∨
  ∃ why, decode_loop rest out = Ret (Err (BadResponse why)).
Proof.
  intros Hno Hb. rewrite decode_loop_turn. destruct (find_crlf rest) as [i|] eqn:Hf; [|eauto].
  apply find_crlf_inv in Hf as (r & Hs & Hl & <-). revert Hs Hl. generalize (take i rest) as line. intros line Hs Hl.
  destruct (from_utf8 line) as [l|] eqn:Hu; [|eauto]. destruct (from_str_radix 16 (size_hex l)) as [n|] eqn:Hr; [|eauto].
  assert (Hsl : size_line line n) by (split; [done|by exists l]). cbv zeta.
  pose proof (size_line_range _ _ Hsl) as Hn. specialize (Hno line n r Hs Hsl).
  case_decide as Hz; [left; exists line, r; by rewrite <- Hz|]. right. case_decide as H1; [eauto|]. left.
  rewrite Hs, !length_app in Hb. unfold in_u in *.
  destruct (decide (n + 2 < 2 ^ 64)); [unfold u64_add in H1; rewrite wrapu_small in H1 by (unfold in_u; lia); lia|].
  pose proof (u64_add_over n ltac:(lia) ltac:(lia)) as Hw.
  rewrite Hw in H1. exists line, n, r. split_and!; [done|done|lia|lia|]. by rewrite decide_True by lia.
Qed.

(** ** Theorems *)

(** The chunked decoder ends on every body and returns exactly what the wire format says: the
    data of the chunks when the body is chunks, a chunk of size zero and trailers, whatever the
    extensions and the number of chunks.  It aborts on exactly one family of bodies, those whose size
    line after some chunks is 2^64-2 or 2^64-1, for which the length test wraps; on any other body
    it returns an error. *)
Theorem decode_chunked_exact body :
  in_u 63 (Z.of_nat (length body)) →
  (∀ data, decode_chunked body = Ret (Ok data) ↔ chunked body data) ∧
  (decode_chunked body = Panic ↔ overlong body) ∧
  (¬ overlong body → (¬ ∃ data, chunked body data) → ∃ why, decode_chunked body = Ret (Err (BadResponse why))).
Proof.
  intros Hb. unfold decode_chunked. destruct (chunks_maximal body) as (data & rest & Hc & Hno).
  pose proof (chunks_length _ _ _ Hc) as Hlen.
  destruct (decode_loop_no_chunk rest data Hno) as
    [(line & tr & -> & Hl & E)|[(line & n & r & -> & Hl & Hn & E)|(why & E)]]; [unfold in_u in *; lia|..];
    pose proof (decode_loop_chunks _ _ _ [] Hc Hb) as Hd; cbn [app] in Hd; rewrite E in Hd;
    (assert (Hok : ∀ d, chunked body d → decode_loop body [] = Ret (Ok d))
      by (intros d (l0 & t0 & Hc0 & Hl0); exact (chunks_terminated body d l0 t0 [] Hc0 Hl0 Hb)));
    pose proof (λ Ho, chunks_overlong body [] Ho Hb) as Hpanic.
  - split_and!.
    + intros d. split; [|apply Hok]. rewrite Hd. intros [= <-]. by exists line, tr.
    + split; [congruence|]. intros Ho%Hpanic. congruence.
    + intros _ []. by exists data, line, tr.
  - assert (Ho : overlong body) by (by exists data, line, n, r). split_and!.
    + intros d. split; [congruence|]. intros Hd'%Hok. congruence.
    + done.
    + by intros [].
  - split_and!.
    + intros d. split; [congruence|]. intros Hd'%Hok. congruence.
    + split; [congruence|]. intros Ho%Hpanic. congruence.
    + intros _ _. by exists why.
Qed.

(** Two chunks, the first with an extension. *)
Definition demo_body : Bytes :=
  into_bytes "5;x" ++ crlf ++ into_bytes "hello" ++ crlf ++
  (into_bytes "6" ++ crlf ++ into_bytes " world" ++ crlf ++ (into_bytes "0" ++ crlf ++ crlf)).

Lemma is_line_forall line :
  Forall (λ j, take 2 (drop j (line ++ crlf)) ≠ crlf) (seq 0 (length line)) → is_line line.
Proof. intros Hf j Hj. apply (proj1 (Forall_forall _ _) Hf). apply elem_of_seq. lia. Qed.

Ltac solve_size_line :=
  split; [apply is_line_forall; refine (bool_decide_unpack _ _); vm_compute; exact I|];
  eexists; split; [vm_compute; reflexivity|vm_compute; reflexivity].

Lemma demo_chunked : chunked demo_body (into_bytes "hello world").
Proof.
  exists (into_bytes "0"), crlf. split; [|solve_size_line].
  apply (chunks_cons (into_bytes "5;x") 5 (into_bytes "hello") crlf _ (into_bytes " world")); [solve_size_line|done..|].
  apply (chunks_cons (into_bytes "6") 6 (into_bytes " world") crlf _ []); [solve_size_line|done..|]. constructor.
Qed.

Lemma decode_chunked_exact_witness :
  decode_chunked demo_body = Ret (Ok (into_bytes "hello world")) ∧
  decode_chunked (into_bytes "fffffffffffffffe" ++ crlf) = Panic ∧
  ∃ why, decode_chunked (into_bytes "z" ++ crlf) = Ret (Err (BadResponse why)).
Proof.
  split_and!.
  - apply (decode_chunked_exact demo_body); [by vm_compute|apply demo_chunked].
  - apply (decode_chunked_exact (into_bytes "fffffffffffffffe" ++ crlf)); [by vm_compute|].
    exists [], (into_bytes "fffffffffffffffe"), (2 ^ 64 - 2), []. split_and!; [constructor|solve_size_line|by vm_compute..].
  - exists BadSize. by vm_compute.
Defined.

(** The token reaches the client.  When the launcher answers with status 200, the token that
    [/pubkey] returns is the text of the body without the white space around it, whether or not the
    body came in chunks and wherever the chunks split it; the request binds the lower-case
    settlement address.  Without a socket, on a timeout or under any other status the response
    carries no token, and the key and the address are returned all the same. *)
Theorem pubkey_carries_token httparse to_json sock key address :
  let nonce := Some (to_ascii_lowercase <$> address) in
  let reply := ask sock (token_request to_json ATTESTATION_AUDIENCE nonce) in
  let response token := Ret {| pubkey_b64 := key; settlement_address := address; attestation := token |} in
  (∀ raw h b token b',
     launcher_present sock = true → reply = Replied raw → httparse raw = Complete h → hd_code h = Some 200 →
     (header_len h ≤ length raw)%nat → in_u 63 (Z.of_nat (length raw)) →
     Forall is_scalar (b ++ token ++ b') → blank b → solid token → blank b' →
     (if is_chunked h then chunked (drop (header_len h) raw) (to_utf8 (b ++ token ++ b'))
      else drop (header_len h) raw = to_utf8 (b ++ token ++ b')) →
     get_pubkey httparse to_json sock key address = response (Some token)) ∧
  (∀ raw h code,
     launcher_present sock = true → reply = Replied raw → httparse raw = Complete h → hd_code h = Some code →
     code ≠ 200 → get_pubkey httparse to_json sock key address = response None) ∧
  (launcher_present sock = false ∨ reply = TimedOut ∨ reply = IoFailed →
   get_pubkey httparse to_json sock key address = response None).
Proof.
  intros nonce reply response. unfold get_pubkey, fetch_oidc_token. fold nonce reply. split_and!.
  - intros raw h b token b' Hp Hr Hh Hc Hlen Hin Hs Hb Ht Hb' Hbody. rewrite Hp, Hr. unfold parse_http_response.
    rewrite Hh, Hc, decide_False by naive_solver. rewrite decide_False by lia. cbv zeta.
    assert (Hd : (if is_chunked h then decode_chunked (drop (header_len h) raw) else Ret (Ok (drop (header_len h) raw)))
      = Ret (Ok (to_utf8 (b ++ token ++ b')) : result Bytes AttestationError)).
    { destruct (is_chunked h); [|by rewrite Hbody]. destruct Hbody as (l & tr & Hch & Hl).
      apply (chunks_terminated _ _ l tr [] Hch Hl). unfold in_u in *. rewrite length_drop. lia. }
    rewrite Hd. cbn [try_bind]. rewrite from_to_utf8, trim_solid by done. done.
  - intros raw h code Hp Hr Hh Hc Hne. rewrite Hp, Hr. unfold parse_http_response.
    by rewrite Hh, Hc, decide_True.
  - intros [Hp|[Hr|Hr]]; [by rewrite Hp|..]; rewrite Hr; by destruct (launcher_present sock).
Qed.

(** A launcher that answers with [demo_body] in chunks, behind a head of one byte. *)
Definition demo_sock : Socket := {| launcher_present := true; ask := λ _, Replied (cr :: demo_body) |}.
Definition demo_parse (raw : Bytes) : ParsedHead :=
  Complete {| header_len := 1; hd_code := Some 200;
              headers := [(into_bytes "Transfer-Encoding", into_bytes "gzip, Chunked")] |}.

Lemma pubkey_carries_token_witness :
  get_pubkey demo_parse (λ a _, a) demo_sock [] (into_bytes "0xAb") =
    Ret {| pubkey_b64 := []; settlement_address := into_bytes "0xAb";
           attestation := Some (byte_value <$> into_bytes "hello world") |}.
Proof.
  destruct (pubkey_carries_token demo_parse (λ a _, a) demo_sock [] (into_bytes "0xAb")) as [H _].
  apply (H (cr :: demo_body) {| header_len := 1; hd_code := Some 200;
           headers := [(into_bytes "Transfer-Encoding", into_bytes "gzip, Chunked")] |} []
           (byte_value <$> into_bytes "hello world") []); try done.
  - vm_compute. lia.
  - refine (bool_decide_unpack _ _). vm_compute. exact I.
  - constructor.
  - split; [by eexists _, _|]. exists (byte_value <$> into_bytes "hello worl"), 100. by vm_compute.
  - constructor.
  - apply demo_chunked.
Defined.
