(* ===== verification/Secrets.v ===== *)
(** * The enclave's long-lived secrets ([kms.rs])

    Recovering the three secrets at boot from an object wrapped by a key service, or generating and
    storing them.  HTTP is an interface: a world, and what a request does to it and gets back.
    Base64, hexadecimal decoding, the reading of a JSON field and [keccak256] are third-party, hence
    parameters.  Text is code points, what is sent is bytes. *)
From S2P Require Import Prelude Ints Text.
Open Scope Z_scope.

(** ** HTTP *)

Inductive Method := GET | POST.
Inductive Body := NoBody | Octets (b : Bytes) | Json (field : string) (value : Bytes).

Record HttpRequest := {
  rq_method : Method;
  rq_url : Bytes;
  rq_bearer : option Bytes;
  rq_headers : list (string * string);
  rq_body : Body;
}.

(** The network and the random source.  A request that is not answered within the timeout gives
    [None], an answered one its status and its body. *)
Class Http (W : Type) := {
  build_client : W → bool;
  send : W → HttpRequest → W * option (Z * Bytes);
  fill_bytes : W → nat → W * Bytes;
}.

(** [StatusCode::is_success]. *)
Definition is_success (code : Z) : bool := bool_decide (200 ≤ code ≤ 299).

(** ** Errors *)

Inductive HttpFailure := SendFailed | Status (code : Z) | Malformed.

Inductive KmsError :=
| NotConfigured
| MetadataUnreachable (why : HttpFailure)
| Gcs (why : HttpFailure)
| Kms (why : HttpFailure)
| BadLength (n : Z).

(** ** The secrets *)

Definition SECRET_BYTES_LEN : nat := 96.

Record EnclaveSecrets := {
  sealed_key : Bytes;
  settlement_signer_seed : Bytes;
  portfolio_key_secret : Bytes;
}.

(** Arrays of 32 bytes. *)
Record secrets_wf (s : EnclaveSecrets) : Prop := {
  sw_sealed : length (sealed_key s) = 32%nat;
  sw_signer : length (settlement_signer_seed s) = 32%nat;
  sw_portfolio : length (portfolio_key_secret s) = 32%nat;
}.

Definition generate {W} `{Http W} (w : W) : W * EnclaveSecrets :=
  let '(w, a) := fill_bytes w 32 in
  let '(w, b) := fill_bytes w 32 in
  let '(w, c) := fill_bytes w 32 in
  (w, {| sealed_key := a; settlement_signer_seed := b; portfolio_key_secret := c |}).

Definition to_bytes (s : EnclaveSecrets) : Bytes :=
  sealed_key s ++ settlement_signer_seed s ++ portfolio_key_secret s.

Definition from_bytes (bytes : Bytes) : result EnclaveSecrets KmsError :=
  if decide (length bytes ≠ SECRET_BYTES_LEN) then Err (BadLength (Z.of_nat (length bytes)))
  else Ok {| sealed_key := take 32 bytes; settlement_signer_seed := take 32 (drop 32 bytes);
             portfolio_key_secret := take 32 (drop 64 bytes) |}.

(** ** Percent-encoding of object names *)

Definition is_ascii_alphanumeric (c : Z) : bool :=
  bool_decide (48 ≤ c ≤ 57) || bool_decide (65 ≤ c ≤ 90) || bool_decide (97 ≤ c ≤ 122).

(** The hexadecimal digits of a number, upper case, without leading zeros. *)
Definition hex_digit (d : Z) : Ascii.ascii := byte (if decide (d < 10) then 48 + d else 55 + d).
Fixpoint hex_digits (fuel : nat) (n : Z) (acc : Bytes) : Bytes :=
  match fuel with
  | O => acc
  | S fuel =>
      let acc := hex_digit (n mod 16) :: acc in if decide (n < 16) then acc else hex_digits fuel (n / 16) acc
  end.

(** [{:02X}] of a [u32], at most eight digits. *)
Definition fmt_02X (n : Z) : Bytes :=
  if decide (n < 16) then hex_digit 0 :: hex_digits 8 n [] else hex_digits 8 n [].

Definition urlencoding_component (s : list Z) : Bytes :=
  s ≫= λ c,
    if is_ascii_alphanumeric c || bool_decide (c ∈ [45; 95; 46; 126; 47]) then [byte c]
    else byte 37 :: fmt_02X c.

(** ** The cloud services *)

Section services.
Context {W : Type} `{Http W}.
(** A string field of a JSON object; base64 and hexadecimal; [keccak256]. *)
Context (json_field : string → Bytes → option Bytes).
Context (b64_encode : Bytes → Bytes) (b64_decode hex_decode : Bytes → option Bytes).
Context (keccak256 : Bytes → Bytes).

Definition METADATA_TOKEN_URL : Bytes :=
  into_bytes "http://metadata.google.internal/computeMetadata/v1/instance/service-accounts/default/token".

(** The body of a successful answer. *)
Definition success_body (reply : option (Z * Bytes)) : result Bytes HttpFailure :=
  match reply with
  | None => Err SendFailed
  | Some (code, body) => if is_success code then Ok body else Err (Status code)
  end.

Definition fetch_access_token (w : W) : W * result Bytes KmsError :=
  let '(w, reply) := send w {|
    rq_method := GET; rq_url := METADATA_TOKEN_URL; rq_bearer := None;
    rq_headers := [("Metadata-Flavor", "Google")]; rq_body := NoBody |} in
  (w, match success_body reply with
      | Err e => Err (MetadataUnreachable e)
      | Ok body => ok_or (json_field "access_token" body) (MetadataUnreachable Malformed)
      end).

Definition object_url (bucket object : list Z) : Bytes :=
  into_bytes "https://storage.googleapis.com/storage/v1/b/" ++ to_utf8 bucket ++ into_bytes "/o/" ++
  urlencoding_component object ++ into_bytes "?alt=media".

Definition gcs_get (w : W) (token : Bytes) (bucket object : list Z) : W * result (option Bytes) KmsError :=
  let '(w, reply) := send w {|
    rq_method := GET; rq_url := object_url bucket object; rq_bearer := Some token;
    rq_headers := []; rq_body := NoBody |} in
  (w, match reply with
      | None => Err (Gcs SendFailed)
      | Some (code, body) =>
          if decide (code = 404) then Ok None
          else if is_success code then Ok (Some body) else Err (Gcs (Status code))
      end).

Definition upload_url (bucket object : list Z) : Bytes :=
  into_bytes "https://storage.googleapis.com/upload/storage/v1/b/" ++ to_utf8 bucket ++
  into_bytes "/o?uploadType=media&name=" ++ urlencoding_component object.

Definition gcs_put (w : W) (token : Bytes) (bucket object : list Z) (bytes : Bytes) : W * result unit KmsError :=
  let '(w, reply) := send w {|
    rq_method := POST; rq_url := upload_url bucket object; rq_bearer := Some token;
    rq_headers := [("Content-Type", "application/octet-stream")]; rq_body := Octets bytes |} in
  (w, match success_body reply with Err e => Err (Gcs e) | Ok _ => Ok tt end).

Definition kms_url (key_name : list Z) (action : string) : Bytes :=
  into_bytes "https://cloudkms.googleapis.com/v1/" ++ to_utf8 key_name ++ into_bytes action.

Definition kms_encrypt (w : W) (token : Bytes) (key_name : list Z) (plaintext : Bytes) : W * result Bytes KmsError :=
  let '(w, reply) := send w {|
    rq_method := POST; rq_url := kms_url key_name ":encrypt"; rq_bearer := Some token;
    rq_headers := []; rq_body := Json "plaintext" (b64_encode plaintext) |} in
  (w, match success_body reply with
      | Err e => Err (Kms e)
      | Ok body => ok_or (json_field "ciphertext" body ≫= b64_decode) (Kms Malformed)
      end).

Definition kms_decrypt (w : W) (token : Bytes) (key_name : list Z) (ciphertext : Bytes) : W * result Bytes KmsError :=
  let '(w, reply) := send w {|
    rq_method := POST; rq_url := kms_url key_name ":decrypt"; rq_bearer := Some token;
    rq_headers := []; rq_body := Json "ciphertext" (b64_encode ciphertext) |} in
  (w, match success_body reply with
      | Err e => Err (Kms e)
      | Ok body => ok_or (json_field "plaintext" body ≫= b64_decode) (Kms Malformed)
      end).

(** ** Recovery *)

Context (var : string → option (list Z)).

Definition try_recover_or_generate (w : W) : W * result EnclaveSecrets KmsError :=
  match var "CERDIC_KMS_KEY_NAME", var "CERDIC_STATE_BUCKET" with
  | Some kms_key, Some bucket =>
      let object := default (byte_value <$> into_bytes "enclave-secrets.bin") (var "CERDIC_STATE_OBJECT") in
      if negb (build_client w) then (w, Err (Kms SendFailed))
      else match fetch_access_token w with
      | (w, Err e) => (w, Err e)
      | (w, Ok token) =>
          match gcs_get w token bucket object with
          | (w, Err e) => (w, Err e)
          | (w, Ok (Some wrapped)) =>
              match kms_decrypt w token kms_key wrapped with
              | (w, Err e) => (w, Err e)
              | (w, Ok plaintext) => (w, from_bytes plaintext)
              end
          | (w, Ok None) =>
              let '(w, secrets) := generate w in
              match kms_encrypt w token kms_key (to_bytes secrets) with
              | (w, Err e) => (w, Err e)
              | (w, Ok wrapped) =>
                  match gcs_put w token bucket object wrapped with
                  | (w, Err e) => (w, Err e)
                  | (w, Ok _) => (w, Ok secrets)
                  end
              end
          end
      end
  | _, _ => (w, Err NotConfigured)
  end.

Definition from_dev_seed (seed_hex : Bytes) : result EnclaveSecrets KmsError :=
  let seed_hex := match seed_hex with
                  | a :: b :: rest => if decide ([a; b] = into_bytes "0x") then rest else seed_hex
                  | _ => seed_hex
                  end in
  match hex_decode seed_hex with
  | None => Err (BadLength (Z.of_nat (length seed_hex)))
  | Some seed =>
      let derive label := keccak256 (seed ++ into_bytes label) in
      Ok {| sealed_key := derive "sealed_key"%string;
            settlement_signer_seed := derive "settlement_signer_seed"%string;
            portfolio_key_secret := derive "portfolio_key_secret"%string |}
  end.

Definition recover_or_generate (w : W) : W * EnclaveSecrets :=
  match var "CERDIC_DEV_SECRETS_SEED" ≫= λ seed_hex,
          match from_dev_seed (to_utf8 seed_hex) with Ok secrets => Some secrets | Err _ => None end with
  | Some secrets => (w, secrets)
  | None =>
      match try_recover_or_generate w with
      | (w, Ok secrets) => (w, secrets)
      | (w, Err _) => generate w
      end
  end.
End services.
