(* ===== verification/SecretsProps.v ===== *)
(** * The enclave's secrets: theorems

    The laws of the object store and of the key service, and what they give: the secrets of one boot
    are those of the next. *)
From S2P Require Import Prelude Ints Text Secrets.
Open Scope Z_scope.

(** ** The services as documented *)

(** The content of the object, and what a ciphertext of the key opens to.  Only an upload to the
    object changes it; a ciphertext opens to what was encrypted, for good; what is decrypted is what
    the ciphertext opens to. *)
Class CloudLaws {W} `{Http W} (json_field : string → Bytes → option Bytes) (b64_encode : Bytes → Bytes)
    (b64_decode : Bytes → option Bytes) (key bucket object : list Z) := {
  stored : W → option Bytes;
  opens : W → Bytes → Bytes → Prop;
  fill_length w n : length (snd (fill_bytes w n)) = n;
  fill_stored w n : stored (fst (fill_bytes w n)) = stored w;
  fill_opens w n c p : opens w c p → opens (fst (fill_bytes w n)) c p;
  send_opens w rq c p : opens w c p → opens (fst (send w rq)) c p;
  send_stored w rq :
    rq_method rq = GET ∨ rq_url rq ≠ upload_url bucket object → stored (fst (send w rq)) = stored w;
  get_answer w rq code body :
    rq_method rq = GET → rq_url rq = object_url bucket object → snd (send w rq) = Some (code, body) →
    (code = 404 → stored w = None) ∧ (is_success code = true → stored w = Some body);
  put_answer w rq code body content :
    rq_method rq = POST → rq_url rq = upload_url bucket object → rq_body rq = Octets content →
    snd (send w rq) = Some (code, body) → is_success code = true → stored (fst (send w rq)) = Some content;
  encrypt_answer w rq code body p c :
    rq_url rq = kms_url key ":encrypt" → rq_body rq = Json "plaintext" (b64_encode p) →
    snd (send w rq) = Some (code, body) → is_success code = true →
    json_field "ciphertext" body ≫= b64_decode = Some c → opens (fst (send w rq)) c p;
  decrypt_answer w rq code body p c :
    rq_url rq = kms_url key ":decrypt" → rq_body rq = Json "ciphertext" (b64_encode c) →
    snd (send w rq) = Some (code, body) → is_success code = true →
    json_field "plaintext" body ≫= b64_decode = Some p → opens w c p;
  opens_unique w c p p' : opens w c p → opens w c p' → p = p';
}.

(** ** Bytes *)

Lemma from_to_bytes s : secrets_wf s → from_bytes (to_bytes s) = Ok s.
Proof.
  destruct s as [a b c]. intros [Ha Hb Hc]. cbn in Ha, Hb, Hc. unfold from_bytes, to_bytes.
  cbn [sealed_key settlement_signer_seed portfolio_key_secret].
  rewrite decide_False by (rewrite !length_app, Ha, Hb, Hc; by intros []). do 2 f_equal.
  - by rewrite take_app_length'.
  - by rewrite drop_app_length', take_app_length'.
  - rewrite app_assoc, drop_app_length' by (rewrite length_app; lia). by rewrite take_ge by lia.
Qed.

Lemma from_bytes_wf bs s : from_bytes bs = Ok s → secrets_wf s ∧ to_bytes s = bs.
Proof.
  unfold from_bytes. case_decide as Hl; [done|]. intros [= <-]. unfold SECRET_BYTES_LEN in Hl. split.
  - split; cbn; rewrite length_take, ?length_drop; lia.
  - unfold to_bytes. cbn.
    assert (take 32 (drop 64 bs) = drop 64 bs) as -> by (apply take_ge; rewrite length_drop; lia).
    replace (drop 64 bs) with (drop 32 (drop 32 bs)) by by rewrite drop_drop.
    by rewrite !take_drop.
Qed.

(** ** The services keep what they hold *)

Section laws.
Context {W : Type} `{Http W} (json_field : string → Bytes → option Bytes) (b64_encode : Bytes → Bytes).
Context (b64_decode hex_decode : Bytes → option Bytes) (keccak256 : Bytes → Bytes).
Context (key bucket object : list Z) `{L : !CloudLaws json_field b64_encode b64_decode key bucket object}.

(** What is stored stays, what opens keeps opening. *)
Definition keeps (w w' : W) : Prop := stored w' = stored w ∧ ∀ c p, opens w c p → opens w' c p.

#[export] Instance keeps_preorder : PreOrder keeps.
Proof.
  split; [by intros w|]. intros w1 w2 w3 [H1 O1] [H2 O2]. split; [congruence|auto].
Qed.

Lemma send_keeps w rq w' reply :
  send w rq = (w', reply) → rq_method rq = GET ∨ rq_url rq ≠ upload_url bucket object → keeps w w'.
Proof.
  intros E Hrq. pose proof (send_stored w rq Hrq) as Hs. pose proof (send_opens w rq) as Ho.
  rewrite E in Hs, Ho. by split.
Qed.

Lemma generate_keeps w w' s : generate w = (w', s) → keeps w w' ∧ secrets_wf s.
Proof.
  unfold generate. destruct (fill_bytes w 32) as [w1 a] eqn:E1, (fill_bytes w1 32) as [w2 b] eqn:E2,
    (fill_bytes w2 32) as [w3 c] eqn:E3. intros [= <- <-].
  pose proof (fill_length w 32) as H1. pose proof (fill_length w1 32) as H2. pose proof (fill_length w2 32) as H3.
  pose proof (fill_stored w 32) as S1. pose proof (fill_stored w1 32) as S2. pose proof (fill_stored w2 32) as S3.
  pose proof (fill_opens w 32) as O1. pose proof (fill_opens w1 32) as O2. pose proof (fill_opens w2 32) as O3.
  rewrite E1 in *. rewrite E2 in *. rewrite E3 in *. cbn in *. split; [|done]. split; [congruence|eauto].
Qed.

Lemma token_keeps w w' r : fetch_access_token json_field w = (w', r) → keeps w w'.
Proof.
  unfold fetch_access_token. destruct (send w _) as [w1 reply] eqn:E. intros [= <- <-].
  apply (send_keeps _ _ _ _ E). by left.
Qed.

Lemma get_keeps w w' token r :
  gcs_get w token bucket object = (w', r) →
  keeps w w' ∧ match r with Ok content => stored w = content | Err _ => True end.
Proof.
  unfold gcs_get. destruct (send w _) as [w1 reply] eqn:E. intros [= <- <-].
  split; [apply (send_keeps _ _ _ _ E); by left|]. destruct reply as [[code body]|]; [|done].
  pose proof (f_equal snd E) as Ea. apply get_answer in Ea as [H1 H2]; [|done..].
  case_decide; [by rewrite H1|]. destruct (is_success code); [by rewrite H2|done].
Qed.

(** The answer of a successful request. *)
Lemma success_body_Ok reply body :
  success_body reply = Ok body → ∃ code, reply = Some (code, body) ∧ is_success code = true.
Proof. destruct reply as [[code b]|]; [|done]. cbn. case_match eqn:Hc; [|done]. intros [= <-]. by exists code. Qed.

(** A key service request is no upload. *)
Lemma kms_not_upload k action b o : kms_url k action ≠ upload_url b o.
Proof. unfold kms_url, upload_url. intros E. do 8 (apply (f_equal (drop 1)) in E; cbn in E). discriminate E. Qed.

Lemma encrypt_keeps w w' token p r :
  kms_encrypt json_field b64_encode b64_decode w token key p = (w', r) →
  keeps w w' ∧ match r with Ok c => opens w' c p | Err _ => True end.
Proof.
  unfold kms_encrypt. destruct (send w _) as [w1 reply] eqn:E. intros [= <- <-].
  split; [apply (send_keeps _ _ _ _ E); right; apply kms_not_upload|].
  destruct (success_body reply) as [body|] eqn:Hs; [|done]. apply success_body_Ok in Hs as (code & -> & Hc).
  destruct (json_field "ciphertext" body ≫= b64_decode) as [c|] eqn:Hd; [|done]. cbn [ok_or].
  pose proof (f_equal snd E) as Ea. eapply encrypt_answer in Ea; [|done..]. by rewrite E in Ea.
Qed.

Lemma decrypt_keeps w w' token c r :
  kms_decrypt json_field b64_encode b64_decode w token key c = (w', r) →
  keeps w w' ∧ match r with Ok p => opens w c p | Err _ => True end.
Proof.
  unfold kms_decrypt. destruct (send w _) as [w1 reply] eqn:E. intros [= <- <-].
  split; [apply (send_keeps _ _ _ _ E); right; apply kms_not_upload|].
  destruct (success_body reply) as [body|] eqn:Hs; [|done]. apply success_body_Ok in Hs as (code & -> & Hc).
  destruct (json_field "plaintext" body ≫= b64_decode) as [p|] eqn:Hd; [|done]. cbn [ok_or].
  pose proof (f_equal snd E) as Ea. by eapply decrypt_answer in Ea.
Qed.

Lemma put_keeps w w' token content r :
  gcs_put w token bucket object content = (w', r) →
  (∀ c p, opens w c p → opens w' c p) ∧ (r = Ok tt → stored w' = Some content).
Proof.
  unfold gcs_put. destruct (send w _) as [w1 reply] eqn:E. intros [= <- <-]. split.
  - intros c p Ho. pose proof (send_opens w {|
      rq_method := POST; rq_url := upload_url bucket object; rq_bearer := Some token;
      rq_headers := [("Content-Type", "application/octet-stream")]; rq_body := Octets content |} c p Ho) as Hs.
    by rewrite E in Hs.
  - destruct (success_body reply) as [body|] eqn:Hs; [|done]. intros _.
    apply success_body_Ok in Hs as (code & -> & Hc).
    pose proof (f_equal snd E) as Ea. eapply put_answer in Ea; [|done..]. by rewrite E in Ea.
Qed.

(** ** One boot *)

Context (var : string → option (list Z)).
Context (Hkey : var "CERDIC_KMS_KEY_NAME" = Some key) (Hbucket : var "CERDIC_STATE_BUCKET" = Some bucket).
Context (Hobject : default (byte_value <$> into_bytes "enclave-secrets.bin") (var "CERDIC_STATE_OBJECT") = object).

#[local] Abbreviation try_recover := (try_recover_or_generate json_field b64_encode b64_decode var).
#[local] Abbreviation recover := (recover_or_generate json_field b64_encode b64_decode hex_decode keccak256 var).

(** The object holds the secrets. *)
Definition holds_secrets (w : W) (s : EnclaveSecrets) : Prop :=
  secrets_wf s ∧ ∃ c, stored w = Some c ∧ opens w c (to_bytes s).

Lemma keeps_holds w w' s : keeps w w' → holds_secrets w s → holds_secrets w' s.
Proof. intros [Hs Ho] (Hwf & c & Hc & Hop). split; [done|]. exists c. split; [congruence|auto]. Qed.

(** A boot that finds the object writes nothing; one that recovers or generates its secrets leaves
    an object with them. *)
Lemma try_recover_spec w w' r :
  try_recover w = (w', r) →
  (stored w ≠ None → keeps w w') ∧
  ∀ s, r = Ok s → holds_secrets w' s ∧ ∀ t, holds_secrets w t → s = t.
Proof.
  unfold try_recover_or_generate. rewrite Hkey, Hbucket, Hobject. cbv zeta.
  destruct (build_client w); cbn [negb]; [|by intros [= <- <-]].
  destruct (fetch_access_token json_field w) as [w1 [token|e]] eqn:Et; apply token_keeps in Et; [|by intros [= <- <-]].
  destruct (gcs_get w1 token bucket object) as [w2 [[wrapped|]|e]] eqn:Eg; apply get_keeps in Eg as [Hg Hst].
  - destruct (kms_decrypt _ _ _ w2 token key wrapped) as [w3 [p|e]] eqn:Ed; apply decrypt_keeps in Ed as [Hd Hp];
      intros [= <- <-]; (split; [intros _; by rewrite Et, Hg|]); [|done].
    intros s Hs. apply from_bytes_wf in Hs as [Hwf <-]. split.
    + apply (keeps_holds w2); [done|]. split; [done|]. exists wrapped. destruct Hg as [-> _]. done.
    + intros t Ht. assert (holds_secrets w2 t) as (Hwft & c & Hc & Ho) by (apply (keeps_holds w); [by rewrite Et|done]).
      destruct Hg as [Hs2 _]. assert (wrapped = c) as -> by congruence.
      pose proof (opens_unique _ _ _ _ Hp Ho) as Heq. apply (f_equal from_bytes) in Heq.
      rewrite !from_to_bytes in Heq by done. by injection Heq.
  - destruct (generate w2) as [w3 s] eqn:Eg2. apply generate_keeps in Eg2 as [Hgen Hwf].
    assert (Hnone : stored w = None) by (destruct Et as [Hs1 _]; congruence).
    destruct (kms_encrypt _ _ _ w3 token key (to_bytes s)) as [w4 [c|e]] eqn:Ee; apply encrypt_keeps in Ee as [He Ho];
      [|by intros [= <- <-]].
    destruct (gcs_put w4 token bucket object c) as [w5 [[]|e]] eqn:Ep; apply put_keeps in Ep as [Hpo Hps];
      intros [= <- <-]; (split; [done|]); [|done].
    intros s' [= <-]. split.
    + split; [done|]. exists c. split; [by apply Hps|auto].
    + intros t (_ & c' & Hc' & _). congruence.
  - intros [= <- <-]. split; [|done]. intros _. by rewrite Et, Hg.
Qed.

Context (Hseed : var "CERDIC_DEV_SECRETS_SEED" = None).

Lemma recover_try w :
  recover w = match try_recover w with (w, Ok secrets) => (w, secrets) | (w, Err _) => generate w end.
Proof. unfold recover_or_generate. by rewrite Hseed. Qed.

Lemma recover_keeps w : stored w ≠ None → keeps w (fst (recover w)).
Proof.
  intros Hw. rewrite recover_try. destruct (try_recover w) as [w1 r] eqn:E.
  apply try_recover_spec in E as [Hk _]. specialize (Hk Hw). destruct r as [s|e]; [done|].
  destruct (generate w1) as [w2 s] eqn:Eg. apply generate_keeps in Eg as [Hg _]. by rewrite Hk.
Qed.

(** ** Boots *)

Context (elapse : W → W) (Helapse : ∀ w, keeps w (elapse w)).

(** A sequence of boots, time passing between them: whether each recovered, and what it runs with. *)
Fixpoint boots (n : nat) (w : W) : list (result EnclaveSecrets KmsError * EnclaveSecrets) :=
  match n with
  | O => []
  | S n => (snd (try_recover w), snd (recover w)) :: boots n (elapse (fst (recover w)))
  end.

Lemma boot_recovers w s :
  snd (try_recover w) = Ok s →
  snd (recover w) = s ∧ holds_secrets (elapse (fst (recover w))) s ∧ ∀ t, holds_secrets w t → s = t.
Proof.
  rewrite recover_try. destruct (try_recover w) as [w1 r] eqn:E. cbn [snd]. intros ->. split; [done|].
  apply try_recover_spec in E as [_ Hs]. specialize (Hs s eq_refl) as [Hh Hu]. split; [|done].
  by apply (keeps_holds w1).
Qed.

Lemma boots_hold n w s i r s' :
  holds_secrets w s → boots n w !! i = Some (Ok r, s') → r = s ∧ s' = s.
Proof.
  revert w i. induction n as [|n IH]; intros w i Hw Hi; [done|]. destruct i as [|i].
  - injection Hi as Hr <-. apply boot_recovers in Hr as (Hs & _ & Hu). specialize (Hu s Hw). by subst.
  - apply (IH (elapse (fst (recover w))) i); [|done]. apply (keeps_holds w); [|done]. rewrite <- Helapse. apply recover_keeps.
    destruct Hw as (_ & c & Hc & _). congruence.
Qed.

Lemma boots_agree n w i j s s' t t' :
  boots n w !! i = Some (Ok s, s') → boots n w !! j = Some (Ok t, t') → s' = s ∧ t' = s ∧ t = s.
Proof.
  revert w i j. induction n as [|n IH]; intros w i j Hi Hj; [done|]. destruct i as [|i], j as [|j].
  - rewrite Hi in Hj. injection Hi as Hr <-. injection Hj as <- <-. apply boot_recovers in Hr as (-> & _). done.
  - injection Hi as Hr <-. apply boot_recovers in Hr as (Hs & Hh & _). destruct (boots_hold n _ s j t t' Hh Hj) as [-> ->]. by rewrite Hs.
  - injection Hj as Hr <-. apply boot_recovers in Hr as (Hs & Hh & _). destruct (boots_hold n _ t i s s' Hh Hi) as [-> ->]. by rewrite Hs.
  - by apply (IH (elapse (fst (recover w))) i j).
Qed.
End laws.

(** ** Theorem *)

(** C26: The secrets survive restarts.  With a key and a bucket configured and no development seed,
    any two boots that get an answer from the services run with the same three secrets, whatever
    happened at the boots between them, and a boot that finds an object never replaces it, even when
    it has to run with secrets generated for that boot alone.  A valid development seed takes
    precedence over the services in every configuration. *)
Theorem secrets_survive_restarts `{Http W} json_field b64_encode b64_decode hex_decode keccak256 key bucket object
    `{L : !CloudLaws json_field b64_encode b64_decode key bucket object} var elapse :
  let recover := recover_or_generate json_field b64_encode b64_decode hex_decode keccak256 in
  var "CERDIC_KMS_KEY_NAME" = Some key → var "CERDIC_STATE_BUCKET" = Some bucket →
  default (byte_value <$> into_bytes "enclave-secrets.bin") (var "CERDIC_STATE_OBJECT") = object →
  var "CERDIC_DEV_SECRETS_SEED" = None →
  (∀ w, keeps json_field b64_encode b64_decode key bucket object w (elapse w)) →
  (∀ n w i j s s' t t',
     let bs := boots json_field b64_encode b64_decode hex_decode keccak256 var elapse n w in
     bs !! i = Some (Ok s, s') → bs !! j = Some (Ok t, t') → s' = s ∧ t' = s ∧ t = s) ∧
  (∀ w, stored w ≠ None → stored (fst (recover var w)) = stored w) ∧
  (∀ var' w seed secrets,
     var' "CERDIC_DEV_SECRETS_SEED" = Some seed → from_dev_seed hex_decode keccak256 (to_utf8 seed) = Ok secrets →
     recover var' w = (w, secrets)).
Proof.
  intros recover Hk Hb Ho Hs He. split_and!.
  - intros n w i j s s' t t' bs. by eapply boots_agree.
  - intros w Hw. by eapply recover_keeps.
  - intros var' w seed secrets Hv Hd. unfold recover, recover_or_generate. rewrite Hv. cbn [mbind option_bind].
    by rewrite Hd.
Qed.

(** ** A cloud *)

(** One object, ciphertexts that are their plaintexts, and a counter for a random source. *)
Record DemoCloud := { dc_object : option Bytes; dc_draws : nat }.

Definition demo_key : list Z := byte_value <$> into_bytes "projects/p/keys/k".
Definition demo_bucket : list Z := byte_value <$> into_bytes "state".
Definition demo_object : list Z := byte_value <$> into_bytes "enclave-secrets.bin".

Definition demo_send (w : DemoCloud) (rq : HttpRequest) : DemoCloud * option (Z * Bytes) :=
  match rq_method rq, rq_body rq with
  | GET, _ =>
      if decide (rq_url rq = object_url demo_bucket demo_object) then
        (w, match dc_object w with Some b => Some (200, b) | None => Some (404, []) end)
      else (w, Some (200, []))
  | POST, Octets b =>
      if decide (rq_url rq = upload_url demo_bucket demo_object)
      then ({| dc_object := Some b; dc_draws := dc_draws w |}, Some (200, [])) else (w, None)
  | POST, Json _ v => (w, Some (200, v))
  | POST, NoBody => (w, None)
  end.

#[export] Instance demo_http : Http DemoCloud := {|
  build_client := λ _, true;
  send := demo_send;
  fill_bytes := λ w n, ({| dc_object := dc_object w; dc_draws := S (dc_draws w) |}, replicate n (byte (Z.of_nat (dc_draws w))));
|}.

Lemma demo_send_stored w rq :
  rq_method rq = GET ∨ rq_url rq ≠ upload_url demo_bucket demo_object →
  dc_object (fst (demo_send w rq)) = dc_object w.
Proof. unfold demo_send. intros [->|Hu]; repeat (case_match || case_decide); done. Qed.

Lemma demo_get w rq code body :
  rq_method rq = GET → rq_url rq = object_url demo_bucket demo_object → snd (demo_send w rq) = Some (code, body) →
  (code = 404 → dc_object w = None) ∧ (is_success code = true → dc_object w = Some body).
Proof.
  unfold demo_send. intros -> ->. rewrite decide_True by done. cbn [snd].
  destruct (dc_object w); intros [= <- <-]; done.
Qed.

Lemma demo_put w rq code body content :
  rq_method rq = POST → rq_url rq = upload_url demo_bucket demo_object → rq_body rq = Octets content →
  snd (demo_send w rq) = Some (code, body) → is_success code = true → dc_object (fst (demo_send w rq)) = Some content.
Proof. unfold demo_send. intros -> -> ->. by rewrite decide_True. Qed.

(** The services answer with a body of their own, never empty. *)
Definition demo_field (field : string) (body : Bytes) : option Bytes :=
  if decide (field = "access_token") then Some body else match body with [] => None | _ => Some body end.

Lemma demo_kms w rq code body action field field' v c :
  rq_url rq = kms_url demo_key action → kms_url demo_key action ≠ object_url demo_bucket demo_object →
  rq_body rq = Json field v → snd (demo_send w rq) = Some (code, body) →
  field' ≠ "access_token" → demo_field field' body ≫= Some = Some c → c = v.
Proof.
  unfold demo_send, demo_field. intros -> Hne -> Hs Hf'. rewrite decide_False by done. intros Hf. destruct (rq_method rq).
  - rewrite decide_False in Hs by done. injection Hs as _ <-. discriminate Hf.
  - injection Hs as _ <-. destruct v; [discriminate Hf|]. by injection Hf.
Qed.

#[export] Instance demo_laws : CloudLaws demo_field (λ b, b) Some demo_key demo_bucket demo_object.
Proof.
  refine {| stored := dc_object; opens := λ _ c p, c = p |}; try done.
  - intros w n. apply length_replicate.
  - apply demo_send_stored.
  - apply demo_get.
  - apply demo_put.
  - intros w rq code body p c Hu Hb Hs _ Hf. by apply (demo_kms w rq code body ":encrypt" "plaintext" "ciphertext" _ _ Hu ltac:(by vm_compute) Hb Hs ltac:(done) Hf).
  - intros w rq code body p c Hu Hb Hs _ Hf. symmetry.
    by apply (demo_kms w rq code body ":decrypt" "ciphertext" "plaintext" _ _ Hu ltac:(by vm_compute) Hb Hs ltac:(done) Hf).
  - congruence.
Defined.

Definition demo_var (name : string) : option (list Z) :=
  if decide (name = "CERDIC_KMS_KEY_NAME") then Some demo_key
  else if decide (name = "CERDIC_STATE_BUCKET") then Some demo_bucket else None.

(** A first boot and the next. *)
Definition demo_boots : list (result EnclaveSecrets KmsError * EnclaveSecrets) :=
  boots demo_field (λ b, b) Some (λ _, None) (λ b, b) demo_var (λ w, w) 2
    {| dc_object := None; dc_draws := 0 |}.

Lemma secrets_survive_restarts_witness :
  ∃ s s' t t', demo_boots !! 0%nat = Some (Ok s, s') ∧ demo_boots !! 1%nat = Some (Ok t, t') ∧
    s' = s ∧ t' = s ∧ t = s ∧ sealed_key s ≠ portfolio_key_secret s.
Proof.
  destruct (demo_boots !! 0%nat) as [[[s|] s']|] eqn:E0; [|by vm_compute in E0..].
  destruct (demo_boots !! 1%nat) as [[[t|] t']|] eqn:E1; [|by vm_compute in E1..].
  exists s, s', t, t'.
  destruct (proj1 (secrets_survive_restarts demo_field (λ b, b) Some (λ _, None) (λ b, b) demo_key demo_bucket
    demo_object demo_var (λ w, w) eq_refl eq_refl eq_refl eq_refl (λ w, reflexivity w))
    2%nat {| dc_object := None; dc_draws := 0 |} 0%nat 1%nat s s' t t' E0 E1) as (H1 & H2 & H3).
  split_and!; [done|done|done|done|done|]. vm_compute in E0. by injection E0 as <- _.
Defined.
