(* ===== verification/Envelope.v ===== *)
(** * Encrypted envelopes ([decrypt.rs], [keystore.rs], and the signed endpoints of [api.rs])

    What is between a client's payload and the handlers of [Matcher]: the envelope it is sent in, its
    decryption and the recovery of its signer, for each of the four endpoints.  The box, the
    signatures, base64 and JSON are third-party: [Crypto] and [Json] are their interfaces. *)
From S2P Require Import Prelude Ints Text Types U256 I256 Risk Averages Fees MarketData Backstop.
From S2P Require Import Positions Liquidation Book Wire Matcher MatcherTrace.
Open Scope Z_scope.

(** ** Third parties *)

(** Keys and nonces are bytes; [seal recipient sender nonce plaintext] takes the recipient's public
    and the sender's secret key, [unseal sender recipient nonce ciphertext] the converse. *)
Class Crypto := {
  Signature : Type;
  b64_encode : Bytes → Bytes;
  b64_decode : Bytes → option Bytes;
  public_key_of : Bytes → Bytes;
  seal : Bytes → Bytes → Bytes → Bytes → option Bytes;
  unseal : Bytes → Bytes → Bytes → Bytes → option Bytes;
  recover_address_from_msg : Signature → Bytes → option Address;
}.

(** A payload with the signature it carries. *)
Record Signed `{Crypto} (P : Type) := { unsigned : P; signature : Signature }.
Arguments unsigned {_ _} _.
Arguments signature {_ _} _.

Class Json `{Crypto} (P : Type) := {
  to_json : Signed P → option Bytes;
  from_json : Bytes → option (Signed P);
}.

(** ** Keys *)

Record Keystore := { secret : Bytes; public : Bytes }.

Definition generate `{Crypto} (secret : Bytes) : Keystore :=
  {| secret := secret; public := public_key_of secret |}.
Definition public_key_b64 `{Crypto} (ks : Keystore) : Bytes := b64_encode (public ks).

(** ** Envelopes *)

Inductive DecryptError := BadEphemeralKey | BadNonce | AuthenticationFailed | BadPayload | BadSignature.

Record Envelope := { ephemeral_pubkey_b64 : Bytes; nonce_b64 : Bytes; ciphertext_b64 : Bytes }.

(** The payloads of the four endpoints; what is signed does not cover the signature. *)
Class SignedPayload (P : Type) := payload : P → Payload.
#[export] Instance order_signed : SignedPayload OrderPayload := POrder.
#[export] Instance offer_signed : SignedPayload OfferPayload := POffer.
#[export] Instance cancel_signed : SignedPayload CancelPayload := PCancel.
#[export] Instance portfolio_key_signed : SignedPayload PortfolioKeyRequest := PPortfolioKey.

Section envelope.
Context `{Crypto}.

(** [decode_b64] into an array of [n] bytes. *)
Definition decode_array (n : nat) (s : Bytes) : option Bytes :=
  bs ← b64_decode s; if decide (length bs = n) then Some bs else None.

Definition decrypt {P} `{!Json P} (ks : Keystore) (e : Envelope) : result (Signed P) DecryptError :=
  match decode_array 32 (ephemeral_pubkey_b64 e) with
  | None => Err BadEphemeralKey
  | Some ephemeral =>
      match decode_array 24 (nonce_b64 e) with
      | None => Err BadNonce
      | Some nonce =>
          match b64_decode (ciphertext_b64 e) with
          | None => Err AuthenticationFailed
          | Some ciphertext =>
              match unseal ephemeral (secret ks) nonce ciphertext with
              | None => Err AuthenticationFailed
              | Some plaintext => ok_or (from_json plaintext) BadPayload
              end
          end
      end
  end.

Definition decrypt_and_authenticate {P} `{!Json P} `{!SignedPayload P} (ks : Keystore) (e : Envelope) :
    result (P * Address) DecryptError :=
  match decrypt ks e with
  | Err err => Err err
  | Ok p =>
      match recover_address_from_msg (signature p) (signing_bytes (payload (unsigned p))) with
      | Some signer => Ok (unsigned p, signer)
      | None => Err BadSignature
      end
  end.

(** The client's side, with the ephemeral secret and the nonce it draws. *)
Definition encrypt_for {P} `{!Json P} (recipient : Bytes) (p : Signed P) (ephemeral nonce : Bytes) :
    exec (option Envelope) :=
  match to_json p with
  | None => Ret None
  | Some plaintext =>
      ciphertext ← expect (seal recipient ephemeral nonce plaintext);
      Ret (Some {| ephemeral_pubkey_b64 := b64_encode (public_key_of ephemeral); nonce_b64 := b64_encode nonce;
                   ciphertext_b64 := b64_encode ciphertext |})
  end.

(** ** The endpoints *)

Inductive Route := OrderRoute | OfferRoute | CancelRoute | PortfolioKeyRoute.

Record Incoming := { in_route : Route; in_envelope : Envelope; in_reading : Reading }.

Context `{!Json OrderPayload, !Json OfferPayload, !Json CancelPayload, !Json PortfolioKeyRequest}.

(** The first statement of [post_order], [post_offer], [post_cancel] and [post_portfolio_key]. *)
Definition authenticate (ks : Keystore) (i : Incoming) : result Request DecryptError :=
  let request '(p, signer) := {| rq_payload := p; rq_signer := signer; rq_reading := in_reading i |} in
  let as_request {P} `{!SignedPayload P} (r : result (P * Address) DecryptError) :=
    match r with Ok (p, signer) => Ok (request (payload p, signer)) | Err e => Err e end in
  match in_route i with
  | OrderRoute => as_request (decrypt_and_authenticate (P := OrderPayload) ks (in_envelope i))
  | OfferRoute => as_request (decrypt_and_authenticate (P := OfferPayload) ks (in_envelope i))
  | CancelRoute => as_request (decrypt_and_authenticate (P := CancelPayload) ks (in_envelope i))
  | PortfolioKeyRoute => as_request (decrypt_and_authenticate (P := PortfolioKeyRequest) ks (in_envelope i))
  end.

(** An endpoint: a request that does not authenticate is answered with the error. *)
Definition endpoint (E : Enclave) (ks : Keystore) (st : AppState) (i : Incoming) :
    exec (AppState * result (Request * Response) DecryptError) :=
  match authenticate ks i with
  | Err e => Ret (st, Err e)
  | Ok q => '(st, r) ← serve_one E st q; Ret (st, Ok (q, r))
  end.

(** Whatever the network delivers, in order. *)
Fixpoint serve_wire (E : Enclave) (ks : Keystore) (st : AppState) (ins : list Incoming) :
    exec (AppState * list (result (Request * Response) DecryptError)) :=
  match ins with
  | [] => Ret (st, [])
  | i :: ins =>
      '(st, r) ← endpoint E ks st i;
      '(st, log) ← serve_wire E ks st ins;
      Ret (st, r :: log)
  end.
End envelope.

(** ** Status codes: [IntoResponse for ApiError] *)

Definition decrypt_status (e : DecryptError) : Z :=
  match e with
  | BadPayload | BadEphemeralKey | BadNonce => 400
  | AuthenticationFailed | BadSignature => 401
  end.
Definition error_status (e : ApiError) : Z :=
  match e with
  | NonceReplay _ _ => 409
  | InvalidTick _ => 400
  | InsufficientCollateralError _ => 402
  | NotOrderOwner _ => 403
  end.
