(* ===== verification/EnvelopeProps.v ===== *)
(** * Encrypted envelopes: theorems

    A client's envelope reaches its handler with its payload and its signer; whatever the network
    delivers, the handlers act for a signer only on payloads it signed, and on each at most once. *)
From S2P Require Import Prelude Ints Text Types U256 I256 Risk Averages Fees MarketData Backstop.
From S2P Require Import Positions Liquidation Book Wire Matcher MatcherProps MatcherTrace Envelope.
Open Scope Z_scope.

(** ** The primitives as documented *)

(** A box sealed for a public key opens with its secret key, the sender's public key and the nonce;
    keys are 32 bytes. *)
Class CryptoLaws `{Crypto} := {
  b64_decode_encode s : b64_decode (b64_encode s) = Some s;
  public_key_length s : length (public_key_of s) = 32%nat;
  unseal_seal s e n p c : seal (public_key_of s) e n p = Some c → unseal (public_key_of e) s n c = Some p;
}.

(** ** Envelopes *)

Section envelope.
Context `{Crypto} `{!CryptoLaws}.

Lemma decode_array_encode n s : length s = n → decode_array n (b64_encode s) = Some s.
Proof. intros Hl. unfold decode_array. rewrite b64_decode_encode. cbn. by rewrite decide_True. Qed.

Lemma decrypt_encrypt_for {P} `{!Json P} sk (p : Signed P) plaintext ephemeral nonce e :
  encrypt_for (public (generate sk)) p ephemeral nonce = Ret (Some e) → length nonce = 24%nat →
  to_json p = Some plaintext → from_json plaintext = Some p → decrypt (generate sk) e = Ok p.
Proof.
  unfold encrypt_for, decrypt. intros He Hn Hto Hfrom. rewrite Hto in He.
  destruct (seal (public (generate sk)) ephemeral nonce plaintext) as [c|] eqn:Hs; [|done].
  injection He as <-. cbn [ephemeral_pubkey_b64 nonce_b64 ciphertext_b64].
  rewrite decode_array_encode by apply public_key_length. rewrite decode_array_encode by done.
  rewrite b64_decode_encode. cbn [generate secret]. by rewrite (unseal_seal _ _ _ _ _ Hs), Hfrom.
Qed.
End envelope.

(** ** Runs *)

(** The requests that were handled, with their responses. *)
Definition handled (log : list (result (Request * Response) DecryptError)) : list (Request * Response) :=
  omap (λ r, match r with Ok e => Some e | Err _ => None end) log.

(** The payloads of [signer] that were not refused as replays. *)
Definition accepted (signer : Address) (log : list (Request * Response)) : list Payload :=
  (λ e, rq_payload e.1) <$> filter (λ e, rq_signer e.1 = signer ∧ is_replay e.2 = false) log.

Lemma accepted_nonces_accepted signer log : accepted_nonces signer log = payload_nonce <$> accepted signer log.
Proof. unfold accepted_nonces, accepted. by rewrite <- list_fmap_compose. Qed.

Section runs.
Context `{Crypto} `{!Json OrderPayload, !Json OfferPayload, !Json CancelPayload, !Json PortfolioKeyRequest}.
Context (E : Enclave) (ks : Keystore).

Lemma serve_wire_handled st ins st' log :
  serve_wire E ks st ins = Ret (st', log) → ∃ qs, serve E st qs = Ret (st', handled log).
Proof.
  revert st log. induction ins as [|i ins IH]; intros st log; cbn [serve_wire].
  - intros [= <- <-]. by exists [].
  - intros ([st1 r] & H1 & H2)%bind_Ret. apply bind_Ret in H2 as ([st2 log2] & H2 & [= <- <-]).
    apply IH in H2 as [qs Hqs]. unfold endpoint in H1. destruct (authenticate ks i) as [q|e].
    + apply bind_Ret in H1 as ([st3 rsp] & H1 & [= <- <-]). exists (q :: qs). cbn [serve].
      rewrite H1, ret_bind. cbv beta iota. by rewrite Hqs.
    + injection H1 as <- <-. by exists qs.
Qed.

(** A request that authenticates carries a signature of its signer over its payload. *)
Lemma authenticate_signed i q :
  authenticate ks i = Ok q →
  ∃ sig, recover_address_from_msg sig (signing_bytes (rq_payload q)) = Some (rq_signer q).
Proof.
  unfold authenticate, decrypt_and_authenticate. destruct (in_route i);
    (destruct (decrypt ks (in_envelope i)) as [p|]; [|done]);
    (destruct (recover_address_from_msg (signature p) _) as [signer|] eqn:Hr; [|done]);
    intros [= <-]; by exists (signature p).
Qed.

Lemma serve_wire_signed st ins st' log q r :
  serve_wire E ks st ins = Ret (st', log) → (q, r) ∈ handled log →
  ∃ sig, recover_address_from_msg sig (signing_bytes (rq_payload q)) = Some (rq_signer q).
Proof.
  revert st log. induction ins as [|i ins IH]; intros st log; cbn [serve_wire].
  - intros [= <- <-]. by intros ?%elem_of_nil.
  - intros ([st1 x] & H1 & H2)%bind_Ret. apply bind_Ret in H2 as ([st2 log2] & H2 & [= <- <-]).
    unfold endpoint in H1. destruct (authenticate ks i) as [q'|e] eqn:Ha.
    + apply bind_Ret in H1 as ([st3 rsp] & _ & [= <- <-]). unfold handled. cbn [omap list_omap].
      intros [[= -> ->]|Hin]%elem_of_cons; [by eapply authenticate_signed|exact (IH _ _ H2 Hin)].
    + injection H1 as <- <-. exact (IH _ _ H2).
Qed.
End runs.

(** ** Theorems *)

(** A client's envelope is read back.  For any payload its wallet signed, sealed for the
    enclave's key with any ephemeral key and any nonce of 24 bytes, the endpoint does exactly what the
    handler does with the payload and the address of the signer, on each of the four endpoints. *)
Theorem envelope_reaches_handler `{Crypto, !CryptoLaws}
    `{!Json OrderPayload, !Json OfferPayload, !Json CancelPayload, !Json PortfolioKeyRequest}
    E sk ephemeral nonce rd st signer :
  length nonce = 24%nat →
  let delivered {P} `{!Json P, !SignedPayload P} (route : Route) (p : Signed P) :=
    ∀ plaintext e,
      to_json p = Some plaintext → from_json plaintext = Some p →
      recover_address_from_msg (signature p) (signing_bytes (payload (unsigned p))) = Some signer →
      encrypt_for (public (generate sk)) p ephemeral nonce = Ret (Some e) →
      let q := {| rq_payload := payload (unsigned p); rq_signer := signer; rq_reading := rd |} in
      endpoint E (generate sk) st {| in_route := route; in_envelope := e; in_reading := rd |} =
        '(st', r) ← serve_one E st q; Ret (st', Ok (q, r)) in
  (∀ p : Signed OrderPayload, delivered OrderRoute p) ∧
  (∀ p : Signed OfferPayload, delivered OfferRoute p) ∧
  (∀ p : Signed CancelPayload, delivered CancelRoute p) ∧
  (∀ p : Signed PortfolioKeyRequest, delivered PortfolioKeyRoute p).
Proof.
  intros Hn. split_and!; intros p plaintext e Hto Hfrom Hr He; unfold endpoint, authenticate, decrypt_and_authenticate;
    cbn [in_route in_envelope in_reading];
    rewrite (decrypt_encrypt_for sk p plaintext ephemeral nonce e He Hn Hto Hfrom); cbv zeta; rewrite Hr; done.
Qed.

(** C11: Only what a trader signed acts for it, and once.  Whatever envelopes the network delivers, in
    whatever order and to whichever endpoints, if the signatures of an address cannot be forged then
    every handled request of that address carries a payload whose bytes it signed; if it signed only
    the bytes of some payloads, the handled payloads are among them, field for field and on the
    endpoint they were made for, and no payload is accepted twice.  An envelope that does not
    authenticate changes nothing. *)
Theorem only_signed_requests_act `{Crypto}
    `{!Json OrderPayload, !Json OfferPayload, !Json CancelPayload, !Json PortfolioKeyRequest}
    E ks st ins st' log a (signed : Bytes → Prop) :
  serve_wire E ks st ins = Ret (st', log) →
  (∀ sig m, recover_address_from_msg sig m = Some a → signed m) →
  (∀ q r, (q, r) ∈ handled log → rq_signer q = a → signed (signing_bytes (rq_payload q))) ∧
  (∀ ps, (∀ m, signed m → ∃ p, p ∈ ps ∧ m = signing_bytes p) → accepted a (handled log) ⊆ ps) ∧
  NoDup (accepted a (handled log)) ∧
  (∀ st1 i e, authenticate ks i = Err e → endpoint E ks st1 i = Ret (st1, Err e)).
Proof.
  intros Hrun Hforge.
  assert (Hs : ∀ q r, (q, r) ∈ handled log → rq_signer q = a → signed (signing_bytes (rq_payload q))).
  { intros q r Hin <-. destruct (serve_wire_signed E ks st ins st' log q r Hrun Hin) as [sig Hsig]. by eapply Hforge. }
  split_and!; [done|..].
  - intros ps Hps p. unfold accepted. intros ([q r] & -> & [[Hq _] Hin]%list_elem_of_filter)%list_elem_of_fmap.
    cbn [fst] in *. destruct (Hps _ (Hs q r Hin Hq)) as (p' & Hp' & Heq). by apply (inj signing_bytes) in Heq as ->.
  - destruct (serve_wire_handled E ks st ins st' log Hrun) as [qs Hqs].
    destruct (serve_nonces E qs st st' (handled log) a Hqs) as [Hi _]. apply increasing_NoDup in Hi.
    rewrite accepted_nonces_accepted in Hi. by apply NoDup_fmap_1 in Hi.
  - intros st1 i e Ha. unfold endpoint. by rewrite Ha.
Qed.

(** ** A world *)

Definition demo_public (s : Bytes) : Bytes := take 32 (s ++ replicate 32 (byte 0)).
Definition demo_order : OrderPayload := demo_payload Buy 100 3 ImmediateOrCancel false 4.

(** Boxes name their recipient; address 8 signed [demo_order] and nothing else. *)
#[export] Instance demo_crypto : Crypto := {|
  Signature := unit;
  b64_encode := λ s, s;
  b64_decode := Some;
  public_key_of := demo_public;
  seal := λ recipient _ _ p, Some (recipient ++ p);
  unseal := (λ _ s _ c, if decide (take 32 c = demo_public s) then Some (drop 32 c) else None);
  recover_address_from_msg := λ _ m,
    if decide (m = signing_bytes (POrder demo_order)) then Some 8 else Some 99 |}.

Lemma demo_public_length s : length (demo_public s) = 32%nat.
Proof. unfold demo_public. rewrite length_take, length_app, length_replicate. lia. Qed.

#[export] Instance demo_crypto_laws : CryptoLaws.
Proof.
  split; [done|exact demo_public_length|]. intros s e n p c [= <-].
  pose proof (demo_public_length s) as Hl. cbn [unseal demo_crypto].
  rewrite take_app_length' by done. rewrite decide_True by done. by rewrite drop_app_length'.
Qed.

Definition demo_json {P} (p : P) : Json P :=
  {| to_json := λ _, Some []; from_json := λ _, Some (@Build_Signed demo_crypto P p tt) |}.
#[export] Instance demo_order_json : Json OrderPayload := demo_json demo_order.
#[export] Instance demo_offer_json : Json OfferPayload := demo_json (demo_offer Sell 100 5 1).
#[export] Instance demo_cancel_json : Json CancelPayload :=
  demo_json {| cp_market_id := demo_market; cp_order_id := 0; cp_nonce := 5 |}.
#[export] Instance demo_key_json : Json PortfolioKeyRequest := demo_json {| pk_nonce := 9 |}.

Definition demo_nonce : Bytes := replicate 24 (byte 1).
Definition demo_envelope : Envelope := {|
  ephemeral_pubkey_b64 := demo_public (into_bytes "e"); nonce_b64 := demo_nonce;
  ciphertext_b64 := demo_public (into_bytes "sk") |}.
Definition demo_incoming (r : Route) (e : Envelope) : Incoming :=
  {| in_route := r; in_envelope := e; in_reading := {| rd_now := 0; rd_deposited := None; rd_funding := 0; rd_subscribed := false |} |}.

Lemma envelope_reaches_handler_witness :
  endpoint demo_enclave (generate (into_bytes "sk")) new_state (demo_incoming OrderRoute demo_envelope) =
    '(st, r) ← serve_one demo_enclave new_state (demo_request (POrder demo_order) 8);
    Ret (st, Ok (demo_request (POrder demo_order) 8, r)).
Proof.
  assert (Hn : length demo_nonce = 24%nat) by done.
  destruct (@envelope_reaches_handler demo_crypto demo_crypto_laws demo_order_json demo_offer_json
    demo_cancel_json demo_key_json demo_enclave (into_bytes "sk") (into_bytes "e") demo_nonce
    {| rd_now := 0; rd_deposited := None; rd_funding := 0; rd_subscribed := false |} new_state 8 Hn) as [H _].
  apply (H (@Build_Signed demo_crypto _ demo_order tt) [] demo_envelope).
  - reflexivity.
  - reflexivity.
  - cbn [recover_address_from_msg demo_crypto]. by rewrite decide_True.
  - reflexivity.
Defined.

(** The order, the same envelope again, and the same envelope at another endpoint. *)
Definition demo_network : list Incoming :=
  [demo_incoming OrderRoute demo_envelope; demo_incoming OrderRoute demo_envelope;
   demo_incoming CancelRoute demo_envelope].

Lemma only_signed_requests_act_witness :
  ∃ st log, serve_wire demo_enclave (generate (into_bytes "sk")) new_state demo_network = Ret (st, log) ∧
    accepted 8 (handled log) = [POrder demo_order] ∧ NoDup (accepted 8 (handled log)) ∧ length log = 3%nat.
Proof.
  eexists _, _. split; [vm_compute; reflexivity|]. split; [vm_compute; reflexivity|].
  split; [|vm_compute; reflexivity].
  eapply (proj1 (proj2 (proj2 (@only_signed_requests_act demo_crypto demo_order_json
    demo_offer_json demo_cancel_json demo_key_json demo_enclave (generate (into_bytes "sk")) new_state
    demo_network _ _ 8 (λ m, m = signing_bytes (POrder demo_order)) ltac:(vm_compute; reflexivity)
    ltac:(intros sig m; cbn [recover_address_from_msg demo_crypto]; by case_decide))))).
Defined.
