(* ===== verification/Keeper.v ===== *)
(** * The liquidation keeper ([bin/keeper_liquidator.rs])

    Its configuration, the scan of the chain's logs into an index of portfolios and markets, and the
    check and liquidation of each known portfolio.  The chain and the matcher are interfaces; the
    parsing of addresses, ids and URLs and [keccak256] are alloy's, parameters. *)
From S2P Require Import Prelude Ints Text Types Positions Backstop Config.
Open Scope Z_scope.

(** ** Configuration *)

Record KeeperConfig := {
  kc_liquidator : Address;
  kc_start_block : Z;
  kc_poll_interval : Z;
  market_by_hash : gmap Z (Bytes * Address);
  contracts : gset Address;
}.

Section configuration.
Context (var : string → option Bytes) (parse_address parse_id : Bytes → option Z).
Context (parse_url : Bytes → bool) (keccak256 : Bytes → Z).

(** A loop over pairs that aborts on a malformed one. *)
Definition for_pairs {A} (step : A → Bytes → Bytes → exec A) (acc : A) (raw : Bytes) : exec A :=
  foldl (λ acc pair,
    acc ← acc; '(l, r) ← expect (split_once equals pair); step acc l r) (Ret acc) (pairs raw).

Definition onchain_id_overrides : exec (gmap Bytes Z) :=
  match var "KEEPER_MARKET_ONCHAIN_IDS" with
  | None => Ret ∅
  | Some raw =>
      for_pairs (λ ids market_id onchain_id,
        id ← expect (parse_id onchain_id); Ret (<[market_id := id]> ids)) ∅ raw
  end.

Definition add_market (overrides : gmap Bytes Z) (acc : gmap Z (Bytes * Address) * gset Address)
    (market_id contract : Bytes) : exec (gmap Z (Bytes * Address) * gset Address) :=
  contract ← expect (parse_address contract);
  let hash := default (keccak256 market_id) (overrides !! market_id) in
  Ret (<[hash := (market_id, contract)]> acc.1, {[contract]} ∪ acc.2).

Definition configure_keeper : exec KeeperConfig :=
  _ ← expect (var "MATCHER_URL");
  rpc_url ← expect (var "SETTLEMENT_RPC_URL");
  liquidator ← expect (var "KEEPER_LIQUIDATOR_ADDRESS" ≫= parse_address);
  market_contracts_raw ← expect (var "KEEPER_MARKET_CONTRACTS");
  overrides ← onchain_id_overrides;
  '(markets, contracts) ← for_pairs (add_market overrides) (∅, ∅) market_contracts_raw;
  if parse_url rpc_url then
    Ret {| kc_liquidator := liquidator;
           kc_start_block := default 0 (var "KEEPER_START_BLOCK" ≫= parse_u64);
           kc_poll_interval := default 15 (var "KEEPER_POLL_INTERVAL_SECS" ≫= parse_u64);
           market_by_hash := markets; contracts := contracts |}
  else Panic.
End configuration.

(** ** The scan *)

Definition SEALED_POSITION_TOUCHED_TOPIC0 : Z :=
  0x1f16c731e33d2533304f572c425ef0fd6d5f718a330bffdf684a11e89d5b5734.
Definition MAX_GET_LOGS_BLOCK_RANGE : Z := 10.

(** What [eth_getLogs] is asked for, and what one poll's calls answer; a log is its topics. *)
Record LogFilter := { lf_address : gset Address; lf_topic0 : Z; lf_from : Z; lf_to : Z }.
Record Provider := { get_block_number : option Z; get_logs : LogFilter → option (list (list Z)) }.

Inductive ScanError := NoBlockNumber | NoLogs.

(** A log of a known market: its portfolio key and the market. *)
Definition touch (markets : gmap Z (Bytes * Address)) (topics : list Z) : option (Key * Bytes) :=
  match topics with
  | _ :: portfolio_key :: market_hash :: _ =>
      '(market_id, _) ← markets !! market_hash; Some (portfolio_key, market_id)
  | _ => None
  end.

Definition scan_new_events (provider : Provider) (contracts : gset Address) (from_block : Z)
    (markets : gmap Z (Bytes * Address)) : result (list (Key * Bytes) * Z) ScanError :=
  match get_block_number provider with
  | None => Err NoBlockNumber
  | Some latest =>
      if decide (latest < from_block) then Ok ([], from_block)
      else
        let to_block := Z.min latest (sat_u 64 (from_block + (MAX_GET_LOGS_BLOCK_RANGE - 1))) in
        match get_logs provider {| lf_address := contracts; lf_topic0 := SEALED_POSITION_TOUCHED_TOPIC0;
                                   lf_from := from_block; lf_to := to_block |} with
        | None => Err NoLogs
        | Some logs => Ok (omap (touch markets) logs, u64_add to_block 1)
        end
  end.

(** ** Check and liquidation *)

(** The bodies of the matcher's answers, the fields read of them. *)
Record CheckReply := { cr_liquidatable : option bool }.
Record LiquidateReply := { lr_executed : option bool; lr_tx_hashes : option (list (option Bytes)) }.

(** The matcher over HTTP: a request may go unanswered, or be answered with something that is not
    JSON, and still have had its effect. *)
Class MatcherApi (M : Type) := {
  liquidation_check : M → Key → list Bytes → M * option CheckReply;
  liquidate : M → Key → Address → list Bytes → M * option LiquidateReply;
}.

Inductive KeeperError := CheckFailed | LiquidateFailed.

Definition check_and_liquidate {M} `{MatcherApi M} (m : M) (portfolio_key : Key) (market_ids : list Bytes)
    (liquidator : Address) : M * result (option (list Bytes)) KeeperError :=
  match liquidation_check m portfolio_key market_ids with
  | (m, None) => (m, Err CheckFailed)
  | (m, Some check) =>
      if default false (cr_liquidatable check) then
        match liquidate m portfolio_key liquidator market_ids with
        | (m, None) => (m, Err LiquidateFailed)
        | (m, Some reply) =>
            if default false (lr_executed reply)
            then (m, Ok (Some (omap id (default [] (lr_tx_hashes reply))))) else (m, Ok None)
        end
      else (m, Ok None)
  end.

(** ** The loop *)

(** [portfolios] and [last_scanned]. *)
Record Keeper := { portfolios : gmap Key (gset Bytes); last_scanned : Z }.

Definition keeper_start (cfg : KeeperConfig) : Keeper :=
  {| portfolios := ∅; last_scanned := kc_start_block cfg |}.

Definition discover (index : gmap Key (gset Bytes)) (t : Key * Bytes) : gmap Key (gset Bytes) :=
  <[t.1 := {[t.2]} ∪ default ∅ (index !! t.1)]> index.

Definition scan (cfg : KeeperConfig) (k : Keeper) (provider : Provider) : result Keeper ScanError :=
  match scan_new_events provider (contracts cfg) (last_scanned k) (market_by_hash cfg) with
  | Err e => Err e
  | Ok (new_touches, new_last_scanned) =>
      Ok {| portfolios := foldl discover (portfolios k) new_touches; last_scanned := new_last_scanned |}
  end.

(** The loop over the known portfolios, in the order the map is iterated. *)
Definition liquidate_all {M} `{MatcherApi M} (cfg : KeeperConfig) (m : M) (known : list (Key * list Bytes)) : M :=
  foldl (λ m '(k, market_ids), fst (check_and_liquidate m k market_ids (kc_liquidator cfg))) m known.

(** One tick: a failed scan skips the checks. *)
Definition tick {M} `{MatcherApi M} (order : gmap Key (gset Bytes) → list (Key * list Bytes))
    (cfg : KeeperConfig) (s : Keeper * M) (provider : Provider) : Keeper * M :=
  match scan cfg s.1 provider with
  | Err _ => s
  | Ok k => (k, liquidate_all cfg s.2 (order (portfolios k)))
  end.

Definition run_keeper {M} `{MatcherApi M} (order : gmap Key (gset Bytes) → list (Key * list Bytes))
    (cfg : KeeperConfig) (s : Keeper * M) (polls : list Provider) : Keeper * M :=
  foldl (tick order cfg) s polls.
