(* ===== verification/KeeperProps.v ===== *)
(** * The liquidation keeper: theorems

    What the keeper's index holds after any sequence of polls, and how far behind the chain it is. *)
From S2P Require Import Prelude Ints Text Types Positions Backstop Config Keeper.
Open Scope Z_scope.

(** ** The chain *)

(** The logs of each block: the emitting contract and the topics. *)
Definition Chain : Type := Z → list (Address * list Z).

(** [eth_getLogs]: an empty address filter matches any contract. *)
Definition matches (addresses : gset Address) (topic0 : Z) (l : Address * list Z) : Prop :=
  (addresses = ∅ ∨ l.1 ∈ addresses) ∧ hd_error l.2 = Some topic0.
#[export] Instance matches_dec addresses topic0 l : Decision (matches addresses topic0 l).
Proof. unfold matches. apply _. Defined.

Definition logs_between (chain : Chain) (addresses : gset Address) (topic0 from count : Z) : list (list Z) :=
  snd <$> filter (matches addresses topic0) (seqZ from count ≫= chain).

(** A provider answers with the chain's logs, or not at all; its head is a block number. *)
Record provider_ok (chain : Chain) (p : Provider) : Prop := {
  po_logs f logs : get_logs p f = Some logs →
    logs = logs_between chain (lf_address f) (lf_topic0 f) (lf_from f) (lf_to f - lf_from f + 1);
  po_head h : get_block_number p = Some h → 0 ≤ h < u64_max;
}.

(** The poll's calls are answered, and its head is at least [head]. *)
Definition answered (head : Z) (p : Provider) : Prop :=
  match get_block_number p with Some h => head ≤ h | None => False end ∧ ∀ f, is_Some (get_logs p f).

(** The touches of the [count] blocks from [from]. *)
Definition touches (cfg : KeeperConfig) (chain : Chain) (from count : Z) : list (Key * Bytes) :=
  omap (touch (market_by_hash cfg))
    (logs_between chain (contracts cfg) SEALED_POSITION_TOUCHED_TOPIC0 from count).

(** ** Lemmas *)

Lemma touches_app cfg chain from n m :
  0 ≤ n → 0 ≤ m → touches cfg chain from (n + m) = touches cfg chain from n ++ touches cfg chain (from + n) m.
Proof.
  intros Hn Hm. unfold touches, logs_between. rewrite seqZ_app by done.
  by rewrite bind_app, filter_app, fmap_app, omap_app.
Qed.

Lemma discover_index index ts key m :
  m ∈ default ∅ (foldl discover index ts !! key) ↔ m ∈ default ∅ (index !! key) ∨ (key, m) ∈ ts.
Proof.
  revert index. induction ts as [|[k m'] ts IH]; intros index; cbn [foldl]; [set_solver|].
  rewrite IH. unfold discover at 1. cbn [fst snd]. destruct (decide (k = key)) as [->|Hne].
  - rewrite lookup_insert_eq. cbn [default from_option id]. set_solver.
  - rewrite lookup_insert_ne by done. set_solver.
Qed.

(** What the index holds, and where the scan stands. *)
Definition indexed (cfg : KeeperConfig) (chain : Chain) (k : Keeper) : Prop :=
  kc_start_block cfg ≤ last_scanned k ≤ u64_max ∧
  ∀ key m, m ∈ default ∅ (portfolios k !! key) ↔
           (key, m) ∈ touches cfg chain (kc_start_block cfg) (last_scanned k - kc_start_block cfg).

(** One scan moves at most ten blocks, and with an answer as far as ten blocks or the head allow. *)
Lemma scan_indexed cfg chain k p k' :
  0 ≤ kc_start_block cfg → provider_ok chain p → indexed cfg chain k → scan cfg k p = Ok k' →
  indexed cfg chain k' ∧ last_scanned k ≤ last_scanned k' ≤ last_scanned k + MAX_GET_LOGS_BLOCK_RANGE ∧
  ∀ h, get_block_number p = Some h →
    Z.min (h + 1) (last_scanned k + MAX_GET_LOGS_BLOCK_RANGE) ≤ last_scanned k'.
Proof.
  intros Hst Hp [Hr Hi]. unfold scan, scan_new_events. destruct (get_block_number p) as [h|] eqn:Hh; [|done].
  pose proof (po_head _ _ Hp h Hh) as Hhr. unfold MAX_GET_LOGS_BLOCK_RANGE in *.
  case_decide as Hlt.
  { intros [= <-]. cbn. split_and!; [done|lia|lia|]. intros h' [= <-]. lia. }
  cbv zeta. set (to := Z.min h _). assert (Hto : to = Z.min h (last_scanned k + 9)).
  { unfold to, sat_u. unfold u64_max in *. lia. }
  clearbody to. destruct (get_logs p _) as [logs|] eqn:Hl; [|done]. intros [= <-]. cbn [portfolios last_scanned].
  assert (Hw : u64_add to 1 = to + 1) by (apply wrapu_small; unfold in_u, u64_max in *; lia).
  rewrite Hw. apply (po_logs _ _ Hp) in Hl. cbn in Hl. split_and!; [|lia|lia|intros h' [= <-]; lia].
  split; cbn [portfolios last_scanned]; [unfold u64_max in *; lia|]. intros key m. rewrite discover_index, Hi.
  replace (to + 1 - kc_start_block cfg)
    with (last_scanned k - kc_start_block cfg + (to - last_scanned k + 1)) by lia.
  rewrite touches_app, elem_of_app by lia.
  replace (kc_start_block cfg + (last_scanned k - kc_start_block cfg)) with (last_scanned k) by lia.
  by rewrite Hl.
Qed.

(** Answered scans do not fail. *)
Lemma scan_answered head cfg k p : answered head p → ∃ k', scan cfg k p = Ok k'.
Proof.
  intros [Hh Hl]. unfold scan, scan_new_events. destruct (get_block_number p); [|done].
  case_decide; [by eexists|]. cbv zeta. match goal with |- context [get_logs p ?f] => destruct (Hl f) as [logs ->] end.
  by eexists.
Qed.

Lemma run_indexed {M} `{MatcherApi M} order cfg chain head polls (m : M) :
  0 ≤ kc_start_block cfg ≤ u64_max → Forall (provider_ok chain) polls →
  let k := fst (run_keeper order cfg (keeper_start cfg, m) polls) in
  indexed cfg chain k ∧
  last_scanned k ≤ kc_start_block cfg + MAX_GET_LOGS_BLOCK_RANGE * Z.of_nat (length polls) ∧
  ∀ seen, seen `sublist_of` polls → Forall (answered head) seen →
    Z.min (head + 1) (kc_start_block cfg + MAX_GET_LOGS_BLOCK_RANGE * Z.of_nat (length seen)) ≤ last_scanned k.
Proof.
  intros Hst. unfold MAX_GET_LOGS_BLOCK_RANGE. induction polls as [|p polls IH] using rev_ind; intros Hps.
  - cbn. split; [|split; [lia|]].
    + split; [cbn; lia|]. intros key m'. cbn. rewrite lookup_empty, Z.sub_diag. cbn. set_solver.
    + intros seen ->%sublist_nil_r _. cbn. lia.
  - apply Forall_app in Hps as [Hps [Hp _]%Forall_cons]. destruct (IH Hps) as (Hk & Hle & Hge). clear IH.
    cbv zeta. unfold run_keeper in *. rewrite foldl_app. cbn [foldl]. rewrite length_app. cbn [length].
    set (s := foldl (tick order cfg) _ polls) in *. unfold tick. destruct (scan cfg s.1 p) as [k'|e] eqn:Hs.
    + destruct (scan_indexed cfg chain _ _ _ (proj1 Hst) Hp Hk Hs) as (Hk' & Hmono & Hhead).
      unfold MAX_GET_LOGS_BLOCK_RANGE in *. cbn [fst]. split; [done|]. split; [lia|].
      intros seen (s1 & s2 & -> & H1 & H2)%sublist_app_r Ha. apply Forall_app in Ha as [Ha1 Ha2].
      specialize (Hge s1 H1 Ha1). rewrite length_app. apply sublist_cons_r in H2 as [->%sublist_nil_r|(s3 & -> & ->%sublist_nil_r)].
      * cbn. lia.
      * apply Forall_cons in Ha2 as [[Hans _] _]. destruct (get_block_number p) as [h|]; [|done].
        specialize (Hhead h eq_refl). cbn. lia.
    + split; [done|]. split; [lia|].
      intros seen (s1 & s2 & -> & H1 & H2)%sublist_app_r Ha. apply Forall_app in Ha as [Ha1 Ha2].
      apply sublist_cons_r in H2 as [->%sublist_nil_r|(s3 & -> & _)]; [rewrite app_nil_r; by apply Hge|].
      apply Forall_cons in Ha2 as [Hans _]. destruct (scan_answered _ cfg s.1 _ Hans) as [k' E]. congruence.
Qed.

(** ** Theorem *)

(** C32: The keeper finds every position, at ten blocks a poll.  After any sequence of polls, some of
    them unanswered, the index holds exactly the portfolio and market pairs of the logs of the
    configured contracts from the start block up to where the scan stands.  The scan stands at least
    at [head + 1] or ten blocks per answered poll past the start, when no answered poll saw a lower
    head, so every touch of a fixed head is found after enough answers; and never beyond ten blocks
    per poll, so a chain that makes more than ten blocks between polls is never caught up with. *)
Theorem keeper_index_complete {M} `{MatcherApi M} order cfg chain head polls (m : M) :
  0 ≤ kc_start_block cfg ≤ u64_max → Forall (provider_ok chain) polls →
  ∀ seen, seen `sublist_of` polls → Forall (answered head) seen →
  let k := fst (run_keeper order cfg (keeper_start cfg, m) polls) in
  (∀ key market, market ∈ default ∅ (portfolios k !! key) ↔
     (key, market) ∈ touches cfg chain (kc_start_block cfg) (last_scanned k - kc_start_block cfg)) ∧
  kc_start_block cfg ≤ last_scanned k ≤ kc_start_block cfg + MAX_GET_LOGS_BLOCK_RANGE * Z.of_nat (length polls) ∧
  Z.min (head + 1) (kc_start_block cfg + MAX_GET_LOGS_BLOCK_RANGE * Z.of_nat (length seen)) ≤ last_scanned k.
Proof.
  intros Hst Hps seen Hsub Hseen. destruct (run_indexed order cfg chain head polls m) as (Hk & Hle & Hge); [done|done|].
  split_and!; [apply Hk|apply Hk|done|by apply Hge].
Qed.

(** ** A chain with one touch, in block 12 *)

Definition demo_config : KeeperConfig := {|
  kc_liquidator := 9; kc_start_block := 0; kc_poll_interval := 15;
  market_by_hash := {[ 77 := (into_bytes "EURC/USDC", 5) ]}; contracts := {[ 5 ]} |}.
Definition demo_chain : Chain := λ b,
  if decide (b = 12) then [(5, [SEALED_POSITION_TOUCHED_TOPIC0; 42; 77]); (6, [SEALED_POSITION_TOUCHED_TOPIC0; 43; 77])]
  else [].
Definition demo_provider (head : Z) : Provider := {|
  get_block_number := Some head;
  get_logs := λ f, Some (logs_between demo_chain (lf_address f) (lf_topic0 f) (lf_from f) (lf_to f - lf_from f + 1)) |}.
Definition demo_outage : Provider := {| get_block_number := Some 40; get_logs := λ _, None |}.
Definition demo_polls : list Provider := [demo_provider 20; demo_outage; demo_provider 20].

#[export] Instance demo_matcher : MatcherApi unit :=
  {| liquidation_check := λ m _ _, (m, Some {| cr_liquidatable := Some false |}); liquidate := λ m _ _ _, (m, None) |}.

Lemma demo_provider_ok head : 0 ≤ head < u64_max → provider_ok demo_chain (demo_provider head).
Proof. intros Hh. split; [by intros f logs [= <-]|by intros h [= <-]]. Qed.

Lemma keeper_index_complete_witness :
  let k := fst (run_keeper (λ _, []) demo_config (keeper_start demo_config, tt) demo_polls) in
  into_bytes "EURC/USDC" ∈ default ∅ (portfolios k !! 42) ∧ portfolios k !! 43 = None ∧ 20 ≤ last_scanned k ≤ 30.
Proof.
  assert (Hok : Forall (provider_ok demo_chain) demo_polls).
  { repeat apply Forall_cons_2; [by apply demo_provider_ok| |by apply demo_provider_ok|apply Forall_nil_2].
    split; [done|by intros h [= <-]]. }
  assert (Hans : Forall (answered 20) [demo_provider 20; demo_provider 20]).
  { repeat apply Forall_cons_2; [split; [done|by eexists]..|apply Forall_nil_2]. }
  assert (Hsub : [demo_provider 20; demo_provider 20] `sublist_of` demo_polls) by (do 2 constructor; by constructor).
  destruct (keeper_index_complete (λ _, []) demo_config demo_chain 20 demo_polls tt ltac:(by vm_compute) Hok _ Hsub Hans)
    as (Hi & Hr & Hl).
  split_and!; [|by vm_compute|vm_compute in Hl; vm_compute; done|vm_compute in Hr; vm_compute; tauto].
  apply Hi. vm_compute. by left.
Defined.
