(* ===== verification/F64.v ===== *)
(** * Double-precision floating point

    Rust's [f64] as the specification of IEEE 754 binary64 of the Standard Library: rounding to
    nearest, ties to even.  The conversions from and to integers, [round] and [clamp] are defined
    here; the lemmas say when a result is a number, of which sign, and within which bounds. *)
From Stdlib Require Import SpecFloat.
From S2P Require Import Prelude Ints.
Open Scope Z_scope.

Abbreviation f64 := spec_float (only parsing).

(** ** Operations *)

Definition f64_add : f64 → f64 → f64 := SFadd 53 1024.
Definition f64_mul : f64 → f64 → f64 := SFmul 53 1024.
Definition f64_div : f64 → f64 → f64 := SFdiv 53 1024.

(** [as f64] of an integer. *)
Definition as_f64 (n : Z) : f64 := binary_normalize 53 1024 n 0 false.

(** [f64::round]: to the nearest integer, ties away from zero; the sign stays. *)
Definition f64_round (x : f64) : f64 :=
  match x with
  | S754_finite s m e =>
      if decide (0 ≤ e) then x
      else binary_normalize 53 1024 (cond_Zopp s ((Zpos m + 2 ^ (- e - 1)) / 2 ^ (- e))) 0 s
  | _ => x
  end.

(** [as] of a float into an integer type: towards zero, saturating, NaN to 0. *)
Definition f64_as (lo hi : Z) (x : f64) : Z :=
  match x with
  | S754_nan | S754_zero _ => 0
  | S754_infinity s => if s then lo else hi
  | S754_finite s m e => Z.max lo (Z.min hi (cond_Zopp s (Z.shiftl (Zpos m) e)))
  end.
Definition f64_as_u64 : f64 → Z := f64_as 0 u64_max.
Definition f64_as_i128 : f64 → Z := f64_as i128_min i128_max.

(** [f64::clamp]. *)
Definition f64_clamp (x lo hi : f64) : f64 :=
  let x := if SFltb x lo then lo else x in if SFltb hi x then hi else x.

Example round_half : (f64_as_i128 (f64_round (f64_div (as_f64 5) (as_f64 2))),
  f64_as_i128 (f64_round (f64_div (as_f64 (-5)) (as_f64 2)))) = (3, -3).
Proof. by vm_compute. Qed.

(** ** Numbers of a sign *)

(** Not NaN, and of sign [s]; a zero has a sign too. *)
Definition has_sign (s : bool) (x : f64) : Prop :=
  x = S754_zero s ∨ x = S754_infinity s ∨ ∃ m e, x = S754_finite s m e.

Lemma shr_1_nonneg r : 0 ≤ shr_m r → 0 ≤ shr_m (shr_1 r).
Proof. destruct r as [[|[p|p|]|p] b c]; cbn; lia. Qed.

Lemma iter_shr_nonneg p r : 0 ≤ shr_m r → 0 ≤ shr_m (SpecFloat.iter_pos shr_1 p r).
Proof. revert r. induction p as [p IH|p IH|]; intros r Hr; cbn [SpecFloat.iter_pos]; auto using shr_1_nonneg. Qed.

Lemma shr_fexp_nonneg m e l : 0 ≤ m → 0 ≤ shr_m (fst (shr_fexp 53 1024 m e l)).
Proof.
  intros Hm. unfold shr_fexp, shr. assert (Hl : 0 ≤ shr_m (shr_record_of_loc m l)) by by destruct l as [|[]].
  case_match; cbn [fst]; auto using iter_shr_nonneg.
Qed.

Lemma binary_round_aux_sign s m e l : 0 ≤ m → has_sign s (binary_round_aux 53 1024 s m e l).
Proof.
  intros Hm. unfold binary_round_aux. destruct (shr_fexp 53 1024 m e l) as [r1 e1] eqn:E1.
  pose proof (shr_fexp_nonneg m e l Hm) as H1. rewrite E1 in H1. cbn [fst] in H1.
  assert (Hr : 0 ≤ round_nearest_even (shr_m r1) (loc_of_shr_record r1)).
  { unfold round_nearest_even. repeat case_match; lia. }
  destruct (shr_fexp 53 1024 _ e1 loc_Exact) as [r2 e2] eqn:E2.
  pose proof (shr_fexp_nonneg _ e1 loc_Exact Hr) as H2. rewrite E2 in H2. cbn [fst] in H2.
  destruct (shr_m r2) as [|p|p]; [by left| |lia]. case_match; [right; right; by eexists _, _|right; by left].
Qed.

Lemma as_f64_sign n : has_sign (bool_decide (n < 0)) (as_f64 n).
Proof.
  unfold as_f64, binary_normalize, binary_round. destruct n as [|p|p]; [by left|..];
    destruct (shl_align _ _ _) as [mz ez]; by apply binary_round_aux_sign.
Qed.

Lemma f64_div_sign s x m e : has_sign s x → has_sign s (f64_div x (S754_finite false m e)).
Proof.
  intros [->|[->|(m1 & e1 & ->)]]; unfold f64_div; cbn [SFdiv]; rewrite ?Bool.xorb_false_r;
    [by left|right; by left|].
  destruct (SFdiv_core_binary 53 1024 (Zpos m1) e1 (Zpos m) e) as [[q e'] l] eqn:E. apply binary_round_aux_sign.
  unfold SFdiv_core_binary in E. cbv zeta in E.
  match type of E with context [Z.div_eucl ?n _] => assert (Hn : 0 ≤ n); [|revert E Hn; generalize n] end.
  { match goal with |- 0 ≤ match ?x with _ => _ end => destruct x end; [done|by apply Z.shiftl_nonneg|done]. }
  intros n E Hn. pose proof (Z.div_pos n (Zpos m) Hn ltac:(done)) as Hq. unfold Z.div in Hq.
  destruct (Z.div_eucl n (Zpos m)) as [q' r']. by injection E as <- _ _.
Qed.

(** ** Comparison *)

Lemma SFcompare_swap x y : SFcompare y x = CompOpp <$> SFcompare x y.
Proof.
  destruct x as [[]|[]| |[] m e], y as [[]|[]| |[] m' e']; try done; cbn [SFcompare fmap option_fmap option_map];
    f_equal; rewrite (Z.compare_antisym e e'); destruct (e ?= e'); cbn [CompOpp]; try done;
    rewrite (Pos.compare_cont_antisym m m' Eq); by destruct (Pos.compare_cont Eq m m').
Qed.

Lemma has_sign_compare s s' x y : has_sign s x → has_sign s' y → is_Some (SFcompare x y).
Proof. intros [->|[->|(m & e & ->)]] [->|[->|(m' & e' & ->)]]; by eexists. Qed.

Lemma SFltb_false s s' x y : has_sign s x → has_sign s' y → SFltb x y = false → SFleb y x = true.
Proof.
  intros Hx Hy. unfold SFltb, SFleb. rewrite (SFcompare_swap x y).
  destruct (has_sign_compare s s' x y Hx Hy) as [[] ->]; done.
Qed.

Lemma SFleb_refl s x : has_sign s x → SFleb x x = true.
Proof.
  intros Hx. unfold SFleb. destruct (has_sign_compare s s x x Hx Hx) as [c Hc]. rewrite Hc.
  pose proof (SFcompare_swap x x) as Hs. rewrite Hc in Hs. by destruct c.
Qed.

(** A clamped number is within the bounds and keeps to its side of zero. *)
Lemma clamp_bounds s x lo hi :
  has_sign s x → has_sign true lo → has_sign false hi → SFleb lo hi = true →
  SFleb lo (f64_clamp x lo hi) = true ∧ SFleb (f64_clamp x lo hi) hi = true ∧ has_sign s (f64_clamp x lo hi).
Proof.
  intros Hx Hlo Hhi Hlh. unfold f64_clamp. destruct (SFltb x lo) eqn:H1.
  - assert (s = true) as ->.
    { destruct s; [done|]. revert H1. unfold SFltb.
      destruct Hx as [->|[->|(m & e & ->)]], Hlo as [->|[->|(m' & e' & ->)]]; done. }
    destruct (SFltb hi lo) eqn:H2.
    + exfalso. revert H2. unfold SFltb. destruct Hhi as [->|[->|(m & e & ->)]], Hlo as [->|[->|(m' & e' & ->)]]; done.
    + split_and!; [by eapply SFleb_refl|done|done].
  - destruct (SFltb hi x) eqn:H2.
    + assert (s = false) as ->.
      { destruct s; [|done]. revert H2. unfold SFltb.
        destruct Hhi as [->|[->|(m & e & ->)]], Hx as [->|[->|(m' & e' & ->)]]; done. }
      split_and!; [done|by eapply SFleb_refl|done].
    + split_and!; [by eapply SFltb_false|by eapply SFltb_false|done].
Qed.

Lemma has_sign_zero s x :
  has_sign s x → if s then SFleb x (S754_zero false) = true else SFleb (S754_zero false) x = true.
Proof. intros [->|[->|(m & e & ->)]]; by destruct s. Qed.
