(* ===== verification/Funding.v ===== *)
(** * Oracle prices and native funding ([oracle.rs] and the funding poll of [api.rs])

    The Hermes client, the conversion of a price to a tick, the live prices the matcher reads, and
    the accrual of each market's funding index.  [f64::powi] has no specified precision and is a
    parameter; the JSON of a Hermes response and hexadecimal decoding are third-party. *)
From Stdlib Require Import SpecFloat.
From S2P Require Import Prelude Ints Text F64 Types U256 I256 Risk Averages Fees MarketData Backstop.
From S2P Require Import Positions Liquidation Book Wire Matcher.
Open Scope Z_scope.

(** ** The Hermes client *)

Inductive OracleError := Request | BadResponse | MissingFeed (feed_id : string).

Record PythPrice := {
  price : Z;
  confidence : Z;
  expo : Z;
  publish_time : Z;
  ema_price : Z;
}.

(** A response as JSON gives it: the integers are strings. *)
Record HermesPrice := { hp_price : Bytes; hp_conf : Bytes; hp_expo : Z; hp_publish_time : Z }.
Record HermesParsedFeed := { hf_id : string; hf_price : HermesPrice; hf_ema_price : HermesPrice }.
Record HermesResponse := { parsed : list HermesParsedFeed; binary : option (list Bytes) }.

(** One attempt of [fetch_hermes_body]: whether a client is built, the status and the text of the
    answer, and what the fallback printed when it ran and succeeded. *)
Record Attempt := {
  at_client : bool;
  at_response : option (Z * option Bytes);
  at_curl : option (option Bytes);
}.

Definition MAX_ATTEMPTS : nat := 3.
Definition HERMES_BASE_URL : Bytes := into_bytes "https://hermes.pyth.network".

Section oracle.
Context (from_str : Bytes → option HermesResponse) (hex_decode : Bytes → option Bytes).
(** What the attempts at a URL meet. *)
Context (attempt : Bytes → nat → Attempt).

Fixpoint try_attempts (url : Bytes) (remaining : nat) (n : nat) : result Bytes OracleError :=
  match remaining with
  | O => Err BadResponse
  | S remaining =>
      let a := attempt url n in
      let fallback := match at_curl a with
                      | None => Err BadResponse
                      | Some (Some body) => Ok body
                      | Some None => try_attempts url remaining (S n)
                      end in
      if at_client a then
        match at_response a with
        | Some (code, text) => if bool_decide (200 ≤ code ≤ 299) then ok_or text Request else fallback
        | None => fallback
        end
      else Err Request
  end.
Definition fetch_hermes_body (url : Bytes) : result Bytes OracleError := try_attempts url MAX_ATTEMPTS 1.

Definition latest_url (feed_ids : list string) : Bytes :=
  foldl (λ url id, url ++ into_bytes "ids[]=" ++ into_bytes id ++ into_bytes "&")
    (HERMES_BASE_URL ++ into_bytes "/v2/updates/price/latest?") feed_ids.

Definition hermes_price_ok (p : HermesPrice) : option (Z * Z) :=
  price ← parse_i64 (hp_price p); conf ← parse_u64 (hp_conf p); Some (price, conf).

Definition pyth_price (feed : HermesParsedFeed) : option (string * PythPrice) :=
  '(price, conf) ← hermes_price_ok (hf_price feed);
  '(ema, _) ← hermes_price_ok (hf_ema_price feed);
  Some (hf_id feed,
    {| price := price; confidence := conf; expo := hp_expo (hf_price feed);
       publish_time := hp_publish_time (hf_price feed); ema_price := ema |}).

(** Decoding fails as a whole when one integer does not parse. *)
Definition decode_response (body : Bytes) : option (list (string * PythPrice) * option (list Bytes)) :=
  r ← from_str body; feeds ← mapM pyth_price (parsed r); Some (feeds, binary r).

(** A later feed of the same id replaces an earlier one. *)
Definition parse_hermes_response (body : Bytes) : result (gmap string PythPrice) OracleError :=
  match decode_response body with
  | None => Err BadResponse
  | Some (feeds, _) => Ok (foldl (λ m e, <[e.1 := e.2]> m) ∅ feeds)
  end.

Definition fetch_latest_prices (feed_ids : list string) : result (gmap string PythPrice) OracleError :=
  match fetch_hermes_body (latest_url feed_ids) with
  | Err e => Err e
  | Ok body => parse_hermes_response body
  end.

Definition fetch_price (feed_id : string) : result PythPrice OracleError :=
  match fetch_latest_prices [feed_id] with
  | Err e => Err e
  | Ok prices => ok_or (prices !! feed_id) (MissingFeed feed_id)
  end.

Definition fetch_update_data (feed_ids : list string) : result (list Bytes) OracleError :=
  match fetch_hermes_body (latest_url feed_ids) with
  | Err e => Err e
  | Ok body =>
      match decode_response body with
      | Some (_, Some data) => ok_or (mapM hex_decode data) BadResponse
      | _ => Err BadResponse
      end
  end.
End oracle.

(** ** Live prices *)

Section prices.
(** [10f64.powi]. *)
Context (powi10 : Z → f64).

Definition pyth_price_to_tick (price expo scale : Z) : Z :=
  let scaled := f64_mul (f64_mul (as_f64 price) (powi10 expo)) (as_f64 scale) in
  if SFleb scaled (S754_zero false) then 0 else f64_as_u64 (f64_round scaled).

Definition feed_to_market (feeds : gmap MarketId string) (market_ids : list MarketId) : gmap string MarketId :=
  foldl (λ m id, match feeds !! id with Some feed => <[feed := id]> m | None => m end) ∅ market_ids.

(** [fetch] is [fetch_latest_prices] on the feeds, in the order the map is iterated. *)
Definition live_mark_prices (fetch : list string → result (gmap string PythPrice) OracleError)
    (feeds : gmap MarketId string) (market_ids : list MarketId) : gmap MarketId Z :=
  let markets := feed_to_market feeds market_ids in
  if decide (markets = ∅) then ∅
  else match fetch (fst <$> map_to_list markets) with
       | Err _ => ∅
       | Ok prices =>
           list_to_map (omap (λ '(feed_id, p),
             market_id ← markets !! feed_id;
             Some (market_id, pyth_price_to_tick (price p) (expo p) (price_scale_for_market market_id)))
             (map_to_list prices))
       end.
End prices.

(** ** Native funding *)

Definition FUNDING_RATE_CLAMP_BPS : f64 := as_f64 5.
Definition FUNDING_PREMIUM_WINDOW : nat := 720.

(** [funding_premium_history] and [funding_index_native]: the index, when it was last accrued and
    the rate that accrues until the next poll. *)
Record Funding := {
  funding_premium_history : gmap MarketId (list Z);
  funding_index_native : gmap MarketId (f64 * Z * f64);
}.

Definition new_funding : Funding := {| funding_premium_history := ∅; funding_index_native := ∅ |}.

(** The middle of the book, when it has two sides. *)
Definition mid_tick (st : AppState) (m : MarketId) : option Z :=
  b ← books st !! m; bid ← best_bid b; ask ← best_ask b; Some ((bid + ask) / 2).

Definition raw_premium_bps (mid oracle_tick : Z) : Z :=
  Z.max i64_min (Z.min i64_max (Z.quot (i128_mul (i128_sub (as_i128 mid) (as_i128 oracle_tick)) 10000)
    (as_i128 oracle_tick))).

(** [push_back], then [pop_front] while there are too many. *)
Definition push_sample (samples : list Z) (x : Z) : list Z :=
  let samples := samples ++ [x] in drop (length samples - FUNDING_PREMIUM_WINDOW) samples.

(** [iter().sum::<i64>()]. *)
Definition i64_sum (l : list Z) : Z := foldl (λ acc x, wraps 64 (acc + x)) 0 l.

Definition rate_of (samples : list Z) : f64 :=
  f64_clamp (f64_div (as_f64 (i64_sum samples)) (as_f64 (Z.of_nat (length samples))))
    (SFopp FUNDING_RATE_CLAMP_BPS) FUNDING_RATE_CLAMP_BPS.

(** [delta] of one accrual. *)
Definition funding_delta (rate : f64) (mid elapsed : Z) : f64 :=
  f64_div (f64_mul (f64_mul rate (as_f64 mid)) (as_f64 elapsed)) (f64_mul (as_f64 10000) (as_f64 3600)).

(** The body of the loop, for one market. *)
Definition fund_market (st : AppState) (now : Z) (f : Funding) (e : MarketId * Z) : Funding :=
  let '(m, oracle_tick) := e in
  if decide (oracle_tick = 0) then f
  else match mid_tick st m with
  | None => f
  | Some mid =>
      let samples := push_sample (default [] (funding_premium_history f !! m)) (raw_premium_bps mid oracle_tick) in
      let rate := rate_of samples in
      let '(index, last, previous) := default (as_f64 0, now, rate) (funding_index_native f !! m) in
      let elapsed := Z.max 0 (now - last) in
      let index := if decide (0 < elapsed) then f64_add index (funding_delta previous mid elapsed) else index in
      {| funding_premium_history := <[m := samples]> (funding_premium_history f);
         funding_index_native := <[m := (index, now, rate)]> (funding_index_native f) |}
  end.

(** [oracle_ticks] is what [live_mark_prices] answered, in the order it is iterated, each price with the
    state its iteration finds: the books are locked anew for every market. *)
Definition poll_funding_native (feeds : gmap MarketId string) (now : Z) (f : Funding)
    (oracle_ticks : list (AppState * (MarketId * Z))) : Funding :=
  if decide (feeds = ∅) then f else foldl (λ f '(st, e), fund_market st now f e) f oracle_ticks.

(** ** Reading the index *)

Definition funding_index_for (f : Funding) (m : MarketId) : Z :=
  match funding_index_native f !! m with
  | Some (index, _, _) => f64_as_i128 (f64_round index)
  | None => 0
  end.

Definition funding_indices_snapshot (f : Funding) : gmap MarketId Z :=
  (λ e, f64_as_i128 (f64_round e.1.1)) <$> funding_index_native f.

Record FundingResponse := { fr_funding_index : option Z; fr_rate_1h_bps : option f64 }.

Definition get_funding (f : Funding) (m : MarketId) : FundingResponse :=
  let entry := funding_index_native f !! m in
  {| fr_funding_index := (λ e, f64_as_i128 (f64_round e.1.1)) <$> entry;
     fr_rate_1h_bps := (λ e, f64_div (f64_round (f64_mul e.2 (as_f64 100))) (as_f64 100)) <$> entry |}.
