(* ===== verification/FundingProps.v ===== *)
(** * Oracle prices and native funding: theorems

    Which live prices the matcher reads, what rate a market charges after any sequence of polls, and
    what a gap between two signals costs. *)
From Stdlib Require Import SpecFloat.
From S2P Require Import Prelude Ints Text F64 Types U256 I256 Risk Averages Fees MarketData Backstop.
From S2P Require Import Positions Liquidation Book Wire Matcher Funding.
Open Scope Z_scope.

(** ** Runs of the poll *)

(** What one iteration of the poll's loop sees. *)
Record Sight := { sg_state : AppState; sg_now : Z; sg_oracle : MarketId * Z }.

Definition fund (f : Funding) (s : Sight) : Funding := fund_market (sg_state s) (sg_now s) f (sg_oracle s).

(** A poll at a time, with what the oracle answered and the state each market is found in. *)
Record Poll := { pl_now : Z; pl_ticks : list (AppState * (MarketId * Z)) }.

Definition sights (p : Poll) : list Sight :=
  (λ '(st, e), {| sg_state := st; sg_now := pl_now p; sg_oracle := e |}) <$> pl_ticks p.

Definition run_polls (feeds : gmap MarketId string) (f : Funding) (ps : list Poll) : Funding :=
  foldl (λ f p, poll_funding_native feeds (pl_now p) f (pl_ticks p)) f ps.

(** The premium a market shows, if the book has two sides and the oracle a price. *)
Definition premium (m : MarketId) (s : Sight) : option Z :=
  if decide ((sg_oracle s).1 = m ∧ (sg_oracle s).2 ≠ 0) then
    mid ← mid_tick (sg_state s) m; Some (raw_premium_bps mid (sg_oracle s).2)
  else None.

Definition premia (m : MarketId) (ps : list Poll) : list Z := omap (premium m) (ps ≫= sights).

(** The last 720. *)
Definition window (l : list Z) : list Z := drop (length l - FUNDING_PREMIUM_WINDOW) l.

(** ** Lemmas *)

Lemma run_polls_fund feeds f ps : feeds ≠ ∅ → run_polls feeds f ps = foldl fund f (ps ≫= sights).
Proof.
  intros Hf. revert f. induction ps as [|p ps IH]; intros f; [done|]. cbn [run_polls foldl mbind list_bind].
  change (foldl _ _ ps) with (run_polls feeds (poll_funding_native feeds (pl_now p) f (pl_ticks p)) ps).
  rewrite IH. change (mbind sights ps) with (ps ≫= sights). rewrite foldl_app. f_equal.
  unfold poll_funding_native. rewrite decide_False by done. unfold sights. revert f.
  induction (pl_ticks p) as [|[st e] l IHl]; intros f; [done|]. cbn [fmap list_fmap foldl]. apply IHl.
Qed.

Lemma window_length l : (length (window l) ≤ FUNDING_PREMIUM_WINDOW)%nat.
Proof. unfold window. rewrite length_drop. lia. Qed.

Lemma window_push l x : push_sample (window l) x = window (l ++ [x]).
Proof.
  unfold push_sample, window. rewrite !length_app, !length_drop. cbn [length].
  rewrite <- (drop_app_le _ [x]) at 1 by lia. rewrite drop_drop. f_equal. unfold FUNDING_PREMIUM_WINDOW. lia.
Qed.

Lemma window_nonempty l : l ≠ [] → window l ≠ [].
Proof.
  intros Hl E. apply (f_equal length) in E. unfold window, FUNDING_PREMIUM_WINDOW in E. rewrite length_drop in E.
  destruct l; [done|]. cbn [length] in E. lia.
Qed.

(** A sight without a premium changes nothing of the market; one with a premium appends it. *)
Lemma fund_none f s m :
  premium m s = None →
  funding_premium_history (fund f s) !! m = funding_premium_history f !! m ∧
  funding_index_native (fund f s) !! m = funding_index_native f !! m.
Proof.
  unfold premium, fund, fund_market. destruct (sg_oracle s) as [m' oracle]. cbn [fst snd].
  destruct (decide (oracle = 0)) as [Hz|Hz]; [done|]. destruct (decide (m' = m)) as [->|Hne].
  - rewrite decide_True by done. destruct (mid_tick (sg_state s) m) as [mid|]; [done|]. done.
  - intros _. destruct (mid_tick (sg_state s) m') as [mid|]; [|done].
    destruct (default _ (funding_index_native f !! m')) as [[i l] r]. cbn. by rewrite !lookup_insert_ne.
Qed.

Lemma fund_some f s m x :
  premium m s = Some x →
  ∃ mid, mid_tick (sg_state s) m = Some mid ∧
    let samples := push_sample (default [] (funding_premium_history f !! m)) x in
    funding_premium_history (fund f s) !! m = Some samples ∧
    funding_index_native (fund f s) !! m =
      Some (match funding_index_native f !! m with
            | Some (i, l, r) =>
                if decide (l < sg_now s) then f64_add i (funding_delta r mid (sg_now s - l)) else i
            | None => as_f64 0
            end, sg_now s, rate_of samples).
Proof.
  unfold premium, fund, fund_market. destruct (sg_oracle s) as [m' oracle]. cbn [fst snd].
  case_decide as Hm; [|done]. destruct Hm as [-> Hz]. rewrite decide_False by done.
  intros (mid & Hmid & [= <-])%bind_Some. exists mid. split; [done|]. rewrite Hmid. cbv zeta.
  destruct (funding_index_native f !! m) as [[[i l] r]|]; cbn [default from_option id];
    cbn [funding_premium_history funding_index_native]; rewrite !lookup_insert_eq.
  - split; [done|]. do 3 f_equal. repeat case_decide; try lia; [|done]. f_equal. f_equal. lia.
  - split; [done|]. do 3 f_equal. rewrite decide_False by lia. done.
Qed.

(** What is kept of a market after the premia [ps]. *)
Definition tracked (m : MarketId) (ps : list Z) (f : Funding) : Prop :=
  funding_premium_history f !! m = (if decide (ps = []) then None else Some (window ps)) ∧
  match funding_index_native f !! m with
  | Some (_, _, rate) => ps ≠ [] ∧ rate = rate_of (window ps)
  | None => ps = []
  end.

Lemma fund_tracked m ps f s :
  tracked m ps f → tracked m (ps ++ match premium m s with Some x => [x] | None => [] end) (fund f s).
Proof.
  intros [Hh Hi]. destruct (premium m s) as [x|] eqn:Hp.
  - apply fund_some with (f := f) in Hp as (mid & _ & Hh' & Hi'). unfold tracked. rewrite Hh', Hi', Hh.
    assert (Hs : push_sample (default [] (if decide (ps = []) then None else Some (window ps))) x = window (ps ++ [x])).
    { rewrite <- window_push. by case_decide; subst. }
    rewrite Hs. rewrite decide_False by (by destruct ps). split; [done|]. split; [by destruct ps|done].
  - apply fund_none with (f := f) in Hp as [Hh' Hi']. rewrite app_nil_r. unfold tracked. by rewrite Hh', Hi'.
Qed.

Lemma funds_tracked m ps f l :
  tracked m ps f → tracked m (ps ++ omap (premium m) l) (foldl fund f l).
Proof.
  revert ps f. induction l as [|s l IH]; intros ps f Hf; cbn [foldl omap list_omap]; [by rewrite app_nil_r|].
  apply (fund_tracked _ _ _ s), IH in Hf. rewrite <- app_assoc in Hf. destruct (premium m s); exact Hf.
Qed.

(** ** The rate *)

Lemma as_f64_lengths : Forall (λ n, match as_f64 n with S754_finite false _ _ => True | _ => False end) (seqZ 1 720).
Proof.
  assert (H : forallb (λ n, match as_f64 n with S754_finite false _ _ => true | _ => false end) (seqZ 1 720) = true)
    by by vm_compute.
  apply Forall_forall. intros n Hn. rewrite forallb_forall in H. specialize (H n ltac:(by apply list_elem_of_In)).
  destruct (as_f64 n) as [| | |[]]; done.
Qed.

Lemma rate_of_bounds samples :
  samples ≠ [] → (length samples ≤ FUNDING_PREMIUM_WINDOW)%nat →
  let rate := rate_of samples in
  SFleb (SFopp FUNDING_RATE_CLAMP_BPS) rate = true ∧ SFleb rate FUNDING_RATE_CLAMP_BPS = true ∧
  has_sign (bool_decide (i64_sum samples < 0)) rate.
Proof.
  intros Hne Hl. unfold rate_of, FUNDING_PREMIUM_WINDOW in *.
  assert (Hn : Z.of_nat (length samples) ∈ seqZ 1 720).
  { apply elem_of_seqZ. destruct samples; [done|]. cbn [length] in *. lia. }
  pose proof (proj1 (Forall_forall _ _) as_f64_lengths _ Hn) as Hf. cbn beta in Hf.
  destruct (as_f64 (Z.of_nat (length samples))) as [| | |[] m e]; try done.
  apply clamp_bounds; [|by right; right; eexists _, _..|done].
  apply f64_div_sign, as_f64_sign.
Qed.

(** Premia of ordinary size do not overflow the sum. *)
Lemma i64_sum_exact l :
  Forall (λ x, Z.abs x ≤ 2 ^ 53) l → (length l ≤ FUNDING_PREMIUM_WINDOW)%nat → i64_sum l = sumZ l.
Proof.
  unfold i64_sum, FUNDING_PREMIUM_WINDOW.
  assert (H : ∀ acc, Forall (λ x, Z.abs x ≤ 2 ^ 53) l → Z.abs acc + Z.of_nat (length l) * 2 ^ 53 < 2 ^ 63 →
            foldl (λ acc x, wraps 64 (acc + x)) acc l = acc + sumZ l).
  { induction l as [|x l IH]; intros acc Hf Hacc; cbn [foldl]; [cbn; lia|]. rewrite sumZ_cons.
    apply Forall_cons in Hf as [Hx Hf]. cbn [length] in Hacc.
    rewrite wraps_small by (unfold in_s; lia). rewrite IH by (done || lia). lia. }
  intros Hf Hl. rewrite H by (done || lia). lia.
Qed.

Lemma funds_quiet m f l :
  omap (premium m) l = [] → funding_index_native (foldl fund f l) !! m = funding_index_native f !! m.
Proof.
  revert f. induction l as [|s l IH]; intros f Hl; [done|]. cbn [foldl omap list_omap] in *.
  destruct (premium m s) eqn:Hp; [done|]. rewrite IH by done. by apply fund_none.
Qed.

Lemma omap_singleton {A B} (g : A → option B) l x :
  omap g l = [x] → ∃ l1 a l2, l = l1 ++ a :: l2 ∧ omap g l1 = [] ∧ g a = Some x ∧ omap g l2 = [].
Proof.
  induction l as [|a l IH]; [done|]. cbn [omap list_omap]. destruct (g a) as [b|] eqn:Ha.
  - intros [= -> Hl]. by exists [], a, l.
  - intros (l1 & a' & l2 & -> & H1 & H2 & H3)%IH. exists (a :: l1), a', l2. cbn [omap list_omap app].
    by rewrite Ha.
Qed.

Lemma run_polls_app feeds f ps qs : run_polls feeds f (ps ++ qs) = run_polls feeds (run_polls feeds f ps) qs.
Proof. unfold run_polls. by rewrite foldl_app. Qed.

(** ** Live prices *)

Lemma feed_to_market_lookup feeds ids feed m :
  feed_to_market feeds ids !! feed = Some m ↔
  ∃ l1 l2, ids = l1 ++ m :: l2 ∧ feeds !! m = Some feed ∧ Forall (λ m', feeds !! m' ≠ Some feed) l2.
Proof.
  unfold feed_to_market. induction ids as [|x ids IH] using rev_ind.
  - cbn [foldl]; rewrite lookup_empty. split; [done|]. intros (l1 & l2 & E & _). by destruct l1.
  - rewrite foldl_app. cbn [foldl]. set (acc := foldl _ ∅ ids) in *.
    assert (Hother : feeds !! x ≠ Some feed →
      acc !! feed = Some m ↔ ∃ l1 l2, ids ++ [x] = l1 ++ m :: l2 ∧ feeds !! m = Some feed ∧
        Forall (λ m', feeds !! m' ≠ Some feed) l2).
    { intros Hx. rewrite IH. split.
      - intros (l1 & l2 & -> & Hm & Hl). exists l1, (l2 ++ [x]). rewrite <- app_assoc. split_and!; [done|done|].
        apply Forall_app. split; [done|]. by apply Forall_cons_2, Forall_nil_2.
      - intros (l1 & l2 & E & Hm & Hl). destruct l2 as [|y l2 _] using rev_ind.
        + apply app_inj_2 in E as [_ [= ->]]; done.
        + rewrite app_comm_cons, app_assoc in E. apply app_inj_2 in E as [-> [= ->]]; [|done].
          apply Forall_app in Hl as [Hl _]. by exists l1, l2. }
    destruct (feeds !! x) as [feed'|] eqn:Hx; [|by apply Hother].
    destruct (decide (feed' = feed)) as [->|Hne]; [|rewrite lookup_insert_ne by done; apply Hother; congruence].
    rewrite lookup_insert_eq. split.
    + intros [= ->]. by exists ids, [].
    + intros (l1 & l2 & E & Hm & Hl). destruct l2 as [|y l2 _] using rev_ind.
      * by apply app_inj_2 in E as [_ [= ->]].
      * rewrite app_comm_cons, app_assoc in E. apply app_inj_2 in E as [-> [= ->]]; [|done].
        apply Forall_app in Hl as [_ [Hl _]%Forall_cons]. done.
Qed.

Lemma f64_as_range lo hi x : lo ≤ 0 ≤ hi → lo ≤ f64_as lo hi x ≤ hi.
Proof. intros. unfold f64_as. repeat case_match; lia. Qed.

Lemma pyth_price_to_tick_range powi10 p e s : in_u 64 (pyth_price_to_tick powi10 p e s).
Proof.
  unfold pyth_price_to_tick. case_match; [done|].
  pose proof (f64_as_range 0 u64_max (f64_round (f64_mul (f64_mul (as_f64 p) (powi10 e)) (as_f64 s)))
    ltac:(unfold u64_max; lia)) as Hr. unfold in_u, f64_as_u64, u64_max in *. lia.
Qed.

(** Keys stay distinct through a partial map that is injective on them. *)
Lemma omap_keys_NoDup {K K' A B} (g : K * A → option (K' * B)) (R : K' → K → Prop) (l : list (K * A)) :
  (∀ k' k1 k2, R k' k1 → R k' k2 → k1 = k2) → (∀ x y, g x = Some y → R y.1 x.1) → NoDup l.*1 → NoDup (omap g l).*1.
Proof.
  intros HR Hg. induction l as [|x l IH]; intros Hnd; [constructor|]. cbn [fmap list_fmap] in Hnd.
  apply NoDup_cons in Hnd as [Hx Hnd]. cbn [omap list_omap]. destruct (g x) as [y|] eqn:Hy; [|by apply IH].
  cbn [fmap list_fmap]. apply NoDup_cons. split; [|by apply IH].
  intros (y' & Heq & (x' & Hx' & Hy')%list_elem_of_omap)%list_elem_of_fmap. apply Hx.
  apply list_elem_of_fmap. exists x'. split; [|done]. apply (HR y.1); [by apply Hg|]. rewrite Heq. by apply Hg.
Qed.

(** ** Theorems *)

(** The prices the matcher reads.  A market has a live price exactly when the fetch succeeded
    with its feed and no later market of the request shares that feed; the price is then the tick of
    the feed's price at the market's scale, a [u64].  Of two markets with one feed, only the last of
    the request is ever priced; without an answer nothing is. *)
Theorem live_mark_prices_exact powi10 fetch feeds market_ids m tick :
  let fetched := fetch (fst <$> map_to_list (feed_to_market feeds market_ids)) in
  live_mark_prices powi10 fetch feeds market_ids !! m = Some tick ↔
  ∃ prices feed p l1 l2,
    fetched = Ok prices ∧ prices !! feed = Some p ∧
    market_ids = l1 ++ m :: l2 ∧ feeds !! m = Some feed ∧ Forall (λ m', feeds !! m' ≠ Some feed) l2 ∧
    tick = pyth_price_to_tick powi10 (price p) (expo p) (price_scale_for_market m) ∧ in_u 64 tick.
Proof.
  cbv zeta. unfold live_mark_prices. case_decide as Hemp.
  { rewrite lookup_empty. split; [done|]. intros (prices & feed & p & l1 & l2 & _ & _ & Hids & Hf & Hl & _).
    exfalso. assert (feed_to_market feeds market_ids !! feed = Some m) as E by (apply feed_to_market_lookup; eauto).
    rewrite Hemp in E. by rewrite lookup_empty in E. }
  destruct (fetch _) as [prices|e]; [|rewrite lookup_empty; split; [done|]; by intros (? & ? & ? & ? & ? & ? & _)].
  set (g := λ '(feed_id, p), _). rewrite <- elem_of_list_to_map; cycle 1.
  { apply (omap_keys_NoDup _ (λ m feed, feeds !! m = Some feed)); [congruence| |apply NoDup_fst_map_to_list].
    intros [feed p] [m' t] Hg. unfold g in Hg. apply bind_Some in Hg as (m1 & Hm & [= <- _]).
    by apply feed_to_market_lookup in Hm as (_ & _ & _ & Hf & _). }
  rewrite list_elem_of_omap. split.
  - intros ([feed p] & Hin & Hg). apply elem_of_map_to_list in Hin. unfold g in Hg.
    apply bind_Some in Hg as (m' & Hm & [= -> <-]). apply feed_to_market_lookup in Hm as (l1 & l2 & -> & Hf & Hl).
    exists prices, feed, p, l1, l2. split_and!; try done. apply pyth_price_to_tick_range.
  - intros (prices' & feed & p & l1 & l2 & [= <-] & Hp & Hids & Hf & Hl & -> & _). exists (feed, p).
    split; [by apply elem_of_map_to_list|]. unfold g.
    assert (feed_to_market feeds market_ids !! feed = Some m) as -> by (apply feed_to_market_lookup; eauto).
    done.
Qed.

(** C35: The funding rate follows the premium, within its clamp.  After any sequence of polls a market
    keeps exactly the last 720 premia it showed, and its rate is the clamped average of those: a
    number between -5 and 5 basis points per hour, not below zero when their sum is positive and not
    above when it is negative; for premia below [2^53] the sum is the true one.  A market that never
    showed a premium has neither. *)
Theorem funding_rate_bounded feeds ps m :
  feeds ≠ ∅ →
  let f := run_polls feeds new_funding ps in
  let xs := premia m ps in
  (xs = [] → funding_premium_history f !! m = None ∧ funding_index_native f !! m = None) ∧
  (xs ≠ [] → ∃ index last rate,
     funding_premium_history f !! m = Some (window xs) ∧ funding_index_native f !! m = Some (index, last, rate) ∧
     (length (window xs) ≤ FUNDING_PREMIUM_WINDOW)%nat ∧ rate = rate_of (window xs) ∧
     SFleb (SFopp FUNDING_RATE_CLAMP_BPS) rate = true ∧ SFleb rate FUNDING_RATE_CLAMP_BPS = true ∧
     (0 < i64_sum (window xs) → SFleb (S754_zero false) rate = true) ∧
     (i64_sum (window xs) < 0 → SFleb rate (S754_zero false) = true) ∧
     (Forall (λ x, Z.abs x ≤ 2 ^ 53) (window xs) → i64_sum (window xs) = sumZ (window xs))).
Proof.
  intros Hf f xs. assert (Ht : tracked m xs f).
  { unfold f, xs, premia. rewrite run_polls_fund by done. apply (funds_tracked m []). by split. }
  destruct Ht as [Hh Hi]. split.
  - intros Hx. rewrite Hx, decide_True in Hh by done. split; [done|].
    destruct (funding_index_native f !! m) as [[[? ?] ?]|]; [|done]. by destruct Hi.
  - intros Hx. rewrite decide_False in Hh by done. destruct (funding_index_native f !! m) as [[[i l] r]|]; [|done].
    destruct Hi as [_ ->]. exists i, l, (rate_of (window xs)).
    pose proof (window_length xs) as Hl.
    destruct (rate_of_bounds (window xs) (window_nonempty _ Hx) Hl) as (Hlo & Hhi & Hs).
    apply has_sign_zero in Hs. split_and!; try done.
    + intros Hp. rewrite bool_decide_false in Hs by lia. done.
    + intros Hp. rewrite bool_decide_true in Hs by lia. done.
    + intros Hb. by apply i64_sum_exact.
Qed.

(** A gap is charged in full.  Between two polls that show a market's premium, whatever happens in
    polls that do not, its index does not move; at the second it moves by the rate of the first, over
    the whole time between them, at the second's mid price. *)
Theorem funding_gap_charged feeds before gap p m index last rate x :
  feeds ≠ ∅ →
  funding_index_native (run_polls feeds new_funding before) !! m = Some (index, last, rate) →
  premia m gap = [] → premia m [p] = [x] →
  funding_index_native (run_polls feeds new_funding (before ++ gap)) !! m = Some (index, last, rate) ∧
  ∃ s mid rate', s ∈ sights p ∧ mid_tick (sg_state s) m = Some mid ∧
    funding_index_native (run_polls feeds new_funding (before ++ gap ++ [p])) !! m =
      Some (if decide (last < pl_now p) then f64_add index (funding_delta rate mid (pl_now p - last)) else index,
            pl_now p, rate').
Proof.
  intros Hf Hb Hg Hp. assert (Hq : funding_index_native (run_polls feeds new_funding (before ++ gap)) !! m =
    Some (index, last, rate)).
  { rewrite run_polls_app, run_polls_fund by done. by rewrite funds_quiet. }
  split; [done|]. rewrite app_assoc, run_polls_app. revert Hq. generalize (run_polls feeds new_funding (before ++ gap)).
  intros f Hq. rewrite run_polls_fund by done. unfold premia in Hp.
  change ([p] ≫= sights) with (sights p ++ []) in *. rewrite app_nil_r in *.
  apply omap_singleton in Hp as (l1 & s & l2 & Hs & H1 & Hx & H2). rewrite Hs, foldl_app. cbn [foldl].
  assert (Hin : s ∈ sights p) by (rewrite Hs; set_solver).
  pose proof Hin as Hin'. apply list_elem_of_fmap in Hin' as ([st e] & -> & _).
  rewrite funds_quiet by done.
  apply (fund_some (foldl fund f l1)) in Hx as (mid & Hmid & _ & Hidx). cbn [sg_state sg_now] in *.
  eexists _, mid, (rate_of (push_sample (default [] (funding_premium_history (foldl fund f l1) !! m)) x)).
  split; [by rewrite <- Hs|]. split; [done|]. rewrite Hidx, funds_quiet by done. by rewrite Hq.
Qed.

(** ** A market two ticks above its oracle price *)

Definition quoted : AppState :=
  match foldl (λ st o, '(st, _) ← st; '(r, st') ← submit_order st "EURC/USDC" o 0; Ret (st', Some r))
          (Ret (new_state, None))
          [{| no_side := Long; no_tick := 10000; no_qty := 5; no_owner := 1; no_tif := GoodTilCancel; post_only := true |};
           {| no_side := Short; no_tick := 10004; no_qty := 5; no_owner := 2; no_tif := GoodTilCancel; post_only := true |}]
  with Ret (st, _) => st | Panic => new_state end.
Definition demo_feeds : gmap MarketId string := {[ "EURC/USDC" := "eur" ]}.
Definition demo_poll (now : Z) (ticks : list (MarketId * Z)) : Poll :=
  {| pl_now := now; pl_ticks := (quoted,.) <$> ticks |}.
Definition demo_poll_at (now : Z) : Poll := demo_poll now [("EURC/USDC", 10000)].

Lemma funding_rate_bounded_witness :
  let f := run_polls demo_feeds new_funding [demo_poll_at 100; demo_poll 200 []; demo_poll_at 3700] in
  funding_premium_history f !! "EURC/USDC" = Some [2; 2] ∧ rate_of [2; 2] = as_f64 2 ∧
  SFleb (rate_of [2; 2]) FUNDING_RATE_CLAMP_BPS = true.
Proof.
  assert (Hf : demo_feeds ≠ ∅) by by apply (bool_decide_unpack _).
  destruct (proj2 (funding_rate_bounded demo_feeds [demo_poll_at 100; demo_poll 200 []; demo_poll_at 3700]
    "EURC/USDC" Hf) ltac:(by vm_compute)) as (i & l & r & Hh & _ & _ & -> & _ & Hr & _).
  split_and!; [rewrite Hh; by vm_compute|by vm_compute|]. revert Hr. by vm_compute.
Defined.

(** Two basis points for an hour at a mid of 10002. *)
Lemma funding_gap_charged_witness :
  ∃ index rate,
    funding_index_native (run_polls demo_feeds new_funding ([demo_poll_at 100] ++ [demo_poll 200 []] ++ [demo_poll_at 3700]))
      !! "EURC/USDC" = Some (index, 3700, rate) ∧
    f64_as_i128 (f64_round index) = 2.
Proof.
  assert (Hf : demo_feeds ≠ ∅) by by apply (bool_decide_unpack _).
  destruct (funding_gap_charged demo_feeds [demo_poll_at 100] [demo_poll 200 []] (demo_poll_at 3700) "EURC/USDC"
    (as_f64 0) 100 (as_f64 2) 2 Hf ltac:(by vm_compute) ltac:(by vm_compute) ltac:(by vm_compute)) as (_ & s & mid & rate & Hs & Hmid & H).
  eexists _, rate. split; [exact H|]. apply list_elem_of_singleton in Hs as ->. vm_compute in Hmid. injection Hmid as <-. by vm_compute.
Defined.
