(* ===== verification/Pusher.v ===== *)
(** * The price keeper ([bin/keeper_price_pusher.rs])

    Its configuration and one push: the sanity check of each live price against the chain's, the
    guardian-signed update and its fee, and the refresh of the FX discovery references.  The chain is
    an environment that answers each request knowing every request before it; ABI decoding, the
    parsing of ids, addresses, keys and URLs, and [f64::powi] are third-party or unspecified, and
    parameters. *)
From Stdlib Require Import SpecFloat.
From S2P Require Import Prelude Ints Text F64 Types Fees Positions Config Funding.
Open Scope Z_scope.

(** ** Configuration *)

Record PusherConfig := {
  pyth_contract : Address;
  feed_ids : list Bytes;
  pc_poll_interval : Z;
  fx_market_ids : list Bytes;
  oracle_hub : option Address;
}.

Section configuration.
Context (var : string → option Bytes) (parse_address parse_key : Bytes → option Z) (parse_url : Bytes → bool).

Definition configure_pusher : exec PusherConfig :=
  rpc_url ← expect (var "SETTLEMENT_RPC_URL");
  pyth_raw ← expect (var "PYTH_CONTRACT_ADDRESS");
  pyth_contract ← expect (parse_address pyth_raw);
  private_key ← expect (var "KEEPER_PRIVATE_KEY");
  feed_ids_raw ← expect (var "PYTH_FEED_IDS");
  let feed_ids := pairs feed_ids_raw in
  if decide (feed_ids = []) then Panic
  else
    let fx_market_ids := default [] (pairs <$> var "FX_MARKET_IDS") in
    oracle_hub ← (if decide (fx_market_ids = []) then Ret None
                  else raw ← expect (var "ORACLE_HUB_ADDRESS"); Some <$> expect (parse_address raw));
    _ ← expect (parse_key private_key);
    if parse_url rpc_url then
      Ret {| pyth_contract := pyth_contract; feed_ids := feed_ids;
             pc_poll_interval := default 20 (var "KEEPER_POLL_INTERVAL_SECS" ≫= parse_u64);
             fx_market_ids := fx_market_ids; oracle_hub := oracle_hub |}
    else Panic.
End configuration.

(** ** The chain *)

(** The calls of [IPyth] and [IOracleHub]. *)
Inductive Calldata :=
  | UpdatePriceFeeds (updateData : list Bytes)
  | GetUpdateFee (updateData : list Bytes)
  | GetPriceUnsafe (id : Z)
  | RefreshDiscoveryReference (marketId : Z).

Record TransactionRequest := { tx_to : Address; tx_input : Calldata; tx_value : Z }.
Definition with_to (to : Address) (input : Calldata) : TransactionRequest :=
  {| tx_to := to; tx_input := input; tx_value := 0 |}.

Inductive Request := Call (tx : TransactionRequest) | Send (tx : TransactionRequest) | GetReceipt (tx_hash : Z).

(** What each request is answered, after the requests of the list; a receipt is its status. *)
Record Chain := {
  call : list Request → TransactionRequest → option Bytes;
  send_transaction : list Request → TransactionRequest → option Z;
  get_receipt : list Request → Z → option bool;
}.

(** What is logged. *)
Inductive Note :=
  | LargeMove (feed_id : string) (move_bps : f64)
  | WeekendGap (feed_id : string) (move_bps : f64)
  | Pushed (tx_hash : Z) (feeds : nat) (fee : Z)
  | BadMarketId (market_id : Bytes)
  | RefreshUnconfirmed (market_id : Bytes)
  | RefreshUnsent (market_id : Bytes).

(** The requests made and the lines logged so far. *)
Record Session := { requests : list Request; notes : list Note }.
Definition ask (s : Session) (r : Request) : Session :=
  {| requests := requests s ++ [r]; notes := notes s |}.
Definition note (s : Session) (n : Note) : Session :=
  {| requests := requests s; notes := notes s ++ [n] |}.

(** ** One push *)

Definition WARN_MOVE_BPS : f64 := as_f64 50.

Inductive PushError :=
  | Prices (e : OracleError)
  | BadFeedId (feed_id : string)
  | UpdateData (e : OracleError)
  | FeeCallFailed
  | BadFeeResponse
  | SendFailed
  | NotConfirmed.

Section push.
Context (powi10 : Z → f64) (parse_id : Bytes → option Z).
(** [abi_decode_returns] of [getPriceUnsafe], its price and exponent, and of [getUpdateFee]. *)
Context (decode_price : Bytes → option (Z * Z)) (decode_fee : Bytes → option Z).
Context (chain : Chain).

Definition move_bps (old_scaled new_scaled : f64) : f64 :=
  f64_mul (SFabs (f64_div (f64_add new_scaled (SFopp old_scaled)) old_scaled)) (as_f64 10000).

(** What the comparison with the chain's price logs. *)
Definition move_note (fx_market_ids : list Bytes) (fx_open : bool) (feed_id : string) (old : Z * Z)
    (new_price : PythPrice) : option Note :=
  let old_scaled := f64_mul (as_f64 old.1) (powi10 old.2) in
  let new_scaled := f64_mul (as_f64 (price new_price)) (powi10 (expo new_price)) in
  if SFltb (S754_zero false) old_scaled then
    let move_bps := move_bps old_scaled new_scaled in
    let is_closed_fx := bool_decide (into_bytes feed_id ∈ fx_market_ids) && negb fx_open in
    if SFltb WARN_MOVE_BPS move_bps
    then Some (if is_closed_fx then WeekendGap feed_id move_bps else LargeMove feed_id move_bps) else None
  else None.

(** The loop over the live prices, in the order the map is iterated. *)
Fixpoint check_moves (cfg : PusherConfig) (fx_open : bool) (s : Session)
    (live_prices : list (string * PythPrice)) : Session * result unit PushError :=
  match live_prices with
  | [] => (s, Ok ())
  | (feed_id, new_price) :: rest =>
      match parse_id (into_bytes feed_id) with
      | None => (s, Err (BadFeedId feed_id))
      | Some id =>
          let tx := with_to (pyth_contract cfg) (GetPriceUnsafe id) in
          let raw := call chain (requests s) tx in
          let s := ask s (Call tx) in
          let s := match raw ≫= decode_price with
                   | None => s
                   | Some old =>
                       match move_note (fx_market_ids cfg) fx_open feed_id old new_price with
                       | Some n => note s n
                       | None => s
                       end
                   end in
          check_moves cfg fx_open s rest
      end
  end.

(** One iteration of the loop over the FX markets. *)
Definition refresh (hub : Address) (s : Session) (market_id : Bytes) : Session :=
  match parse_id market_id with
  | None => note s (BadMarketId market_id)
  | Some id =>
      let tx := with_to hub (RefreshDiscoveryReference id) in
      let pending := send_transaction chain (requests s) tx in
      let s := ask s (Send tx) in
      match pending with
      | None => note s (RefreshUnsent market_id)
      | Some tx_hash =>
          let receipt := get_receipt chain (requests s) tx_hash in
          let s := ask s (GetReceipt tx_hash) in
          match receipt with Some _ => s | None => note s (RefreshUnconfirmed market_id) end
      end
  end.

(** From the update data on. *)
Definition submit_update (cfg : PusherConfig) (fx_open : bool) (s : Session) (update_data : list Bytes)
    : Session * result unit PushError :=
  let fee_tx := with_to (pyth_contract cfg) (GetUpdateFee update_data) in
  let fee_raw := call chain (requests s) fee_tx in
  let s := ask s (Call fee_tx) in
  match fee_raw with
  | None => (s, Err FeeCallFailed)
  | Some fee_raw =>
      match decode_fee fee_raw with
      | None => (s, Err BadFeeResponse)
      | Some fee =>
          let tx := {| tx_to := pyth_contract cfg; tx_input := UpdatePriceFeeds update_data; tx_value := fee |} in
          let pending := send_transaction chain (requests s) tx in
          let s := ask s (Send tx) in
          match pending with
          | None => (s, Err SendFailed)
          | Some tx_hash =>
              let receipt := get_receipt chain (requests s) tx_hash in
              let s := ask s (GetReceipt tx_hash) in
              match receipt with
              | None => (s, Err NotConfirmed)
              | Some _ =>
                  let s := note s (Pushed tx_hash (length (feed_ids cfg)) fee) in
                  match oracle_hub cfg with
                  | Some hub => if fx_open then (foldl (refresh hub) s (fx_market_ids cfg), Ok ()) else (s, Ok ())
                  | None => (s, Ok ())
                  end
              end
          end
      end
  end.

(** [prices] and [data] are what [fetch_latest_prices] and [fetch_update_data] answer on the feeds. *)
Definition push_once (order : gmap string PythPrice → list (string * PythPrice)) (cfg : PusherConfig)
    (now : Z) (prices : list string → result (gmap string PythPrice) OracleError)
    (data : list string → result (list Bytes) OracleError) (s : Session) : Session * result unit PushError :=
  let feed_refs := String.string_of_list_ascii <$> feed_ids cfg in
  let fx_open := fx_market_open_at now in
  match prices feed_refs with
  | Err e => (s, Err (Prices e))
  | Ok live_prices =>
      match check_moves cfg fx_open s (order live_prices) with
      | (s, Err e) => (s, Err e)
      | (s, Ok _) =>
          match data feed_refs with
          | Err e => (s, Err (UpdateData e))
          | Ok update_data => submit_update cfg fx_open s update_data
          end
      end
  end.

(** What one tick meets: the clock and the client of the price service, and its two answers. *)
Record Tick := {
  tk_now : Z;
  tk_prices : list string → result (gmap string PythPrice) OracleError;
  tk_data : list string → result (list Bytes) OracleError;
}.

(** The loop: a failed push is logged and retried at the next tick. *)
Definition run_pusher (order : gmap string PythPrice → list (string * PythPrice)) (cfg : PusherConfig)
    (s : Session) (ticks : list Tick) : Session :=
  foldl (λ s t, fst (push_once order cfg (tk_now t) (tk_prices t) (tk_data t) s)) s ticks.
End push.
