(* ===== verification/PusherProps.v ===== *)
(** * The price keeper: theorems

    What the keeper submits to the chain over any run of its loop, whatever the price service and the
    chain answer. *)
From Stdlib Require Import SpecFloat.
From S2P Require Import Prelude Ints Text F64 Types Fees Positions Config Funding Pusher.
Open Scope Z_scope.

(** ** What is submitted *)

(** The transactions among requests. *)
Definition sends (rs : list Request) : list TransactionRequest :=
  omap (λ r, match r with Send tx => Some tx | _ => None end) rs.

Definition fee_tx (cfg : PusherConfig) (data : list Bytes) : TransactionRequest :=
  with_to (pyth_contract cfg) (GetUpdateFee data).
Definition update_tx (cfg : PusherConfig) (data : list Bytes) (fee : Z) : TransactionRequest :=
  {| tx_to := pyth_contract cfg; tx_input := UpdatePriceFeeds data; tx_value := fee |}.

(** The references a tick of an open FX week refreshes: every market id that parses, in order. *)
Definition refresh_txs (parse_id : Bytes → option Z) (cfg : PusherConfig) (fx_open : bool) : list TransactionRequest :=
  match oracle_hub cfg with
  | Some hub =>
      if fx_open
      then omap (λ m, with_to hub ∘ RefreshDiscoveryReference <$> parse_id m) (fx_market_ids cfg) else []
  | None => []
  end.

(** The price service answered both fetches, with feed ids that parse. *)
Definition ready (parse_id : Bytes → option Z) (cfg : PusherConfig) (t : Tick) (data : list Bytes) : Prop :=
  let feed_refs := String.string_of_list_ascii <$> feed_ids cfg in
  tk_data t feed_refs = Ok data ∧
  ∃ live_prices, tk_prices t feed_refs = Ok live_prices ∧
    ∀ feed_id, is_Some (live_prices !! feed_id) → is_Some (parse_id (into_bytes feed_id)).

(** A chain that quotes a fee for any update, accepts any transaction and gives its receipt.  Its
    prices and the status of its receipts are not mentioned. *)
Record answering (decode_fee : Bytes → option Z) (chain : Chain) : Prop := {
  an_fee h to data : is_Some (call chain h (with_to to (GetUpdateFee data)) ≫= decode_fee);
  an_send h tx : is_Some (send_transaction chain h tx);
  an_receipt h tx_hash : is_Some (get_receipt chain h tx_hash);
}.

(** What one tick submits: nothing, or the update data the service gave, paid with the fee the chain
    quoted for that data, and then nothing else or every refresh. *)
Definition tick_sends (parse_id : Bytes → option Z) (decode_fee : Bytes → option Z) (chain : Chain)
    (cfg : PusherConfig) (t : Tick) (txs : list TransactionRequest) : Prop :=
  let refreshes := refresh_txs parse_id cfg (fx_market_open_at (tk_now t)) in
  (txs = [] ∨ ∃ data fee h, ready parse_id cfg t data ∧ call chain h (fee_tx cfg data) ≫= decode_fee = Some fee ∧
    (txs = [update_tx cfg data fee] ∨ txs = update_tx cfg data fee :: refreshes)) ∧
  (∀ data, ready parse_id cfg t data → answering decode_fee chain →
    ∃ fee, txs = update_tx cfg data fee :: refreshes).

(** ** Lemmas *)

Section lemmas.
Context (powi10 : Z → SpecFloat.spec_float) (parse_id : Bytes → option Z).
Context (decode_price : Bytes → option (Z * Z)) (decode_fee : Bytes → option Z) (chain : Chain).
Context (cfg : PusherConfig).

Lemma sends_app l1 l2 : sends (l1 ++ l2) = sends l1 ++ sends l2.
Proof. apply omap_app. Qed.

Lemma check_moves_sends fx_open s l :
  sends (requests (check_moves powi10 parse_id decode_price chain cfg fx_open s l).1) = sends (requests s).
Proof.
  revert s. induction l as [|[feed p] l IH]; intros s; cbn [check_moves]; [done|].
  destruct (parse_id (into_bytes feed)); [|done]. rewrite IH.
  set (s1 := ask s _). assert (Hs : sends (requests s1) = sends (requests s)).
  { subst s1. cbn [ask requests]. rewrite sends_app. cbn. by rewrite app_nil_r. }
  destruct (_ ≫= decode_price); [|done]. by destruct (move_note _ _ _ _ _ _).
Qed.

Lemma check_moves_ok fx_open s l :
  (check_moves powi10 parse_id decode_price chain cfg fx_open s l).2 = Ok () ↔
  Forall (λ e, is_Some (parse_id (into_bytes e.1))) l.
Proof.
  revert s. induction l as [|[feed p] l IH]; intros s; cbn [check_moves]; [done|].
  rewrite Forall_cons. cbn [fst]. destruct (parse_id (into_bytes feed)) eqn:E.
  - rewrite IH. split; [intros H; split; [by eexists|done]|by intros [_ H]].
  - split; [done|]. by intros [[? ?] _].
Qed.

Lemma refresh_sends hub s m :
  sends (requests (refresh parse_id chain hub s m)) =
  sends (requests s) ++ option_list (with_to hub ∘ RefreshDiscoveryReference <$> parse_id m).
Proof.
  unfold refresh. destruct (parse_id m); cbn [fmap option_fmap option_map option_list];
    [|cbn [note requests]; by rewrite app_nil_r].
  destruct (send_transaction _ _ _); [destruct (get_receipt _ _ _)|]; cbn [note ask requests];
    rewrite !sends_app; cbn; by rewrite ?app_nil_r.
Qed.

Lemma refreshes_sends hub s ms :
  sends (requests (foldl (refresh parse_id chain hub) s ms)) =
  sends (requests s) ++ omap (λ m, with_to hub ∘ RefreshDiscoveryReference <$> parse_id m) ms.
Proof.
  revert s. induction ms as [|m ms IH]; intros s; cbn [foldl]; [by rewrite app_nil_r|].
  rewrite IH, refresh_sends, <-app_assoc. f_equal. cbn. by destruct (parse_id m).
Qed.

(** The submission: nothing without a quoted fee, and every answer gives the whole plan. *)
Lemma submit_update_sends fx_open s data :
  let txs := drop (length (sends (requests s)))
    (sends (requests (submit_update parse_id decode_fee chain cfg fx_open s data).1)) in
  sends (requests (submit_update parse_id decode_fee chain cfg fx_open s data).1) = sends (requests s) ++ txs ∧
  (txs = [] ∨ ∃ fee, call chain (requests s) (fee_tx cfg data) ≫= decode_fee = Some fee ∧
     (txs = [update_tx cfg data fee] ∨ txs = update_tx cfg data fee :: refresh_txs parse_id cfg fx_open)) ∧
  (answering decode_fee chain → ∃ fee, txs = update_tx cfg data fee :: refresh_txs parse_id cfg fx_open).
Proof.
  assert (∀ s' txs, sends (requests s') = sends (requests s) ++ txs →
    drop (length (sends (requests s))) (sends (requests s')) = txs) as Hdrop.
  { intros s' txs ->. by rewrite drop_app_length. }
  unfold submit_update, refresh_txs. fold (fee_tx cfg data). fold (update_tx cfg data).
  destruct (call chain (requests s) (fee_tx cfg data)) as [raw|] eqn:Hc; cycle 1.
  { cbn [fst]. rewrite (Hdrop _ []) by (cbn; by rewrite sends_app). cbn [ask requests]. rewrite sends_app.
    split_and!; [done|by left|]. intros Ha. destruct (an_fee _ _ Ha (requests s) (pyth_contract cfg) data) as [? E].
    unfold fee_tx in Hc. by rewrite Hc in E. }
  cbn [mbind option_bind]. destruct (decode_fee raw) as [fee|] eqn:Hf; cycle 1.
  { cbn [fst]. rewrite (Hdrop _ []) by (cbn; by rewrite sends_app). cbn [ask requests]. rewrite sends_app.
    split_and!; [done|by left|]. intros Ha. destruct (an_fee _ _ Ha (requests s) (pyth_contract cfg) data) as [? E].
    unfold fee_tx in Hc. rewrite Hc in E. cbn in E. by rewrite Hf in E. }
  set (tx := {| tx_to := _; tx_input := _; tx_value := _ |}). change tx with (update_tx cfg data fee). clear tx.
  destruct (send_transaction _ _ _) as [tx_hash|] eqn:Hs; cycle 1.
  { cbn [fst]. rewrite (Hdrop _ [update_tx cfg data fee]) by (cbn [ask requests]; rewrite !sends_app; cbn; by rewrite app_nil_r).
    cbn [ask requests]. rewrite !sends_app. cbn. rewrite app_nil_r. split_and!; [done|right; exists fee; auto|].
    intros Ha. destruct (an_send _ _ Ha (requests (ask s (Call (fee_tx cfg data)))) (update_tx cfg data fee)). congruence. }
  destruct (get_receipt _ _ _) as [status|] eqn:Hr; cycle 1.
  { cbn [fst]. rewrite (Hdrop _ [update_tx cfg data fee]) by (cbn [ask requests]; rewrite !sends_app; cbn; by rewrite !app_nil_r).
    cbn [ask requests]. rewrite !sends_app. cbn. rewrite !app_nil_r. split_and!; [done|right; exists fee; auto|].
    intros Ha. edestruct (an_receipt _ _ Ha). by erewrite Hr in *. }
  set (s1 := note _ _). assert (sends (requests s1) = sends (requests s) ++ [update_tx cfg data fee]) as Hs1.
  { subst s1. cbn [note ask requests]. rewrite !sends_app. cbn. by rewrite !app_nil_r. } clearbody s1.
  match goal with |- context [fst ?p] => assert (sends (requests (fst p)) =
    sends (requests s) ++ update_tx cfg data fee :: refresh_txs parse_id cfg fx_open) as Hall end.
  { unfold refresh_txs. destruct (oracle_hub cfg) as [hub|]; [|done]. destruct fx_open; [|done].
    cbn [fst]. by rewrite refreshes_sends, Hs1, <-app_assoc. }
  rewrite (Hdrop _ _ Hall). fold (refresh_txs parse_id cfg fx_open).
  split_and!; [done|right; exists fee; auto|by exists fee].
Qed.

Context (order : gmap string PythPrice → list (string * PythPrice)) (Horder : ∀ m, order m ≡ₚ map_to_list m).

Lemma order_parses live_prices :
  Forall (λ e, is_Some (parse_id (into_bytes e.1))) (order live_prices) ↔
  ∀ feed_id, is_Some (live_prices !! feed_id) → is_Some (parse_id (into_bytes feed_id)).
Proof using Horder.
  rewrite Horder, Forall_forall. split.
  - intros H feed_id [p Hp]. by apply (H (feed_id, p)), elem_of_map_to_list.
  - intros H [feed_id p] Hp%elem_of_map_to_list. apply H. by eexists.
Qed.

Lemma push_once_sends s t :
  ∃ txs, sends (requests (push_once powi10 parse_id decode_price decode_fee chain order cfg
                            (tk_now t) (tk_prices t) (tk_data t) s).1) = sends (requests s) ++ txs ∧
         tick_sends parse_id decode_fee chain cfg t txs.
Proof using Horder.
  unfold push_once. set (refs := String.string_of_list_ascii <$> feed_ids cfg).
  destruct (tk_prices t refs) as [live_prices|e] eqn:Hp; cycle 1.
  { exists []. rewrite app_nil_r. split; [done|]. split; [by left|]. intros data (_ & l & Hl & _) _.
    unfold refs in Hp. congruence. }
  pose proof (check_moves_ok (fx_market_open_at (tk_now t)) s (order live_prices)) as Hok.
  pose proof (check_moves_sends (fx_market_open_at (tk_now t)) s (order live_prices)) as Hs1.
  destruct (check_moves _ _ _ _ _ _ s _) as [s1 [[]|e]]; cbn [fst snd] in Hok, Hs1; cycle 1.
  { exists []. rewrite app_nil_r. split; [done|]. split; [by left|]. intros data (_ & l & Hl & Hids) _.
    unfold refs in Hp. rewrite Hl in Hp. injection Hp as ->. apply order_parses, Hok in Hids. done. }
  assert (∀ data, tk_data t refs = Ok data → ready parse_id cfg t data) as Hready.
  { intros data Hd. split; [done|]. exists live_prices. split; [done|]. by apply order_parses, Hok. }
  destruct (tk_data t refs) as [data|e] eqn:Hd; cycle 1.
  { exists []. rewrite app_nil_r. split; [done|]. split; [by left|]. intros data (Hd' & _) _.
    unfold refs in Hd. congruence. }
  destruct (submit_update_sends (fx_market_open_at (tk_now t)) s1 data) as (Heq & Hsome & Hall).
  set (txs := drop _ _) in *. clearbody txs. exists txs. rewrite Heq, Hs1. split; [done|]. split.
  - destruct Hsome as [H| (fee & Hq & H)]; [by left|right]. exists data, fee, (requests s1). auto.
  - intros data' [Hd' _] Ha. unfold refs in Hd. rewrite Hd' in Hd. injection Hd as ->. by apply Hall.
Qed.
End lemmas.

(** ** Theorem *)

(** C36: What the price keeper submits.  Over any run, the transactions are those of its ticks in
    order.  A tick submits nothing, or first the update data the price service gave for the configured
    feeds at that tick, in one [updatePriceFeeds] to the configured contract, paid with the fee the
    chain quoted for that very data; then nothing more, or, only while the FX week is open, one refresh
    per FX market id that parses, in order.  When both fetches succeed with ids that parse and the
    chain quotes, accepts and confirms, the tick submits all of it: a price on the chain, however far
    the new one moved from it, holds nothing back.  So does the status of a receipt, which is not
    read: a reverted update counts as pushed. *)
Theorem pusher_submissions powi10 parse_id decode_price decode_fee chain order cfg s ticks :
  (∀ m, order m ≡ₚ map_to_list m) →
  ∃ groups,
    sends (requests (run_pusher powi10 parse_id decode_price decode_fee chain order cfg s ticks)) =
      sends (requests s) ++ concat groups ∧
    Forall2 (tick_sends parse_id decode_fee chain cfg) ticks groups.
Proof.
  intros Horder. revert s. induction ticks as [|t ticks IH]; intros s; unfold run_pusher in *; cbn [foldl].
  - exists []. cbn [concat]. split; [by rewrite app_nil_r|constructor].
  - destruct (push_once_sends powi10 parse_id decode_price decode_fee chain cfg order Horder s t) as (txs & Ht & Htx).
    destruct (IH (push_once powi10 parse_id decode_price decode_fee chain order cfg
                    (tk_now t) (tk_prices t) (tk_data t) s).1) as (groups & Hg & Hgs).
    exists (txs :: groups). split; [|by constructor]. cbn [concat]. unfold run_pusher in *.
    by rewrite Hg, Ht, app_assoc.
Qed.

(** ** A day that opens, fails and pushes *)

Definition demo_pusher : PusherConfig := {|
  pyth_contract := 7; feed_ids := [into_bytes "e1"]; pc_poll_interval := 20;
  fx_market_ids := [into_bytes "e1"; into_bytes "zz"]; oracle_hub := Some 8 |}.
Definition demo_id (s : Bytes) : option Z := if decide (s = into_bytes "e1") then Some 225 else None.
(** The price on the chain is 100 when asked for; the receipt is of a reverted transaction. *)
Definition demo_evm : Chain := {|
  call := λ _ _, Some (into_bytes "3"); send_transaction := λ h _, Some (Z.of_nat (length h));
  get_receipt := λ _ _, Some false |}.
Definition demo_tick (now : Z) (ok : bool) : Tick := {|
  tk_now := now;
  tk_prices := λ _, Ok {[ "e1"%string := {| price := 108; confidence := 1; expo := 0; publish_time := now; ema_price := 108 |} ]};
  tk_data := λ _, if ok then Ok [into_bytes "vaa"] else Err BadResponse |}.
Definition demo_run : Session :=
  run_pusher (λ _, as_f64 1) demo_id (λ _, Some (100, 0)) (λ b, parse_u64 b) demo_evm map_to_list demo_pusher
    {| requests := []; notes := [] |} [demo_tick 0 true; demo_tick 0 false; demo_tick (3 * 86400) true].

(** Thursday: the update and the one refresh that parses, after a warning; the failed fetch: nothing;
    Sunday morning: the update alone. *)
Example demo_run_sends :
  sends (requests demo_run) =
    [update_tx demo_pusher [into_bytes "vaa"] 3; with_to 8 (RefreshDiscoveryReference 225);
     update_tx demo_pusher [into_bytes "vaa"] 3] ∧
  (λ n, match n with LargeMove _ _ => 1 | WeekendGap _ _ => 2 | Pushed _ _ _ => 3 | _ => 4 end) <$> notes demo_run =
    [1; 3; 4; 1; 2; 3].
Proof. by vm_compute. Qed.

Lemma pusher_submissions_witness :
  (∀ m : gmap string PythPrice, map_to_list m ≡ₚ map_to_list m) ∧
  ∃ groups, sends (requests demo_run) = [] ++ concat groups ∧
    Forall2 (tick_sends demo_id (λ b, parse_u64 b) demo_evm demo_pusher)
      [demo_tick 0 true; demo_tick 0 false; demo_tick (3 * 86400) true] groups.
Proof.
  split; [done|]. apply (pusher_submissions (λ _, as_f64 1) demo_id (λ _, Some (100, 0)) (λ b, parse_u64 b)
    demo_evm map_to_list demo_pusher {| requests := []; notes := [] |}). done.
Defined.
