(* ===== verification/LocalDev.v ===== *)
(** * The local development driver ([bin/local_dev.rs])

    [up] starts a chain, deploys the contracts, configures and starts the matcher, the market makers,
    the keeper and the loops, funds the accounts and seeds trades; [down] stops what was started; the
    oracle loop pushes live prices, the seed loop trades.  A program here is a computation that
    appends to the log of what it did to the outside and may exit; the outside answers each effect
    knowing the log.  Deployment outputs and books come as text; hexadecimal, JSON, keys, addresses, ABI
    encoding, [keccak256] and [f64::powi] are parameters. *)
From Stdlib Require Import SpecFloat.
From S2P Require Import Prelude Ints Text F64 Types Positions Funding.
Open Scope Z_scope.

(** ** Text *)

Definition newline : Ascii.ascii := Ascii.ascii_of_N 10.
Definition carriage_return : Ascii.ascii := Ascii.ascii_of_N 13.

(** [str::lines]: pieces ended by a newline, without it and a carriage return before it, and what
    follows the last newline when it is not empty. *)
Definition strip_cr (l : Bytes) : Bytes :=
  match reverse l with a :: r => if decide (a = carriage_return) then reverse r else l | [] => l end.
Definition lines (s : Bytes) : list Bytes :=
  match reverse (split newline s) with
  | piece :: ended => reverse (strip_cr <$> ended) ++ (if decide (piece = []) then [] else [piece])
  | [] => []
  end.

(** [split_whitespace().last()]. *)
Fixpoint visible_prefix (s : Bytes) : Bytes :=
  match s with [] => [] | a :: s => if is_whitespace a then [] else a :: visible_prefix s end.
Definition last_word (s : Bytes) : option Bytes :=
  match trim_start (reverse s) with [] => None | r => Some (reverse (visible_prefix r)) end.

(** [str::contains] of a string, and [starts_with]. *)
Definition starts_with (s label : Bytes) : bool := bool_decide (label `prefix_of` s).
Fixpoint contains (s label : Bytes) : bool :=
  starts_with s label || match s with [] => false | _ :: s => contains s label end.

(** [trim_start_matches("0x")]: as often as it is there. *)
Fixpoint strip_0x (fuel : nat) (s : Bytes) : Bytes :=
  match fuel, s with
  | S fuel, a :: b :: s' => if decide ([a; b] = into_bytes "0x") then strip_0x fuel s' else s
  | _, _ => s
  end.
Definition trim_0x (s : Bytes) : Bytes := strip_0x (length s) s.

(** [join]. *)
Fixpoint join (sep : Bytes) (l : list Bytes) : Bytes :=
  match l with [] => [] | [s] => s | s :: l => s ++ sep ++ join sep l end.

Definition parse_i32 (s : Bytes) : option Z := n ← parse_i64 s; try_s 32 n.

(** ** Constants *)

Definition ANVIL_RPC : Bytes := into_bytes "http://127.0.0.1:8545".
Definition DEV_SECRETS_SEED : Bytes := into_bytes "0x1c4e3a8f295d6b71092ea4c8f0d3b657a1928e4dcf30b67158a9d2c4e6f1a3b7".
Definition BACKSTOP_NOTIONAL_CAP : Bytes := into_bytes "2000".
Definition MATCHER_URL : Bytes := into_bytes "http://127.0.0.1:8787".
Definition MARKETS : list MarketId :=
  ["EURC/USDC"; "BTC/USDC"; "GBP/USD"; "AUD/USD"; "USD/JPY"; "XAU/USD"; "KR200/USD"; "BRENT/USD"; "HYPE/USD"].
Definition FEED_IDS : list string :=
  ["a995d00bb36a63cef7fd2c287dc105fc8f3d93779f062f09551b0af3e81ec30b";
   "e62df6c8b4a85fe1a67db44dc12de5db330f7ac66b72dc658afedf0f4a415b43";
   "84c2dde9633d93d1bcad84e7dc41c9d56578b7ec52fabedc1f335d673df0a7c1";
   "67a6f93030420c1c9e3fe37c1ab6b77966af82f995944a9fefce357a22854a80";
   "ef2c98c804ba503c6a707e38be4dfbb16683775f195b091252bf24693042fd52";
   "765d2ba906dbc32ca17cc11f5310a89e9ee1f6420508c63861f2f8ba4ee34bb2";
   "7be2b3f9f9d02b1ffcf61fc26ad5cc6aff4dd02044f9abc22ee57f37b3b5d2e5";
   "6e3607735df0f027dc63890cc48055cccf1551003cc7a7c934cabe04485d1193";
   "4279e31cc369bbcc2faf022b382b080e32a8e689ff20fbc530d2a603eb6cd98b"].

(** [format!("{l}={r}")] of two columns, joined by commas. *)
Definition table (ls rs : list Bytes) : Bytes :=
  join [comma] (zip_with (λ l r, l ++ equals :: r) ls rs).

(** ** Reading the tools' output *)

(** The loop of [parse_anvil_keys]. *)
Fixpoint anvil_keys (in_section : bool) (ls : list Bytes) : list Bytes :=
  match ls with
  | [] => []
  | line :: ls =>
      if starts_with line (into_bytes "Private Keys") then anvil_keys true ls
      else if in_section then
        if starts_with line (into_bytes "Wallet") then []
        else match trim line with
             | a :: rest =>
                 if decide (a = Ascii.ascii_of_N 40) then
                   match split_once (Ascii.ascii_of_N 41) rest with
                   | Some (_, key) => trim key :: anvil_keys true ls
                   | None => anvil_keys true ls
                   end
                 else anvil_keys true ls
             | [] => anvil_keys true ls
             end
      else anvil_keys false ls
  end.
Definition parse_anvil_keys (content : option Bytes) : list Bytes := anvil_keys false (lines (default [] content)).

Definition get_addrs_all (output : Bytes) (label : string) : list Bytes :=
  omap last_word (filter (λ l, contains l (into_bytes label) = true) (lines output)).
Definition get_addr (output : Bytes) (label : string) : option Bytes :=
  line ← head (filter (λ l, contains l (into_bytes label) = true) (lines output)); last_word line.

(** ** The outside *)

Record Command := { program : string; args : list Bytes; envs : list (string * Bytes) }.

(** What the contracts are called with. *)
Inductive Calldata :=
| AuthorizeTEE (tee : Address)
| CreatePriceFeedUpdateData (id price conf expo emaPrice emaConf publishTime : Z)
| GetUpdateFee (updateData : list Bytes)
| UpdatePriceFeeds (updateData : list Bytes)
| UpdateAnswer (answer : Z)
| Mint (to amount : Z)
| Approve (spender amount : Z)
| Deposit (asset amount : Z).
(** The sender is the wallet's; a read-only call has none. *)
Record Tx := { tx_from : option Address; tx_to : Address; tx_input : option Calldata; tx_value : Z }.

Inductive Event :=
| Kill (pid : Z)
| Pkill (pattern : string)
| Spawned (c : Command) (pid : Z)
| Ran (c : Command)
| Got (url : Bytes)
| Called (tx : Tx)
| Sent (tx : Tx)
| Confirmed (tx_hash : Z)
| Slept (millis : Z)
| Drew.

(** What the outside answers, after the events of the list; the body of a response that cannot be
    read is empty. *)
Record Outside := {
  ou_spawn : list Event → Command → option Z;
  ou_output : list Event → Command → option (bool * Bytes * Bytes);
  ou_get : list Event → Bytes → option Bytes;
  ou_call : list Event → Tx → option Bytes;
  ou_send : list Event → Tx → option Z;
  ou_receipt : list Event → Z → option bool;
  ou_anvil_log : list Event → option Bytes;
  ou_clock : list Event → Z;
  ou_range : list Event → Z → Z → Z;
  ou_bool : list Event → f64 → bool;
}.

(** The log, and the files of the state directory. *)
Record World := { events : list Event; files : gmap string Bytes }.

(** A computation; [None] is the exit of the process, by [die] or a panic. *)
Definition Prog (A : Type) : Type := World → World * option A.
#[export] Instance prog_ret : MRet Prog := λ A a w, (w, Some a).
#[export] Instance prog_bind : MBind Prog := λ A B f m w,
  match m w with (w, Some a) => f a w | (w, None) => (w, None) end.
Definition ret {A} (a : A) : Prog A := λ w, (w, Some a).
Definition die {A} : Prog A := λ w, (w, None).
Definition or_die {A} (o : option A) : Prog A := λ w, (w, o).

Definition emit (e : Event) : Prog () := λ w, ({| events := events w ++ [e]; files := files w |}, Some ()).
Definition ask {A} (f : list Event → A) : Prog A := λ w, (w, Some (f (events w))).
Definition write_file (name : string) (content : Bytes) : Prog () := λ w,
  ({| events := events w; files := <[name := content]> (files w) |}, Some ()).
Definition read_file (name : string) : Prog (option Bytes) := λ w, (w, Some (files w !! name)).
Definition remove_files : Prog () := λ w, ({| events := events w; files := ∅ |}, Some ()).

Fixpoint for_each {A} (f : A → Prog ()) (l : list A) : Prog () :=
  match l with [] => ret () | x :: l => _ ← f x; for_each f l end.
(** A loop that collects. *)
Fixpoint collect {A B} (f : A → Prog B) (l : list A) : Prog (list B) :=
  match l with [] => ret [] | x :: l => y ← f x; ys ← collect f l; ret (y :: ys) end.

Definition sleep (millis : Z) : Prog () := emit (Slept millis).

(** ** down *)

Definition PID_FILES : list string :=
  ["anvil.pid"; "matcher.pid"; "keeper_liquidator.pid"; "seed_loop.pid"; "oracle_push_loop.pid"; "market_maker.pids"].
Definition PATTERNS : list string :=
  ["target/release/cerdic-tee-matcher"; "target/release/market_maker"; "target/release/keeper_liquidator";
   "target/release/keeper_price_pusher"; "target/release/local_dev.*seed-loop";
   "target/release/local_dev.*oracle-push-loop"; "^anvil$"].

Definition kill_line (line : Bytes) : Prog () :=
  match parse_i32 (trim line) with Some pid => emit (Kill pid) | None => ret () end.
Definition kill_file (name : string) : Prog () :=
  contents ← read_file name;
  match contents with Some contents => for_each kill_line (lines contents) | None => ret () end.
Definition cmd_down : Prog () :=
  _ ← for_each kill_file PID_FILES; for_each (λ p, emit (Pkill p)) PATTERNS.

Section driver.
Context (Out : Outside) (var : string → option Bytes).
Context (parse_key parse_address : Bytes → option Z) (key_of_slice : list Ascii.ascii → option Z).
Context (hex_decode : Bytes → option Bytes) (fmt_address : Z → Bytes) (keccak256 : Bytes → Z).
Context (parse_pubkey : Bytes → option Bytes) (parse_book : Bytes → option (option Z * option Z)).
Context (decode_bytes : Bytes → option Bytes) (decode_fee : Bytes → option Z) (powi10 : Z → f64).

(** ** Effects *)

Definition spawn (c : Command) : Prog Z :=
  pid ← ask (λ h, ou_spawn Out h c); pid ← or_die pid; _ ← emit (Spawned c pid); ret pid.
Definition run_output (c : Command) : Prog (option (bool * Bytes * Bytes)) :=
  out ← ask (λ h, ou_output Out h c); _ ← emit (Ran c); ret out.
Definition get (url : Bytes) : Prog (option Bytes) :=
  body ← ask (λ h, ou_get Out h url); _ ← emit (Got url); ret body.
Definition gen_range (lo hi : Z) : Prog Z :=
  x ← ask (λ h, ou_range Out h lo hi); _ ← emit Drew; ret x.
Definition gen_bool (p : f64) : Prog bool :=
  x ← ask (λ h, ou_bool Out h p); _ ← emit Drew; ret x.

Definition call (tx : Tx) : Prog (option Bytes) :=
  raw ← ask (λ h, ou_call Out h tx); _ ← emit (Called tx); ret raw.
(** [send_transaction] and, when it is accepted, [get_receipt]; the status of the receipt is not read. *)
Definition transact (tx : Tx) : Prog bool :=
  pending ← ask (λ h, ou_send Out h tx);
  _ ← emit (Sent tx);
  match pending with
  | None => ret false
  | Some tx_hash =>
      receipt ← ask (λ h, ou_receipt Out h tx_hash);
      _ ← emit (Confirmed tx_hash);
      ret (bool_decide (is_Some receipt))
  end.
(** Transactions in turn, up to the first that fails. *)
Fixpoint transact_all (txs : list Tx) : Prog bool :=
  match txs with
  | [] => ret true
  | tx :: txs => ok ← transact tx; if ok : bool then transact_all txs else ret false
  end.

(** ** The chain and the contracts *)

Definition TEN_ETH : Z := 10000000000000000000.
Definition HUNDRED_THOUSAND_USDC : Z := 100000000000000000000000.
Definition pay (from to value : Z) : Tx := {| tx_from := Some from; tx_to := to; tx_input := None; tx_value := value |}.
Definition invoke (from to : Z) (input : Calldata) : Tx :=
  {| tx_from := Some from; tx_to := to; tx_input := Some input; tx_value := 0 |}.
Definition query (to : Z) (input : Calldata) : Tx :=
  {| tx_from := None; tx_to := to; tx_input := Some input; tx_value := 0 |}.

Definition fund_and_authorize (deployer_key signer_address attestation_router : Bytes) : Prog bool :=
  match parse_key deployer_key, parse_address signer_address with
  | Some signer, Some to =>
      ok ← transact (pay signer to TEN_ETH);
      if ok : bool then
        match parse_address attestation_router with
        | Some router => transact (invoke signer router (AuthorizeTEE to))
        | None => ret false
        end
      else ret false
  | _, _ => ret false
  end.

Definition fund_test_wallet (deployer_key fund_address usdc_token : Bytes) : Prog bool :=
  match parse_key deployer_key, parse_address fund_address with
  | Some signer, Some to =>
      ok ← transact (pay signer to TEN_ETH);
      if ok : bool then
        match parse_address usdc_token with
        | Some usdc => transact (invoke signer usdc (Mint to HUNDRED_THOUSAND_USDC))
        | None => ret false
        end
      else ret false
  | _, _ => ret false
  end.

Definition deposit_as_trader (trader_key usdc_token account_contract : Bytes) : Prog bool :=
  match parse_key trader_key, parse_address usdc_token, parse_address account_contract with
  | Some signer, Some usdc, Some account =>
      transact_all [invoke signer usdc (Approve account HUNDRED_THOUSAND_USDC);
                    invoke signer account (Deposit usdc HUNDRED_THOUSAND_USDC)]
  | _, _, _ => ret false
  end.

(** A failure of one of these is fatal in [up]. *)
Definition must (m : Prog bool) : Prog () := ok ← m; if ok : bool then ret () else die.

Definition run_forge_script (target : string) (env : list (string * Bytes)) : Prog Bytes :=
  out ← run_output {| program := "forge";
    args := [into_bytes "script"; into_bytes target; into_bytes "--rpc-url"; ANVIL_RPC; into_bytes "--broadcast"];
    envs := env |};
  match out with
  | Some (true, stdout, stderr) => ret (stdout ++ newline :: stderr)
  | _ => die
  end.

Fixpoint wait_http_ok (url : Bytes) (timeout_secs : nat) : Prog (option ()) :=
  match timeout_secs with
  | O => ret None
  | S n =>
      body ← get url;
      match body with Some _ => ret (Some ()) | None => _ ← sleep 1000; wait_http_ok url n end
  end.

Fixpoint wait_pubkey (matcher_url : Bytes) (timeout_secs : nat) : Prog (option Bytes) :=
  match timeout_secs with
  | O => ret None
  | S n =>
      body ← get (matcher_url ++ into_bytes "/pubkey");
      match body ≫= parse_pubkey with
      | Some settlement_address => ret (Some settlement_address)
      | None => _ ← sleep 1000; wait_pubkey matcher_url n
      end
  end.

(** ** Trades *)

Definition is_unreserved (a : Ascii.ascii) : bool :=
  let n := byte_value a in
  bool_decide (48 ≤ n ≤ 57) || bool_decide (65 ≤ n ≤ 90) || bool_decide (97 ≤ n ≤ 122)
  || bool_decide (a ∈ into_bytes "-_.~").
Definition hex_digit (d : Z) : Ascii.ascii := Ascii.ascii_of_N (Z.to_N (if decide (d < 10) then 48 + d else 55 + d)).
(** [%{:02X}]. *)
Definition urlencoding_encode (s : Bytes) : Bytes :=
  s ≫= λ a, if is_unreserved a then [a]
            else [Ascii.ascii_of_N 37; hex_digit (byte_value a / 16); hex_digit (byte_value a mod 16)].

Definition fetch_orderbook (market : MarketId) : Prog (option (option Z * option Z)) :=
  body ← get (MATCHER_URL ++ into_bytes "/orderbook/" ++ urlencoding_encode (into_bytes market));
  ret (body ≫= parse_book).

Inductive TradeSide := TradeBuy | TradeSell.
Definition fmt_trade_side (s : TradeSide) : Bytes := into_bytes (match s with TradeBuy => "buy" | TradeSell => "sell" end).

Definition crossing_tick (book : option Z * option Z) (side : TradeSide) : option Z :=
  match side with
  | TradeBuy => ask ← book.2; Some (u64_add ask (u64_add (ask / 2000) 2))
  | TradeSell => bid ← book.1; Some (sat_u 64 (bid - u64_add (bid / 2000) 2))
  end.

(** The literals of the bias, and the weights of the average. *)
Definition f64_lit (n d : Z) : f64 := f64_div (as_f64 n) (as_f64 d).
Definition sell_probability (drift : f64) : f64 :=
  if SFltb (f64_lit 15 10000) drift then f64_lit 7 10
  else if SFltb drift (f64_lit (-15) 10000) then f64_lit 3 10
  else f64_lit 5 10.

Definition pick_side (market : MarketId) (mid : f64) (mid_refs : gmap MarketId f64) :
    Prog (TradeSide * gmap MarketId f64) :=
  let reference := default mid (mid_refs !! market) in
  let drift := f64_div (f64_add mid (SFopp reference)) reference in
  let mid_refs := <[market := f64_add (f64_mul reference (f64_lit 9 10)) (f64_mul mid (f64_lit 1 10))]> mid_refs in
  sell ← gen_bool (sell_probability drift);
  ret (if sell : bool then TradeSell else TradeBuy, mid_refs).

Definition run_demo_client (side : TradeSide) (tick qty : Z) (market : MarketId) (key : Bytes) (leverage : Z)
    (tif : string) : Prog bool :=
  out ← run_output {| program := "demo_client";
    args := [fmt_trade_side side; fmt_u64 tick; fmt_u64 qty; into_bytes market; key; fmt_u64 leverage; into_bytes tif];
    envs := [] |};
  ret match out with
      | Some (_, stdout, stderr) =>
          contains (stdout ++ stderr)
            (Ascii.ascii_of_N 34 :: into_bytes "status" ++ [Ascii.ascii_of_N 34; Ascii.ascii_of_N 58; Ascii.ascii_of_N 34]
             ++ into_bytes "filled" ++ [Ascii.ascii_of_N 34])
      | None => false
      end.

(** The trade, with the references it leaves; [None] when there is nothing to cross. *)
Definition fire_priced_trade (market : MarketId) (trader_key : Bytes) (mid_refs : gmap MarketId f64) :
    Prog (option bool * gmap MarketId f64) :=
  book ← fetch_orderbook market;
  match book with
  | Some (Some bid, Some ask) =>
      let mid := f64_div (f64_add (as_f64 bid) (as_f64 ask)) (as_f64 2) in
      '(side, mid_refs) ← pick_side market mid mid_refs;
      match crossing_tick (Some bid, Some ask) side with
      | Some cross_tick =>
          qty ← gen_range 20 110;
          filled ← run_demo_client side cross_tick qty market trader_key 5 "ioc";
          ret (Some filled, mid_refs)
      | None => ret (None, mid_refs)
      end
  | _ => ret (None, mid_refs)
  end.

(** Up to [n] trades of one market; one that finds no depth ends them. *)
Fixpoint seed_market (n : nat) (trader_key : Bytes) (market : MarketId) (mid_refs : gmap MarketId f64) :
    Prog (gmap MarketId f64) :=
  match n with
  | O => ret mid_refs
  | S n =>
      '(traded, mid_refs) ← fire_priced_trade market trader_key mid_refs;
      match traded with
      | None => ret mid_refs
      | Some _ => _ ← sleep 300; seed_market n trader_key market mid_refs
      end
  end.
Fixpoint seed_markets (trader_key : Bytes) (markets : list MarketId) (mid_refs : gmap MarketId f64) : Prog () :=
  match markets with
  | [] => ret ()
  | market :: markets => mid_refs ← seed_market 3 trader_key market mid_refs; seed_markets trader_key markets mid_refs
  end.

(** ** seed-loop *)

(** [order.swap(i, j)]. *)
Definition swap (l : list nat) (i j : nat) : list nat :=
  match l !! i, l !! j with Some x, Some y => <[j := x]> (<[i := y]> l) | _, _ => l end.
(** The loop over [(1..len).rev()]. *)
Fixpoint shuffle (i : nat) (order : list nat) : Prog (list nat) :=
  match i with
  | O => ret order
  | S i' => j ← gen_range 0 (Z.of_nat i); shuffle i' (swap order i (Z.to_nat j))
  end.

Fixpoint trade_in_turn (trader_key : Bytes) (order : list nat) (mid_refs : gmap MarketId f64) : Prog (gmap MarketId f64) :=
  match order with
  | [] => ret mid_refs
  | idx :: order =>
      market ← or_die (MARKETS !! idx);
      '(_, mid_refs) ← fire_priced_trade market trader_key mid_refs;
      gap ← gen_range 4 9;
      _ ← sleep (1000 * gap);
      trade_in_turn trader_key order mid_refs
  end.

Definition seed_round (trader_key : Bytes) (mid_refs : gmap MarketId f64) : Prog (gmap MarketId f64) :=
  order ← shuffle (length MARKETS - 1) (seq 0 (length MARKETS));
  trade_in_turn trader_key order mid_refs.
(** The first [n] rounds of the loop. *)
Fixpoint cmd_seed_loop (n : nat) (trader_key : Bytes) (mid_refs : gmap MarketId f64) : Prog (gmap MarketId f64) :=
  match n with
  | O => ret mid_refs
  | S n => mid_refs ← seed_round trader_key mid_refs; cmd_seed_loop n trader_key mid_refs
  end.
(** ** oracle-push-loop *)

Record Target := { tg_market : MarketId; tg_feed : string; tg_aggregator : Address }.

Definition market_named (s : Bytes) : option nat := fst <$> list_find (λ m, into_bytes m = s) MARKETS.
Definition push_target (pair : Bytes) : option Target :=
  '(market_id, aggregator) ← split_once equals pair;
  idx ← market_named market_id;
  market ← MARKETS !! idx; feed ← FEED_IDS !! idx;
  address ← parse_address aggregator;
  Some {| tg_market := market; tg_feed := feed; tg_aggregator := address |}.
Definition push_targets (targets_raw : Bytes) : list Target := omap push_target (split comma targets_raw).

Inductive PushError := NoPrice (e : OracleError) | NonPositivePrice.

(** [fetched] is what [fetch_price] answers for the feed. *)
Definition fetch_live_price (fetched : result PythPrice OracleError) : result f64 PushError :=
  match fetched with
  | Err e => Err (NoPrice e)
  | Ok live =>
      let real_price := f64_mul (as_f64 (price live)) (powi10 (expo live)) in
      if SFleb real_price (S754_zero false) then Err NonPositivePrice else Ok real_price
  end.

Definition EXPO : Z := -8.
Definition scaled_price (real_price : f64) : Z :=
  f64_as i64_min i64_max (f64_round (f64_mul real_price (as_f64 100000000))).
Definition price_conf (scaled : Z) : Z := as_u64 (Z.max (Z.quot scaled 1000) 1).

(** Whether the push went through. *)
Definition push_one_oracle_price (deployer_key : Bytes) (mock_pyth : Address) (t : Target) (real_price : f64)
    (update_chainlink : bool) : Prog bool :=
  match parse_key deployer_key with
  | None => ret false
  | Some signer =>
      let scaled := scaled_price real_price in
      let conf := price_conf scaled in
      publish_time ← ask (ou_clock Out);
      raw ← call (query mock_pyth (CreatePriceFeedUpdateData (keccak256 (into_bytes (tg_market t)))
                    scaled conf EXPO scaled conf publish_time));
      match raw ≫= decode_bytes with
      | None => ret false
      | Some update_data =>
          fee_raw ← call (query mock_pyth (GetUpdateFee [update_data]));
          match fee_raw ≫= decode_fee with
          | None => ret false
          | Some fee =>
              transact_all
                ({| tx_from := Some signer; tx_to := mock_pyth; tx_input := Some (UpdatePriceFeeds [update_data]); tx_value := fee |}
                 :: (if update_chainlink then [invoke signer (tg_aggregator t) (UpdateAnswer scaled)] else []))
          end
      end
  end.

(** Phase 2: the updates in turn; a market's price is removed as it is used. *)
Fixpoint push_prices (deployer_key : Bytes) (mock_pyth : Address) (update_chainlink : bool)
    (prices : gmap MarketId (result f64 PushError)) (targets : list Target) : Prog () :=
  match targets with
  | [] => ret ()
  | t :: targets =>
      _ ← match prices !! tg_market t with
          | Some (Ok real_price) =>
              _ ← push_one_oracle_price deployer_key mock_pyth t real_price update_chainlink; ret ()
          | _ => ret ()
          end;
      push_prices deployer_key mock_pyth update_chainlink (delete (tg_market t) prices) targets
  end.

(** One cycle: [joined] are the fetches that completed, in the order they did. *)
Definition push_cycle (deployer_key : Bytes) (mock_pyth : Address) (targets : list Target) (cycle : Z)
    (joined : list (MarketId * result PythPrice OracleError)) : Prog () :=
  let prices := foldl (λ m e, <[e.1 := fetch_live_price e.2]> m) ∅ joined in
  _ ← push_prices deployer_key mock_pyth (bool_decide (cycle mod 2 = 0)) prices targets;
  sleep 20000.

(** The cycles from the [cycle]-th on. *)
Fixpoint push_cycles (deployer_key : Bytes) (mock_pyth : Address) (targets : list Target) (cycle : Z)
    (fetches : list (list (MarketId * result PythPrice OracleError))) : Prog () :=
  match fetches with
  | [] => ret ()
  | joined :: fetches =>
      _ ← push_cycle deployer_key mock_pyth targets cycle joined;
      push_cycles deployer_key mock_pyth targets (u64_add cycle 1) fetches
  end.

Definition cmd_oracle_push_loop (fetches : list (list (MarketId * result PythPrice OracleError))) : Prog () :=
  deployer_key ← or_die (var "ORACLE_PUSH_DEPLOYER_KEY");
  mock_pyth ← or_die (var "ORACLE_PUSH_MOCK_PYTH" ≫= parse_address);
  targets_raw ← or_die (var "ORACLE_PUSH_TARGETS");
  push_cycles deployer_key mock_pyth (push_targets targets_raw) 0 fetches.

(** ** up *)

(** The child's pid goes to a file of its own. *)
Definition start (pid_file : string) (c : Command) : Prog () :=
  pid ← spawn c; write_file pid_file (fmt_u64 pid).

(** Steps 1 and 2: the chain, the keys it prints, and the contracts. *)
Definition start_anvil : Prog (list Bytes) :=
  _ ← start "anvil.pid" {| program := "anvil"; args := [into_bytes "--accounts"; into_bytes "20"]; envs := [] |};
  up ← wait_http_ok ANVIL_RPC 30;
  _ ← or_die up;
  content ← ask (ou_anvil_log Out);
  let mm_keys := parse_anvil_keys content in
  if decide (length mm_keys < 20)%nat then die else ret mm_keys.

Record Deployed := {
  dp_mock_pyth : Bytes;
  dp_risk_monitor : Bytes;
  dp_attestation_router : Bytes;
  dp_usdc_token : Bytes;
  dp_account_contract : Bytes;
  dp_market_contracts : list Bytes;
  dp_btc_aggregator : Bytes;
  dp_more_aggregators : list Bytes;
}.

Definition addr (output : Bytes) (label : string) : Prog Bytes := or_die (get_addr output label).

Definition deploy (deployer_key : Bytes) : Prog Deployed :=
  deploy_local ← run_forge_script "script/DeployLocal.s.sol:DeployLocal" [("PRIVATE_KEY"%string, deployer_key)];
  _ ← write_file "deploy_local.log" deploy_local;
  mock_pyth ← addr deploy_local "MockPyth:";
  oracle_hub ← addr deploy_local "OracleHub:";
  risk_monitor ← addr deploy_local "RiskMonitor:";
  attestation_router ← addr deploy_local "AttestationRouter:";
  eurc_usdc_market ← addr deploy_local "FxPerpMarket (EURC/USDC):";
  usdc_token ← addr deploy_local "USDC (mock):";
  account_contract ← addr deploy_local "Account:";
  let env := [("PRIVATE_KEY", deployer_key); ("ORACLE_HUB", oracle_hub); ("RISK_MONITOR", risk_monitor);
              ("ATTESTATION_ROUTER", attestation_router); ("MOCK_PYTH", mock_pyth)]%string in
  deploy_btc ← run_forge_script "script/DeployPerpMarketLocal.s.sol:DeployPerpMarketLocal" env;
  _ ← write_file "deploy_btc.log" deploy_btc;
  btc_usdc_market ← addr deploy_btc "PerpMarket (BTC/USDC):";
  btc_aggregator ← addr deploy_btc "BTCAggregator (mock):";
  deploy_more ← run_forge_script "script/DeployMoreMarketsLocal.s.sol:DeployMoreMarketsLocal" env;
  _ ← write_file "deploy_more.log" deploy_more;
  more_markets ← collect (addr deploy_more)
    ["GBP/USD (FxPerpMarket)"; "AUD/USD (FxPerpMarket)"; "USD/JPY (FxPerpMarket)"; "XAU/USD (PerpMarket)";
     "KR200/USD (PerpMarket, EWY proxy)"; "BRENT/USD (PerpMarket, front-month proxy)"; "HYPE/USD (PerpMarket)"]%string;
  let more_aggregators := get_addrs_all deploy_more "aggregator:" in
  if decide (length more_aggregators = 7%nat) then
    ret {| dp_mock_pyth := mock_pyth; dp_risk_monitor := risk_monitor; dp_attestation_router := attestation_router;
           dp_usdc_token := usdc_token; dp_account_contract := account_contract;
           dp_market_contracts := eurc_usdc_market :: btc_usdc_market :: more_markets;
           dp_btc_aggregator := btc_aggregator; dp_more_aggregators := more_aggregators |}
  else die.

Definition settlement_contracts (d : Deployed) : Bytes := table (into_bytes <$> MARKETS) (dp_market_contracts d).
Definition oracle_feeds : Bytes := table (into_bytes <$> MARKETS) (into_bytes <$> FEED_IDS).

(** Steps 3 to 4b: the matcher, its signer authorized, and the test wallet. *)
Definition matcher_command (d : Deployed) : Command := {|
  program := "cerdic-tee-matcher"; args := [];
  envs := [("SETTLEMENT_RPC_URL", ANVIL_RPC); ("CERDIC_SETTLEMENT_CONTRACTS", settlement_contracts d);
           ("CERDIC_ORACLE_FEEDS", oracle_feeds); ("CERDIC_ACCOUNT_CONTRACT", dp_account_contract d);
           ("CERDIC_COLLATERAL_ASSET", dp_usdc_token d); ("CERDIC_RISK_MONITOR_CONTRACT", dp_risk_monitor d);
           ("CERDIC_ENABLE_DEBUG_SEED", into_bytes "1"); ("CERDIC_LOG", into_bytes "info");
           ("CERDIC_DEV_SECRETS_SEED", DEV_SECRETS_SEED); ("CERDIC_BACKSTOP_NOTIONAL_CAP", BACKSTOP_NOTIONAL_CAP);
           ("CERDIC_DB_PATH", into_bytes "/tmp/cerdic-local/cerdic-state.redb")]%string |}.
Definition start_matcher (d : Deployed) (deployer_key : Bytes) : Prog () :=
  _ ← start "matcher.pid" (matcher_command d);
  pubkey ← wait_pubkey MATCHER_URL 180;
  settlement_address ← or_die pubkey;
  _ ← must (fund_and_authorize deployer_key settlement_address (dp_attestation_router d));
  match var "LOCAL_DEV_FUND_ADDRESS" with
  | Some fund_address => must (fund_test_wallet deployer_key fund_address (dp_usdc_token d))
  | None => ret ()
  end.

(** Step 5: two makers per market. *)
Definition maker_command (market : MarketId) (contract : Bytes) (feed : string) (key : Bytes)
    (sizing : list (string * Bytes)) : Command := {|
  program := "market_maker"; args := [];
  envs := [("RUST_LOG", into_bytes "info"); ("MATCHER_URL", MATCHER_URL); ("SETTLEMENT_RPC_URL", ANVIL_RPC);
           ("MARKET_ID", into_bytes market); ("MARKET_CONTRACT_ADDRESS", contract);
           ("PYTH_FEED_ID", into_bytes feed); ("MM_PRIVATE_KEY", key)]%string ++ sizing |}.
Definition WAVE_A : list (string * Bytes) :=
  [("MM_QUOTE_SIZE", into_bytes "200"); ("MM_SPREAD_BPS", into_bytes "20"); ("MM_LADDER_LEVELS", into_bytes "14")]%string.
Definition WAVE_B : list (string * Bytes) :=
  [("MM_QUOTE_SIZE", into_bytes "150"); ("MM_SPREAD_BPS", into_bytes "35"); ("MM_REQUOTE_INTERVAL_SECS", into_bytes "11");
   ("MM_LADDER_LEVELS", into_bytes "12")]%string.
Fixpoint start_makers (mm_keys : list Bytes) (market_contracts : list Bytes) (i : nat)
    (markets : list (MarketId * string)) : Prog (list Z) :=
  match markets with
  | [] => ret []
  | (market, feed) :: markets =>
      contract ← or_die (market_contracts !! i);
      key_a ← or_die (mm_keys !! (i + 1)%nat);
      pid_a ← spawn (maker_command market contract feed key_a WAVE_A);
      _ ← sleep 1000;
      key_b ← or_die (mm_keys !! (i + 10)%nat);
      pid_b ← spawn (maker_command market contract feed key_b WAVE_B);
      _ ← sleep 1000;
      pids ← start_makers mm_keys market_contracts (S i) markets;
      ret (pid_a :: pid_b :: pids)
  end.

(** Step 6. *)
Definition keeper_command (d : Deployed) (liquidator : Z) : Command := {|
  program := "keeper_liquidator"; args := [];
  envs := [("MATCHER_URL", MATCHER_URL); ("SETTLEMENT_RPC_URL", ANVIL_RPC);
           ("KEEPER_LIQUIDATOR_ADDRESS", fmt_address liquidator);
           ("KEEPER_MARKET_CONTRACTS", settlement_contracts d)]%string |}.
Definition hex_decode_key (key : Bytes) : Prog Bytes := or_die (hex_decode (trim_0x key)).

(** Step 7. *)
Definition seed_trades (d : Deployed) (deployer_key demo_trader_key : Bytes) : Prog () :=
  _ ← sleep 5000;
  demo_trader ← or_die (parse_key demo_trader_key);
  _ ← must (fund_test_wallet deployer_key (fmt_address demo_trader) (dp_usdc_token d));
  _ ← must (deposit_as_trader demo_trader_key (dp_usdc_token d) (dp_account_contract d));
  seed_markets demo_trader_key MARKETS ∅.

(** Steps 8 and 9. *)
Definition aggregators (d : Deployed) : list (MarketId * Bytes) :=
  omap (λ '(m, a), m ← MARKETS !! m; a ← a; Some (m, a))
    [(1%nat, Some (dp_btc_aggregator d)); (5%nat, dp_more_aggregators d !! 3%nat); (6%nat, dp_more_aggregators d !! 4%nat);
     (7%nat, dp_more_aggregators d !! 5%nat); (8%nat, dp_more_aggregators d !! 6%nat)].
Definition oracle_push_targets (d : Deployed) : Bytes :=
  table (into_bytes ∘ fst <$> aggregators d) (snd <$> aggregators d).
Definition oracle_command (d : Deployed) (deployer_key : Bytes) : Command := {|
  program := "local_dev"; args := [into_bytes "oracle-push-loop"];
  envs := [("ORACLE_PUSH_DEPLOYER_KEY", deployer_key); ("ORACLE_PUSH_MOCK_PYTH", dp_mock_pyth d);
           ("ORACLE_PUSH_TARGETS", oracle_push_targets d)]%string |}.
Definition seed_command (demo_trader_key : Bytes) : Command := {|
  program := "local_dev"; args := [into_bytes "seed-loop"]; envs := [("SEED_TRADER_KEY"%string, demo_trader_key)] |}.

Definition cmd_up : Prog () :=
  _ ← cmd_down;
  _ ← remove_files;
  mm_keys ← start_anvil;
  deployer_key ← or_die (mm_keys !! 0%nat);
  d ← deploy deployer_key;
  _ ← start_matcher d deployer_key;
  mm_pids ← start_makers mm_keys (dp_market_contracts d) 0 (zip MARKETS FEED_IDS);
  _ ← write_file "market_maker.pids" (join [newline] (fmt_u64 <$> mm_pids));
  slice ← hex_decode_key deployer_key;
  liquidator ← or_die (key_of_slice slice);
  _ ← start "keeper_liquidator.pid" (keeper_command d liquidator);
  demo_trader_key ← or_die (mm_keys !! 19%nat);
  _ ← seed_trades d deployer_key demo_trader_key;
  _ ← start "oracle_push_loop.pid" (oracle_command d deployer_key);
  start "seed_loop.pid" (seed_command demo_trader_key).
End driver.
