(* ===== verification/LocalDevProps.v ===== *)
(** * The local development driver: theorems

    What a completed [up] has started and configured, and that [down] stops it. *)
From Stdlib Require Import SpecFloat.
From S2P Require Import Prelude Ints Text F64 Types Positions Backstop Config ConfigProps Keeper Funding LocalDev.
Open Scope Z_scope.

(** ** What a run leaves *)

(** The processes started, in order. *)
Definition launched (es : list Event) : list (Command * Z) :=
  omap (λ e, match e with Spawned c pid => Some (c, pid) | _ => None end) es.

(** The files that remember processes. *)
Definition pid_files (w : World) : list (option Bytes) := (λ n, files w !! n) <$> PID_FILES.

(** A computation that starts no process and writes no pid file; it only adds to the log. *)
Definition quiet {A} (m : Prog A) : Prop :=
  ∀ w w' r, m w = (w', r) →
    pid_files w' = pid_files w ∧ launched (events w') = launched (events w) ∧ events w `prefix_of` events w'.

Create HintDb quiet.

Lemma bind_Done {A B} (m : Prog A) (k : A → Prog B) w w' b :
  (x ← m; k x) w = (w', Some b) ↔ ∃ w1 a, m w = (w1, Some a) ∧ k a w1 = (w', Some b).
Proof.
  unfold mbind, prog_bind. destruct (m w) as [w1 [a|]]; split.
  - intros H. by exists w1, a.
  - by intros (? & ? & [= <- <-] & ?).
  - done.
  - by intros (? & ? & [= ] & ?).
Qed.

Section quiet.
Context {A B : Type}.

Lemma quiet_bind (m : Prog A) (k : A → Prog B) : quiet m → (∀ a, quiet (k a)) → quiet (a ← m; k a).
Proof.
  intros Hm Hk w w' r. unfold mbind, prog_bind. destruct (m w) as [w1 [a|]] eqn:E; apply Hm in E as (Hf & Hl & Hp).
  - intros (Hf' & Hl' & Hp')%Hk. rewrite Hf', Hl', Hf, Hl. split_and!; [done..|by etrans].
  - by intros [= <- <-].
Qed.
Lemma quiet_ret (a : A) : quiet (ret a).
Proof. by intros w w' r [= <- <-]. Qed.
Lemma quiet_die : quiet (die (A := A)).
Proof. by intros w w' r [= <- <-]. Qed.
Lemma quiet_or_die (o : option A) : quiet (or_die o).
Proof. by intros w w' r [= <- <-]. Qed.
Lemma quiet_ask (f : list Event → A) : quiet (ask f).
Proof. by intros w w' r [= <- <-]. Qed.
Lemma quiet_emit e : match e with Spawned _ _ => False | _ => True end → quiet (emit e).
Proof.
  intros He w w' r [= <- <-]. cbn. unfold launched. rewrite omap_app. split_and!; [done| |by apply prefix_app_r].
  destruct e; cbn; by rewrite ?app_nil_r.
Qed.
Lemma quiet_read n : quiet (read_file n).
Proof. intros w w' r H. unfold read_file in H. by injection H as <- <-. Qed.
Lemma quiet_write n content : n ∉ PID_FILES → quiet (write_file n content).
Proof.
  intros Hn w w' r [= <- <-]. split; [|by split]. unfold pid_files. cbn [files]. apply list_fmap_ext. intros i n' Hi.
  apply lookup_insert_ne. intros ->. by apply Hn, (list_elem_of_lookup_2 _ i).
Qed.
End quiet.
#[export] Hint Resolve quiet_ret quiet_die quiet_or_die quiet_ask quiet_read : quiet.
#[export] Hint Extern 1 (quiet (emit _)) => apply quiet_emit; exact I : quiet.
#[export] Hint Extern 1 (quiet (write_file _ _)) =>
  apply quiet_write; refine (bool_decide_unpack _ _); vm_compute; exact I : quiet.

(** Binds, cases and the calls known to be quiet. *)
Ltac quietly :=
  repeat first
    [ progress auto with quiet
    | apply quiet_bind; [|intros ?]
    | match goal with
      | |- quiet (match ?x with _ => _ end) => destruct x
      | |- quiet (let '(_, _) := ?x in _) => destruct x
      end ].

Lemma for_each_quiet {A} (f : A → Prog ()) l : (∀ x, quiet (f x)) → quiet (for_each f l).
Proof. intros Hf. induction l as [|x l IH]; cbn [for_each]; quietly. Qed.
Lemma collect_quiet {A B} (f : A → Prog B) l : (∀ x, quiet (f x)) → quiet (collect f l).
Proof. intros Hf. induction l as [|x l IH]; cbn [collect]; quietly. Qed.

Lemma sleep_quiet n : quiet (sleep n).
Proof. unfold sleep. quietly. Qed.
#[export] Hint Resolve sleep_quiet : quiet.

Section driver.
Context (Out : Outside) (var : string → option Bytes).
Context (parse_key parse_address : Bytes → option Z) (key_of_slice : list Ascii.ascii → option Z).
Context (hex_decode : Bytes → option Bytes) (fmt_address : Z → Bytes) (keccak256 : Bytes → Z).
Context (parse_pubkey : Bytes → option Bytes) (parse_book : Bytes → option (option Z * option Z)).
Context (decode_bytes : Bytes → option Bytes) (decode_fee : Bytes → option Z) (powi10 : Z → spec_float).

Lemma run_output_quiet c : quiet (run_output Out c).
Proof. unfold run_output. quietly. Qed.
Lemma get_quiet url : quiet (get Out url).
Proof. unfold get. quietly. Qed.
Lemma gen_range_quiet lo hi : quiet (gen_range Out lo hi).
Proof. unfold gen_range. quietly. Qed.
Lemma gen_bool_quiet p : quiet (gen_bool Out p).
Proof. unfold gen_bool. quietly. Qed.
Lemma transact_quiet tx : quiet (transact Out tx).
Proof. unfold transact. quietly. Qed.
#[local] Hint Resolve run_output_quiet get_quiet gen_range_quiet gen_bool_quiet transact_quiet : quiet.
Lemma transact_all_quiet txs : quiet (transact_all Out txs).
Proof. induction txs; cbn [transact_all]; quietly. Qed.
#[local] Hint Resolve transact_all_quiet : quiet.
Lemma must_quiet m : quiet m → quiet (must m).
Proof. intros Hm. unfold must. quietly. Qed.
#[local] Hint Resolve must_quiet : quiet.

Lemma fund_and_authorize_quiet k s r : quiet (fund_and_authorize Out parse_key parse_address k s r).
Proof. unfold fund_and_authorize. quietly. Qed.
Lemma fund_test_wallet_quiet k s r : quiet (fund_test_wallet Out parse_key parse_address k s r).
Proof. unfold fund_test_wallet. quietly. Qed.
Lemma deposit_quiet k s r : quiet (deposit_as_trader Out parse_key parse_address k s r).
Proof. unfold deposit_as_trader. quietly. Qed.
Lemma wait_http_quiet url n : quiet (wait_http_ok Out url n).
Proof. induction n; cbn [wait_http_ok]; quietly. Qed.
Lemma wait_pubkey_quiet url n : quiet (wait_pubkey Out parse_pubkey url n).
Proof. induction n; cbn [wait_pubkey]; quietly. Qed.
Lemma forge_quiet t env : quiet (run_forge_script Out t env).
Proof. unfold run_forge_script. quietly. Qed.
Lemma fire_quiet m k refs : quiet (fire_priced_trade Out parse_book m k refs).
Proof. unfold fire_priced_trade, fetch_orderbook, pick_side, run_demo_client. cbv zeta. quietly. Qed.
#[local] Hint Resolve fund_and_authorize_quiet fund_test_wallet_quiet deposit_quiet wait_http_quiet
  wait_pubkey_quiet forge_quiet fire_quiet : quiet.
Lemma seed_market_quiet n k m refs : quiet (seed_market Out parse_book n k m refs).
Proof. revert refs. induction n; intros refs; cbn [seed_market]; quietly. Qed.
#[local] Hint Resolve seed_market_quiet : quiet.
Lemma seed_markets_quiet k ms refs : quiet (seed_markets Out parse_book k ms refs).
Proof. revert refs. induction ms; intros refs; cbn [seed_markets]; quietly. Qed.
#[local] Hint Resolve seed_markets_quiet : quiet.
Lemma seed_trades_quiet d k t : quiet (seed_trades Out parse_key parse_address fmt_address parse_book d k t).
Proof. unfold seed_trades. quietly. Qed.
Lemma addr_quiet o l : quiet (addr o l).
Proof. unfold addr. quietly. Qed.
#[local] Hint Resolve addr_quiet : quiet.
Lemma deploy_quiet k : quiet (deploy Out k).
Proof. unfold deploy. cbv zeta. quietly. Qed.

(** ** What a completed step has done *)

Definition started (w w' : World) (cs : list (Command * Z)) : Prop :=
  launched (events w') = launched (events w) ++ cs ∧ events w `prefix_of` events w'.

Lemma quiet_started {A} (m : Prog A) w w' r : quiet m → m w = (w', r) → started w w' [] ∧ pid_files w' = pid_files w.
Proof. intros Hm H. apply Hm in H as (Hf & Hl & Hp). split; [|done]. unfold started. by rewrite Hl, app_nil_r. Qed.

Lemma started_trans w1 w2 w3 a b : started w1 w2 a → started w2 w3 b → started w1 w3 (a ++ b).
Proof. intros [H1 P1] [H2 P2]. split; [by rewrite H2, H1, app_assoc|by etrans]. Qed.

Lemma spawn_Done c w w' pid :
  spawn Out c w = (w', Some pid) → started w w' [(c, pid)] ∧ files w' = files w.
Proof.
  unfold spawn. intros (w1 & o & [= <- <-] & H)%bind_Done. apply bind_Done in H as (w2 & pid' & Ho & H).
  unfold or_die in Ho. injection Ho as <- Ho. apply bind_Done in H as (w3 & [] & [= <-] & [= <- <-]). cbn.
  split; [|done]. unfold started, launched. cbn. rewrite omap_app. split; [done|by apply prefix_app_r].
Qed.

Lemma start_Done f c w w' :
  start Out f c w = (w', Some ()) → ∃ pid, started w w' [(c, pid)] ∧ files w' = <[f := fmt_u64 pid]> (files w).
Proof.
  unfold start. intros (w1 & pid & [Hs Hf]%spawn_Done & [= <-])%bind_Done. exists pid. cbn. by rewrite Hf.
Qed.

(** The makers' commands, while there are keys and contracts for them. *)
Fixpoint maker_commands (mm_keys contracts : list Bytes) (i : nat) (markets : list (MarketId * string)) : option (list Command) :=
  match markets with
  | [] => Some []
  | (market, feed) :: markets =>
      contract ← contracts !! i; key_a ← mm_keys !! (i + 1)%nat; key_b ← mm_keys !! (i + 10)%nat;
      rest ← maker_commands mm_keys contracts (S i) markets;
      Some (maker_command market contract feed key_a WAVE_A :: maker_command market contract feed key_b WAVE_B :: rest)
  end.

Lemma start_makers_Done keys contracts i markets w w' pids :
  start_makers Out keys contracts i markets w = (w', Some pids) →
  ∃ cmds, maker_commands keys contracts i markets = Some cmds ∧ length pids = length cmds ∧
    started w w' (zip cmds pids) ∧ pid_files w' = pid_files w.
Proof.
  revert i w w' pids. induction markets as [|[market feed] markets IH]; intros i w w' pids; cbn [start_makers].
  { intros [= <- <-]. exists []. split; [done|]. split; [done|]. split; [|done]. split; [by rewrite app_nil_r|done]. }
  intros (w1 & contract & Hc & H)%bind_Done. unfold or_die in Hc. injection Hc as <- Hc.
  apply bind_Done in H as (w2 & ka & Ha & H). unfold or_die in Ha. injection Ha as <- Ha.
  apply bind_Done in H as (w3 & pa & [Hsa Hfa]%spawn_Done & H).
  apply bind_Done in H as (w4 & [] & [Hs4 Hf4]%(quiet_started _ _ _ _ (sleep_quiet _)) & H).
  apply bind_Done in H as (w5 & kb & Hb & H). unfold or_die in Hb. injection Hb as <- Hb.
  apply bind_Done in H as (w6 & pb & [Hsb Hfb]%spawn_Done & H).
  apply bind_Done in H as (w7 & [] & [Hs7 Hf7]%(quiet_started _ _ _ _ (sleep_quiet _)) & H).
  apply bind_Done in H as (w8 & rest & (cmds & Hcmds & Hlen & Hs8 & Hf8)%IH & [= <- <-]).
  eexists. cbn [maker_commands]. rewrite Hc, Ha, Hb. cbn [mbind option_bind]. rewrite Hcmds. cbn [mbind option_bind].
  split; [done|]. cbn [length zip zip_with]. split; [by rewrite Hlen|].
  pose proof (started_trans _ _ _ _ _ Hsa (started_trans _ _ _ _ _ Hs4 (started_trans _ _ _ _ _ Hsb
    (started_trans _ _ _ _ _ Hs7 Hs8)))) as Hall. cbn in Hall. split; [exact Hall|].
  unfold pid_files in *. rewrite Hf8, Hf7, Hfb, Hf4. by rewrite Hfa.
Qed.

Abbreviation up := (cmd_up Out var parse_key parse_address key_of_slice hex_decode fmt_address parse_pubkey parse_book).

Definition anvil_command : Command :=
  {| program := "anvil"; args := [into_bytes "--accounts"; into_bytes "20"]; envs := [] |}.

Lemma collect_length {A B} (f : A → Prog B) l w w' ys : collect f l w = (w', Some ys) → length ys = length l.
Proof.
  revert w ys. induction l as [|x l IH]; intros w ys; cbn [collect]; [by intros [= <- <-]|].
  intros (w1 & y & _ & (w2 & ys' & H & [= <- <-])%bind_Done)%bind_Done. cbn. f_equal. by eapply IH.
Qed.

Ltac next := match goal with
  | H : (_ ← _; _) _ = (_, Some _) |- _ => let w := fresh "w" in let a := fresh "a" in let H1 := fresh "H" in
      apply bind_Done in H as (w & a & H1 & H)
  end.

(** The labels whose lines the deployment is read from. *)
Definition LABELS : list string :=
  ["MockPyth:"; "OracleHub:"; "RiskMonitor:"; "AttestationRouter:"; "FxPerpMarket (EURC/USDC):"; "USDC (mock):"; "Account:";
   "PerpMarket (BTC/USDC):"; "BTCAggregator (mock):"; "GBP/USD (FxPerpMarket)"; "AUD/USD (FxPerpMarket)";
   "USD/JPY (FxPerpMarket)"; "XAU/USD (PerpMarket)"; "KR200/USD (PerpMarket, EWY proxy)";
   "BRENT/USD (PerpMarket, front-month proxy)"; "HYPE/USD (PerpMarket)"].

(** A script that succeeds logs an address last on the lines of these labels. *)
Definition script_output (o : Bytes) : Prop :=
  Forall (λ l, match get_addr o l with Some a => is_Some (parse_address a) | None => True end) LABELS ∧
  Forall (λ a, is_Some (parse_address a)) (get_addrs_all o "aggregator:").
Definition logs_addresses : Prop :=
  ∀ h c out err, ou_output Out h c = Some (true, out, err) → program c = "forge"%string → script_output (out ++ newline :: err).

(** A script ran, with that environment, and printed that. *)
Definition said (w : World) (target : string) (env : list (string * Bytes)) (o : Bytes) : Prop :=
  ∃ h out err, let c := {| program := "forge"; envs := env;
      args := [into_bytes "script"; into_bytes target; into_bytes "--rpc-url"; ANVIL_RPC; into_bytes "--broadcast"] |} in
    h ++ [Ran c] `prefix_of` events w ∧ ou_output Out h c = Some (true, out, err) ∧ o = out ++ newline :: err.

(** The nine markets: its name, its feed, and the script output and the line that name its contract. *)
Definition STACK (o1 o2 o3 : Bytes) : list (string * string * (Bytes * string)) :=
  [("EURC/USDC", "a995d00bb36a63cef7fd2c287dc105fc8f3d93779f062f09551b0af3e81ec30b", (o1, "FxPerpMarket (EURC/USDC):"));
   ("BTC/USDC", "e62df6c8b4a85fe1a67db44dc12de5db330f7ac66b72dc658afedf0f4a415b43", (o2, "PerpMarket (BTC/USDC):"));
   ("GBP/USD", "84c2dde9633d93d1bcad84e7dc41c9d56578b7ec52fabedc1f335d673df0a7c1", (o3, "GBP/USD (FxPerpMarket)"));
   ("AUD/USD", "67a6f93030420c1c9e3fe37c1ab6b77966af82f995944a9fefce357a22854a80", (o3, "AUD/USD (FxPerpMarket)"));
   ("USD/JPY", "ef2c98c804ba503c6a707e38be4dfbb16683775f195b091252bf24693042fd52", (o3, "USD/JPY (FxPerpMarket)"));
   ("XAU/USD", "765d2ba906dbc32ca17cc11f5310a89e9ee1f6420508c63861f2f8ba4ee34bb2", (o3, "XAU/USD (PerpMarket)"));
   ("KR200/USD", "7be2b3f9f9d02b1ffcf61fc26ad5cc6aff4dd02044f9abc22ee57f37b3b5d2e5", (o3, "KR200/USD (PerpMarket, EWY proxy)"));
   ("BRENT/USD", "6e3607735df0f027dc63890cc48055cccf1551003cc7a7c934cabe04485d1193", (o3, "BRENT/USD (PerpMarket, front-month proxy)"));
   ("HYPE/USD", "4279e31cc369bbcc2faf022b382b080e32a8e689ff20fbc530d2a603eb6cd98b", (o3, "HYPE/USD (PerpMarket)"))]%string.

(** Where everything deployed was read. *)
Record deployed_from (w : World) (deployer o1 o2 o3 : Bytes) (d : Deployed) : Prop := {
  df_local : said w "script/DeployLocal.s.sol:DeployLocal" [("PRIVATE_KEY"%string, deployer)] o1;
  df_markets : ∃ hub, get_addr o1 "OracleHub:" = Some hub ∧
    let env := [("PRIVATE_KEY", deployer); ("ORACLE_HUB", hub); ("RISK_MONITOR", dp_risk_monitor d);
                ("ATTESTATION_ROUTER", dp_attestation_router d); ("MOCK_PYTH", dp_mock_pyth d)]%string in
    said w "script/DeployPerpMarketLocal.s.sol:DeployPerpMarketLocal" env o2 ∧
    said w "script/DeployMoreMarketsLocal.s.sol:DeployMoreMarketsLocal" env o3;
  df_core : get_addr o1 "MockPyth:" = Some (dp_mock_pyth d) ∧ get_addr o1 "RiskMonitor:" = Some (dp_risk_monitor d) ∧
    get_addr o1 "AttestationRouter:" = Some (dp_attestation_router d) ∧
    get_addr o1 "USDC (mock):" = Some (dp_usdc_token d) ∧ get_addr o1 "Account:" = Some (dp_account_contract d);
  df_contracts : Forall2 (λ r a, get_addr r.2.1 r.2.2 = Some a) (STACK o1 o2 o3) (dp_market_contracts d);
  df_btc : get_addr o2 "BTCAggregator (mock):" = Some (dp_btc_aggregator d);
  df_aggregators : dp_more_aggregators d = get_addrs_all o3 "aggregator:" ∧ length (dp_more_aggregators d) = 7%nat;
}.

Lemma said_mono w w' t env o : events w `prefix_of` events w' → said w t env o → said w' t env o.
Proof. intros Hp (h & out & err & Hh & Hs). exists h, out, err. split; [by etrans|done]. Qed.

Lemma deployed_mono w w' k o1 o2 o3 d :
  events w `prefix_of` events w' → deployed_from w k o1 o2 o3 d → deployed_from w' k o1 o2 o3 d.
Proof.
  intros Hp [H1 (hub & Hh & H2 & H3) Hc Hm Hb Ha]. split; try done; [by eapply said_mono|].
  exists hub. split; [done|]. split; by eapply said_mono.
Qed.

Lemma addr_Done o l w w' a : addr o l w = (w', Some a) → w' = w ∧ get_addr o l = Some a.
Proof. unfold addr, or_die. by intros [= <- ->]. Qed.

Lemma addrs_Done o ls w w' ys :
  collect (addr o) ls w = (w', Some ys) → w' = w ∧ Forall2 (λ l a, get_addr o l = Some a) ls ys.
Proof.
  revert w w' ys. induction ls as [|l ls IH]; intros w w' ys; cbn [collect]; [by intros [= <- <-]|].
  intros (w1 & y & [-> Hy]%addr_Done & (w2 & ys' & [-> H]%IH & [= <- <-])%bind_Done)%bind_Done. split; [done|by constructor].
Qed.

Lemma forge_Done t env w w' o :
  run_forge_script Out t env w = (w', Some o) → said w' t env o ∧ events w `prefix_of` events w'.
Proof.
  unfold run_forge_script. intros (w1 & out & Hrun & H)%bind_Done. unfold run_output in Hrun.
  apply bind_Done in Hrun as (w2 & out' & [= <- <-] & Hrun). apply bind_Done in Hrun as (w3 & [] & [= <-] & [= <- <-]).
  match type of H with context [ou_output Out ?h ?c] => destruct (ou_output Out h c) as [[[[|] so] se]|] eqn:E end; try done.
  injection H as <- <-. split; [|by apply prefix_app_r]. exists (events w), so, se. by split.
Qed.

Lemma deploy_Done k w w' d : deploy Out k w = (w', Some d) → ∃ o1 o2 o3, deployed_from w' k o1 o2 o3 d.
Proof.
  unfold deploy. cbv zeta. intros H. repeat next. case_decide as Hl; [|done]. injection H as <- <-.
  repeat match goal with
  | Ha : addr _ _ _ = (_, Some _) |- _ => apply addr_Done in Ha as [? Ha]
  | Ha : collect _ _ _ = (_, Some _) |- _ => apply addrs_Done in Ha as [? Ha]
  | Hw : write_file _ _ _ = (_, Some ?u) |- _ => destruct u; injection Hw as Hw
  | Hf : run_forge_script _ _ _ _ = (_, Some _) |- _ => apply forge_Done in Hf as [Hf ?]
  end.
  subst. cbn [events] in *. eexists _, _, _. split; cbn.
  - eapply said_mono; [|eassumption]. by etrans.
  - eexists. split; [eassumption|]. split; [by eapply said_mono|done].
  - by split_and!.
  - repeat match goal with Hc : Forall2 _ (_ :: _) _ |- _ => apply Forall2_cons_inv_l in Hc as (? & ? & ? & Hc & ->) end.
    match goal with Hc : Forall2 _ [] _ |- _ => apply Forall2_nil_inv_l in Hc as -> end. by repeat constructor.
  - done.
  - done.
Qed.

(** Everything a completed [up] has started, and the pid files it leaves. *)
Record up_done (w w' : World) (keys : list Bytes) (d : Deployed) (cmds : list Command) (mm_pids : list Z)
    (pids : Z * Z * Z * Z * Z) (deployer trader : Bytes) (liquidator : Z) : Prop := {
  ud_keys : (20 ≤ length keys)%nat ∧ keys !! 0%nat = Some deployer ∧ keys !! 19%nat = Some trader;
  ud_makers : maker_commands keys (dp_market_contracts d) 0 (zip MARKETS FEED_IDS) = Some cmds ∧ length mm_pids = length cmds;
  ud_read : ∃ h pid, h `prefix_of` events w' ∧ (anvil_command, pid) ∈ launched h ∧ keys = parse_anvil_keys (ou_anvil_log Out h);
  ud_liquidator : ∃ slice, hex_decode (trim_0x deployer) = Some slice ∧ key_of_slice slice = Some liquidator;
  ud_deployed : ∃ o1 o2 o3, deployed_from w' deployer o1 o2 o3 d;
  ud_started : let '(anvil, matcher, keeper, oracle, seeder) := pids in
    started w w' ([(anvil_command, anvil); (matcher_command d, matcher)] ++ zip cmds mm_pids ++
      [(keeper_command fmt_address d liquidator, keeper); (oracle_command d deployer, oracle); (seed_command trader, seeder)]);
  ud_files : let '(anvil, matcher, keeper, oracle, seeder) := pids in
    pid_files w' = Some <$> [fmt_u64 anvil; fmt_u64 matcher; fmt_u64 keeper; fmt_u64 seeder; fmt_u64 oracle;
                             join [newline] (fmt_u64 <$> mm_pids)];
}.

(** A write to one of the pid files. *)
Definition written (f : string) (c : Bytes) (l : list (option Bytes)) : list (option Bytes) :=
  zip_with (λ n o, if decide (n = f) then Some c else o) PID_FILES l.

Lemma write_pid f c w w' : files w' = <[f := c]> (files w) → pid_files w' = written f c (pid_files w).
Proof.
  intros Hf. unfold pid_files, written. rewrite Hf. induction PID_FILES as [|n l IH]; [done|]. cbn. rewrite IH. f_equal.
  case_decide as Hn; [by rewrite Hn, lookup_insert_eq|]. by rewrite lookup_insert_ne.
Qed.

Lemma start_anvil_Done w w' keys :
  start_anvil Out w = (w', Some keys) →
  ∃ pid, started w w' [(anvil_command, pid)] ∧ pid_files w' = written "anvil.pid" (fmt_u64 pid) (pid_files w) ∧
    (20 ≤ length keys)%nat ∧ keys = parse_anvil_keys (ou_anvil_log Out (events w')).
Proof.
  unfold start_anvil. intros H. next. destruct a as []. apply start_Done in H0 as (pid & Hs & Hf). exists pid.
  next. apply quiet_started in H0 as [Hs1 Hf1]; [|apply wait_http_quiet]. next. apply quiet_started in H0 as [Hs2 Hf2]; [|auto with quiet].
  next. injection H0 as <- <-. case_decide; [done|]. injection H as <- <-.
  split; [|split; [|split; [lia|done]]].
  - exact (started_trans _ _ _ _ _ Hs (started_trans _ _ _ _ _ Hs1 Hs2)).
  - rewrite Hf2, Hf1. by apply write_pid.
Qed.

Lemma kill_file_quiet n : quiet (kill_file n).
Proof. unfold kill_file. quietly. apply for_each_quiet. intros line. unfold kill_line. quietly. Qed.

Lemma cmd_down_started w w' r : cmd_down w = (w', r) → started w w' [].
Proof.
  unfold cmd_down. intros H. refine (proj1 (quiet_started _ _ _ _ _ H)).
  apply quiet_bind; [apply for_each_quiet, kill_file_quiet|]. intros []. apply for_each_quiet. quietly.
Qed.

Lemma start_matcher_Done d k w w' :
  start_matcher Out var parse_key parse_address parse_pubkey d k w = (w', Some ()) →
  ∃ pid, started w w' [(matcher_command d, pid)] ∧ pid_files w' = written "matcher.pid" (fmt_u64 pid) (pid_files w).
Proof.
  unfold start_matcher. intros H. next. destruct a as []. apply start_Done in H0 as (pid & Hs & Hf). exists pid.
  apply quiet_started in H as [Hs1 Hf1]; cycle 1.
  { quietly; try apply wait_pubkey_quiet; apply must_quiet; first [apply fund_and_authorize_quiet|apply fund_test_wallet_quiet]. }
  split; [exact (started_trans _ _ _ _ _ Hs Hs1)|]. rewrite Hf1. by apply write_pid.
Qed.

Lemma up_Done w w' :
  up w = (w', Some ()) →
  ∃ keys d cmds mm_pids pids deployer trader liquidator, up_done w w' keys d cmds mm_pids pids deployer trader liquidator.
Proof.
  unfold cmd_up. intros H. next. destruct a as []. apply cmd_down_started in H0. rename H0 into Hs0.
  next. destruct a as []. injection H0 as <-. set (w1 := {| events := _; files := ∅ |}) in *.
  next. apply start_anvil_Done in H0 as (anvil & Hs1 & Hf1 & Hk & Hkeys).
  next. injection H0 as <- Hdep. rename a0 into deployer.
  next. rename a0 into d. pose proof (deploy_Done _ _ _ _ H0) as (o1 & o2 & o3 & Hd). apply quiet_started in H0 as [Hs2 Hf2]; [|apply deploy_quiet].
  next. destruct a0 as []. apply start_matcher_Done in H0 as (matcher & Hs3 & Hf3).
  next. rename a0 into mm_pids. apply start_makers_Done in H0 as (cmds & Hcmds & Hlen & Hs4 & Hf4).
  next. destruct a0 as []. injection H0 as <-. set (w6 := {| events := _; files := <[_ := _]> _ |}) in *.
  next. unfold hex_decode_key, or_die in H0. injection H0 as <- Hslice. next. injection H0 as <- Hliq. rename a1 into liquidator.
  next. destruct a1 as []. apply start_Done in H0 as (keeper & Hs5 & Hf5).
  next. injection H0 as <- Htr. rename a1 into trader.
  next. destruct a1 as []. apply quiet_started in H0 as [Hs6 Hf6]; [|apply seed_trades_quiet].
  next. destruct a1 as []. apply start_Done in H0 as (oracle & Hs7 & Hf7).
  apply start_Done in H as (seeder & Hs8 & Hf8).
  exists a, d, cmds, mm_pids, (anvil, matcher, keeper, oracle, seeder), deployer, trader, liquidator.
  pose proof (started_trans _ _ _ _ _ Hs3 (started_trans _ _ _ _ _ Hs4 (started_trans _ _ _ _ _ Hs5
      (started_trans _ _ _ _ _ Hs6 (started_trans _ _ _ _ _ Hs7 Hs8))))) as [_ Hp3].
  split; [done|done| |by eexists|exists o1, o2, o3; by eapply deployed_mono| |].
  - eexists _, anvil. split; [|split; [|exact Hkeys]]; [etrans; [apply Hs2|exact Hp3]|].
    rewrite (proj1 Hs1). apply elem_of_app. right. by apply list_elem_of_singleton.
  - assert (Hs01 : started w w1 []) by exact Hs0.
    pose proof (started_trans _ _ _ _ _ Hs01 (started_trans _ _ _ _ _ Hs1 (started_trans _ _ _ _ _ Hs2
      (started_trans _ _ _ _ _ Hs3 (started_trans _ _ _ _ _ Hs4 (started_trans _ _ _ _ _ Hs5
      (started_trans _ _ _ _ _ Hs6 (started_trans _ _ _ _ _ Hs7 Hs8)))))))) as Hall.
    cbn [app] in Hall. exact Hall.
  - assert (Hf6' : pid_files w6 = written "market_maker.pids" (join [newline] (fmt_u64 <$> mm_pids)) (pid_files w5))
      by by apply write_pid.
    apply write_pid in Hf5, Hf7, Hf8. rewrite Hf8, Hf7, Hf6, Hf5, Hf6', Hf4, Hf3, Hf2, Hf1. vm_compute. reflexivity.
Qed.
End driver.

(** ** Pid files *)

Lemma numeral_plain l : numeral l → Forall (λ a, is_whitespace a = false ∧ a ≠ newline ∧ a ≠ carriage_return ∧ a ≠ comma) l.
Proof.
  intros Hl. eapply Forall_impl; [exact Hl|]. intros a Ha.
  assert (Hall : Forall (λ a, is_whitespace a = false ∧ a ≠ newline ∧ a ≠ carriage_return ∧ a ≠ comma) (into_bytes "-0123456789")).
  { refine (bool_decide_unpack _ _). vm_compute. exact I. }
  exact (proj1 (Forall_forall _ _) Hall a Ha).
Qed.

Lemma fmt_nonempty n : in_u 64 n → fmt_u64 n ≠ [].
Proof. intros Hn Hs. pose proof (parse_fmt n Hn) as Hp. by rewrite Hs in Hp. Qed.

Lemma fmt_solid n : in_u 64 n → solid (fmt_u64 n).
Proof.
  intros Hn. pose proof (numeral_plain _ (fmt_u64_numeral n)) as Hp. pose proof (fmt_nonempty n Hn) as Hne.
  generalize dependent (fmt_u64 n). intros l Hp Hne. split.
  - destruct l as [|a l]; [done|]. apply Forall_cons in Hp as [[Ha _] _]. by exists a, l.
  - destruct l as [|a l _] using rev_ind; [done|]. apply Forall_app in Hp as [_ [[Ha _] _]%Forall_cons]. by exists l, a.
Qed.

Lemma push_none (l : Bytes) : foldl (push_digit 10) None l = None.
Proof. induction l; [done|]. done. Qed.

(** The decimal of a pid is read back. *)
Lemma parse_pid pid : 0 ≤ pid < 2 ^ 31 → parse_i32 (trim (fmt_u64 pid)) = Some pid.
Proof.
  intros Hp. assert (Hu : in_u 64 pid) by int_range.
  assert (trim (fmt_u64 pid) = fmt_u64 pid) as ->.
  { pose proof (trim_solid [] (fmt_u64 pid) [] ltac:(constructor) (fmt_solid pid Hu) ltac:(constructor)) as H.
    by rewrite app_nil_r in H. }
  pose proof (parse_fmt pid Hu) as H. unfold parse_u64, from_str_radix in H. unfold parse_i32, parse_i64.
  pose proof (fmt_u64_numeral pid) as Hnum. destruct (fmt_u64 pid) as [|a rest]; [done|].
  apply Forall_cons in Hnum as [Ha _]. apply numeral_not_plus in Ha.
  rewrite (decide_False (P := code a = 43)) in H by done. rewrite decide_False in H by done.
  assert (Hm : code a ≠ 45).
  { intros Hm. cbn [foldl] in H. assert (Hd : push_digit 10 (Some 0) a = None).
    { unfold push_digit. cbn [mbind option_bind]. unfold to_digit. by rewrite Hm. }
    rewrite Hd in H. pose proof (push_none rest) as Hn. congruence. }
  rewrite (decide_False (P := code a = 43 ∨ code a = 45)) by (by intros [?|?]).
  rewrite decide_False by done. rewrite H. cbn [mbind option_bind].
  rewrite (decide_False (P := code a = 45)) by done. rewrite try_s_in by int_range. cbn [mbind option_bind].
  by rewrite try_s_in by int_range.
Qed.

Definition plain_line (l : Bytes) : Prop := l ≠ [] ∧ Forall (λ a, a ≠ newline ∧ a ≠ carriage_return) l.

Lemma fmt_plain n : in_u 64 n → plain_line (fmt_u64 n).
Proof.
  intros Hn. split; [by apply fmt_nonempty|]. eapply Forall_impl; [apply numeral_plain, fmt_u64_numeral|]. by intros a (_ & ? & ? & _).
Qed.

Lemma plain_newline l : plain_line l → newline ∉ l.
Proof. intros [_ Hl] Hin. by apply (proj1 (Forall_forall _ _) Hl) in Hin as []. Qed.

Lemma strip_cr_plain l : plain_line l → strip_cr l = l.
Proof.
  intros [_ Hl]. unfold strip_cr. destruct (reverse l) as [|a r] eqn:E; [done|]. rewrite decide_False; [done|].
  apply Forall_reverse in Hl. rewrite E in Hl. apply Forall_cons in Hl as [[_ ?] _]. done.
Qed.

Lemma split_join c ls : ls ≠ [] → Forall (λ l, c ∉ l) ls → split c (join [c] ls) = ls.
Proof.
  intros Hne Hls. destruct ls as [|l ls]; [done|]. clear Hne. revert l Hls. induction ls as [|l' ls IH]; intros l Hls.
  - apply Forall_cons in Hls as [Hl _]. by apply split_one.
  - apply Forall_cons in Hls as [Hl Hls]. change (join [c] (l :: l' :: ls)) with (l ++ c :: join [c] (l' :: ls)).
    rewrite split_app by done. f_equal. by apply IH.
Qed.

Lemma lines_join ls : ls ≠ [] → Forall plain_line ls → lines (join [newline] ls) = ls.
Proof.
  intros Hne Hls. unfold lines. rewrite split_join; [|done|eapply Forall_impl; [exact Hls|apply plain_newline]].
  destruct ls as [|l ls _] using rev_ind; [done|]. rewrite reverse_snoc. apply Forall_app in Hls as [Hls [Hl _]%Forall_cons].
  rewrite decide_False by apply Hl. f_equal.
  assert (Hmap : strip_cr <$> reverse ls = reverse ls).
  { apply Forall_reverse in Hls. induction Hls as [|x xs Hx _ IH]; [done|]. rewrite fmap_cons, IH. f_equal. by apply strip_cr_plain. }
  by rewrite Hmap, reverse_involutive.
Qed.

(** ** down *)

(** The log grew by exactly these, and no file changed. *)
Definition appended (w w' : World) (es : list Event) : Prop := events w' = events w ++ es ∧ files w' = files w.

Lemma appended_trans w1 w2 w3 a b : appended w1 w2 a → appended w2 w3 b → appended w1 w3 (a ++ b).
Proof. intros [H1 F1] [H2 F2]. split; [by rewrite H2, H1, app_assoc|congruence]. Qed.

Lemma kill_lines pids w :
  Forall (λ pid, 0 ≤ pid < 2 ^ 31) pids → ∃ w', for_each kill_line (fmt_u64 <$> pids) w = (w', Some ()) ∧ appended w w' (Kill <$> pids).
Proof.
  intros Hp. revert w. induction Hp as [|pid pids Hpid _ IH]; intros w.
  { exists w. split; [done|]. split; [by rewrite app_nil_r|done]. }
  assert (Hline : kill_line (fmt_u64 pid) = emit (Kill pid)) by (unfold kill_line; by rewrite parse_pid).
  cbn [fmap list_fmap for_each]. rewrite Hline.
  destruct (IH {| events := events w ++ [Kill pid]; files := files w |}) as (w' & Hrun & Hk). exists w'. split; [exact Hrun|].
  by refine (appended_trans _ _ _ [Kill pid] _ _ Hk).
Qed.

Lemma kill_file_pids n pids w :
  files w !! n = Some (join [newline] (fmt_u64 <$> pids)) → pids ≠ [] → Forall (λ pid, 0 ≤ pid < 2 ^ 31) pids →
  ∃ w', kill_file n w = (w', Some ()) ∧ appended w w' (Kill <$> pids).
Proof.
  intros Hf Hne Hp. unfold kill_file, read_file, mbind, prog_bind. rewrite Hf, lines_join.
  - by apply kill_lines.
  - by destruct pids.
  - apply Forall_fmap. eapply Forall_impl; [exact Hp|]. intros pid ?. apply fmt_plain. int_range.
Qed.

Lemma kill_files_pids (names : list string) (pidss : list (list Z)) w :
  Forall2 (λ n pids, files w !! n = Some (join [newline] (fmt_u64 <$> pids)) ∧ pids ≠ [] ∧
                     Forall (λ pid, 0 ≤ pid < 2 ^ 31) pids) names pidss →
  ∃ w', for_each kill_file names w = (w', Some ()) ∧ appended w w' (Kill <$> concat pidss).
Proof.
  revert pidss w. induction names as [|n names IH]; intros pidss w Hall; inversion Hall as [|? pids ? rest (Hf & Hne & Hp) Hrest]; subst.
  { exists w. split; [done|]. split; [by rewrite app_nil_r|done]. }
  destruct (kill_file_pids n pids w Hf Hne Hp) as (w1 & Hrun & Hk).
  destruct (IH rest w1) as (w2 & Hrun2 & Hk2).
  { eapply Forall2_impl; [exact Hrest|]. intros n' p'. by rewrite (proj2 Hk). }
  exists w2. split; [|cbn [concat]; rewrite fmap_app; by eapply appended_trans]. cbn [for_each]. unfold mbind, prog_bind. by rewrite Hrun.
Qed.

Lemma pkills w ps : ∃ w', for_each (λ p, emit (Pkill p)) ps w = (w', Some ()) ∧ appended w w' (Pkill <$> ps).
Proof.
  revert w. induction ps as [|p ps IH]; intros w.
  { exists w. split; [done|]. split; [by rewrite app_nil_r|done]. }
  destruct (IH {| events := events w ++ [Pkill p]; files := files w |}) as (w' & Hrun & Hk). exists w'. split; [exact Hrun|].
  by refine (appended_trans _ _ _ [Pkill p] _ _ Hk).
Qed.

(** ** Tables *)

(** A row without white space around it. *)
Definition row (l r : Bytes) : Written := {| w_before := []; w_left := l; w_right := r; w_after := [] |}.

Definition bare (w : Written) : Prop := w_before w = [] ∧ w_after w = [].

Lemma write_bare w : bare w → write w = w_left w ++ equals :: w_right w.
Proof. intros [Hb Ha]. unfold write. by rewrite Hb, Ha, app_nil_r. Qed.

Lemma join_write ws : Forall bare ws → join [comma] ((λ w, w_left w ++ equals :: w_right w) <$> ws) = write_all ws.
Proof.
  induction 1 as [|w ws Hw Hws IH]; [done|]. destruct ws as [|w' ws]; [by symmetry; apply write_bare|].
  change (write_all (w :: w' :: ws)) with (write w ++ comma :: write_all (w' :: ws)). rewrite write_bare, <- IH by done. done.
Qed.

Lemma rows_bare ls rs : Forall bare (zip_with row ls rs).
Proof. revert rs. induction ls as [|l ls IH]; intros [|r rs]; try constructor; [done|apply IH]. Qed.

Lemma table_rows ls rs : table ls rs = join [comma] ((λ w, w_left w ++ equals :: w_right w) <$> zip_with row ls rs).
Proof. unfold table. f_equal. revert rs. induction ls as [|l ls IH]; intros [|r rs]; try done. cbn [zip_with fmap list_fmap]. by rewrite IH. Qed.

Lemma table_write ls rs : table ls rs = write_all (zip_with row ls rs).
Proof. rewrite table_rows. apply join_write, rows_bare. Qed.

Definition key_ok (l : Bytes) : Prop := tidy l ∧ equals ∉ l.

Lemma rows_ok ls rs : Forall key_ok ls → Forall tidy rs → Forall written_ok (zip_with row ls rs).
Proof.
  intros Hl Hr. revert rs Hr. induction Hl as [|l ls [Ht He] _ IH]; intros rs Hr; [done|].
  destruct Hr as [|r rs Hr Hrs]; [done|]. cbn [zip_with]. constructor; [|by apply IH]. split; [constructor|done|done|constructor].
Qed.

Lemma markets_ok : Forall key_ok (into_bytes <$> MARKETS).
Proof. unfold key_ok, tidy. refine (bool_decide_unpack _ _). vm_compute. exact I. Qed.
Lemma feeds_tidy : Forall tidy (into_bytes <$> FEED_IDS).
Proof. unfold tidy. refine (bool_decide_unpack _ _). vm_compute. exact I. Qed.

Lemma Forall2_through {A B C} (P : A → B → Prop) (Q : B → C → Prop) (R : A → C → Prop) l1 l2 l3 :
  (∀ x y z, P x y → Q y z → R x z) → Forall2 P l1 l2 → Forall2 Q l2 l3 → Forall2 R l1 l3.
Proof. intros HR H. revert l3. induction H; intros l3 H3; inversion H3; subst; constructor; eauto. Qed.

(** A loop of insertions. *)
Lemma foldl_insert_ne {A} (l : list (Z * A)) (m : gmap Z A) k :
  k ∉ l.*1 → foldl (λ m e, <[e.1 := e.2]> m) m l !! k = m !! k.
Proof.
  revert m. induction l as [|[k' a] l IH]; intros m Hk; [done|]. cbn in *. apply not_elem_of_cons in Hk as [Hne Hk].
  rewrite IH by done. by apply lookup_insert_ne.
Qed.
Lemma foldl_insert_elem {A} (l : list (Z * A)) (m : gmap Z A) k a :
  NoDup l.*1 → (k, a) ∈ l → foldl (λ m e, <[e.1 := e.2]> m) m l !! k = Some a.
Proof.
  revert m. induction l as [|[k' a'] l IH]; intros m Hnd Hin; [by apply not_elem_of_nil in Hin|]. cbn in *.
  apply NoDup_cons in Hnd as [Hk Hnd]. apply elem_of_cons in Hin as [[= -> ->]|Hin]; [|by apply IH].
  rewrite foldl_insert_ne by done. apply lookup_insert_eq.
Qed.

Section theorems.
Context (Out : Outside) (var : string → option Bytes).
Context (parse_key parse_address : Bytes → option Z) (key_of_slice : list Ascii.ascii → option Z).
Context (hex_decode : Bytes → option Bytes) (fmt_address : Z → Bytes).
Context (parse_pubkey : Bytes → option Bytes) (parse_book : Bytes → option (option Z * option Z)).
Abbreviation run_up := (cmd_up Out var parse_key parse_address key_of_slice hex_decode fmt_address parse_pubkey parse_book).

Lemma maker_commands_length keys contracts i markets cmds :
  maker_commands keys contracts i markets = Some cmds → length cmds = (2 * length markets)%nat.
Proof.
  revert i cmds. induction markets as [|[m f] markets IH]; intros i cmds; cbn [maker_commands]; [by intros [= <-]|].
  intros (c & _ & H)%bind_Some. apply bind_Some in H as (ka & _ & H). apply bind_Some in H as (kb & _ & H).
  apply bind_Some in H as (rest & Hrest%IH & [= <-]). cbn [length]. rewrite Hrest. lia.
Qed.

Lemma maker_programs keys contracts i markets cmds :
  maker_commands keys contracts i markets = Some cmds → program <$> cmds = replicate (2 * length markets) "market_maker"%string.
Proof.
  revert i cmds. induction markets as [|[m f] markets IH]; intros i cmds; cbn [maker_commands]; [by intros [= <-]|].
  intros (c & _ & H)%bind_Some. apply bind_Some in H as (ka & _ & H). apply bind_Some in H as (kb & _ & H).
  apply bind_Some in H as (rest & Hrest%IH & [= <-]). rewrite !fmap_cons, Hrest. cbn [length].
  by replace (2 * S (length markets))%nat with (S (S (2 * length markets))) by lia.
Qed.

(** C39: [down] stops what [up] started.  After an [up] that completes, with process ids the system
    gives, all that [down] does is this: it signals, by its pid, every process that [up] started (the
    chain, the matcher, the eighteen makers, the keeper and the two loops, 23 in all), each exactly
    once, as the pid files read back as they were written; then it signals whatever else matches the
    seven patterns of its sweep, in that order.  It changes no file. *)
Theorem up_then_down w w' :
  run_up w = (w', Some ()) →
  ∃ cs, started w w' cs ∧
    program <$> cs.*1 = "anvil" :: "cerdic-tee-matcher" :: replicate 18 "market_maker" ++
      ["keeper_liquidator"; "local_dev"; "local_dev"]%string ∧
    (Forall (λ e, 0 ≤ e.2 < 2 ^ 31) cs →
     ∃ w2 ks, cmd_down w' = (w2, Some ()) ∧ ks ≡ₚ cs.*2 ∧ files w2 = files w' ∧
       events w2 = events w' ++ (Kill <$> ks) ++
         (Pkill <$> ["target/release/cerdic-tee-matcher"; "target/release/market_maker"; "target/release/keeper_liquidator";
                     "target/release/keeper_price_pusher"; "target/release/local_dev.*seed-loop";
                     "target/release/local_dev.*oracle-push-loop"; "^anvil$"])%string).
Proof.
  intros Hup. destruct (up_Done _ _ _ _ _ _ _ _ _ _ _ Hup) as (keys & d & cmds & mm & pids & dk & tk & liq & [_ [Hm Hl] _ _ _ Hs Hf]).
  destruct pids as [[[[anvil matcher] keeper] oracle] seeder]. eexists. split; [exact Hs|].
  pose proof (maker_commands_length _ _ _ _ _ Hm) as Hlen. change (length (zip MARKETS FEED_IDS)) with 9%nat in Hlen.
  split. { rewrite !fmap_app, fst_zip by lia. cbn. by rewrite (maker_programs _ _ _ _ _ Hm). }
  intros Hp. rewrite !Forall_app, !Forall_cons in Hp. destruct Hp as ((Hp1 & Hp2 & _) & Hp3 & Hp4 & Hp5 & Hp6 & _). cbn [snd] in *.
  assert (Hmm : Forall (λ pid, 0 ≤ pid < 2 ^ 31) mm).
  { assert (Hz : Forall (λ pid, 0 ≤ pid < 2 ^ 31) (snd <$> zip cmds mm)) by (apply Forall_fmap; exact Hp3).
    by rewrite snd_zip in Hz by lia. }
  destruct (kill_files_pids PID_FILES [[anvil]; [matcher]; [keeper]; [seeder]; [oracle]; mm] w') as (w1 & Hr1 & Hk1).
  { unfold pid_files, PID_FILES in Hf. cbn [fmap list_fmap] in Hf. injection Hf as F1 F2 F3 F4 F5 F6.
    assert (Hmne : mm ≠ []) by (intros ->; by rewrite Hlen in Hl).
    assert (Hone : ∀ n pid, files w' !! n = Some (fmt_u64 pid) → 0 ≤ pid < 2 ^ 31 →
      files w' !! n = Some (join [newline] (fmt_u64 <$> [pid])) ∧ [pid] ≠ [] ∧ Forall (λ pid, 0 ≤ pid < 2 ^ 31) [pid]).
    { intros n pid Hn Hpid. split; [exact Hn|]. split; [done|]. by apply Forall_singleton. }
    do 5 (apply Forall2_cons; split; [by apply Hone|]).
    apply Forall2_cons; split; [split; [exact F6|done]|]. constructor. }
  destruct (pkills w1 PATTERNS) as (w2 & Hr2 & Hk2). exists w2. eexists. split.
  { unfold cmd_down, mbind, prog_bind. by rewrite Hr1. }
  destruct (appended_trans _ _ _ _ _ Hk1 Hk2) as [He Hfl]. split; [|split; [exact Hfl|exact He]].
  rewrite !fmap_app, snd_zip by lia. cbn. rewrite !app_nil_r. solve_Permutation.
Qed.

(** The environment a command runs in: what it is given over what [up] inherited. *)
Definition child_env (c : Command) (name : string) : option Bytes :=
  match list_find (λ e, e.1 = name) (envs c) with Some (_, e) => Some e.2 | None => var name end.

Definition market_names : list Bytes := into_bytes <$> MARKETS.

(** Rows whose right sides all parse. *)
Lemma parsed_rows {A} (f : A → Bytes → Address → A) c ms cs addrs :
  Forall2 (λ s a, parse_address s = Some a) cs addrs →
  foldl (λ c w, match parse_address (w_right w) with Some a => f c (w_left w) a | None => c end) c (zip_with row ms cs) =
  foldl (λ c e, f c e.1 e.2) c (zip ms addrs).
Proof.
  intros H. revert c ms. induction H as [|s a cs addrs Hs _ IH]; intros c [|m ms]; try done.
  cbn [zip_with foldl row w_left w_right fst snd]. rewrite Hs. apply IH.
Qed.

(** The matcher's configuration. *)
Lemma matcher_configured parse_id d addrs account asset monitor :
  Forall tidy (dp_market_contracts d) → Forall2 (λ s a, parse_address s = Some a) (dp_market_contracts d) addrs →
  length addrs = 9%nat →
  parse_address (dp_account_contract d) = Some account → parse_address (dp_usdc_token d) = Some asset →
  parse_address (dp_risk_monitor d) = Some monitor → var "CERDIC_MARKET_ID_OVERRIDES" = None →
  configure (child_env (matcher_command d)) parse_address parse_id unconfigured = {|
    oracle_feed_mapping := list_to_map (zip market_names (into_bytes <$> FEED_IDS));
    Config.settlement_contracts := list_to_map (zip market_names addrs);
    cf_collateral_check := Some (account, asset); risk_monitor_contract := Some monitor; market_id_overrides := ∅;
    cf_backstop_config := {| spread_bps := 8; spread_model := Flat; quote_twap_window := 20; last_look_window := 3;
                             last_look_threshold_bps := 15; notional_cap := 2000 |};
    debug_seed_enabled := true |}.
Proof.
  intros Ht Haddrs Hlen Ha Hs Hm Hover. set (env := child_env _).
  assert (H1 : env "CERDIC_ORACLE_FEEDS" = Some oracle_feeds) by done.
  assert (H2 : env "CERDIC_SETTLEMENT_CONTRACTS" = Some (settlement_contracts d)) by done.
  assert (H3 : env "CERDIC_ACCOUNT_CONTRACT" = Some (dp_account_contract d)) by done.
  assert (H4 : env "CERDIC_COLLATERAL_ASSET" = Some (dp_usdc_token d)) by done.
  assert (H5 : env "CERDIC_RISK_MONITOR_CONTRACT" = Some (dp_risk_monitor d)) by done.
  assert (H6 : env "CERDIC_BACKSTOP_NOTIONAL_CAP" = Some BACKSTOP_NOTIONAL_CAP) by done.
  assert (H7 : env "CERDIC_ENABLE_DEBUG_SEED" = Some (into_bytes "1")) by done.
  assert (H8 : env "CERDIC_MARKET_ID_OVERRIDES" = None) by exact Hover.
  clearbody env. unfold oracle_feeds in H1. rewrite table_write in H1. unfold settlement_contracts in H2. rewrite table_write in H2.
  unfold configure, configure_seed, configure_cap, configure_market_id_overrides, configure_monitor, configure_collateral.
  unfold configure_pairs at 1. rewrite H3, H4, H5, H6, H7, H8, Ha, Hs, Hm.
  unfold configure_settlement_contracts. rewrite (configure_pairs_write _ _ _ _ _ (rows_ok _ _ markets_ok Ht) H2).
  unfold configure_oracle_feeds. rewrite (configure_pairs_write _ _ _ _ _ (rows_ok _ _ markets_ok feeds_tidy) H1).
  rewrite (parsed_rows configure_settlement_contract _ _ _ addrs Haddrs). clear -Hlen.
  do 9 (destruct addrs as [|? addrs]; [done|]). destruct addrs; [|done].
  vm_compute. reflexivity.
Qed.
Lemma for_rows keccak256 ms cs addrs acc :
  Forall key_ok ms → Forall2 (λ s a, parse_address s = Some a) cs addrs →
  foldl (λ acc pair, acc ← acc; '(l, r) ← expect (split_once equals pair); add_market parse_address keccak256 ∅ acc l r)
    (Ret acc) ((λ w, w_left w ++ equals :: w_right w) <$> zip_with row ms cs) =
  Ret (foldl (λ m e, <[e.1 := e.2]> m) acc.1 (zip (keccak256 <$> ms) (zip ms addrs)),
       foldl (λ c e, {[ e.2 ]} ∪ c) acc.2 (zip ms addrs)).
Proof.
  intros Hms H. revert acc ms Hms. induction H as [|s a cs addrs Hs _ IH]; intros acc ms Hms.
  { destruct Hms; by destruct acc. }
  destruct Hms as [|m ms [_ Hm] Hms]; [by destruct acc|].
  cbn [zip_with fmap list_fmap foldl row w_left w_right fst snd]. rewrite ret_bind, split_once_app by done.
  cbn [expect]. rewrite ret_bind. cbv beta iota. unfold add_market at 2. rewrite Hs. cbn [expect]. rewrite ret_bind, lookup_empty.
  cbn [default from_option id]. by rewrite IH.
Qed.

Lemma set_foldl ms (addrs : list Address) (c : gset Address) :
  length ms = length addrs → foldl (λ (c : gset Address) (e : Bytes * Address), {[ e.2 ]} ∪ c) c (zip ms addrs) = list_to_set addrs ∪ c.
Proof.
  revert c addrs. induction ms as [|m ms IH]; intros c [|a addrs]; try done; cbn; [set_solver|].
  intros [= Hl]. rewrite IH by done. set_solver.
Qed.

(** The keeper's configuration. *)
Lemma keeper_configured parse_id parse_url keccak256 d addrs liquidator :
  Forall tidy (dp_market_contracts d) → Forall2 (λ s a, parse_address s = Some a) (dp_market_contracts d) addrs →
  length addrs = 9%nat → parse_address (fmt_address liquidator) = Some liquidator → parse_url ANVIL_RPC = true →
  var "KEEPER_MARKET_ONCHAIN_IDS" = None → NoDup (keccak256 <$> market_names) →
  ∃ k, configure_keeper (child_env (keeper_command fmt_address d liquidator)) parse_address parse_id parse_url keccak256 = Ret k ∧
    kc_liquidator k = liquidator ∧ contracts k = list_to_set addrs ∧
    ∀ m a, (m, a) ∈ zip market_names addrs → market_by_hash k !! keccak256 m = Some (m, a).
Proof.
  intros Ht Haddrs Hlen Hliq Hurl Hover Hnd. set (env := child_env _).
  assert (H1 : env "MATCHER_URL" = Some MATCHER_URL) by done.
  assert (H2 : env "SETTLEMENT_RPC_URL" = Some ANVIL_RPC) by done.
  assert (H3 : env "KEEPER_LIQUIDATOR_ADDRESS" = Some (fmt_address liquidator)) by done.
  assert (H4 : env "KEEPER_MARKET_CONTRACTS" = Some (settlement_contracts d)) by done.
  assert (H5 : env "KEEPER_MARKET_ONCHAIN_IDS" = None) by exact Hover. clearbody env.
  unfold configure_keeper, onchain_id_overrides. rewrite H1, H2, H3, H4, H5. cbn [expect mbind option_bind]. rewrite Hliq. cbn [expect].
  rewrite !ret_bind. unfold for_pairs, settlement_contracts.
  rewrite table_write, (pairs_write _ (rows_ok _ _ markets_ok Ht)), (for_rows keccak256 _ _ addrs _ markets_ok Haddrs).
  rewrite ret_bind. cbv beta iota. rewrite Hurl. eexists. split; [done|]. cbn [kc_liquidator contracts market_by_hash fst snd].
  split; [done|]. split; [rewrite set_foldl by done; set_solver|]. intros m a Hin.
  apply foldl_insert_elem; fold market_names.
  - rewrite fst_zip; [done|]. rewrite length_zip_with, length_fmap, Hlen. done.
  - apply list_elem_of_lookup in Hin as [i Hi]. apply lookup_zip_Some in Hi as [Hi Ha]. apply (list_elem_of_lookup_2 _ i).
    apply lookup_zip_Some. split; [by rewrite list_lookup_fmap, Hi|]. by apply lookup_zip_Some.
Qed.

(** The targets of the oracle loop. *)
Lemma row_comma l r : key_ok l → tidy r → comma ∉ l ++ equals :: r.
Proof.
  intros [Hl _] Hr. rewrite not_elem_of_app, not_elem_of_cons. split_and!; [by apply tidy_comma|done|by apply tidy_comma].
Qed.

Lemma push_target_row i m feed r a :
  market_named (into_bytes m) = Some i → MARKETS !! i = Some m → FEED_IDS !! i = Some feed → equals ∉ into_bytes m →
  parse_address r = Some a →
  push_target parse_address (into_bytes m ++ equals :: r) = Some {| tg_market := m; tg_feed := feed; tg_aggregator := a |}.
Proof.
  intros Hi Hm Hf He Ha. unfold push_target. rewrite split_once_app by done. cbn [mbind option_bind]. rewrite Hi.
  cbn [mbind option_bind]. rewrite Hm, Hf. cbn [mbind option_bind]. by rewrite Ha.
Qed.

Definition PUSHED : list (nat * MarketId * string) :=
  [(1%nat, "BTC/USDC", "e62df6c8b4a85fe1a67db44dc12de5db330f7ac66b72dc658afedf0f4a415b43");
   (5%nat, "XAU/USD", "765d2ba906dbc32ca17cc11f5310a89e9ee1f6420508c63861f2f8ba4ee34bb2");
   (6%nat, "KR200/USD", "7be2b3f9f9d02b1ffcf61fc26ad5cc6aff4dd02044f9abc22ee57f37b3b5d2e5");
   (7%nat, "BRENT/USD", "6e3607735df0f027dc63890cc48055cccf1551003cc7a7c934cabe04485d1193");
   (8%nat, "HYPE/USD", "4279e31cc369bbcc2faf022b382b080e32a8e689ff20fbc530d2a603eb6cd98b")]%string.

Lemma targets_rows names rs aggs :
  Forall (λ e : nat * MarketId * string, market_named (into_bytes e.1.2) = Some e.1.1 ∧ MARKETS !! e.1.1 = Some e.1.2 ∧
    FEED_IDS !! e.1.1 = Some e.2 ∧ key_ok (into_bytes e.1.2)) names →
  Forall2 (λ s a, parse_address s = Some a) rs aggs → Forall tidy rs → names ≠ [] → rs ≠ [] →
  push_targets parse_address (table ((λ e, into_bytes e.1.2) <$> names) rs) =
    zip_with (λ e a, {| tg_market := e.1.2; tg_feed := e.2; tg_aggregator := a |}) names aggs.
Proof.
  intros Hn Hr Ht Hne Hre. unfold push_targets, table. rewrite split_join.
  - clear Hne Hre. revert rs aggs Hr Ht. induction Hn as [|e names (Hi & Hm & Hf & Hk) _ IH]; intros rs aggs Hr Ht; [done|].
    destruct Hr as [|r a rs aggs Ha Hr]; [done|]. apply Forall_cons in Ht as [_ Ht]. cbn [fmap list_fmap zip_with omap list_omap].
    rewrite (push_target_row e.1.1 e.1.2 e.2 r a) by (done || apply Hk). f_equal. by apply IH.
  - by destruct names, rs.
  - clear Hne Hre Hr. revert rs Ht. induction Hn as [|e names (_ & _ & _ & Hk) _ IH]; intros rs Ht; [constructor|].
    destruct Ht as [|r rs Hr Ht]; [constructor|]. cbn [fmap list_fmap zip_with]. constructor; [by apply row_comma|by apply IH].
Qed.

Lemma pushed_ok : Forall (λ e : nat * MarketId * string, market_named (into_bytes e.1.2) = Some e.1.1 ∧ MARKETS !! e.1.1 = Some e.1.2 ∧
    FEED_IDS !! e.1.1 = Some e.2 ∧ key_ok (into_bytes e.1.2)) PUSHED.
Proof. unfold key_ok, tidy. refine (bool_decide_unpack _ _). vm_compute. exact I. Qed.

Lemma targets_configured d aggs :
  length (dp_more_aggregators d) = 7%nat →
  Forall2 (λ s a, parse_address s = Some a) (snd <$> aggregators d) aggs → Forall tidy (snd <$> aggregators d) →
  push_targets parse_address (oracle_push_targets d) =
    zip_with (λ e a, {| tg_market := e.1.2; tg_feed := e.2; tg_aggregator := a |}) PUSHED aggs.
Proof.
  intros Hl Ha Ht. rewrite <- (targets_rows PUSHED (snd <$> aggregators d) aggs); [|exact pushed_ok|done|done|done|].
  - f_equal. unfold oracle_push_targets. f_equal. unfold aggregators.
    destruct (dp_more_aggregators d) as [|a1 [|a2 [|a3 [|a4 [|a5 [|a6 [|a7 [|]]]]]]]]; done.
  - unfold aggregators. destruct (dp_more_aggregators d) as [|a1 [|a2 [|a3 [|a4 [|a5 [|a6 [|a7 [|]]]]]]]]; done.
Qed.

(** The two makers of each market, by position. *)
Lemma maker_commands_lookup keys contracts i markets cmds j m f :
  maker_commands keys contracts i markets = Some cmds → markets !! j = Some (m, f) →
  ∃ contract ka kb, contracts !! (i + j)%nat = Some contract ∧
    keys !! (i + j + 1)%nat = Some ka ∧ keys !! (i + j + 10)%nat = Some kb ∧
    cmds !! (2 * j)%nat = Some (maker_command m contract f ka WAVE_A) ∧
    cmds !! (2 * j + 1)%nat = Some (maker_command m contract f kb WAVE_B).
Proof.
  revert i cmds j. induction markets as [|[m' f'] markets IH]; intros i cmds j; cbn [maker_commands]; [by rewrite lookup_nil|].
  intros (c & Hc & H)%bind_Some. apply bind_Some in H as (ka & Ha & H). apply bind_Some in H as (kb & Hb & H).
  apply bind_Some in H as (rest & Hrest & [= <-]). destruct j as [|j].
  - intros [= -> ->]. rewrite Nat.add_0_r. by exists c, ka, kb.
  - intros Hj. destruct (IH _ _ _ Hrest Hj) as (c' & ka' & kb' & H1 & H2 & H3 & H4 & H5).
    exists c', ka', kb'. replace (i + S j)%nat with (S i + j)%nat by lia.
    replace (2 * S j)%nat with (S (S (2 * j))) by lia. by split_and!.
Qed.

(** Parsed columns. *)
Lemma parsed_column (l : list Bytes) :
  Forall (λ a, is_Some (parse_address a)) l → ∃ addrs, Forall2 (λ s a, parse_address s = Some a) l addrs.
Proof. induction 1 as [|s l [a Ha] _ [addrs IH]]; [by exists []|]. exists (a :: addrs). by constructor. Qed.

Section wiring.
Context (w' : World) (deployer o1 o2 o3 : Bytes) (d : Deployed).
Context (Hlog : logs_addresses Out parse_address) (Hd : deployed_from Out w' deployer o1 o2 o3 d).

Lemma said_output t env o : said Out w' t env o → script_output parse_address o.
Proof using Hlog. intros (h & out & err & _ & Hs & ->). by eapply Hlog. Qed.

Lemma outputs_ok : script_output parse_address o1 ∧ script_output parse_address o2 ∧ script_output parse_address o3.
Proof using All. destruct Hd as [H1 (hub & _ & H2 & H3) _ _ _ _]. split_and!; by eapply said_output. Qed.

Lemma line_parses o l a :
  script_output parse_address o → get_addr o l = Some a → bool_decide (l ∈ LABELS) = true → is_Some (parse_address a).
Proof.
  intros [Ho _] H Hl%bool_decide_eq_true. pose proof (proj1 (Forall_forall _ _) Ho l Hl) as Ha. cbn in Ha. by rewrite H in Ha.
Qed.

Lemma contracts_parse : Forall (λ a, is_Some (parse_address a)) (dp_market_contracts d).
Proof using All.
  destruct outputs_ok as (H1 & H2 & H3). pose proof (df_contracts _ _ _ _ _ _ _ Hd) as Hc. unfold STACK in Hc.
  clear Hd. generalize dependent (dp_market_contracts d). intros contracts Hc.
  repeat (apply Forall2_cons_inv_l in Hc as (? & ? & Hx & Hc & ->); constructor;
          [first [exact (line_parses _ _ _ H1 Hx eq_refl)|exact (line_parses _ _ _ H2 Hx eq_refl)|
                  exact (line_parses _ _ _ H3 Hx eq_refl)]|clear Hx]).
  apply Forall2_nil_inv_l in Hc as ->. constructor.
Qed.

(** The lines the aggregators of the five perpetual markets are read from. *)
Definition AGGREGATOR_LINES : list (option Bytes) :=
  get_addr o2 "BTCAggregator (mock):" :: ((λ i, get_addrs_all o3 "aggregator:" !! i) <$> [3; 4; 5; 6]%nat).

Lemma aggregators_lines : Some <$> (snd <$> aggregators d) = AGGREGATOR_LINES.
Proof using Hd.
  destruct Hd as [_ _ _ _ Hb [Ha Hl]]. unfold AGGREGATOR_LINES, aggregators. rewrite Hb, <- Ha.
  by destruct (dp_more_aggregators d) as [|a1 [|a2 [|a3 [|a4 [|a5 [|a6 [|a7 [|]]]]]]]].
Qed.

Lemma aggregators_parse : Forall (λ a, is_Some (parse_address a)) (snd <$> aggregators d).
Proof using All.
  destruct outputs_ok as (_ & H2 & [_ H3]). destruct Hd as [_ _ _ _ Hb [Ha Hl]]. rewrite <- Ha in H3.
  apply (line_parses o2 _ _ H2) in Hb; [|vm_compute; reflexivity]. unfold aggregators.
  destruct (dp_more_aggregators d) as [|a1 [|a2 [|a3 [|a4 [|a5 [|a6 [|a7 [|]]]]]]]]; try done.
  rewrite !Forall_cons in H3. destruct H3 as (_ & _ & _ & H4 & H5 & H6 & H7 & _). by repeat constructor.
Qed.
End wiring.

(** The address on the first line of an output that contains a label. *)
Definition prints (o : Bytes) (label : string) (a : Address) : Prop := get_addr o label ≫= parse_address = Some a.

(** A maker's environment. *)
Definition makes (c : Command) (market feed : string) (contract key : Bytes) : Prop :=
  child_env c "MARKET_ID" = Some (into_bytes market) ∧ child_env c "PYTH_FEED_ID" = Some (into_bytes feed) ∧
  child_env c "MARKET_CONTRACT_ADDRESS" = Some contract ∧ child_env c "MM_PRIVATE_KEY" = Some key ∧
  child_env c "MATCHER_URL" = Some (into_bytes "http://127.0.0.1:8787") ∧
  child_env c "SETTLEMENT_RPC_URL" = Some (into_bytes "http://127.0.0.1:8545").

(** The processes of a stack, in the order they start, wired to the chain's keys and the scripts' outputs. *)
Record wired (parse_id : Bytes → option Z) (parse_url : Bytes → bool) (keccak256 : Bytes → Z)
    (w' : World) (commands : list Command) (keys : list Bytes) (deployer o1 o2 o3 : Bytes) (addrs : list Address) : Prop := {
  wi_programs : program <$> commands = "anvil" :: "cerdic-tee-matcher" :: replicate 18 "market_maker" ++
    ["keeper_liquidator"; "local_dev"; "local_dev"]%string;
  wi_keys : ∃ h pid, h `prefix_of` events w' ∧ (anvil_command, pid) ∈ launched h ∧
    keys = parse_anvil_keys (ou_anvil_log Out h) ∧ (20 ≤ length keys)%nat ∧ keys !! 0%nat = Some deployer;
  wi_scripts : said Out w' "script/DeployLocal.s.sol:DeployLocal" [("PRIVATE_KEY"%string, deployer)] o1 ∧
    ∃ hub monitor router pyth, get_addr o1 "OracleHub:" = Some hub ∧ get_addr o1 "RiskMonitor:" = Some monitor ∧
      get_addr o1 "AttestationRouter:" = Some router ∧ get_addr o1 "MockPyth:" = Some pyth ∧
      let env := [("PRIVATE_KEY", deployer); ("ORACLE_HUB", hub); ("RISK_MONITOR", monitor);
                  ("ATTESTATION_ROUTER", router); ("MOCK_PYTH", pyth)]%string in
      said Out w' "script/DeployPerpMarketLocal.s.sol:DeployPerpMarketLocal" env o2 ∧
      said Out w' "script/DeployMoreMarketsLocal.s.sol:DeployMoreMarketsLocal" env o3;
  wi_contracts : Forall2 (λ r a, prints r.2.1 r.2.2 a) (STACK o1 o2 o3) addrs;
  wi_matcher : ∃ c account asset monitor, commands !! 1%nat = Some c ∧
    prints o1 "Account:" account ∧ prints o1 "USDC (mock):" asset ∧ prints o1 "RiskMonitor:" monitor ∧
    configure (child_env c) parse_address parse_id unconfigured = {|
      oracle_feed_mapping := list_to_map ((λ r, (into_bytes r.1.1, into_bytes r.1.2)) <$> STACK o1 o2 o3);
      Config.settlement_contracts := list_to_map (zip ((λ r, into_bytes r.1.1) <$> STACK o1 o2 o3) addrs);
      cf_collateral_check := Some (account, asset); risk_monitor_contract := Some monitor; market_id_overrides := ∅;
      cf_backstop_config := {| spread_bps := 8; spread_model := Flat; quote_twap_window := 20; last_look_window := 3;
                               last_look_threshold_bps := 15; notional_cap := 2000 |};
      debug_seed_enabled := true |};
  wi_makers : ∀ i market feed o label, STACK o1 o2 o3 !! i = Some (market, feed, (o, label)) →
    ∃ a b contract ka kb, commands !! (2 + 2 * i)%nat = Some a ∧ commands !! (3 + 2 * i)%nat = Some b ∧
      get_addr o label = Some contract ∧ keys !! (i + 1)%nat = Some ka ∧ keys !! (i + 10)%nat = Some kb ∧
      makes a market feed contract ka ∧ makes b market feed contract kb;
  wi_keeper : ∃ c slice liquidator k, commands !! 20%nat = Some c ∧
    hex_decode (trim_0x deployer) = Some slice ∧ key_of_slice slice = Some liquidator ∧
    configure_keeper (child_env c) parse_address parse_id parse_url keccak256 = Ret k ∧
    kc_liquidator k = liquidator ∧ contracts k = list_to_set addrs ∧
    ∀ m a, (m, a) ∈ zip ((λ r, into_bytes r.1.1) <$> STACK o1 o2 o3) addrs → market_by_hash k !! keccak256 m = Some (m, a);
  wi_oracle : ∃ c pyth aggs targets, commands !! 21%nat = Some c ∧ args c = [into_bytes "oracle-push-loop"] ∧
    child_env c "ORACLE_PUSH_DEPLOYER_KEY" = Some deployer ∧
    get_addr o1 "MockPyth:" = Some pyth ∧ child_env c "ORACLE_PUSH_MOCK_PYTH" = Some pyth ∧
    Forall2 (λ o a, o ≫= parse_address = Some a) (AGGREGATOR_LINES o2 o3) aggs ∧
    child_env c "ORACLE_PUSH_TARGETS" = Some targets ∧
    push_targets parse_address targets =
      zip_with (λ e a, {| tg_market := e.1.2; tg_feed := e.2; tg_aggregator := a |}) PUSHED aggs;
  wi_seeder : ∃ c, commands !! 22%nat = Some c ∧ args c = [into_bytes "seed-loop"] ∧
    child_env c "SEED_TRADER_KEY" = keys !! 19%nat;
}.

(** C38: What a completed [up] has wired together.  When the deployment scripts log addresses where their
    output is read, and none of the two override variables is inherited: 23 processes were started, in
    this order and these environments.  The keys are those the chain printed after it was started; the
    scripts ran with the first of them, the later two with the addresses that the first printed on their
    own lines.  The matcher configures exactly the nine markets, each with its feed and the contract on
    its own line of its own script; the account, the collateral asset and the risk monitor of the lines
    that name them; the cap of 2000 and the seeding endpoint.  Market [i]'s two makers quote that market,
    contract and feed with the keys [i + 1] and [i + 10].  The keeper is paid at the address of key 0 and
    watches the same nine contracts, each under the hash of its market.  The oracle loop signs with key 0
    and its targets parse back to the five perpetual markets, each with its feed and its aggregator: the
    second script's for BTC, entries 3 to 6 of the third's for the others.  The seed loop trades with key 19. *)
Theorem up_wires_the_stack parse_id parse_url keccak256 w w' :
  run_up w = (w', Some ()) → logs_addresses Out parse_address →
  (∀ s a, parse_address s = Some a → tidy s) → (∀ s a, key_of_slice s = Some a → parse_address (fmt_address a) = Some a) →
  parse_url ANVIL_RPC = true → NoDup (keccak256 <$> market_names) →
  var "CERDIC_MARKET_ID_OVERRIDES" = None → var "KEEPER_MARKET_ONCHAIN_IDS" = None →
  ∃ cs keys deployer o1 o2 o3 addrs, started w w' cs ∧
    wired parse_id parse_url keccak256 w' cs.*1 keys deployer o1 o2 o3 addrs.
Proof.
  intros Hup Hlog Htidy Hfmt Hurl Hnd Ho1 Ho2.
  destruct (up_Done _ _ _ _ _ _ _ _ _ _ _ Hup) as (keys & d & cmds & mm & pids & dk & tk & liq &
    [(Hk & H0 & H19) [Hm Hl] (h & apid & Hh & Hah & Hread) (slice & Hsl & Hliq) (o1 & o2 & o3 & Hd) Hs _]).
  destruct pids as [[[[anvil matcher] keeper] oracle] seeder].
  assert (Ht : ∀ l addrs, Forall2 (λ s a, parse_address s = Some a) l addrs → Forall tidy l).
  { intros l addrs H. induction H as [|s a l addrs Hs' _ IH]; constructor; [by eapply Htidy|exact IH]. }
  destruct (parsed_column _ (contracts_parse _ _ _ _ _ _ Hlog Hd)) as [addrs Ha].
  destruct (parsed_column _ (aggregators_parse _ _ _ _ _ _ Hlog Hd)) as [aggs Hga].
  destruct (outputs_ok _ _ _ _ _ _ Hlog Hd) as (Hout & _ & _).
  destruct Hd as [Hd1 (hub & Hhub & Hd2 & Hd3) (Hpy & Hmo & Hro & Hus & Hac) Hco Hbt [Hag Hagl]] eqn:EHd. clear EHd.
  destruct (line_parses o1 _ _ Hout Hac eq_refl) as [account Hacc].
  destruct (line_parses o1 _ _ Hout Hus eq_refl) as [asset Has].
  destruct (line_parses o1 _ _ Hout Hmo eq_refl) as [monitor Hmon].
  assert (Hla : length addrs = 9%nat) by (rewrite <- (Forall2_length _ _ _ Ha), <- (Forall2_length _ _ _ Hco); done).
  pose proof (maker_commands_length _ _ _ _ _ Hm) as Hlen. change (length (zip MARKETS FEED_IDS)) with 9%nat in Hlen.
  eexists _, keys, dk, o1, o2, o3, addrs. split; [exact Hs|]. rewrite !fmap_app, fst_zip by lia. cbn [fmap list_fmap fst].
  split.
  - rewrite !fmap_app, (maker_programs _ _ _ _ _ Hm). done.
  - by exists h, apid.
  - split; [done|]. exists hub, (dp_risk_monitor d), (dp_attestation_router d), (dp_mock_pyth d). by split_and!.
  - eapply Forall2_through; [|exact Hco|exact Ha]. intros r s a Hr Hx. unfold prints. by rewrite Hr.
  - exists (matcher_command d), account, asset, monitor. unfold prints. rewrite Hac, Hus, Hmo.
    split; [done|]. split; [done|]. split; [done|]. split; [done|].
    by apply matcher_configured; [eapply Ht|..].
  - intros i market feed o label Hi.
    assert (Hmf : zip MARKETS FEED_IDS !! i = Some (market, feed)).
    { change (zip MARKETS FEED_IDS) with (fst <$> STACK o1 o2 o3). by rewrite list_lookup_fmap, Hi. }
    destruct (maker_commands_lookup _ _ _ _ _ _ _ _ Hm Hmf) as (contract & ka & kb & Hc & Hka & Hkb & Hca & Hcb).
    destruct (Forall2_lookup_l _ _ _ _ _ Hco Hi) as (contract' & Hc' & Hg). cbn [fst snd] in Hg.
    assert (contract' = contract) as -> by (cbn [Nat.add] in Hc; congruence).
    assert (Hlt : (i < 9)%nat) by (apply lookup_lt_Some in Hi; exact Hi).
    eexists _, _, contract, ka, kb. rewrite !(lookup_app_r [_; _]) by (cbn; lia). cbn [length].
    replace (2 + 2 * i - 2)%nat with (2 * i)%nat by lia. replace (3 + 2 * i - 2)%nat with (2 * i + 1)%nat by lia.
    rewrite !lookup_app_l by lia. split; [exact Hca|]. split; [exact Hcb|]. by split_and!.
  - destruct (keeper_configured parse_id parse_url keccak256 d addrs liq) as (k & Hkc & H1 & H2 & H3); try done;
      [by eapply Ht|by eapply Hfmt|].
    exists (keeper_command fmt_address d liq), slice, liq, k. rewrite (lookup_app_r [_; _]) by (cbn; lia). cbn [length].
    rewrite lookup_app_r, Hlen by lia. by split_and!.
  - eexists (oracle_command d dk), _, aggs, _. rewrite (lookup_app_r [_; _]) by (cbn; lia). cbn [length].
    rewrite lookup_app_r, Hlen by lia. split; [done|]. split; [done|]. split; [done|]. split; [exact Hpy|]. split; [done|].
    split; [|split; [done|]].
    + rewrite <- (aggregators_lines _ _ _ _ _ _ Hd). apply Forall2_fmap_l. exact Hga.
    + apply targets_configured; [done|done|by eapply Ht].
  - eexists. rewrite (lookup_app_r [_; _]) by (cbn; lia). cbn [length]. rewrite lookup_app_r, Hlen by lia.
    split; [done|]. split; [done|]. rewrite H19. done.
Qed.
End theorems.

(** ** A machine on which everything answers *)

Definition demo_anvil : Bytes :=
  join [newline] (into_bytes "Private Keys" ::
    ((λ i, into_bytes "(" ++ fmt_u64 (Z.of_nat i) ++ into_bytes ") 0x" ++ fmt_u64 (100 + Z.of_nat i)) <$> seq 0 20) ++ [into_bytes "Wallet"]).
Definition demo_forge : Bytes :=
  join [newline] (into_bytes <$>
    ["MockPyth: 0xa1"; "OracleHub: 0xa2"; "RiskMonitor: 0xa3"; "AttestationRouter: 0xa4"; "FxPerpMarket (EURC/USDC): 0xb1";
     "USDC (mock): 0xa5"; "Account: 0xa6"; "PerpMarket (BTC/USDC): 0xb2"; "BTCAggregator (mock): 0xc2";
     "GBP/USD (FxPerpMarket) 0xb3"; "  aggregator: 0xc3"; "AUD/USD (FxPerpMarket) 0xb4"; "  aggregator: 0xc4";
     "USD/JPY (FxPerpMarket) 0xb5"; "  aggregator: 0xc5"; "XAU/USD (PerpMarket) 0xb6"; "  aggregator: 0xc6";
     "KR200/USD (PerpMarket, EWY proxy) 0xb7"; "  aggregator: 0xc7"; "BRENT/USD (PerpMarket, front-month proxy) 0xb8";
     "  aggregator: 0xc8"; "HYPE/USD (PerpMarket) 0xb9"; "  aggregator: 0xc9"]%string).
Definition demo_outside : Outside := {|
  ou_spawn := λ h _, Some (1000 + Z.of_nat (length h));
  ou_output := λ _ c, Some (true, if decide (program c = "forge"%string) then demo_forge else [], []);
  ou_get := λ _ _, Some (into_bytes "0xee"); ou_call := λ _ _, None; ou_send := λ h _, Some (Z.of_nat (length h));
  ou_receipt := λ _ _, Some true; ou_anvil_log := λ _, Some demo_anvil; ou_clock := λ _, 0;
  ou_range := λ _ lo _, lo; ou_bool := λ _ _, true |}.
Definition demo_hex (s : Bytes) : option Z := if decide (tidy s) then from_str_radix 16 (trim_0x s) else None.
Definition demo_world : World := {| events := []; files := ∅ |}.
Definition demo_keccak (s : Bytes) : Z := foldl (λ acc a, 256 * acc + byte_value a) 0 s.
Definition demo_up : World * option () :=
  cmd_up demo_outside (λ _, None) demo_hex demo_hex (λ _, Some 7) Some (λ _, into_bytes "0x7") Some (λ _, Some (Some 100, Some 102)) demo_world.

Lemma demo_up_completes : demo_up = (demo_up.1, Some ()).
Proof. assert (H : demo_up.2 = Some ()) by by vm_compute. revert H. generalize demo_up. intros [w o] H. cbn in H. by subst. Qed.

Lemma demo_pids : Forall (λ e : Command * Z, 0 ≤ e.2 < 2 ^ 31) (launched (events demo_up.1)).
Proof.
  assert (H : forallb (λ e : Command * Z, (0 <=? e.2) && (e.2 <? 2 ^ 31)) (launched (events demo_up.1)) = true) by by vm_compute.
  revert H. generalize (launched (events demo_up.1)). intros l H. apply Forall_forall. intros e He.
  rewrite forallb_forall in H. specialize (H e (proj1 (list_elem_of_In _ _) He)). lia.
Qed.

(** [down] after the machine's [up]: 23 signals by pid, the chain's first, and the sweep. *)
Lemma up_then_down_witness :
  demo_up = (demo_up.1, Some ()) ∧
  ∃ w2 ks, cmd_down demo_up.1 = (w2, Some ()) ∧ length ks = 23%nat ∧
    events w2 = events demo_up.1 ++ (Kill <$> ks) ++
      (Pkill <$> ["target/release/cerdic-tee-matcher"; "target/release/market_maker"; "target/release/keeper_liquidator";
                  "target/release/keeper_price_pusher"; "target/release/local_dev.*seed-loop";
                  "target/release/local_dev.*oracle-push-loop"; "^anvil$"])%string.
Proof.
  split; [exact demo_up_completes|].
  destruct (up_then_down demo_outside (λ _, None) demo_hex demo_hex (λ _, Some 7) Some (λ _, into_bytes "0x7") Some
    (λ _, Some (Some 100, Some 102)) demo_world demo_up.1 demo_up_completes) as (cs & Hs & Hl & Hdown).
  assert (Hcs : launched (events demo_up.1) = cs) by exact (proj1 Hs).
  pose proof demo_pids as Hp. rewrite Hcs in Hp. destruct (Hdown Hp) as (w2 & ks & Hrun & Hks & _ & He).
  exists w2, ks. split; [exact Hrun|]. split; [|exact He].
  rewrite Hks, length_fmap. apply (f_equal length) in Hl. rewrite !length_fmap in Hl. exact Hl.
Defined.

Definition demo_output : Bytes := demo_forge ++ [newline].
Lemma demo_logs : logs_addresses demo_outside demo_hex.
Proof.
  intros h c out err H Hc. cbn [demo_outside ou_output] in H. rewrite decide_True in H by done. injection H as <- <-.
  change (script_output demo_hex demo_output). split; [unfold LABELS; repeat (apply Forall_cons; split; [by vm_compute; eauto|]); apply Forall_nil; exact I|].
  assert (Hall : bool_decide (Forall (λ a, demo_hex a ≠ None) (get_addrs_all demo_output "aggregator:")) = true) by by vm_compute.
  apply bool_decide_eq_true in Hall. eapply Forall_impl; [exact Hall|]. intros a. by apply not_eq_None_Some.
Qed.

Lemma up_wires_the_stack_witness :
  demo_up = (demo_up.1, Some ()) ∧
  ∃ keys deployer o1 o2 o3 addrs,
    wired demo_outside (λ _, None) demo_hex (λ _, Some 7) Some (λ _, None) (λ _, true) demo_keccak demo_up.1
      (launched (events demo_up.1)).*1 keys deployer o1 o2 o3 addrs.
Proof.
  split; [exact demo_up_completes|].
  destruct (up_wires_the_stack demo_outside (λ _, None) demo_hex demo_hex (λ _, Some 7) Some (λ _, into_bytes "0x7") Some
    (λ _, Some (Some 100, Some 102)) (λ _, None) (λ _, true) demo_keccak demo_world demo_up.1 demo_up_completes demo_logs)
    as (cs & keys & dk & o1 & o2 & o3 & addrs & Hs & Hw).
  - intros s a. unfold demo_hex. by case_decide.
  - intros s a [= <-]. by vm_compute.
  - done.
  - refine (bool_decide_unpack _ _). vm_compute. exact I.
  - done.
  - done.
  - exists keys, dk, o1, o2, o3, addrs. assert (Hcs : launched (events demo_up.1) = cs) by exact (proj1 Hs).
    rewrite Hcs. exact Hw.
Defined.
