(* ===== verification/Clients.v ===== *)
(** * Clients of the enclave ([bin/market_maker.rs], [bin/demo_client.rs], [bin/stress_client.rs])

    What is around the maker's requote cycle of [MarketMaker]: its configuration, its floating-point
    terms, its startup, and its requests from the payload to the envelope and back; then the client of
    one order, and the load client.  [f64::powi], [f64::ln], the parsing of keys, addresses and ids, the draws of [rand] and [keccak256] are parameters, as are the primitives of [Envelope].
    An answer's body is its value: both ends are written with the same JSON library. *)
From Stdlib Require Import SpecFloat.
From S2P Require Import Prelude Ints Text F64 Types I256 Positions Liquidation Book Wire Matcher MatcherTrace Envelope.
From S2P Require Import LocalDev MarketMaker MakerVenue.
Open Scope Z_scope.

Definition string_of (s : Bytes) : string := String.string_of_list_ascii s.

(** ** Parsing a float *)

Fixpoint digits (s : Bytes) : list Z * Bytes :=
  match s with
  | a :: s' => match to_digit 10 a with Some d => let '(ds, rest) := digits s' in (d :: ds, rest) | None => ([], s) end
  | [] => ([], [])
  end.
Definition decimal (ds : list Z) : Z := foldl (λ v d, 10 * v + d) 0 ds.
Definition sign (s : Bytes) : bool * Bytes :=
  match s with
  | a :: s' => if decide (byte_value a = 45) then (true, s') else if decide (byte_value a = 43) then (false, s') else (false, s)
  | [] => (false, [])
  end.

(** The float nearest to [n * 10 ^ e]. *)
Definition f64_of_decimal (neg : bool) (n e : Z) : f64 :=
  if decide (n = 0) then S754_zero neg
  else if decide (0 ≤ e) then binary_normalize 53 1024 (cond_Zopp neg (n * 10 ^ e)) 0 neg
  else
    let d := 10 ^ (- e) in
    let shift := Z.max 0 (Z.log2 d - Z.log2 n + 64) in
    let m := n * 2 ^ shift in
    binary_round_aux 53 1024 neg (m / d) (- shift) (if decide (m mod d = 0) then loc_Exact else loc_Inexact (2 * (m mod d) ?= d)).

(** [str::parse::<f64>]. *)
Definition parse_number (neg : bool) (s : Bytes) : option f64 :=
  let '(whole, s) := digits s in
  let '(part, s) := match s with
                    | a :: s' => if decide (byte_value a = 46) then digits s' else ([], s)
                    | [] => ([], [])
                    end in
  let n := decimal (whole ++ part) in
  let e := - Z.of_nat (length part) in
  if decide (whole ++ part = []) then None
  else match s with
       | [] => Some (f64_of_decimal neg n e)
       | a :: s =>
           if decide (byte_value a = 101 ∨ byte_value a = 69) then
             let '(down, s) := sign s in
             let '(x, rest) := digits s in
             if decide (x = [] ∨ rest ≠ []) then None
             else Some (f64_of_decimal neg n (e + (if down : bool then - decimal x else decimal x)))
           else None
       end.
Definition parse_f64 (s : Bytes) : option f64 :=
  let '(neg, s) := sign s in
  if eq_ignore_ascii_case s (into_bytes "inf") || eq_ignore_ascii_case s (into_bytes "infinity") then Some (S754_infinity neg)
  else if eq_ignore_ascii_case s (into_bytes "nan") then Some S754_nan
  else parse_number neg s.

Example parse_floats :
  parse_f64 (into_bytes "-12.5e-1") = Some (f64_div (as_f64 (-5)) (as_f64 4)) ∧
  parse_f64 (into_bytes ".1") = Some (f64_div (as_f64 1) (as_f64 10)) ∧
  parse_f64 (into_bytes "3.") = Some (as_f64 3) ∧ parse_f64 (into_bytes "1e") = None ∧ parse_f64 (into_bytes ".") = None.
Proof. by vm_compute. Qed.

(** ** The maker's configuration *)

Record MakerConfig := {
  mc_market_id : MarketId;
  mc_market_contract : Address;
  mc_feed_id : Bytes;
  mc_private_key : Bytes;
  mc_spread_bps : Z;
  mc_quote_size : Z;
  mc_skew_bps_per_unit : Z;
  mc_requote_interval : Z;
  mc_vol_spread_mult : f64;
  mc_vol_window : Z;
  mc_jitter_bps_pct : f64;
  mc_size_jitter_pct : f64;
  mc_ladder_levels : Z;
}.

Section configuration.
Context (var : string → option Bytes) (parse_address parse_id : Bytes → option Z).
Context (keccak256 : Bytes → Z).

Definition configure_maker : exec MakerConfig :=
  _ ← expect (var "MATCHER_URL");
  _ ← expect (var "SETTLEMENT_RPC_URL");
  market_id ← expect (var "MARKET_ID");
  contract_raw ← expect (var "MARKET_CONTRACT_ADDRESS");
  market_contract ← expect (parse_address contract_raw);
  feed_id ← expect (var "PYTH_FEED_ID");
  private_key ← expect (var "MM_PRIVATE_KEY");
  Ret {| mc_market_id := string_of market_id; mc_market_contract := market_contract; mc_feed_id := feed_id;
         mc_private_key := private_key;
         mc_spread_bps := default 20 (var "MM_SPREAD_BPS" ≫= parse_u64);
         mc_quote_size := default 40 (var "MM_QUOTE_SIZE" ≫= parse_u64);
         mc_skew_bps_per_unit := default 2 (var "MM_SKEW_BPS_PER_UNIT" ≫= parse_i64);
         mc_requote_interval := default 15 (var "MM_REQUOTE_INTERVAL_SECS" ≫= parse_u64);
         mc_vol_spread_mult := default (as_f64 40) (var "MM_VOL_SPREAD_MULT" ≫= parse_f64);
         mc_vol_window := default 20 (var "MM_VOL_WINDOW" ≫= parse_u64);
         mc_jitter_bps_pct := default (as_f64 20) (var "MM_JITTER_BPS_PCT" ≫= parse_f64);
         mc_size_jitter_pct := default (as_f64 35) (var "MM_SIZE_JITTER_PCT" ≫= parse_f64);
         mc_ladder_levels := Z.max (default 14 (var "MM_LADDER_LEVELS" ≫= parse_u64)) 1 |}.

Definition market_hash (market_id : MarketId) : exec Z :=
  match var "ONCHAIN_MARKET_ID" with
  | Some raw => expect (parse_id raw)
  | None => Ret (keccak256 (into_bytes market_id))
  end.
End configuration.

Definition settings (cfg : MakerConfig) : Settings := {|
  se_market_id := mc_market_id cfg; se_skew_bps_per_unit := mc_skew_bps_per_unit cfg;
  se_vol_window := Z.to_nat (mc_vol_window cfg); se_requote_secs := mc_requote_interval cfg |}.

(** ** The maker's floating-point terms *)

Definition f64_sub (x y : f64) : f64 := f64_add x (SFopp y).
Definition f64_sqrt : f64 → f64 := SFsqrt 53 1024.
(** [Iterator::sum]; of no use on an empty list. *)
Definition f64_sum (l : list f64) : f64 := foldl f64_add (S754_zero false) l.
(** [f64::max]: NaN gives way. *)
Definition f64_max (x y : f64) : f64 := if SFleb y x then x else if SFleb x y then y else match x with S754_nan => y | _ => x end.
Definition as_i64_sat : f64 → Z := f64_as i64_min i64_max.

Section terms.
Context (powi : f64 → Z → f64) (ln : f64 → f64).
(** The value of a draw: [gen_range(-pct..=pct)]. *)
Context (gen_range : f64 → Z → f64).
Context (cfg : MakerConfig).

Definition log_returns (mid_history : list Z) : list f64 :=
  let h := as_f64 <$> mid_history in zip_with (λ prev next, ln (f64_div next prev)) h (drop 1 h).
Definition realized_vol_bps (mid_history : list Z) : f64 :=
  if decide (3 ≤ length mid_history)%nat then
    let log_returns := log_returns mid_history in
    let n := as_f64 (Z.of_nat (length log_returns)) in
    let mean := f64_div (f64_sum log_returns) n in
    let variance := f64_div (f64_sum ((λ r, powi (f64_sub r mean) 2) <$> log_returns)) n in
    f64_mul (f64_sqrt variance) (as_f64 10000)
  else S754_zero false.

Definition base_spread_bps (mid_history : list Z) : f64 :=
  f64_add (as_f64 (mc_spread_bps cfg)) (f64_mul (realized_vol_bps mid_history) (mc_vol_spread_mult cfg)).
Definition level_mult (level : nat) : f64 := powi (f64_lit 15 10) (wraps 32 (Z.of_nat level)).
(** [1.0 + gen_range(-pct..=pct) / 100.0]. *)
Definition jitter (pct : f64) (draw : Z) : f64 := f64_add (as_f64 1) (f64_div (gen_range pct draw) (as_f64 100)).
(** [(base_spread_bps * level_mult * jitter) as i64]. *)
Definition level_spread_bps (mid_history : list Z) (level : nat) (draw : Z) : Z :=
  as_i64_sat (f64_mul (f64_mul (base_spread_bps mid_history) (level_mult level)) (jitter (mc_jitter_bps_pct cfg) draw)).

Definition level_size (level : nat) : Z :=
  f64_as_u64 (f64_max (f64_round (f64_mul (as_f64 (mc_quote_size cfg)) (powi (f64_lit 85 100) (wraps 32 (Z.of_nat level)))))
                      (as_f64 1)).
(** [(center as f64 * factor).round() as i64] of [jittered_size]. *)
Definition level_rounded_size (level : nat) (draw : Z) : Z :=
  as_i64_sat (f64_round (f64_mul (as_f64 (level_size level)) (jitter (mc_size_jitter_pct cfg) draw))).
End terms.

(** ** Requests over the wire *)

(** A signer: its address and [sign_message_sync]. *)
Record Wallet `{Crypto} := { w_address : Address; w_sign : Bytes → Signature }.
Arguments w_address {_} _.
Arguments w_sign {_} _ _.

Section wire.
Context `{Crypto} `{!Json OrderPayload, !Json OfferPayload, !Json CancelPayload, !Json PortfolioKeyRequest}.
Context (E : Enclave) (ks : Keystore).
Context (wallet : Wallet) (enclave_pubkey : Bytes).
(** The ephemeral secret and the nonce of the box of a request. *)
Context (fresh : Venue → Bytes * Bytes).

Definition sign_payload {P} `{!SignedPayload P} (p : P) : Signed P :=
  {| unsigned := p; signature := w_sign wallet (signing_bytes (payload p)) |}.

(** The value in the body of an answer with a success status. *)
Definition answer (r : result (Request * Response) DecryptError) : option Response :=
  match r with Ok (_, r) => Some r | Err _ => None end.

(** The request, unless it cannot be encrypted, on its leg. *)
Definition wire_transmit {P} `{!Json P, !SignedPayload P} (w : Venue) (route : Route) (p : P) :
    exec (option (AppState * option Response)) :=
  envelope ← encrypt_for enclave_pubkey (sign_payload p) (fresh w).1 (fresh w).2;
  match envelope with
  | None => Ret None
  | Some e =>
      '(st, _) ← serve E (ve_state w) (leg_before (next_leg w));
      match leg_delivery (next_leg w) with
      | RequestLost => Ret (Some (st, None))
      | _ =>
          '(st, r) ← endpoint E ks st {| in_route := route; in_envelope := e;
            in_reading := {| rd_now := leg_now (next_leg w); rd_deposited := None; rd_funding := 0; rd_subscribed := false |} |};
          Ret (Some (st, answer r))
      end
  end.

(** [post_offer] and [post_cancel]. *)
Definition wire_offer (w : Venue) (p : OfferPayload) : exec (Venue * option OrderId) :=
  sent ← wire_transmit w OfferRoute p;
  Ret match sent with
      | None => (w, None)
      | Some (st, r) =>
          match leg_delivery (next_leg w) with
          | Arrives => (after_leg w st [], offered_id r)
          | _ => (after_leg w st (option_list (offered_id r)), None)
          end
      end.
Definition wire_cancel (w : Venue) (p : CancelPayload) : exec (Venue * bool) :=
  sent ← wire_transmit w CancelRoute p;
  Ret match sent with
      | None => (w, false)
      | Some (st, r) =>
          match leg_delivery (next_leg w) with
          | Arrives => (after_leg w st [], match r with Some (RCancel (Ok _)) => true | _ => false end)
          | AnswerLost => (after_leg w st [], false)
          | RequestLost => (after_leg w st [cp_order_id p], false)
          end
      end.
Definition wire_exchange : Exchange Venue := {| send_offer := wire_offer; send_cancel := wire_cancel |}.

(** ** The maker's startup *)

Definition learn_portfolio_key (st : AppState) (now_millis : Z) (ephemeral nonce : Bytes) : exec (AppState * Key) :=
  sealed ← encrypt_for enclave_pubkey (sign_payload {| pk_nonce := as_u64 now_millis |}) ephemeral nonce;
  e ← expect sealed;
  '(st, r) ← endpoint E ks st {| in_route := PortfolioKeyRoute; in_envelope := e;
    in_reading := {| rd_now := 0; rd_deposited := None; rd_funding := 0; rd_subscribed := false |} |};
  k ← expect (match answer r with Some (RPortfolioKey (Ok k)) => Some k | _ => None end);
  Ret (st, k).

(** [fetched] is the [pubkey_b64] of the answer, when there is one. *)
Definition fetch_enclave_pubkey (fetched : option Bytes) : exec Bytes :=
  b64 ← expect fetched; expect (decode_array 32 b64).
End wire.

Section startup.
Context `{Crypto} `{!Json OrderPayload, !Json OfferPayload, !Json CancelPayload, !Json PortfolioKeyRequest}.
Context (E : Enclave) (ks : Keystore) (parse_wallet : Bytes → option Wallet).

(** [main] up to the loop: the wallet, the enclave's key, the portfolio key, and the variables the loop
    starts with.  [tokio::time::interval] panics on a period of zero. *)
Definition start_maker (cfg : MakerConfig) (fetched : option Bytes) (st : AppState) (now_millis later_millis : Z)
    (ephemeral nonce : Bytes) : exec (Wallet * Bytes * Key * AppState * Maker) :=
  wallet ← expect (parse_wallet (mc_private_key cfg));
  enclave_pubkey ← fetch_enclave_pubkey fetched;
  '(st, portfolio_key) ← learn_portfolio_key E ks wallet enclave_pubkey st now_millis ephemeral nonce;
  if decide (mc_requote_interval cfg = 0) then Panic
  else Ret (wallet, enclave_pubkey, portfolio_key, st, MarketMaker.start (as_u64 later_millis)).
End startup.

(** [main] over the given cycles, from an enclave in state [st]. *)
Definition maker_main `{I : I256} `{Crypto} `{!Json OrderPayload, !Json OfferPayload, !Json CancelPayload, !Json PortfolioKeyRequest}
    (E : Enclave) (ks : Keystore) (parse_wallet : Bytes → option Wallet) (fresh : Venue → Bytes * Bytes)
    (var : string → option Bytes) (parse_address : Bytes → option Z)
    (powi : f64 → Z → f64) (ln : f64 → f64) (gen_range : f64 → Z → f64)
    (fetched : option Bytes) (st : AppState) (now_millis later_millis : Z) (ephemeral nonce : Bytes)
    (legs : list Leg) (cycles : list Sample) : exec (Venue * Maker) :=
  cfg ← configure_maker var parse_address;
  '(wallet, enclave_pubkey, _, st, mk) ← start_maker E ks parse_wallet cfg fetched st now_millis later_millis ephemeral nonce;
  run_maker (X := wire_exchange E ks wallet enclave_pubkey fresh) (settings cfg)
    (level_spread_bps powi ln gen_range cfg) (level_rounded_size powi gen_range cfg)
    {| ve_state := st; ve_legs := legs; ve_lost := [] |} mk cycles.

(** ** The client of one order *)

Definition quote_mark : Ascii.ascii := Ascii.ascii_of_N 34.

(** [str::find] and what follows the match. *)
Fixpoint after_first (needle s : Bytes) : option Bytes :=
  if starts_with s needle then Some (drop (length needle) s)
  else match s with [] => None | _ :: s => after_first needle s end.
Definition extract_json_string (json : Bytes) (key : string) : option Bytes :=
  let needle := quote_mark :: into_bytes key ++ [quote_mark; Ascii.ascii_of_N 58; quote_mark] in
  rest ← after_first needle json; fst <$> split_once quote_mark rest.

Section demo.
Context `{Crypto} `{!Json OrderPayload}.
Context (wallet_of : Bytes → option Wallet) (random_wallet : Wallet).

Definition demo_client_payload (args : list Bytes) (now_millis : Z) : OrderPayload := {|
  op_market_id := default "EURC/USDC"%string (string_of <$> args !! 3%nat);
  op_side := if decide (args !! 0%nat = Some (into_bytes "sell")) then Sell else Buy;
  op_tick := default 100 (args !! 1%nat ≫= parse_u64);
  op_qty := default 10 (args !! 2%nat ≫= parse_u64);
  op_tif := if decide (args !! 6%nat = Some (into_bytes "ioc")) then ImmediateOrCancel else GoodTilCancel;
  op_post_only := false;
  op_nonce := as_u64 now_millis;
  op_leverage := default 1 (args !! 5%nat ≫= parse_u64) |}.

(** [main] up to the envelope it posts; [pubkey_json] is what curl printed for [/pubkey]. *)
Definition demo_client (args : list Bytes) (pubkey_json : Bytes) (now_millis : Z) (ephemeral nonce : Bytes) :
    exec Envelope :=
  pubkey_b64 ← expect (extract_json_string pubkey_json "pubkey_b64");
  enclave_pubkey ← expect (decode_array 32 pubkey_b64);
  wallet ← match args !! 4%nat with
           | Some pk => expect (wallet_of pk)
           | None => Ret random_wallet
           end;
  sealed ← encrypt_for enclave_pubkey (sign_payload wallet (demo_client_payload args now_millis)) ephemeral nonce;
  expect sealed.
End demo.

(** ** The load client *)

Record StressArgs := { sa_n_orders : Z; sa_concurrency : Z; sa_market_id : MarketId; sa_ioc_mode : bool }.
Definition stress_args (args : list Bytes) : StressArgs := {|
  sa_n_orders := default 500 (args !! 0%nat ≫= parse_u64);
  sa_concurrency := default 50 (args !! 1%nat ≫= parse_u64);
  sa_market_id := default "EURC/USDC"%string (string_of <$> args !! 2%nat);
  sa_ioc_mode := bool_decide (args !! 3%nat = Some (into_bytes "ioc")) |}.

(** The [i]-th order, at [now_nanos]. *)
Definition stress_payload (a : StressArgs) (i : nat) (now_nanos : Z) : OrderPayload :=
  let side_tif :=
    if sa_ioc_mode a then (Buy, ImmediateOrCancel)
    else (if decide (Nat.modulo i 2 = 0%nat) then Buy else Sell, GoodTilCancel) in
  {| op_market_id := sa_market_id a; op_side := side_tif.1; op_tick := 100; op_qty := 1; op_tif := side_tif.2;
     op_post_only := false; op_nonce := as_u64 now_nanos; op_leverage := 1 |}.

(** What became of an order: answered with success, the [fills] of the answer, its microseconds. *)
Definition Timed : Type := bool * option Z * Z.
Definition was_filled (t : Timed) : bool := t.1.1 && bool_decide (0 < default 0 t.1.2).

Record StressReport := {
  sr_ok : Z; sr_err : Z; sr_filled : Z;
  sr_p50 : Z; sr_p95 : Z; sr_p99 : Z; sr_max : Z;
}.

(** [sort_unstable]. *)
Fixpoint insert_sorted (x : Z) (l : list Z) : list Z :=
  match l with [] => [x] | y :: l' => if decide (x ≤ y) then x :: l else y :: insert_sorted x l' end.
Definition sort_unstable (l : list Z) : list Z := foldr insert_sorted [] l.

(** An index out of range panics. *)
Definition percentile (sorted : list Z) (pct : f64) : exec Z :=
  if decide (sorted = []) then Ret 0
  else
    let idx := f64_as_u64 (f64_round (f64_mul (f64_div pct (as_f64 100)) (as_f64 (Z.of_nat (length sorted) - 1)))) in
    expect (sorted !! Z.to_nat (Z.min idx (Z.of_nat (length sorted) - 1))).

(** The counters and the sorted latencies, once every order is joined. *)
Definition stress_report (results : list Timed) : exec StressReport :=
  let latencies := sort_unstable (snd <$> results) in
  p50 ← percentile latencies (as_f64 50);
  p95 ← percentile latencies (as_f64 95);
  p99 ← percentile latencies (as_f64 99);
  Ret {| sr_ok := Z.of_nat (length (filter (λ t : Timed, t.1.1 = true) results));
         sr_err := Z.of_nat (length (filter (λ t : Timed, t.1.1 = false) results));
         sr_filled := Z.of_nat (length (filter (λ t : Timed, was_filled t = true) results));
         sr_p50 := p50; sr_p95 := p95; sr_p99 := p99; sr_max := default 0 (last latencies) |}.
