(* ===== verification/ClientsProps.v ===== *)
(** * Clients of the enclave: theorems

    The market maker's process over the wire runs exactly the requote cycles of [MarketMaker] against
    the enclave's handlers; the arguments the local driver gives the order client become the order
    they say; the load client's percentiles are latencies it measured. *)
From Stdlib Require Import SpecFloat.
From S2P Require Import Prelude Ints Text F64 Types I256 Positions Liquidation Book Wire Matcher MatcherProps MatcherTrace Envelope EnvelopeProps.
From S2P Require Import Funding FundingProps ConfigProps LocalDev LocalDevProps MarketMaker MakerVenue MarketMakerProps Clients.
Open Scope Z_scope.

(** ** Two exchanges that answer alike *)

Lemma bind_ext {A B} (m : exec A) (f g : A → exec B) : (∀ a, f a = g a) → m ≫= f = m ≫= g.
Proof. intros H. by destruct m as [a|]; [apply H|]. Qed.

(** Both sides start with the same computation. *)
Ltac same := apply bind_ext; intros [[? ?] ?].

Section exchanges.
Context `{I : I256} {W : Type} (X1 X2 : Exchange W) (se : Settings).
Context (spread : list Z → nat → Z → Z) (rounded : nat → Z → Z).
Context (Hoffer : ∀ w p, send_offer (Exchange := X1) w p = send_offer (Exchange := X2) w p).
Context (Hcancel : ∀ w p, send_cancel (Exchange := X1) w p = send_cancel (Exchange := X2) w p).

Lemma place_ext w mk side q now : place (X := X1) se w mk side q now = place (X := X2) se w mk side q now.
Proof using Hoffer. unfold place. by rewrite Hoffer. Qed.
Lemma withdraw_ext w mk id : withdraw (X := X1) se w mk id = withdraw (X := X2) se w mk id.
Proof using Hcancel. unfold withdraw. by rewrite Hcancel. Qed.
Lemma retire_one_ext w mk old : retire_one (X := X1) se w mk old = retire_one (X := X2) se w mk old.
Proof using Hcancel. destruct old; cbn [retire_one]; by rewrite ?withdraw_ext. Qed.
Lemma retire_all_ext w mk old : retire_all (X := X1) se w mk old = retire_all (X := X2) se w mk old.
Proof using Hcancel.
  revert w mk. induction old as [|id old IH]; intros w mk; cbn [retire_all]; [done|]. rewrite withdraw_ext.
  apply bind_ext. intros [w' mk']. apply IH.
Qed.

Lemma requote_level_ext mid skew level d w mk old :
  requote_level (X := X1) se spread rounded mid skew level d w mk old =
  requote_level (X := X2) se spread rounded mid skew level d w mk old.
Proof using Hoffer Hcancel.
  unfold requote_level. cbv zeta. rewrite place_ext. same. rewrite place_ext. same. rewrite retire_one_ext. same.
  by rewrite retire_one_ext.
Qed.

Lemma requote_ladder_ext mid skew level ds w mk old :
  requote_ladder (X := X1) se spread rounded mid skew level ds w mk old =
  requote_ladder (X := X2) se spread rounded mid skew level ds w mk old.
Proof using Hoffer Hcancel.
  revert level w mk old. induction ds as [|d ds IH]; intros level w mk old; cbn [requote_ladder]; [done|].
  rewrite requote_level_ext. same. apply IH.
Qed.

Lemma run_maker_ext cycles w mk :
  run_maker (X := X1) se spread rounded w mk cycles = run_maker (X := X2) se spread rounded w mk cycles.
Proof using Hoffer Hcancel.
  revert w mk. induction cycles as [|sm cycles IH]; intros w mk; cbn [run_maker]; [done|].
  assert (requote (X := X1) se spread rounded w mk sm = requote (X := X2) se spread rounded w mk sm) as ->.
  { unfold requote. destruct (sm_mid sm); [|done]. case_decide; [done|]. apply bind_ext. intros mk'.
    cbv zeta. rewrite requote_ladder_ext. same. apply retire_all_ext. }
  apply bind_ext. intros [w' mk']. apply IH.
Qed.
End exchanges.

(** ** The wire *)

Section wire.
Context `{Crypto} `{!Json OrderPayload, !Json OfferPayload, !Json CancelPayload, !Json PortfolioKeyRequest}.

(** A payload this wallet signs survives JSON. *)
Definition json_ok (wallet : Wallet) P `{!Json P, !SignedPayload P} : Prop :=
  ∀ p : P, ∃ t, to_json (sign_payload wallet p) = Some t ∧ from_json t = Some (sign_payload wallet p).

(** What the maker relies on: its signatures are its own, boxes for the enclave can be sealed, its
    payloads survive JSON. *)
Record transport_ok (sk : Bytes) (wallet : Wallet) : Prop := {
  to_signs m : recover_address_from_msg (w_sign wallet m) m = Some (w_address wallet);
  to_seals e n p : is_Some (seal (public_key_of sk) e n p);
  to_order : json_ok wallet OrderPayload;
  to_offer : json_ok wallet OfferPayload;
  to_cancel : json_ok wallet CancelPayload;
  to_key : json_ok wallet PortfolioKeyRequest;
}.

Context {Hlaws : CryptoLaws} (E : Enclave) (sk : Bytes) (wallet : Wallet) (Ht : transport_ok sk wallet).

Lemma encrypt_signed {P} `{!Json P, !SignedPayload P} (p : P) ephemeral nonce :
  json_ok wallet P → ∃ e t, encrypt_for (public (generate sk)) (sign_payload wallet p) ephemeral nonce = Ret (Some e) ∧
    to_json (sign_payload wallet p) = Some t ∧ from_json t = Some (sign_payload wallet p).
Proof using Ht.
  intros Hj. destruct (Hj p) as (t & Hto & Hfrom). destruct (to_seals _ _ Ht ephemeral nonce t) as [c Hc].
  unfold encrypt_for. rewrite Hto. cbn [generate public]. rewrite Hc. cbn [expect]. eexists _, t. rewrite ret_bind. done.
Qed.

(** A request over the wire is the handler's request, whatever the endpoint. *)
Definition reaches {P} `{!Json P, !SignedPayload P} (route : Route) : Prop :=
  ∀ (p : P) ephemeral nonce rd st, length nonce = 24%nat →
    ∃ e, encrypt_for (public (generate sk)) (sign_payload wallet p) ephemeral nonce = Ret (Some e) ∧
      let q := {| rq_payload := payload p; rq_signer := w_address wallet; rq_reading := rd |} in
      endpoint E (generate sk) st {| in_route := route; in_envelope := e; in_reading := rd |} =
        '(st', r) ← serve_one E st q; Ret (st', Ok (q, r)).

Lemma order_reaches : reaches (P := OrderPayload) OrderRoute.
Proof using All.
  intros p ephemeral nonce rd st Hn. destruct (encrypt_signed p ephemeral nonce (to_order _ _ Ht)) as (e & t & He & Hto & Hfrom).
  exists e. split; [done|]. destruct (envelope_reaches_handler E sk ephemeral nonce rd st (w_address wallet) Hn) as (R & _ & _ & _).
  by apply (R (sign_payload wallet p) t e Hto Hfrom (to_signs _ _ Ht _)).
Qed.
Lemma offer_reaches : reaches (P := OfferPayload) OfferRoute.
Proof using All.
  intros p ephemeral nonce rd st Hn. destruct (encrypt_signed p ephemeral nonce (to_offer _ _ Ht)) as (e & t & He & Hto & Hfrom).
  exists e. split; [done|]. destruct (envelope_reaches_handler E sk ephemeral nonce rd st (w_address wallet) Hn) as (_ & R & _ & _).
  by apply (R (sign_payload wallet p) t e Hto Hfrom (to_signs _ _ Ht _)).
Qed.
Lemma cancel_reaches : reaches (P := CancelPayload) CancelRoute.
Proof using All.
  intros p ephemeral nonce rd st Hn. destruct (encrypt_signed p ephemeral nonce (to_cancel _ _ Ht)) as (e & t & He & Hto & Hfrom).
  exists e. split; [done|]. destruct (envelope_reaches_handler E sk ephemeral nonce rd st (w_address wallet) Hn) as (_ & _ & R & _).
  by apply (R (sign_payload wallet p) t e Hto Hfrom (to_signs _ _ Ht _)).
Qed.
Lemma key_reaches : reaches (P := PortfolioKeyRequest) PortfolioKeyRoute.
Proof using All.
  intros p ephemeral nonce rd st Hn. destruct (encrypt_signed p ephemeral nonce (to_key _ _ Ht)) as (e & t & He & Hto & Hfrom).
  exists e. split; [done|]. destruct (envelope_reaches_handler E sk ephemeral nonce rd st (w_address wallet) Hn) as (_ & _ & _ & R).
  by apply (R (sign_payload wallet p) t e Hto Hfrom (to_signs _ _ Ht _)).
Qed.

Context (fresh : Venue → Bytes * Bytes) (Hfresh : ∀ w, length (fresh w).2 = 24%nat).

Lemma wire_transmit_direct {P} `{!Json P, !SignedPayload P} w route (p : P) :
  reaches (P := P) route →
  wire_transmit E (generate sk) wallet (public (generate sk)) fresh w route p =
    '(st, r) ← transmit E (w_address wallet) w (payload p); Ret (Some (st, r)).
Proof using Hfresh.
  intros Hr. unfold wire_transmit, transmit.
  set (rd := {| rd_now := leg_now (next_leg w); rd_deposited := None; rd_funding := 0; rd_subscribed := false |}).
  destruct (Hr p (fresh w).1 (fresh w).2 rd new_state (Hfresh w)) as (e & He & _). rewrite He, ret_bind. cbv beta iota.
  destruct (serve E (ve_state w) _) as [[st l]|]; [|done]. rewrite !ret_bind.
  destruct (Hr p (fresh w).1 (fresh w).2 rd st (Hfresh w)) as (e' & He' & Hend). rewrite He in He'. injection He' as <-.
  cbv zeta in Hend. fold rd. unfold maker_request. fold rd.
  destruct (leg_delivery (next_leg w)); [|done|]; rewrite Hend; by destruct (serve_one E st _) as [[st' r]|].
Qed.

Lemma wire_offer_direct w p :
  wire_offer E (generate sk) wallet (public (generate sk)) fresh w p = venue_offer E (w_address wallet) w p.
Proof using Hfresh Ht Hlaws.
  unfold wire_offer, venue_offer. rewrite wire_transmit_direct by exact offer_reaches.
  by destruct (transmit _ _ _ _) as [[st r]|].
Qed.
Lemma wire_cancel_direct w p :
  wire_cancel E (generate sk) wallet (public (generate sk)) fresh w p = venue_cancel E (w_address wallet) w p.
Proof using Hfresh Ht Hlaws.
  unfold wire_cancel, venue_cancel. rewrite wire_transmit_direct by exact cancel_reaches.
  by destruct (transmit _ _ _ _) as [[st r]|].
Qed.

(** The startup lookup uses up its nonce, and answers the wallet's key. *)
Lemma learn_portfolio_key_direct st now ephemeral nonce :
  length nonce = 24%nat → (∀ l, last_nonce st !! w_address wallet = Some l → l < as_u64 now) →
  learn_portfolio_key E (generate sk) wallet (public (generate sk)) st now ephemeral nonce =
    Ret (set_last_nonce st (<[w_address wallet := as_u64 now]> (last_nonce st)), en_key E (w_address wallet)).
Proof using Ht Hlaws.
  intros Hn Hl. unfold learn_portfolio_key.
  destruct (key_reaches {| pk_nonce := as_u64 now |} ephemeral nonce
    {| rd_now := 0; rd_deposited := None; rd_funding := 0; rd_subscribed := false |} st Hn) as (e & -> & Hend).
  rewrite ret_bind. cbn [expect]. rewrite ret_bind. cbv zeta in Hend. rewrite Hend.
  unfold serve_one, handle, portfolio_key_signed, payload, post_portfolio_key, accept_nonce. cbn [rq_payload rq_signer pk_nonce].
  destruct (last_nonce st !! w_address wallet) as [l|] eqn:El; [|done].
  specialize (Hl l eq_refl). by rewrite decide_False by lia.
Qed.
End wire.

(** ** Theorems *)

(** C27: The market maker over the wire.  With a wallet whose signatures recover to its address, boxes
    that seal, payloads that survive JSON, and a clock past every nonce the enclave holds for it, the
    maker's process, from its environment on, is its requote cycles against the enclave's handlers,
    signed by that address: the lookup of its portfolio key uses one nonce and succeeds, and then each
    offer and each cancellation sent as an envelope does, request lost or answered, what the handler
    does. *)
Theorem maker_over_the_wire `{I : I256} `{Crypto, !CryptoLaws}
    `{!Json OrderPayload, !Json OfferPayload, !Json CancelPayload, !Json PortfolioKeyRequest}
    E sk wallet parse_wallet fresh var parse_address powi ln gen_range cfg st now later ephemeral nonce legs cycles :
  transport_ok sk wallet → configure_maker var parse_address = Ret cfg →
  parse_wallet (mc_private_key cfg) = Some wallet → mc_requote_interval cfg ≠ 0 →
  length nonce = 24%nat → (∀ w, length (fresh w).2 = 24%nat) →
  (∀ l, last_nonce st !! w_address wallet = Some l → l < as_u64 now) →
  maker_main E (generate sk) parse_wallet fresh var parse_address powi ln gen_range (Some (public_key_b64 (generate sk)))
    st now later ephemeral nonce legs cycles =
  run_maker (X := venue_exchange E (w_address wallet)) (settings cfg)
    (level_spread_bps powi ln gen_range cfg) (level_rounded_size powi gen_range cfg)
    {| ve_state := set_last_nonce st (<[w_address wallet := as_u64 now]> (last_nonce st)); ve_legs := legs; ve_lost := [] |}
    (MarketMaker.start (as_u64 later)) cycles.
Proof.
  intros Ht Hcfg Hw Hi Hn Hfresh Hl. unfold maker_main. rewrite Hcfg, ret_bind. unfold start_maker. rewrite Hw. cbn [expect].
  rewrite ret_bind. unfold fetch_enclave_pubkey. cbn [expect]. rewrite ret_bind. unfold public_key_b64.
  rewrite decode_array_encode by apply public_key_length. cbn [expect]. rewrite ret_bind.
  rewrite (learn_portfolio_key_direct E sk wallet Ht st now ephemeral nonce Hn Hl), ret_bind, decide_False, ret_bind by done.
  apply run_maker_ext; intros w p; [by apply wire_offer_direct|by apply wire_cancel_direct].
Qed.

(** ** The maker's terms *)

(** The float terms are machine integers, whatever NaN or infinity the arithmetic ends in. *)
Lemma terms_in_range powi ln gen_range cfg h level draw :
  in_s 64 (level_spread_bps powi ln gen_range cfg h level draw) ∧ in_s 64 (level_rounded_size powi gen_range cfg level draw) ∧
  in_u 64 (level_size powi cfg level).
Proof.
  unfold level_spread_bps, level_rounded_size, level_size, as_i64_sat, f64_as_u64.
  split_and!; (match goal with |- context [f64_as ?lo ?hi ?x] => pose proof (f64_as_range lo hi x ltac:(by vm_compute)) as Hr;
    revert Hr; generalize (f64_as lo hi x) end); unfold i64_min, i64_max, u64_max; intros z Hr; int_range.
Qed.

(** The makers [up] starts are configured with the sizes of their wave, and otherwise as by default. *)
Definition wave_config (market : MarketId) (contract : Address) (feed : string) (key : Bytes) (a : bool) : MakerConfig := {|
  mc_market_id := market; mc_market_contract := contract; mc_feed_id := into_bytes feed; mc_private_key := key;
  mc_spread_bps := if a then 20 else 35; mc_quote_size := if a then 200 else 150; mc_skew_bps_per_unit := 2;
  mc_requote_interval := if a then 15 else 11; mc_vol_spread_mult := as_f64 40; mc_vol_window := 20;
  mc_jitter_bps_pct := as_f64 20; mc_size_jitter_pct := as_f64 35; mc_ladder_levels := if a then 14 else 12 |}.

Lemma string_of_into s : string_of (into_bytes s) = s.
Proof. apply String.string_of_list_ascii_of_string. Qed.

Lemma wave_configured var parse_address market contract raw feed key (a : bool) :
  parse_address raw = Some contract →
  Forall (λ n, var n = None) ["MM_SKEW_BPS_PER_UNIT"; "MM_REQUOTE_INTERVAL_SECS"; "MM_VOL_SPREAD_MULT"; "MM_VOL_WINDOW";
    "MM_JITTER_BPS_PCT"; "MM_SIZE_JITTER_PCT"]%string →
  configure_maker (child_env var (maker_command market raw feed key (if a then WAVE_A else WAVE_B))) parse_address =
    Ret (wave_config market contract feed key a).
Proof.
  intros Hc Hv. rewrite !Forall_cons in Hv. destruct Hv as (H1 & H2 & H3 & H4 & H5 & H6 & _).
  set (env := child_env _ _).
  assert (E1 : env "MATCHER_URL" = Some MATCHER_URL) by done. assert (E2 : env "SETTLEMENT_RPC_URL" = Some ANVIL_RPC) by done.
  assert (E3 : env "MARKET_ID" = Some (into_bytes market)) by done. assert (E4 : env "MARKET_CONTRACT_ADDRESS" = Some raw) by done.
  assert (E5 : env "PYTH_FEED_ID" = Some (into_bytes feed)) by done. assert (E6 : env "MM_PRIVATE_KEY" = Some key) by done.
  assert (E7 : env "MM_SPREAD_BPS" = Some (into_bytes (if a then "20" else "35"))) by by destruct a.
  assert (E8 : env "MM_QUOTE_SIZE" = Some (into_bytes (if a then "200" else "150"))) by by destruct a.
  assert (E9 : env "MM_LADDER_LEVELS" = Some (into_bytes (if a then "14" else "12"))) by by destruct a.
  assert (E10 : env "MM_REQUOTE_INTERVAL_SECS" = if a then None else Some (into_bytes "11")) by (destruct a; [exact H2|done]).
  assert (E11 : env "MM_SKEW_BPS_PER_UNIT" = None) by (destruct a; exact H1).
  assert (E12 : env "MM_VOL_SPREAD_MULT" = None) by (destruct a; exact H3).
  assert (E13 : env "MM_VOL_WINDOW" = None) by (destruct a; exact H4).
  assert (E14 : env "MM_JITTER_BPS_PCT" = None) by (destruct a; exact H5).
  assert (E15 : env "MM_SIZE_JITTER_PCT" = None) by (destruct a; exact H6).
  clearbody env. unfold configure_maker. rewrite E1, E2, E3, E4, E5, E6. cbn [expect]. rewrite !ret_bind, Hc. cbn [expect].
  rewrite !ret_bind, string_of_into, E7, E8, E9, E10, E11, E12, E13, E14, E15. by destruct a.
Qed.

(** ** The client of one order *)

Lemma after_first_here needle s : after_first needle (needle ++ s) = Some s.
Proof.
  assert (H : starts_with (needle ++ s) needle = true) by (apply bool_decide_eq_true; by exists s).
  rewrite <- (drop_app_length needle s) at 2. revert H. generalize (needle ++ s). intros t H. destruct t; cbn [after_first]; by rewrite H.
Qed.

(** The arguments of a seed trade are its order. *)
Theorem seed_trade_order side tick qty market key leverage now :
  in_u 64 tick → in_u 64 qty → in_u 64 leverage →
  demo_client_payload [fmt_trade_side side; fmt_u64 tick; fmt_u64 qty; into_bytes market; key; fmt_u64 leverage; into_bytes "ioc"] now = {|
    op_market_id := market; op_side := match side with TradeBuy => Buy | TradeSell => Sell end; op_tick := tick; op_qty := qty;
    op_tif := ImmediateOrCancel; op_post_only := false; op_nonce := as_u64 now; op_leverage := leverage |}.
Proof.
  intros Ht Hq Hl. unfold demo_client_payload. cbn [lookup list_lookup fmap option_fmap option_map mbind option_bind default].
  rewrite !parse_fmt, string_of_into by done. f_equal; by destruct side.
Qed.

(** ** The load client *)

Lemma insert_sorted_perm x l : insert_sorted x l ≡ₚ x :: l.
Proof. induction l as [|y l IH]; cbn [insert_sorted]; [done|]. case_decide; [done|]. rewrite IH. apply Permutation_swap. Qed.
Lemma sort_unstable_perm l : sort_unstable l ≡ₚ l.
Proof. induction l as [|x l IH]; [done|]. cbn [sort_unstable foldr]. fold (sort_unstable l). by rewrite insert_sorted_perm, IH. Qed.

(** A percentile is one of the latencies, whatever the float arithmetic says. *)
Lemma percentile_elem sorted pct : sorted ≠ [] → ∃ x, percentile sorted pct = Ret x ∧ x ∈ sorted.
Proof.
  intros Hne. unfold percentile. rewrite decide_False by done.
  match goal with |- context [Z.min ?i _] => pose proof (f64_as_range 0 u64_max (f64_round (f64_mul (f64_div pct (as_f64 100))
    (as_f64 (Z.of_nat (length sorted) - 1)))) ltac:(by vm_compute)) as Hi; set (idx := i) in * end.
  assert (Hl : (0 < length sorted)%nat) by (destruct sorted; [done|cbn; lia]).
  destruct (lookup_lt_is_Some_2 sorted (Z.to_nat (Z.min idx (Z.of_nat (length sorted) - 1)))) as [x Hx].
  { unfold f64_as_u64 in idx. lia. }
  exists x. rewrite Hx. split; [done|]. by eapply list_elem_of_lookup_2.
Qed.

Theorem stress_report_counts results :
  results ≠ [] →
  ∃ r, stress_report results = Ret r ∧ sr_ok r + sr_err r = Z.of_nat (length results) ∧ sr_filled r ≤ sr_ok r ∧
    Forall (λ x, x ∈ snd <$> results) [sr_p50 r; sr_p95 r; sr_p99 r; sr_max r].
Proof.
  intros Hne. unfold stress_report. set (l := sort_unstable (snd <$> results)).
  assert (Hp : l ≡ₚ snd <$> results) by apply sort_unstable_perm.
  assert (Hl : l ≠ []) by (intros E; rewrite E in Hp; by apply Permutation_nil, fmap_nil_inv in Hp).
  destruct (percentile_elem l (as_f64 50) Hl) as (a & -> & Ha). destruct (percentile_elem l (as_f64 95) Hl) as (b & -> & Hb).
  destruct (percentile_elem l (as_f64 99) Hl) as (c & -> & Hc). rewrite !ret_bind. eexists. split; [done|]. cbn [sr_ok sr_err sr_filled
    sr_p50 sr_p95 sr_p99 sr_max]. split_and!.
  - clear. induction results as [|[[[] f] x] results IH]; [done|..]; rewrite !filter_cons; cbn [fst snd];
      repeat case_decide; try done; cbn [length]; lia.
  - apply inj_le, sublist_length. clear. induction results as [|[[[] f] x] results IH]; [constructor|..];
      rewrite !filter_cons; cbn [fst snd was_filled andb]; repeat case_decide; try done; by constructor.
  - setoid_rewrite <- Hp. repeat (apply Forall_cons; split; [done|]). apply Forall_cons; split; [|apply Forall_nil; exact Logic.I].
    destruct l as [|y l' _] using rev_ind; [done|]. rewrite last_snoc. cbn. set_solver.
Qed.

(** ** A wire *)

(** JSON stands for any injective encoding, here the bits of stdpp's. *)
Fixpoint bits (p : positive) : Bytes :=
  match p with xH => [] | xO p => Ascii.zero :: bits p | xI p => Ascii.one :: bits p end.
Fixpoint unbits (s : Bytes) : option positive :=
  match s with
  | [] => Some xH
  | a :: s => p ← unbits s; if decide (a = Ascii.zero) then Some (xO p) else Some (xI p)
  end.
Lemma unbits_bits p : unbits (bits p) = Some p.
Proof. induction p as [p IH|p IH|]; cbn [bits unbits]; rewrite ?IH; done. Qed.

(** Signatures that name their signer, and boxes that name their recipient. *)
Definition wire_crypto : Crypto := {|
  Signature := Z; b64_encode := λ s, s; b64_decode := Some; public_key_of := demo_public;
  seal := λ recipient _ _ p, Some (recipient ++ p);
  unseal := (λ _ s _ c, if decide (take 32 c = demo_public s) then Some (drop 32 c) else None);
  recover_address_from_msg := λ sig _, Some sig |}.

Lemma wire_laws : @CryptoLaws wire_crypto.
Proof.
  split; [done|exact demo_public_length|]. intros s e n p c [= <-]. pose proof (demo_public_length s) as Hl.
  cbn [unseal wire_crypto]. rewrite take_app_length' by done. rewrite decide_True by done. by rewrite drop_app_length'.
Qed.

Definition json_of {P} `{Countable P} : @Json wire_crypto P := {|
  to_json := λ p : @Signed wire_crypto P, Some (bits (encode (unsigned p, signature p : Z)));
  from_json := λ s, '(p, sig) ← unbits s ≫= decode; Some (@Build_Signed wire_crypto P p sig) |}.

#[local] Instance side_eq : EqDecision OrderSide := ltac:(solve_decision).
#[local] Instance tif_eq : EqDecision TimeInForce := ltac:(solve_decision).
#[local] Instance side_countable : Countable OrderSide.
Proof. apply (inj_countable' (λ s, match s with Buy => true | Sell => false end) (λ b : bool, if b then Buy else Sell)). by intros []. Defined.
#[local] Instance tif_countable : Countable TimeInForce.
Proof.
  apply (inj_countable' (λ t, match t with GoodTilCancel => inl true | ImmediateOrCancel => inl false | FillOrKill => inr None
                               | GoodTilTime t => inr (Some t) end)
    (λ x : bool + option Z, match x with inl true => GoodTilCancel | inl false => ImmediateOrCancel | inr None => FillOrKill
                               | inr (Some t) => GoodTilTime t end)). by intros [].
Defined.
#[local] Instance order_eq : EqDecision OrderPayload := ltac:(solve_decision).
#[local] Instance offer_eq : EqDecision OfferPayload := ltac:(solve_decision).
#[local] Instance cancel_eq : EqDecision CancelPayload := ltac:(solve_decision).
#[local] Instance key_eq : EqDecision PortfolioKeyRequest := ltac:(solve_decision).
#[local] Instance order_countable : Countable OrderPayload.
Proof.
  apply (inj_countable' (λ p, (op_market_id p, op_side p, op_tick p, op_qty p, op_tif p, op_post_only p, op_nonce p, op_leverage p))
    (λ '(m, s, t, q, f, o, n, l), {| op_market_id := m; op_side := s; op_tick := t; op_qty := q; op_tif := f; op_post_only := o;
      op_nonce := n; op_leverage := l |})). by intros [].
Defined.
#[local] Instance offer_countable : Countable OfferPayload.
Proof.
  apply (inj_countable' (λ p, (of_market_id p, of_side p, of_tick p, of_max_size p, of_expiry p, of_group p, of_reduce_only p, of_nonce p))
    (λ '(m, s, t, q, e, g, o, n), {| of_market_id := m; of_side := s; of_tick := t; of_max_size := q; of_expiry := e; of_group := g;
      of_reduce_only := o; of_nonce := n |})). by intros [].
Defined.
#[local] Instance cancel_countable : Countable CancelPayload.
Proof.
  apply (inj_countable' (λ p, (cp_market_id p, cp_order_id p, cp_nonce p))
    (λ '(m, i, n), {| cp_market_id := m; cp_order_id := i; cp_nonce := n |})). by intros [].
Defined.
#[local] Instance key_countable : Countable PortfolioKeyRequest.
Proof. apply (inj_countable' pk_nonce (λ n, {| pk_nonce := n |})). by intros []. Defined.

Definition wire_wallet : @Wallet wire_crypto := @Build_Wallet wire_crypto 7 (λ _, 7).

Lemma wire_json {P} `{Countable P} `{!SignedPayload P} : @json_ok wire_crypto wire_wallet P json_of _.
Proof. intros p. eexists. split; [done|]. cbn [from_json json_of]. rewrite unbits_bits. cbn [mbind option_bind]. by rewrite decode_encode. Qed.

Lemma wire_ok : @transport_ok wire_crypto json_of json_of json_of json_of (into_bytes "sk") wire_wallet.
Proof. split; [done|by eexists|..]; exact wire_json. Qed.

Definition demo_maker_env : string → option Bytes :=
  child_env (λ _, None) (maker_command demo_market (into_bytes "0xb2") "e6" (into_bytes "key") WAVE_A).
Definition demo_power (x : f64) (n : Z) : f64 := if decide (n = 0) then as_f64 1 else x.

(** A cycle of one level of a maker of the first wave, on the wire: a bid and an offer rest. *)
Lemma maker_over_the_wire_witness :
  ∃ w mk, @maker_main checked_i256 wire_crypto json_of json_of json_of json_of demo_enclave
      (@generate wire_crypto (into_bytes "sk")) (λ _, Some wire_wallet) (λ _, (into_bytes "e", demo_nonce)) demo_maker_env demo_hex
      demo_power (λ x, x) (λ _ _, S754_zero false) (Some (@public_key_b64 wire_crypto (@generate wire_crypto (into_bytes "sk")))) new_state 1000 1001 (into_bytes "e") demo_nonce
      [] [demo_sample] = Ret (w, mk) ∧ resting_ids mk = [0; 1] ∧ last_bid mk = Some (64870, 200).
Proof.
  pose proof (@maker_over_the_wire checked_i256 wire_crypto wire_laws json_of json_of json_of json_of demo_enclave (into_bytes "sk")
    wire_wallet (λ _, Some wire_wallet) (λ _, (into_bytes "e", demo_nonce)) demo_maker_env demo_hex demo_power (λ x, x)
    (λ _ _, S754_zero false) (wave_config demo_market 178 "e6" (into_bytes "key") true) new_state 1000 1001 (into_bytes "e") demo_nonce
    [] [demo_sample] wire_ok) as Heq.
  rewrite Heq; clear Heq.
  - match goal with |- ∃ w mk, ?run = _ ∧ _ =>
      assert (E : (r ← run; Ret (resting_ids r.2, last_bid r.2)) = Ret ([0; 1], Some (64870, 200))) by (vm_compute; reflexivity);
      revert E; generalize run end.
    intros [[w mk]|] E; [|discriminate E]. injection E as E1 E2. by exists w, mk.
  - vm_compute. reflexivity.
  - reflexivity.
  - discriminate.
  - reflexivity.
  - reflexivity.
  - intros l Hl. cbn in Hl. discriminate Hl.
Defined.
