(* ===== verification/Settle.v ===== *)
(** * Contract calls and their broadcast ([settle.rs])

    The calls the enclave builds, what their callers get back, the reads of contract state, and the
    broadcast of transactions by concurrent tasks behind [BROADCAST_LOCK].  The ABI encoding and
    decoding and the RPC are alloy's, parameters; the chain is modelled by the nonce of the one
    account that signs. *)
From S2P Require Import Prelude Ints Text Types U256 I256 Risk Averages Fees MarketData Backstop.
From S2P Require Import Positions Liquidation Book Wire Matcher Service.
Open Scope Z_scope.

(** ** Calls *)

Record MatchSettlement := {
  ms_match_id : Z;
  ms_market_id : Z;
  ms_portfolio_key_a : Key;
  ms_collateral_delta_a : Z;
  ms_sealed_params_a : SealedBlob;
  ms_portfolio_key_b : Key;
  ms_collateral_delta_b : Z;
  ms_sealed_params_b : SealedBlob;
}.

(** The functions of the contracts, with their arguments in the order of their signatures. *)
Inductive Call :=
| SettleMatch (match_id market_id : Z) (key_a : Key) (delta_a : Z) (params_a : SealedBlob)
    (key_b : Key) (delta_b : Z) (params_b : SealedBlob)
| SettleTakerSweep (market_id : Z) (key_taker : Key) (delta_taker : Z) (params_taker : SealedBlob)
    (maker_legs : list (Z * Key * Z * SealedBlob))
| LoadSealed (key : Key) (market_id : Z)
| LiquidateSealed (key : Key) (margin_requirement : Z) (legs : list (Z * Z * SealedBlob))
    (liquidator : Address) (liquidator_reward : Z)
| FundingIndex (market_id : Z)
| UpdateFundingIndex (market_id : Z)
| SubmitPortfolioMargin (trader : Address) (requirement expiry : Z)
| CollateralBalanceOf (trader asset : Address)
| SettleRealizedPnlBatch (traders assets : list Address) (pnl_deltas : list Z).

Definition settle_match_call (s : MatchSettlement) : Call :=
  SettleMatch (ms_match_id s) (ms_market_id s) (ms_portfolio_key_a s) (ms_collateral_delta_a s)
    (ms_sealed_params_a s) (ms_portfolio_key_b s) (ms_collateral_delta_b s) (ms_sealed_params_b s).

Definition taker_sweep_call (s : TakerSweep) : Call :=
  SettleTakerSweep (ts_market_id s) (ts_portfolio_key_taker s) (ts_collateral_delta_taker s)
    (ts_sealed_params_taker s)
    ((λ leg, (mf_match_id leg, mf_portfolio_key leg, mf_collateral_delta leg, mf_sealed_params leg)) <$> ts_maker_legs s).

Definition liquidate_call (s : LiquidationSweep) : Call :=
  LiquidateSealed (ls_portfolio_key s) (ls_margin_requirement s)
    ((λ leg, (ld_market_id leg, ld_collateral_delta leg, ld_sealed_params leg)) <$> ls_legs s)
    (ls_liquidator s) (ls_liquidator_reward s).

Record SettlementResult := { calldata : Bytes; broadcast_tx_hash : option Z }.

Section calls.
Context (abi_encode : Call → Bytes) (rpc_url : option string).
(** The outcome of [broadcast]: a hash, or an error that is only logged. *)
Context (broadcast : string → Address → Bytes → option Z).

Definition build_settle_match_calldata (s : MatchSettlement) : Bytes := abi_encode (settle_match_call s).
Definition build_taker_sweep_calldata (s : TakerSweep) : Bytes := abi_encode (taker_sweep_call s).
Definition build_liquidate_calldata (s : LiquidationSweep) : Bytes := abi_encode (liquidate_call s).

Definition submit_calldata (data : Bytes) (contract : option Address) : SettlementResult :=
  match broadcast_config rpc_url contract with
  | None => {| calldata := data; broadcast_tx_hash := None |}
  | Some (url, contract) => {| calldata := data; broadcast_tx_hash := broadcast url contract data |}
  end.

Definition settle_match (s : MatchSettlement) (contract : option Address) : SettlementResult :=
  submit_calldata (build_settle_match_calldata s) contract.
Definition settle_taker_sweep (s : TakerSweep) (contract : option Address) : SettlementResult :=
  submit_calldata (build_taker_sweep_calldata s) contract.

(** The call made, if broadcasting is configured. *)
Definition checkpoint_funding_index (market_id : Z) (contract : option Address) : option (Address * Bytes) :=
  '(_, contract) ← broadcast_config rpc_url contract; Some (contract, abi_encode (UpdateFundingIndex market_id)).

(** ** Reads *)

(** [eth_call], and the decoding of what it returned. *)
Context (eth_call : string → Address → Bytes → result Bytes string).

Definition read {A} (contract : option Address) (call : Call) (decode : Bytes → option A) : result A LoadSealedError :=
  match broadcast_config rpc_url contract with
  | None => Err NotConfigured
  | Some (url, contract) =>
      match eth_call url contract (abi_encode call) with
      | Err e => Err (Rpc e)
      | Ok raw => ok_or (decode raw) (Rpc "decode")
      end
  end.

Definition load_sealed (decode : Bytes → option (SealedBlob * Z)) (key : Key) (market_id : Z)
    (contract : option Address) : result (SealedBlob * Z) LoadSealedError :=
  read contract (LoadSealed key market_id) decode.

Definition load_deposited_collateral (decode : Bytes → option Z) (trader asset contract : Address) :
    result Z LoadSealedError :=
  read (Some contract) (CollateralBalanceOf trader asset) decode.

Definition load_funding_index (decode : Bytes → option Z) (market_id : Z) (contract : option Address) :
    result Z LoadSealedError :=
  match read contract (FundingIndex market_id) decode with
  | Err e => Err e
  | Ok index => ok_or (try_s 128 index) (Rpc "fundingIndex overflowed i128")
  end.
End calls.

(** ** Concurrent broadcasts

    Tasks that call [broadcast] for the one signing account, interleaved at every await point, and
    the chain: the transactions mined, in order of nonce, with whether each one succeeded, and those
    the node holds.  The lock is a fair or unfair mutex: any waiting task may get it. *)

Abbreviation Task := nat (only parsing).

Inductive Phase :=
| Waiting                    (** for [BROADCAST_LOCK] *)
| Holding                    (** the lock, before its nonce query *)
| Nonced (nonce : nat)       (** filled, not sent *)
| Sent (nonce : nat)         (** in [get_receipt] *)
| Finished (confirmed : bool). (** returned a hash, or an error; the guard is dropped *)

Record Net := {
  lock : option Task;
  phase : gmap Task Phase;
  pool : gmap nat Task;
  mined : list (Task * bool);
}.

Definition idle : Net := {| lock := None; phase := ∅; pool := ∅; mined := [] |}.

Definition set_phase (s : Net) (t : Task) (p : Phase) : Net :=
  {| lock := lock s; phase := <[t := p]> (phase s); pool := pool s; mined := mined s |}.
Definition finish (s : Net) (t : Task) (confirmed : bool) : Net :=
  {| lock := None; phase := <[t := Finished confirmed]> (phase s); pool := pool s; mined := mined s |}.

(** What the node answers to the nonce query: the mined transactions, and the held ones that follow
    them when it counts those too. *)
Fixpoint after_pool (fuel : nat) (p : gmap nat Task) (n : nat) : nat :=
  match fuel with
  | O => n
  | S fuel => match p !! n with Some _ => after_pool fuel p (S n) | None => n end
  end.
Definition next_nonce (pending : bool) (s : Net) : nat :=
  let n := length (mined s) in if pending then after_pool (length (map_to_list (pool s))) (pool s) n else n.

Inductive Label :=
| Spawn (t : Task)
| Acquire (t : Task)
| Query (t : Task)
| Send (t : Task)
| Reject (t : Task)          (** "nonce too low", or a nonce the node already holds *)
| Mine (succeeded : bool)
| Receipt (t : Task)         (** its status is not read *)
| RpcError (t : Task)        (** before anything was sent *)
| Lost (t : Task).           (** sent, but the answer or the receipt never came *)

Inductive step (pending : bool) : Net → Label → Net → Prop :=
| step_spawn s t :
    phase s !! t = None → step pending s (Spawn t) (set_phase s t Waiting)
| step_acquire s t :
    lock s = None → phase s !! t = Some Waiting →
    step pending s (Acquire t)
      {| lock := Some t; phase := <[t := Holding]> (phase s); pool := pool s; mined := mined s |}
| step_query s t :
    phase s !! t = Some Holding → step pending s (Query t) (set_phase s t (Nonced (next_nonce pending s)))
| step_send s t n :
    phase s !! t = Some (Nonced n) → (length (mined s) ≤ n)%nat → pool s !! n = None →
    step pending s (Send t)
      {| lock := lock s; phase := <[t := Sent n]> (phase s); pool := <[n := t]> (pool s); mined := mined s |}
| step_reject s t n :
    phase s !! t = Some (Nonced n) → ((n < length (mined s))%nat ∨ pool s !! n ≠ None) →
    step pending s (Reject t) (finish s t false)
| step_mine s t succeeded :
    pool s !! length (mined s) = Some t →
    step pending s (Mine succeeded)
      {| lock := lock s; phase := phase s; pool := delete (length (mined s)) (pool s);
         mined := mined s ++ [(t, succeeded)] |}
| step_receipt s t n b :
    phase s !! t = Some (Sent n) → mined s !! n = Some (t, b) → step pending s (Receipt t) (finish s t true)
| step_rpc_error s t p :
    phase s !! t = Some p → (p = Holding ∨ ∃ n, p = Nonced n) → step pending s (RpcError t) (finish s t false)
| step_lost s t n :
    phase s !! t = Some (Sent n) → step pending s (Lost t) (finish s t false).

(** A run, with its labels. *)
Inductive steps (pending : bool) : Net → list Label → Net → Prop :=
| steps_nil s : steps pending s [] s
| steps_snoc s1 ls s2 l s3 : steps pending s1 ls s2 → step pending s2 l s3 → steps pending s1 (ls ++ [l]) s3.

(** The tasks that got the lock, in order. *)
Definition acquired (ls : list Label) : list Task :=
  omap (λ l, match l with Acquire t => Some t | _ => None end) ls.
