(* ===== verification/SettleProps.v ===== *)
(** * Contract calls and their broadcast: theorems

    What the lock gives the account's nonces, and what a returned hash means. *)
From S2P Require Import Prelude Ints Text Types U256 I256 Risk Averages Fees MarketData Backstop.
From S2P Require Import Positions Liquidation Book Wire Matcher Service Settle.
Open Scope Z_scope.

(** ** Invariant *)

(** A task between the lock and its release. *)
Definition busy (p : Phase) : bool := match p with Waiting | Finished _ => false | _ => true end.

(** What a task's phase says of the chain; with [lost] transactions the node may hold others. *)
Definition phase_ok (s : Net) (t : Task) (p : Phase) : Prop :=
  match p with
  | Waiting | Holding | Nonced _ => (t ∉ (mined s).*1) ∧ ∀ n, pool s !! n ≠ Some t
  | Sent n => (∃ b, mined s !! n = Some (t, b)) ∨ pool s !! n = Some t
  | Finished confirmed => confirmed = true → t ∈ (mined s).*1
  end.

Record net_ok (s : Net) : Prop := {
  no_lock t p : phase s !! t = Some p → busy p = true → lock s = Some t;
  no_phase t p : phase s !! t = Some p → phase_ok s t p;
  no_known t : (t ∈ (mined s).*1 ∨ ∃ n, pool s !! n = Some t) → is_Some (phase s !! t);
  no_pool n t : pool s !! n = Some t → (length (mined s) ≤ n)%nat ∧ (t ∉ (mined s).*1);
  no_once n n' t : pool s !! n = Some t → pool s !! n' = Some t → n = n';
  no_mined : NoDup (mined s).*1;
}.

Lemma idle_ok : net_ok idle.
Proof.
  split; cbn; try (by intros *; rewrite lookup_empty); [|constructor].
  intros t [H|[n H]]; [by apply elem_of_nil in H|by rewrite lookup_empty in H].
Qed.

(** A step that moves one task and nothing of the chain. *)
Lemma phase_update_ok s t p l :
  net_ok s → (busy p = true → l = Some t) →
  (l = lock s ∨ ∀ t' p', t' ≠ t → phase s !! t' = Some p' → busy p' = false) → phase_ok s t p →
  net_ok {| lock := l; phase := <[t := p]> (phase s); pool := pool s; mined := mined s |}.
Proof.
  intros Hs Hb Hl Hp. split; cbn [lock phase pool mined].
  - intros t' p' [[<- <-]|[Hne Ht']]%lookup_insert_Some Hb'; [by apply Hb|].
    destruct Hl as [->|Hl]; [by eapply no_lock|]. by rewrite (Hl t' p') in Hb'.
  - intros t' p' [[<- <-]|[Hne Ht']]%lookup_insert_Some; [exact Hp|]. exact (no_phase _ Hs _ _ Ht').
  - intros t' Ht'. destruct (decide (t' = t)) as [->|Hne]; [rewrite lookup_insert_eq; by eexists|].
    rewrite lookup_insert_ne by done. by apply (no_known _ Hs).
  - apply (no_pool _ Hs).
  - apply (no_once _ Hs).
  - apply (no_mined _ Hs).
Qed.

(** The lock has one holder. *)
Lemma busy_unique s t p t' p' :
  net_ok s → phase s !! t = Some p → busy p = true → t' ≠ t → phase s !! t' = Some p' → busy p' = false.
Proof.
  intros Hs Ht Hb Hne Ht'. destruct (busy p') eqn:Hb'; [|done].
  pose proof (no_lock _ Hs _ _ Ht Hb). pose proof (no_lock _ Hs _ _ Ht' Hb'). congruence.
Qed.

Lemma send_ok s t n :
  net_ok s → phase s !! t = Some (Nonced n) → (length (mined s) ≤ n)%nat → pool s !! n = None →
  net_ok {| lock := lock s; phase := <[t := Sent n]> (phase s); pool := <[n := t]> (pool s); mined := mined s |}.
Proof.
  intros Hs Ht Hn Hp. pose proof (no_phase _ Hs _ _ Ht) as [Hmined Hpool]. split; cbn [lock phase pool mined].
  - intros t' p' [[<- <-]|[Hne Ht']]%lookup_insert_Some Hb; [by eapply no_lock|by eapply no_lock].
  - intros t' p' [[<- <-]|[Hne Ht']]%lookup_insert_Some; [right; apply lookup_insert_eq|].
    pose proof (no_phase _ Hs _ _ Ht') as Hok. destruct p' as [| |n'|n'|[]]; cbn in *; try done.
    1-3: destruct Hok as [H1 H2]; split; [done|]; intros k; rewrite lookup_insert_Some; naive_solver.
    destruct Hok as [Hm|Hm]; [by left|right]. rewrite lookup_insert_ne; [done|]. intros ->. congruence.
  - intros t' Ht'. destruct (decide (t' = t)) as [->|Hne]; [rewrite lookup_insert_eq; by eexists|].
    rewrite lookup_insert_ne by done. apply (no_known _ Hs). destruct Ht' as [|[k Hk]]; [by left|right]. exists k.
    apply lookup_insert_Some in Hk. naive_solver.
  - intros k t' [[<- <-]|[Hne Hk]]%lookup_insert_Some; [done|]. by apply (no_pool _ Hs).
  - intros k k' t' [[<- <-]|[Hne Hk]]%lookup_insert_Some [[<- Heq]|[Hne' Hk']]%lookup_insert_Some; subst; try done.
    + by destruct (Hpool k').
    + by destruct (Hpool k).
    + by apply (no_once _ Hs _ _ t').
  - apply (no_mined _ Hs).
Qed.

Lemma mine_ok s t b :
  net_ok s → pool s !! length (mined s) = Some t →
  net_ok {| lock := lock s; phase := phase s; pool := delete (length (mined s)) (pool s); mined := mined s ++ [(t, b)] |}.
Proof.
  intros Hs Hp. destruct (no_pool _ Hs _ _ Hp) as [_ Ht].
  assert (Hin : ∀ t', t' ∈ (mined s ++ [(t, b)]).*1 ↔ t' ∈ (mined s).*1 ∨ t' = t) by (intros; rewrite fmap_app; set_solver).
  assert (Hdel : ∀ k t', delete (length (mined s)) (pool s) !! k = Some t' ↔ k ≠ length (mined s) ∧ pool s !! k = Some t').
  { intros. rewrite lookup_delete_Some. naive_solver. }
  split; cbn [lock phase pool mined].
  - apply (no_lock _ Hs).
  - intros t' p Ht'. pose proof (no_phase _ Hs _ _ Ht') as Hok. destruct p as [| |n|n|[]]; cbn [phase_ok pool mined] in *.
    1-3: destruct Hok as [H1 H2]; split; [rewrite Hin; intros [?| ->]; [done|by apply (H2 (length (mined s)))]|];
      intros k Hk; apply Hdel in Hk as [_ Hk]; by apply (H2 k).
    + destruct Hok as [[b' Hm]|Hm]; [left; exists b'; by apply lookup_app_l_Some|].
      destruct (decide (n = length (mined s))) as [->|Hne].
      * left. exists b. rewrite lookup_app_r, Nat.sub_diag by done. cbn. congruence.
      * right. by apply Hdel.
    + intros _. apply Hin. left. by apply Hok.
    + done.
  - intros t' [[Hm| ->]%Hin|[k [_ Hk]%Hdel]]; apply (no_known _ Hs); [by left|right..]; by eexists.
  - intros k t' [Hne Hk]%Hdel. destruct (no_pool _ Hs _ _ Hk) as [Hge Hm]. split; [rewrite length_app; cbn; lia|].
    rewrite Hin. intros [?| ->]; [done|]. apply Hne. by apply (no_once _ Hs _ _ t).
  - intros k k' t' [_ Hk]%Hdel [_ Hk']%Hdel. by apply (no_once _ Hs _ _ t').
  - rewrite fmap_app. apply NoDup_app. split_and!; [apply (no_mined _ Hs)|set_solver|apply NoDup_singleton].
Qed.

Lemma step_ok pending s l s' : step pending s l s' → net_ok s → net_ok s'.
Proof.
  intros Hstep Hs. destruct Hstep as
    [s t Ht|s t Hl Ht|s t Ht|s t n Ht Hn Hp|s t n Ht Hn|s t b Hp|s t n b Ht Hm|s t p Ht Hp|s t n Ht].
  - apply phase_update_ok; [done|done|by left|]. split.
    + intros Hin. destruct (no_known _ Hs t (or_introl Hin)). congruence.
    + intros n Hn. destruct (no_known _ Hs t (or_intror (ex_intro _ n Hn))). congruence.
  - apply phase_update_ok; [done|done| |exact (no_phase _ Hs _ _ Ht)].
    right. intros t' p' _ Ht'. destruct (busy p') eqn:Hb; [|done]. pose proof (no_lock _ Hs _ _ Ht' Hb). congruence.
  - apply phase_update_ok; [done|intros _; by eapply no_lock|by left|exact (no_phase _ Hs _ _ Ht)].
  - by apply send_ok.
  - apply phase_update_ok; [done|done|right; intros t' p'; by eapply busy_unique|done].
  - by apply mine_ok.
  - apply phase_update_ok; [done|done|right; intros t' p'; by eapply busy_unique|].
    intros _. apply list_elem_of_fmap. exists (t, b). split; [done|]. by eapply list_elem_of_lookup_2.
  - assert (busy p = true) as Hb by (destruct Hp as [->|[n ->]]; done).
    apply phase_update_ok; [done|done|right; intros t' p'; by eapply busy_unique|done].
  - apply phase_update_ok; [done|done|right; intros t' p'; by eapply busy_unique|done].
Qed.

(** ** Runs in which no transaction is lost *)

(** What the holder of the lock has done, in terms of the chain and of the tasks that held it before. *)
Definition holder_ok (s : Net) (before : list Task) (t : Task) (p : Phase) : Prop :=
  let ms := (mined s).*1 in
  match p with
  | Holding => pool s = ∅ ∧ ms `sublist_of` before
  | Nonced n => pool s = ∅ ∧ ms `sublist_of` before ∧ n = length (mined s)
  | Sent n =>
      (pool s = {[n := t]} ∧ n = length (mined s) ∧ ms `sublist_of` before) ∨
      (pool s = ∅ ∧ ∃ l, ms = l ++ [t] ∧ l `sublist_of` before)
  | _ => False
  end.

Record clean (s : Net) (acq : list Task) : Prop := {
  cl_ok : net_ok s;
  cl_lock :
    match lock s with
    | None => pool s = ∅ ∧ (mined s).*1 `sublist_of` acq
    | Some t => ∃ p before, phase s !! t = Some p ∧ acq = before ++ [t] ∧ holder_ok s before t p
    end;
  cl_failed t : phase s !! t = Some (Finished false) → (t ∉ (mined s).*1) ∧ ∀ n, pool s !! n ≠ Some t;
}.

Lemma sublist_snoc {A} (l k : list A) x : l `sublist_of` k → l `sublist_of` k ++ [x].
Proof. intros. by apply sublist_inserts_r. Qed.

Lemma next_nonce_empty pending s : pool s = ∅ → next_nonce pending s = length (mined s).
Proof. unfold next_nonce. intros ->. rewrite map_to_list_empty. by destruct pending. Qed.

(** A finished task is neither mined nor held, if it never sent. *)
Lemma failed_update s t confirmed :
  (∀ t', phase s !! t' = Some (Finished false) → (t' ∉ (mined s).*1) ∧ ∀ n, pool s !! n ≠ Some t') →
  (confirmed = false → (t ∉ (mined s).*1) ∧ ∀ n, pool s !! n ≠ Some t) →
  ∀ t', <[t := Finished confirmed]> (phase s) !! t' = Some (Finished false) →
    (t' ∉ (mined s).*1) ∧ ∀ n, pool s !! n ≠ Some t'.
Proof. intros Hf Ht t' [[<- [= ->]]|[_ Ht']]%lookup_insert_Some; [by apply Ht|by apply Hf]. Qed.

Lemma clean_step pending s l s' acq :
  step pending s l s' → (∀ t, l ≠ Lost t) → clean s acq →
  (∀ t, l ≠ Reject t) ∧ clean s' (acq ++ match l with Acquire t => [t] | _ => [] end).
Proof.
  intros Hstep Hl [Hok Hlock Hfail]. pose proof (step_ok _ _ _ _ Hstep Hok) as Hok'.
  destruct Hstep as
    [s t Ht|s t Hfree Ht|s t Ht|s t n Ht Hn Hp|s t n Ht Hn|s t b Hp|s t n b Ht Hm|s t p Ht Hp|s t n Ht];
    try (by destruct (Hl t)).
  - split; [done|]. rewrite app_nil_r. split; [done| |].
    + cbn [lock set_phase]. destruct (lock s) as [h|]; [|exact Hlock]. destruct Hlock as (p & before & Hh & -> & Hho).
      exists p, before. split; [|by split]. cbn. rewrite lookup_insert_ne; [done|]. intros ->. congruence.
    + cbn. intros t' [[<- [=]]|[_ Ht']]%lookup_insert_Some. by apply Hfail.
  - split; [done|]. rewrite Hfree in Hlock. destruct Hlock as [Hpool Hsub]. split; [done| |].
    + cbn [lock]. exists Holding, acq. cbn. rewrite lookup_insert_eq. done.
    + cbn. intros t' [[<- [=]]|[_ Ht']]%lookup_insert_Some. by apply Hfail.
  - split; [done|]. rewrite app_nil_r. pose proof (no_lock _ Hok _ _ Ht eq_refl) as Hh. rewrite Hh in Hlock.
    destruct Hlock as (p & before & Ht' & -> & Hho). rewrite Ht in Ht'. injection Ht' as <-. destruct Hho as [Hpool Hsub].
    split; [done| |].
    + cbn [lock set_phase]. rewrite Hh. eexists _, before. cbn. rewrite lookup_insert_eq. split; [done|]. split; [done|].
      split; [done|]. split; [done|]. exact (next_nonce_empty pending s Hpool).
    + cbn. intros t' [[<- [=]]|[_ Ht']]%lookup_insert_Some. by apply Hfail.
  - split; [done|]. rewrite app_nil_r. pose proof (no_lock _ Hok _ _ Ht eq_refl) as Hh. rewrite Hh in Hlock.
    destruct Hlock as (p & before & Ht' & -> & Hho). rewrite Ht in Ht'. injection Ht' as <-.
    destruct Hho as (Hpool & Hsub & ->). split; [done| |].
    + cbn [lock]. rewrite Hh. eexists _, before. cbn. rewrite lookup_insert_eq. split; [done|]. split; [done|]. left.
      split; [cbn; by rewrite Hpool, insert_empty|done].
    + cbn. intros t' [[<- [=]]|[Hne Ht']]%lookup_insert_Some. destruct (Hfail _ Ht') as [H1 H2]. split; [done|].
      intros k [[_ ->]|[_ Hk]]%lookup_insert_Some; [done|by apply (H2 k)].
  - exfalso. pose proof (no_lock _ Hok _ _ Ht eq_refl) as Hh. rewrite Hh in Hlock.
    destruct Hlock as (p & before & Ht' & -> & Hho). rewrite Ht in Ht'. injection Ht' as <-.
    destruct Hho as (Hpool & Hsub & ->). rewrite Hpool, lookup_empty in Hn. destruct Hn; [lia|done].
  - split; [done|]. rewrite app_nil_r. split; [done| |].
    + cbn [lock]. destruct (lock s) as [h|]; [|destruct Hlock as [E _]; by rewrite E, lookup_empty in Hp].
      destruct Hlock as (p & before & Hh & -> & Hho). exists p, before. split; [done|]. split; [done|].
      unfold holder_ok in *. destruct p as [| |n|n|c]; try done; cbn [pool mined] in *.
      * destruct Hho as [E _]. by rewrite E, lookup_empty in Hp.
      * destruct Hho as [E _]. by rewrite E, lookup_empty in Hp.
      * destruct Hho as [(E & -> & Hsub)|[E _]]; [|by rewrite E, lookup_empty in Hp].
        rewrite E, lookup_singleton_eq in Hp. injection Hp as <-. right.
        split; [rewrite E; apply delete_singleton_eq|]. exists ((mined s).*1). by rewrite fmap_app.
    + cbn. intros t' Ht'. destruct (Hfail _ Ht') as [H1 H2]. split.
      * rewrite fmap_app. intros [?| ->%list_elem_of_singleton]%elem_of_app; [done|]. by apply (H2 (length (mined s))).
      * intros k [_ Hk]%lookup_delete_Some. by apply (H2 k).
  - split; [done|]. rewrite app_nil_r. pose proof (no_lock _ Hok _ _ Ht eq_refl) as Hh. rewrite Hh in Hlock.
    destruct Hlock as (p & before & Ht' & -> & Hho). rewrite Ht in Ht'. injection Ht' as <-. split; [done| |].
    + cbn [lock finish pool mined]. destruct Hho as [(_ & -> & _)|(E & l & E' & Hsub)].
      * apply lookup_lt_Some in Hm. lia.
      * split; [done|]. rewrite E'. by apply sublist_app.
    + by apply (failed_update s).
  - split; [done|]. rewrite app_nil_r. assert (Hb : busy p = true) by (destruct Hp as [->|[n ->]]; done).
    pose proof (no_lock _ Hok _ _ Ht Hb) as Hh. rewrite Hh in Hlock.
    destruct Hlock as (p' & before & Ht' & -> & Hho). rewrite Ht in Ht'. injection Ht' as <-. split; [done| |].
    + cbn [lock finish pool mined]. destruct Hp as [->|[n ->]]; cbn in Hho; (split; [apply Hho|]);
        apply sublist_snoc; apply Hho.
    + apply (failed_update s); [done|]. intros _. pose proof (no_phase _ Hok _ _ Ht) as Hph. by destruct Hp as [->|[n ->]].
Qed.

Lemma steps_ok pending ls s : steps pending idle ls s → net_ok s.
Proof.
  remember idle as s0 eqn:E. induction 1 as [s|s1 ls s2 l s3 H IH Hst]; subst; [apply idle_ok|].
  by eapply step_ok; [|apply IH].
Qed.

Lemma acquired_snoc ls l : acquired (ls ++ [l]) = acquired ls ++ match l with Acquire t => [t] | _ => [] end.
Proof. unfold acquired. rewrite omap_app. f_equal. by destruct l. Qed.

Lemma steps_clean pending ls s :
  steps pending idle ls s → (∀ t, Lost t ∉ ls) → (∀ t, Reject t ∉ ls) ∧ clean s (acquired ls).
Proof.
  remember idle as s0 eqn:E. induction 1 as [s|s1 ls s2 l s3 H IH Hst]; intros Hl; subst.
  - split; [by intros t ?%elem_of_nil|]. split; [apply idle_ok|done|]. cbn. intros t. by rewrite lookup_empty.
  - destruct IH as [Hr Hc]; [done|intros t Hin; apply (Hl t); set_solver|].
    destruct (clean_step pending s2 l s3 (acquired ls) Hst) as [Hr' Hc']; [|done|].
    { intros t ->. apply (Hl t). set_solver. }
    rewrite acquired_snoc. split; [|done].
    intros t [Hin|Hin%list_elem_of_singleton]%elem_of_app; [by apply (Hr t)|by apply (Hr' t)].
Qed.

Lemma clean_sublist s acq : clean s acq → (mined s).*1 `sublist_of` acq.
Proof.
  intros [_ Hl _]. destruct (lock s) as [t|]; [|apply Hl]. destruct Hl as (p & before & _ & -> & Hho).
  destruct p as [| |n|n|c]; cbn in Hho; try done.
  - apply sublist_snoc, Hho.
  - apply sublist_snoc, Hho.
  - destruct Hho as [(_ & _ & Hs)|(_ & l & -> & Hs)]; [by apply sublist_snoc|by apply sublist_app].
Qed.

(** ** Running labels *)

#[export] Instance phase_eq_dec : EqDecision Phase.
Proof. solve_decision. Defined.

(** The step a label names, when it is enabled. *)
Definition fire (pending : bool) (s : Net) (l : Label) : option Net :=
  match l with
  | Spawn t => if decide (phase s !! t = None) then Some (set_phase s t Waiting) else None
  | Acquire t =>
      if decide (lock s = None ∧ phase s !! t = Some Waiting) then
        Some {| lock := Some t; phase := <[t := Holding]> (phase s); pool := pool s; mined := mined s |}
      else None
  | Query t =>
      if decide (phase s !! t = Some Holding) then Some (set_phase s t (Nonced (next_nonce pending s))) else None
  | Send t =>
      match phase s !! t with
      | Some (Nonced n) =>
          if decide ((length (mined s) ≤ n)%nat ∧ pool s !! n = None) then
            Some {| lock := lock s; phase := <[t := Sent n]> (phase s); pool := <[n := t]> (pool s); mined := mined s |}
          else None
      | _ => None
      end
  | Reject t =>
      match phase s !! t with
      | Some (Nonced n) =>
          if decide ((n < length (mined s))%nat ∨ pool s !! n ≠ None) then Some (finish s t false) else None
      | _ => None
      end
  | Mine b =>
      match pool s !! length (mined s) with
      | Some t => Some {| lock := lock s; phase := phase s; pool := delete (length (mined s)) (pool s);
                          mined := mined s ++ [(t, b)] |}
      | None => None
      end
  | Receipt t =>
      match phase s !! t with
      | Some (Sent n) => if decide (fst <$> mined s !! n = Some t) then Some (finish s t true) else None
      | _ => None
      end
  | RpcError t => match phase s !! t with Some Holding | Some (Nonced _) => Some (finish s t false) | _ => None end
  | Lost t => match phase s !! t with Some (Sent _) => Some (finish s t false) | _ => None end
  end.

Lemma fire_step pending s l s' : fire pending s l = Some s' → step pending s l s'.
Proof.
  destruct l as [t|t|t|t|t|b|t|t|t]; cbn [fire].
  - case_decide; intros [= <-]. by constructor.
  - case_decide as Hd; intros [= <-]. destruct Hd. by constructor.
  - case_decide; intros [= <-]. by constructor.
  - destruct (phase s !! t) as [[]|] eqn:Ht; try done. case_decide as Hd; intros [= <-]. destruct Hd. by constructor.
  - destruct (phase s !! t) as [[]|] eqn:Ht; try done. case_decide as Hd; intros [= <-]. by econstructor.
  - destruct (pool s !! _) as [t|] eqn:Hp; intros [= <-]. by constructor.
  - destruct (phase s !! t) as [[]|] eqn:Ht; try done. case_decide as Hd; intros [= <-].
    apply fmap_Some in Hd as ([t' b] & Hm & ->). by econstructor.
  - destruct (phase s !! t) as [[]|] eqn:Ht; try done; intros [= <-]; econstructor; eauto.
  - destruct (phase s !! t) as [[]|] eqn:Ht; try done. intros [= <-]. by econstructor.
Qed.

Fixpoint run_labels (pending : bool) (s : Net) (ls : list Label) : option Net :=
  match ls with [] => Some s | l :: ls => s ← fire pending s l; run_labels pending s ls end.

Lemma run_labels_steps pending s0 s ls1 ls s' :
  steps pending s0 ls1 s → run_labels pending s ls = Some s' → steps pending s0 (ls1 ++ ls) s'.
Proof.
  revert s ls1. induction ls as [|l ls IH]; intros s ls1 Hs; cbn [run_labels].
  - intros [= <-]. by rewrite app_nil_r.
  - intros (s1 & Hl%fire_step & Hr)%bind_Some. rewrite cons_middle, app_assoc. apply (IH s1); [|done].
    by econstructor.
Qed.

(** Two tasks; the receipt of the first is lost before its transaction is mined, and the second gets
    the nonce that transaction has. *)
Definition lost_run : list Label := [Spawn 0; Spawn 1; Acquire 0; Query 0; Send 0; Lost 0; Acquire 1; Query 1; Reject 1]%nat.

Example lost_receipt_collides : run_labels false idle lost_run ≠ None.
Proof. by vm_compute. Qed.

(** ** Theorem *)

(** C16: The lock keeps the account's nonces apart.  In any interleaving of any number of broadcasts,
    two tasks are never between the lock and its release at once, no task's transaction is mined
    twice, and a task that returned a hash has its transaction mined.  Unless the answer to a
    sent transaction is lost, no transaction is ever refused for its nonce, the node holds none when
    the lock is free, transactions are mined in the order the lock was taken, and a task returned a
    hash exactly when its transaction was mined. *)
Theorem broadcasts_serialize pending ls s :
  steps pending idle ls s →
  (∀ t p t' p', phase s !! t = Some p → phase s !! t' = Some p' → busy p = true → busy p' = true → t = t') ∧
  NoDup (mined s).*1 ∧
  (∀ t, phase s !! t = Some (Finished true) → t ∈ (mined s).*1) ∧
  ((∀ t, Lost t ∉ ls) →
   (∀ t, Reject t ∉ ls) ∧ (lock s = None → pool s = ∅) ∧ (mined s).*1 `sublist_of` acquired ls ∧
   (∀ t confirmed, phase s !! t = Some (Finished confirmed) → (confirmed = true ↔ t ∈ (mined s).*1))).
Proof.
  intros Hrun. pose proof (steps_ok _ _ _ Hrun) as Hok. split_and!.
  - intros t p t' p' Ht Ht' Hb Hb'. pose proof (no_lock _ Hok _ _ Ht Hb). pose proof (no_lock _ Hok _ _ Ht' Hb'). congruence.
  - apply (no_mined _ Hok).
  - intros t Ht. by apply (no_phase _ Hok _ _ Ht).
  - intros Hl. destruct (steps_clean _ _ _ Hrun Hl) as [Hr Hc]. split_and!; [done| |by apply clean_sublist|].
    + intros Hfree. pose proof (cl_lock _ _ Hc) as H. rewrite Hfree in H. apply H.
    + intros t c Ht. split; [intros ->; by apply (no_phase _ Hok _ _ Ht)|]. intros Hin. destruct c; [done|].
      by destruct (cl_failed _ _ Hc t Ht).
Qed.

(** Three tasks take the lock in the order 1, 0, 2; the transaction of 0 reverts, and 0 returns its
    hash all the same; the node answers nothing to 2. *)
Definition demo_run : list Label :=
  [Spawn 0; Spawn 1; Acquire 1; Query 1; Spawn 2; Send 1; Mine true; Receipt 1; Acquire 0; Query 0; Send 0;
   Mine false; Receipt 0; Acquire 2; RpcError 2]%nat.

Lemma broadcasts_serialize_witness :
  ∃ s, steps true idle demo_run s ∧ mined s = [(1%nat, true); (0%nat, false)] ∧
    phase s !! 0%nat = Some (Finished true) ∧ (mined s).*1 `sublist_of` acquired demo_run.
Proof.
  destruct (run_labels true idle demo_run) as [s|] eqn:E; [|by vm_compute in E].
  assert (Hs : steps true idle demo_run s) by exact (run_labels_steps _ _ _ [] _ _ (steps_nil _ _) E).
  exists s. split; [done|]. destruct (broadcasts_serialize true demo_run s Hs) as (_ & _ & _ & H).
  destruct H as (_ & _ & Hsub & _).
  { intros t Hin. unfold demo_run in Hin. repeat (apply elem_of_cons in Hin as [Hin|Hin]; [discriminate Hin|]).
    by apply elem_of_nil in Hin. }
  split_and!; [vm_compute in E; by injection E as <-|vm_compute in E; by injection E as <-|done].
Defined.
