(* ===== verification/Display.v ===== *)
(** * The stream of book updates and the seeded history ([api.rs])

    What the enclave pushes to the subscribers of a market, and the debug endpoint that fills a tape
    with a synthetic past.  The channel is tokio's and the socket axum's: what they deliver, and
    whether a message went out, are the events of a run. *)
From S2P Require Import Prelude Ints Types Averages MarketData Backstop Positions Book Matcher.
Open Scope Z_scope.

(** ** The stream *)

(** What [broadcast_orderbook_update] sends on the market's channel, when it has one. *)
Definition build_orderbook_response (cfg : BackstopConfig) (st : AppState) (m : MarketId) (levels : nat) :
    exec OrderBookResponse := build_orderbook_response_grouped cfg st m levels 1.

Definition broadcast_orderbook_update (cfg : BackstopConfig) (subscribed : bool) (st : AppState) (m : MarketId) :
    exec (option OrderBookResponse) :=
  if subscribed then r ← build_orderbook_response cfg st m (Z.to_nat MAX_DEPTH_LEVELS); Ret (Some r) else Ret None.

(** A raw response, bucketed for one connection. *)
Definition regroup (group : Z) (r : OrderBookResponse) : OrderBookResponse :=
  {| ob_market_id := ob_market_id r; ob_best_bid := ob_best_bid r; ob_best_ask := ob_best_ask r;
     ob_bids := group_levels (ob_bids r) group; ob_asks := group_levels (ob_asks r) group;
     ob_mark_price := ob_mark_price r; ob_market := ob_market r |}.

(** What wakes a connection: an update, a count of updates it missed, the end of the channel, or
    something from the client; the flag of an update is whether the socket took the message. *)
Inductive StreamEvent :=
| Update (r : OrderBookResponse) (sent : bool)
| Lagged (missed : Z)
| ChannelClosed
| Incoming (open : bool).

(** The loop of [stream_orderbook]: the messages sent, in order. *)
Fixpoint stream_loop (group : Z) (events : list StreamEvent) : list OrderBookResponse :=
  match events with
  | [] => []
  | Update r true :: es => regroup group r :: stream_loop group es
  | Update _ false :: _ | ChannelClosed :: _ | Incoming false :: _ => []
  | Lagged _ :: es | Incoming true :: es => stream_loop group es
  end.

(** The state is the one at the connection. *)
Definition stream_orderbook (cfg : BackstopConfig) (st : AppState) (m : MarketId) (group : Z) (first_sent : bool)
    (events : list StreamEvent) : exec (list OrderBookResponse) :=
  initial ← build_orderbook_response_grouped cfg st m (Z.to_nat MAX_DEPTH_LEVELS) group;
  Ret (if first_sent then initial :: stream_loop group events else []).

Definition ws_orderbook (cfg : BackstopConfig) (st : AppState) (m : MarketId) (group : option Z) (first_sent : bool)
    (events : list StreamEvent) : exec (list OrderBookResponse) :=
  stream_orderbook cfg st m (Z.max (default 1 group) 1) first_sent events.

(** ** The seeded history *)

Record SeedHistoryPayload := { sh_market_id : MarketId; sh_start_tick : Z; sh_days : Z }.
Inductive SeedError := SeedingDisabled | BadSeedRequest.

Definition STEP_SECS : Z := 60.

Definition xorshift64 (x : Z) : Z :=
  let x := Z.lxor x (u64_shl x 13) in
  let x := Z.lxor x (u64_shr x 7) in
  Z.lxor x (u64_shl x 17).

(** One step of the walk, in [i64]. *)
Definition walk_price (price rng : Z) : Z :=
  let step_tenths_pct := rng mod 5 - 2 in
  let price := as_i64 (price + Z.quot (as_i64 (price * step_tenths_pct)) 1000) in
  if decide (price < 1) then 1 else price.

Definition seed_qty (rng : Z) : Z := 2 + rng mod 12.

(** The [while] loop, walking back from [t]: the prints, newest first. *)
Fixpoint walk_back (fuel : nat) (start_time t price rng : Z) : exec (list TradeRecord) :=
  match fuel with
  | O => Panic
  | S fuel =>
      if decide (start_time ≤ t) then
        let rng := xorshift64 rng in
        let price := walk_price price rng in
        let print := {| timestamp := t; price := as_u64 price; qty := seed_qty rng |} in
        if decide (t < STEP_SECS) then Ret [print]
        else rest ← walk_back fuel start_time (t - STEP_SECS) price rng; Ret (print :: rest)
      else Ret []
  end.

Definition seed_prints (start_tick span_secs now : Z) : exec (list TradeRecord) :=
  let start_time := sat_u 64 (now - span_secs) in
  let price := as_i64 start_tick in
  let rng := Z.lxor now (u64_mul start_tick 2654435761) in
  rest ← walk_back (S (S (Z.to_nat (now / STEP_SECS)))) start_time (sat_u 64 (now - STEP_SECS)) price rng;
  Ret ({| timestamp := now; MarketData.price := as_u64 price; qty := seed_qty rng |} :: rest).

Definition post_debug_seed_history (enabled : bool) (st : AppState) (p : SeedHistoryPayload) (now : Z) :
    exec (AppState * result nat SeedError) :=
  if negb enabled then Ret (st, Err SeedingDisabled)
  else if decide (sh_start_tick p = 0 ∨ sh_days p = 0) then Ret (st, Err BadSeedRequest)
  else
    backfill ← seed_prints (sh_start_tick p) (wrapu 64 (sh_days p * 24 * 60 * 60)) now;
    let tape := foldl (λ t r, MarketData.record t (timestamp r) (MarketData.price r) (qty r)) tape_default (rev backfill) in
    Ret (set_market_data st (<[sh_market_id p := tape]> (market_data st)), Ok (length backfill)).

(** ** Lemmas *)

Lemma group_levels_raw l g : group_levels (group_levels l 1) g = group_levels l g.
Proof. unfold group_levels at 2. by rewrite decide_True by lia. Qed.

Lemma as_i64_range x : i64_min ≤ as_i64 x ≤ i64_max.
Proof. pose proof (wraps_range 64 x ltac:(lia)). unfold as_i64, i64_min, i64_max. int_range. Qed.

Lemma walk_price_range p rng : 1 ≤ walk_price p rng ≤ i64_max.
Proof.
  unfold walk_price. cbv zeta. pose proof (as_i64_range (p + Z.quot (as_i64 (p * (rng mod 5 - 2))) 1000)).
  case_decide; unfold i64_max in *; lia.
Qed.

(** Away from the end of [i64], a step moves the price by at most 2 in 1000. *)
Lemma walk_price_near p rng : 1 ≤ p → 2 * p ≤ i64_max → 1000 * Z.abs (walk_price p rng - p) ≤ 2 * p.
Proof.
  intros Hp Hm. unfold walk_price. cbv zeta. assert (Hs : -2 ≤ rng mod 5 - 2 ≤ 2) by (pose proof (Z.mod_pos_bound rng 5); lia).
  set (s := rng mod 5 - 2) in *. clearbody s. unfold i64_max in Hm.
  assert (Hin : in_s 64 (p * s)) by (unfold in_s; nia).
  unfold as_i64. rewrite (wraps_small 64 (p * s)) by (done || lia).
  pose proof (Z.quot_rem' (p * s) 1000) as Hq. pose proof (Z.rem_bound_abs (p * s) 1000 ltac:(lia)) as Hr.
  pose proof (Z.rem_sign_mul (p * s) 1000 ltac:(lia)) as Hsg.
  set (q := Z.quot (p * s) 1000) in *. set (r := Z.rem (p * s) 1000) in *. clearbody q r.
  assert (Hqb : 1000 * Z.abs q ≤ 2 * p).
  { assert (Hx : - (2 * p) ≤ p * s ≤ 2 * p) by nia. set (x := p * s) in *. clearbody x.
    destruct (Z.lt_trichotomy x 0) as [?|[->|?]]; [assert (r ≤ 0) by nia|..|assert (0 ≤ r) by nia]; lia. }
  rewrite wraps_small; [|lia|unfold in_s; lia]. case_decide; lia.
Qed.

Lemma seed_qty_range rng : 2 ≤ seed_qty rng ≤ 13.
Proof. unfold seed_qty. pose proof (Z.mod_pos_bound rng 12). lia. Qed.

(** A walk back in time from a price: one print a minute, each near the one after it. *)
Fixpoint walked (t p : Z) (l : list TradeRecord) : Prop :=
  match l with
  | [] => True
  | r :: l =>
      timestamp r = t ∧ 1 ≤ price r ≤ i64_max ∧ 2 ≤ qty r ≤ 13 ∧
      (2 * p ≤ i64_max → 1000 * Z.abs (price r - p) ≤ 2 * p) ∧ walked (t - STEP_SECS) (price r) l
  end.

Lemma walk_back_spec fuel start t p rng :
  0 ≤ start → 0 ≤ t → 1 ≤ p → (Z.to_nat (t / STEP_SECS) + 1 < fuel)%nat →
  ∃ l, walk_back fuel start t p rng = Ret l ∧ walked t p l ∧
    Z.of_nat (length l) = if decide (start ≤ t) then (t - start) / STEP_SECS + 1 else 0.
Proof.
  unfold STEP_SECS. revert t p rng. induction fuel as [|fuel IH]; intros t p rng Hs Ht Hp Hf; [lia|]. cbn [walk_back].
  unfold STEP_SECS. destruct (decide (start ≤ t)) as [Hle|Hle]; [|by exists []]. cbv zeta.
  pose proof (walk_price_range p (xorshift64 rng)) as Hpr. pose proof (walk_price_near p (xorshift64 rng) Hp) as Hn.
  assert (Hu : as_u64 (walk_price p (xorshift64 rng)) = walk_price p (xorshift64 rng)).
  { apply wrapu_small. unfold i64_max in Hpr. int_range. }
  pose proof (seed_qty_range (xorshift64 rng)) as Hq. rewrite Hu.
  destruct (decide (t < 60)) as [Hlt|Hlt].
  - eexists. split; [done|]. split; [by cbn|]. cbn. rewrite (Z.div_small (t - start) 60) by lia. done.
  - assert (Hd : t / 60 = (t - 60) / 60 + 1) by (replace t with (t - 60 + 1 * 60) at 1 by lia; by rewrite Z.div_add by lia).
    destruct (IH (t - 60) (walk_price p (xorshift64 rng)) (xorshift64 rng)) as (l & -> & Hw & Hl); [lia..| |].
    { pose proof (Z.div_pos (t - 60) 60). lia. }
    eexists. split; [done|]. split; [by cbn|]. cbn [length]. rewrite Nat2Z.inj_succ, Hl. case_decide as Hc.
    + replace (t - start) with (t - 60 - start + 1 * 60) by lia. rewrite Z.div_add by lia. lia.
    + rewrite (Z.div_small (t - start) 60) by lia. done.
Qed.

(** The walk ends on any clock: its fuel is the minutes since the epoch. *)
Lemma walk_back_total fuel start t p rng :
  0 ≤ t → (Z.to_nat (t / STEP_SECS) < fuel)%nat → ∃ l, walk_back fuel start t p rng = Ret l.
Proof.
  unfold STEP_SECS. revert t p rng. induction fuel as [|fuel IH]; intros t p rng Ht Hf; [lia|]. cbn [walk_back].
  case_decide; [|by eexists]. cbv zeta. unfold STEP_SECS. case_decide; [by eexists|].
  assert (Hd : t / 60 = (t - 60) / 60 + 1) by (replace t with (t - 60 + 1 * 60) at 1 by lia; by rewrite Z.div_add by lia).
  pose proof (Z.div_pos (t - 60) 60).
  destruct (IH (t - 60) (walk_price p (xorshift64 rng)) (xorshift64 rng)) as [l ->]; [lia..|]. by eexists.
Qed.

Lemma seed_history_total enabled st p now : ∃ r, post_debug_seed_history enabled st p now = Ret r.
Proof.
  unfold post_debug_seed_history. destruct (negb enabled); [by eexists|]. case_decide; [by eexists|].
  unfold seed_prints. cbv zeta. set (price := as_i64 _). set (rng := Z.lxor now _). clearbody price rng.
  set (start := sat_u 64 _). clearbody start.
  destruct (walk_back_total (S (S (Z.to_nat (now / STEP_SECS)))) start (sat_u 64 (now - STEP_SECS)) price rng) as [l ->].
  - unfold sat_u. lia.
  - unfold STEP_SECS. assert (Ht : 0 ≤ sat_u 64 (now - 60) ≤ Z.max 0 (now - 60)) by (unfold sat_u; lia).
    set (t := sat_u 64 (now - 60)) in *. clearbody t. destruct (decide (now < 60)) as [Hn|Hn].
    + assert (t = 0) as -> by lia. rewrite Z.div_0_l by lia. lia.
    + pose proof (Z.div_le_mono t now 60). pose proof (Z.div_pos t 60). lia.
  - by eexists.
Qed.

Lemma walked_times t p l : walked t p l → ∀ k r, l !! k = Some r → timestamp r = t - STEP_SECS * Z.of_nat k.
Proof.
  revert t p. induction l as [|x l IH]; intros t p Hw k r; [done|]. destruct Hw as (Ht & _ & _ & _ & Hw).
  destruct k as [|k]; cbn; [intros [= <-]; lia|]. intros Hk. rewrite (IH _ _ Hw k r Hk). lia.
Qed.

Lemma walked_ok t p l : in_u 64 t → walked t p l → Forall (λ r, 0 ≤ timestamp r → trade_ok r) l.
Proof.
  intros Hu. assert (Ht : t < 2 ^ 64) by int_range. clear Hu. revert t p Ht.
  induction l as [|x l IH]; intros t p Ht Hw; [constructor|]. destruct Hw as (Hx & Hp & Hq & _ & Hw).
  constructor; [|apply (IH (t - STEP_SECS) (price x)); [unfold STEP_SECS; lia|done]].
  intros H0. unfold trade_ok, i64_max in *. split_and!; int_range.
Qed.

(** Newest first, so the reverse is in time order. *)
Lemma walked_sorted t p l : walked t p l → in_order (rev l).
Proof.
  intros Hw. assert (Hle : ∀ l t p, walked t p l → Forall (λ r, timestamp r ≤ t) l).
  { clear. induction l as [|x l IH]; intros t p Hw; [constructor|]. destruct Hw as (Hx & _ & _ & _ & Hw).
    constructor; [lia|]. eapply Forall_impl; [by eapply IH|]. cbn. unfold STEP_SECS. lia. }
  revert t p Hw. induction l as [|x l IH]; intros t p Hw; [constructor|]. pose proof Hw as Hw0.
  destruct Hw as (Hx & _ & _ & _ & Hw). cbn [rev]. apply in_order_snoc. split; [by eapply IH|].
  intros a Ha. apply list_elem_of_In, in_rev, list_elem_of_In in Ha. specialize (Hle _ _ _ Hw).
  rewrite Forall_forall in Hle. specialize (Hle a Ha). unfold STEP_SECS in Hle. lia.
Qed.

(** ** Theorems *)

(** What a subscriber of any bucket receives for a mutation is what a query of the state right after
    it answers. *)
Theorem stream_matches_query cfg st m group :
  (λ r : option OrderBookResponse, regroup (Z.max (default 1 group) 1) <$> r) <$>
      broadcast_orderbook_update cfg true st m =
    Some <$> get_orderbook cfg st m (Some MAX_DEPTH_LEVELS) group.
Proof.
  unfold broadcast_orderbook_update, build_orderbook_response, get_orderbook, build_orderbook_response_grouped.
  change (clamp (default DEFAULT_DEPTH_LEVELS (Some MAX_DEPTH_LEVELS)) 1 MAX_DEPTH_LEVELS) with MAX_DEPTH_LEVELS.
  destruct (match books st !! m with Some book => Book.snapshot book _ | None => _ end) as [snap|]; [|done].
  destruct (match backstop st !! m with Some b => reference_price b cfg | None => _ end) as [mark|]; [|done].
  rewrite !ret_bind. unfold regroup. cbn.
  by rewrite !group_levels_raw.
Qed.

(** The seeded history.  When the span asked for is not before the epoch, the endpoint returns
    (its loop ends), replaces the tape of that market and nothing else, and reports one print a
    minute.  Its newest print is the given price at the present time; every older one is a minute
    before the next, is at least 1, and moved from it by at most 2 in 1000; the tape is in time order
    and holds the prints of the last 14 days; the last price it shows is the given one. *)
Theorem seed_history_correct st p now :
  in_u 64 now → 1 ≤ sh_start_tick p ≤ i64_max → 1 ≤ sh_days p → sh_days p * 86400 ≤ now →
  ∃ newest older tape,
    post_debug_seed_history true st p now =
      Ret (set_market_data st (<[sh_market_id p := tape]> (market_data st)), Ok (S (length older))) ∧
    Z.of_nat (length older) = sh_days p * 1440 ∧
    timestamp newest = now ∧ price newest = sh_start_tick p ∧
    walked (now - STEP_SECS) (sh_start_tick p) older ∧
    in_order (trades tape) ∧ trades tape = within WINDOW_SECONDS (rev older ++ [newest]) ∧
    last_price (MarketData.snapshot tape) = Some (sh_start_tick p) ∧
    last_trade_at (MarketData.snapshot tape) = Some now.
Proof.
  intros Hnow Htick Hd Hspan. unfold post_debug_seed_history. cbn [negb]. rewrite decide_False by lia.
  set (span := sh_days p * 86400) in *.
  assert (Hw : wrapu 64 (sh_days p * 24 * 60 * 60) = span) by (rewrite wrapu_small; [lia|int_range]). rewrite Hw.
  unfold seed_prints. assert (Hs : sat_u 64 (now - span) = now - span) by (unfold sat_u; int_range).
  assert (Ht : sat_u 64 (now - STEP_SECS) = now - 60) by (unfold sat_u, STEP_SECS; int_range). rewrite Hs, Ht.
  assert (Hp : as_i64 (sh_start_tick p) = sh_start_tick p) by (apply wraps_small; [lia|unfold in_s, i64_max in *; lia]).
  rewrite Hp. set (rng := Z.lxor now _).
  destruct (walk_back_spec (S (S (Z.to_nat (now / STEP_SECS)))) (now - span) (now - 60) (sh_start_tick p) rng)
    as (older & -> & Hwalk & Hlen); [lia..| |].
  { unfold STEP_SECS. pose proof (Z.div_le_mono (now - 60) now 60). lia. }
  assert (Hu : as_u64 (sh_start_tick p) = sh_start_tick p) by (apply wrapu_small; unfold i64_max in Htick; int_range).
  rewrite !ret_bind, Hu. cbv zeta. set (newest := {| timestamp := now |}).
  rewrite decide_True in Hlen by lia. unfold STEP_SECS in Hlen.
  replace (now - 60 - (now - span)) with ((sh_days p * 1440 - 1) * 60) in Hlen by (unfold span; lia).
  rewrite Z.div_mul in Hlen by lia.
  assert (Hin : in_order (rev older ++ [newest])).
  { apply (walked_sorted now (sh_start_tick p) (newest :: older)). cbn. split_and!; try done; lia || apply seed_qty_range. }
  assert (Hok : Forall trade_ok (rev older ++ [newest])).
  { apply Forall_app. split.
    - apply Forall_rev. apply Forall_lookup. intros k r Hk.
      pose proof (walked_times _ _ _ Hwalk k r Hk) as Hkt. pose proof (lookup_lt_Some _ _ _ Hk). unfold STEP_SECS in Hkt.
      pose proof (walked_ok (now - 60) (sh_start_tick p) older ltac:(int_range) Hwalk) as Hall.
      rewrite Forall_lookup in Hall. apply (Hall k r Hk). unfold span in *. lia.
    - constructor; [|constructor]. pose proof (seed_qty_range rng). unfold trade_ok, i64_max in *. cbn.
      split_and!; int_range. }
  exists newest, older, (record_all (rev older ++ [newest])). pose proof (record_all_within _ Hin Hok) as Hrec.
  assert (Hnp : snapshot_of (rev older ++ [newest]) (MarketData.snapshot (record_all (rev older ++ [newest]))))
    by by apply record_all_snapshot.
  split_and!; try done.
  - lia.
  - rewrite Hrec. unfold within. destruct (last _); [by apply in_order_filter|constructor].
  - rewrite (so_price _ _ Hnp), last_snoc. done.
  - rewrite (so_at _ _ Hnp), last_snoc. done.
Qed.

Definition demo_seed : SeedHistoryPayload := {| sh_market_id := "EURC/USDC"; sh_start_tick := 115585; sh_days := 1 |}.

Lemma seed_history_correct_witness :
  ∃ tape, post_debug_seed_history true new_state demo_seed 1700000000 =
            Ret (set_market_data new_state {["EURC/USDC" := tape]}, Ok 1441%nat) ∧
          last_price (MarketData.snapshot tape) = Some 115585 ∧ in_order (trades tape).
Proof.
  destruct (seed_history_correct new_state demo_seed 1700000000) as (newest & older & tape & Hrun & Hlen & _ & _ & _ & Ho & _ & Hl & _);
    [split; vm_compute; congruence..|split; vm_compute; congruence|vm_compute; congruence|vm_compute; congruence|].
  exists tape. split; [|by split]. rewrite Hrun. cbn [sh_days demo_seed] in Hlen.
  assert (length older = 1440%nat) as -> by lia. done.
Defined.
