(* ===== verification/Tasks.v ===== *)
(** * Background tasks and unsigned endpoints between their locks ([api.rs], [main.rs])

    What [Service] and [Display] define as one transition, cut at the locks of [AppState] as
    [Interleave] cuts the signed handlers: one step is what a task does while it holds one mutex, and
    what it awaits is answered between steps.  The snapshot of the persist loop is one step, because
    the guards of its five locks are temporaries of one expression and all live to its end.
    [completes] runs one task alone, for comparison with its sequential definition, [perform]. *)
From S2P Require Import Prelude Ints Types U256 I256 Risk Averages Fees MarketData Backstop.
From S2P Require Import Positions Liquidation Book Wire Matcher MatcherTrace Persistence Service Display.
Open Scope Z_scope.

(** ** What surrounds the enclave *)

(** The configuration the tasks use, and what they call that never changes. *)
Record Host := {
  ho_u256 : U256;
  ho_rpc_url : option string;
  ho_signature : Z;
  ho_sort : list MarketId → list MarketId;
  ho_feeds : gmap MarketId string;
  ho_contracts : gmap MarketId Address;
  ho_monitor : option Address;
  ho_seeding : bool;
}.

(** What the chain, the price feed and the clock answer at one step. *)
Record Answers := {
  an_load : Key → MarketId → option (SealedBlob * Z);
  an_provider : Provider;
  an_live : list MarketId → gmap MarketId Z;
  an_funding : gmap MarketId Z;
  an_broadcast : Address → LiquidationSweep → option Z;
  an_now : Z;
}.

(** The enclave as it sees the chain at that step. *)
Definition at_chain (E : Enclave) (load : Key → MarketId → option (SealedBlob * Z)) : Enclave := {|
  en_i256 := en_i256 E; en_load := load; en_key := en_key E; en_keccak := en_keccak E; en_dep := en_dep E |}.

(** ** The reads of a portfolio *)

(** The hints enter the index, under its lock. *)
Definition open_portfolio (st : AppState) (k : Key) (hints : list MarketId) : AppState * list MarketId :=
  let entry := default ∅ (portfolio_markets st !! k) ∪ list_to_set hints in
  (set_portfolio_markets st (<[k := entry]> (portfolio_markets st)), elements entry).

(** One position, from the cache or, when it is not there, from the chain. *)
Definition read_position (load : Key → MarketId → option (SealedBlob * Z)) (st : AppState) (k : Key) (m : MarketId) :
    list PortfolioMarketState :=
  option_list (load_single_market_state_cached load (position_cache st) k m).

(** ** Program points *)

(** What a portfolio is read for. *)
Inductive Purpose :=
| Checking
| Attesting (trader : Address)
| Liquidating (liquidator : Address).

Inductive TaskOutcome :=
| Polled
| Flushed (batch : option RealizedPnlBatch)
| Saved (p : PersistedState)
| Seeded (r : result nat SeedError)
| Checked (liquidatable : bool)
| Attested (call : option PortfolioMarginCall)
| Liquidated (r : result LiquidateResponse RiskError).

(** The locals of a liquidation once its margin is known. *)
Record Sizing := {
  sz_key : Key;
  sz_liquidator : Address;
  sz_markets : list MarketId;
  sz_margin : MarginResult;
  sz_live : gmap MarketId Z;
  sz_funding : gmap MarketId Z;
}.

Inductive TaskPc :=
| AtOracle
| AtRecord (prices : list (MarketId * Z))
| AtScan (rest : list (MarketId * Address))
| AtScanned (m : MarketId) (keys : list Key) (next : Z) (rest : list (MarketId * Address))
| AtFlush
| AtSave
| AtSeed (p : SeedHistoryPayload)
| AtIndex (u : Purpose) (k : Key) (hints : list MarketId)
| AtRead (u : Purpose) (k : Key) (rest : list MarketId) (found : list PortfolioMarketState)
| AtReread (k : Key) (liquidator : Address) (markets rest : list MarketId) (found : list PortfolioMarketState)
| AtLeg (z : Sizing) (rest : list PortfolioMarketState) (legs : list LiquidationLegDelta)
| AtInvalidate (k : Key) (rest : list MarketId) (r : LiquidateResponse)
| TaskDone (o : TaskOutcome).

(** What a portfolio without positions comes to. *)
Definition nothing_found (u : Purpose) : TaskOutcome :=
  match u with
  | Checking => Checked false
  | Attesting _ => Attested None
  | Liquidating _ => Liquidated (Ok not_executed)
  end.

Section tasks.
Context (E : Enclave) (H : Host).
#[local] Instance ho_u256_inst : U256 := ho_u256 H.
#[local] Instance task_i256_inst : I256 := en_i256 E.
Abbreviation onchain_id := (onchain (en_dep E)).

(** The end of the scan of one market: its entry, under the lock. *)
Definition store_scan (st : AppState) (m : MarketId) (new_keys : list Key) (next_block : Z) : AppState :=
  let keys := match oi_index st !! m with Some (keys, _) => keys | None => ∅ end in
  set_oi_index st (<[m := (keys ∪ list_to_set new_keys, next_block)]> (oi_index st)).

(** What follows the reads of a portfolio that has positions. *)
Definition portfolio_read (an : Answers) (u : Purpose) (k : Key) (found : list PortfolioMarketState) : exec TaskPc :=
  let ids := pm_market_id <$> found in
  match u with
  | Checking =>
      r ← compute_margin found (an_live an ids);
      Ret (TaskDone (Checked match r with Ok margin => maintenance_breached margin | Err _ => false end))
  | Attesting trader =>
      r ← compute_margin found (an_live an ids);
      Ret (TaskDone (Attested match r with
        | Ok margin =>
            submit_portfolio_margin (ho_rpc_url H) trader (margin_requirement margin)
              (u64_add (an_now an) PORTFOLIO_MARGIN_ATTESTATION_TTL_SECS) (ho_monitor H)
        | Err _ => None
        end))
  | Liquidating liquidator => let ids := ho_sort H ids in Ret (AtReread k liquidator ids ids [])
  end.

(** What follows the reads under the locks of the positions. *)
Definition portfolio_locked (an : Answers) (k : Key) (liquidator : Address) (markets : list MarketId)
    (states : list PortfolioMarketState) : exec TaskPc :=
  if decide (states = []) then Ret (TaskDone (Liquidated (Ok not_executed)))
  else
    r ← compute_margin states (an_live an markets);
    Ret match r with
        | Err e => TaskDone (Liquidated (Err e))
        | Ok margin =>
            if negb (maintenance_breached margin) then TaskDone (Liquidated (Ok not_executed))
            else AtLeg {| sz_key := k; sz_liquidator := liquidator; sz_markets := markets; sz_margin := margin;
                          sz_live := an_live an markets; sz_funding := an_funding an |} states []
        end.

(** The calls of a liquidation, once every leg is sized. *)
Definition send_liquidation (an : Answers) (z : Sizing) (legs : list LiquidationLegDelta) : exec TaskPc :=
  reward ← liquidator_reward (sz_margin z) (close_bps (sz_margin z));
  let sweep := {| ls_portfolio_key := sz_key z; ls_margin_requirement := margin_requirement (sz_margin z);
                  ls_legs := legs; ls_liquidator := sz_liquidator z; ls_liquidator_reward := reward |} in
  let results := liquidate_sealed (an_broadcast an) sweep
                   (list_to_map ((λ '(m, c), (onchain_id m, c)) <$> map_to_list (ho_contracts H))) in
  let hashes := omap id results in
  Ret (AtInvalidate (sz_key z) (if bool_decide (None ∈ results) then sz_markets z else [])
         {| executed := negb (bool_decide (hashes = [])); tx_hashes := hashes |}).

(** ** One step of a task *)

Definition advance_task (an : Answers) (st : AppState) (pc : TaskPc) : exec (AppState * TaskPc) :=
  match pc with
  | AtOracle =>
      let prices := map_to_list (an_live an (fst <$> map_to_list (ho_feeds H))) in
      Ret (st, if decide (ho_feeds H = ∅ ∨ prices = []) then TaskDone Polled else AtRecord prices)
  | AtRecord prices =>
      Ret (foldl (λ st e, put_maker st e.1 (record_price (maker_of st e.1) (as_u64 e.2))) st prices, TaskDone Polled)
  | AtScan [] => Ret (st, TaskDone Polled)
  | AtScan ((m, c) :: rest) =>
      let from_block := match oi_index st !! m with Some (_, next) => next | None => 0 end in
      found ← index_open_interest (ho_rpc_url H) (ho_signature H) (an_provider an) (onchain_id m) (Some c) from_block;
      Ret (st, match found with Ok (keys, next) => AtScanned m keys next rest | Err _ => AtScan rest end)
  | AtScanned m keys next rest => Ret (store_scan st m keys next, AtScan rest)
  | AtFlush =>
      let '(st, batch) := realized_pnl_flush (ho_rpc_url H) (collateral_check (en_dep E)) st in
      Ret (st, TaskDone (Flushed batch))
  | AtSave => Ret (st, TaskDone (Saved (snapshot_for_persistence st)))
  | AtSeed p => '(st, r) ← post_debug_seed_history (ho_seeding H) st p (an_now an); Ret (st, TaskDone (Seeded r))
  | AtIndex u k hints =>
      match u, ho_monitor H with
      | Attesting _, None => Ret (st, TaskDone (Attested None))
      | _, _ => let '(st, markets) := open_portfolio st k hints in Ret (st, AtRead u k markets [])
      end
  | AtRead u k (m :: rest) found => Ret (st, AtRead u k rest (found ++ read_position (an_load an) st k m))
  | AtRead u k [] found =>
      if decide (found = []) then Ret (st, TaskDone (nothing_found u))
      else pc ← portfolio_read an u k found; Ret (st, pc)
  | AtReread k liq markets (m :: rest) found =>
      Ret (st, AtReread k liq markets rest (found ++ read_position (an_load an) st k m))
  | AtReread k liq markets [] found => pc ← portfolio_locked an k liq markets found; Ret (st, pc)
  | AtLeg z (m :: rest) legs =>
      '(cache, leg) ← size_leg onchain_id (sz_key z) (close_bps (sz_margin z)) (sz_live z) (sz_funding z)
                        (position_cache st) m;
      Ret (set_positions st cache (pending_realized_pnl st), AtLeg z rest (legs ++ [leg]))
  | AtLeg z [] legs => pc ← send_liquidation an z legs; Ret (st, pc)
  | AtInvalidate k (m :: rest) r =>
      Ret (set_positions st (invalidate_position (position_cache st) k m) (pending_realized_pnl st), AtInvalidate k rest r)
  | AtInvalidate k [] r => Ret (st, TaskDone (Liquidated (Ok r)))
  | TaskDone o => Ret (st, pc)
  end.

(** ** One task alone *)

(** The task runs to its outcome, or aborts, with nothing between its steps. *)
Inductive completes (an : Answers) : AppState → TaskPc → exec (AppState * TaskOutcome) → Prop :=
| completes_done st o : completes an st (TaskDone o) (Ret (st, o))
| completes_panic st pc : advance_task an st pc = Panic → completes an st pc Panic
| completes_step st pc st' pc' res :
    (∀ o, pc ≠ TaskDone o) → advance_task an st pc = Ret (st', pc') → completes an st' pc' res →
    completes an st pc res.

(** The tasks of [main.rs] and the unsigned endpoints that write. *)
Inductive Job :=
| OraclePoll
| InterestPoll (contracts : list (MarketId * Address))
| PnlFlush
| PersistSnapshot
| SeedHistory (p : SeedHistoryPayload)
| LiquidationCheck (k : Key) (hints : list MarketId)
| Attestation (trader : Address) (k : Key)
| Liquidation (k : Key) (liquidator : Address) (hints : list MarketId).

Definition start (j : Job) : TaskPc :=
  match j with
  | OraclePoll => AtOracle
  | InterestPoll contracts => AtScan contracts
  | PnlFlush => AtFlush
  | PersistSnapshot => AtSave
  | SeedHistory p => AtSeed p
  | LiquidationCheck k hints => AtIndex Checking k hints
  | Attestation trader k => AtIndex (Attesting trader) k []
  | Liquidation k liquidator hints => AtIndex (Liquidating liquidator) k hints
  end.

Definition with_outcome {A} (f : A → TaskOutcome) (m : exec (AppState * A)) : exec (AppState * TaskOutcome) :=
  '(st, a) ← m; Ret (st, f a).

(** The same job as one transition. *)
Definition perform (an : Answers) (st : AppState) (j : Job) : exec (AppState * TaskOutcome) :=
  match j with
  | OraclePoll =>
      Ret (poll_oracle_prices (ho_feeds H) st (map_to_list (an_live an (fst <$> map_to_list (ho_feeds H)))), Polled)
  | InterestPoll contracts =>
      st ← poll_open_interest (ho_rpc_url H) (ho_signature H) onchain_id st ((λ e, (e, an_provider an)) <$> contracts);
      Ret (st, Polled)
  | PnlFlush => with_outcome Flushed (Ret (realized_pnl_flush (ho_rpc_url H) (collateral_check (en_dep E)) st))
  | PersistSnapshot => Ret (st, Saved (snapshot_for_persistence st))
  | SeedHistory p => with_outcome Seeded (post_debug_seed_history (ho_seeding H) st p (an_now an))
  | LiquidationCheck k hints => with_outcome Checked (post_liquidation_check (an_load an) (an_live an) st k hints)
  | Attestation trader k =>
      with_outcome Attested (attest_portfolio_margin (an_load an) (an_live an) (ho_rpc_url H) (ho_monitor H) (an_now an) st trader k)
  | Liquidation k liquidator hints =>
      with_outcome Liquidated (liquidate (an_load an) (an_live an) (ho_sort H) onchain_id (ho_contracts H) (an_funding an)
        (an_broadcast an) st k liquidator hints)
  end.
End tasks.
