(* ===== verification/TasksProps.v ===== *)
(** * Background tasks between their locks: theorems

    A task alone, lock by lock, terminates and does what its sequential definition says. *)
From S2P Require Import Prelude Ints Types U256 I256 Risk Averages Fees MarketData Backstop.
From S2P Require Import Positions Liquidation Book Wire Matcher MatcherTrace Persistence Service Display Tasks.
Open Scope Z_scope.

Section alone.
Context (E : Enclave) (H : Host) (an : Answers).
#[local] Instance al_u256 : U256 := ho_u256 H.
#[local] Instance al_i256 : I256 := en_i256 E.
Abbreviation runs := (completes E H an).
Abbreviation onchain_id := (onchain (en_dep E)).

Lemma runs_next st pc res :
  (∀ o, pc ≠ TaskDone o) →
  match advance_task E H an st pc with
  | Ret (st', pc') => runs st' pc' res
  | Panic => res = Panic
  end → runs st pc res.
Proof.
  intros Hpc. destruct (advance_task E H an st pc) as [[st' pc']|] eqn:Ha.
  - by apply completes_step.
  - intros ->. by apply completes_panic.
Qed.

Lemma runs_det st pc res res' : runs st pc res → runs st pc res' → res = res'.
Proof.
  intros Hr. revert res'. induction Hr as [st o|st pc Ha|st pc st1 pc1 res Hf Ha _ IH]; intros res' H'; inversion H'; subst;
    try done; try congruence; try (by edestruct Hf).
  apply IH. congruence.
Qed.

(** One step, its outcome computed. *)
Ltac task_one := apply runs_next; [done|]; cbn [advance_task].

Lemma runs_scan st contracts :
  runs st (AtScan contracts)
    (st' ← poll_open_interest (ho_rpc_url H) (ho_signature H) onchain_id st ((λ e, (e, an_provider an)) <$> contracts);
     Ret (st', Polled)).
Proof.
  revert st. induction contracts as [|[m c] rest IH]; intros st; task_one; [constructor|].
  rewrite fmap_cons. cbn [poll_open_interest]. unfold poll_market. cbv zeta.
  destruct (index_open_interest _ _ _ _ _ _) as [[[keys next]|e]|]; [| |done]; rewrite !ret_bind; cbv beta iota.
  - task_one. apply IH.
  - apply IH.
Qed.

(** The reads of a portfolio, whatever follows. *)
Lemma runs_read st u k rest found res :
  runs st (AtRead u k [] (found ++ omap (load_single_market_state_cached (an_load an) (position_cache st) k) rest)) res →
  runs st (AtRead u k rest found) res.
Proof.
  revert found. induction rest as [|m rest IH]; intros found; [by rewrite app_nil_r|].
  intros Hr. task_one. apply IH. unfold read_position. rewrite <- app_assoc. cbn in Hr.
  by destruct (load_single_market_state_cached _ _ _ m).
Qed.

Lemma runs_reread st k liq ms rest found res :
  runs st (AtReread k liq ms [] (found ++ omap (load_single_market_state_cached (an_load an) (position_cache st) k) rest)) res →
  runs st (AtReread k liq ms rest found) res.
Proof.
  revert found. induction rest as [|m rest IH]; intros found; [by rewrite app_nil_r|].
  intros Hr. task_one. apply IH. unfold read_position. rewrite <- app_assoc. cbn in Hr.
  by destruct (load_single_market_state_cached _ _ _ m).
Qed.

Lemma set_positions_twice st c1 c2 p : set_positions (set_positions st c1 p) c2 p = set_positions st c2 p.
Proof. done. Qed.

Lemma runs_legs z st rest legs res :
  match size_legs onchain_id (sz_key z) (close_bps (sz_margin z)) (sz_live z) (sz_funding z) (position_cache st) rest with
  | Ret (cache, more) =>
      runs (set_positions st cache (pending_realized_pnl st)) (AtLeg z [] (legs ++ more)) res
  | Panic => res = Panic
  end → runs st (AtLeg z rest legs) res.
Proof.
  revert st legs. induction rest as [|m rest IH]; intros st legs; cbn [size_legs].
  - rewrite app_nil_r. by destruct st.
  - intros Hr. task_one. destruct (size_leg _ _ _ _ _ _ m) as [[cache leg]|]; [|exact Hr].
    rewrite ?ret_bind in Hr; rewrite ?ret_bind; cbv beta iota in Hr |- *. apply IH. cbn [position_cache set_positions pending_realized_pnl].
    destruct (size_legs _ _ _ _ _ cache rest) as [[cache' more]|]; [|exact Hr].
    rewrite ret_bind in Hr. cbv beta iota in Hr. by rewrite <- app_assoc.
Qed.

Lemma runs_invalidate k rest r st :
  runs st (AtInvalidate k rest r)
    (Ret (set_positions st (foldl (λ c m, invalidate_position c k m) (position_cache st) rest) (pending_realized_pnl st),
          Liquidated (Ok r))).
Proof.
  revert st. induction rest as [|m rest IH]; intros st; task_one.
  - destruct st. constructor.
  - apply IH.
Qed.

(** From the locks of the positions on. *)
Lemma runs_locked st k liq markets states :
  runs st (AtReread k liq markets [] states)
    (with_outcome Liquidated
      (if decide (states = []) then Ret (st, Ok not_executed)
       else
         let live_prices := an_live an markets in
         r ← compute_margin states live_prices;
         match r with
         | Err e => Ret (st, Err e)
         | Ok margin =>
             if negb (maintenance_breached margin) then Ret (st, Ok not_executed)
             else
               '(cache, legs, bps) ← size_liquidation_legs onchain_id (position_cache st) k states margin live_prices (an_funding an);
               reward ← liquidator_reward margin bps;
               let sweep := {| ls_portfolio_key := k; ls_margin_requirement := margin_requirement margin;
                               ls_legs := legs; ls_liquidator := liq; ls_liquidator_reward := reward |} in
               let results := liquidate_sealed (an_broadcast an) sweep
                                (list_to_map ((λ '(m, c), (onchain_id m, c)) <$> map_to_list (ho_contracts H))) in
               let cache := if bool_decide (None ∈ results) then foldl (λ c m, invalidate_position c k m) cache markets else cache in
               let hashes := omap id results in
               Ret (set_positions st cache (pending_realized_pnl st),
                    Ok {| executed := negb (bool_decide (hashes = [])); tx_hashes := hashes |})
         end)).
Proof.
  task_one. unfold portfolio_locked, with_outcome. case_decide; [constructor|]. cbv zeta.
  destruct (compute_margin states _) as [[margin|e]|]; [| |done]; rewrite !ret_bind; [|constructor].
  cbv beta iota. destruct (maintenance_breached margin); [|constructor]. cbn [negb].
  unfold size_liquidation_legs. cbv zeta.
  apply runs_legs. cbn [sz_key sz_margin sz_live sz_funding].
  destruct (size_legs _ _ _ _ _ _ states) as [[cache legs]|]; [|done]. rewrite !ret_bind. cbv beta iota.
  task_one. unfold send_liquidation. cbn [sz_key sz_margin sz_markets sz_liquidator app].
  destruct (liquidator_reward margin _) as [reward|]; [|done]. rewrite !ret_bind. cbv zeta.
  match goal with |- runs ?s (AtInvalidate _ ?ms ?r) _ => pose proof (runs_invalidate k ms r s) as Hinv end.
  refine (eq_ind _ (λ res, runs _ _ res) Hinv _ _). clear Hinv. apply (f_equal Ret), (f_equal2 pair); [|done].
  by case_bool_decide.
Qed.

Lemma completes_perform st j : runs st (start j) (perform E H an st j).
Proof.
  destruct j as [|contracts| | |p|k hints|trader k|k liq hints]; cbn [start perform].
  - task_one. unfold poll_oracle_prices. destruct (decide (ho_feeds H = ∅)) as [Hf|Hf].
    + rewrite decide_True by (by left). constructor.
    + case_decide as Hd; [|task_one; constructor]. destruct Hd as [?|Hd]; [done|]. rewrite Hd. constructor.
  - apply runs_scan.
  - task_one. unfold with_outcome. destruct (realized_pnl_flush _ _ st). constructor.
  - task_one. constructor.
  - task_one. unfold with_outcome. destruct (post_debug_seed_history _ st p _) as [[st' r]|]; [constructor|done].
  - task_one. unfold open_portfolio, post_liquidation_check, portfolio_state, load_portfolio_state, with_outcome. cbv zeta.
    apply runs_read. cbn [app]. task_one. cbn [position_cache set_portfolio_markets].
    case_decide; [constructor|]. cbn [portfolio_read].
    destruct (compute_margin _ _) as [r|]; [|done]. rewrite !ret_bind. constructor.
  - task_one. unfold attest_portfolio_margin, with_outcome. destruct (ho_monitor H) as [monitor|] eqn:Hm; [|constructor].
    unfold open_portfolio, portfolio_state, load_portfolio_state. cbv zeta.
    apply runs_read. cbn [app]. task_one. cbn [position_cache set_portfolio_markets].
    case_decide; [constructor|]. cbn [portfolio_read].
    destruct (compute_margin _ _) as [r|]; [|done]. rewrite !ret_bind, Hm. constructor.
  - task_one. unfold open_portfolio, liquidate, post_liquidate, load_portfolio_state. cbv zeta.
    cbn [l_index l_cache]. apply runs_read. cbn [app]. task_one. cbn [position_cache set_portfolio_markets].
    case_decide; [constructor|]. cbn [portfolio_read]. rewrite ret_bind. apply runs_reread. cbn [app position_cache set_portfolio_markets].
    match goal with |- runs ?s (AtReread ?k ?l ?ms [] ?f) _ => pose proof (runs_locked s k l ms f) as Hr end.
    refine (eq_ind _ (λ res, runs _ _ res) Hr _ _). clear Hr. unfold with_outcome. cbv zeta.
    cbn [position_cache set_portfolio_markets pending_realized_pnl].
    case_decide; [done|]. destruct (compute_margin _ _) as [[margin|e]|]; [|done|done]. rewrite !ret_bind. cbv beta iota.
    destruct (maintenance_breached margin); [|done]. cbn [negb].
    destruct (size_liquidation_legs _ _ _ _ _ _ _) as [[[cache legs] bps]|]; [|done]. rewrite !ret_bind. cbv beta iota.
    by destruct (liquidator_reward margin bps).
Qed.
End alone.

(** ** What a task leaves alone *)

Section frames.
Context (E : Enclave) (H : Host).
#[local] Instance fr_u256 : U256 := ho_u256 H.
#[local] Instance fr_i256 : I256 := en_i256 E.

(** No task touches the nonces, the books or the owners; only the oracle's prices move the backstop, and
    only a scan the index of interest. *)
Lemma advance_task_frame an st pc st' pc' :
  advance_task E H an st pc = Ret (st', pc') →
  last_nonce st' = last_nonce st ∧ books st' = books st ∧ owner_addresses st' = owner_addresses st ∧
  match pc with
  | AtRecord prices => backstop st' = backstop (foldl (λ st e, put_maker st e.1 (record_price (maker_of st e.1) (as_u64 e.2))) st prices)
  | _ => backstop st' = backstop st
  end ∧
  match pc with
  | AtScanned m keys next _ => oi_index st' = oi_index (store_scan st m keys next)
  | _ => oi_index st' = oi_index st
  end.
Proof.
  destruct pc as [|prices|[|[m c] rest]|m keys next rest| | |p|u k hints|u k [|m rest] found|k liq ms [|m rest] found|z [|m rest] legs|k [|m rest] r|o];
    cbn [advance_task]; intros Hr; try (by injection Hr as <- <-);
    try (apply bind_Ret in Hr as (x & _ & Hr); try (destruct x as [? ?]); by injection Hr as <- <-).
  - injection Hr as <- <-. split_and!; try done; clear; revert st; induction prices as [|e prices IH]; intros st; cbn [foldl];
      try done; by rewrite IH.
  - unfold realized_pnl_flush, drain_realized_pnl in Hr. case_decide; by injection Hr as <- <-.
  - apply bind_Ret in Hr as ([st1 r] & H1 & Hr). injection Hr as <- <-. unfold post_debug_seed_history in H1.
    destruct (negb _); [by injection H1 as <- _|]. case_decide; [by injection H1 as <- _|].
    apply bind_Ret in H1 as (b & _ & [= <- _]). done.
  - unfold open_portfolio in Hr. destruct u; [by injection Hr as <- <-|destruct (ho_monitor H); by injection Hr as <- <-|by injection Hr as <- <-].
  - case_decide; [by injection Hr as <- <-|]. apply bind_Ret in Hr as (x & _ & Hr). by injection Hr as <- <-.
Qed.
End frames.

(** A background task or unsigned endpoint that runs alone terminates, and what it does, lock by
    lock, is what its sequential definition computes: the oracle poll, the open-interest scan, the flush,
    the snapshot, the seeding, the liquidation check, the margin attestation and the liquidation reach
    exactly the state and the outcome of [perform], and abort exactly when that does. *)
Lemma tasks_alone E H an st j res : completes E H an st (start j) res ↔ res = perform E H an st j.
Proof.
  split; [|intros ->; apply completes_perform]. intros Hr. exact (runs_det _ _ _ _ _ _ _ Hr (completes_perform E H an st j)).
Qed.
