(* ===== verification/Interleave.v ===== *)
(** * Handlers between their locks

    The signed endpoints of [api.rs] cut at their locks: one step is what a handler does while it
    holds one mutex, so the steps of any number of handlers interleave as threads of the runtime do,
    and so do those of the background tasks ([Tasks]).  The gate reads the portfolio position by position.
    A fold is one step because [lock_position] is held across it ([PositionLocks]).
    The broadcast of a changed book is a step for each of its four locks.
    [drives] runs one handler alone, for comparison with [Matcher.handle]; [sys_step] is the enclave with many handlers and tasks at once, where
    the chain may have changed at each step.  Theorems in [InterleaveProps] and [SystemProps]. *)
From S2P Require Import Prelude Ints Types U256 I256 Risk Averages Fees MarketData Backstop.
From S2P Require Import Positions Liquidation Book Wire Matcher MatcherTrace Persistence Service Display Tasks.
Open Scope Z_scope.

(** ** Program points *)

(** The locals of the loop over the fills. *)
Record Sweeping := {
  sw_result : SubmitResult;
  sw_volume : Z;
  sw_funding : Z;
  sw_index : nat;
  sw_acc : SweepAcc;
  sw_rest : list Fill;
}.

(** What a handler does after the update of its book has gone out. *)
Inductive After :=
| AfterOrder (r : SubmitResult)
| AfterOffer (r : SubmitResult)
| AfterCancel (tick qty : Z).

Inductive Pc :=
| AtNonce
| AtGate
| AtGateRead (rest : list MarketId) (found : list PortfolioMarketState)
| AtRegister
| AtSubmit
| AtBackstop (now : Z) (r : SubmitResult)
| AtCancelRested (now : Z) (r : SubmitResult) (id : OrderId) (price filled : Z)
| AtTape (now : Z) (r : SubmitResult)
| AtHistory (r : SubmitResult)
| AtNotify (k : After)
| AtBookView (k : After)
| AtTapeView (k : After) (book : BookSnapshot)
| AtMarkView (k : After) (book : BookSnapshot) (tape : MarketSnapshot)
| AtVolume (r : SubmitResult)
| AtOwner (sw : Sweeping)
| AtMakerFold (sw : Sweeping) (f : Fill) (maker : Address)
| AtMakerQueue (sw : Sweeping) (f : Fill) (maker : Address) (delta realized : Z)
| AtMakerSeal (sw : Sweeping) (f : Fill) (maker : Address) (delta : Z)
| AtMakerIndex (sw : Sweeping) (f : Fill) (leg : MakerFill)
| AtTakerFold (sw : Sweeping) (f : Fill) (leg : MakerFill)
| AtTakerQueue (sw : Sweeping) (f : Fill) (leg : MakerFill) (delta realized : Z)
| AtAddVolume (sw : Sweeping)
| AtTakerSeal (sw : Sweeping)
| AtTakerIndex (sw : Sweeping) (sweep : TakerSweep)
| AtReply (r : SubmitResult)
| Finished (r : Response).

Definition sweep_start (r : SubmitResult) (volume funding : Z) : Sweeping :=
  {| sw_result := r; sw_volume := volume; sw_funding := funding; sw_index := 0;
     sw_acc := {| sa_legs := []; sa_collateral_delta := 0; sa_weighted_price := 0; sa_provable := [] |};
     sw_rest := fills r |}.

(** The next iteration. *)
Definition sweep_next (sw : Sweeping) (acc : SweepAcc) (rest : list Fill) : Sweeping :=
  {| sw_result := sw_result sw; sw_volume := sw_volume sw; sw_funding := sw_funding sw;
     sw_index := S (sw_index sw); sw_acc := acc; sw_rest := rest |}.

(** What an order asks of the backstop after the book: a request, and whether it must be whole. *)
Definition demand (o : NewOrder) (r : SubmitResult) : option Z :=
  let leftover := sat_u 64 (no_qty o - foldl u64_add 0 (f_qty <$> fills r)) in
  if (is_ioc (no_tif o) && bool_decide (0 < leftover)) || fill_or_kill_failed r then
    Some (if fill_or_kill_failed r then no_qty o else leftover)
  else None.

(** The proofs are started once the loop is over. *)
Definition order_done (sw : Sweeping) (sweep : option TakerSweep) : Pc :=
  Finished (ROrder {| oo_response := Ok (order_response (sw_result sw)); oo_sweep := sweep;
                      oo_proofs := chunk_for_batching (sa_provable (sw_acc sw)) |}).

Definition resume (k : After) : Pc :=
  match k with
  | AfterOrder r => AtVolume r
  | AfterOffer r => AtReply r
  | AfterCancel tick qty => Finished (RCancel (Ok (Cancelled tick qty)))
  end.

(** Where a nonce sends a handler. *)
Definition check_nonce (st : AppState) (signer nonce : Z) (ok : Pc) (refuse : ApiError → Response) :
    AppState * Pc :=
  match accept_nonce st signer nonce with
  | Err e => (st, Finished (refuse e))
  | Ok st => (st, ok)
  end.

Section handlers.
Context (E : Enclave).
#[local] Instance en_i256_inst : I256 := en_i256 E.

(** [record_prints] by its two locks. *)
Definition record_tape (st : AppState) (m : MarketId) (fs : list Fill) (now : Z) : AppState :=
  set_market_data st
    (<[m := foldl (λ t f, MarketData.record t now (f_tick f) (f_qty f)) (tape_of st m) fs]> (market_data st)).
Definition record_history (st : AppState) (m : MarketId) (fs : list Fill) : AppState :=
  put_maker st m (foldl (λ s f, record_price s (f_tick f)) (maker_of st m) fs).

(** [broadcast_orderbook_update] by its four locks: the channel of the market, if it has one, then the
    book, the tape and the backstop of the response.  The response goes to the channel, which is
    tokio's: its subscribers are in [Display], and the state is as it was. *)
Definition advance_broadcast (m : MarketId) (rd : Reading) (st : AppState) (pc : Pc) : exec (AppState * Pc) :=
  match pc with
  | AtNotify k => Ret (st, if rd_subscribed rd then AtBookView k else resume k)
  | AtBookView k =>
      book ← match books st !! m with
             | Some b => Book.snapshot b (Z.to_nat MAX_DEPTH_LEVELS)
             | None => Ret snapshot_default
             end;
      Ret (st, AtTapeView k book)
  | AtTapeView k book =>
      Ret (st, AtMarkView k book (default market_default (MarketData.snapshot <$> market_data st !! m)))
  | AtMarkView k book tape =>
      _ ← match backstop st !! m with
          | Some b => reference_price b (backstop_config (en_dep E))
          | None => Ret None
          end;
      Ret (st, resume k)
  | _ => Ret (st, pc)
  end.

(** A fold under its position lock. *)
Definition fold_position (st : AppState) (trader : Address) (m : MarketId) (is_buy : bool)
    (tick qty funding leverage extra : Z) : exec (AppState * (Z * Z)) :=
  '(cache, out) ← load_and_fold (en_load E) (position_cache st) (en_key E trader) m is_buy tick qty funding
                    leverage extra;
  Ret (set_positions st cache (pending_realized_pnl st), out).

Definition queue_result (st : AppState) (trader : Address) (m : MarketId) (realized : Z) : exec AppState :=
  pending ← queue_realized_pnl (collateral_check (en_dep E)) (pending_realized_pnl st) trader
              (realized_delta_to_usd realized m);
  Ret (set_positions st (position_cache st) pending).

(** ** One step of each handler *)

Definition advance_order (p : OrderPayload) (signer : Address) (rd : Reading) (st : AppState) (pc : Pc) :
    exec (AppState * Pc) :=
  let m := op_market_id p in
  let o := new_order p (signer_owner_id signer) in
  let cfg := backstop_config (en_dep E) in
  let taker_is_buy := is_buy (op_side p) in
  match pc with
  | AtNonce =>
      Ret (check_nonce st signer (op_nonce p)
             (if decide (MAX_SANE_TICK < op_tick p) then Finished (ROrder (refused (InvalidTick (op_tick p))))
              else AtGate) (λ e, ROrder (refused e)))
  | AtGate =>
      match collateral_check (en_dep E) with
      | None => Ret (st, AtRegister)
      | Some _ => let '(st, markets) := open_portfolio st (en_key E signer) [] in Ret (st, AtGateRead markets [])
      end
  | AtGateRead (k :: rest) found =>
      Ret (st, AtGateRead rest (found ++ read_position (en_load E) st (en_key E signer) k))
  | AtGateRead [] found =>
      Ret (st, match check_deposited_collateral (collateral_check (en_dep E)) found (rd_deposited rd) m
                       (op_side p) (op_tick p) (op_qty p) (op_leverage p) with
               | Err e => Finished (ROrder (refused (InsufficientCollateralError e)))
               | Ok _ => AtRegister
               end)
  | AtRegister => Ret (register_owner st signer, AtSubmit)
  | AtSubmit =>
      '(r, st) ← submit_order st m o (rd_now rd); Ret (st, AtBackstop (rd_now rd) r)
  | AtBackstop now r =>
      match demand o r, resting_id r with
      | Some requested, _ =>
          '(s, accepted) ← (if fill_or_kill_failed r then serve_whole (maker_of st m) cfg (no_side o) requested
                            else try_fill (maker_of st m) cfg (no_side o) requested);
          Ret (put_maker st m s,
               AtTape now match accepted with
                          | Some (price, filled) =>
                              with_fill r (backstop_fill price filled requested) (resting_id r) (resting_qty r)
                          | None => r
                          end)
      | None, Some id =>
          '(s, accepted) ← serve_whole (maker_of st m) cfg (no_side o) (resting_qty r);
          Ret (put_maker st m s,
               match accepted with
               | Some (price, filled) => AtCancelRested now r id price filled
               | None => AtTape now r
               end)
      | None, None => Ret (st, AtTape now r)
      end
  | AtCancelRested now r id price filled =>
      '(_, b) ← Book.cancel (book_of st m) id;
      Ret (put_book st m b, AtTape now (with_fill r (backstop_fill price filled (resting_qty r)) None 0))
  | AtTape now r => Ret (if decide (fills r = []) then st else record_tape st m (fills r) now, AtHistory r)
  | AtHistory r => Ret (if decide (fills r = []) then st else record_history st m (fills r), AtNotify (AfterOrder r))
  | AtNotify _ | AtBookView _ | AtTapeView _ _ | AtMarkView _ _ _ => advance_broadcast m rd st pc
  | AtVolume r =>
      Ret (st, AtOwner (sweep_start r (default 0 (trader_volume st !! signer)) (rd_funding rd)))
  | AtOwner sw =>
      match sw_rest sw with
      | [] => Ret (st, AtAddVolume sw)
      | f :: fs =>
          let acc := sw_acc sw in
          let acc := {| sa_legs := sa_legs acc; sa_collateral_delta := sa_collateral_delta acc;
                        sa_weighted_price := sa_weighted_price acc;
                        sa_provable := if should_prove (f_qty f) then sa_provable acc ++ [match_witness p f]
                                       else sa_provable acc |} in
          match owner_addresses st !! maker_owner f with
          | None => Ret (st, AtOwner (sweep_next sw acc fs))
          | Some maker =>
              Ret (st, AtMakerFold {| sw_result := sw_result sw; sw_volume := sw_volume sw;
                                      sw_funding := sw_funding sw; sw_index := sw_index sw; sw_acc := acc;
                                      sw_rest := fs |} f maker)
          end
      end
  | AtMakerFold sw f maker =>
      '(st, (delta, realized)) ← fold_position st maker m (negb taker_is_buy) (f_tick f) (f_qty f)
                                   (sw_funding sw) 20 0;
      Ret (st, AtMakerQueue sw f maker delta realized)
  | AtMakerQueue sw f maker delta realized =>
      st ← queue_result st maker m realized; Ret (st, AtMakerSeal sw f maker delta)
  | AtMakerSeal sw f maker delta =>
      Ret (st, AtMakerIndex sw f
        {| mf_match_id := match_id_for (en_keccak E) signer (maker_owner f) m (f_tick f) (sw_index sw) (op_nonce p);
           mf_portfolio_key := en_key E maker; mf_collateral_delta := delta;
           mf_sealed_params := sealed_params_after st (en_key E maker) m |})
  | AtMakerIndex sw f leg => Ret (index_market st (mf_portfolio_key leg) m, AtTakerFold sw f leg)
  | AtTakerFold sw f leg =>
      fee ← expect (i256_try_from (Fees.taker_fee (u128_mul (f_tick f) (f_qty f)) (sw_volume sw)));
      '(st, (delta, realized)) ← fold_position st signer m taker_is_buy (f_tick f) (f_qty f) (sw_funding sw)
                                   (op_leverage p) fee;
      Ret (st, AtTakerQueue sw f leg delta realized)
  | AtTakerQueue sw f leg fold_delta realized =>
      st ← queue_result st signer m realized;
      delta ← i256_add (sa_collateral_delta (sw_acc sw)) fold_delta;
      Ret (st, AtOwner (sweep_next sw
        {| sa_legs := sa_legs (sw_acc sw) ++ [leg]; sa_collateral_delta := delta;
           sa_weighted_price := u128_add (sa_weighted_price (sw_acc sw)) (u128_mul (f_tick f) (f_qty f));
           sa_provable := sa_provable (sw_acc sw) |} (sw_rest sw)))
  | AtAddVolume sw => Ret (add_volume st signer (sa_weighted_price (sw_acc sw)), AtTakerSeal sw)
  | AtTakerSeal sw =>
      let k := en_key E signer in
      Ret (st, if decide (sa_legs (sw_acc sw) = []) then order_done sw None
               else AtTakerIndex sw
                 {| ts_market_id := onchain (en_dep E) m; ts_portfolio_key_taker := k;
                    ts_collateral_delta_taker := sa_collateral_delta (sw_acc sw);
                    ts_sealed_params_taker := sealed_params_after st k m;
                    ts_maker_legs := sa_legs (sw_acc sw) |})
  | AtTakerIndex sw sweep => Ret (index_market st (en_key E signer) m, order_done sw (Some sweep))
  | AtReply _ | Finished _ => Ret (st, pc)
  end.

Definition advance_offer (p : OfferPayload) (signer : Address) (rd : Reading) (st : AppState) (pc : Pc) :
    exec (AppState * Pc) :=
  match pc with
  | AtNonce =>
      Ret (check_nonce st signer (of_nonce p)
             (if decide (MAX_SANE_TICK < of_tick p) then Finished (ROffer (Err (InvalidTick (of_tick p))))
              else AtRegister) (λ e, ROffer (Err e)))
  | AtRegister => Ret (register_owner st signer, AtSubmit)
  | AtSubmit =>
      '(r, st) ← submit_order st (of_market_id p) (offer_order p (signer_owner_id signer)) (rd_now rd);
      Ret (st, if post_only_rejected r then Finished (ROffer (Ok (OfferRejected "offer would have crossed the book")))
               else AtNotify (AfterOffer r))
  | AtNotify _ | AtBookView _ | AtTapeView _ _ | AtMarkView _ _ _ => advance_broadcast (of_market_id p) rd st pc
  | AtReply r => offer_id ← expect (resting_id r); Ret (st, Finished (ROffer (Ok (OfferResting offer_id))))
  | _ => Ret (st, pc)
  end.

(** The order's owner is read and the order cancelled under one lock. *)
Definition cancel_owned_order (st : AppState) (p : CancelPayload) (signer : Address) :
    exec (AppState * result CancelResponse ApiError) :=
  match books st !! cp_market_id p with
  | None => Ret (st, Ok NotFound)
  | Some book =>
      match owner_of book (cp_order_id p) with
      | None => Ret (st, Ok NotFound)
      | Some existing =>
          if decide (existing ≠ signer_owner_id signer) then Ret (st, Err (NotOrderOwner (cp_order_id p)))
          else
            '(cancelled, b) ← Book.cancel book (cp_order_id p);
            Ret (put_book st (cp_market_id p) b,
                 Ok match cancelled with Some (tick, qty) => Cancelled tick qty | None => NotFound end)
      end
  end.

Definition advance_cancel (p : CancelPayload) (signer : Address) (rd : Reading) (st : AppState) (pc : Pc) :
    exec (AppState * Pc) :=
  match pc with
  | AtNonce => Ret (check_nonce st signer (cp_nonce p) AtSubmit (λ e, RCancel (Err e)))
  | AtSubmit =>
      '(st, r) ← cancel_owned_order st p signer;
      Ret (st, match r with
               | Ok (Cancelled tick qty) => AtNotify (AfterCancel tick qty)
               | _ => Finished (RCancel r)
               end)
  | AtNotify _ | AtBookView _ | AtTapeView _ _ | AtMarkView _ _ _ => advance_broadcast (cp_market_id p) rd st pc
  | _ => Ret (st, pc)
  end.

Definition advance_portfolio_key (p : PortfolioKeyRequest) (signer : Address) (st : AppState) (pc : Pc) :
    exec (AppState * Pc) :=
  match pc with
  | AtNonce =>
      Ret (check_nonce st signer (pk_nonce p) (Finished (RPortfolioKey (Ok (en_key E signer))))
             (λ e, RPortfolioKey (Err e)))
  | _ => Ret (st, pc)
  end.

Definition advance (p : Payload) (signer : Address) (rd : Reading) (st : AppState) (pc : Pc) :
    exec (AppState * Pc) :=
  match p with
  | POrder p => advance_order p signer rd st pc
  | POffer p => advance_offer p signer rd st pc
  | PCancel p => advance_cancel p signer rd st pc
  | PPortfolioKey p => advance_portfolio_key p signer st pc
  end.

(** ** One handler alone *)

Definition finished (pc : Pc) : bool := match pc with Finished _ => true | _ => false end.

(** The handler runs to its response, or aborts, with nothing between its steps. *)
Inductive drives (q : Request) : AppState → Pc → exec (AppState * Response) → Prop :=
| drives_done st r : drives q st (Finished r) (Ret (st, r))
| drives_panic st pc :
    advance (rq_payload q) (rq_signer q) (rq_reading q) st pc = Panic → drives q st pc Panic
| drives_step st pc st' pc' res :
    finished pc = false → advance (rq_payload q) (rq_signer q) (rq_reading q) st pc = Ret (st', pc') →
    drives q st' pc' res → drives q st pc res.

End handlers.

(** ** Many handlers and tasks at once *)

Record Handler := { hd_payload : Payload; hd_signer : Address; hd_pc : Pc }.
Record System := {
  sy_state : AppState;
  sy_handlers : gmap nat Handler;
  sy_tasks : gmap nat TaskPc;
}.

Definition with_handler (s : System) (t : nat) (st : AppState) (h : Handler) : System :=
  {| sy_state := st; sy_handlers := <[t := h]> (sy_handlers s); sy_tasks := sy_tasks s |}.
Definition with_task (s : System) (t : nat) (st : AppState) (pc : TaskPc) : System :=
  {| sy_state := st; sy_handlers := sy_handlers s; sy_tasks := <[t := pc]> (sy_tasks s) |}.
Definition move_to (h : Handler) (pc : Pc) : Handler :=
  {| hd_payload := hd_payload h; hd_signer := hd_signer h; hd_pc := pc |}.

Definition is_scan (pc : TaskPc) : bool :=
  match pc with AtScan _ | AtScanned _ _ _ _ => true | _ => false end.

(** [main.rs] runs one open-interest loop, over the configured contracts. *)
Definition may_start (H : Host) (tasks : gmap nat TaskPc) (j : Job) : Prop :=
  match j with
  | InterestPoll contracts =>
      contracts ≡ₚ map_to_list (ho_contracts H) ∧ map_Forall (λ _ pc, is_scan pc = false) tasks
  | _ => True
  end.

(** The integers of a request and of what is read have their types. *)
Definition payload_typed (p : Payload) : Prop :=
  payload_ok p ∧ in_u 64 (payload_nonce p) ∧ match p with POrder p => in_u 64 (op_leverage p) | _ => True end.
Definition reading_typed (rd : Reading) : Prop := in_u 64 (rd_now rd) ∧ in_s 128 (rd_funding rd).
#[export] Instance payload_typed_dec p : Decision (payload_typed p).
Proof. unfold payload_typed, payload_ok. destruct p; apply _. Defined.

(** A request arrives; a handler takes a step, reading what it likes; the broadcast of a finished
    order is over; a task starts; a task takes a step.  [answers] are those the outside may give. *)
Inductive sys_step (E : Enclave) (H : Host) (answers : Answers → Prop) : System → System → Prop :=
| sys_arrive s t p signer :
    sy_handlers s !! t = None → payload_typed p →
    sys_step E H answers s (with_handler s t (sy_state s) {| hd_payload := p; hd_signer := signer; hd_pc := AtNonce |})
| sys_advance s t h an rd st' pc' :
    sy_handlers s !! t = Some h → answers an → reading_typed rd →
    advance (at_chain E (an_load an)) (hd_payload h) (hd_signer h) rd (sy_state s) (hd_pc h) = Ret (st', pc') →
    sys_step E H answers s (with_handler s t st' (move_to h pc'))
| sys_settled s t h p o sweep tx_hash :
    sy_handlers s !! t = Some h → hd_payload h = POrder p → hd_pc h = Finished (ROrder o) → oo_sweep o = Some sweep →
    sys_step E H answers s
      {| sy_state := finish_settlement (sy_state s) (op_market_id p) (hd_signer h) (op_nonce p) sweep tx_hash;
         sy_handlers := sy_handlers s; sy_tasks := sy_tasks s |}
| sys_begin s t j :
    sy_tasks s !! t = None → may_start H (sy_tasks s) j →
    sys_step E H answers s (with_task s t (sy_state s) (start j))
| sys_task s t pc an st' pc' :
    sy_tasks s !! t = Some pc → answers an → advance_task E H an (sy_state s) pc = Ret (st', pc') →
    sys_step E H answers s (with_task s t st' pc').

Definition sys_start (st : AppState) : System := {| sy_state := st; sy_handlers := ∅; sy_tasks := ∅ |}.
Definition sys_reach (E : Enclave) (H : Host) (answers : Answers → Prop) (st : AppState) (s : System) : Prop :=
  rtc (sys_step E H answers) (sys_start st) s.
