(* ===== verification/InterleaveProps.v ===== *)
(** * Handlers between their locks: theorems

    A handler alone, without subscribers, computes what [Matcher.handle] says; with many at once, nonces
    and books are as safe as with one, and nothing aborts under the locks they share. *)
From S2P Require Import Prelude Ints Types U256 I256 Risk Averages Fees MarketData Backstop.
From S2P Require Import Positions Liquidation Occupancy Book BookWf BookOps BookSpec BookRefine BookProps.
From S2P Require Import Wire Matcher MatcherBook MatcherProps MatcherTrace Persistence Service ServiceProps Display.
From S2P Require Import Tasks TasksProps Interleave.
Open Scope Z_scope.

(** ** One handler alone *)

Section alone.
Context (E : Enclave).
#[local] Instance inst_i256 : I256 := en_i256 E.

Lemma drives_next q st pc res :
  finished pc = false →
  match advance E (rq_payload q) (rq_signer q) (rq_reading q) st pc with
  | Ret (st', pc') => drives E q st' pc' res
  | Panic => res = Panic
  end → drives E q st pc res.
Proof.
  intros Hpc. destruct (advance _ _ _ _ st pc) as [[st' pc']|] eqn:Ha.
  - by apply drives_step.
  - intros ->. by apply drives_panic.
Qed.

Lemma drives_det q st pc res res' : drives E q st pc res → drives E q st pc res' → res = res'.
Proof.
  assert (Hfin : ∀ st r, advance E (rq_payload q) (rq_signer q) (rq_reading q) st (Finished r) ≠ Panic)
    by (intros; by destruct (rq_payload q)).
  intros H. revert res'. induction H as [st r|st pc Ha|st pc st1 pc1 res Hf Ha _ IH]; intros res' H'; inversion H'; subst;
    try done; try (by destruct (Hfin _ _ ltac:(eassumption))); try congruence.
  apply IH. congruence.
Qed.

Lemma fold_and_queue_split st trader m b t x f l e :
  fold_and_queue (en_load E) (en_key E) (en_dep E) st trader m b t x f l e =
    ('(st1, (delta, realized)) ← fold_position E st trader m b t x f l e;
     st2 ← queue_result E st1 trader m realized; Ret (st2, delta)).
Proof.
  unfold fold_and_queue, fold_position, queue_result.
  destruct (load_and_fold _ _ _ _ _ _ _ _ _ _) as [[c [d r]]|]; [|done]. rewrite !ret_bind. cbv beta iota.
  change (pending_realized_pnl (set_positions st c (pending_realized_pnl st))) with (pending_realized_pnl st).
  by destruct (queue_realized_pnl _ _ _ _).
Qed.

(** One step, its outcome computed. *)
Ltac advance_one := apply drives_next; [done|]; cbn [advance advance_order advance_offer advance_cancel advance_portfolio_key
  rq_payload rq_signer rq_reading rd_now rd_deposited rd_funding].

(** The update of the book, when nobody has subscribed. *)
Ltac update_unread Hsub := advance_one; cbn [advance_broadcast]; rewrite Hsub; cbn [resume].

(** The returns in [H] and in the goal, computed. *)
Ltac ret_in H := rewrite !ret_bind in H; rewrite ?ret_bind; cbv beta iota in H |- *.

Section order.
Context (p : OrderPayload) (signer : Address) (rd : Reading) (Hsub : rd_subscribed rd = false).
Abbreviation q := {| rq_payload := POrder p; rq_signer := signer; rq_reading := rd |}.

Lemma drives_fill f fs sw st res :
  sw_rest sw = f :: fs →
  match settle_fill (en_load E) (en_key E) (en_keccak E) (en_dep E) p signer (sw_volume sw) (sw_funding sw)
          (sw_index sw) st (sw_acc sw) f with
  | Ret (st', acc') => drives E q st' (AtOwner (sweep_next sw acc' fs)) res
  | Panic => res = Panic
  end → drives E q st (AtOwner sw) res.
Proof.
  intros Hrest H. advance_one. rewrite Hrest. unfold settle_fill in H. cbv zeta in *.
  destruct (owner_addresses st !! maker_owner f) as [maker|]; [|exact H].
  unfold build_maker_leg in H. rewrite fold_and_queue_split in H.
  advance_one. cbn [sw_funding] in *.
  destruct (fold_position E st maker _ _ _ _ _ _ _) as [[st1 [d r]]|]; [|exact H]. ret_in H.
  advance_one. destruct (queue_result E st1 maker _ r) as [st2|]; [|exact H]. ret_in H.
  advance_one. advance_one. advance_one. cbn [sw_index sw_volume sw_funding sw_acc sw_rest mf_portfolio_key] in *.
  destruct (expect _) as [fee|]; [|exact H]. ret_in H.
  rewrite fold_and_queue_split in H.
  destruct (fold_position E _ signer _ _ _ _ _ _ _) as [[st3 [d3 r3]]|]; [|exact H]. ret_in H.
  advance_one. destruct (queue_result E st3 signer _ r3) as [st4|]; [|exact H]. ret_in H.
  cbn [sa_collateral_delta sa_legs sa_weighted_price sa_provable sw_acc sw_rest] in *.
  destruct (i256_add _ _) as [delta|]; [|exact H]. ret_in H. exact H.
Qed.

Lemma drives_fills fs sw st res :
  sw_rest sw = fs →
  match settle_fills (en_load E) (en_key E) (en_keccak E) (en_dep E) p signer (sw_volume sw) (sw_funding sw)
          (sw_index sw) st (sw_acc sw) fs with
  | Ret (st', acc') =>
      ∀ sw', sw_acc sw' = acc' → sw_result sw' = sw_result sw → drives E q st' (AtAddVolume sw') res
  | Panic => res = Panic
  end → drives E q st (AtOwner sw) res.
Proof.
  revert sw st. induction fs as [|f fs IH]; intros sw st Hrest; cbn [settle_fills].
  - intros H. advance_one. rewrite Hrest. by apply H.
  - intros H. apply (drives_fill f fs); [done|].
    destruct (settle_fill _ _ _ _ p signer _ _ _ st (sw_acc sw) f) as [[st1 acc1]|]; [|exact H].
    rewrite ret_bind in H. apply IH; [done|]. exact H.
Qed.

(** From the tape to the response. *)
Lemma drives_settle now r st res :
  (let st := record_prints st (op_market_id p) (fills r) now in
   res = ('(st, sweep, proofs) ← settle_order (en_load E) (en_key E) (en_keccak E) (en_dep E) st p signer (rd_funding rd) (fills r);
          Ret (st, ROrder {| oo_response := Ok (order_response r); oo_sweep := sweep; oo_proofs := proofs |}))) →
  drives E q st (AtTape now r) res.
Proof.
  intros Hres. advance_one. advance_one.
  assert (Hst : (if decide (fills r = []) then if decide (fills r = []) then st else record_tape st (op_market_id p) (fills r) now
                 else record_history (if decide (fills r = []) then st else record_tape st (op_market_id p) (fills r) now)
                        (op_market_id p) (fills r)) = record_prints st (op_market_id p) (fills r) now).
  { unfold record_prints. by destruct (decide (fills r = [])). }
  cbv zeta in Hres. rewrite Hst. clear Hst. generalize dependent (record_prints st (op_market_id p) (fills r) now).
  clear st. intros st Hres. unfold settle_order in Hres. update_unread Hsub. advance_one.
  apply (drives_fills (fills r)); [done|]. cbn [sw_volume sw_funding sw_index sw_acc sweep_start].
  destruct (settle_fills _ _ _ _ p signer _ _ 0 st _ (fills r)) as [[st1 acc]|]; [|exact Hres].
  rewrite ret_bind in Hres. cbv beta iota in Hres. intros sw Hacc Hr. cbn [sw_result] in Hr.
  advance_one. advance_one. rewrite Hacc. unfold build_sweep in Hres.
  destruct (decide (sa_legs acc = [])) as [Hl|Hl].
  - rewrite ret_bind in Hres. subst res. unfold order_done. rewrite Hacc, Hr. constructor.
  - rewrite ret_bind in Hres. subst res. advance_one. unfold order_done. rewrite Hacc, Hr. constructor.
Qed.

(** The gate, one read at a time. *)
Lemma drives_gate_read st rest found res :
  drives E q st (AtGateRead [] (found ++ omap (load_single_market_state_cached (en_load E) (position_cache st) (en_key E signer)) rest)) res →
  drives E q st (AtGateRead rest found) res.
Proof.
  revert found. induction rest as [|k rest IH]; intros found; [by rewrite app_nil_r|].
  intros H. advance_one. apply IH. unfold read_position. rewrite <- app_assoc. cbn in H.
  by destruct (load_single_market_state_cached _ _ _ k).
Qed.

Lemma drives_gate st res :
  (let '(st, gate) := collateral_gate (en_load E) (en_key E) (en_dep E) st signer (rd_deposited rd) p in
   drives E q st (match gate with
                  | Err e => Finished (ROrder (refused (InsufficientCollateralError e)))
                  | Ok _ => AtRegister
                  end) res) → drives E q st AtGate res.
Proof.
  unfold collateral_gate. intros H. advance_one. destruct (collateral_check (en_dep E)) as [check|] eqn:Hc; [|exact H].
  unfold open_portfolio. cbv zeta. apply drives_gate_read. cbn [app]. advance_one. rewrite Hc. exact H.
Qed.

Lemma drives_order st : drives E q st AtNonce (serve_one E st q).
Proof.
  unfold serve_one, handle, post_order. cbn [rq_payload rq_signer rq_reading]. advance_one. unfold check_nonce.
  destruct (accept_nonce st signer (op_nonce p)) as [st1|e]; [|constructor].
  case_decide as Htick; [constructor|]. apply drives_gate.
  destruct (collateral_gate _ _ _ st1 signer (rd_deposited rd) p) as [st2 [[]|e]]; [|constructor].
  advance_one. advance_one. unfold execute_order, match_order. cbv zeta.
  destruct (submit_order _ _ _ (rd_now rd)) as [[r st3]|]; [|done]. rewrite !ret_bind. cbv beta iota.
  advance_one. unfold demand, rescue. cbv zeta. cbn [no_tif no_qty new_order].
  destruct (_ || fill_or_kill_failed r).
  { unfold rescue_dropped.
    destruct (if fill_or_kill_failed r then serve_whole _ _ _ _ else try_fill _ _ _ _) as [[s acc]|]; [|done]. rewrite !ret_bind. cbv beta iota zeta.
    apply drives_settle. cbv zeta. by destruct (settle_order _ _ _ _ _ p signer _ _) as [[[? ?] ?]|]. }
  destruct (resting_id r) as [id|].
  - unfold rescue_resting. cbv zeta. destruct (serve_whole _ _ _ _) as [[s [[price filled]|]]|]; [| |done];
      rewrite !ret_bind; cbv beta iota.
    + advance_one. destruct (Book.cancel _ id) as [[c b]|]; [|done]. rewrite !ret_bind. cbv beta iota.
      apply drives_settle. cbv zeta. by destruct (settle_order _ _ _ _ _ p signer _ _) as [[[? ?] ?]|].
    + apply drives_settle. cbv zeta. by destruct (settle_order _ _ _ _ _ p signer _ _) as [[[? ?] ?]|].
  - rewrite !ret_bind. cbv beta iota. apply drives_settle. cbv zeta.
    by destruct (settle_order _ _ _ _ _ p signer _ _) as [[[? ?] ?]|].
Qed.
End order.

Lemma drives_offer p signer rd st (Hsub : rd_subscribed rd = false) :
  let q := {| rq_payload := POffer p; rq_signer := signer; rq_reading := rd |} in
  drives E q st AtNonce (serve_one E st q).
Proof.
  cbv zeta. unfold serve_one, handle, post_offer. cbn [rq_payload rq_signer rq_reading]. advance_one. unfold check_nonce.
  destruct (accept_nonce st signer (of_nonce p)) as [st1|e]; [|constructor].
  case_decide as Htick; [constructor|]. advance_one. advance_one. cbv zeta.
  destruct (submit_order _ _ _ (rd_now rd)) as [[r st2]|]; [|done]. rewrite !ret_bind. cbv beta iota.
  destruct (post_only_rejected r); [constructor|]. update_unread Hsub. advance_one.
  destruct (expect (resting_id r)); [|done]. constructor.
Qed.

Lemma drives_cancel p signer rd st (Hsub : rd_subscribed rd = false) :
  let q := {| rq_payload := PCancel p; rq_signer := signer; rq_reading := rd |} in
  drives E q st AtNonce (serve_one E st q).
Proof.
  cbv zeta. unfold serve_one, handle, post_cancel. cbn [rq_payload rq_signer rq_reading]. advance_one. unfold check_nonce.
  destruct (accept_nonce st signer (cp_nonce p)) as [st1|e]; [|constructor]. advance_one. unfold cancel_owned_order.
  destruct (books st1 !! cp_market_id p) as [b|]; [|constructor].
  destruct (owner_of b (cp_order_id p)); [|constructor]. case_decide; [constructor|].
  destruct (Book.cancel b (cp_order_id p)) as [[[[t x]|] b']|]; [| |done]; rewrite !ret_bind; cbv beta iota.
  - update_unread Hsub. constructor.
  - constructor.
Qed.

Lemma drives_serve_one q st : rd_subscribed (rq_reading q) = false → drives E q st AtNonce (serve_one E st q).
Proof.
  destruct q as [[p|p|p|p] signer rd]; intros Hsub; cbn [rq_reading] in Hsub.
  - by apply drives_order.
  - by apply drives_offer.
  - by apply drives_cancel.
  - unfold serve_one, handle, post_portfolio_key. cbn [rq_payload rq_signer rq_reading]. advance_one. unfold check_nonce.
    destruct (accept_nonce st signer (pk_nonce p)) as [st1|e]; constructor.
Qed.
End alone.

(** With nothing between its steps and no subscriber, a handler reaches exactly the state and the response
    of its sequential definition [handle], and aborts exactly when that does. *)
Lemma handler_alone E q st res :
  rd_subscribed (rq_reading q) = false → drives E q st AtNonce res ↔ res = serve_one E st q.
Proof.
  intros Hsub. split; [|intros ->; by apply drives_serve_one]. intros H.
  exact (drives_det _ _ _ _ _ _ H (drives_serve_one E q st Hsub)).
Qed.

(** ** Steps and nonces *)

(** Past the nonce check, and not refused by it. *)
Definition admitted (pc : Pc) : bool :=
  match pc with AtNonce => false | Finished r => negb (is_replay r) | _ => true end.

Ltac take_step :=
  repeat match goal with
  | H : _ ≫= _ = Ret _ |- _ => apply bind_Ret in H as (? & ? & ?)
  | H : (let '(_, _) := ?p in _) = Ret _ |- _ => destruct p eqn:?
  | H : Ret _ = Ret _ |- _ => injection H as <- <-
  end.

Section steps.
Context (E : Enclave).
#[local] Instance steps_i256 : I256 := en_i256 E.

Lemma submit_order_nonces st m o now r st' : submit_order st m o now = Ret (r, st') → last_nonce st' = last_nonce st.
Proof. unfold submit_order. intros H. exec_inv. done. Qed.

Lemma fold_position_frame st t m b x f l v e st' out :
  fold_position E st t m b x f l v e = Ret (st', out) → frame st st'.
Proof. unfold fold_position. intros H. exec_inv. done. Qed.

Lemma queue_result_frame st t m r st' : queue_result E st t m r = Ret st' → frame st st'.
Proof. unfold queue_result. intros H. exec_inv. done. Qed.

Lemma add_volume_frame st signer w : frame st (add_volume st signer w).
Proof. unfold add_volume. by case_decide. Qed.

Ltac frames := repeat match goal with
  | H : fold_position _ _ _ _ _ _ _ _ _ _ = Ret _ |- _ => apply fold_position_frame in H
  | H : queue_result _ _ _ _ _ = Ret _ |- _ => apply queue_result_frame in H
  end.

(** From the sweep on, a step leaves the books, the backstop and the nonces alone. *)
Definition sweeping (pc : Pc) : bool :=
  match pc with
  | AtVolume _ | AtOwner _ | AtMakerFold _ _ _ | AtMakerQueue _ _ _ _ _ | AtMakerSeal _ _ _ _
  | AtMakerIndex _ _ _ | AtTakerFold _ _ _ | AtTakerQueue _ _ _ _ _ | AtAddVolume _ | AtTakerSeal _
  | AtTakerIndex _ _ => true
  | _ => false
  end.

Lemma advance_sweep p signer rd st pc st' pc' :
  sweeping pc = true → advance E p signer rd st pc = Ret (st', pc') →
  frame st st' ∧ (sweeping pc' = true ∨ pc' = pc ∨ ∃ o, pc' = Finished (ROrder o) ∧ ∃ x, oo_response o = Ok x).
Proof.
  intros Hpc H.
  destruct p as [p|p|p|p]; destruct pc as [| |? ?| | |? ?|? ? ? ? ?|? ?|?|?|?|? ?|? ? ?|?|sw|sw f mk|sw f mk d r|sw f mk d|sw f leg|sw f leg|sw f leg d r|sw|sw|sw swp|?|?];
    try done; cbn [advance advance_order advance_offer advance_cancel advance_portfolio_key] in H;
    try solve [take_step; frames; split; [first [assumption|done]|first [by left|right; by left]]].
  - destruct (sw_rest sw); [take_step; split; [done|by left]|]. cbv zeta in H.
    destruct (owner_addresses st !! _); take_step; (split; [done|by left]).
  - take_step. split; [apply add_volume_frame|by left].
  - take_step. split; [done|]. case_decide; [|by left]. right; right. eexists. split; [done|]. by eexists.
  - take_step. split; [done|]. right; right. eexists. split; [done|]. by eexists.
Qed.

(** While the update of the book is prepared, the state stays as it is. *)
Definition broadcasting (pc : Pc) : option After :=
  match pc with AtNotify k | AtBookView k | AtTapeView k _ | AtMarkView k _ _ => Some k | _ => None end.

Lemma advance_update p signer rd st pc st' pc' k :
  broadcasting pc = Some k → advance E p signer rd st pc = Ret (st', pc') →
  st' = st ∧ (broadcasting pc' = Some k ∨ pc' = resume k).
Proof.
  assert (Hb : ∀ m, broadcasting pc = Some k → advance_broadcast E m rd st pc = Ret (st', pc') →
                st' = st ∧ (broadcasting pc' = Some k ∨ pc' = resume k)).
  { intros m. destruct pc; try done; cbn [broadcasting advance_broadcast]; intros [= ->] H; take_step; (split; [done|]).
    - by destruct (rd_subscribed rd); [left|right].
    - by left.
    - by left.
    - by right. }
  intros Hpc H. destruct p as [p|p|p|p]; destruct pc; try done; cbn [advance advance_order advance_offer advance_cancel advance_portfolio_key] in H;
    try (by eapply Hb); injection H as <- <-; (split; [done|by left]).
Qed.

(** What a step does to the nonces. *)
Lemma advance_nonces p signer rd st pc st' pc' :
  advance E p signer rd st pc = Ret (st', pc') →
  match pc with
  | AtNonce =>
      (st' = st ∧ admitted pc' = false ∧ pc' ≠ AtNonce) ∨
      ((∀ l, last_nonce st !! signer = Some l → l < payload_nonce p) ∧
       last_nonce st' = <[signer := payload_nonce p]> (last_nonce st) ∧ admitted pc' = true)
  | _ => last_nonce st' = last_nonce st ∧ admitted pc' = admitted pc ∧ pc' ≠ AtNonce
  end.
Proof.
  destruct (broadcasting pc) as [k|] eqn:Hbr.
  { intros [-> Hor]%(advance_update _ _ _ _ _ _ _ _ Hbr).
    assert (last_nonce st = last_nonce st ∧ admitted pc' = admitted pc ∧ pc' ≠ AtNonce)
      by (destruct Hor as [H| ->]; [by destruct pc; destruct pc'|by destruct pc; try done; destruct k]).
    by destruct pc. }
  destruct (sweeping pc) eqn:Hsw.
  { intros [Hf Hor]%advance_sweep; [|done].
    assert (last_nonce st' = last_nonce st ∧ admitted pc' = admitted pc ∧ pc' ≠ AtNonce)
      by (split; [apply Hf|]; destruct Hor as [H|[->|(o & -> & x & Hx)]];
          [by destruct pc; destruct pc'|by destruct pc|cbn; unfold is_replay; cbn; rewrite Hx; by destruct pc]).
    by destruct pc. }
  assert (Hcheck : ∀ n ok refuse, admitted ok = true → (∀ e, response_error (refuse e) = Some e) →
    Ret (check_nonce st signer n ok refuse) = Ret (st', pc') →
    (st' = st ∧ admitted pc' = false ∧ pc' ≠ AtNonce) ∨
    ((∀ l, last_nonce st !! signer = Some l → l < n) ∧
     last_nonce st' = <[signer := n]> (last_nonce st) ∧ admitted pc' = true)).
  { intros n ok refuse Hok Hre. unfold check_nonce, accept_nonce.
    assert (Hrefuse : ∀ l, admitted (Finished (refuse (NonceReplay n l))) = false)
      by (intros; cbn; unfold is_replay; by rewrite Hre).
    destruct (last_nonce st !! signer) as [l|]; [case_decide|]; intros [= <- <-].
    - left. by rewrite Hrefuse.
    - right. split; [intros ? [= <-]; lia|done].
    - by right. }
  destruct p as [p|p|p|p]; destruct pc; try done;
    cbn [advance advance_order advance_offer advance_cancel advance_portfolio_key payload_nonce]; intros H;
    try (by take_step); try (apply Hcheck in H; [exact H|by case_decide|done]); try (apply Hcheck in H; [exact H|done|done]).
  - destruct (collateral_check _); injection H as <- <-; done.
  - destruct rest; [|by injection H as <- <-]. destruct (check_deposited_collateral _ _ _ _ _ _ _ _); by injection H as <- <-.
  - apply bind_Ret in H as ([r st1] & H1%submit_order_nonces & [= <- <-]). done.
  - destruct (demand _ _).
    + apply bind_Ret in H as ([s acc] & _ & [= <- <-]). done.
    + destruct (resting_id r); [|by injection H as <- <-]. apply bind_Ret in H as ([s acc] & _ & [= <- <-]).
      by destruct acc as [[]|].
  - injection H as <- <-. by case_decide.
  - injection H as <- <-. by case_decide.
  - apply bind_Ret in H as ([r st1] & H1%submit_order_nonces & [= <- <-]). by destruct (post_only_rejected r).
  - unfold cancel_owned_order in H. apply bind_Ret in H as ([st1 r] & H1 & [= <- <-]).
    exec_inv; try done; by repeat case_match.
Qed.
End steps.

(** ** The invariant of the nonces *)

Definition hd_nonce (h : Handler) : Z := payload_nonce (hd_payload h).

Record nonces_ok (s : System) : Prop := {
  ns_last t h : sy_handlers s !! t = Some h → admitted (hd_pc h) = true →
    ∃ l, last_nonce (sy_state s) !! hd_signer h = Some l ∧ hd_nonce h ≤ l;
  ns_apart t t' h h' : sy_handlers s !! t = Some h → sy_handlers s !! t' = Some h' → t ≠ t' →
    admitted (hd_pc h) = true → admitted (hd_pc h') = true → hd_signer h = hd_signer h' → hd_nonce h ≠ hd_nonce h';
}.

(** A handler that moves without touching the nonces or its admission. *)
Lemma nonces_ok_move s t h st' pc' :
  nonces_ok s → sy_handlers s !! t = Some h → last_nonce st' = last_nonce (sy_state s) →
  (admitted pc' = true → admitted (hd_pc h) = true) →
  nonces_ok (with_handler s t st' (move_to h pc')).
Proof.
  intros Hs Ht Hn Ha. split; cbn [with_handler sy_state sy_handlers].
  - intros t1 h1 [[<- <-]|[Hne H1]]%lookup_insert_Some Had; rewrite Hn; cbn in *.
    + eapply (ns_last s Hs t h); [done|by apply Ha].
    + by eapply (ns_last s Hs).
  - intros t1 t2 h1 h2 [[<- <-]|[Hne1 H1]]%lookup_insert_Some [[<- <-]|[Hne2 H2]]%lookup_insert_Some Hne Ha1 Ha2 Hsg;
      cbn in *; try done.
    + apply (ns_apart s Hs t t2 h h2); auto.
    + apply (ns_apart s Hs t1 t h1 h); auto.
    + by apply (ns_apart s Hs t1 t2 h1 h2).
Qed.

(** A step of a task. *)
Lemma nonces_ok_task s t st' pc :
  nonces_ok s → last_nonce st' = last_nonce (sy_state s) → nonces_ok (with_task s t st' pc).
Proof.
  intros Hs Hn. split; cbn [with_task sy_state sy_handlers]; rewrite ?Hn; [apply (ns_last s Hs)|apply (ns_apart s Hs)].
Qed.

Lemma sys_step_nonces E H answers s s' : sys_step E H answers s s' → nonces_ok s → nonces_ok s'.
Proof.
  intros Hst Hs. destruct Hst as [s t p signer Ht Hp|s t h an rd st' pc' Ht _ _ Hadv|s t h p o sweep hash Ht Hp Hpc Hsw|
    s t j Ht _|s t pc an st' pc' Ht _ Hadv].
  - split; cbn [with_handler sy_state sy_handlers].
    + intros t1 h1 [[_ <-]|[_ H1]]%lookup_insert_Some Had; [done|by eapply (ns_last s Hs)].
    + intros t1 t2 h1 h2 [[_ <-]|[_ H1]]%lookup_insert_Some [[_ <-]|[_ H2]]%lookup_insert_Some; try done. by apply (ns_apart s Hs t1 t2).
  - apply advance_nonces in Hadv.
    assert (hd_pc h = AtNonce ∨ (last_nonce st' = last_nonce (sy_state s) ∧ admitted pc' = admitted (hd_pc h)))
      as [Hpc|[H1 H2]] by (destruct (hd_pc h); [by left|right; split; apply Hadv..]); cycle 1.
    { apply nonces_ok_move; [done..|]. by rewrite H2. }
    rewrite Hpc in Hadv. destruct Hadv as [(-> & H1 & _)|(Hlt & Hn & Had)].
    { apply nonces_ok_move; [done..|]. by rewrite H1. }
    assert (Hbelow : ∀ t1 h1, sy_handlers s !! t1 = Some h1 → admitted (hd_pc h1) = true → hd_signer h1 = hd_signer h →
              hd_nonce h1 < hd_nonce h).
    { intros t1 h1 H1 Ha1 Hsg. destruct (ns_last s Hs t1 h1 H1 Ha1) as (l & Hl & Hle). rewrite Hsg in Hl.
      specialize (Hlt _ Hl). unfold hd_nonce in *. lia. }
    split; cbn [with_handler sy_state sy_handlers]; rewrite ?Hn.
    + intros t1 h1 [[<- <-]|[Hne H1]]%lookup_insert_Some Ha1; cbn [move_to hd_signer hd_payload hd_pc] in *.
      { exists (payload_nonce (hd_payload h)). split; [apply lookup_insert_eq|]. done. }
      destruct (decide (hd_signer h1 = hd_signer h)) as [Hsg|Hsg].
      * exists (hd_nonce h). rewrite Hsg, lookup_insert_eq. split; [done|]. specialize (Hbelow _ _ H1 Ha1 Hsg). lia.
      * rewrite lookup_insert_ne by done. by eapply (ns_last s Hs).
    + intros t1 t2 h1 h2 [[<- <-]|[Hne1 H1]]%lookup_insert_Some [[<- <-]|[Hne2 H2]]%lookup_insert_Some Hne Ha1 Ha2 Hsg;
        cbn [move_to hd_signer hd_payload hd_pc] in *; try done.
      * specialize (Hbelow _ _ H2 Ha2 (eq_sym Hsg)). unfold hd_nonce in *. cbn. lia.
      * specialize (Hbelow _ _ H1 Ha1 Hsg). unfold hd_nonce in *. cbn. lia.
      * by apply (ns_apart s Hs t1 t2 h1 h2).
  - split; cbn [sy_state sy_handlers]; [apply (ns_last s Hs)|apply (ns_apart s Hs)].
  - by apply nonces_ok_task.
  - apply nonces_ok_task; [done|]. by apply advance_task_frame in Hadv as [Hn _].
Qed.

(** An invariant of the steps holds at every reachable system. *)
Lemma sys_reach_ind E H answers st (P : System → Prop) :
  P (sys_start st) → (∀ s s', sys_reach E H answers st s → sys_step E H answers s s' → P s → P s') →
  ∀ s, sys_reach E H answers st s → P s.
Proof.
  intros H0 Hstep s Hr. cut (sys_reach E H answers st s ∧ P s); [by intros []|]. unfold sys_reach in *.
  revert s Hr. refine (rtc_ind_r _ _ _ _); [by split; [constructor|]|].
  intros s1 s2 Hr Hst [_ IH]. split; [by eapply rtc_r|by eapply Hstep].
Qed.

Lemma sys_reach_nonces E H answers st s : sys_reach E H answers st s → nonces_ok s.
Proof.
  intros Hr. refine (sys_reach_ind E H answers st _ _ _ s Hr).
  - split; cbn; intros *; by rewrite lookup_empty.
  - intros s1 s2 _ Hst. by eapply sys_step_nonces.
Qed.

(** ** Books and backstop states *)

Lemma matcher_ok_maker n st m s : matcher_ok n st → state_ok s → matcher_ok n (put_maker st m s).
Proof.
  intros [Hb Hm] Hs. split; [exact Hb|]. intros m'. unfold maker_of. cbn.
  destruct (decide (m' = m)) as [->|Hne]; [by rewrite lookup_insert_eq|]. rewrite lookup_insert_ne by done. apply Hm.
Qed.

Lemma matcher_ok_book n st m b :
  matcher_ok n st → Book.reachable b → (length (arena b) ≤ n)%nat → matcher_ok n (put_book st m b).
Proof.
  intros [Hb Hm] Hr Hl. split; [|exact Hm]. intros m'. unfold book_of. cbn.
  destruct (decide (m' = m)) as [->|Hne]; [by rewrite lookup_insert_eq|]. rewrite lookup_insert_ne by done. apply Hb.
Qed.

(** Cancelling any id on a reachable book. *)
Lemma cancel_any b x :
  Book.reachable b → 0 ≤ x →
  ∃ r b', Book.cancel b x = Ret (r, b') ∧ Book.reachable b' ∧ length (arena b') = length (arena b).
Proof.
  intros Hr Hx. destruct (owner_of b x) as [w|] eqn:Hw.
  - destruct (cancel_owned b x w Hr Hx Hw) as (s & t & d & b' & l1 & l2 & Hrun & _ & Hr' & _ & _ & _ & Hl). eauto.
  - exists None, b. split; [|done]. apply cancel_dead. intros nd Ha. unfold owner_of in Hw. by rewrite Ha in Hw.
Qed.

Definition ticks_ok (r : SubmitResult) : Prop := Forall (λ f, in_u 64 (f_tick f)) (fills r).

(** What a program point owes to the book, for the order [p] asks for. *)
Definition pc_ok (p : Payload) (pc : Pc) : Prop :=
  match pc with
  | AtGate | AtGateRead _ _ | AtRegister | AtSubmit =>
      match p with
      | POrder p => op_tick p ≤ MAX_SANE_TICK
      | POffer p => of_tick p ≤ MAX_SANE_TICK
      | _ => True
      end
  | AtBackstop _ r => ticks_ok r ∧ ∀ x, resting_id r = Some x → 0 ≤ x
  | AtCancelRested _ r id price _ => ticks_ok r ∧ 0 ≤ id ∧ in_u 64 price
  | AtTape _ r | AtHistory r => ticks_ok r
  | _ => True
  end.

(** Not yet past the book. *)
Definition unserved_pc (pc : Pc) : bool :=
  match pc with AtNonce | AtGate | AtGateRead _ _ | AtRegister | AtSubmit => true | _ => false end.

(** The steps that hold the lock of the books, of the tape, of the backstop or of the nonces. *)
Definition locking (pc : Pc) : bool :=
  match pc with
  | AtNonce | AtGate | AtGateRead _ _ | AtRegister | AtSubmit | AtBackstop _ _ | AtCancelRested _ _ _ _ _ | AtTape _ _ | AtHistory _
  | AtNotify _ | AtBookView _ | AtTapeView _ _ | AtMarkView _ _ _ => true
  | _ => false
  end.

Lemma ticks_ok_with_fill r price filled requested id q :
  ticks_ok r → in_u 64 price → ticks_ok (with_fill r (backstop_fill price filled requested) id q).
Proof. intros Hr Hp. unfold ticks_ok. cbn [with_fill fills]. apply Forall_app. split; [done|]. by constructor. Qed.

(** Both ways of asking the backstop. *)
Lemma asked_ok (whole : bool) s cfg side requested :
  state_ok s → config_ok cfg →
  ∃ s' acc, (if whole then serve_whole s cfg side requested else try_fill s cfg side requested) = Ret (s', acc) ∧
    state_ok s' ∧ ∀ price k, acc = Some (price, k) → in_u 64 price.
Proof.
  intros Hs Hc. pose proof (maker_offer_price s cfg side requested) as Hp. pose proof (commit_fill_ok s side) as Hcf.
  destruct whole; [rewrite serve_whole_spec by done|rewrite try_fill_spec by done];
    (destruct (maker_offer s cfg side requested) as [[price k]|]; [|by exists s, None]).
  - case_decide; [|by exists s, None]. eexists _, _. split; [done|]. split; [by apply Hcf|].
    intros ? ? [= <- <-]. by eapply Hp.
  - eexists _, _. split; [done|]. split; [by apply Hcf|]. intros ? ? [= <- <-]. by eapply Hp.
Qed.

Lemma submit_section n st m o now :
  matcher_ok n st → Z.of_nat n < NIL → 0 ≤ no_tick o < u64_max → in_u 64 (no_qty o) →
  ∃ r st', submit_order st m o now = Ret (r, st') ∧ matcher_ok (S n) st' ∧ ticks_ok r ∧
    ∀ x, resting_id r = Some x → 0 ≤ x.
Proof.
  intros Hok Hn Ht Hq. destruct (proj1 Hok m) as [Hr Hl].
  destruct (submit_accounts (book_of st m) o now Hr) as (r & b & Hrun & Hr' & Hacc & Hl').
  { unfold submit_ok, u64_max in *. int_range. }
  exists r, (put_book st m b). unfold submit_order. rewrite Hrun. split; [done|]. split_and!.
  - apply matcher_ok_book; [by apply (matcher_ok_weaken n); [lia|]|done|lia].
  - apply Hacc.
  - intros x Hx. pose proof (sa_rest _ _ _ _ Hacc) as H. rewrite Hx in H. destruct H as (_ & _ & _ & Hin).
    destruct (reachable_inv b Hr') as [A Hinv]. unfold rests_as in Hin. rewrite (resting_flat _ _ _ Hinv) in Hin.
    by eapply flat_live in Hin as [? _]; [|apply Hinv].
Qed.

Section books.
Context (E : Enclave) (Hcfg : config_ok (backstop_config (en_dep E))).
#[local] Instance books_i256 : I256 := en_i256 E.

Lemma check_nonce_ok n st signer nonce ok refuse st' pc' :
  matcher_ok n st → check_nonce st signer nonce ok refuse = (st', pc') →
  matcher_ok n st' ∧ (pc' = ok ∨ ∃ e, pc' = Finished (refuse e)).
Proof.
  intros Hok. unfold check_nonce. destruct (accept_nonce st signer nonce) as [st1|e] eqn:Ha; intros [= <- <-]; [|eauto].
  apply accept_nonce_same in Ha as [E1 E2]. split; [by eapply matcher_ok_same|by left].
Qed.

(** The state a step leaves, with room for the slot it may have taken. *)
Lemma matcher_ok_room (b : bool) n st : matcher_ok n st → matcher_ok (if b then S n else n) st.
Proof. intros H. apply (matcher_ok_weaken n); [destruct b; lia|done]. Qed.

(** What [advance] gives, at a step that takes no slot. *)
Definition steps_to (n : nat) (p : Payload) (pc : Pc) (res : exec (AppState * Pc)) : Prop :=
  ∃ st' pc', res = Ret (st', pc') ∧ pc_ok p pc' ∧
    matcher_ok (if unserved_pc pc && negb (unserved_pc pc') then S n else n) st'.

Lemma steps_to_ret n p pc st' pc' : pc_ok p pc' → matcher_ok n st' → steps_to n p pc (Ret (st', pc')).
Proof. intros Hp Hm. exists st', pc'. split_and!; [done..|]. by apply matcher_ok_room. Qed.

Lemma nonce_steps n p st signer nonce ok refuse :
  matcher_ok n st → pc_ok p ok → steps_to n p AtNonce (Ret (check_nonce st signer nonce ok refuse)).
Proof.
  intros Hm Hok. destruct (check_nonce st signer nonce ok refuse) as [st' pc'] eqn:H.
  apply (check_nonce_ok n) in H as [Hm' Hpc]; [|done]. apply steps_to_ret; [|done]. by destruct Hpc as [->|[e ->]].
Qed.

Lemma submit_steps n p pc st m o now (k : SubmitResult → Pc) :
  unserved_pc pc = true → matcher_ok n st → Z.of_nat n < NIL → 0 ≤ no_tick o < u64_max → in_u 64 (no_qty o) →
  (∀ r, ticks_ok r → (∀ x, resting_id r = Some x → 0 ≤ x) → pc_ok p (k r) ∧ unserved_pc (k r) = false) →
  steps_to n p pc ('(r, st) ← submit_order st m o now; Ret (st, k r)).
Proof.
  intros Hu Hm Hn Ht Hq Hk. destruct (submit_section n st m o now Hm Hn Ht Hq) as (r & st' & -> & Hm' & Hr & Hx).
  destruct (Hk r Hr Hx) as [Hpc Hf]. exists st', (k r). rewrite Hu, Hf. by split_and!.
Qed.

Lemma backstop_steps n p signer rd st now r :
  matcher_ok n st → pc_ok (POrder p) (AtBackstop now r) →
  steps_to n (POrder p) (AtBackstop now r) (advance_order E p signer rd st (AtBackstop now r)).
Proof.
  intros Hm [Hr Hx]. cbn [advance_order]. pose proof (proj2 Hm (op_market_id p)) as Hs.
  set (o := new_order p _). destruct (demand o r) as [req|].
  - destruct (asked_ok (fill_or_kill_failed r) (maker_of st (op_market_id p)) (backstop_config (en_dep E)) (no_side o) req Hs Hcfg)
      as (s & acc & -> & Hs' & Hprice). rewrite ret_bind. cbv beta iota.
    apply steps_to_ret; [|by apply matcher_ok_maker]. cbn [pc_ok]. destruct acc as [[price k]|]; [|done].
    eapply ticks_ok_with_fill; [done|by eapply Hprice].
  - destruct (resting_id r) as [id|] eqn:Hid; [|by apply steps_to_ret].
    destruct (asked_ok true (maker_of st (op_market_id p)) (backstop_config (en_dep E)) (no_side o) (resting_qty r) Hs Hcfg)
      as (s & acc & -> & Hs' & Hprice). rewrite ret_bind. cbv beta iota.
    apply steps_to_ret; [|by apply matcher_ok_maker]. destruct acc as [[price k]|]; [|done].
    cbn [pc_ok]. split_and!; [done|by apply Hx|by eapply Hprice].
Qed.

(** The reads of a book and of a backstop that an update or a query of the depth makes. *)
Lemma depth_total n st m levels :
  matcher_ok n st →
  ∃ book, match books st !! m with Some b => Book.snapshot b levels | None => Ret snapshot_default end = Ret book.
Proof.
  intros Hm. destruct (proj1 Hm m) as [Hr _]. unfold book_of in Hr.
  destruct (books st !! m); [|by eexists]. eexists. by apply snapshot_correct.
Qed.

Lemma mark_total n st m :
  matcher_ok n st →
  ∃ mark, match backstop st !! m with Some b => reference_price b (backstop_config (en_dep E)) | None => Ret None end = Ret mark.
Proof using Hcfg.
  intros Hm. pose proof (proj2 Hm m) as Hs. unfold maker_of in Hs.
  destruct (backstop st !! m) as [b|]; [|by eexists]. unfold reference_price.
  destruct (decide (history b = [])) as [Hn|Hn]; [unfold trailing_mean; rewrite Hn; by eexists|].
  destruct (trailing_mean_Ret b (quote_twap_window (backstop_config (en_dep E))) Hs Hn ltac:(apply Hcfg)) as [-> _]. by eexists.
Qed.

Lemma broadcast_steps n p m rd st pc :
  matcher_ok n st → (∃ k, broadcasting pc = Some k) → steps_to n p pc (advance_broadcast E m rd st pc).
Proof using Hcfg.
  intros Hm [k Hk]. assert (Hres : ∀ k, pc_ok p (resume k)) by by intros [].
  destruct pc; try done; cbn [advance_broadcast].
  - apply steps_to_ret; [|done]. by destruct (rd_subscribed rd).
  - destruct (depth_total n st m (Z.to_nat MAX_DEPTH_LEVELS) Hm) as [book ->]. rewrite ret_bind. by apply steps_to_ret.
  - by apply steps_to_ret.
  - destruct (mark_total n st m Hm) as [mark ->]. rewrite ret_bind. by apply steps_to_ret.
Qed.

Lemma cancel_steps n p signer rd st :
  matcher_ok n st → payload_ok (PCancel p) → steps_to n (PCancel p) AtSubmit (advance_cancel E p signer rd st AtSubmit).
Proof.
  intros Hm [Hid _]. cbn [advance_cancel]. unfold cancel_owned_order.
  destruct (books st !! cp_market_id p) as [b|] eqn:Hb; [|by apply steps_to_ret].
  destruct (owner_of b (cp_order_id p)); [|by apply steps_to_ret]. case_decide; [by apply steps_to_ret|].
  destruct (proj1 Hm (cp_market_id p)) as [Hr Hl]. unfold book_of in Hr, Hl. rewrite Hb in Hr, Hl. cbn in Hr, Hl.
  destruct (cancel_any b (cp_order_id p) Hr Hid) as (c & b' & -> & Hr' & Hl'). rewrite !ret_bind. cbv beta iota.
  apply steps_to_ret; [by destruct c as [[? ?]|]|]. apply matcher_ok_book; [done|done|lia].
Qed.

Lemma record_steps n m (r : SubmitResult) st now :
  matcher_ok n st → ticks_ok r →
  matcher_ok n (record_tape st m (fills r) now) ∧ matcher_ok n (record_history st m (fills r)).
Proof.
  intros Hm Hr. split; [by eapply matcher_ok_same|]. apply matcher_ok_maker; [done|]. pose proof (proj2 Hm m) as Hs.
  revert Hs. generalize (maker_of st m) as s. unfold ticks_ok in Hr. induction Hr as [|f fs Hf _ IH]; intros s Hs; [done|].
  apply IH. by apply record_price_ok.
Qed.

Lemma advance_books n p signer rd st pc :
  matcher_ok n st → Z.of_nat n < NIL → payload_ok p → pc_ok p pc → locking pc = true →
  steps_to n p pc (advance E p signer rd st pc).
Proof.
  intros Hok Hn Hp Hpc Hl.
  destruct p as [p|p|p|p]; destruct pc as [| |rest found| | |now r|now r id price filled|now r|r|?|?|? ?|? ? ?|?|?|? ? ?|? ? ? ? ?|? ? ? ?|? ? ?|? ? ?|? ? ? ? ?|?|?|? ?|?|?];
    try discriminate Hl; cbn [advance advance_offer advance_cancel advance_portfolio_key];
    try (by apply steps_to_ret); try (by apply backstop_steps); try (by apply (cancel_steps _ _ _ rd)); try (by apply nonce_steps);
    cbn [advance_order]; try (apply broadcast_steps; [done|by eexists]).
  - apply nonce_steps; [done|]. case_decide; cbn; [done|lia].
  - destruct (collateral_check _); [|by apply steps_to_ret]. apply steps_to_ret; [done|]. by eapply matcher_ok_same.
  - destruct rest; [|by apply steps_to_ret]. destruct (check_deposited_collateral _ _ _ _ _ _ _ _); by apply steps_to_ret.
  - apply submit_steps; [done..| | |by intros]; [|by apply Hp]. destruct Hp. by apply sane_tick.
  - destruct Hpc as (Hr & Hid & Hprice). destruct (proj1 Hok (op_market_id p)) as [Hre Hle].
    destruct (cancel_any _ id Hre Hid) as (c & b' & -> & Hr' & Hl'). rewrite ret_bind. cbv beta iota.
    apply steps_to_ret; [by apply ticks_ok_with_fill|]. apply matcher_ok_book; [done|done|lia].
  - apply steps_to_ret; [done|]. case_decide; [done|by apply record_steps].
  - apply steps_to_ret; [done|]. case_decide; [done|by apply (record_steps _ _ _ _ 0)].
  - apply nonce_steps; [done|]. case_decide; cbn; [done|lia].
  - apply submit_steps; [done..| | |].
    + destruct Hp. by apply sane_tick.
    + by apply Hp.
    + intros r _ _. by destruct (post_only_rejected r).
Qed.
End books.

(** ** The invariant of the books *)

(** The handlers that are past the book, or refused before it. *)
Abbreviation served_at := (λ th : nat * Handler, unserved_pc (hd_pc th.2) = false).
Definition served (hs : gmap nat Handler) : nat := base.size (filter served_at hs).

Lemma served_size hs : (served hs ≤ base.size hs)%nat.
Proof. apply map_subseteq_size, map_filter_subseteq. Qed.

Lemma served_arrive hs t h : hs !! t = None → unserved_pc (hd_pc h) = true → served (<[t := h]> hs) = served hs.
Proof.
  intros Ht Hh. unfold served. rewrite map_filter_insert_False by (cbn; congruence).
  by rewrite delete_id by done.
Qed.

Lemma served_step hs t h h' :
  hs !! t = Some h → (unserved_pc (hd_pc h) = false → unserved_pc (hd_pc h') = false) →
  served (<[t := h']> hs) =
    if unserved_pc (hd_pc h) && negb (unserved_pc (hd_pc h')) then S (served hs) else served hs.
Proof.
  intros Ht Himp. unfold served. destruct (unserved_pc (hd_pc h')) eqn:Hh'.
  - rewrite andb_false_r. destruct (unserved_pc (hd_pc h)) eqn:Hh; [|by specialize (Himp eq_refl)].
    rewrite map_filter_insert_not'; [done|cbn; congruence|]. cbn. intros x. rewrite Ht. intros [= <-]. congruence.
  - rewrite andb_true_r, map_filter_insert_True by done. destruct (unserved_pc (hd_pc h)) eqn:Hh.
    + rewrite map_size_insert_None; [done|]. apply map_lookup_filter_None_2. right. intros x Hx. cbn. congruence.
    + rewrite map_size_insert_Some; [done|]. exists h. by apply map_lookup_filter_Some.
Qed.

Record books_ok (n0 : nat) (s : System) : Prop := {
  bo_matcher : matcher_ok (n0 + served (sy_handlers s)) (sy_state s);
  bo_points t h : sy_handlers s !! t = Some h → payload_ok (hd_payload h) ∧ pc_ok (hd_payload h) (hd_pc h);
}.

Section handler_books.
Context (E : Enclave) (Hcfg : config_ok (backstop_config (en_dep E))).

(** A handler never comes back before the book. *)
Lemma advance_past p signer rd st pc st' pc' :
  advance E p signer rd st pc = Ret (st', pc') → unserved_pc pc = false → unserved_pc pc' = false.
Proof.
  intros H Hu. destruct (broadcasting pc) as [k|] eqn:Hbr.
  { apply (advance_update _ _ _ _ _ _ _ _ _ Hbr) in H as [_ [H| ->]]; [by destruct pc'|by destruct k]. }
  destruct (sweeping pc) eqn:Hsw.
  { apply advance_sweep in H as [_ [H|[->|(o & -> & _)]]]; [|done..]. by destruct pc'. }
  destruct p as [p|p|p|p]; destruct pc as [| |? ?| | |now r|now r id price filled|now r|r|?|?|? ?|? ? ?|?|?|? ? ?|? ? ? ? ?|? ? ? ?|? ? ?|? ? ?|? ? ? ? ?|?|?|? ?|?|?];
    try done; cbn [advance advance_order advance_offer advance_cancel advance_portfolio_key] in H;
    try (by injection H as <- <-).
  - destruct (demand _ _); [by take_step|]. destruct (resting_id r); [|by take_step]. take_step. by case_match; [case_match|].
  - by take_step.
  - by take_step.
Qed.

(** Any step of a handler. *)
Lemma advance_ok n p signer rd st pc st' pc' :
  matcher_ok n st → Z.of_nat n < NIL → payload_ok p → pc_ok p pc →
  advance E p signer rd st pc = Ret (st', pc') →
  pc_ok p pc' ∧ matcher_ok (if unserved_pc pc && negb (unserved_pc pc') then S n else n) st'.
Proof.
  intros Hm Hn Hp Hpc H.
  destruct (locking pc) eqn:Hl.
  { destruct (advance_books E Hcfg n p signer rd st pc Hm Hn Hp Hpc Hl) as (st1 & pc1 & Hrun & Hpc1 & Hm1).
    rewrite H in Hrun. by injection Hrun as <- <-. }
  assert (Hs : unserved_pc pc = false) by by destruct pc. rewrite Hs. cbn [andb].
  destruct (sweeping pc) eqn:Hsw.
  { apply advance_sweep in H as [Hf Hor]; [|done]. split; [|by eapply matcher_ok_frame].
    destruct Hor as [H|[->|(o & -> & _)]]; [by destruct pc'|done|done]. }
  assert (st' = st ∧ pc_ok p pc') as [-> Hok]; [|done].
  destruct pc; try done; destruct p; cbn in H; take_step; done.
Qed.

End handler_books.

Section system.
Context (E : Enclave) (H : Host) (answers : Answers → Prop) (Hcfg : config_ok (backstop_config (en_dep E))).

(** Any step of a task. *)
Lemma advance_task_ok n an st pc st' pc' :
  matcher_ok n st → advance_task E H an st pc = Ret (st', pc') → matcher_ok n st'.
Proof.
  intros Hm Hadv. apply advance_task_frame in Hadv as (_ & Hb & _ & Hs & _).
  destruct pc; try (by eapply matcher_ok_same).
  eapply (matcher_ok_same n (foldl _ st prices)); [|exact Hs|].
  - rewrite Hb. clear. revert st. induction prices as [|e prices IH]; intros st; cbn [foldl]; [done|]. by rewrite <- IH.
  - pose proof (poll_oracle_spec n {["feed" := "feed"]} st prices) as [Hok _]. unfold poll_oracle_prices in Hok.
    rewrite decide_False in Hok by (by vm_compute). by apply Hok.
Qed.

(** The steps of a task that hold the lock of the tapes, of the backstops or of the nonces. *)
Definition task_locking (pc : TaskPc) : bool :=
  match pc with AtRecord _ | AtSave | AtSeed _ => true | _ => false end.

Lemma task_locking_total an st pc : task_locking pc = true → ∃ st' pc', advance_task E H an st pc = Ret (st', pc').
Proof.
  destruct pc; try done; intros _; cbn [advance_task]; [by eexists _, _..|].
  destruct (seed_history_total (ho_seeding H) st p (an_now an)) as ([st' r] & ->). by eexists _, _.
Qed.

Lemma broadcast_total n m rd st pc :
  matcher_ok n st → is_Some (broadcasting pc) → ∃ pc', advance_broadcast E m rd st pc = Ret (st, pc').
Proof using Hcfg.
  intros Hm [k Hk]. destruct pc; try done; cbn [advance_broadcast].
  - by eexists.
  - destruct (depth_total n st m (Z.to_nat MAX_DEPTH_LEVELS) Hm) as [book ->]. by eexists.
  - by eexists.
  - destruct (mark_total E Hcfg n st m Hm) as [mark ->]. by eexists.
Qed.

Lemma get_orderbook_total n st m levels group :
  matcher_ok n st → ∃ r, get_orderbook (backstop_config (en_dep E)) st m levels group = Ret r.
Proof using Hcfg.
  intros Hm. unfold get_orderbook, build_orderbook_response_grouped.
  destruct (depth_total n st m (Z.to_nat (clamp (default DEFAULT_DEPTH_LEVELS levels) 1 MAX_DEPTH_LEVELS)) Hm) as [book ->].
  rewrite ret_bind. destruct (mark_total E Hcfg n st m Hm) as [mark ->]. by eexists.
Qed.

Lemma sys_step_books n0 s s' :
  sys_step E H answers s s' → Z.of_nat (n0 + base.size (sy_handlers s')) < NIL → books_ok n0 s → books_ok n0 s'.
Proof.
  intros Hst Hn [Hm Hp].
  destruct Hst as [s t p signer Ht [Hpay _]|s t h an rd st' pc' Ht _ _ Hadv|s t h p o sweep hash Ht _ _ _|s t j _ _|s t pc an st' pc' _ _ Hadv];
    cbn [with_handler with_task sy_state sy_handlers] in *.
  - split; cbn [with_handler sy_state sy_handlers]; [by rewrite served_arrive|].
    intros t1 h1 [[_ <-]|[_ H1]]%lookup_insert_Some; [done|by eapply Hp].
  - destruct (Hp t h Ht) as [Hpay Hpc]. rewrite map_size_insert_Some in Hn by done.
    pose proof (served_size (sy_handlers s)) as Hle.
    destruct (advance_ok (at_chain E (an_load an)) Hcfg _ _ _ _ _ _ _ _ Hm ltac:(lia) Hpay Hpc Hadv) as (Hpc' & Hm').
    pose proof (advance_past _ _ _ _ _ _ _ _ Hadv) as Hun.
    split; cbn [with_handler sy_state sy_handlers].
    + rewrite (served_step _ t h) by done. cbn [move_to hd_pc]. destruct (_ && _); [|done]. by rewrite Nat.add_succ_r.
    + intros t1 h1 [[_ <-]|[_ H1]]%lookup_insert_Some; [done|by eapply Hp].
  - split; [by eapply matcher_ok_same|done].
  - by split.
  - split; [by eapply advance_task_ok|done].
Qed.

Lemma sys_step_size s s' : sys_step E H answers s s' → (base.size (sy_handlers s) ≤ base.size (sy_handlers s'))%nat.
Proof.
  intros []; cbn [with_handler with_task sy_handlers];
    [rewrite map_size_insert_None by done; lia|by rewrite map_size_insert_Some|done..].
Qed.

Lemma sys_reach_books n0 st s :
  matcher_ok n0 st → sys_reach E H answers st s → Z.of_nat (n0 + base.size (sy_handlers s)) < NIL → books_ok n0 s.
Proof.
  intros Hst. revert s. refine (sys_reach_ind E H answers st _ _ _).
  - intros _. split; cbn [sys_start sy_state sy_handlers].
    + unfold served. rewrite map_filter_empty. cbn. by rewrite Nat.add_0_r.
    + intros t h. by rewrite lookup_empty.
  - intros s1 s2 _ Hst12 IH Hn. pose proof (sys_step_size _ _ Hst12). eapply sys_step_books; [done..|]. apply IH. lia.
Qed.
End system.

(** ** Schedules *)

Inductive Move :=
| Arrive (t : nat) (p : Payload) (signer : Address)
| Go (t : nat)
| Begin (t : nat) (j : Job)
| Run (t : nat).

Section schedules.
Context (E : Enclave) (H : Host) (answers : Answers → Prop) (rd : Reading) (Hrd : reading_typed rd) (an : Answers) (Han : answers an).

Definition may_startb (tasks : gmap nat TaskPc) (j : Job) : bool :=
  match j with
  | InterestPoll contracts =>
      bool_decide (contracts = map_to_list (ho_contracts H)) &&
      bool_decide (map_Forall (λ _ pc, is_scan pc = false) tasks)
  | _ => true
  end.

Lemma may_startb_ok tasks j : may_startb tasks j = true → may_start H tasks j.
Proof. destruct j; try done. cbn. rewrite andb_true_iff, !bool_decide_eq_true. by intros [-> ?]. Qed.

(** The step a move names. *)
Definition move (s : System) (mv : Move) : option System :=
  match mv with
  | Arrive t p signer =>
      if decide (sy_handlers s !! t = None ∧ payload_typed p) then
        Some (with_handler s t (sy_state s) {| hd_payload := p; hd_signer := signer; hd_pc := AtNonce |})
      else None
  | Go t =>
      h ← sy_handlers s !! t;
      match advance (at_chain E (an_load an)) (hd_payload h) (hd_signer h) rd (sy_state s) (hd_pc h) with
      | Ret (st', pc') => Some (with_handler s t st' (move_to h pc'))
      | Panic => None
      end
  | Begin t j =>
      if decide (sy_tasks s !! t = None ∧ may_startb (sy_tasks s) j = true) then
        Some (with_task s t (sy_state s) (start j))
      else None
  | Run t =>
      pc ← sy_tasks s !! t;
      match advance_task E H an (sy_state s) pc with
      | Ret (st', pc') => Some (with_task s t st' pc')
      | Panic => None
      end
  end.
Fixpoint play (s : System) (mvs : list Move) : option System :=
  match mvs with [] => Some s | mv :: mvs => s ← move s mv; play s mvs end.

Lemma move_step s mv s' : move s mv = Some s' → sys_step E H answers s s'.
Proof using Han Hrd.
  destruct mv as [t p signer|t|t j|t]; cbn [move].
  - case_decide as Hd; intros [= <-]. destruct Hd as [? Hp]. by constructor.
  - intros (h & Ht & Hs)%bind_Some. destruct (advance _ _ _ _ _ _) as [[st' pc']|] eqn:Ha; [|done].
    injection Hs as <-. by econstructor.
  - case_decide as Hd; intros [= <-]. destruct Hd as [? Hp%may_startb_ok]. by constructor.
  - intros (pc & Ht & Hs)%bind_Some. destruct (advance_task _ _ _ _ _) as [[st' pc']|] eqn:Ha; [|done].
    injection Hs as <-. by econstructor.
Qed.

Lemma play_steps mvs s s' : play s mvs = Some s' → rtc (sys_step E H answers) s s'.
Proof using Han Hrd.
  revert s. induction mvs as [|mv mvs IH]; intros s; cbn [play]; [by intros [= <-]|].
  intros (s1 & H1%move_step & Hs)%bind_Some. eapply rtc_l; [done|]. by apply IH.
Qed.

Lemma play_start st mvs s : play (sys_start st) mvs = Some s → sys_reach E H answers st s.
Proof using Han Hrd. apply play_steps. Qed.
End schedules.

Definition demo_reading : Reading := {| rd_now := 0; rd_deposited := None; rd_funding := 0; rd_subscribed := true |}.
Lemma demo_reading_typed : reading_typed demo_reading.
Proof. done. Qed.

(** A host without a chain, whose feed quotes one market. *)
Definition demo_host : Host := {|
  ho_u256 := checked_u256; ho_rpc_url := None; ho_signature := 0; ho_sort := id;
  ho_feeds := {[demo_market := "feed"]}; ho_contracts := ∅; ho_monitor := None; ho_seeding := false |}.
Definition demo_answers : Answers := {|
  an_load := en_load demo_enclave; an_provider := {| get_block_number := Err "down"; get_logs := λ _ _ _ _ _, Err "down" |};
  an_live := λ _, {[demo_market := 100200]}; an_funding := ∅; an_broadcast := λ _ _, None; an_now := 0 |}.
Definition anything : Answers → Prop := λ _, True.

Abbreviation play_demo := (play demo_enclave demo_host demo_reading demo_answers).
Abbreviation demo_reach := (sys_reach demo_enclave demo_host anything quoted_state).

Lemma play_demo_reach mvs s : play_demo (sys_start quoted_state) mvs = Some s → demo_reach s.
Proof. exact (play_start demo_enclave demo_host anything demo_reading demo_reading_typed demo_answers I quoted_state mvs s). Qed.

(** An order that rests, which the backstop takes whole.  Before it cancels what it left in the book,
    another order fills it and an offer of a third trader comes to rest in its slot. *)
Definition race_schedule : list Move :=
  Arrive 0 (POrder (demo_payload Sell 100200 5 GoodTilCancel false 1)) 7 :: replicate 5 (Go 0) ++
  Arrive 1 (POrder (demo_payload Buy 100200 5 ImmediateOrCancel false 1)) 8 :: replicate 24 (Go 1) ++
  Arrive 2 (POffer (demo_offer Sell 100300 4 1)) 9 :: replicate 8 (Go 2) ++ replicate 30 (Go 0).

Definition raced : option System := play_demo (sys_start quoted_state) race_schedule.

(** The response of the third handler, the top of the book, and the position of the first signer. *)
Definition race_view (s : System) :=
  (hd_pc <$> sy_handlers s !! 2%nat,
   (best_ask (book_of (sy_state s) demo_market), best_bid (book_of (sy_state s) demo_market)),
   pm_signed_size <$> position_cache (sy_state s) !! (7, demo_market)).

Lemma race_value :
  race_view <$> raced = Some (Some (Finished (ROffer (Ok (OfferResting 0)))), (None, None), Some (-10)).
Proof. by vm_compute. Qed.

(** The rescue cancels the id it was given without looking: the offer of signer 9 was answered as
    resting and nothing rests; the order of signer 7, of size 5, sold 5 to signer 8 and 5 to the
    backstop. *)
Lemma rescue_race :
  ∃ s, demo_reach s ∧
    hd_pc <$> sy_handlers s !! 2%nat = Some (Finished (ROffer (Ok (OfferResting 0)))) ∧
    (best_ask (book_of (sy_state s) demo_market), best_bid (book_of (sy_state s) demo_market)) = (None, None) ∧
    pm_signed_size <$> position_cache (sy_state s) !! (7, demo_market) = Some (-10).
Proof.
  pose proof race_value as H. apply fmap_Some in H as (s & Hs & Hv). exists s.
  split; [exact (play_demo_reach race_schedule s Hs)|].
  clear Hs. unfold race_view in Hv. injection Hv as H1 H2 H3 H4. by rewrite <- H1, <- H2, <- H3, <- H4.
Qed.

(** ** Theorems *)

(** C7: However the steps of any number of handlers and background tasks interleave, from any state, and
    whatever the chain and the price feed answer: two requests of one signer that both got past the
    nonce check carry different nonces, and no such nonce is above the last one recorded for the signer. *)
Theorem interleaved_no_replay E H answers st s :
  sys_reach E H answers st s →
  (∀ t t' h h', sy_handlers s !! t = Some h → sy_handlers s !! t' = Some h' → t ≠ t' →
     admitted (hd_pc h) = true → admitted (hd_pc h') = true → hd_signer h = hd_signer h' → hd_nonce h ≠ hd_nonce h') ∧
  (∀ t h, sy_handlers s !! t = Some h → admitted (hd_pc h) = true →
     ∃ last, last_nonce (sy_state s) !! hd_signer h = Some last ∧ hd_nonce h ≤ last).
Proof. intros Hr. destruct (sys_reach_nonces _ _ _ _ _ Hr) as [H1 H2]. by split. Qed.

(** Three handlers, a price poll and a snapshot, and the same request again. *)
Definition replay_schedule : list Move :=
  [Begin 0 OraclePoll; Run 0] ++ race_schedule ++
  [Begin 1 PersistSnapshot; Run 0; Run 1; Arrive 3 (POrder (demo_payload Buy 100200 5 ImmediateOrCancel false 1)) 8; Go 3;
                    Arrive 4 (POffer (demo_offer Sell 100300 4 2)) 8; Go 4].

Lemma interleaved_no_replay_witness :
  ∃ s h h', demo_reach s ∧ sy_handlers s !! 1%nat = Some h ∧
    sy_handlers s !! 4%nat = Some h' ∧ hd_signer h = hd_signer h' ∧ hd_nonce h ≠ hd_nonce h' ∧
    admitted <$> (hd_pc <$> sy_handlers s !! 3%nat) = Some false.
Proof.
  set (view := λ s : System, ((λ h, (hd_signer h, admitted (hd_pc h))) <$> sy_handlers s !! 1%nat,
                              (λ h, (hd_signer h, admitted (hd_pc h))) <$> sy_handlers s !! 4%nat,
                              admitted <$> (hd_pc <$> sy_handlers s !! 3%nat))).
  assert (Hv : view <$> play_demo (sys_start quoted_state) replay_schedule =
                 Some (Some (8, true), Some (8, true), Some false)) by by vm_compute.
  apply fmap_Some in Hv as (s & Hs & Hv). unfold view in Hv. injection Hv as H1 H4 H3.
  symmetry in H1, H4. apply fmap_Some in H1 as (h & H1 & E1), H4 as (h' & H4 & E4).
  injection E1 as E1 A1. injection E4 as E4 A4.
  pose proof (play_demo_reach replay_schedule s Hs) as Hr.
  clear Hs. exists s, h, h'. split; [exact Hr|]. split; [exact H1|]. split; [exact H4|]. split; [congruence|]. split; [|exact (eq_sym H3)].
  apply (proj1 (interleaved_no_replay demo_enclave demo_host anything quoted_state s Hr) 1%nat 4%nat); try done; congruence.
Defined.

(** C6: However the handlers and the background tasks interleave, and whatever they read, every book
    stays reachable from the empty one by its own operations and every backstop state in range; and
    nothing that holds the lock of the nonces, of the books, of the tapes or of the backstops aborts
    there, so none of these four is ever poisoned: no step of a signed handler under one of them, the
    update it broadcasts included; no step of a task under one of them, that is the price poll's record,
    the snapshot of the persist loop and the seeded history; and no lock section of a query of the depth,
    alone or with others in between.  (The other holders, [get_candles], [get_trades] and the funding
    poll's best prices, are total functions.)  This is for a backstop configuration in range, as the
    default one is; from a state with reachable books that have served at most [n0] orders, as an empty
    or restored one has none; while the requests so far, refused ones included, and [n0] are below the
    2^32 - 1 slots of a book's arena. *)
Theorem interleaved_books_ok E H answers n0 st s :
  config_ok (backstop_config (en_dep E)) → matcher_ok n0 st → sys_reach E H answers st s →
  Z.of_nat (n0 + base.size (sy_handlers s)) < NIL →
  (∀ m, Book.reachable (book_of (sy_state s) m) ∧ state_ok (maker_of (sy_state s) m)) ∧
  (∀ t h load rd, sy_handlers s !! t = Some h → locking (hd_pc h) = true →
     ∃ st' pc', advance (at_chain E load) (hd_payload h) (hd_signer h) rd (sy_state s) (hd_pc h) = Ret (st', pc')) ∧
  (∀ t pc an, sy_tasks s !! t = Some pc → task_locking pc = true →
     ∃ st' pc', advance_task E H an (sy_state s) pc = Ret (st', pc')) ∧
  (∀ m rd pc, is_Some (broadcasting pc) → ∃ pc', advance_broadcast E m rd (sy_state s) pc = Ret (sy_state s, pc')) ∧
  (∀ m levels group, ∃ r, get_orderbook (backstop_config (en_dep E)) (sy_state s) m levels group = Ret r).
Proof.
  intros Hc Hst Hr Hn. destruct (sys_reach_books E H answers Hc n0 st s Hst Hr Hn) as [Hm Hp]. split_and!.
  - intros m. split; [apply (proj1 Hm m)|apply (proj2 Hm m)].
  - intros t h load rd Ht Hl. destruct (Hp t h Ht) as [Hpay Hpc]. pose proof (served_size (sy_handlers s)) as Hle.
    destruct (advance_books (at_chain E load) Hc _ _ (hd_signer h) rd _ _ Hm ltac:(lia) Hpay Hpc Hl) as (st' & pc' & Hrun & _). by exists st', pc'.
  - intros t pc an _. apply task_locking_total.
  - intros m rd pc Hb. by eapply broadcast_total.
  - intros m levels group. by eapply get_orderbook_total.
Qed.

Lemma interleaved_books_ok_witness :
  ∃ s, demo_reach s ∧ Book.reachable (book_of (sy_state s) demo_market) ∧
    ∃ r, get_orderbook (backstop_config (en_dep demo_enclave)) (sy_state s) demo_market None None = Ret r.
Proof.
  pose proof race_value as H. apply fmap_Some in H as (s & Hs & _). exists s.
  pose proof (play_demo_reach race_schedule s Hs) as Hr. split; [exact Hr|].
  assert (Hz : (λ s, base.size (sy_handlers s)) <$> raced = Some 3%nat) by by vm_compute.
  rewrite Hs in Hz. clear Hs. injection Hz as Hz.
  destruct (interleaved_books_ok demo_enclave demo_host anything 0 quoted_state s config_default_ok matcher_ok_quoted Hr
              ltac:(rewrite Hz; by vm_compute)) as (Hb & _ & _ & _ & Hq).
  split; [apply Hb|apply Hq].
Defined.
