(* ===== verification/SystemProps.v ===== *)
(** * Handlers and background tasks together: theorems

    What the interleaving of [Interleave] means for what the tasks read: a snapshot taken while handlers
    run still refuses every nonce that was spent before it, the open-interest index is what the chain
    showed whatever runs between a scan's read and its write, and the collateral gate, which takes no lock,
    can admit two orders on the margin of one. *)
From S2P Require Import Prelude Ints Types U256 I256 Risk Averages Fees MarketData Backstop.
From S2P Require Import Positions Liquidation Occupancy Book BookWf BookOps BookSpec BookRefine BookProps.
From S2P Require Import Wire Matcher MatcherBook MatcherProps MatcherTrace Persistence Service ServiceProps Display.
From S2P Require Import Tasks TasksProps Interleave InterleaveProps.
Open Scope Z_scope.

(** ** Nonces only grow *)

Definition nonces_le (m m' : gmap Address Z) : Prop :=
  ∀ a l, m !! a = Some l → ∃ l', m' !! a = Some l' ∧ l ≤ l'.

#[export] Instance nonces_le_preorder : PreOrder nonces_le.
Proof.
  split.
  - intros m a l Hl. exists l. split; [done|lia].
  - intros m1 m2 m3 H1 H2 a l (l' & Hl' & ?)%H1. apply H2 in Hl' as (l'' & Hl'' & ?). exists l''. split; [done|lia].
Qed.

Lemma nonces_le_insert m a n : (∀ l, m !! a = Some l → l < n) → nonces_le m (<[a := n]> m).
Proof.
  intros Hn a' l Hl. destruct (decide (a' = a)) as [->|Hne].
  - exists n. rewrite lookup_insert_eq. split; [done|]. specialize (Hn _ Hl). lia.
  - exists l. rewrite lookup_insert_ne by done. split; [done|lia].
Qed.

Section monotone.
Context (E : Enclave) (H : Host) (answers : Answers → Prop).

Lemma sys_step_nonces_le s s' :
  sys_step E H answers s s' → nonces_le (last_nonce (sy_state s)) (last_nonce (sy_state s')).
Proof.
  intros []; cbn [with_handler with_task sy_state]; try done.
  - match goal with Ha : advance _ _ _ _ _ _ = _ |- _ => apply advance_nonces in Ha end.
    destruct (hd_pc h) eqn:Hpc; try (by match goal with Ha : _ ∧ _ |- _ => destruct Ha as [-> _] end).
    match goal with Ha : _ ∨ _ |- _ => destruct Ha as [(-> & _)|(Hlt & -> & _)] end; [done|by apply nonces_le_insert].
  - match goal with Ha : advance_task _ _ _ _ _ = _ |- _ => apply advance_task_frame in Ha as [-> _] end. done.
Qed.

Lemma sys_steps_nonces_le s s' :
  rtc (sys_step E H answers) s s' → nonces_le (last_nonce (sy_state s)) (last_nonce (sy_state s')).
Proof. induction 1 as [|s s1 s2 Hst _ IH]; [done|]. etrans; [by eapply sys_step_nonces_le|done]. Qed.

(** ** Snapshots *)

(** A task that saved took its snapshot at some moment of the run. *)
Lemma advance_task_saved an st pc st' p :
  advance_task E H an st pc = Ret (st', TaskDone (Saved p)) →
  pc = TaskDone (Saved p) ∨ (pc = AtSave ∧ p = snapshot_for_persistence st).
Proof.
  destruct pc as [|prices|[|[m c] rest]|m keys next rest| | |q|u k hints|u k [|m rest] found|k liq ms [|m rest] found|z [|m rest] legs|k [|m rest] r|o];
    cbn [advance_task]; try (by intros [=]); try (by intros [= <- ->]; left).
  - by case_decide.
  - intros (x & _ & Hx)%bind_Ret. destruct x as [[keys next]|e]; by injection Hx.
  - destruct (realized_pnl_flush _ _ st). by intros [=].
  - intros [= <- <-]. by right.
  - intros (x & _ & Hx)%bind_Ret. destruct x. by injection Hx.
  - destruct (open_portfolio st k hints). destruct u; [|destruct (ho_monitor H)|]; by intros [=].
  - case_decide; [by destruct u|]. intros (pc & Hpc & Hx)%bind_Ret. injection Hx as _ ->. destruct u; cbn [portfolio_read] in Hpc.
    1,2: by apply bind_Ret in Hpc as (r & _ & [=]). done.
  - intros (pc & Hpc & Hx)%bind_Ret. injection Hx as _ ->. unfold portfolio_locked in Hpc. case_decide; [done|].
    apply bind_Ret in Hpc as (r & _ & Hr). destruct r as [margin|e]; [by destruct (negb _)|done].
  - intros (pc & Hpc & Hx)%bind_Ret. injection Hx as _ ->. unfold send_liquidation in Hpc.
    by apply bind_Ret in Hpc as (r & _ & [=]).
  - intros (x & _ & Hx)%bind_Ret. destruct x. by injection Hx.
Qed.

Lemma snapshot_moment s s' k p :
  rtc (sys_step E H answers) s s' → sy_tasks s !! k ≠ Some (TaskDone (Saved p)) →
  sy_tasks s' !! k = Some (TaskDone (Saved p)) →
  ∃ mid, rtc (sys_step E H answers) s mid ∧ rtc (sys_step E H answers) mid s' ∧ p = snapshot_for_persistence (sy_state mid).
Proof.
  intros Hr Hs. revert s' Hr. refine (rtc_ind_r _ _ _ _); [done|].
  intros s1 s2 Hr Hst IH Hk.
  assert (sy_tasks s1 !! k = Some (TaskDone (Saved p)) ∨ p = snapshot_for_persistence (sy_state s1)) as [H1| ->].
  - destruct Hst; cbn [with_handler with_task sy_tasks] in Hk; try (by left).
    + apply lookup_insert_Some in Hk as [[_ Hk]|[_ Hk]]; [by destruct j|by left].
    + apply lookup_insert_Some in Hk as [[<- ->]|[_ Hk]]; [|by left].
      match goal with Ha : advance_task _ _ _ _ _ = _ |- _ => apply advance_task_saved in Ha as [->|[_ ->]] end; [by left|by right].
  - destruct (IH H1) as (mid & Ha & Hb & Hp). exists mid. split_and!; [done|by eapply rtc_r|done].
  - exists s1. split; [done|]. split; [by apply rtc_once|done].
Qed.
End monotone.

(** A state restored from a snapshot accepts a nonce exactly when the state of that moment did. *)
Lemma restored_accepts fresh st signer n :
  accepts (apply_persisted_state fresh (snapshot_for_persistence st)) signer n = accepts st signer n.
Proof. by rewrite !accepts_spec. Qed.

Lemma accepts_le st st' signer n :
  nonces_le (last_nonce st) (last_nonce st') → accepts st' signer n = true → accepts st signer n = true.
Proof.
  intros Hle. rewrite !accepts_spec. destruct (last_nonce st !! signer) as [l|] eqn:Hl; [|done].
  destruct (Hle _ _ Hl) as (l' & -> & ?). rewrite !bool_decide_eq_true. lia.
Qed.

(** ** The open-interest index *)

Section interest.
Context (E : Enclave) (H : Host) (answers : Answers → Prop).
Context (touched : Address → Z → Z → list (list Key)).
Context (Hhonest : ∀ an, answers an → honest (ho_signature H) touched (an_provider an)).
Abbreviation onchain_id := (onchain (en_dep E)).
Abbreviation indexed := (index_ok onchain_id touched (ho_contracts H)).

(** What a scan holds between its read of the index and its write. *)
Definition scan_ok (st : AppState) (pc : TaskPc) : Prop :=
  match pc with
  | AtScan rest => Forall (λ e, ho_contracts H !! e.1 = Some e.2) rest
  | AtScanned m keys next rest =>
      Forall (λ e, ho_contracts H !! e.1 = Some e.2) rest ∧
      ∃ c head, ho_contracts H !! m = Some c ∧ 0 ≤ head < 2 ^ 63 ∧ next = head + 1 ∧
        keys = topic_keys (logs_between touched c (onchain_id m)
          match oi_index st !! m with Some (_, from) => from | None => 0 end head)
  | _ => True
  end.

(** One scan at a time, so that nothing comes between the two. *)
Definition one_scan (tasks : gmap nat TaskPc) : Prop :=
  ∀ t t' pc pc', tasks !! t = Some pc → tasks !! t' = Some pc' → is_scan pc = true → is_scan pc' = true → t = t'.

Record interest_ok (s : System) : Prop := {
  io_index : indexed (sy_state s);
  io_scans t pc : sy_tasks s !! t = Some pc → scan_ok (sy_state s) pc;
  io_one : one_scan (sy_tasks s);
}.

(** The write of a scan. *)
Lemma store_scan_ok st m keys next rest :
  indexed st → scan_ok st (AtScanned m keys next rest) → indexed (store_scan st m keys next).
Proof.
  intros Hi (_ & c & head & Hc & Hhead & -> & ->) m' c' e Hc'. unfold store_scan. cbv zeta. cbn [set_oi_index oi_index].
  destruct (decide (m' = m)) as [->|Hne]; [|rewrite lookup_insert_ne by done; by apply Hi].
  rewrite lookup_insert_eq. intros [= <-]. rewrite Hc in Hc'. injection Hc' as <-. unfold entry_ok. cbn [fst snd].
  destruct (oi_index st !! m) as [[old from]|] eqn:Ho.
  - destruct (Hi _ _ _ Hc Ho) as (n & Hn & Hk). cbn [fst snd] in Hn, Hk. exists (Z.max n (head + 1)). split; [lia|].
    rewrite Hk. by apply seen_extend.
  - exists (head + 1). split; [lia|]. rewrite (left_id_L ∅ _). unfold seen_below. by replace (head + 1 - 1) with head by lia.
Qed.

(** The read of a scan and what the chain answers. *)
Lemma scan_step_ok an st m c rest st' pc' :
  answers an → scan_ok st (AtScan ((m, c) :: rest)) →
  advance_task E H an st (AtScan ((m, c) :: rest)) = Ret (st', pc') → st' = st ∧ scan_ok st pc'.
Proof using Hhonest.
  intros Ha [Hc Hrest]%Forall_cons. cbn [advance_task fst snd] in *. destruct (Hhonest an Ha) as [Hhead Hlogs].
  unfold index_open_interest, broadcast_config, rpc. destruct (ho_rpc_url H) as [url|]; cbn [ok_or try_bind]; [|by intros [= <- <-]].
  destruct (get_block_number _) as [head|e]; cbn [try_bind]; [|by intros [= <- <-]].
  specialize (Hhead _ eq_refl).
  destruct (get_logs _ _ _ _ _ _) as [logs|e] eqn:Hl; cbn [try_bind]; rewrite ?ret_bind; intros [= <- <-]; (split; [done|]); [|done].
  apply Hlogs in Hl as ->. split; [done|]. exists c, head. split_and!; try done.
  1,2: lia. unfold u64_add. by rewrite wrapu_small by int_range.
Qed.

Lemma scan_ok_same st st' pc : oi_index st' = oi_index st → scan_ok st pc → scan_ok st' pc.
Proof. intros Heq. destruct pc; try done. cbn. by rewrite Heq. Qed.

(** Which steps are a scan's. *)
Lemma advance_task_scan an st pc st' pc' :
  advance_task E H an st pc = Ret (st', pc') → is_scan pc' = true → is_scan pc = true.
Proof.
  destruct pc as [|prices|[|[m c] rest]|m keys next rest| | |q|u k hints|u k [|m rest] found|k liq ms [|m rest] found|z [|m rest] legs|k [|m rest] r|o];
    cbn [advance_task]; try done; intros Hr Hs; try (by injection Hr as <- <-);
    try (apply bind_Ret in Hr as (x & Hx & Hr); try (destruct x as [? ?]); injection Hr as <- <-; try done).
  - injection Hr as <- <-. by case_decide.
  - destruct (realized_pnl_flush _ _ st). by injection Hr as <- <-.
  - destruct (open_portfolio st k hints). destruct u; [|destruct (ho_monitor H)|]; by injection Hr as <- <-.
  - case_decide; [by injection Hr as <- <-|]. apply bind_Ret in Hr as (x & Hx & [= <- <-]).
    destruct u; cbn [portfolio_read] in Hx; [by apply bind_Ret in Hx as (r & _ & [= <-])..|by injection Hx as <-].
  - unfold portfolio_locked in Hx. case_decide; [by injection Hx as <-|].
    apply bind_Ret in Hx as (r & _ & [= <-]). destruct r as [margin|e]; [by destruct (negb _)|done].
  - unfold send_liquidation in Hx. by apply bind_Ret in Hx as (r & _ & [= <-]).
Qed.

(** A step that leaves the index and the other tasks alone. *)
Lemma interest_ok_same s s' :
  oi_index (sy_state s') = oi_index (sy_state s) → sy_tasks s' = sy_tasks s → interest_ok s → interest_ok s'.
Proof.
  intros Hi Ht [H1 H2 H3]. split; rewrite ?Ht.
  - intros m c e Hc. rewrite Hi. by apply H1.
  - intros t pc Hpc. eapply scan_ok_same; [done|by eapply H2].
  - done.
Qed.

Lemma submit_order_interest st m o now r st' : submit_order st m o now = Ret (r, st') → oi_index st' = oi_index st.
Proof. unfold submit_order. intros Hr. exec_inv. done. Qed.

Lemma advance_interest E' p signer rd st pc st' pc' :
  advance E' p signer rd st pc = Ret (st', pc') → oi_index st' = oi_index st.
Proof.
  intros Hr. destruct (sweeping pc) eqn:Hsw; [by apply advance_sweep in Hr as [[] _]|].
  destruct (broadcasting pc) as [k|] eqn:Hbr; [by apply (advance_update _ _ _ _ _ _ _ _ _ Hbr) in Hr as [-> _]|].
  assert (Hcheck : ∀ n ok refuse, Ret (check_nonce st signer n ok refuse) = Ret (st', pc') → oi_index st' = oi_index st).
  { intros n ok refuse. unfold check_nonce, accept_nonce. destruct (last_nonce st !! signer); [case_decide|]; by intros [= <- _]. }
  destruct p as [p|p|p|p]; destruct pc; try done;
    cbn [advance advance_order advance_offer advance_cancel advance_portfolio_key] in Hr;
    try (by apply Hcheck in Hr); try (by injection Hr as <- <-).
  - destruct (collateral_check _); by injection Hr as <- <-.
  - destruct rest; by injection Hr as <- <-.
  - apply bind_Ret in Hr as ([r st1] & H1%submit_order_interest & [= <- <-]). done.
  - destruct (demand _ _); [by apply bind_Ret in Hr as ([s acc] & _ & [= <- <-])|].
    destruct (resting_id r); [|by injection Hr as <- <-]. by apply bind_Ret in Hr as ([s acc] & _ & [= <- <-]).
  - by apply bind_Ret in Hr as ([r' b] & _ & [= <- <-]).
  - injection Hr as <- <-. by case_decide.
  - injection Hr as <- <-. by case_decide.
  - apply bind_Ret in Hr as ([r st1] & H1%submit_order_interest & [= <- <-]). done.
  - by apply bind_Ret in Hr as (x & _ & [= <- <-]).
  - unfold cancel_owned_order in Hr. apply bind_Ret in Hr as ([st1 r] & H1 & [= <- <-]). exec_inv; done.
Qed.

(** A new or moved task, when it is a scan only if it may be. *)
Lemma one_scan_insert tasks t pc :
  one_scan tasks → (is_scan pc = true → map_Forall (λ t' pc', t' ≠ t → is_scan pc' = false) tasks) →
  one_scan (<[t := pc]> tasks).
Proof.
  intros Hone Hpc t1 t2 pc1 pc2 [[<- <-]|[Hne1 H1]]%lookup_insert_Some [[<- <-]|[Hne2 H2]]%lookup_insert_Some Hs1 Hs2; try done.
  - specialize (Hpc Hs1 _ _ H2). by rewrite Hpc in Hs2 by done.
  - specialize (Hpc Hs2 _ _ H1). by rewrite Hpc in Hs1 by done.
  - by eapply Hone.
Qed.

Lemma sys_step_interest s s' : sys_step E H answers s s' → interest_ok s → interest_ok s'.
Proof using Hhonest.
  intros Hst Hok. destruct Hst as [s t p signer Ht Hpay|s t h an rd st' pc' Ht _ _ Hadv|s t h p o sweep hash Ht _ _ _|s t j Ht Hj|
    s t pc an st' pc' Ht Han Hadv].
  - by apply (interest_ok_same s).
  - apply (interest_ok_same s); [|done|exact Hok]. by eapply advance_interest.
  - by apply (interest_ok_same s).
  - destruct Hok as [H1 H2 H3]. split; cbn [with_task sy_state sy_tasks]; [done| |].
    + intros t1 pc1 [[_ <-]|[_ Hpc]]%lookup_insert_Some; [|by eapply H2]. destruct j as [|contracts| | | | | |]; try done.
      cbn [start scan_ok]. destruct Hj as [Hperm _]. rewrite Hperm. apply Forall_forall. intros [m c] Hin.
      by apply elem_of_map_to_list in Hin.
    + apply one_scan_insert; [done|]. destruct j; try done. intros _. destruct Hj as [_ Hj]. intros t1 pc1 Hpc _. by eapply Hj.
  - destruct Hok as [H1 H2 H3]. pose proof (H2 _ _ Ht) as Hpc. pose proof (advance_task_scan _ _ _ _ _ Hadv) as Hscan.
    assert (Hone : one_scan (<[t := pc']> (sy_tasks s))).
    { apply one_scan_insert; [done|]. intros Hs t1 pc1 Hpc1 Hne. destruct (is_scan pc1) eqn:Hs1; [|done].
      by destruct Hne; eapply H3; [..|by apply Hscan]. }
    assert (oi_index st' = oi_index (sy_state s) ∧ scan_ok st' pc' ∨
            ∃ m keys next rest, pc = AtScanned m keys next rest ∧ st' = store_scan (sy_state s) m keys next ∧ pc' = AtScan rest)
      as [[Hi Hpc']|(m & keys & next & rest & -> & -> & ->)].
    { destruct (is_scan pc) eqn:Hs.
      - destruct pc as [| |[|[m c] rest]|m keys next rest| | | | | | | | |]; try done.
        + cbn in Hadv. injection Hadv as <- <-. by left.
        + eapply scan_step_ok in Hadv as [-> Hadv]; [by left|done..].
        + cbn in Hadv. injection Hadv as <- <-. right. by eexists _, _, _, _.
      - left. assert (is_scan pc' = false) by (destruct (is_scan pc'); [by specialize (Hscan eq_refl)|done]).
        apply advance_task_frame in Hadv as (_ & _ & _ & _ & Hi). split; [by destruct pc|by destruct pc']. }
    + split; cbn [with_task sy_state sy_tasks]; [|intros t1 pc1 [[_ <-]|[_ H4]]%lookup_insert_Some; [done|]|done].
      * intros m c e Hc. rewrite Hi. by apply H1.
      * eapply scan_ok_same; [done|by eapply H2].
    + split; cbn [with_task sy_state sy_tasks]; [by eapply store_scan_ok| |done].
      intros t1 pc1 [[_ <-]|[Hne H4]]%lookup_insert_Some; [apply Hpc|].
      assert (is_scan pc1 = false); [|by destruct pc1].
      destruct (is_scan pc1) eqn:Hs1; [|done]. by destruct Hne; eapply H3.
Qed.

Lemma sys_reach_interest st s : indexed st → sys_reach E H answers st s → interest_ok s.
Proof using Hhonest.
  intros Hi. revert s. refine (sys_reach_ind E H answers st _ _ _).
  - split; [done|intros t pc|intros t t' pc pc']; cbn; by rewrite lookup_empty.
  - intros s1 s2 _ Hst. by eapply sys_step_interest.
Qed.
End interest.

(** ** The gate under concurrency *)

Section gate_race.
(** A deployment with the gate on, and a deposit that carries one order of five but not two. *)
Definition gated_enclave : Enclave :=
  {| en_i256 := checked_i256; en_load := λ _ _, None; en_key := id; en_keccak := λ _, 0;
     en_dep := {| backstop_config := config_default; collateral_check := Some (1, 2); onchain := λ _, 0 |} |}.
Definition gated_reading : Reading := {| rd_now := 0; rd_deposited := Some 600000000000000000; rd_funding := 0; rd_subscribed := false |}.
Definition gated_order (nonce : Z) : Payload := POrder (demo_payload Buy 100200 5 ImmediateOrCancel false nonce).

(** Both orders pass the gate before either is filled. *)
Definition gate_schedule : list Move :=
  Arrive 0 (gated_order 1) 8 :: Arrive 1 (gated_order 2) 8 :: replicate 3 (Go 0) ++ replicate 3 (Go 1) ++
  replicate 21 (Go 0) ++ replicate 21 (Go 1).

Definition gate_view (s : System) :=
  (hd_pc <$> sy_handlers s !! 0%nat, hd_pc <$> sy_handlers s !! 1%nat,
   (λ m, (pm_signed_size m, @locked_collateral checked_i256 m)) <$> position_cache (sy_state s) !! (8, demo_market)).

Definition gate_result : option System :=
  play gated_enclave demo_host gated_reading demo_answers (sys_start quoted_state) gate_schedule.

Lemma gate_value : snd <$> (gate_view <$> gate_result) = Some (Some (10, 1011020000000000000)).
Proof. by vm_compute. Qed.

(** What the same two orders are answered one after the other. *)
Definition gated_request (nonce : Z) : Request :=
  {| rq_payload := gated_order nonce; rq_signer := 8; rq_reading := gated_reading |}.
Definition gate_in_turn : option (list (option ApiError)) :=
  match serve gated_enclave quoted_state [gated_request 1; gated_request 2] with
  | Ret (_, log) => Some ((λ e, response_error e.2) <$> log)
  | Panic => None
  end.

(** The gate reads the deposit and the positions under no lock that outlives it: with a deposit of 0.6
    dollars, two orders of one signer, each needing 0.5, are both admitted and both filled when their
    reads come before either fill, and lock 1.01 dollars; in turn, the second is refused. *)
Lemma gate_race :
  (∃ s, sys_reach gated_enclave demo_host anything quoted_state s ∧
     (gate_view s).2 = Some (10, 1011020000000000000)) ∧
  gate_in_turn = Some [None; Some (InsufficientCollateralError
    {| required_usd := 1006470000000000000; available_usd := 600000000000000000 |})].
Proof.
  assert (Hrd : reading_typed gated_reading) by done.
  split; [|by vm_compute]. pose proof gate_value as Hv.
  apply fmap_Some in Hv as (v & Hv & Hv2). apply fmap_Some in Hv as (s & Hs & ->). exists s. split; [|by symmetry].
  exact (play_start gated_enclave demo_host anything gated_reading Hrd demo_answers I quoted_state gate_schedule s Hs).
Qed.
End gate_race.

(** ** Theorems *)

(** C9: A snapshot taken while handlers and tasks run is as good as one taken between requests.  Whatever
    interleaves, if the persist loop had not saved at one moment and has saved [p] at a later one,
    then [p] is the snapshot of a state in between; a boot from [p] refuses every nonce of a request that
    had passed its check before the first moment, and accepts every nonce still acceptable at the
    second, so that nothing spent comes back and nobody is locked out. *)
Theorem live_snapshot_refuses E H answers st s s' k p fresh :
  sys_reach E H answers st s → rtc (sys_step E H answers) s s' →
  sy_tasks s !! k ≠ Some (TaskDone (Saved p)) → sy_tasks s' !! k = Some (TaskDone (Saved p)) →
  (∃ mid, rtc (sys_step E H answers) s mid ∧ rtc (sys_step E H answers) mid s' ∧
     p = snapshot_for_persistence (sy_state mid)) ∧
  (∀ t h n, sy_handlers s !! t = Some h → admitted (hd_pc h) = true → n ≤ hd_nonce h →
     accepts (apply_persisted_state fresh p) (hd_signer h) n = false) ∧
  (∀ signer n, accepts (sy_state s') signer n = true → accepts (apply_persisted_state fresh p) signer n = true).
Proof.
  intros Hr Hrun Hs Hs'. destruct (snapshot_moment E H answers s s' k p Hrun Hs Hs') as (mid & H1 & H2 & ->).
  split; [by exists mid|]. apply sys_steps_nonces_le in H1, H2. split.
  - intros t h n Ht Ha Hn. rewrite restored_accepts, accepts_spec.
    destruct (ns_last s (sys_reach_nonces _ _ _ _ _ Hr) t h Ht Ha) as (l & Hl & Hle).
    destruct (H1 _ _ Hl) as (l' & -> & ?). apply bool_decide_eq_false. lia.
  - intros signer n Ha. rewrite restored_accepts. by eapply accepts_le.
Qed.

(** An order past its nonce check, then a snapshot while it runs. *)
Definition save_schedule : list Move := [Begin 0 PersistSnapshot; Run 0].

Lemma live_snapshot_refuses_witness :
  ∃ s s' p, demo_reach s ∧ rtc (sys_step demo_enclave demo_host anything) s s' ∧
    sy_tasks s' !! 0%nat = Some (TaskDone (Saved p)) ∧ accepts (apply_persisted_state new_state p) 7 1 = false.
Proof.
  set (opening := [Arrive 0 (POrder (demo_payload Sell 100200 5 GoodTilCancel false 1)) 7; Go 0; Go 0]).
  set (before := λ s : System, (sy_tasks s !! 0%nat, (λ h, (hd_signer h, hd_nonce h, admitted (hd_pc h))) <$> sy_handlers s !! 0%nat)).
  set (save := λ s : System, play_demo s save_schedule).
  assert (Hv : before <$> play_demo (sys_start quoted_state) opening = Some (None, Some (7, 1, true))) by by vm_compute.
  assert (Hw : (play_demo (sys_start quoted_state) opening ≫= λ s, save s ≫= λ s', (λ t, (s, s', t)) <$> sy_tasks s' !! 0%nat)
                 ≫= (λ r, match r.2 with TaskDone (Saved p) => Some () | _ => None end) = Some ()) by by vm_compute.
  apply bind_Some in Hw as ([[s s'] t] & Hw & Ht). apply bind_Some in Hw as (s1 & Hs & Hw).
  apply bind_Some in Hw as (s2 & Hs' & Hw). apply fmap_Some in Hw as (t1 & Htask & [= -> -> ->]).
  cbn [snd] in Ht. destruct t1 as [| | | | | | | | | | | |[| |p| | | |]]; try discriminate Ht. clear Ht.
  rewrite Hs in Hv. injection Hv as Hnone Hh. apply fmap_Some in Hh as (h & Hh & [= -> Hn Ha]).
  exists s1, s2, p. pose proof (play_demo_reach opening s1 Hs) as Hr.
  pose proof (play_steps demo_enclave demo_host anything demo_reading demo_reading_typed demo_answers I save_schedule s1 s2 Hs') as Hrun.
  clear Hs Hs'. split; [exact Hr|]. split; [exact Hrun|]. split; [exact Htask|].
  apply (proj1 (proj2 (live_snapshot_refuses demo_enclave demo_host anything quoted_state s1 s2 0%nat p new_state Hr Hrun
    ltac:(congruence) Htask)) 0%nat h 1 Hh (eq_sym Ha)). rewrite <- Hn. reflexivity.
Defined.

(** C10: The open-interest index in the presence of everything else.  From a state whose index is what the
    chain showed, against providers that answer from a fixed history or fail, whatever handlers and tasks
    run between a scan's read of the index, its calls and its write: at every moment every entry of
    a configured market is the set of portfolios touched before some block, never below the one it resumes from. *)
Theorem interleaved_index_complete E H answers touched st s :
  (∀ an, answers an → honest (ho_signature H) touched (an_provider an)) →
  index_ok (onchain (en_dep E)) touched (ho_contracts H) st → sys_reach E H answers st s →
  ∀ m c keys next, ho_contracts H !! m = Some c → oi_index (sy_state s) !! m = Some (keys, next) →
    ∃ n, 0 ≤ next ≤ n ∧ ∀ k, k ∈ keys ↔ ∃ b, 0 ≤ b < n ∧ k ∈ topic_keys (touched c (onchain (en_dep E) m) b).
Proof.
  intros Hh Hst Hr m c keys next Hc Hk. destruct (sys_reach_interest E H answers touched Hh st s Hst Hr) as [Hi _ _].
  destruct (Hi m c (keys, next) Hc Hk) as (n & Hn & Hs). cbn [fst snd] in Hn, Hs. exists n.
  split; [done|]. intros k. rewrite Hs. apply elem_of_seen.
Qed.

(** A scan with an order between its read and its write. *)
Definition scan_host : Host := {|
  ho_u256 := checked_u256; ho_rpc_url := Some "rpc"; ho_signature := 0; ho_sort := id;
  ho_feeds := ∅; ho_contracts := {[demo_market := 9]}; ho_monitor := None; ho_seeding := false |}.
Definition scan_answers : Answers := {|
  an_load := λ _ _, None; an_provider := demo_provider; an_live := λ _, ∅; an_funding := ∅;
  an_broadcast := λ _ _, None; an_now := 0 |}.
Definition scan_schedule : list Move :=
  [Begin 0 (InterestPoll [(demo_market, 9)]); Run 0; Arrive 0 (POffer (demo_offer Sell 100300 4 1)) 7] ++
  replicate 4 (Go 0) ++ [Run 0; Run 0].

Lemma interleaved_index_complete_witness :
  ∃ s keys next, sys_reach demo_enclave scan_host (eq scan_answers) quoted_state s ∧
    oi_index (sy_state s) !! demo_market = Some (keys, next) ∧ next = 6 ∧ 77 ∈ keys ∧
    ∃ n, next ≤ n ∧ ∀ k, k ∈ keys ↔ ∃ b, 0 ≤ b < n ∧ k ∈ topic_keys (demo_touched 9 0 b).
Proof.
  assert (Hv : ((λ s, oi_index (sy_state s) !! demo_market) <$>
    play demo_enclave scan_host demo_reading scan_answers (sys_start quoted_state) scan_schedule) = Some (Some ({[77]}, 6)))
    by by vm_compute.
  apply fmap_Some in Hv as (s & Hs & Hv).
  pose proof (play_start demo_enclave scan_host (eq scan_answers) demo_reading demo_reading_typed scan_answers eq_refl quoted_state scan_schedule s Hs) as Hr.
  clear Hs. exists s, {[77]}, 6. split; [exact Hr|]. split; [by symmetry|]. split; [done|]. split; [by apply elem_of_singleton|].
  destruct (interleaved_index_complete demo_enclave scan_host (eq scan_answers) demo_touched quoted_state s) with
    (m := demo_market) (c := 9) (keys := {[77]} : gset Key) (next := 6) as (n & Hn & Hk).
  - intros an <-. split; [by intros head [= <-]|by intros c m from to logs [= <-]].
  - intros m c e _ He. vm_compute in He. discriminate He.
  - exact Hr.
  - by vm_compute.
  - by symmetry.
  - exists n. split; [lia|exact Hk].
Defined.
