(* ===== verification/StateTypes.v ===== *)
(** * The types of the enclave's state

    Rust's compiler keeps every integer of [AppState] within its width; the model's integers are
    unbounded and wrap where the code's operations do.  Here: the state of a running enclave, and the
    locals of every handler and task, stay within the widths the code declares, however their steps
    interleave.  A fold changes a collateral by less than 2^130 and a sweep folds at most 2^64 + 1
    fills, so the only additions that can overflow are those onto an amount already next to the end of
    its 256 bits: [abort_reason] says at which steps, and on which amount of the state. *)
From S2P Require Import Prelude Ints Types U256 I256 Risk Averages Fees MarketData Backstop.
From S2P Require Import Positions Liquidation Occupancy Book BookWf BookOps BookSpec BookRefine BookProps.
From S2P Require Import Wire Matcher MatcherBook MatcherProps MatcherTrace Persistence Service ServiceProps Display.
From S2P Require Import Tasks TasksProps Interleave InterleaveProps.
Open Scope Z_scope.

(** ** Types *)

(** What [alloy] answers is an [I256]. *)
Class I256Typed (I : I256) : Prop := {
  i256_add_typed a b c : i256_add a b = Ret c → in_s 256 c;
  i256_try_from_typed a c : i256_try_from a = Some c → in_s 256 c;
}.

#[export] Instance checked_i256_typed : I256Typed checked_i256.
Proof.
  split; cbn; intros *; unfold try_s.
  - case_decide; [|done]. by intros [= <-].
  - case_decide; [|done]. by intros [= <-].
Qed.

(** An amount within 2^131 of the ends of its type. *)
Definition near_end (x : Z) : Prop := x < - 2 ^ 255 + 2 ^ 131 ∨ 2 ^ 255 - 2 ^ 131 < x.

Definition opt_typed (w : Z) (o : option Z) : Prop := match o with Some x => in_u w x | None => True end.

(** [PortfolioMarketState]. *)
Record position_typed (m : PortfolioMarketState) : Prop := {
  pt_size : in_s 128 (pm_signed_size m);
  pt_entry : in_u 64 (pm_entry_price m);
  pt_collateral : in_s 256 (pm_collateral m);
  pt_leverage : in_u 64 (pm_leverage m);
  pt_take_profit : opt_typed 64 (pm_take_profit m);
  pt_stop_loss : opt_typed 64 (pm_stop_loss m);
  pt_funding : in_s 128 (pm_entry_funding_index m);
}.

(** [PositionFold]. *)
Record fold_typed (f : PositionFold) : Prop := {
  ft_size : in_s 128 (signed_size f);
  ft_entry : in_u 64 (entry_price f);
  ft_collateral : in_s 256 (collateral f);
  ft_leverage : in_u 64 (leverage f);
  ft_take_profit : opt_typed 64 (take_profit f);
  ft_stop_loss : opt_typed 64 (stop_loss f);
  ft_funding : in_s 128 (entry_funding_index f);
}.

(** [SealedParams], as a blob unseals to. *)
Definition params_typed (p : SealedParams) : Prop :=
  in_u 64 (sp_entry_price p) ∧ in_u 64 (sp_size p) ∧ in_u 64 (sp_leverage p) ∧
  opt_typed 64 (sp_take_profit p) ∧ opt_typed 64 (sp_stop_loss p) ∧ in_s 128 (sp_entry_funding_index p).

(** What a read of the chain gives. *)
Definition load_typed (load : Key → MarketId → option (SealedBlob * Z)) : Prop :=
  ∀ k m p coll, load k m = Some (Sealed p, coll) → params_typed p ∧ in_s 256 coll.

Record answers_typed (an : Answers) : Prop := {
  at_load : load_typed (an_load an);
  at_now : in_u 64 (an_now an);
}.

(** The integers of [AppState]; those of a book are in [Book.reachable]. *)
Record state_typed (st : AppState) : Prop := {
  st_tape : map_Forall (λ _ t, Forall trade_ok (trades t)) (market_data st);
  st_nonce : map_Forall (λ _ n, in_u 64 n) (last_nonce st);
  st_pnl m : in_s 128 (cumulative_pnl (maker_of st m));
  st_volume : map_Forall (λ _ v, in_u 128 v) (trader_volume st);
  st_cache : map_Forall (λ _ p, position_typed p) (position_cache st);
  st_pending : map_Forall (λ _ d, in_s 256 d) (pending_realized_pnl st);
  st_interest : map_Forall (λ _ e, in_u 64 e.2) (oi_index st);
}.

Definition fill_typed (f : Fill) : Prop := in_u 64 (f_tick f) ∧ 0 < f_qty f < 2 ^ 64.

(** Every fill takes part of a [u64] quantity, so there are at most 2^64 of them, and the backstop's. *)
Definition MAX_FILLS : Z := 2 ^ 64 + 1.
Record result_typed (r : SubmitResult) : Prop := {
  rt_fills : Forall fill_typed (fills r);
  rt_rests : in_u 64 (resting_qty r);
  rt_count : Z.of_nat (length (fills r)) ≤ MAX_FILLS;
}.
(** Before the backstop is asked. *)
Definition submitted_typed (r : SubmitResult) : Prop := result_typed r ∧ Z.of_nat (length (fills r)) < MAX_FILLS.

(** A fold changes the collateral by less than 2^130, so the sum over a sweep stays far inside its type. *)
Record sweeping_typed (sw : Sweeping) : Prop := {
  swt_volume : in_u 128 (sw_volume sw);
  swt_funding : in_s 128 (sw_funding sw);
  swt_delta : Z.abs (sa_collateral_delta (sw_acc sw)) ≤ 2 ^ 130 * Z.of_nat (sw_index sw);
  swt_weighted : in_u 128 (sa_weighted_price (sw_acc sw));
  swt_rest : Forall fill_typed (sw_rest sw);
  swt_count : Z.of_nat (sw_index sw + length (sw_rest sw)) ≤ MAX_FILLS;
}.
(** Within an iteration, on a fill already taken off the rest. *)
Record filling_typed (sw : Sweeping) (f : Fill) : Prop := {
  flt_sweep : sweeping_typed sw;
  flt_fill : fill_typed f;
  flt_count : Z.of_nat (sw_index sw + length (sw_rest sw)) < MAX_FILLS;
}.
Definition after_typed (k : After) : Prop := match k with AfterOrder r => result_typed r | _ => True end.

(** The locals of a handler at each of its program points. *)
Definition pc_typed (pc : Pc) : Prop :=
  match pc with
  | AtNonce | AtGate | AtGateRead _ _ | AtRegister | AtSubmit | AtReply _ | Finished _ | AtTakerIndex _ _ => True
  | AtBackstop now r => in_u 64 now ∧ submitted_typed r
  | AtTape now r => in_u 64 now ∧ result_typed r
  | AtCancelRested now r _ price filled => in_u 64 now ∧ submitted_typed r ∧ in_u 64 price ∧ 0 < filled < 2 ^ 64
  | AtHistory r | AtVolume r => result_typed r
  | AtNotify k | AtBookView k | AtTapeView k _ | AtMarkView k _ _ => after_typed k
  | AtOwner sw | AtAddVolume sw | AtTakerSeal sw => sweeping_typed sw
  | AtMakerFold sw f _ | AtMakerQueue sw f _ _ _ | AtMakerSeal sw f _ _ | AtMakerIndex sw f _ | AtTakerFold sw f _ =>
      filling_typed sw f
  | AtTakerQueue sw f _ delta _ => filling_typed sw f ∧ Z.abs delta ≤ 2 ^ 130
  end.

(** The locals of a task. *)
Definition task_typed (pc : TaskPc) : Prop :=
  match pc with
  | AtScanned _ _ next _ => in_u 64 next
  | AtRead _ _ _ found | AtReread _ _ _ _ found => Forall position_typed found
  | AtLeg _ rest _ => Forall position_typed rest
  | _ => True
  end.

(** ** A position through a fill *)

Lemma as_u64_typed x : in_u 64 (as_u64 x).
Proof. by apply wrapu_range. Qed.
Lemma u128_typed x y : in_u 128 (u128_mul x y) ∧ in_u 128 (u128_add x y).
Proof. split; by apply wrapu_range. Qed.
Lemma i128_typed x y : in_s 128 (i128_add x y) ∧ in_s 128 (i128_mul x y) ∧ in_s 128 (i128_sub x y).
Proof. split_and!; by apply wraps_range. Qed.
Lemma i128_neg_typed x : in_s 128 (i128_neg x).
Proof. by apply wraps_range. Qed.
Lemma as_i128_typed x : in_s 128 (as_i128 x).
Proof. by apply wraps_range. Qed.
Lemma sat_s_typed w x : 0 < w → in_s w (sat_s w x).
Proof. intros Hw. unfold sat_s, in_s. pose proof (Z.pow_pos_nonneg 2 (w - 1)). lia. Qed.
Lemma in_u64_s128 x : in_u 64 x → in_s 128 x.
Proof. int_range. Qed.
Create HintDb types.
#[local] Hint Resolve as_u64_typed i128_neg_typed as_i128_typed sat_s_typed in_u64_s128 : types.

(** A truncating division leaves the range only at [MIN / -1]. *)
Lemma quot_typed a b : in_s 128 a → b ≠ -1 → in_s 128 (Z.quot a b).
Proof.
  intros Ha Hb. destruct (decide (b = 0)) as [->|H0]; [rewrite Z.quot_0_r_ext by done; int_range|].
  destruct (decide (b = 1)) as [->|H1]; [by rewrite Z.quot_1_r|].
  assert (Hq : Z.abs (Z.quot a b) = Z.abs a / Z.abs b) by (rewrite <- Z.quot_abs, Z.quot_div_nonneg; lia).
  pose proof (Z.div_mod (Z.abs a) (Z.abs b) ltac:(lia)). pose proof (Z.mod_pos_bound (Z.abs a) (Z.abs b) ltac:(lia)).
  assert (2 * Z.abs (Z.quot a b) ≤ Z.abs a) by nia. int_range.
Qed.

Lemma required_margin_range tick qty lev : 0 ≤ required_margin tick qty lev < 2 ^ 128.
Proof.
  unfold required_margin, BPS_DENOMINATOR. cbv zeta.
  set (x := u128_mul _ _). pose proof (proj1 (u128_typed (u128_mul tick qty) (10000 / clamp lev 1 MAX_LEVERAGE))) as Hx.
  fold x in Hx. clearbody x. pose proof (div_nonneg x 10000). pose proof (div_le_self x 10000). int_range.
Qed.

Section folds.
Context {X : I256} {HL : I256Laws X} {HT : I256Typed X}.

(** A computation gives a value of its type, or aborts for the reason [Q]. *)
Definition typed_or {A} (Q : Prop) (P : A → Prop) (m : exec A) : Prop := match m with Ret a => P a | Panic => Q end.

Lemma typed_bind {A B} (Q : Prop) (P : A → Prop) (R : B → Prop) (m : exec A) (k : A → exec B) :
  typed_or Q P m → (∀ a, P a → typed_or Q R (k a)) → typed_or Q R (a ← m; k a).
Proof. destruct m; cbn; [intros Ha Hk; by apply Hk|done]. Qed.

Lemma typed_or_weaken {A} (Q Q' : Prop) (P : A → Prop) (m : exec A) : (Q → Q') → typed_or Q P m → typed_or Q' P m.
Proof. destruct m; cbn; auto. Qed.

Lemma i256_add_or (Q : Prop) a b :
  in_s 256 a → in_s 256 b → (in_s 256 (a + b) ∨ Q) →
  typed_or Q (λ c, in_s 256 c ∧ (in_s 256 (a + b) → c = a + b)) (i256_add a b).
Proof using All.
  intros Ha Hb HQ. assert (Hx : in_s 256 (a + b) → i256_add a b = Ret (a + b)) by by apply i256_add_exact.
  destruct (i256_add a b) as [c|] eqn:E; cbn.
  - split; [by eapply i256_add_typed|]. intros Hin. specialize (Hx Hin). congruence.
  - destruct HQ as [Hin|]; [by specialize (Hx Hin)|done].
Qed.

(** Adding a small change to an amount. *)
Lemma i256_add_near a b :
  in_s 256 a → Z.abs b ≤ 2 ^ 130 →
  typed_or (near_end a) (λ c, in_s 256 c ∧ (¬ near_end a → c = a + b)) (i256_add a b).
Proof using All.
  intros Ha Hb. assert (Hin : ¬ near_end a → in_s 256 (a + b)) by (unfold near_end; intros Hn; int_range).
  pose proof (i256_add_or (near_end a) a b Ha ltac:(int_range)) as H.
  assert (Hor : in_s 256 (a + b) ∨ near_end a).
  { destruct (decide (- 2 ^ 255 + 2 ^ 131 ≤ a ≤ 2 ^ 255 - 2 ^ 131)) as [Hd|Hd]; [left; int_range|right; unfold near_end; lia]. }
  specialize (H Hor). destruct (i256_add a b) as [c|]; [|exact H]. destruct H as [H1 H2]. split; [done|]. intros Hn. by apply H2, Hin.
Qed.

(** Adding two small amounts. *)
Lemma i256_add_small a b : Z.abs a ≤ 2 ^ 200 → Z.abs b ≤ 2 ^ 200 → i256_add a b = Ret (a + b).
Proof using All. intros. apply i256_add_exact; int_range. Qed.

Lemma margin_or tick qty lev :
  typed_or False (λ m, 0 ≤ m < 2 ^ 128) (expect (i256_try_from (required_margin tick qty lev))).
Proof using All.
  pose proof (required_margin_range tick qty lev) as Hr. rewrite i256_try_from_exact by int_range. exact Hr.
Qed.

Lemma realized_close_typed sz entry funding close tick current :
  in_s 128 (realized_close_delta sz entry funding close tick current).
Proof using All.
  unfold realized_close_delta. cbv zeta. case_decide; [int_range|].
  set (pnl := i128_add _ _). assert (Hp : in_s 128 pnl) by apply i128_typed. clearbody pnl.
  rewrite i256_try_from_exact by int_range. exact Hp.
Qed.

Lemma signed_fill_typed b q : in_u 64 q → in_s 128 (signed_fill b q).
Proof. destruct b; cbn; int_range. Qed.

(** A folded position, its collateral not yet changed, and the change. *)
Definition fold_result_typed (f : PositionFold) (r : PositionFold * (Z * Z)) : Prop :=
  fold_typed r.1 ∧ collateral r.1 = collateral f ∧ Z.abs r.2.1 ≤ 2 ^ 129 ∧ in_s 128 r.2.2.

Lemma fold_add_typed f fill_signed price qty funding :
  fold_typed f → in_u 64 price → 0 < qty < 2 ^ 64 → in_s 128 funding →
  typed_or False (fold_result_typed f) (fold_add f fill_signed price qty funding).
Proof using All.
  intros [Hs He Hc Hl Htp Hsl Hf] Hp Hq Hfu. unfold fold_add. cbv zeta.
  assert (Hn : u128_add (Z.abs (signed_size f)) qty = Z.abs (signed_size f) + qty) by (apply wrapu_small; int_range).
  assert (Hdiv : as_i128 (Z.abs (signed_size f) + qty) ≠ -1).
  { unfold as_i128, wraps. pose proof (Z.div_mod (Z.abs (signed_size f) + qty + 2 ^ 127) (2 ^ 128) ltac:(lia)).
    pose proof (Z.mod_pos_bound (Z.abs (signed_size f) + qty + 2 ^ 127) (2 ^ 128) ltac:(lia)).
    change (128 - 1) with 127. int_range. }
  rewrite Hn, decide_False by (intros [|[_ ?]]; [lia|done]).
  eapply typed_bind; [apply margin_or|]. intros margin Hm. cbn beta in *. cbn. split; [|split; [done|split; cbn; [lia|int_range]]].
  split; cbn; auto with types; [apply i128_typed|].
  apply quot_typed; [apply i128_typed|done].
Qed.

Lemma fold_close_typed f b price qty funding :
  fold_typed f → in_u 64 price → 0 < qty < 2 ^ 64 → in_s 128 funding →
  typed_or False (fold_result_typed f) (fold_close f b price qty funding).
Proof using All.
  intros [Hs He Hc Hl Htp Hsl Hf] Hp Hq Hfu. unfold fold_close. cbv zeta.
  pose proof (realized_close_typed (signed_size f) (entry_price f) (entry_funding_index f)
    (as_u64 (Z.min qty (Z.abs (signed_size f)))) price funding) as Hd.
  set (close := realized_close_delta _ _ _ _ _ _) in *. clearbody close.
  case_decide.
  - cbn. split; [|split; [done|split; cbn; [int_range|done]]]. split; cbn; auto with types. apply i128_typed.
  - eapply typed_bind; [apply margin_or|]. intros open Ho. cbn beta in *. rewrite i256_add_small by int_range. cbn.
    split; [|split; [done|split; cbn; [int_range|done]]].
    split; cbn; auto with types. apply signed_fill_typed, wrapu_range. lia.
Qed.

Lemma apply_fill_typed f b price qty funding :
  fold_typed f → in_u 64 price → 0 < qty < 2 ^ 64 → in_s 128 funding →
  typed_or (near_end (collateral f))
    (λ r, fold_typed r.1 ∧ Z.abs r.2.1 ≤ 2 ^ 129 ∧ in_s 128 r.2.2 ∧
          (¬ near_end (collateral f) → collateral r.1 = collateral f + r.2.1))
    (apply_fill f b price qty funding).
Proof using All.
  intros Hf Hp Hq Hfu. unfold apply_fill. cbv zeta. eapply typed_bind.
  - apply (typed_or_weaken False _ (fold_result_typed f)); [done|].
    destruct (_ || _); [by apply fold_add_typed|by apply fold_close_typed].
  - intros [f' [d r]] ([Hs He Hc Hl Htp Hsl Hfd] & Hcol & Hd & Hr). cbn [fst snd] in *. rewrite Hcol in *.
    eapply typed_bind; [apply (i256_add_near _ d Hc); lia|]. intros c [Hc' Hx]. cbn. split; [by split|]. by split_and!.
Qed.
End folds.

(** ** Writes to one field of the state *)

Section state.
Context {X : I256} {HL : I256Laws X} {HT : I256Typed X}.
Context (load : Key → MarketId → option (SealedBlob * Z)) (Hload : load_typed load).

Lemma read_typed cache k m p :
  map_Forall (λ _ p, position_typed p) cache → load_single_market_state_cached load cache k m = Some p → position_typed p.
Proof using Hload.
  intros Hc. unfold load_single_market_state_cached. destruct (cache !! (k, m)) as [p'|] eqn:E.
  { intros [= <-]. by eapply (map_Forall_lookup_1 _ _ _ _ Hc). }
  unfold load_single_market_state. destruct (load k m) as [[[|sp] coll]|] eqn:El; try done. intros [= <-].
  destruct (Hload _ _ _ _ El) as [(He & Hs & Hl & Ht & Hsl & Hf) Hcoll]. split; cbn; try done.
  destruct (side_is_buy sp); int_range.
Qed.

Lemma from_existing_typed o lev :
  (∀ p, o = Some p → position_typed p) → in_u 64 lev → fold_typed (from_existing o lev).
Proof.
  intros Ho Hl. destruct o as [p|]; [|by split; cbn; int_range].
  destruct (Ho p eq_refl). by split.
Qed.

Lemma load_and_fold_typed cache k m b price qty funding lev extra :
  map_Forall (λ _ p, position_typed p) cache → in_u 64 price → 0 < qty < 2 ^ 64 → in_s 128 funding →
  in_u 64 lev → 0 ≤ extra < 2 ^ 128 →
  typed_or (∃ p, load_single_market_state_cached load cache k m = Some p ∧ near_end (pm_collateral p))
    (λ r, map_Forall (λ _ p, position_typed p) r.1 ∧ Z.abs r.2.1 ≤ 2 ^ 130 ∧ in_s 128 r.2.2)
    (load_and_fold load cache k m b price qty funding lev extra).
Proof using All.
  intros Hc Hp Hq Hf Hl He. unfold load_and_fold. cbv zeta.
  set (o := load_single_market_state_cached load cache k m).
  assert (Hot : fold_typed (from_existing o lev)) by (apply from_existing_typed; [intros p; by apply read_typed|done]).
  apply (typed_or_weaken (near_end (collateral (from_existing o lev)))).
  { destruct o as [p|]; cbn; [intros Hn; by exists p|]. unfold near_end. lia. }
  eapply typed_bind; [by apply apply_fill_typed|].
  intros [f [d r]] (Hft & Hd & Hr & Hcol). cbn [fst snd] in *. rewrite (i256_add_small d extra) by int_range. rewrite ret_bind.
  assert (Hor : in_s 256 (collateral f + extra) ∨ near_end (collateral (from_existing o lev))).
  { set (c0 := collateral (from_existing o lev)) in *.
    destruct (decide (- 2 ^ 255 + 2 ^ 131 ≤ c0 ≤ 2 ^ 255 - 2 ^ 131)) as [Hn|Hn]; [left|right; unfold near_end; lia].
    rewrite Hcol by (unfold near_end; lia). int_range. }
  eapply typed_bind; [apply (i256_add_or _ _ extra (ft_collateral f Hft)); [int_range|exact Hor]|].
  intros c [Hcc _]. cbn. split; [|split; [lia|done]].
  case_decide; [by apply map_Forall_delete|]. apply map_Forall_insert_2; [|done]. destruct Hft. by split.
Qed.

Lemma realized_usd_typed delta m : in_s 128 (realized_delta_to_usd delta m).
Proof using HL HT.
  unfold realized_delta_to_usd. cbv zeta. set (raw := default _ (i128_try_from _)). clearbody raw.
  set (usd := Z.quot _ _). assert (Hu : in_s 128 usd).
  { apply quot_typed; [by apply sat_s_typed|]. unfold price_scale_for_market. by case_decide. }
  clearbody usd. rewrite i256_try_from_exact by int_range. exact Hu.
Qed.

Lemma queue_typed check pending trader delta :
  map_Forall (λ _ d, in_s 256 d) pending → in_s 128 delta →
  typed_or (∃ account asset d, check = Some (account, asset) ∧ pending !! (trader, asset) = Some d ∧ near_end d)
    (map_Forall (λ _ d, in_s 256 d)) (queue_realized_pnl check pending trader delta).
Proof using HL HT.
  intros Hp Hd. unfold queue_realized_pnl. case_decide; [done|]. destruct check as [[account asset]|]; [|done].
  destruct (pending !! (trader, asset)) as [d0|] eqn:E; cbn [default from_option id].
  - eapply typed_bind.
    + apply (typed_or_weaken (near_end d0)); [intros Hn; by exists account, asset, d0|].
      apply i256_add_near; [by apply (map_Forall_lookup_1 _ _ _ _ Hp E)|int_range].
    + intros d [Hd' _]. cbn. by apply map_Forall_insert_2.
  - rewrite i256_add_small by int_range. cbn. apply map_Forall_insert_2; [int_range|done].
Qed.
End state.

(** A field that a step writes, the others unchanged. *)
Ltac other_fields := split; cbn in *; try done.

Lemma maker_typed st m s m' :
  (∀ m, in_s 128 (cumulative_pnl (maker_of st m))) → in_s 128 (cumulative_pnl s) →
  in_s 128 (cumulative_pnl (maker_of (put_maker st m s) m')).
Proof.
  intros Hst Hs. unfold maker_of, put_maker. cbn. destruct (decide (m' = m)) as [->|Hne]; [by rewrite lookup_insert_eq|].
  rewrite lookup_insert_ne by done. apply Hst.
Qed.

Lemma put_maker_typed st m s : state_typed st → in_s 128 (cumulative_pnl s) → state_typed (put_maker st m s).
Proof. intros [H1 H2 H3 H4 H5 H6 H7] Hs. split; try done. intros m'. by apply maker_typed. Qed.

Lemma put_makers_typed {A} (st : AppState) (m : A → MarketId) (g : A → BackstopState → BackstopState) (l : list A) :
  (∀ x s, in_s 128 (cumulative_pnl s) → in_s 128 (cumulative_pnl (g x s))) → state_typed st →
  state_typed (foldl (λ st x, put_maker st (m x) (g x (maker_of st (m x)))) st l).
Proof.
  intros Hg. revert st. induction l as [|x l IH]; intros st Hst; cbn [foldl]; [done|].
  apply IH, put_maker_typed; [done|]. apply Hg, Hst.
Qed.

Lemma record_price_typed s p : in_s 128 (cumulative_pnl s) → in_s 128 (cumulative_pnl (record_price s p)).
Proof.
  intros Hs. unfold record_price. cbn [cumulative_pnl]. destruct (last (history s)); [|done].
  unfold mark_pnl_to. case_decide; [done|]. cbn. by apply sat_s_typed.
Qed.

Lemma prune_loop_typed c l : Forall trade_ok l → Forall trade_ok (MarketData.prune_loop c l).
Proof. induction 1; cbn; [done|]. case_decide; [done|]. by constructor. Qed.

Lemma tape_typed t l : Forall trade_ok (trades t) → Forall trade_ok l →
  Forall trade_ok (trades (foldl (λ t r, MarketData.record t (timestamp r) (MarketData.price r) (qty r)) t l)).
Proof.
  intros Ht Hl. revert t Ht. induction Hl as [|r l Hr _ IH]; intros t Ht; cbn [foldl]; [done|]. apply IH. cbn.
  apply prune_loop_typed, Forall_app. split; [done|]. constructor; [by destruct r|done].
Qed.

Lemma set_tape_typed st m t : state_typed st → Forall trade_ok (trades t) →
  state_typed (set_market_data st (<[m := t]> (market_data st))).
Proof. intros [H1 H2 H3 H4 H5 H6 H7] Ht. split; try done. cbn. by apply map_Forall_insert_2. Qed.

Lemma tape_of_typed st m : state_typed st → Forall trade_ok (trades (tape_of st m)).
Proof.
  intros Hst. unfold tape_of. destruct (market_data st !! m) eqn:E; [|done].
  by apply (map_Forall_lookup_1 _ _ _ _ (st_tape _ Hst) E).
Qed.

Lemma record_tape_typed st m fs now :
  state_typed st → in_u 64 now → Forall fill_typed fs → state_typed (record_tape st m fs now).
Proof.
  intros Hst Hn Hfs. apply set_tape_typed; [done|].
  pose proof (tape_typed (tape_of st m) ((λ f, {| timestamp := now; MarketData.price := f_tick f; qty := f_qty f |}) <$> fs)
    (tape_of_typed _ _ Hst)) as Ht. rewrite foldl_fmap in Ht. apply Ht.
  apply Forall_fmap. eapply Forall_impl; [exact Hfs|]. intros f [Hf Hq]. split_and!; cbn; [done..|int_range].
Qed.

Lemma record_history_typed st m fs : state_typed st → state_typed (record_history st m fs).
Proof.
  intros Hst. apply put_maker_typed; [done|]. generalize (st_pnl _ Hst m). generalize (maker_of st m).
  induction fs as [|f fs IH]; intros s Hs; cbn [foldl]; [done|]. by apply IH, record_price_typed.
Qed.

Lemma set_positions_typed st cache pending :
  state_typed st → map_Forall (λ _ p, position_typed p) cache → map_Forall (λ _ d, in_s 256 d) pending →
  state_typed (set_positions st cache pending).
Proof. intros [] ? ?. by split. Qed.

Lemma add_volume_typed st signer w : state_typed st → state_typed (add_volume st signer w).
Proof.
  intros Hst. unfold add_volume. case_decide; [|done]. destruct Hst. split; try done. cbn.
  apply map_Forall_insert_2; [apply u128_typed|done].
Qed.

Lemma invalidate_typed (cache : Cache) k m :
  map_Forall (λ _ p, position_typed p) cache → map_Forall (λ _ p, position_typed p) (invalidate_position cache k m).
Proof. apply map_Forall_delete. Qed.

Lemma invalidate_all_typed (m : MarketId) (ks : list Key) (cache : Cache) :
  map_Forall (λ _ p, position_typed p) cache →
  map_Forall (λ _ p, position_typed p) (foldl (λ c k, invalidate_position c k m) cache ks).
Proof. revert cache. induction ks as [|k ks IH]; intros c Hc; cbn [foldl]; [done|]. by apply IH, invalidate_typed. Qed.

Lemma finish_settlement_typed st m signer nonce sweep hash :
  state_typed st → state_typed (finish_settlement st m signer nonce sweep hash).
Proof.
  intros [H1 H2 H3 H4 H5 H6 H7]. split; try done. unfold finish_settlement. cbn [set_settlement position_cache].
  destruct hash; [done|]. by apply invalidate_all_typed.
Qed.

(** ** What the book and the backstop hand over *)

(** Each fill has a quantity. *)
Lemma count_le_sum fs : Forall (λ f, 0 < f_qty f) fs → Z.of_nat (length fs) ≤ sumZ (f_qty <$> fs).
Proof. induction 1; csimpl; [done|]. cbn [sumZ]. lia. Qed.

Lemma submit_typed n st m o now r st' :
  matcher_ok n st → Z.of_nat n < NIL → 0 ≤ no_tick o < u64_max → in_u 64 (no_qty o) →
  submit_order st m o now = Ret (r, st') → submitted_typed r.
Proof.
  intros Hok Hn Ht Hq Hrun. destruct (proj1 Hok m) as [Hr Hl].
  destruct (submit_accounts (book_of st m) o now Hr) as (r' & b & Hs & _ & Hacc & _).
  { unfold submit_ok, u64_max in *. int_range. }
  unfold submit_order in Hrun. rewrite Hs, ret_bind in Hrun. injection Hrun as <- _.
  pose proof (sa_fills _ _ _ _ Hacc) as Hpos. pose proof (sa_inside _ _ _ _ Hacc) as Hin.
  pose proof (count_le_sum _ Hpos) as Hcount.
  assert (Hsums : sumZ (f_qty <$> fills r') ≤ no_qty o ∧ in_u 64 (resting_qty r')).
  { pose proof (sa_sum _ _ _ _ Hacc). pose proof (sa_rest _ _ _ _ Hacc) as Hx.
    assert (0 ≤ sumZ (f_qty <$> fills r')) by lia.
    assert (0 ≤ resting_qty r') by (destruct (resting_id r'); [destruct Hx as (_ & ? & _); lia|lia]). int_range. }
  split; [split; [|apply Hsums|unfold MAX_FILLS; int_range]|unfold MAX_FILLS; int_range].
  - pose proof (sa_ticks _ _ _ _ Hacc) as Htk. rewrite Forall_forall in *. intros f Hf.
    destruct (Hin f Hf) as (_ & ? & ?). specialize (Hpos f Hf). split; [by apply Htk|]. unfold u64_max in *. lia.
Qed.

(** A post-only order that is not refused rests, unless it asks for nothing. *)
Lemma offer_rests b o now r b' :
  Book.reachable b → submit_ok b o → post_only o = true → rests (no_tif o) = true →
  Book.submit b o now = Ret (r, b') → post_only_rejected r = false → resting_id r = None → no_qty o = 0.
Proof.
  intros Hr Hok Hpo Hrests Hrun Hrej Hid. pose proof Hok as (_ & Hq & _).
  destruct (submit_cases b o now Hr Hok) as (r' & b1 & Hrun' & _ & Hcase).
  rewrite Hrun in Hrun'. injection Hrun' as <- <-. destruct (outcome_of r) eqn:Hout.
  - unfold outcome_of in Hout. rewrite Hrej in Hout. by destruct (fill_or_kill_failed r).
  - destruct Hcase as (Hk & _). rewrite Hk in Hrests. done.
  - destruct Hcase as (Hnc & _ & out & left & acc & Hmatch & _ & _ & _ & Hrest). specialize (Hnc Hpo).
    assert (Hall : spec_match (no_side o) (no_tick o) (no_owner o) now (matched_side b o now) (no_qty o) (acc_empty out)
                   = (matched_side b o now, no_qty o, acc_empty out)).
    { destruct (matched_side b o now) as [|[t [x d]] l']; [done|]. cbn [spec_match]. cbn [fst] in Hnc.
      rewrite Hnc. by case_decide. }
    rewrite Hall in Hmatch. injection Hmatch as Ho <- <-. unfold rested in Hrest.
    rewrite Hrests, andb_true_r in Hrest. case_bool_decide as Hz; [|lia].
    destruct Hrest as (x & Hx & _). congruence.
Qed.

(** Both ways of asking the backstop. *)
Lemma asked_typed (whole : bool) s cfg side requested s' price k :
  state_ok s → config_ok cfg → 0 ≤ requested →
  (if whole then serve_whole s cfg side requested else try_fill s cfg side requested) = Ret (s', Some (price, k)) →
  in_u 64 price ∧ 0 < k ≤ requested.
Proof.
  intros Hs Hc Hq. pose proof (maker_offer_price s cfg side requested) as Hp.
  pose proof (maker_offer_bounds s cfg side requested) as Hb.
  destruct whole; [rewrite serve_whole_spec by done|rewrite try_fill_spec by done];
    (destruct (maker_offer s cfg side requested) as [[p q]|]; [|done]).
  - case_decide; [|done]. intros [= <- <- <-]. split; [by eapply Hp|by eapply Hb].
  - intros [= <- <- <-]. split; [by eapply Hp|by eapply Hb].
Qed.

Lemma asked_pnl (whole : bool) s cfg side requested s' out :
  state_ok s → config_ok cfg →
  (if whole then serve_whole s cfg side requested else try_fill s cfg side requested) = Ret (s', out) →
  cumulative_pnl s' = cumulative_pnl s.
Proof.
  intros Hs Hc. destruct whole; [rewrite serve_whole_spec by done|rewrite try_fill_spec by done];
    (destruct (maker_offer s cfg side requested) as [[p q]|]; [|by intros [= <- _]]); [case_decide|]; by intros [= <- _].
Qed.

Lemma with_fill_typed r price filled requested id q :
  submitted_typed r → in_u 64 price → 0 < filled < 2 ^ 64 → in_u 64 q →
  result_typed (with_fill r (backstop_fill price filled requested) id q).
Proof.
  intros [[Hr Hq _] Hcount] Hp Hf Hq'. split; cbn [with_fill fills resting_qty]; [|done|rewrite length_app; cbn; lia].
  apply Forall_app. split; [done|]. by constructor.
Qed.

(** What is asked of the backstop is a [u64]. *)
Lemma demand_typed o r x : in_u 64 (no_qty o) → demand o r = Some x → in_u 64 x.
Proof.
  intros Hq. unfold demand. cbv zeta. destruct (_ || _); [|done]. destruct (fill_or_kill_failed r); intros [= <-]; [done|].
  unfold sat_u. int_range.
Qed.

(** ** A step of a handler *)

(** The stored collateral of the position a fold would read is near the end of its type. *)
Definition collateral_full (E : Enclave) (st : AppState) (trader : Address) (m : MarketId) : Prop :=
  ∃ p, load_single_market_state_cached (en_load E) (position_cache st) (en_key E trader) m = Some p ∧
       near_end (pm_collateral p).
(** The results queued for the trader are. *)
Definition results_full (E : Enclave) (st : AppState) (trader : Address) : Prop :=
  ∃ account asset d, collateral_check (en_dep E) = Some (account, asset) ∧
                     pending_realized_pnl st !! (trader, asset) = Some d ∧ near_end d.

(** Why a handler's next step may abort. *)
Definition abort_reason (E : Enclave) (p : Payload) (signer : Address) (st : AppState) (pc : Pc) : Prop :=
  match p, pc with
  | POrder q, AtMakerFold _ _ maker => collateral_full E st maker (op_market_id q)
  | POrder q, AtTakerFold _ _ _ => collateral_full E st signer (op_market_id q)
  | POrder _, AtMakerQueue _ _ maker _ _ => results_full E st maker
  | POrder _, AtTakerQueue _ _ _ _ _ => results_full E st signer
  | POffer q, AtReply _ => of_max_size q = 0
  | _, _ => False
  end.

(** What a handler about to answer an offer knows of it. *)
Definition reply_of (pc : Pc) : option SubmitResult :=
  match pc, broadcasting pc with
  | AtReply r, _ | _, Some (AfterOffer r) => Some r
  | _, _ => None
  end.
Definition reply_ok (p : Payload) (pc : Pc) : Prop :=
  match p, reply_of pc with POffer q, Some r => resting_id r = None → of_max_size q = 0 | _, _ => True end.

Section handlers.
Context (E : Enclave) `{!I256Laws (en_i256 E), !I256Typed (en_i256 E)}.
Context (Hcfg : config_ok (backstop_config (en_dep E))) (Hload : load_typed (en_load E)).
#[local] Instance types_i256 : I256 := en_i256 E.

Definition step_typed (R : Prop) (p : Payload) (res : exec (AppState * Pc)) : Prop :=
  match res with
  | Ret (st', pc') => state_typed st' ∧ pc_typed pc' ∧ reply_ok p pc'
  | Panic => R
  end.

Lemma step_typed_ret R p st pc : state_typed st → pc_typed pc → reply_ok p pc → step_typed R p (Ret (st, pc)).
Proof. intros ? ? ?. cbn. by split_and!. Qed.

(** A computation on [I256]s, then a step. *)
Lemma step_typed_bind {A} (Q : Prop) (P : A → Prop) (R : Prop) p (m : exec A) (k : A → exec (AppState * Pc)) :
  typed_or Q P m → (Q → R) → (∀ a, P a → step_typed R p (k a)) → step_typed R p (a ← m; k a).
Proof. destruct m; cbn; [intros Ha _ Hk; by apply Hk|auto]. Qed.

Lemma check_nonce_typed R p st signer nonce ok refuse :
  state_typed st → in_u 64 nonce → pc_typed ok → reply_ok p ok → step_typed R p (Ret (check_nonce st signer nonce ok refuse)).
Proof.
  intros Hst Hn Hok Hre. unfold check_nonce. destruct (accept_nonce st signer nonce) as [st1|e] eqn:Ha; cycle 1.
  { apply step_typed_ret; [done..|]. by destruct p. }
  apply step_typed_ret; [|done..]. unfold accept_nonce in Ha. cbv zeta in Ha.
  assert (st1 = set_last_nonce st (<[signer := nonce]> (last_nonce st))) as ->
    by (destruct (last_nonce st !! signer); [case_decide; [done|]|]; by injection Ha as <-).
  destruct Hst. split; try done. cbn. by apply map_Forall_insert_2.
Qed.

Lemma fold_position_typed st trader m b price qty funding lev extra :
  state_typed st → in_u 64 price → 0 < qty < 2 ^ 64 → in_s 128 funding → in_u 64 lev → 0 ≤ extra < 2 ^ 128 →
  typed_or (collateral_full E st trader m) (λ r, state_typed r.1 ∧ Z.abs r.2.1 ≤ 2 ^ 130)
    (fold_position E st trader m b price qty funding lev extra).
Proof using All.
  intros Hst Hp Hq Hf Hl He. unfold fold_position. eapply typed_bind.
  { apply (load_and_fold_typed (en_load E) Hload); [apply Hst|done..]. }
  intros [cache [d r]] (Hc & Hd & _). cbn in *. split; [|done]. apply set_positions_typed; [done|done|apply Hst].
Qed.

Lemma queue_result_typed st trader m realized :
  state_typed st → typed_or (results_full E st trader) state_typed (queue_result E st trader m realized).
Proof using All.
  intros Hst. unfold queue_result. eapply typed_bind.
  { apply queue_typed; [apply Hst|]. apply realized_usd_typed. }
  intros pending Hp. cbn. apply set_positions_typed; [done|apply Hst|done].
Qed.

Lemma fee_typed notional volume :
  typed_or False (λ fee, 0 ≤ fee < 2 ^ 128) (expect (i256_try_from (Fees.taker_fee notional volume))).
Proof using All.
  assert (H : 0 ≤ Fees.taker_fee notional volume < 2 ^ 128).
  { unfold Fees.taker_fee. destruct (Fees.tier_for_volume volume) as [t ?]. unfold Fees.BPS_DENOMINATOR.
    pose proof (proj1 (u128_typed notional t)) as Hu. set (x := u128_mul notional t) in *. clearbody x.
    pose proof (div_nonneg x 10000). pose proof (div_le_self x 10000). int_range. }
  assert (in_s 256 (Fees.taker_fee notional volume)) by int_range.
  by rewrite (i256_try_from_exact (I := en_i256 E)) by done.
Qed.

(** A step of the broadcast. *)
Lemma broadcast_typed R n p signer rd st pc :
  state_typed st → matcher_ok n st → pc_typed pc → reply_ok p pc → is_Some (broadcasting pc) →
  step_typed R p (advance E p signer rd st pc).
Proof using Hcfg.
  intros Hst Hm Hty Hre [k Hk].
  assert (Hrun : ∃ pc', advance E p signer rd st pc = Ret (st, pc')).
  { assert (Hb : ∀ m, ∃ pc', advance_broadcast E m rd st pc = Ret (st, pc')) by (intros m; by eapply broadcast_total).
    destruct p; destruct pc; try done; try (apply Hb); by eexists. }
  destruct Hrun as [pc' Hrun]. rewrite Hrun. apply (advance_update _ _ _ _ _ _ _ _ _ Hk) in Hrun as [_ Hpc'].
  assert (Hafter : after_typed k) by (destruct pc; try done; by injection Hk as ->).
  assert (Hk' : match p, k with POffer q, AfterOffer r => resting_id r = None → of_max_size q = 0 | _, _ => True end).
  { destruct pc; try done; injection Hk as ->; by destruct p, k. }
  apply step_typed_ret; [done| |]; destruct Hpc' as [H'| ->].
  - destruct pc'; try done; by injection H' as ->.
  - by destruct k.
  - destruct pc'; try done; injection H' as ->; by destruct p, k.
  - by destruct p, k.
Qed.

(** The steps of an order once it is past the book. *)
Lemma sweep_typed p signer rd st pc :
  state_typed st → payload_typed (POrder p) → reading_typed rd → pc_typed pc → sweeping pc = true →
  step_typed (abort_reason E (POrder p) signer st pc) (POrder p) (advance_order E p signer rd st pc).
Proof using All.
  intros Hst (_ & _ & Hlev) [_ Hfund] Hpc Hsw.
  destruct pc as [| |? ?| | |? ?|? ? ? ? ?|? ?|?|?|?|? ?|? ? ?|r|sw|sw f mk|sw f mk d r|sw f mk d|sw f leg|sw f leg|sw f leg d r|sw|sw|sw swp|?|?];
    try done; cbn [advance_order pc_typed abort_reason] in *.
  - destruct Hpc as [Hf _ Hc]. apply step_typed_ret; [done| |done]. split; cbn; [|done|done|done|done|done].
    destruct (trader_volume st !! signer) eqn:Ev; cbn; [|done]. by apply (map_Forall_lookup_1 _ _ _ _ (st_volume _ Hst) Ev).
  - destruct (sw_rest sw) as [|f fs] eqn:Hr; [by apply step_typed_ret|]. destruct Hpc as [H1 H2 H3 H4 H5 H6].
    rewrite Hr in H5, H6. cbn [length] in H6. apply Forall_cons in H5 as [Hf Hfs]. cbv zeta.
    destruct (owner_addresses st !! _); apply step_typed_ret; try done.
    + split; [split|done|]; cbn; first [done|lia].
    + split; cbn; first [done|lia].
  - pose proof Hpc as [[] [Hp Hq] _]. eapply step_typed_bind; [apply fold_position_typed; [done..|int_range|lia]|done|].
    intros [st1 [d r]] [Hst1 Hd]. by apply step_typed_ret.
  - eapply step_typed_bind; [by apply queue_result_typed|done|]. intros st1 Hst1. by apply step_typed_ret.
  - apply step_typed_ret; [|done|done]. destruct Hst. by split.
  - pose proof Hpc as [[] [Hp Hq] _]. eapply step_typed_bind; [by apply fee_typed|done|]. intros fee Hfee.
    eapply step_typed_bind; [apply fold_position_typed; done|done|].
    intros [st1 [d r]] [Hst1 Hd]. by apply step_typed_ret.
  - destruct Hpc as ([[] Hf Hcount] & Hd). eapply step_typed_bind; [by apply queue_result_typed|done|]. intros st1 Hst1.
    unfold MAX_FILLS in Hcount. rewrite (i256_add_small (X := en_i256 E)) by lia. rewrite ret_bind.
    apply step_typed_ret; [done| |done]. split; cbn; try done; [lia|apply u128_typed|unfold MAX_FILLS; lia].
  - apply step_typed_ret; [by apply add_volume_typed|done|done].
  - cbv zeta. case_decide; by apply step_typed_ret.
  - apply step_typed_ret; [|done|done]. destruct Hst. by split.
Qed.

Lemma set_books_typed st v : state_typed st → state_typed (set_books st v).
Proof. intros []. by split. Qed.

(** The steps that ask the backstop. *)
Lemma ask_backstop_typed R n p signer rd st now r :
  state_typed st → matcher_ok n st → payload_typed (POrder p) → pc_typed (AtBackstop now r) →
  step_typed R (POrder p) (advance_order E p signer rd st (AtBackstop now r)).
Proof using Hcfg.
  intros Hst [_ Hm] ([_ Hq] & _) [Hnow Hr]. cbn [advance_order]. cbv zeta. set (o := new_order p _).
  specialize (Hm (op_market_id p)).
  assert (Hask : ∀ (whole : bool) x, in_u 64 x →
    ∃ s acc, (if whole then serve_whole (maker_of st (op_market_id p)) (backstop_config (en_dep E)) (no_side o) x
              else try_fill (maker_of st (op_market_id p)) (backstop_config (en_dep E)) (no_side o) x) = Ret (s, acc) ∧
      state_typed (put_maker st (op_market_id p) s) ∧
      ∀ price k, acc = Some (price, k) → in_u 64 price ∧ 0 < k < 2 ^ 64).
  { intros whole x Hx. destruct (asked_ok whole _ _ (no_side o) x Hm Hcfg) as (s & acc & Hrun & _). exists s, acc.
    split; [done|]. split.
    - apply put_maker_typed; [done|]. rewrite (asked_pnl _ _ _ _ _ _ _ Hm Hcfg Hrun). apply Hst.
    - intros price k ->. destruct (asked_typed whole _ _ _ x s price k Hm Hcfg ltac:(apply Hx) Hrun) as [? ?]. int_range. }
  destruct (demand o r) as [x|] eqn:Hd.
  - destruct (Hask (fill_or_kill_failed r) x) as (s & acc & -> & Hs & Hacc); [by apply (demand_typed o r)|].
    rewrite ret_bind. cbv beta iota. apply step_typed_ret; [done| |done]. split; [done|].
    destruct acc as [[price k]|]; [|apply Hr]. destruct (Hacc _ _ eq_refl). apply with_fill_typed; [done..|apply Hr].
  - destruct (resting_id r) as [id|]; [|by apply step_typed_ret; [|split; [|apply Hr]|]].
    destruct (Hask true (resting_qty r)) as (s & acc & -> & Hs & Hacc); [apply Hr|].
    rewrite ret_bind. cbv beta iota. destruct acc as [[price k]|]; [|by apply step_typed_ret; [|split; [|apply Hr]|]].
    apply step_typed_ret; [done| |done]. cbn. by destruct (Hacc _ _ eq_refl).
Qed.

(** The steps of an order up to the book and of the backstop. *)
Lemma order_typed R n p signer rd st pc :
  state_typed st → matcher_ok n st → Z.of_nat n < NIL → payload_typed (POrder p) → pc_ok (POrder p) pc →
  reading_typed rd → pc_typed pc → sweeping pc = false → broadcasting pc = None →
  step_typed R (POrder p) (advance_order E p signer rd st pc).
Proof using Hcfg.
  intros Hst Hm Hn Hp Hpc [Hnow _] Hty Hsw Hbr. pose proof Hp as ([Ht Hq] & Hno & _).
  destruct pc as [| |rest found| | |now r|now r id price filled|now r|r|?|?|? ?|? ? ?|?|?|? ? ?|? ? ? ? ?|? ? ? ?|? ? ?|? ? ?|? ? ? ? ?|?|?|? ?|?|?];
    try done; try (by apply (ask_backstop_typed _ n)); cbn [advance_order]; try (by apply step_typed_ret).
  - apply check_nonce_typed; [done|done|by case_decide|done].
  - destruct (collateral_check _); [|by apply step_typed_ret]. apply step_typed_ret; [|done|done]. destruct Hst. by split.
  - destruct rest; [|by apply step_typed_ret]. destruct (check_deposited_collateral _ _ _ _ _ _ _ _); by apply step_typed_ret.
  - apply step_typed_ret; [|done|done]. destruct Hst. by split.
  - cbv zeta. set (o := new_order p _).
    destruct (submit_section n st (op_market_id p) o (rd_now rd) Hm Hn) as (r & st' & Hrun & _); [by apply sane_tick|done|].
    rewrite Hrun, ret_bind. cbv beta iota. apply step_typed_ret; [| |done].
    + unfold submit_order in Hrun. destruct (Book.submit _ _ _) as [[? b]|]; [|done]. injection Hrun as _ <-.
      by apply set_books_typed.
    + split; [done|]. eapply (submit_typed n st _ o); [done|done|by apply sane_tick|done|exact Hrun].
  - destruct Hpc as (_ & Hid & _). destruct (proj1 Hm (op_market_id p)) as [Hre _].
    destruct (cancel_any _ id Hre Hid) as (c & b' & -> & _). rewrite ret_bind. cbv beta iota.
    destruct Hty as (Hn1 & Hr & Hpr & Hf). apply step_typed_ret; [by apply set_books_typed| |done].
    split; [done|]. by apply with_fill_typed.
  - destruct Hty as [Hn1 Hr]. apply step_typed_ret; [|done|done]. case_decide; [done|]. apply record_tape_typed; [done..|apply Hr].
  - apply step_typed_ret; [|done|done]. case_decide; [done|]. by apply record_history_typed.
Qed.

(** Any step of a handler. *)
Lemma advance_typed n p signer rd st pc :
  state_typed st → matcher_ok n st → Z.of_nat n < NIL → payload_typed p → pc_ok p pc →
  reading_typed rd → pc_typed pc → reply_ok p pc →
  step_typed (abort_reason E p signer st pc) p (advance E p signer rd st pc).
Proof using All.
  intros Hst Hm Hn Hp Hpc Hrd Hty Hre.
  destruct (broadcasting pc) as [k|] eqn:Hbr; [by apply (broadcast_typed _ n); [..|eexists]|].
  destruct p as [p|p|p|p]; cbn [advance].
  - destruct (sweeping pc) eqn:Hsw; [by apply sweep_typed|by apply (order_typed _ n)].
  - destruct Hp as ([Ht Hq] & Hno & _).
    destruct pc; try done; cbn [advance_offer]; try (by apply step_typed_ret).
    + apply check_nonce_typed; [done|done|by case_decide|by case_decide].
    + apply step_typed_ret; [|done|done]. destruct Hst. by split.
    + set (o := offer_order p _). unfold submit_order.
      destruct (proj1 Hm (of_market_id p)) as [Hr _].
      assert (Hok : submit_ok (book_of st (of_market_id p)) o).
      { destruct (proj1 Hm (of_market_id p)). pose proof (sane_tick _ Ht Hpc). unfold submit_ok, u64_max in *. cbn. int_range. }
      destruct (submit_accounts _ o (rd_now rd) Hr Hok) as (r & b & Hrun & _). rewrite Hrun, !ret_bind. cbv beta iota.
      apply step_typed_ret; [by apply set_books_typed|by destruct (post_only_rejected r)|].
      destruct (post_only_rejected r) eqn:Hrej; [done|]. cbn. intros Hid.
      apply (offer_rests _ o (rd_now rd) r b Hr Hok); [done|by cbn; destruct (of_expiry p)|done..].
    + cbn in Hre. destruct (resting_id r); [by apply step_typed_ret|]. cbn. by apply Hre.
  - destruct pc; try done; cbn [advance_cancel]; try (by apply step_typed_ret).
    + apply check_nonce_typed; [done|by apply Hp|done|done].
    + destruct Hp as ([Hid _] & _). unfold cancel_owned_order.
      destruct (books st !! cp_market_id p) as [b|] eqn:Hb; [|by apply step_typed_ret].
      destruct (owner_of b (cp_order_id p)); [|by apply step_typed_ret]. case_decide; [by apply step_typed_ret|].
      destruct (proj1 Hm (cp_market_id p)) as [Hr _]. unfold book_of in Hr. rewrite Hb in Hr. cbn in Hr.
      destruct (cancel_any b (cp_order_id p) Hr Hid) as (c & b' & -> & _). rewrite !ret_bind. cbv beta iota.
      destruct c as [[? ?]|]; (apply step_typed_ret; [by apply set_books_typed|done|done]).
  - destruct pc; try done; cbn [advance_portfolio_key]; try (by apply step_typed_ret).
    apply check_nonce_typed; [done|by apply Hp|done|done].
Qed.
End handlers.

(** ** A step of a task *)

Lemma walk_back_typed fuel start t price rng l :
  in_u 64 t → 0 ≤ start → walk_back fuel start t price rng = Ret l → Forall trade_ok l.
Proof.
  intros Ht Hs. revert t price rng l Ht. induction fuel as [|fuel IH]; intros t price rng l Ht; cbn [walk_back]; [done|].
  case_decide; [|by intros [= <-]]. cbv zeta. set (print := Build_TradeRecord _ _ _).
  assert (Hp : trade_ok print).
  { pose proof (seed_qty_range (xorshift64 rng)). split_and!; cbn; [done|apply as_u64_typed|int_range]. }
  clearbody print. case_decide as Hlt; [intros [= <-]; by constructor|].
  intros (rest & Hrest & [= <-])%bind_Ret. constructor; [done|]. eapply IH; [|exact Hrest]. unfold STEP_SECS in *. int_range.
Qed.

Lemma seed_prints_typed start span now l : in_u 64 now → seed_prints start span now = Ret l → Forall trade_ok l.
Proof.
  intros Hn. unfold seed_prints. cbv zeta. intros (rest & Hrest & [= <-])%bind_Ret. constructor.
  - pose proof (seed_qty_range (Z.lxor now (u64_mul start 2654435761))).
    split_and!; cbn; [done|apply as_u64_typed|int_range].
  - eapply walk_back_typed; [| |exact Hrest]; unfold sat_u; int_range.
Qed.

Section tasks.
Context (E : Enclave) (H : Host) `{!I256Laws (en_i256 E), !I256Typed (en_i256 E)}.
#[local] Instance task_types_i256 : I256 := en_i256 E.

Lemma open_portfolio_typed st k hints : state_typed st → state_typed (open_portfolio st k hints).1.
Proof. intros []. by split. Qed.

Lemma read_position_typed load st k m :
  load_typed load → state_typed st → Forall position_typed (read_position load st k m).
Proof.
  intros Hl Hst. unfold read_position. destruct (load_single_market_state_cached _ _ _ _) as [p|] eqn:Hp; [|done].
  constructor; [|done]. eapply (read_typed load Hl); [apply Hst|exact Hp].
Qed.

Lemma size_leg_typed k bps live funding cache m cache' leg :
  map_Forall (λ _ p, position_typed p) cache → position_typed m →
  size_leg (onchain (en_dep E)) k bps live funding cache m = Ret (cache', leg) →
  map_Forall (λ _ p, position_typed p) cache'.
Proof using All.
  intros Hc [Hs He Hco Hl Htp Hsl Hf]. unfold size_leg, full_close. cbv zeta.
  case_decide; [intros [= <- _]; by apply map_Forall_delete|].
  case_decide; [intros [= <- _]; by apply map_Forall_delete|].
  intros (c & Hadd%i256_add_typed & [= <- _])%bind_Ret. apply map_Forall_insert_2; [|done]. split; cbn; try done.
  case_decide; [apply as_i128_typed|apply i128_neg_typed].
Qed.

Lemma advance_task_typed an st pc st' pc' :
  state_typed st → answers_typed an → task_typed pc → advance_task E H an st pc = Ret (st', pc') →
  state_typed st' ∧ task_typed pc'.
Proof using All.
  intros Hst [Hload Hnow] Hty.
  destruct pc as [|prices|[|[m c] rest]|m keys next rest| | |p|u k hints|u k [|m rest] found|k liq ms [|m rest] found|z [|m rest] legs|k [|m rest] r|o];
    cbn [advance_task]; intros Hr; try (by injection Hr as <- <-).
  - injection Hr as <- <-. split; [done|]. by case_decide.
  - injection Hr as <- <-. split; [|done].
    apply (put_makers_typed st fst (λ e s, record_price s (as_u64 e.2))); [|done]. intros. by apply record_price_typed.
  - apply bind_Ret in Hr as (found & Hfound & Hr). injection Hr as <- <-. split; [done|]. destruct found as [[keys next]|e]; [|done].
    cbn. unfold index_open_interest in Hfound. apply try_bind_Ok in Hfound as ([? ?] & _ & Hfound).
    apply try_bind_Ok in Hfound as (latest & _ & Hfound). apply try_bind_Ok in Hfound as (logs & _ & [= _ <-]).
    by apply wrapu_range.
  - injection Hr as <- <-. split; [|done]. destruct Hst. split; try done. cbn. by apply map_Forall_insert_2.
  - destruct (realized_pnl_flush _ _ st) as [st1 batch] eqn:Hf. injection Hr as <- <-. split; [|done].
    unfold realized_pnl_flush, drain_realized_pnl in Hf. case_decide; injection Hf as <- _;
      (apply set_positions_typed; [done|apply Hst|done]).
  - apply bind_Ret in Hr as ([st1 r] & Hs & [= <- <-]). split; [|done]. unfold post_debug_seed_history in Hs.
    destruct (negb _); [by injection Hs as <- _|]. case_decide; [by injection Hs as <- _|].
    apply bind_Ret in Hs as (l & Hl & [= <- _]). apply set_tape_typed; [done|]. apply tape_typed; [done|].
    apply Forall_rev. by eapply seed_prints_typed.
  - assert (Hopen : ∀ u, (let '(st, markets) := open_portfolio st k hints in Ret (st, AtRead u k markets [])) = Ret (st', pc') →
      state_typed st' ∧ task_typed pc').
    { intros u'. pose proof (open_portfolio_typed st k hints Hst) as Ho. destruct (open_portfolio st k hints) as [st1 markets].
      intros [= <- <-]. split; [exact Ho|constructor]. }
    destruct u; [by apply (Hopen Checking)|destruct (ho_monitor H); [by eapply Hopen|by injection Hr as <- <-]|by eapply Hopen].
  - case_decide; [by injection Hr as <- <-|]. apply bind_Ret in Hr as (pc1 & Hpc & [= <- <-]). split; [done|].
    destruct u; cbn [portfolio_read] in Hpc; [..|injection Hpc as <-; constructor];
      apply bind_Ret in Hpc as (r & _ & Hpc); by injection Hpc as <-.
  - injection Hr as <- <-. split; [done|]. cbn in *. apply Forall_app. split; [done|]. by apply read_position_typed.
  - apply bind_Ret in Hr as (pc1 & Hpc & [= <- <-]). split; [done|]. unfold portfolio_locked in Hpc.
    case_decide; [by injection Hpc as <-|]. apply bind_Ret in Hpc as (r & _ & Hpc). injection Hpc as <-.
    destruct r; [|done]. by destruct (negb _).
  - injection Hr as <- <-. split; [done|]. cbn in *. apply Forall_app. split; [done|]. by apply read_position_typed.
  - apply bind_Ret in Hr as (pc1 & Hpc & [= <- <-]). split; [done|]. unfold send_liquidation in Hpc.
    apply bind_Ret in Hpc as (r & _ & Hpc). by injection Hpc as <-.
  - apply Forall_cons in Hty as [Hm Hrest]. apply bind_Ret in Hr as ([cache leg] & Hleg & [= <- <-]). split; [|done].
    apply set_positions_typed; [done| |apply Hst]. eapply size_leg_typed; [apply Hst|exact Hm|exact Hleg].
  - injection Hr as <- <-. split; [|done]. apply set_positions_typed; [done|apply invalidate_typed, Hst|apply Hst].
Qed.
End tasks.

(** ** The whole enclave *)

Record system_typed (s : System) : Prop := {
  sty_state : state_typed (sy_state s);
  sty_handlers t h : sy_handlers s !! t = Some h →
    payload_typed (hd_payload h) ∧ pc_typed (hd_pc h) ∧ reply_ok (hd_payload h) (hd_pc h);
  sty_tasks t pc : sy_tasks s !! t = Some pc → task_typed pc;
}.

Section system.
Context (E : Enclave) (H : Host) (answers : Answers → Prop).
Context {HL : I256Laws (en_i256 E)} {HT : I256Typed (en_i256 E)}.
Context (Hcfg : config_ok (backstop_config (en_dep E))) (Hans : ∀ an, answers an → answers_typed an).

Lemma at_chain_typed n0 s t h load rd :
  books_ok n0 s → Z.of_nat (n0 + base.size (sy_handlers s)) < NIL → system_typed s →
  load_typed load → reading_typed rd → sy_handlers s !! t = Some h →
  step_typed (abort_reason (at_chain E load) (hd_payload h) (hd_signer h) (sy_state s) (hd_pc h)) (hd_payload h)
    (advance (at_chain E load) (hd_payload h) (hd_signer h) rd (sy_state s) (hd_pc h)).
Proof using HL HT Hcfg.
  intros [Hm Hp] Hn [Hst Hh _] Hload Hrd Ht. destruct (Hp t h Ht) as [_ Hpc]. destruct (Hh t h Ht) as (Hpay & Hty & Hre).
  pose proof (served_size (sy_handlers s)) as Hle.
  exact (advance_typed (at_chain E load) Hcfg Hload _ _ (hd_signer h) rd _ _ Hst Hm ltac:(lia) Hpay Hpc Hrd Hty Hre).
Qed.

Lemma sys_step_typed n0 s s' :
  books_ok n0 s → Z.of_nat (n0 + base.size (sy_handlers s)) < NIL →
  sys_step E H answers s s' → system_typed s → system_typed s'.
Proof using HL HT Hcfg Hans.
  intros Hb Hn Hstep Hs. pose proof Hs as [Hst Hh Hk].
  destruct Hstep as [s t p signer Ht Hpay|s t h an rd st' pc' Ht Ha Hrd Hadv|s t h p o sweep hash Ht _ _ _|s t j Ht Hj|s t pc an st' pc' Ht Ha Hadv].
  - split; cbn [with_handler sy_state sy_handlers sy_tasks]; [done| |done].
    intros t1 h1 [[_ <-]|[_ H1]]%lookup_insert_Some; [|by eapply Hh]. split; [done|]. split; [done|]. by destruct p.
  - pose proof (at_chain_typed n0 s t h (an_load an) rd Hb Hn Hs ltac:(by apply Hans) Hrd Ht) as Hty.
    rewrite Hadv in Hty. destruct Hty as (Hst' & Hpc' & Hre').
    split; cbn [with_handler sy_state sy_handlers sy_tasks]; [done| |done].
    intros t1 h1 [[_ <-]|[_ H1]]%lookup_insert_Some; [|by eapply Hh]. split; [by apply (Hh t h)|done].
  - split; cbn [sy_state sy_handlers sy_tasks]; [by apply finish_settlement_typed|done|done].
  - split; cbn [with_task sy_state sy_handlers sy_tasks]; [done|done|].
    intros t1 pc1 [[_ <-]|[_ H1]]%lookup_insert_Some; [by destruct j; cbn|by eapply Hk].
  - destruct (advance_task_typed E H an (sy_state s) pc st' pc') as [Hst' Hpc']; [done|by apply Hans|by eapply Hk|done|].
    split; cbn [with_task sy_state sy_handlers sy_tasks]; [done|done|].
    intros t1 pc1 [[_ <-]|[_ H1]]%lookup_insert_Some; [done|by eapply Hk].
Qed.

Lemma sys_reach_typed n0 st s :
  matcher_ok n0 st → state_typed st → sys_reach E H answers st s →
  Z.of_nat (n0 + base.size (sy_handlers s)) < NIL → system_typed s.
Proof using HL HT Hcfg Hans.
  intros Hm Hst. revert s. refine (sys_reach_ind E H answers st _ _ _).
  - intros _. split; cbn [sys_start sy_state sy_handlers sy_tasks]; [done|intros *; by rewrite lookup_empty..].
  - intros s1 s2 Hr Hstep IH Hn. pose proof (sys_step_size E H answers _ _ Hstep) as Hsz.
    assert (Hn1 : Z.of_nat (n0 + base.size (sy_handlers s1)) < NIL) by lia.
    eapply sys_step_typed; [|exact Hn1|exact Hstep|by apply IH].
    by apply (sys_reach_books E H answers Hcfg n0 st s1).
Qed.
End system.

Lemma new_state_typed : state_typed new_state.
Proof. by split. Qed.

(** The state the next start reads back. *)
Lemma restored_typed st : state_typed st → state_typed (apply_persisted_state new_state (snapshot_for_persistence st)).
Proof. intros []. by split. Qed.

(** ** Theorem *)

(** C8: Every integer stays in the type the code declares, and a handler aborts only next to the end of
    a 256-bit amount.  However handlers and background tasks interleave, as long as requests, clock,
    funding readings and unsealed positions are of their types: the state keeps its types, the tape, the
    nonces, the backstop's results, the volumes, the cached positions, the pending results and the scanned
    blocks, and so do the state a restart restores from it and the locals of every handler and task.  A
    handler's next step aborts only when it folds a fill into a position whose stored collateral is within 2^131 of the ends of its
    type, when it queues a result for a trader whose queued total is, or when it replies to an offer of
    size zero: everywhere else no sum overflows 256 bits, and no division by zero, [MIN / -1] or failed
    conversion is left.  This is for a backstop configuration in range, from a state of its types with
    reachable books that have served at most [n0] orders, while the requests so far and [n0] are below
    the 2^32 - 1 slots of a book's arena. *)
Theorem enclave_well_typed E H answers n0 st s
    `{!I256Laws (en_i256 E)} `{!I256Typed (en_i256 E)} :
  config_ok (backstop_config (en_dep E)) → (∀ an, answers an → answers_typed an) →
  matcher_ok n0 st → state_typed st → sys_reach E H answers st s →
  Z.of_nat (n0 + base.size (sy_handlers s)) < NIL →
  state_typed (sy_state s) ∧
  state_typed (apply_persisted_state new_state (snapshot_for_persistence (sy_state s))) ∧
  (∀ t h, sy_handlers s !! t = Some h → pc_typed (hd_pc h)) ∧
  (∀ t pc, sy_tasks s !! t = Some pc → task_typed pc) ∧
  (∀ t h an rd, sy_handlers s !! t = Some h → answers an → reading_typed rd →
     advance (at_chain E (an_load an)) (hd_payload h) (hd_signer h) rd (sy_state s) (hd_pc h) = Panic →
     abort_reason (at_chain E (an_load an)) (hd_payload h) (hd_signer h) (sy_state s) (hd_pc h)).
Proof.
  intros Hcfg Hans Hm Hst Hr Hn.
  pose proof (sys_reach_typed E H answers Hcfg Hans n0 st s Hm Hst Hr Hn) as Hs.
  split; [apply Hs|]. split; [by apply restored_typed, Hs|]. split; [intros t h Ht; by apply (sty_handlers s Hs t h)|]. split; [apply Hs|].
  intros t h an rd Ht Ha Hrd Hp.
  pose proof (sys_reach_books E H answers Hcfg n0 st s Hm Hr Hn) as Hb.
  pose proof (at_chain_typed E Hcfg n0 s t h (an_load an) rd Hb Hn Hs ltac:(by apply Hans) Hrd Ht) as Hty.
  by rewrite Hp in Hty.
Qed.

(** ** The race of [InterleaveProps], with typed answers *)

Lemma quoted_state_typed : state_typed quoted_state.
Proof.
  split; try done. intros m. apply maker_typed; [apply new_state_typed|]. by vm_compute.
Qed.

Lemma demo_answers_typed an : demo_answers = an → answers_typed an.
Proof. intros <-. by split. Qed.

Lemma enclave_well_typed_witness :
  ∃ s p, sys_reach demo_enclave demo_host (eq demo_answers) quoted_state s ∧
    position_cache (sy_state s) !! (7, demo_market) = Some p ∧ pm_signed_size p = -10 ∧ position_typed p.
Proof.
  pose proof race_value as Hv. apply fmap_Some in Hv as (s & Hs & Hv).
  pose proof (play_start demo_enclave demo_host (eq demo_answers) demo_reading demo_reading_typed demo_answers eq_refl
                quoted_state race_schedule s Hs) as Hr.
  assert (Hz : (λ s, base.size (sy_handlers s)) <$> raced = Some 3%nat) by by vm_compute.
  rewrite Hs in Hz. clear Hs. injection Hz as Hz. unfold race_view in Hv. injection Hv as _ _ _ Hp.
  symmetry in Hp. apply fmap_Some in Hp as (p & Hp & Hsize). exists s, p. split; [exact Hr|]. split; [exact Hp|].
  split; [by symmetry|].
  destruct (enclave_well_typed demo_enclave demo_host (eq demo_answers) 0 quoted_state s config_default_ok
              demo_answers_typed matcher_ok_quoted quoted_state_typed Hr ltac:(rewrite Hz; by vm_compute)) as (Hst & _).
  exact (map_Forall_lookup_1 _ _ _ _ (st_cache _ Hst) Hp).
Defined.
