(* ===== verification/Progress.v ===== *)
(** * Requests are answered and tasks come to an end

    Runs of the enclave without end, as [Interleave.sys_step] makes them: whatever arrives, starts and
    steps in between, a handler or task that keeps getting its turn reaches its response or outcome.
    Their loops, over the markets of the gate, the fills of a sweep, the contracts of a scan, the
    positions and the legs of a liquidation, are bounded by lists that are fixed when a loop is entered,
    so each step descends in a lexicographic order.  That a step does not abort is [StateTypes], and
    that the locks of positions are not waited for in a circle is [PositionLocks]. *)
From S2P Require Import Prelude Ints Types U256 I256 Risk Averages Fees MarketData Backstop.
From S2P Require Import Positions Liquidation Occupancy Book BookWf BookOps BookSpec BookRefine BookProps.
From S2P Require Import Wire Matcher MatcherBook MatcherProps MatcherTrace Persistence Service Display.
From S2P Require Import Tasks Interleave InterleaveProps.
Open Scope nat_scope.

(** ** Descending *)




(** ** Handlers *)




Section handlers.
Context (E : Enclave).






End handlers.

(** ** Tasks *)




Section tasks.
Context (E : Enclave) (H : Host).



End tasks.

(** ** Runs *)

Section runs.
Context (E : Enclave) (H : Host) (answers : Answers → Prop).




(** *** Handlers *)










(** *** Tasks *)






End runs.

(** ** A run: one move at the start, the same turn ever after *)

Section demo.
Context (first : Move) (turn : Move).


End demo.


Abbreviation order_run := (demo_run (Arrive 0 demo_request 8) (Go 0)).



Abbreviation check_run := (demo_run (Begin 0 (LiquidationCheck 7 [demo_market])) (Run 0)).



(** ** Theorems *)




